(* ===== verification/_CoqProject ===== *)
-Q . S2P
Prelude.v
Threads.v
TicketLock.v
SpinLock.v
RwLock.v
Once.v
Task.v
RunQueue.v
Scheduler.v
Hw.v
Prog.v
Apic.v
ApicIrq.v
IoApic.v
IoApicConc.v
Memory.v
X86.v
Trampoline.v
Switch.v
PerCpu.v
Driver.v
Init.v
ApEntry.v
SchedCode.v
SchedRefine.v
SchedAlone.v
SchedTasks.v
SchedConc.v
Fences.v
Tso.v
SpinTso.v
TicketTso.v
RwTso.v
OnceTso.v
SchedTso.v
SchedTsoConc.v
Boot.v
BootTso.v
ApicRegs.v
