(* ===== verification/Prelude.v ===== *)
(** * smp-nostd: verification development

    smp-nostd (src/src/*.rs) is bare-metal multiprocessor support for x86_64: it
    starts the application processors (APs), gives every core its data, locks,
    run queue and interrupts, and exposes a controller. This development models
    every module of the crate and proves what each part does. This file is the
    root: this header, and what the other files share (outcomes, machine
    integers, counting, step relations, hints and tactics).

    ** Parts of the program and where they are modelled

    - spinlock.rs, locks. [Threads.v]: a system of threads over one shared value,
      one atomic operation per step. [TicketLock.v] ([TicketLock], its guard),
      [SpinLock.v] ([SpinLock], its guard, [disable_interrupts],
      [enable_interrupts], [restore_interrupts], on CPUs with an interrupt flag
      and handlers), [RwLock.v] ([RwLock], both guards), [Once.v] ([Once]).
      Each lock is a record with the fields of the struct; each method is a state
      machine whose transitions ([tl_act], [spin_code], [rw_act], [once_act]) are
      its atomic operations, interleaved arbitrarily. [Tso.v]: any such machine on
      x86 memory with a store buffer per processor ([tso_act]), the class
      [StoreProtocol] of what a lock must promise, and the simulation that follows
      from it ([tso_simulation]). [SpinTso.v], [TicketTso.v], [RwTso.v] and
      [OnceTso.v] say which operations of the four locks are stores or locked
      instructions, and keep the promise.
    - spinlock.rs, fences. [Fences.v]: the six functions as the instructions they
      compile to, x86 memory with store buffers, and what the compiler may move.
    - scheduler.rs. [Task.v] (task states, [CpuContext], [Task::new]),
      [RunQueue.v] (the queue of a core; the class [TaskQueue] with its laws
      [TaskQueueLaws] is what it promises), [Scheduler.v] ([Scheduler], proved
      against that interface), [Switch.v] (the assembly of [context_switch],
      instruction by instruction). Cores that call the scheduler at the same time:
      [SchedCode.v] has every method again, as a program over the run queues
      ([c_call]) and every operation of a run queue as a program of atomic
      operations ([q_push], ...: the interrupt flag, the lock word, the deque, the
      counter), and a machine that interleaves the cores ([conc_act]);
      [SchedRefine.v] is the simulation of this machine by one whose steps are the
      operations of [RunQueue.v]; [SchedTasks.v] follows the tasks through the
      latter; [SchedConc.v] has the theorems on the executions; [SchedAlone.v]
      proves that a call that runs alone is the function of [Scheduler.v];
      [SchedTso.v] puts the machine on memory with store buffers, where several
      cores, each in the critical section of its queue, have stores on their way,
      and [SchedTsoConc.v] has the simulation and the theorems.
    - apic.rs, ioapic.rs. [Hw.v]: the class [Machine] of devices (volatile
      accesses, MSR instructions) and the monad [HW], a machine with the log of
      accesses. [Apic.v]: every register, IPI and timer function of [LocalApic];
      [ApicRegs.v]: all of them as calls ([lapic_exec]), and what the registers take.
      [IoApic.v]: [RedirectionEntry], [IoApic], [IoApicManager]. [Prog.v]: calls as
      programs of device accesses ([prog]), which execute in [HW] when alone
      ([prun]) and which several processors ([prog_act]) or an interrupt handler
      ([with_irq]) interleave; [IoApicConc.v]: the methods that change redirection
      tables as such programs ([c_io_call], [c_route_gsi]); [ApicIrq.v]: [send_ipi]
      as such a program ([c_send_ipi]).
    - trampoline.rs. [Memory.v]: bytes in memory and the layout of repr(C)
      structures. [X86.v]: an interpreter for the machine instructions that the
      bytes of the trampoline form. [Trampoline.v]: the bytes, [TrampolineData],
      [ApTrampoline].
    - percpu.rs. [PerCpu.v]: the heap of structures, the static array, GS bases.
      [Boot.v]: processors that register at the same time, and call [all_cpus]; a
      machine whose steps are the accesses to the statics ([boot_exec]).
      [BootTso.v]: this machine on memory with store buffers.
    - driver.rs. [Driver.v]: [SmpController] and [ap_entry], on a world made of
      the states above; it calls the definitions of Apic, IoApic, PerCpu,
      Trampoline, Task and Scheduler as the code does. [Init.v]: theorems on
      [init] as a whole. [ApEntry.v]: the idle loop of [ap_entry], one machine
      instruction per step, and theorems on an application processor.

    ** What the theorems show

    - Locks: mutual exclusion, first-come first-served order and refinement of a
      FIFO lock through the wrap-around of the 64-bit counters (TicketLock);
      mutual exclusion over CPUs and interrupt handlers, no deadlock of a CPU
      with itself, and what nested guards do to the interrupt flag (SpinLock);
      readers and writer exclusion, stability of the data and progress (RwLock);
      exactly one initialization, seen completed by every caller (Once). On x86
      memory with store buffers each does what it does on sequentially consistent
      memory, and whoever holds a guard (or has seen the initialization) sees all
      earlier stores; but [SpinLock::try_lock], [try_read] and [try_write] may fail
      on a lock just dropped, and a load of the word of [Once] may miss the
      completion.
    - Fences: calls of [fence_seq_cst] or [mfence] between stores and later loads make
      a program, as written, sequentially consistent, and those of the atomic fences
      do if they leave the compiler nothing to exchange; the atomic fences do what they are for whatever the compiler
      moves, and the [mfence] function does not.
    - Scheduling: a run queue is a double-ended queue with an exact length; where
      [spawn] places and what [schedule] picks and steals; no sequence of calls
      loses or duplicates a task; stealing ignores affinity. The same for calls of
      several cores and timer handlers, interleaved at their atomic operations:
      every execution is one of atomic run-queue operations, loses and duplicates
      no task, has no panic and no deadlock and can finish; the counters that are
      read without the lock never wrap; and one call alone computes what the
      function says. With store buffers every execution has the operations of one
      without, so that the tasks are safe and the calls can finish there too.
    - Context switch: round trip between two contexts, start of a new task, and
      the operand registers for which it goes wrong.
    - APIC: the interrupts that reach the bus, in both access modes, from the log
      of accesses ([sent_ipis]); when the polling loop ends; timer calibration;
      when the hardware accepts all accesses of a method ([accepted]: the registers
      exist in the mode, have the direction, and no reserved bits are written), which
      five methods never achieve in x2APIC mode; what is sent when a handler that
      sends interrupts [send_ipi], at every access.
    - I/O APIC: entries round trip through the indirect registers and leave the
      other pins alone; masking, routing; the 8-bit index and count overflows.
      Processors that use different I/O APICs at the same time do not disturb each
      other; two on one I/O APIC can spoil each other's routes.
    - Trampoline and boot: executing the installed page never sets the ready flag
      (its end is overwritten by the GDT), so [boot_aps] counts no AP; the offsets
      of the code are not those of the structure; [boot_aps] is a run of the protocol
      [boots] (memory prepared, INIT, STARTUP and, if the flag is clear in the world
      reached then, a second STARTUP; polls), whatever the APs do; [halt_aps],
      [spawn_on_core].
    - Initialization: the register accesses that configure the bootstrap
      processor's local APIC; what [init] does in which order ([bsp_configured], then
      [boots]) and what it leaves behind (controller, masked pins, per-CPU
      structure, empty queues), whatever the APs do within [ap_effect];
      what [ap_entry] does to its local APIC and the per-CPU data; which
      interrupts reach the idle loop and when it stops.
    - Per-CPU data: registrations and the three ways of lookup agree; so they do
      when processors register at the same time, on memory with store buffers too.

    ** Conventions

    A [w]-bit integer is a [Z]; [wrap] is wrapping arithmetic and [arith] the
    plain operators, which panic or wrap according to the build [profile].
    [res] is the outcome of code that may panic; [OutOfFuel] only comes from the
    ICR polling loop of [Apic.v] and [ApicIrq.v], whose theorems say how much fuel
    is enough (more than the number of busy reads, more than twice that for a call
    that is interrupted). All other loops are structural, on the list or range that
    the code iterates over. Undefined behaviour (a dangling
    per-CPU pointer) is [None]. A machine of [Threads.v] is sequentially
    consistent; on store buffers ([Tso.v]) a closure of [Once] and a write through
    a guard are each one delayed store, and reads through a guard see the reader's
    own buffer. The programs of [SchedCode.v] are finite: a failed exchange is a
    step that stays where it is. Device registers are uncached, so that a device
    access of [Prog.v] is one step. Hypotheses on code outside the crate are named:
    [io_bus] and [io_select] (the registers of an I/O APIC), [apic_timer],
    [idle_for], [accepts_within] (the ICR gets idle within so many polls),
    [reads_clean] (reserved bits read as 0), [outside_page] (the I/O APICs are not in
    the page of the local APIC),
    [lapic_footprint] (the local APIC's registers are apart from what is stated of
    the rest), [env_steps] and [env_runs_trampoline] (what other processors do while
    this one waits); examples instantiate them with concrete devices.

    ** Not modelled

    Log calls; the spin counters that only feed log messages; lib.rs (re-exports);
    functions that only return a field.
    Several guards held at once by one CPU ([multi]) and the flags of driver.rs are
    on sequentially consistent memory only. The diagnostics [total_queued] and
    [queue_lengths] run alone only. Device accesses are interrupted in [send_ipi]
    only, and the handler is not interrupted itself. In [Boot.v] and [BootTso.v] the
    plain accesses to [PERCPU_ARRAY] are single steps, as an aligned pointer is on
    x86; to the language they are a data race of [register_percpu] with
    [all_cpus]. *)

From stdpp Require Export base tactics numbers list relations gmap sets.
From Stdlib Require Export ZArith Lia.

#[global] Open Scope Z_scope.

(** ** Build profile

    Rust's [+], [-], [*] on machine integers panic on overflow when the crate
    is compiled with overflow checks (the dev profile) and wrap around without
    them (the release profile); [debug_assert!] follows the same switch. *)
Inductive profile := Debug | Release.

(** ** Outcomes of a computation

    [Ok a]: the code returned [a]; [Panic]: it panicked (a failed [assert!], an
    index out of range, a checked overflow, a division by zero);
    [OutOfFuel]: the bound put on an unbounded loop was reached. *)
Inductive res (A : Type) :=
| Ok (a : A)
| Panic
| OutOfFuel.
Arguments Ok {A} a.
Arguments Panic {A}.
Arguments OutOfFuel {A}.

#[global] Instance res_ret : MRet res := fun A a => Ok a.
#[global] Instance res_bind : MBind res := fun A B f m =>
  match m with
  | Ok a => f a
  | Panic => Panic
  | OutOfFuel => OutOfFuel
  end.

(** ** Machine integers

    A [w]-bit unsigned integer is a [Z] in [0 .. 2^w - 1]. *)
Definition wrap (w x : Z) : Z := x mod 2 ^ w.

Definition in_range (w x : Z) : Prop := 0 <= x < 2 ^ w.

#[global] Instance in_range_dec w x : Decision (in_range w x).
Proof. unfold in_range. apply _. Defined.

(** Result of an arithmetic operator whose mathematical value is [x]. *)
Definition arith (p : profile) (w x : Z) : res Z :=
  if decide (in_range w x) then Ok x
  else match p with
       | Debug => Panic
       | Release => Ok (wrap w x)
       end.

(** Rust's [!x] on a [w]-bit unsigned integer. *)
Definition bnot (w x : Z) : Z := Z.lxor x (Z.ones w).

(** Rust's [x << n] on a [w]-bit unsigned integer, for a constant [n < w]:
    the bits shifted out are dropped, in both profiles. *)
Definition shl (w x n : Z) : Z := wrap w (Z.shiftl x n).

(** ** Counting the elements of a list that satisfy a test *)
Fixpoint count_if {A} (f : A -> bool) (l : list A) : nat :=
  match l with
  | [] => 0
  | x :: l => Nat.b2n (f x) + count_if f l
  end%nat.

(** ** Generic tactics *)
Create HintDb smp.
Create Rewrite HintDb smp_rw.
Create Rewrite HintDb occurrences.

(** Splits a lookup in a list that one write changed. *)
Ltac list_update_cases :=
  repeat match goal with
         | H : <[_:=_]> _ !! _ = Some _ |- _ =>
             apply list_lookup_insert_Some in H;
             destruct H as [(?&?&?)|[??]]; simplify_eq
         end.

(** ** Lemmas on [count_if] *)
Section count_if.
Context {A : Type} (f : A -> bool).
Implicit Types l : list A.

Lemma count_if_insert l i x y :
  l !! i = Some x ->
  (count_if f (<[i:=y]> l) + Nat.b2n (f x) = count_if f l + Nat.b2n (f y))%nat.
Proof.
  revert i. induction l as [|z l IH]; intros [|i] Hi; simplify_eq/=; try lia.
  specialize (IH i Hi). lia.
Qed.

Lemma count_if_pos l i x : l !! i = Some x -> f x = true -> (1 <= count_if f l)%nat.
Proof.
  revert i. induction l as [|z l IH]; intros [|i] Hi Hf; simplify_eq/=.
  - rewrite Hf. simpl. lia.
  - specialize (IH i Hi Hf). lia.
Qed.

Lemma count_if_le l : (count_if f l <= length l)%nat.
Proof. induction l as [|x l IH]; simpl; [lia|]. destruct (f x); simpl; lia. Qed.

Lemma count_if_unique l i j x y :
  (count_if f l <= 1)%nat ->
  l !! i = Some x -> l !! j = Some y -> f x = true -> f y = true -> i = j.
Proof.
  revert i j. induction l as [|z l IH]; intros [|i] [|j] Hc Hi Hj Hx Hy; simplify_eq/=; try done.
  - rewrite Hx in Hc. simpl in Hc. pose proof (count_if_pos l j y Hj Hy). lia.
  - rewrite Hy in Hc. simpl in Hc. pose proof (count_if_pos l i x Hi Hx). lia.
  - f_equal. apply IH; try done. lia.
Qed.

Lemma count_if_exists l : (1 <= count_if f l)%nat -> exists i x, l !! i = Some x /\ f x = true.
Proof.
  induction l as [|z l IH]; simpl; [lia|]. destruct (f z) eqn:Hz.
  - intros _. by exists 0%nat, z.
  - intros H. destruct IH as (i & x & ? & ?); [done|]. by exists (S i), x.
Qed.

Lemma count_if_replicate n x : count_if f (replicate n x) = (n * Nat.b2n (f x))%nat.
Proof. induction n as [|n IH]; simpl; lia. Qed.
End count_if.

(** ** Permutations by counting occurrences *)
Section occurrences.
Context `{EqDecision A}.
Implicit Types (l : list A) (x : A).

(** How often [x] is in [l]. *)
Definition occurrences x l : nat := count_if (fun y => bool_decide (y = x)) l.

Lemma occurrences_app x l k : occurrences x (l ++ k) = (occurrences x l + occurrences x k)%nat.
Proof. unfold occurrences. induction l as [|y l IH]; simpl; lia. Qed.

Lemma occurrences_cons x y l : occurrences x (y :: l) = (Nat.b2n (bool_decide (y = x)) + occurrences x l)%nat.
Proof. done. Qed.

Lemma occurrences_nil x : occurrences x [] = 0%nat.
Proof. done. Qed.

Lemma occurrences_perm x l k : l ≡ₚ k -> occurrences x l = occurrences x k.
Proof. unfold occurrences. induction 1; simpl; lia. Qed.

Lemma occurrences_in x l : (0 < occurrences x l)%nat -> x ∈ l.
Proof.
  induction l as [|y l IH]; [rewrite occurrences_nil; lia|]. rewrite occurrences_cons, elem_of_cons.
  case_bool_decide; [by left|]. simpl. right. by apply IH.
Qed.

Lemma perm_occurrences l k : (forall x, occurrences x l = occurrences x k) -> l ≡ₚ k.
Proof.
  revert k. induction l as [|y l IH]; intros k Hall.
  - destruct k as [|z k]; [done|]. specialize (Hall z).
    rewrite occurrences_cons, bool_decide_eq_true_2 in Hall by done. done.
  - assert (Hin : y ∈ k).
    { apply occurrences_in. rewrite <-Hall, occurrences_cons, bool_decide_eq_true_2 by done. simpl. lia. }
    apply elem_of_Permutation in Hin as [k' Hk]. rewrite Hk. apply Permutation_cons; [done|].
    apply IH. intros x. specialize (Hall x). rewrite (occurrences_perm x _ _ Hk), !occurrences_cons in Hall. lia.
Qed.

(** A list of lists of which one member changes. *)
Lemma occurrences_concat_insert x (ls : list (list A)) i l l' :
  ls !! i = Some l ->
  (occurrences x (concat (<[i := l']> ls)) + occurrences x l =
   occurrences x (concat ls) + occurrences x l')%nat.
Proof.
  revert i. induction ls as [|k ls IH]; intros [|i] Hi; simplify_eq/=; rewrite !occurrences_app; [lia|].
  specialize (IH i Hi). lia.
Qed.
End occurrences.

#[export] Hint Rewrite @occurrences_app @occurrences_cons @occurrences_nil : occurrences.

(** Proves a permutation from permutations, by counting any [x]. *)
Ltac perm_lia :=
  apply perm_occurrences;
  let x := fresh "x" in
  intros x;
  repeat match goal with
         | H : _ ≡ₚ _ |- _ => apply (occurrences_perm x) in H; autorewrite with occurrences in H
         end;
  autorewrite with occurrences; lia.

Lemma Forall_snoc {A} (P : A -> Prop) l x : Forall P (l ++ [x]) <-> Forall P l /\ P x.
Proof. rewrite Forall_app, Forall_cons, Forall_nil. tauto. Qed.

(** ** Lemmas on machine integers *)
Lemma wrap_small w x : in_range w x -> wrap w x = x.
Proof. intros. unfold wrap. apply Z.mod_small. done. Qed.

Lemma wrap_range w x : 0 <= w -> in_range w (wrap w x).
Proof. intros. unfold wrap, in_range. apply Z.mod_pos_bound. lia. Qed.

Lemma wrap_add_l w x y : wrap w (wrap w x + y) = wrap w (x + y).
Proof. unfold wrap. apply Zplus_mod_idemp_l. Qed.

Lemma wrap_add_r w x y : wrap w (x + wrap w y) = wrap w (x + y).
Proof. unfold wrap. apply Zplus_mod_idemp_r. Qed.

(** Two values that wrap to the same word and are less than [2^w] apart are equal. *)
Lemma wrap_inj_lt w a i j :
  0 <= w -> 0 <= i < 2 ^ w -> 0 <= j < 2 ^ w ->
  wrap w (a + i) = wrap w (a + j) -> i = j.
Proof.
  unfold wrap. intros Hw Hi Hj H.
  pose proof (Z.div_mod (a + i) (2 ^ w) ltac:(lia)).
  pose proof (Z.div_mod (a + j) (2 ^ w) ltac:(lia)).
  set (m := 2 ^ w) in *. set (q := (a + i) / m) in *. set (r := (a + j) / m) in *.
  assert (i - j = m * (q - r)) as Hd by lia.
  destruct (decide (q = r)); [subst; lia|]. nia.
Qed.

Lemma arith_in_range p w x : in_range w x -> arith p w x = Ok x.
Proof. intros. unfold arith. by rewrite decide_True. Qed.

Lemma arith_release w x : 0 <= w -> arith Release w x = Ok (wrap w x).
Proof. intros. unfold arith. case_decide; [|done]. by rewrite wrap_small. Qed.

Lemma arith_debug_overflow w x : ~ in_range w x -> arith Debug w x = Panic.
Proof. intros. unfold arith. by rewrite decide_False. Qed.

(** A decidable property of a byte holds when it holds of the 256 bytes. *)
Lemma byte_all (P : Z -> Prop) `{!forall b, Decision (P b)} b :
  forallb (fun k => bool_decide (P k)) (seqZ 0 256) = true -> in_range 8 b -> P b.
Proof.
  rewrite forallb_forall. intros Hall Hb. specialize (Hall b).
  apply bool_decide_eq_true in Hall; [done|].
  apply list_elem_of_In, elem_of_seqZ. unfold in_range in Hb. lia.
Qed.

#[export] Hint Rewrite wrap_add_l wrap_add_r : smp_rw.
(** Bit operations stay in range. *)
Lemma in_range_shiftr w x : 0 <= w -> in_range w x <-> 0 <= x /\ Z.shiftr x w = 0.
Proof.
  intros Hw. unfold in_range. rewrite Z.shiftr_div_pow2 by done. pose proof (Z.pow_pos_nonneg 2 w ltac:(lia) Hw).
  split; intros [H0 H1]; (split; [done|]); [by apply Z.div_small|]. apply Z.div_small_iff in H1; lia.
Qed.

Lemma in_range_lor w x y : 0 <= w -> in_range w x -> in_range w y -> in_range w (Z.lor x y).
Proof.
  intros Hw [Hx Hx']%in_range_shiftr [Hy Hy']%in_range_shiftr; [|done..]. apply in_range_shiftr; [done|].
  split; [by apply Z.lor_nonneg|]. by rewrite Z.shiftr_lor, Hx', Hy'.
Qed.

Lemma in_range_land w x y : 0 <= w -> in_range w x -> 0 <= y -> in_range w (Z.land x y).
Proof.
  intros Hw [Hx Hx']%in_range_shiftr Hy; [|done]. apply in_range_shiftr; [done|].
  split; [apply Z.land_nonneg; by left|]. by rewrite Z.shiftr_land, Hx'.
Qed.

#[export] Hint Resolve wrap_small wrap_range arith_in_range : smp.

(** ** Termination: a list of which one member goes down *)
Section one_changes.
Context {A : Type} (R : relation A).

Definition one_changes (l' l : list A) : Prop := exists i x y, l !! i = Some x /\ R y x /\ l' = <[i := y]> l.

Lemma acc_one_changes_cons x l : Acc R x -> Acc one_changes l -> Acc one_changes (x :: l).
Proof.
  intros Hx. revert l. induction Hx as [x _ IHx]. intros l Hl. induction Hl as [l Hl IHl].
  constructor. intros l' ([|i] & a & b & Hi & HR & ->); simplify_eq/=.
  - apply IHx; [done|]. by constructor.
  - apply IHl. by exists i, a, b.
Qed.

Lemma acc_one_changes l : Forall (Acc R) l -> Acc one_changes l.
Proof.
  induction 1 as [|x l Hx Hl IH]; [|by apply acc_one_changes_cons].
  constructor. by intros l' (i & a & b & Hi & _).
Qed.
End one_changes.

(** ** Invariants of step relations *)
Lemma rtc_invariant {S} (R : relation S) (I : S -> Prop) s s' :
  (forall x y, I x -> R x y -> I y) -> rtc R s s' -> I s -> I s'.
Proof. intros Hstep. induction 1; eauto. Qed.

(** ** Executions of a labelled step relation, with their events in order *)
Inductive trace {S E} (step : S -> E -> S -> Prop) : S -> list E -> S -> Prop :=
| trace_nil s : trace step s [] s
| trace_snoc s tr s' e s'' :
    trace step s tr s' -> step s' e s'' -> trace step s (tr ++ [e]) s''.

Lemma trace_cons {S E} (step : S -> E -> S -> Prop) s e s1 tr s2 :
  step s e s1 -> trace step s1 tr s2 -> trace step s (e :: tr) s2.
Proof.
  intros He. induction 1 as [s1|s1 tr s2 e2 s3 Htr IH He2].
  - apply (trace_snoc step s [] s e s1); [constructor|done].
  - apply (trace_snoc step s (e :: tr) s2 e2 s3); auto.
Qed.

Lemma trace_app {S E} (step : S -> E -> S -> Prop) s tr1 s1 tr2 s2 :
  trace step s tr1 s1 -> trace step s1 tr2 s2 -> trace step s (tr1 ++ tr2) s2.
Proof.
  intros H1 H2. induction H2 as [|s1 tr2 s2 e s3 H2 IH Hstep]; [by rewrite app_nil_r|].
  rewrite app_assoc. eapply trace_snoc; eauto.
Qed.

Lemma trace_one {S E} (step : S -> E -> S -> Prop) s e s1 : step s e s1 -> trace step s [e] s1.
Proof. intros Hstep. exact (trace_snoc step s [] s e s1 (trace_nil step s) Hstep). Qed.

(** An invariant of every step is an invariant of executions. *)
Lemma trace_invariant_plain {S E} (step : S -> E -> S -> Prop) (I : S -> Prop) s tr s' :
  (forall x e y, I x -> step x e y -> I y) -> trace step s tr s' -> I s -> I s'.
Proof. intros Hstep. induction 1; eauto. Qed.

(** An invariant indexed by the number of steps made. *)
Lemma trace_invariant {S E} (step : S -> E -> S -> Prop) (I : nat -> S -> Prop) (bound : nat -> Prop) s tr s' :
  (forall n x e y, I n x -> bound (Datatypes.S n) -> step x e y -> I (Datatypes.S n) y) ->
  (forall n, bound (Datatypes.S n) -> bound n) ->
  trace step s tr s' -> I 0%nat s -> bound (length tr) -> I (length tr) s'.
Proof.
  intros Hstep Hb. induction 1 as [|s tr s' e s'' Htr IH He]; intros H0 Hlen; [done|].
  rewrite length_app, Nat.add_1_r in *. eauto.
Qed.
