(* ===== verification/Threads.v ===== *)
(** * Threads: interleaving of threads on a shared state

    The lock components share one shape: a shared state (the atomics of the
    lock), a list of thread-local states (where each thread is in the code), and
    a function that runs one atomic operation of one thread. This file gives the
    step relation of such a system, its executions, a scheduler that runs it on
    concrete inputs, an exploration of all its states where they are finitely many,
    and the inversion lemma the components use. Atomic
    operations are interleaved in one total order (sequential consistency). *)

From S2P Require Import Prelude.

Section threads.
Context {L P A E : Type}.

(** [act t a l q]: thread [t], with local state [q], asked to do [a], runs its
    next atomic operation on [l]. [None]: [a] is not enabled there. *)
Context (act : nat -> A -> L -> P -> option (L * P * E)).

Record sys := Sys { shared : L; locals : list P }.

Inductive step : sys -> nat * E -> sys -> Prop :=
| step_act l qs t q a l' q' e :
    qs !! t = Some q ->
    act t a l q = Some (l', q', e) ->
    step (Sys l qs) (t, e) (Sys l' (<[t:=q']> qs)).

(** Runs a schedule: who moves, and what it is asked to do. *)
Fixpoint run (s : sys) (sched : list (nat * A)) : option (sys * list (nat * E)) :=
  match sched with
  | [] => Some (s, [])
  | (t, a) :: sched =>
      match locals s !! t with
      | None => None
      | Some q =>
          match act t a (shared s) q with
          | None => None
          | Some (l', q', e) =>
              match run (Sys l' (<[t:=q']> (locals s))) sched with
              | None => None
              | Some (s', tr) => Some (s', (t, e) :: tr)
              end
          end
      end
  end.

Lemma step_inv s t e s' :
  step s (t, e) s' ->
  exists q a l' q', locals s !! t = Some q /\ act t a (shared s) q = Some (l', q', e) /\
                    s' = Sys l' (<[t:=q']> (locals s)).
Proof. inversion 1; subst; simpl. eauto 10. Qed.

Lemma run_trace s sched s' tr : run s sched = Some (s', tr) -> trace step s tr s'.
Proof.
  revert s s' tr. induction sched as [|[t a] sched IH]; intros s s' tr; simpl.
  - intros [= <- <-]. constructor.
  - intros Hrun. destruct s as [l qs]. simpl in *.
    destruct (qs !! t) as [q|] eqn:Hq; [|done].
    destruct (act t a l q) as [[[l1 q1] e]|] eqn:Ha; [|done].
    destruct (run _ sched) as [[s1 tr1]|] eqn:Hr; simplify_eq.
    eapply trace_cons; [by econstructor|]. by apply IH.
Qed.

(** Local states of the threads that did not move are unchanged. *)
Lemma step_length s e s' : step s e s' -> length (locals s') = length (locals s).
Proof. inversion 1; subst; simpl. by rewrite length_insert. Qed.

(** ** Exploring a finite system *)
Section explore.
Context `{!EqDecision L, !EqDecision P} (acts : list A).

#[global] Instance sys_eq_dec : EqDecision sys.
Proof. solve_decision. Defined.

(** The states one move away. *)
Definition next (s : sys) : list sys :=
  t ← seq 0 (length (locals s));
  a ← acts;
  match locals s !! t with
  | Some q =>
      match act t a (shared s) q with
      | Some (l', q', _) => [Sys l' (<[t:=q']> (locals s))]
      | None => []
      end
  | None => []
  end.

Fixpoint explore (fuel : nat) (todo seen : list sys) : list sys :=
  match fuel, todo with
  | S fuel, s :: todo =>
      if bool_decide (s ∈ seen) then explore fuel todo seen else explore fuel (next s ++ todo) (s :: seen)
  | _, _ => seen
  end.

Definition closed (ss : list sys) : bool :=
  forallb (fun s => forallb (fun s' => bool_decide (s' ∈ ss)) (next s)) ss.

Lemma step_next s e s' : (forall a, a ∈ acts) -> step s e s' -> s' ∈ next s.
Proof.
  intros Hacts Hstep. destruct e as [t e]. apply step_inv in Hstep as (q & a & l' & q' & Hq & Ha & ->).
  unfold next. apply list_elem_of_bind. exists t. split.
  - apply list_elem_of_bind. exists a. rewrite Hq, Ha. split; [by apply list_elem_of_singleton|done].
  - apply elem_of_seq. split; [lia|]. by eapply lookup_lt_Some.
Qed.

(** A closed set of states that contains the first one contains all. *)
Lemma closed_trace ss s tr s' :
  (forall a, a ∈ acts) -> closed ss = true -> s ∈ ss -> trace step s tr s' -> s' ∈ ss.
Proof.
  intros Hacts Hcl Hs Htr. induction Htr as [|s tr s1 e s2 Htr IH Hstep]; [done|].
  specialize (IH Hs). apply list_elem_of_In in IH.
  unfold closed in Hcl. rewrite forallb_forall in Hcl. specialize (Hcl s1 IH). rewrite forallb_forall in Hcl.
  apply (bool_decide_unpack (s2 ∈ ss)). rewrite Is_true_true. apply Hcl, list_elem_of_In. by eapply step_next.
Qed.
End explore.
End threads.
Arguments sys : clear implicits.
