(* ===== verification/TicketLock.v ===== *)
(** * TicketLock: the fair FIFO spinlock of src/src/spinlock.rs

    The lock word pair, the atomic operations of [lock], [try_lock], [Drop] and
    [is_locked], a system of threads that interleave at those operations, and an
    abstract FIFO lock (a queue of waiters) that the system refines. *)

From S2P Require Import Prelude Threads.

(** ** Data *)

Record ticket_lock (T : Type) := TicketLock {
  next_ticket : Z;
  now_serving : Z;
  tl_data : T;
}.
Arguments TicketLock {T} _ _ _.
Arguments next_ticket {T} _.
Arguments now_serving {T} _.
Arguments tl_data {T} _.

(** Where a thread is in [lock], [try_lock] or the life of its guard. *)
Inductive tl_pc :=
| TIdle
| TSpin (ticket : Z)
| THeld
| TTryNext (current : Z)
| TTryCas (next : Z)
| TPanicked.

(** What the environment asks a thread to do next: start a call, use the guard,
    drop it, or run the next atomic operation of the call it is in. *)
Inductive tl_action (T : Type) :=
| ActLock
| ActTryLock
| ActWrite (v : T)
| ActDrop
| ActRun.
Arguments ActLock {T}.
Arguments ActTryLock {T}.
Arguments ActWrite {T} v.
Arguments ActDrop {T}.
Arguments ActRun {T}.

(** The visible events of a thread. *)
Inductive tl_event :=
| EvRequest
| EvWait
| EvAcquire
| EvAccess
| EvRelease
| EvTry
| EvTryFail
| EvTryAcquire
| EvPanic.

#[global] Instance tl_event_eq_dec : EqDecision tl_event.
Proof. solve_decision. Defined.

#[global] Instance tl_pc_eq_dec : EqDecision tl_pc.
Proof. solve_decision. Defined.

(** ** The operations of the code *)

Section operations.
Context {T : Type}.
Implicit Types l : ticket_lock T.

Definition tl_new (data : T) : ticket_lock T := TicketLock 0 0 data.

(** [self.next_ticket.fetch_add(1, Relaxed)]: atomic add wraps around. *)
Definition tl_take l : Z * ticket_lock T :=
  (next_ticket l, TicketLock (wrap 64 (next_ticket l + 1)) (now_serving l) (tl_data l)).

(** One test of the [while] loop of [lock]: is it this ticket's turn? *)
Definition tl_served l (ticket : Z) : bool := now_serving l =? ticket.

(** [compare_exchange(next, next + 1)] of [try_lock]; [next + 1] is ordinary
    arithmetic, computed before the exchange. *)
Definition tl_try_cas (p : profile) l (next : Z) : res (bool * ticket_lock T) :=
  new ← arith p 64 (next + 1);
  mret (if next_ticket l =? next
        then (true, TicketLock new (now_serving l) (tl_data l))
        else (false, l)).

(** [Drop for TicketLockGuard]: [now_serving.fetch_add(1, Release)]. *)
Definition tl_drop l : ticket_lock T :=
  TicketLock (next_ticket l) (wrap 64 (now_serving l + 1)) (tl_data l).

(** [is_locked] loads [now_serving] from one state of the lock and then
    [next_ticket] from a later one. *)
Definition tl_is_locked (at_first at_second : ticket_lock T) : bool :=
  negb (now_serving at_first =? next_ticket at_second).

(** [Deref] and [DerefMut] of the guard. *)
Definition tl_deref l : T := tl_data l.

Definition tl_deref_mut l (v : T) : ticket_lock T :=
  TicketLock (next_ticket l) (now_serving l) v.

(** One atomic operation of one thread. [None]: the action is not enabled at
    this program point. *)
Definition tl_act (p : profile) (a : tl_action T) l (pc : tl_pc)
  : option (ticket_lock T * tl_pc * tl_event) :=
  match pc, a with
  | TIdle, ActLock => let '(ticket, l') := tl_take l in Some (l', TSpin ticket, EvRequest)
  | TIdle, ActTryLock => Some (l, TTryNext (now_serving l), EvTry)
  | TSpin ticket, ActRun =>
      if tl_served l ticket then Some (l, THeld, EvAcquire) else Some (l, pc, EvWait)
  | THeld, ActWrite v => Some (tl_deref_mut l v, THeld, EvAccess)
  | THeld, ActDrop => Some (tl_drop l, TIdle, EvRelease)
  | TTryNext current, ActRun =>
      if current =? next_ticket l
      then Some (l, TTryCas (next_ticket l), EvTry)
      else Some (l, TIdle, EvTryFail)
  | TTryCas next, ActRun =>
      match tl_try_cas p l next with
      | Ok (true, l') => Some (l', THeld, EvTryAcquire)
      | Ok (false, l') => Some (l', TIdle, EvTryFail)
      | _ => Some (l, TPanicked, EvPanic)
      end
  | _, _ => None
  end.

(** ** The system: one lock, a fixed list of threads *)

Definition tl_init (threads : nat) (data : T) : sys (ticket_lock T) tl_pc :=
  Sys (tl_new data) (replicate threads TIdle).
End operations.

Abbreviation tl_sys T := (sys (ticket_lock T) tl_pc).
Abbreviation tl_step p := (step (fun _ => tl_act p)).

(** ** Abstract specification: a queue of waiters, the head may hold the lock *)

Record fifo := Fifo { fq : list nat; fheld : bool }.

Definition fifo_init : fifo := Fifo [] false.

Inductive fifo_step : fifo -> nat * tl_event -> fifo -> Prop :=
| fifo_request q h t : t ∉ q -> fifo_step (Fifo q h) (t, EvRequest) (Fifo (q ++ [t]) h)
| fifo_wait a t : t ∈ fq a -> fifo_step a (t, EvWait) a
| fifo_acquire q t : fifo_step (Fifo (t :: q) false) (t, EvAcquire) (Fifo (t :: q) true)
| fifo_access q t : fifo_step (Fifo (t :: q) true) (t, EvAccess) (Fifo (t :: q) true)
| fifo_release q t : fifo_step (Fifo (t :: q) true) (t, EvRelease) (Fifo q false)
| fifo_try a t ev : ev = EvTry \/ ev = EvTryFail -> fifo_step a (t, ev) a
| fifo_try_acquire t : fifo_step (Fifo [] false) (t, EvTryAcquire) (Fifo [t] true).

(** The events that [lock] and the guard produce, without [try_lock]. *)
Definition lock_event (ev : tl_event) : bool :=
  match ev with
  | EvRequest | EvWait | EvAcquire | EvAccess | EvRelease => true
  | _ => false
  end.

Definition requests (tr : list (nat * tl_event)) : list nat :=
  (filter (fun e => e.2 = EvRequest) tr).*1.

Definition acquisitions (tr : list (nat * tl_event)) : list nat :=
  (filter (fun e => e.2 = EvAcquire) tr).*1.

(** ** The refinement relation *)

Definition tl_active (pc : tl_pc) : bool :=
  match pc with TSpin _ | THeld => true | _ => false end.

Definition tl_held (pc : tl_pc) : bool :=
  match pc with THeld => true | _ => false end.

(** Where the thread at position [i] of the queue must be. *)
Definition slot_pc (now : Z) (held : bool) (i : nat) : tl_pc :=
  if held && (i =? 0)%nat then THeld else TSpin (wrap 64 (now + Z.of_nat i)).

Record tl_rel {T} (s : tl_sys T) (a : fifo) : Prop := {
  rel_now : in_range 64 (now_serving (shared s));
  rel_next : next_ticket (shared s) =
             wrap 64 (now_serving (shared s) + Z.of_nat (length (fq a)));
  rel_threads : Z.of_nat (length (locals s)) < 2 ^ 64;
  rel_nodup : NoDup (fq a);
  rel_slot : forall i t, fq a !! i = Some t ->
             locals s !! t = Some (slot_pc (now_serving (shared s)) (fheld a) i);
  rel_active : forall t pc, locals s !! t = Some pc -> tl_active pc = true -> t ∈ fq a;
  rel_held : fheld a = true -> fq a <> [];
}.

(** ** Proofs *)

Section refinement.
Context {T : Type}.
Implicit Types (s : tl_sys T) (a : fifo).

Lemma slot_pc_held now held i : slot_pc now held i = THeld -> held = true /\ i = 0%nat.
Proof.
  unfold slot_pc. destruct held; simpl; [|done].
  destruct (Nat.eqb_spec i 0); [done|done].
Qed.

Lemma slot_pc_active now held i : tl_active (slot_pc now held i) = true.
Proof. unfold slot_pc. by destruct (_ && _). Qed.

Lemma slot_pc_first now : in_range 64 now -> slot_pc now false 0 = TSpin now.
Proof. intros. unfold slot_pc. simpl andb. by rewrite Z.add_0_r, wrap_small. Qed.

(** The waiters are distinct threads, so fewer than [2^64] of them. *)
Lemma tl_rel_length s a : tl_rel s a -> Z.of_nat (length (fq a)) < 2 ^ 64.
Proof.
  intros Hr. pose proof (rel_threads _ _ Hr).
  assert (fq a ⊆+ seq 0 (length (locals s))) as Hsub%submseteq_length.
  { apply NoDup_submseteq; [apply Hr|]. intros t [i Hi]%list_elem_of_lookup.
    apply (rel_slot _ _ Hr), lookup_lt_Some in Hi. apply elem_of_seq. lia. }
  rewrite length_seq in Hsub. lia.
Qed.

Lemma tl_rel_position s a t pc :
  tl_rel s a -> locals s !! t = Some pc -> tl_active pc = true ->
  exists i, fq a !! i = Some t /\ pc = slot_pc (now_serving (shared s)) (fheld a) i.
Proof.
  intros Hr Hpc Hact.
  destruct (proj1 (list_elem_of_lookup _ _) (rel_active _ _ Hr t pc Hpc Hact)) as [i Hi].
  exists i. split; [done|]. pose proof (rel_slot _ _ Hr i t Hi). congruence.
Qed.

(** A holder is the head of the queue. *)
Lemma tl_rel_holder s a t :
  tl_rel s a -> locals s !! t = Some THeld -> exists q, a = Fifo (t :: q) true.
Proof.
  intros Hr Hpc. destruct (tl_rel_position s a t THeld Hr Hpc eq_refl) as (i & Hi & Hs).
  symmetry in Hs. apply slot_pc_held in Hs as [Hh ->].
  destruct a as [[|t' q] h]; simpl in *; simplify_eq. by exists q.
Qed.

(** A waiter whose ticket is served is the head of a free lock. *)
Lemma tl_rel_served s a t k :
  tl_rel s a -> locals s !! t = Some (TSpin k) -> tl_served (shared s) k = true ->
  exists q, a = Fifo (t :: q) false.
Proof.
  intros Hr Hpc Hk%Z.eqb_eq.
  destruct (tl_rel_position s a t _ Hr Hpc eq_refl) as (i & Hi & Hs).
  pose proof (tl_rel_length s a Hr) as Hlen. apply lookup_lt_Some in Hi as Hilt.
  unfold slot_pc in Hs. destruct (fheld a && (i =? 0)%nat) eqn:Hc; [done|].
  injection Hs as Hs. assert (i = 0%nat) as ->.
  { apply Nat2Z.inj, (wrap_inj_lt 64 (now_serving (shared s))); try lia.
    rewrite <-Hs, <-Hk, Z.add_0_r. symmetry. apply wrap_small, Hr. }
  destruct a as [[|t' q] [|]]; simpl in *; simplify_eq. by exists q.
Qed.

Lemma tl_rel_init n (d : T) : Z.of_nat n < 2 ^ 64 -> tl_rel (tl_init n d) fifo_init.
Proof.
  intros Hn. split; simpl; try done.
  - by rewrite length_replicate.
  - constructor.
  - intros t pc [-> ?]%lookup_replicate. done.
Qed.

(** Steps that leave the lock and the queue alone and move [t] between
    program points outside the queue. *)
Lemma tl_rel_inactive s a t pc pc' :
  tl_rel s a -> locals s !! t = Some pc -> tl_active pc = false -> tl_active pc' = false ->
  tl_rel (Sys (shared s) (<[t:=pc']> (locals s))) a.
Proof.
  intros Hr Hpc Hi Hi'. destruct Hr. split; simpl; try done.
  - by rewrite length_insert.
  - intros i u Hu. specialize (rel_slot0 i u Hu).
    rewrite list_lookup_insert_ne; [done|]. intros ->.
    assert (pc = slot_pc (now_serving (shared s)) (fheld a) i) as -> by congruence.
    by rewrite slot_pc_active in Hi.
  - intros u pc1 Hu Hact. list_update_cases; [congruence|]. eauto.
Qed.

(** A write through the guard changes only the data. *)
Lemma tl_rel_data s a v t pc :
  tl_rel s a -> locals s !! t = Some pc ->
  tl_rel (Sys (tl_deref_mut (shared s) v) (<[t:=pc]> (locals s))) a.
Proof. intros Hr Hpc. rewrite list_insert_id by done. by destruct Hr; split. Qed.

Lemma tl_rel_request s a t :
  tl_rel s a -> locals s !! t = Some TIdle ->
  (t ∉ fq a) /\
  tl_rel (Sys (snd (tl_take (shared s)))
                (<[t:=TSpin (next_ticket (shared s))]> (locals s)))
         (Fifo (fq a ++ [t]) (fheld a)).
Proof.
  intros Hr Hpc.
  assert (t ∉ fq a) as Hfresh.
  { intros [i Hi]%list_elem_of_lookup. apply (rel_slot _ _ Hr) in Hi.
    rewrite Hpc in Hi. simplify_eq.
    pose proof (slot_pc_active (now_serving (shared s)) (fheld a) i) as Ha.
    by rewrite <-Hi in Ha. }
  split; [done|]. destruct Hr. split; simpl; try done.
  - rewrite rel_next0, length_app, wrap_add_l. f_equal. simpl. lia.
  - by rewrite length_insert.
  - apply NoDup_app. repeat split; try done.
    + intros u Hu ->%list_elem_of_singleton. done.
    + apply NoDup_singleton.
  - intros i u [Hu|[Hlen Hu]]%lookup_app_Some.
    + rewrite list_lookup_insert_ne; [by apply rel_slot0|].
      intros ->. apply Hfresh. by eapply list_elem_of_lookup_2.
    + destruct (i - length (fq a))%nat as [|k] eqn:Hk; simplify_eq/=.
      assert (i = length (fq a)) as -> by lia.
      rewrite list_lookup_insert_eq by (by eapply lookup_lt_Some).
      unfold slot_pc. destruct (Nat.eqb_spec (length (fq a)) 0) as [H0|H0].
      * apply nil_length_inv in H0. destruct (fheld a) eqn:Hh; [by destruct rel_held0|].
        simpl. by rewrite rel_next0.
      * rewrite andb_false_r. by rewrite rel_next0.
  - intros u pc Hu Hact. apply elem_of_app. list_update_cases.
    + right. set_solver.
    + left. eauto.
  - intros Hh Hnil. by destruct (fq a).
Qed.

Lemma tl_rel_acquire s q t :
  tl_rel s (Fifo (t :: q) false) -> tl_rel (Sys (shared s) (<[t:=THeld]> (locals s))) (Fifo (t :: q) true).
Proof.
  intros []. simpl in *. apply NoDup_cons in rel_nodup0 as Hnd. destruct Hnd as [Hnt _].
  split; simpl; try done.
  - by rewrite length_insert.
  - intros [|i] u Hu; simpl in Hu; simplify_eq.
    + apply list_lookup_insert_eq. eapply lookup_lt_Some, (rel_slot0 0%nat). done.
    + rewrite list_lookup_insert_ne; [by apply (rel_slot0 (S i))|].
      intros ->. apply Hnt. by eapply list_elem_of_lookup_2.
  - intros u pc Hu Hact. list_update_cases; [set_solver|]. eauto.
Qed.

Lemma tl_rel_release s q t :
  tl_rel s (Fifo (t :: q) true) ->
  tl_rel (Sys (tl_drop (shared s)) (<[t:=TIdle]> (locals s))) (Fifo q false).
Proof.
  intros []. simpl in *. apply NoDup_cons in rel_nodup0 as Hnd. destruct Hnd as [Hnt Hnd].
  split; simpl; try done.
  - by apply wrap_range.
  - rewrite wrap_add_l, rel_next0. f_equal. lia.
  - by rewrite length_insert.
  - intros i u Hu. rewrite list_lookup_insert_ne.
    + rewrite (rel_slot0 (S i) u Hu). unfold slot_pc. simpl.
      rewrite wrap_add_l. by replace (now_serving (shared s) + Z.of_nat (S i))
        with (now_serving (shared s) + 1 + Z.of_nat i) by lia.
    + intros ->. apply Hnt. by eapply list_elem_of_lookup_2.
  - intros u pc Hu Hact. list_update_cases.
    specialize (rel_active0 u pc). set_solver.
Qed.

(** *** Simulation of every step but a successful [try_lock] *)

Definition simulated (ev : tl_event) : bool :=
  match ev with EvTryAcquire | EvPanic => false | _ => true end.

Lemma tl_try_cas_fail p (l l' : ticket_lock T) next :
  tl_try_cas p l next = Ok (false, l') -> l' = l.
Proof.
  unfold tl_try_cas, mret, res_ret.
  destruct (arith p 64 (next + 1)); simpl; [|done|done].
  destruct (next_ticket l =? next); congruence.
Qed.

Lemma tl_simulation p s a t ev s' :
  tl_rel s a -> tl_step p s (t, ev) s' -> simulated ev = true ->
  exists a', fifo_step a (t, ev) a' /\ tl_rel s' a'.
Proof.
  intros Hr Hstep Hev. inversion Hstep as [l pcs ? pc act l' pc' ? Hpc Hact]; subst.
  pose (s := Sys l pcs). change (tl_rel s a) in Hr. change (locals s !! t = Some pc) in Hpc.
  destruct pc, act; simpl in Hact; simplify_eq.
  - destruct (tl_rel_request s a t Hr Hpc). exists (Fifo (fq a ++ [t]) (fheld a)).
    split; [|done]. destruct a. by constructor.
  - exists a. split; [constructor; by left|]. by apply (tl_rel_inactive s a t TIdle).
  - destruct (tl_served l ticket) eqn:Hserved; simplify_eq.
    + destruct (tl_rel_served s a t ticket Hr Hpc Hserved) as [q ->].
      exists (Fifo (t :: q) true). split; [constructor|]. by apply (tl_rel_acquire s).
    + exists a. split; [constructor; by eapply rel_active|].
      change pcs with (locals s). rewrite list_insert_id by done. by destruct Hr; split.
  - destruct (tl_rel_holder s a t Hr Hpc) as [q ->]. exists (Fifo (t :: q) true).
    split; [constructor|]. by eapply (tl_rel_data s).
  - destruct (tl_rel_holder s a t Hr Hpc) as [q ->]. exists (Fifo q false).
    split; [constructor|]. by apply (tl_rel_release s).
  - exists a. case_match; simplify_eq; (split; [constructor; auto|]);
      by eapply (tl_rel_inactive s).
  - exists a. destruct (tl_try_cas p l next) as [[[|] l1]| |] eqn:Hcas; simplify_eq.
    split; [constructor; auto|].
    rewrite (tl_try_cas_fail _ _ _ _ Hcas).
    by eapply (tl_rel_inactive s).
Qed.
End refinement.

(** *** [try_lock], while the counters have not wrapped *)

(** Facts on the counters and on what [try_lock] has read, after [n] steps. *)
Definition try_known (now : Z) (pc : tl_pc) : Prop :=
  match pc with
  | TTryNext c | TTryCas c => 0 <= c <= now
  | TPanicked => False
  | _ => True
  end.

Record tl_young {T} (n : nat) (s : tl_sys T) : Prop := {
  young_now : 0 <= now_serving (shared s) <= next_ticket (shared s);
  young_next : next_ticket (shared s) <= Z.of_nat n;
  young_try : forall t pc, locals s !! t = Some pc -> try_known (now_serving (shared s)) pc;
}.

Section young.
Context {T : Type}.
Implicit Types (s : tl_sys T) (a : fifo).

Lemma try_known_mono now now' pc : now <= now' -> try_known now pc -> try_known now' pc.
Proof. destruct pc; simpl; lia. Qed.

(** Without wrap-around the queue length is the distance of the counters. *)
Lemma tl_young_length n s a :
  tl_rel s a -> tl_young n s -> Z.of_nat n < 2 ^ 64 ->
  next_ticket (shared s) = now_serving (shared s) + Z.of_nat (length (fq a)).
Proof.
  intros Hr Hy Hn. pose proof (tl_rel_length s a Hr) as Hlen.
  destruct Hr, Hy. unfold in_range in *.
  set (now := now_serving (shared s)) in *. set (next := next_ticket (shared s)) in *.
  enough (next - now = Z.of_nat (length (fq a))) by lia.
  apply (wrap_inj_lt 64 now); try lia.
  replace (now + (next - now)) with next by lia.
  rewrite <-rel_next0. apply wrap_small. unfold in_range. lia.
Qed.

Lemma tl_young_insert n s (l : ticket_lock T) t pc :
  tl_young n s ->
  now_serving (shared s) <= now_serving l <= next_ticket l ->
  next_ticket l <= Z.of_nat (S n) ->
  try_known (now_serving l) pc ->
  tl_young (S n) (Sys l (<[t:=pc]> (locals s))).
Proof.
  intros Hy ? ? Hpc. destruct Hy. split; simpl; [lia|lia|]. intros u pc1 Hu. list_update_cases; [done|].
  eapply try_known_mono; [|by eapply young_try0]. lia.
Qed.

(** A successful exchange of [try_lock] finds the lock free. *)
Lemma tl_try_free n s a t c :
  tl_rel s a -> tl_young n s -> Z.of_nat n < 2 ^ 64 ->
  locals s !! t = Some (TTryCas c) -> next_ticket (shared s) = c ->
  a = Fifo [] false /\ now_serving (shared s) = c.
Proof.
  intros Hr Hy Hn Hpc Hc. pose proof (tl_young_length n s a Hr Hy Hn) as Hlen.
  pose proof (young_try _ _ Hy t _ Hpc) as Ht. pose proof (young_now _ _ Hy).
  simpl in Ht. assert (length (fq a) = 0%nat) as H0%nil_length_inv by lia.
  split; [|lia]. destruct a as [q h]. simpl in *. subst q. destruct h; [|done].
  by destruct (rel_held _ _ Hr).
Qed.

Lemma tl_try_cas_exact p (l : ticket_lock T) c :
  0 <= c <= next_ticket l -> next_ticket l + 1 < 2 ^ 64 ->
  tl_try_cas p l c =
  Ok (if next_ticket l =? c
      then (true, TicketLock (c + 1) (now_serving l) (tl_data l))
      else (false, l)).
Proof.
  intros Hc Hn. unfold tl_try_cas. rewrite arith_in_range; [done|].
  unfold in_range. lia.
Qed.

Lemma tl_rel_try_acquire s t c (d : T) :
  tl_rel s (Fifo [] false) -> locals s !! t = Some (TTryCas c) ->
  now_serving (shared s) = c -> c + 1 < 2 ^ 64 ->
  tl_rel (Sys (TicketLock (c + 1) (now_serving (shared s)) d)
                (<[t:=THeld]> (locals s))) (Fifo [t] true).
Proof.
  intros [] Hpc Hc Hlt. simpl in *. split; simpl; try done.
  - rewrite Hc. symmetry. apply wrap_small. unfold in_range in *. lia.
  - by rewrite length_insert.
  - apply NoDup_singleton.
  - intros [|i] u Hu; simpl in Hu; simplify_eq.
    apply list_lookup_insert_eq. by eapply lookup_lt_Some.
  - intros u pc Hu Hact. list_update_cases; [set_solver|].
    specialize (rel_active0 u pc). set_solver.
Qed.
End young.

(** *** Facts on the executions of the abstract lock *)

Definition fifo_queue_held (a : fifo) : list nat :=
  if fheld a then tail (fq a) else fq a.

(** Requests are acquired in order: those acquired so far are the first ones,
    the threads still waiting are the rest. *)
Lemma fifo_trace_order tr a :
  trace fifo_step fifo_init tr a -> Forall (fun e => lock_event e.2 = true) tr ->
  requests tr = acquisitions tr ++ fifo_queue_held a /\ (fheld a = true -> fq a <> []).
Proof.
  intros Htr. remember fifo_init as a0 eqn:Ha0.
  induction Htr as [|s tr a [t ev] a' Htr IH Hstep]; subst; [done|].
  intros [Hall Hev]%Forall_snoc. destruct (IH eq_refl Hall) as [IHq IHh].
  unfold requests, acquisitions in *. rewrite !filter_app, !fmap_app, IHq.
  inversion Hstep; subst; simplify_eq/=; unfold fifo_queue_held in *; simpl in *.
  - split; [|by destruct q]. rewrite app_nil_r, <-app_assoc. f_equal.
    destruct h; [|done]. destruct q; [by destruct (IHh eq_refl)|done].
  - by rewrite !app_nil_r.
  - by rewrite app_nil_r, <-app_assoc.
  - by rewrite !app_nil_r.
  - by rewrite !app_nil_r.
  - by match goal with H : _ \/ _ |- _ => destruct H; subst end.
Qed.

Section theorems.
Context {T : Type}.
Implicit Types (s : tl_sys T) (a : fifo).

Lemma lock_event_simulated ev : lock_event ev = true -> simulated ev = true.
Proof. by destruct ev. Qed.

Lemma tl_trace_simulation p n (d : T) tr s :
  trace (tl_step p) (tl_init n d) tr s -> Z.of_nat n < 2 ^ 64 ->
  Forall (fun e => lock_event e.2 = true) tr ->
  exists a, trace fifo_step fifo_init tr a /\ tl_rel s a.
Proof.
  intros Htr Hn. remember (tl_init n d) as s0 eqn:Hs0.
  induction Htr as [|s0 tr s [t ev] s' Htr IH Hstep]; intros Hall; subst.
  - exists fifo_init. split; [constructor|]. by apply tl_rel_init.
  - apply Forall_snoc in Hall as [Hall Hev].
    destruct (IH eq_refl Hall) as (a & Ha & Hr).
    destruct (tl_simulation p s a t ev s' Hr Hstep) as (a' & Ha' & Hr').
    { by apply lock_event_simulated. }
    exists a'. split; [|done]. by econstructor.
Qed.

(** One step of the whole system, [try_lock] included, at a young state. *)
Lemma tl_young_step p n s a e s' :
  tl_rel s a -> tl_young n s -> Z.of_nat (S n) < 2 ^ 64 -> tl_step p s e s' ->
  tl_young (S n) s'.
Proof.
  intros Hr Hy Hn Hstep.
  pose proof (tl_young_length n s a Hr Hy ltac:(lia)) as Hlen.
  pose proof (young_now _ _ Hy) as Hnow. pose proof (young_next _ _ Hy) as Hnext.
  inversion Hstep as [l pcs t pc act l' pc' ev Hpc Hact]; subst. simpl in *.
  pose (s := Sys l pcs). change (tl_rel s a) in Hr. change (tl_young n s) in Hy.
  pose proof (young_try _ _ Hy t pc Hpc) as Hknown. simpl in Hknown.
  apply (tl_young_insert n s l' t pc' Hy);
    destruct pc, act; simpl in Hact; simplify_eq; simpl in *; try done; try lia;
    try (rewrite wrap_small by (unfold in_range; lia); lia);
    try (case_match; simplify_eq; simpl; try done; lia);
    try (rewrite tl_try_cas_exact in Hact by lia; simpl in Hact;
         destruct (Z.eqb_spec (next_ticket l) next); simplify_eq; simpl; try done; lia).
  all: destruct (tl_rel_holder s a t Hr Hpc) as [q ->]; simpl in Hlen.
  all: rewrite wrap_small by (unfold in_range; lia); simpl; lia.
Qed.

Lemma tl_young_rel p n s a e s' :
  tl_rel s a -> tl_young n s -> Z.of_nat (S n) < 2 ^ 64 -> tl_step p s e s' ->
  exists a', tl_rel s' a'.
Proof.
  intros Hr Hy Hn Hstep. destruct e as [t ev].
  destruct (simulated ev) eqn:Hev.
  { destruct (tl_simulation p s a t ev s' Hr Hstep Hev) as (a' & _ & ?). eauto. }
  inversion Hstep as [l pcs ? pc act l' pc' ? Hpc Hact]; subst.
  pose (s := Sys l pcs). change (tl_rel s a) in Hr. change (tl_young n s) in Hy.
  destruct pc, act; simpl in Hact; simplify_eq; try done;
    try (case_match; simplify_eq; done).
  pose proof (young_try _ _ Hy t _ Hpc) as Hknown. simpl in Hknown.
  pose proof (young_now _ _ Hy). pose proof (young_next _ _ Hy). simpl in *.
  rewrite tl_try_cas_exact in Hact by lia. simpl in Hact.
  destruct (Z.eqb_spec (next_ticket l) next) as [Hc|]; simplify_eq.
  destruct (tl_try_free n s a t _ Hr Hy ltac:(lia) Hpc eq_refl) as [-> Hfree].
  exists (Fifo [t] true). apply (tl_rel_try_acquire s t _ _ Hr Hpc Hfree). lia.
Qed.

Definition tl_young_inv (n : nat) (s : tl_sys T) : Prop :=
  tl_young n s /\ exists a, tl_rel s a.

Lemma tl_trace_young p threads (d : T) tr s :
  Z.of_nat threads < 2 ^ 64 -> Z.of_nat (length tr) < 2 ^ 64 ->
  trace (tl_step p) (tl_init threads d) tr s -> tl_young_inv (length tr) s.
Proof.
  intros Hth Hlen Htr.
  apply (trace_invariant (tl_step p) tl_young_inv (fun n => Z.of_nat n < 2 ^ 64) (tl_init threads d));
    try done; [|lia|].
  - intros n s1 e s2 [Hy [a Hr]] Hn Hstep. split.
    + by eapply tl_young_step.
    + by eapply tl_young_rel.
  - split; [|exists fifo_init; by apply tl_rel_init].
    split; simpl; try lia. by intros t pc [-> ?]%lookup_replicate.
Qed.
End theorems.

(** ** Properties *)

Section properties.
Context {T : Type}.

(** C21: however many times it is used, and through any wrap-around of the two
    64-bit counters, the lock behaves as a FIFO queue of waiters: an execution of
    fewer than 2^64 threads calling [lock] and dropping guards is, event by
    event, an execution of the abstract lock; the distance of the counters is the
    length of the queue, and the thread that holds the guard is its head. *)
Theorem ticket_refines_fifo p threads (d : T) tr s :
  Z.of_nat threads < 2 ^ 64 ->
  Forall (fun e => lock_event e.2 = true) tr ->
  trace (tl_step p) (tl_init threads d) tr s ->
  exists a, trace fifo_step fifo_init tr a /\
    wrap 64 (next_ticket (shared s) - now_serving (shared s)) = Z.of_nat (length (fq a)) /\
    forall t, locals s !! t = Some THeld <-> fheld a = true /\ head (fq a) = Some t.
Proof.
  intros Hn Hall Htr. destruct (tl_trace_simulation p threads d tr s Htr Hn Hall) as (a & Ha & Hr).
  exists a. split; [done|]. split.
  - rewrite (rel_next _ _ Hr). unfold wrap. rewrite Zminus_mod_idemp_l.
    rewrite Z.add_simpl_l. apply Z.mod_small. pose proof (tl_rel_length s a Hr). lia.
  - intros t. split.
    + intros Ht. by destruct (tl_rel_holder s a t Hr Ht) as [q ->].
    + intros [Hh Ht]. destruct a as [[|t' q] h]; simpl in *; simplify_eq.
      by apply (rel_slot _ _ Hr 0%nat).
Qed.

(** fairness: threads enter the critical section in the order in which they
    called [lock]; the acquisitions of any execution are a prefix of its
    requests. *)
Theorem ticket_lock_fair p threads (d : T) tr s :
  Z.of_nat threads < 2 ^ 64 ->
  Forall (fun e => lock_event e.2 = true) tr ->
  trace (tl_step p) (tl_init threads d) tr s ->
  acquisitions tr `prefix_of` requests tr.
Proof.
  intros Hn Hall Htr. destruct (tl_trace_simulation p threads d tr s Htr Hn Hall) as (a & Ha & _).
  destruct (fifo_trace_order tr a Ha Hall) as [-> _]. by exists (fifo_queue_held a).
Qed.

(** mutual exclusion with [try_lock]: in any interleaving of [lock],
    [try_lock], guard uses and drops by any threads, for fewer than 2^64 steps
    (the counters then do not wrap, which the two loads of [try_lock] rely on),
    at most one thread holds a guard, and the [next + 1] of [try_lock] never
    panics. *)
Theorem ticket_mutual_exclusion p threads (d : T) tr s :
  Z.of_nat threads < 2 ^ 64 -> Z.of_nat (length tr) < 2 ^ 64 ->
  trace (tl_step p) (tl_init threads d) tr s ->
  (forall t1 t2, locals s !! t1 = Some THeld -> locals s !! t2 = Some THeld -> t1 = t2) /\
  (forall t, locals s !! t <> Some TPanicked).
Proof.
  intros Hn Hlen Htr. destruct (tl_trace_young p threads d tr s Hn Hlen Htr) as [Hy [a Hr]].
  split.
  - intros t1 t2 H1 H2. destruct (tl_rel_holder s a t1 Hr H1) as [q1 ->].
    destruct (tl_rel_holder s _ t2 Hr H2) as [q2 Hq]. congruence.
  - intros t Ht. by apply (young_try _ _ Hy t TPanicked).
Qed.

(** C31: no deadlock, and hand-off to the right thread: whenever some thread
    waits in [lock] and nobody holds the guard, the thread that has waited
    longest finds its ticket served at its next load, and no other waiter does. *)
Theorem ticket_no_deadlock p threads (d : T) tr s t k :
  Z.of_nat threads < 2 ^ 64 ->
  Forall (fun e => lock_event e.2 = true) tr ->
  trace (tl_step p) (tl_init threads d) tr s ->
  locals s !! t = Some (TSpin k) ->
  (forall u, locals s !! u <> Some THeld) ->
  exists t' k', locals s !! t' = Some (TSpin k') /\
    (requests tr !! length (acquisitions tr) = Some t') /\
    tl_act p ActRun (shared s) (TSpin k') = Some (shared s, THeld, EvAcquire) /\
    forall u ku, locals s !! u = Some (TSpin ku) -> tl_served (shared s) ku = true -> u = t'.
Proof.
  intros Hn Hall Htr Ht Hnone.
  destruct (tl_trace_simulation p threads d tr s Htr Hn Hall) as (a & Ha & Hr).
  destruct (fifo_trace_order tr a Ha Hall) as [Hreq _].
  pose proof (rel_active _ _ Hr t _ Ht eq_refl) as Hin.
  destruct a as [[|t' q] h]; simpl in Hin; [by apply not_elem_of_nil in Hin|].
  pose proof (rel_slot _ _ Hr 0%nat t' eq_refl) as Ht'.
  destruct h; [by destruct (Hnone t')|]. simpl fheld in Ht'.
  rewrite slot_pc_first in Ht' by apply Hr. exists t', (now_serving (shared s)). split; [done|]. split.
  { rewrite Hreq. by rewrite lookup_app_r, Nat.sub_diag by lia. }
  split.
  - simpl. unfold tl_served. by rewrite Z.eqb_refl.
  - intros u ku Hu Hs. destruct (tl_rel_served s _ u ku Hr Hu Hs) as [q' Hq]. congruence.
Qed.

(** [is_locked] is exact when the lock is quiescent: read from one state,
    it tells whether any thread holds or waits for the lock. *)
Theorem ticket_is_locked_exact p threads (d : T) tr s :
  Z.of_nat threads < 2 ^ 64 ->
  Forall (fun e => lock_event e.2 = true) tr ->
  trace (tl_step p) (tl_init threads d) tr s ->
  tl_is_locked (shared s) (shared s) = true <->
  exists t pc, locals s !! t = Some pc /\ tl_active pc = true.
Proof.
  intros Hn Hall Htr. destruct (tl_trace_simulation p threads d tr s Htr Hn Hall) as (a & Ha & Hr).
  unfold tl_is_locked. rewrite negb_true_iff, Z.eqb_neq, (rel_next _ _ Hr). split.
  - intros Hne. destruct (fq a) as [|t q] eqn:Hq.
    + destruct Hne. simpl. rewrite Z.add_0_r. symmetry. apply wrap_small, Hr.
    + assert (fq a !! 0%nat = Some t) as H0 by (by rewrite Hq).
      apply (rel_slot _ _ Hr) in H0. eexists t, _. split; [done|]. apply slot_pc_active.
  - intros (t & pc & Hpc & Hact) Heq.
    pose proof (rel_active _ _ Hr t pc Hpc Hact) as Hin.
    pose proof (tl_rel_length s a Hr) as Hlen.
    assert (0 = Z.of_nat (length (fq a))) as H0.
    { apply (wrap_inj_lt 64 (now_serving (shared s))); try lia.
      rewrite Z.add_0_r, wrap_small; [done|]. apply Hr. }
    destruct (fq a); simpl in *; [by apply not_elem_of_nil in Hin|lia].
Qed.
End properties.

(** ** Witnesses: two threads; thread 1 asks for the lock while 0 holds it *)

Definition tl_demo_sched : list (nat * tl_action nat) :=
  [(0%nat, ActLock); (1%nat, ActLock); (1%nat, ActRun); (0%nat, ActRun);
   (0%nat, ActWrite 7%nat); (0%nat, ActDrop)].

Definition tl_demo_state : sys (ticket_lock nat) tl_pc :=
  Sys (TicketLock 2 1 7%nat) [TIdle; TSpin 1].

Definition tl_demo_trace : list (nat * tl_event) :=
  [(0%nat, EvRequest); (1%nat, EvRequest); (1%nat, EvWait); (0%nat, EvAcquire);
   (0%nat, EvAccess); (0%nat, EvRelease)].

Lemma tl_demo_runs : trace (tl_step Debug) (tl_init 2 0%nat) tl_demo_trace tl_demo_state.
Proof. eapply (run_trace _ _ tl_demo_sched). reflexivity. Qed.

Lemma tl_demo_lock_events : Forall (fun e => lock_event e.2 = true) tl_demo_trace.
Proof. repeat constructor. Qed.

Lemma ticket_refines_fifo_witness :
  exists a, trace fifo_step fifo_init tl_demo_trace a /\
    wrap 64 (next_ticket (shared tl_demo_state) - now_serving (shared tl_demo_state)) =
      Z.of_nat (length (fq a)) /\
    forall t, locals tl_demo_state !! t = Some THeld <-> fheld a = true /\ head (fq a) = Some t.
Proof.
  apply (ticket_refines_fifo Debug 2 0%nat); [done|exact tl_demo_lock_events|exact tl_demo_runs].
Defined.

Lemma ticket_lock_fair_witness : acquisitions tl_demo_trace `prefix_of` requests tl_demo_trace.
Proof.
  apply (ticket_lock_fair Debug 2 0%nat tl_demo_trace tl_demo_state);
    [done|exact tl_demo_lock_events|exact tl_demo_runs].
Defined.

(** Thread 1 gets the lock with [try_lock] while thread 0 is between its loads. *)
Definition tl_demo_try_sched : list (nat * tl_action nat) :=
  [(0%nat, ActTryLock); (0%nat, ActRun); (1%nat, ActTryLock); (1%nat, ActRun);
   (1%nat, ActRun); (0%nat, ActRun)].

Lemma ticket_mutual_exclusion_witness :
  let s := Sys (TicketLock 1 0 0%nat) [TIdle; THeld] in
  (forall t1 t2, locals s !! t1 = Some THeld -> locals s !! t2 = Some THeld -> t1 = t2) /\
  (forall t, locals s !! t <> Some TPanicked).
Proof.
  intros s. eapply (ticket_mutual_exclusion Debug 2 0%nat); [done| |].
  2: { eapply (run_trace _ _ tl_demo_try_sched). reflexivity. }
  done.
Defined.

Lemma ticket_no_deadlock_witness :
  exists t' k', locals tl_demo_state !! t' = Some (TSpin k') /\
    (requests tl_demo_trace !! length (acquisitions tl_demo_trace) = Some t') /\
    tl_act Debug ActRun (shared tl_demo_state) (TSpin k') = Some (shared tl_demo_state, THeld, EvAcquire) /\
    forall u ku, locals tl_demo_state !! u = Some (TSpin ku) ->
                 tl_served (shared tl_demo_state) ku = true -> u = t'.
Proof.
  apply (ticket_no_deadlock Debug 2 0%nat tl_demo_trace tl_demo_state 1%nat 1);
    [done|exact tl_demo_lock_events|exact tl_demo_runs|done|].
  by intros [|[|u]].
Defined.

Lemma ticket_is_locked_exact_witness :
  tl_is_locked (shared tl_demo_state) (shared tl_demo_state) = true <->
  exists t pc, locals tl_demo_state !! t = Some pc /\ tl_active pc = true.
Proof.
  apply (ticket_is_locked_exact Debug 2 0%nat tl_demo_trace tl_demo_state);
    [done|exact tl_demo_lock_events|exact tl_demo_runs].
Defined.
