(* ===== verification/SpinLock.v ===== *)
(** * SpinLock: the interrupt-disabling spinlock of src/src/spinlock.rs

    The interrupt helpers on a CPU's RFLAGS, the atomic operations of [lock],
    [try_lock] and [Drop for SpinLockGuard], and a machine of CPUs that
    interleave at those operations while interrupts arrive: an interrupt
    suspends the code a CPU runs and starts a handler, which may use the same
    lock. The second part runs several locks on one CPU, guards dropped in any
    order. *)

From S2P Require Import Prelude Threads.

(** ** Interrupt helpers *)

(** [(read_rflags() & (1 << 9)) != 0] *)
Definition interrupts_enabled (rflags : Z) : bool :=
  negb (Z.land rflags (Z.shiftl 1 9) =? 0).

(** The [cli] and [sti] instructions clear and set bit 9 of RFLAGS. *)
Definition cli (rflags : Z) : Z := Z.clearbit rflags 9.
Definition sti (rflags : Z) : Z := Z.setbit rflags 9.

Definition disable_interrupts (rflags : Z) : bool * Z :=
  let was_enabled := interrupts_enabled rflags in (was_enabled, cli rflags).

Definition enable_interrupts (rflags : Z) : Z := sti rflags.

Definition restore_interrupts (was_enabled : bool) (rflags : Z) : Z :=
  if was_enabled then enable_interrupts rflags else rflags.

(** ** Data *)

Record spin_lock (T : Type) := SpinLock { locked : bool; sl_data : T }.
Arguments SpinLock {T} _ _.
Arguments locked {T} _.
Arguments sl_data {T} _.

(** Where a piece of code is; the argument is its local [was_enabled].
    [disable_interrupts] is two operations: an interrupt may arrive between the
    read of RFLAGS and the [cli]. *)
Inductive spin_pc :=
| SIdle
| SLockCli (was : bool)
| SCas (was : bool)
| SSpin (was : bool)
| SHeld (was : bool)
| SRestore (was : bool)
| STryCli (was : bool)
| STryCas (was : bool)
| STryRestore (was : bool).

(** A CPU: its RFLAGS and the stack of codes it runs, the current one first and
    the ones its interrupts suspended below. *)
Record cpu := Cpu { rflags : Z; frames : list spin_pc }.

Inductive spin_action (T : Type) :=
| ActLock
| ActTryLock
| ActStore (v : T)
| ActDrop
| ActRun
| ActWeakFail
| ActSetIf (b : bool)
| ActIrq
| ActIret.
Arguments ActLock {T}.
Arguments ActTryLock {T}.
Arguments ActStore {T} v.
Arguments ActDrop {T}.
Arguments ActRun {T}.
Arguments ActWeakFail {T}.
Arguments ActSetIf {T} b.
Arguments ActIrq {T}.
Arguments ActIret {T}.

Inductive spin_event :=
| EvCall
| EvStep
| EvGuard
| EvNone
| EvStore
| EvUnlock
| EvDropped
| EvIf
| EvIrq
| EvIret.

(** ** The operations of the code *)

Section operations.
Context {T : Type}.
Implicit Types l : spin_lock T.

Definition sl_new (data : T) : spin_lock T := SpinLock false data.

(** [compare_exchange(false, true)] *)
Definition sl_cas l : bool * spin_lock T :=
  if locked l then (false, l) else (true, SpinLock true (sl_data l)).

(** [self.lock.locked.store(false)] of [Drop]. *)
Definition sl_unlock l : spin_lock T := SpinLock false (sl_data l).

Definition sl_is_locked l : bool := locked l.

Definition sl_deref l : T := sl_data l.

Definition sl_deref_mut l (v : T) : spin_lock T := SpinLock (locked l) v.

(** One operation of the code at [pc], on a CPU with flags [rf]. *)
Definition spin_code (a : spin_action T) l (rf : Z) (pc : spin_pc)
  : option (spin_lock T * Z * spin_pc * spin_event) :=
  match pc, a with
  | SIdle, ActLock => Some (l, rf, SLockCli (interrupts_enabled rf), EvCall)
  | SLockCli was, ActRun => Some (l, cli rf, SCas was, EvStep)
  | SCas was, ActRun =>
      let '(ok, l') := sl_cas l in
      if ok then Some (l', rf, SHeld was, EvGuard) else Some (l', rf, SSpin was, EvStep)
  | SCas was, ActWeakFail => Some (l, rf, SSpin was, EvStep)
  | SSpin was, ActRun =>
      if locked l then Some (l, rf, SSpin was, EvStep) else Some (l, rf, SCas was, EvStep)
  | SHeld was, ActStore v => Some (sl_deref_mut l v, rf, SHeld was, EvStore)
  | SHeld was, ActDrop => Some (sl_unlock l, rf, SRestore was, EvUnlock)
  | SRestore was, ActRun => Some (l, restore_interrupts was rf, SIdle, EvDropped)
  | SIdle, ActTryLock => Some (l, rf, STryCli (interrupts_enabled rf), EvCall)
  | STryCli was, ActRun => Some (l, cli rf, STryCas was, EvStep)
  | STryCas was, ActRun =>
      let '(ok, l') := sl_cas l in
      if ok then Some (l', rf, SHeld was, EvGuard) else Some (l', rf, STryRestore was, EvStep)
  | STryRestore was, ActRun => Some (l, restore_interrupts was rf, SIdle, EvNone)
  | SIdle, ActSetIf b => Some (l, if b then sti rf else cli rf, SIdle, EvIf)
  | _, _ => None
  end.

(** One move of a CPU. An interrupt is delivered only with IF set; entering the
    handler clears IF; returning from it restores the suspended code's flags,
    in which IF was set. *)
Definition spin_act (a : spin_action T) l (c : cpu) : option (spin_lock T * cpu * spin_event) :=
  match a, frames c with
  | ActIrq, fs =>
      if interrupts_enabled (rflags c)
      then Some (l, Cpu (cli (rflags c)) (SIdle :: fs), EvIrq) else None
  | ActIret, SIdle :: f :: fs => Some (l, Cpu (sti (rflags c)) (f :: fs), EvIret)
  | ActIret, _ => None
  | _, f :: fs =>
      match spin_code a l (rflags c) f with
      | Some (l', rf, f', ev) => Some (l', Cpu rf (f' :: fs), ev)
      | None => None
      end
  | _, [] => None
  end.

Definition spin_init (cpus : nat) (rf : Z) (data : T) : sys (spin_lock T) cpu :=
  Sys (sl_new data) (replicate cpus (Cpu rf [SIdle])).
End operations.

Abbreviation spin_sys T := (sys (spin_lock T) cpu).
Abbreviation spin_step := (step (fun _ => spin_act)).

(** ** The invariant *)

Definition pc_holds (pc : spin_pc) : bool :=
  match pc with SHeld _ => true | _ => false end.

(** The code a CPU is running holds the guard. *)
Definition cpu_holds (c : cpu) : bool :=
  match frames c with f :: _ => pc_holds f | [] => false end.

(** What the flags are while the running code is at [pc]. *)
Definition top_ok (enabled : bool) (pc : spin_pc) : Prop :=
  match pc with
  | SIdle => True
  | SLockCli was | STryCli was => enabled = was
  | _ => enabled = false
  end.

(** Where code can have been interrupted. *)
Definition suspended_ok (pc : spin_pc) : Prop :=
  match pc with
  | SIdle | SLockCli true | STryCli true => True
  | _ => False
  end.

Definition cpu_ok (c : cpu) : Prop :=
  match frames c with
  | f :: fs => top_ok (interrupts_enabled (rflags c)) f /\ Forall suspended_ok fs
  | [] => False
  end.

Record spin_inv {T} (s : spin_sys T) : Prop := {
  inv_cpus : forall c q, locals s !! c = Some q -> cpu_ok q;
  inv_locked : count_if cpu_holds (locals s) = Nat.b2n (locked (shared s));
}.

(** ** Lemmas on the flags *)

Lemma interrupts_enabled_testbit rf : interrupts_enabled rf = Z.testbit rf 9.
Proof.
  unfold interrupts_enabled. destruct (Z.testbit rf 9) eqn:Hb.
  - apply negb_true_iff, Z.eqb_neq. intros H0.
    assert (Z.testbit (Z.land rf (Z.shiftl 1 9)) 9 = true) as Ht by (by rewrite Z.land_spec, Hb).
    by rewrite H0 in Ht.
  - apply negb_false_iff, Z.eqb_eq, Z.bits_inj'. intros n Hn.
    rewrite Z.land_spec, Z.bits_0. change (Z.shiftl 1 9) with (2 ^ 9).
    rewrite Z.pow2_bits_eqb by lia. destruct (Z.eqb_spec 9 n); [subst; by rewrite Hb|].
    apply andb_false_r.
Qed.

Lemma interrupts_enabled_cli rf : interrupts_enabled (cli rf) = false.
Proof. rewrite interrupts_enabled_testbit. unfold cli. by apply Z.clearbit_eq. Qed.

Lemma interrupts_enabled_sti rf : interrupts_enabled (sti rf) = true.
Proof. rewrite interrupts_enabled_testbit. unfold sti. by apply Z.setbit_eq. Qed.

Lemma interrupts_enabled_restore was rf :
  interrupts_enabled rf = false -> interrupts_enabled (restore_interrupts was rf) = was.
Proof. intros Hf. destruct was; simpl; [apply interrupts_enabled_sti|done]. Qed.

#[export] Hint Rewrite interrupts_enabled_cli interrupts_enabled_sti : smp_rw.

(** ** The invariant holds *)

Section invariant.
Context {T : Type}.
Implicit Types (s : spin_sys T) (l : spin_lock T).

Lemma spin_code_ok a l rf pc l' rf' pc' ev :
  top_ok (interrupts_enabled rf) pc -> (pc_holds pc = true -> locked l = true) ->
  spin_code a l rf pc = Some (l', rf', pc', ev) ->
  top_ok (interrupts_enabled rf') pc' /\
  (Nat.b2n (locked l') + Nat.b2n (pc_holds pc) = Nat.b2n (locked l) + Nat.b2n (pc_holds pc'))%nat.
Proof.
  intros Hok Hh Hact. destruct pc, a; simpl in Hact, Hok, Hh; simplify_eq;
    try unfold sl_cas in Hact; try (destruct (locked l) eqn:Hl; simplify_eq); simpl;
    rewrite ?interrupts_enabled_cli, ?Hl, ?Hh by done; auto.
  all: by specialize (Hh eq_refl).
Qed.

Lemma top_ok_suspended pc : top_ok true pc -> suspended_ok pc.
Proof. by destruct pc as [|[]| | | | |[]| |]. Qed.

Lemma suspended_top_ok pc : suspended_ok pc -> top_ok true pc.
Proof. by destruct pc as [|[]| | | | |[]| |]. Qed.

Lemma suspended_not_holding pc : suspended_ok pc -> pc_holds pc = false.
Proof. by destruct pc. Qed.

(** The code that runs with the guard has interrupts off. *)
Lemma cpu_holds_masked c : cpu_ok c -> cpu_holds c = true -> interrupts_enabled (rflags c) = false.
Proof.
  unfold cpu_ok, cpu_holds. destruct (frames c) as [|f fs]; [done|]. intros [Hf _]. by destruct f.
Qed.

(** The three kinds of move of a CPU. *)
Lemma spin_act_inv a l rf f fs l' c' ev :
  spin_act a l (Cpu rf (f :: fs)) = Some (l', c', ev) ->
  (interrupts_enabled rf = true /\ l' = l /\ c' = Cpu (cli rf) (SIdle :: f :: fs) /\ ev = EvIrq) \/
  (f = SIdle /\ exists f' fs', fs = f' :: fs' /\ l' = l /\ c' = Cpu (sti rf) (f' :: fs')) \/
  (exists rf' f', spin_code a l rf f = Some (l', rf', f', ev) /\ c' = Cpu rf' (f' :: fs)).
Proof.
  intros Hact. destruct a; simpl in Hact;
    try (destruct (spin_code _ l rf f) as [[[[? ?] ?] ?]|]; simplify_eq; right; right; by eauto).
  - destruct (interrupts_enabled rf); simplify_eq. by left.
  - destruct f, fs as [|f' fs']; simplify_eq. right; left. split; [done|]. by exists f', fs'.
Qed.

Lemma spin_act_ok a l c l' c' ev :
  cpu_ok c -> (cpu_holds c = true -> locked l = true) ->
  spin_act a l c = Some (l', c', ev) ->
  cpu_ok c' /\
  (Nat.b2n (locked l') + Nat.b2n (cpu_holds c) = Nat.b2n (locked l) + Nat.b2n (cpu_holds c'))%nat.
Proof.
  destruct c as [rf [|f fs]]; [done|]. intros Hok Hh Hact.
  pose proof (cpu_holds_masked _ Hok) as Hmask. unfold cpu_ok, cpu_holds in *. simpl in *.
  destruct Hok as [Htop Hsus].
  destruct (spin_act_inv a l rf f fs l' c' ev Hact)
    as [(Hif & -> & -> & _)|[(-> & f' & fs' & -> & -> & ->)|(rf' & f' & Hcode & ->)]]; simpl.
  - rewrite Hif in *. split; [split; [done|]|].
    + constructor; [by apply top_ok_suspended|done].
    + destruct (pc_holds f); [by specialize (Hmask eq_refl)|done].
  - apply Forall_cons in Hsus as [Hs Hsus]. rewrite interrupts_enabled_sti.
    split; [split; [by apply suspended_top_ok|done]|].
    by rewrite (suspended_not_holding _ Hs).
  - by destruct (spin_code_ok a l rf f l' rf' f' ev Htop Hh Hcode).
Qed.

Lemma spin_holder_locked s c q :
  spin_inv s -> locals s !! c = Some q -> cpu_holds q = true -> locked (shared s) = true.
Proof.
  intros Hi Hc Hh. pose proof (count_if_pos _ _ _ _ Hc Hh) as Hn.
  rewrite (inv_locked _ Hi) in Hn. by destruct (locked (shared s)); [|simpl in Hn; lia].
Qed.

Lemma spin_inv_step s e s' : spin_inv s -> spin_step s e s' -> spin_inv s'.
Proof.
  intros Hi Hstep. destruct e as [c ev].
  destruct (step_inv _ _ _ _ _ Hstep) as (q & a & l' & q' & Hc & Hact & ->).
  destruct (spin_act_ok a (shared s) q l' q' ev (inv_cpus _ Hi c q Hc)) as [Hok Hcount]; [|done|].
  { by eapply spin_holder_locked. }
  pose proof (count_if_insert cpu_holds _ c q q' Hc) as Hins. rewrite (inv_locked _ Hi) in Hins.
  split; simpl; [|lia]. intros c1 q1 H1. list_update_cases; [done|]. by eapply inv_cpus.
Qed.

Lemma spin_inv_trace n rf (d : T) tr s : trace spin_step (spin_init n rf d) tr s -> spin_inv s.
Proof.
  intros Htr. apply (trace_invariant_plain _ spin_inv _ _ _ spin_inv_step Htr). split; simpl.
  - intros c q [-> ?]%lookup_replicate. by split; [|constructor].
  - by rewrite count_if_replicate, Nat.mul_0_r.
Qed.

(** No suspended code holds the guard. *)
Lemma spin_suspended s c q i f :
  spin_inv s -> locals s !! c = Some q -> frames q !! S i = Some f -> suspended_ok f.
Proof.
  intros Hi Hc Hf. pose proof (inv_cpus _ Hi c q Hc) as Hok. unfold cpu_ok in Hok.
  destruct (frames q) as [|f0 fs]; [done|]. destruct Hok as [_ Hsus]. simpl in Hf.
  by eapply Forall_lookup_1.
Qed.

Lemma spin_holding_frame s c q i f :
  spin_inv s -> locals s !! c = Some q -> frames q !! i = Some f -> pc_holds f = true ->
  i = 0%nat /\ cpu_holds q = true.
Proof.
  intros Hi Hc Hf Hh. destruct i as [|i].
  - split; [done|]. unfold cpu_holds. destruct (frames q); simplify_eq/=; done.
  - by rewrite (suspended_not_holding f) in Hh by (by eapply spin_suspended).
Qed.
End invariant.

(** ** Properties *)

Section properties.
Context {T : Type}.
Implicit Types (s : spin_sys T).

(** C27: mutual exclusion across CPUs and interrupt levels: in any interleaving of
    the CPUs and of arriving interrupts, whose handlers may use the same lock,
    at most one piece of code in the machine holds the guard (CPU [c], depth [i]
    of its stack); the lock word is set exactly when one does. *)
Theorem spin_mutual_exclusion n rf (d : T) tr s :
  trace spin_step (spin_init n rf d) tr s ->
  (forall c1 q1 i1 f1 c2 q2 i2 f2,
     locals s !! c1 = Some q1 -> frames q1 !! i1 = Some f1 -> pc_holds f1 = true ->
     locals s !! c2 = Some q2 -> frames q2 !! i2 = Some f2 -> pc_holds f2 = true ->
     c1 = c2 /\ i1 = i2) /\
  (sl_is_locked (shared s) = true <->
     exists c q f, locals s !! c = Some q /\ head (frames q) = Some f /\ pc_holds f = true).
Proof.
  intros Htr. pose proof (spin_inv_trace n rf d tr s Htr) as Hi. split.
  - intros c1 q1 i1 f1 c2 q2 i2 f2 Hc1 Hf1 Hh1 Hc2 Hf2 Hh2.
    destruct (spin_holding_frame s c1 q1 i1 f1) as [-> Hq1]; try done.
    destruct (spin_holding_frame s c2 q2 i2 f2) as [-> Hq2]; try done.
    split; [|done]. eapply (count_if_unique cpu_holds); try done.
    rewrite (inv_locked _ Hi). destruct (locked _); simpl; lia.
  - unfold sl_is_locked. split.
    + intros Hl. pose proof (inv_locked _ Hi) as Hn. rewrite Hl in Hn.
      destruct (count_if_exists cpu_holds (locals s)) as (c & q & Hc & Hq); [simpl in *; lia|].
      unfold cpu_holds in Hq. destruct (frames q) as [|f fs] eqn:Hfs; [done|].
      exists c, q, f. by rewrite Hfs.
    + intros (c & q & f & Hc & Hf & Hh). eapply spin_holder_locked; [done..|].
      unfold cpu_holds. destruct (frames q); simplify_eq/=; done.
Qed.

(** C26: no self-deadlock: the reason for disabling interrupts. The code that
    holds the guard is the code its CPU is running, with interrupts off, so no
    handler can start on top of it; hence whatever waits for the lock waits for
    another CPU, never for code it has itself suspended. *)
Theorem spin_no_self_deadlock n rf (d : T) tr s c q i f :
  trace spin_step (spin_init n rf d) tr s ->
  locals s !! c = Some q -> frames q !! i = Some f -> pc_holds f = true ->
  i = 0%nat /\ interrupts_enabled (rflags q) = false /\
  spin_act ActIrq (shared s) q = None /\
  forall c' q' was, locals s !! c' = Some q' ->
    head (frames q') = Some (SCas was) \/ head (frames q') = Some (SSpin was) -> c' <> c.
Proof.
  intros Htr Hc Hf Hh. pose proof (spin_inv_trace n rf d tr s Htr) as Hi.
  destruct (spin_holding_frame s c q i f Hi Hc Hf Hh) as [-> Hq].
  assert (interrupts_enabled (rflags q) = false) as Hif.
  { apply cpu_holds_masked; [|done]. by eapply inv_cpus. }
  repeat split; try done.
  - unfold spin_act. by rewrite Hif.
  - intros c' q' was Hc' Hw ->. assert (q' = q) as -> by congruence.
    destruct (frames q); simplify_eq/=. by destruct Hw; simplify_eq.
Qed.

(** interrupts are restored: the flags bit saved when [lock] or [try_lock]
    was called ([was]) is what the CPU has again after the guard is dropped, or
    after [try_lock] has failed, and the other flags are untouched. *)
Theorem spin_irq_restored n rf (d : T) tr s c q was fs s' ev :
  trace spin_step (spin_init n rf d) tr s ->
  locals s !! c = Some q ->
  frames q = SRestore was :: fs \/ frames q = STryRestore was :: fs ->
  spin_step s (c, ev) s' -> ev <> EvIrq ->
  exists q', locals s' !! c = Some q' /\ frames q' = SIdle :: fs /\
    interrupts_enabled (rflags q') = was /\
    forall b, b <> 9 -> Z.testbit (rflags q') b = Z.testbit (rflags q) b.
Proof.
  intros Htr Hc Hfs Hstep Hev. pose proof (spin_inv_trace n rf d tr s Htr) as Hi.
  pose proof (inv_cpus _ Hi c q Hc) as Hok.
  destruct (step_inv _ _ _ _ _ Hstep) as (q0 & a & l' & q' & Hc0 & Hact & ->).
  assert (q0 = q) as -> by congruence. exists q'. simpl.
  rewrite list_lookup_insert_eq by (by eapply lookup_lt_Some). split; [done|].
  destruct q as [r fr]. simpl in *. unfold cpu_ok in Hok.
  assert (interrupts_enabled r = false) as Hmask by (by destruct Hfs; subst; destruct Hok).
  assert (q' = Cpu (restore_interrupts was r) (SIdle :: fs)) as ->.
  { destruct Hfs; subst; destruct a; simpl in Hact; rewrite ?Hmask in Hact; by simplify_eq. }
  simpl. split; [done|]. split; [by apply interrupts_enabled_restore|].
  intros b Hb. destruct was; [|done]. simpl. unfold enable_interrupts, sti.
  rewrite Z.setbit_eqb by done. destruct (Z.eqb_spec 9 b); [lia|done].
Qed.

(** progress: on a free lock, a waiting CPU that is not interrupted gets the
    guard: [try_lock] and [lock] at their next exchange (unless it fails
    spuriously), and [lock]'s inner read loop within two operations. *)
Theorem spin_progress (l : spin_lock T) rf was fs :
  locked l = false ->
  spin_act ActRun l (Cpu rf (SCas was :: fs)) =
    Some (SpinLock true (sl_data l), Cpu rf (SHeld was :: fs), EvGuard) /\
  spin_act ActRun l (Cpu rf (STryCas was :: fs)) =
    Some (SpinLock true (sl_data l), Cpu rf (SHeld was :: fs), EvGuard) /\
  run (fun _ => spin_act) (Sys l [Cpu rf (SSpin was :: fs)]) [(0%nat, ActRun); (0%nat, ActRun)] =
    Some (Sys (SpinLock true (sl_data l)) [Cpu rf (SHeld was :: fs)],
          [(0%nat, EvStep); (0%nat, EvGuard)]).
Proof. intros Hl. destruct l as [b d]. simpl in Hl. by subst b. Qed.
End properties.

(** ** Several locks on one CPU

    Interrupts are off from the first [lock] on, so one CPU's use of its locks
    is sequential. Guards can be dropped in any order: [MDrop k] drops the guard
    that was taken [k]-th from last. *)

Inductive multi_op := MLock (id : nat) | MDrop (k : nat).

(** A guard: which lock, and its [interrupts_were_enabled]. *)
Record multi := Multi {
  m_rflags : Z;
  m_locked : list bool;
  m_guards : list (nat * bool);
}.

(** [None]: the operation does not complete (locking a lock this CPU holds spins
    for ever), or names no lock or guard. *)
Definition multi_step (m : multi) (op : multi_op) : option multi :=
  match op with
  | MLock id =>
      let '(was, rf) := disable_interrupts (m_rflags m) in
      match m_locked m !! id with
      | Some false => Some (Multi rf (<[id:=true]> (m_locked m)) ((id, was) :: m_guards m))
      | _ => None
      end
  | MDrop k =>
      match m_guards m !! k with
      | Some (id, was) =>
          Some (Multi (restore_interrupts was (m_rflags m)) (<[id:=false]> (m_locked m))
                      (delete k (m_guards m)))
      | None => None
      end
  end.

Fixpoint multi_run (m : multi) (ops : list multi_op) : option multi :=
  match ops with
  | [] => Some m
  | op :: ops => match multi_step m op with Some m' => multi_run m' ops | None => None end
  end.

Definition lifo (op : multi_op) : bool :=
  match op with MDrop (S _) => false | _ => true end.

(** The oldest guard remembers the initial state, the others that interrupts
    were off. *)
Definition multi_inv (enabled0 : bool) (m : multi) : Prop :=
  match reverse (m_guards m) with
  | [] => interrupts_enabled (m_rflags m) = enabled0
  | (_, was) :: gs => interrupts_enabled (m_rflags m) = false /\ was = enabled0 /\
                      Forall (fun g => g.2 = false) gs
  end.

Lemma multi_inv_step e0 m op m' :
  multi_inv e0 m -> lifo op = true -> multi_step m op = Some m' -> multi_inv e0 m'.
Proof.
  destruct m as [rf ls gs]. intros Hi Hl Hstep. destruct op as [id|[|k]]; [| |done]; simpl in Hstep.
  - destruct (ls !! id) as [[]|]; simplify_eq. unfold multi_inv in *. simpl in *.
    rewrite reverse_cons. destruct (reverse gs) as [|[id0 was0] gs0]; simpl.
    + rewrite interrupts_enabled_cli. auto.
    + destruct Hi as (Hif & -> & Hall). rewrite interrupts_enabled_cli, Hif.
      split; [done|]. split; [done|]. apply Forall_snoc. done.
  - destruct gs as [|[id was] gs]; simplify_eq/=. unfold multi_inv in *. simpl in *.
    rewrite reverse_cons in Hi. destruct (reverse gs) as [|[id0 was0] gs0]; simpl in *.
    + destruct Hi as (Hif & -> & _). by apply interrupts_enabled_restore.
    + destruct Hi as (Hif & -> & [Hall Hw]%Forall_snoc). simpl in Hw. subst was. done.
Qed.

Lemma multi_inv_run e0 ops m m' :
  multi_inv e0 m -> Forall (fun op => lifo op = true) ops -> multi_run m ops = Some m' ->
  multi_inv e0 m'.
Proof.
  revert m. induction ops as [|op ops IH]; intros m Hi Hall Hrun; simplify_eq/=; [done|].
  apply Forall_cons in Hall as [Hop Hall].
  destruct (multi_step m op) as [m1|] eqn:Hstep; [|done]. eauto using multi_inv_step.
Qed.

(** nested locks: as long as guards are dropped in the reverse order of their
    acquisition, interrupts stay off while any guard is alive and are back to
    their initial state when none is. *)
Theorem nested_lifo_interrupts rf locks ops m :
  Forall (fun op => lifo op = true) ops ->
  multi_run (Multi rf locks []) ops = Some m ->
  interrupts_enabled (m_rflags m) =
    match m_guards m with [] => interrupts_enabled rf | _ :: _ => false end.
Proof.
  intros Hall Hrun.
  assert (multi_inv (interrupts_enabled rf) m) as Hi.
  { by apply (multi_inv_run _ ops (Multi rf locks [])). }
  unfold multi_inv in Hi. destruct (m_guards m) as [|g gs]; [done|].
  rewrite reverse_cons in Hi. destruct (reverse gs) as [|[id was] gs0]; simpl in Hi.
  - destruct g. by destruct Hi.
  - by destruct Hi.
Qed.

(** C32: what the restore on drop does not cover: two locks taken with interrupts
    on and dropped in acquisition order leave interrupts on while the second
    lock is still held, whatever the flags and the number of locks. *)
Theorem out_of_order_drop_enables rf locks :
  interrupts_enabled rf = true ->
  exists m, multi_run (Multi rf (false :: false :: locks) []) [MLock 0; MLock 1; MDrop 1] = Some m /\
    m_locked m !! 1%nat = Some true /\ interrupts_enabled (m_rflags m) = true.
Proof.
  intros Hif. simpl. rewrite Hif, interrupts_enabled_cli. simpl.
  eexists. split; [done|]. split; [done|]. simpl. apply interrupts_enabled_sti.
Qed.

(** ** Witnesses: CPU 0 takes the lock; CPU 1 waits, inside a handler *)

Definition spin_demo_sched : list (nat * spin_action nat) :=
  [(0%nat, ActLock); (1%nat, ActLock); (1%nat, ActIrq); (1%nat, ActLock); (0%nat, ActRun);
   (1%nat, ActRun); (0%nat, ActRun); (1%nat, ActRun)].

Definition spin_demo_state : spin_sys nat :=
  Sys (SpinLock true 0%nat)
      [Cpu 2 [SHeld true]; Cpu 2 [SSpin false; SLockCli true]].

Lemma spin_demo_runs :
  trace spin_step (spin_init 2 514 0%nat)
    [(0%nat, EvCall); (1%nat, EvCall); (1%nat, EvIrq); (1%nat, EvCall); (0%nat, EvStep);
     (1%nat, EvStep); (0%nat, EvGuard); (1%nat, EvStep)] spin_demo_state.
Proof. eapply (run_trace _ _ spin_demo_sched). reflexivity. Qed.

Lemma spin_mutual_exclusion_witness :
  sl_is_locked (shared spin_demo_state) = true <->
  exists c q f, locals spin_demo_state !! c = Some q /\ head (frames q) = Some f /\ pc_holds f = true.
Proof. exact (proj2 (spin_mutual_exclusion 2 514 0%nat _ spin_demo_state spin_demo_runs)). Defined.

Lemma spin_no_self_deadlock_witness :
  0%nat = 0%nat /\ interrupts_enabled 2 = false /\
  spin_act ActIrq (shared spin_demo_state) (Cpu 2 [SHeld true]) = None /\
  forall c' q' was, locals spin_demo_state !! c' = Some q' ->
    head (frames q') = Some (SCas was) \/ head (frames q') = Some (SSpin was) -> c' <> 0%nat.
Proof.
  exact (spin_no_self_deadlock 2 514 0%nat _ spin_demo_state 0%nat (Cpu 2 [SHeld true]) 0%nat (SHeld true)
           spin_demo_runs eq_refl eq_refl eq_refl).
Defined.

Lemma spin_irq_restored_witness :
  exists q', [Cpu 514 [SIdle]] !! 0%nat = Some q' /\ frames q' = [SIdle] /\
    interrupts_enabled (rflags q') = true /\
    forall b, b <> 9 -> Z.testbit (rflags q') b = Z.testbit 2 b.
Proof.
  eapply (spin_irq_restored 1 514 0%nat _
            (Sys (SpinLock false 0%nat) [Cpu 2 [SRestore true]]) 0%nat (Cpu 2 [SRestore true])
            true [] (Sys (SpinLock false 0%nat) [Cpu 514 [SIdle]]) EvDropped).
  - eapply (run_trace _ _ [(0%nat, ActLock); (0%nat, ActRun); (0%nat, ActRun); (0%nat, ActDrop)]).
    reflexivity.
  - done.
  - by left.
  - by apply (step_act (fun _ => spin_act) (SpinLock false 0%nat) [Cpu 2 [SRestore true]] 0%nat
                (Cpu 2 [SRestore true]) ActRun (SpinLock false 0%nat) (Cpu 514 [SIdle]) EvDropped).
  - done.
Defined.

Lemma spin_progress_witness :
  spin_act ActRun (SpinLock false 3%nat) (Cpu 2 [SCas true]) =
    Some (SpinLock true 3%nat, Cpu 2 [SHeld true], EvGuard).
Proof. exact (proj1 (spin_progress (SpinLock false 3%nat) 2 true [] eq_refl)). Defined.

Lemma nested_lifo_interrupts_witness :
  interrupts_enabled 2 = false.
Proof.
  apply (nested_lifo_interrupts 514 [false; false] [MLock 0; MLock 1; MDrop 0]
           (Multi 2 [true; false] [(0%nat, true)])); [repeat constructor|reflexivity].
Defined.

Lemma out_of_order_drop_enables_witness :
  exists m, multi_run (Multi 514 [false; false] []) [MLock 0; MLock 1; MDrop 1] = Some m /\
    m_locked m !! 1%nat = Some true /\ interrupts_enabled (m_rflags m) = true.
Proof. exact (out_of_order_drop_enables 514 [] eq_refl). Defined.
