(* ===== verification/RwLock.v ===== *)
(** * RwLock: the reader-writer spinlock of src/src/spinlock.rs

    The 32-bit state word, the atomic operations of [read], [try_read], [write],
    [try_write] and of the two guards' [Drop], and a system of threads that
    interleave at those operations. *)

From S2P Require Import Prelude Threads.

(** ** Data *)

(** [const WRITER_BIT: u32 = u32::MAX] *)
Definition WRITER_BIT : Z := 2 ^ 32 - 1.

Record rw_lock (T : Type) := RwLock {
  rw_state : Z;
  rw_data : T;
}.
Arguments RwLock {T} _ _.
Arguments rw_state {T} _.
Arguments rw_data {T} _.

(** Where a thread is. The argument of [RReadCas] and [RTryReadCas] is the value
    that [current] holds. *)
Inductive rw_pc :=
| RIdle
| RReadLoad
| RReadCas (current : Z)
| RTryReadLoad
| RTryReadCas (current : Z)
| RWriteCas
| RTryWriteCas
| RReading
| RWriting
| RPanicked.

(** [ActWeakFail] lets [compare_exchange_weak] fail spuriously, as it may. *)
Inductive rw_action (T : Type) :=
| ActRead
| ActTryRead
| ActWrite
| ActTryWrite
| ActStore (v : T)
| ActDrop
| ActRun
| ActWeakFail.
Arguments ActRead {T}.
Arguments ActTryRead {T}.
Arguments ActWrite {T}.
Arguments ActTryWrite {T}.
Arguments ActStore {T} v.
Arguments ActDrop {T}.
Arguments ActRun {T}.
Arguments ActWeakFail {T}.

(** Results visible to the caller: a guard, [None] from a [try_] operation, or
    still spinning. *)
Inductive rw_event :=
| EvCall
| EvSpin
| EvReadGuard
| EvWriteGuard
| EvNone
| EvStore
| EvDropRead
| EvDropWrite
| EvPanic.

#[global] Instance rw_pc_eq_dec : EqDecision rw_pc.
Proof. solve_decision. Defined.

(** ** The operations of the code *)

Section operations.
Context {T : Type}.
Implicit Types l : rw_lock T.

Definition rw_new (data : T) : rw_lock T := RwLock 0 data.

Definition rw_set l (v : Z) : rw_lock T := RwLock v (rw_data l).

(** [compare_exchange(old, new)] on the state word: success, and the lock after. *)
Definition rw_cas l (old new : Z) : bool * rw_lock T :=
  if rw_state l =? old then (true, rw_set l new) else (false, l).

(** The exchange of [read] and [try_read]: [current + 1] is ordinary
    arithmetic, computed before the exchange. *)
Definition rw_read_cas (p : profile) l (current : Z) : res (bool * rw_lock T) :=
  new ← arith p 32 (current + 1);
  mret (rw_cas l current new).

(** [Drop for RwLockReadGuard]: [fetch_sub(1)], which wraps around. *)
Definition rw_drop_read l : rw_lock T := rw_set l (wrap 32 (rw_state l - 1)).

(** [Drop for RwLockWriteGuard]: [store(0)]. *)
Definition rw_drop_write l : rw_lock T := rw_set l 0.

(** [Deref] of both guards; [DerefMut] of the write guard. *)
Definition rw_deref l : T := rw_data l.

Definition rw_deref_mut l (v : T) : rw_lock T := RwLock (rw_state l) v.

(** One atomic operation of one thread. *)
Definition rw_act (p : profile) (a : rw_action T) l (pc : rw_pc)
  : option (rw_lock T * rw_pc * rw_event) :=
  match pc, a with
  | RIdle, ActRead => Some (l, RReadLoad, EvCall)
  | RIdle, ActTryRead => Some (l, RTryReadLoad, EvCall)
  | RIdle, ActWrite => Some (l, RWriteCas, EvCall)
  | RIdle, ActTryWrite => Some (l, RTryWriteCas, EvCall)
  | RReadLoad, ActRun =>
      let current := rw_state l in
      if current =? WRITER_BIT then Some (l, RReadLoad, EvSpin)
      else Some (l, RReadCas current, EvSpin)
  | RReadCas current, ActRun =>
      match rw_read_cas p l current with
      | Ok (true, l') => Some (l', RReading, EvReadGuard)
      | Ok (false, l') => Some (l', RReadLoad, EvSpin)
      | _ => Some (l, RPanicked, EvPanic)
      end
  | RReadCas _, ActWeakFail => Some (l, RReadLoad, EvSpin)
  | RTryReadLoad, ActRun =>
      let current := rw_state l in
      if current =? WRITER_BIT then Some (l, RIdle, EvNone)
      else Some (l, RTryReadCas current, EvSpin)
  | RTryReadCas current, ActRun =>
      match rw_read_cas p l current with
      | Ok (true, l') => Some (l', RReading, EvReadGuard)
      | Ok (false, l') => Some (l', RIdle, EvNone)
      | _ => Some (l, RPanicked, EvPanic)
      end
  | RWriteCas, ActRun =>
      let '(ok, l') := rw_cas l 0 WRITER_BIT in
      if ok then Some (l', RWriting, EvWriteGuard) else Some (l', RWriteCas, EvSpin)
  | RWriteCas, ActWeakFail => Some (l, RWriteCas, EvSpin)
  | RTryWriteCas, ActRun =>
      let '(ok, l') := rw_cas l 0 WRITER_BIT in
      if ok then Some (l', RWriting, EvWriteGuard) else Some (l', RIdle, EvNone)
  | RReading, ActDrop => Some (rw_drop_read l, RIdle, EvDropRead)
  | RWriting, ActStore v => Some (rw_deref_mut l v, RWriting, EvStore)
  | RWriting, ActDrop => Some (rw_drop_write l, RIdle, EvDropWrite)
  | _, _ => None
  end.

Definition rw_init (threads : nat) (data : T) : sys (rw_lock T) rw_pc :=
  Sys (rw_new data) (replicate threads RIdle).
End operations.

Abbreviation rw_sys T := (sys (rw_lock T) rw_pc).
Abbreviation rw_step p := (step (fun _ => rw_act p)).

(** ** The invariant: what the state word counts *)

Definition rw_reading (pc : rw_pc) : bool :=
  match pc with RReading => true | _ => false end.

Definition rw_writing (pc : rw_pc) : bool :=
  match pc with RWriting => true | _ => false end.

(** A value of [current] that survived the [WRITER_BIT] test. *)
Definition rw_pc_ok (pc : rw_pc) : Prop :=
  match pc with
  | RReadCas c | RTryReadCas c => 0 <= c < WRITER_BIT
  | RPanicked => False
  | _ => True
  end.

Definition readers {T} (s : rw_sys T) : nat := count_if rw_reading (locals s).

Definition writers {T} (s : rw_sys T) : nat := count_if rw_writing (locals s).

Record rw_inv {T} (s : rw_sys T) : Prop := {
  inv_word : (writers s = 1%nat /\ readers s = 0%nat /\ rw_state (shared s) = WRITER_BIT) \/
             (writers s = 0%nat /\ rw_state (shared s) = Z.of_nat (readers s));
  inv_range : 0 <= rw_state (shared s) <= WRITER_BIT;
  inv_pcs : forall t pc, locals s !! t = Some pc -> rw_pc_ok pc;
}.

(** ** Proofs *)

Section invariant.
Context {T : Type}.
Implicit Types (s : rw_sys T) (l : rw_lock T).

Lemma rw_inv_init n (d : T) : rw_inv (rw_init n d).
Proof.
  split; unfold readers, writers; simpl.
  - right. by rewrite !count_if_replicate, !Nat.mul_0_r.
  - unfold WRITER_BIT. lia.
  - by intros t pc [-> ?]%lookup_replicate.
Qed.

(** How a move of thread [t] changes the two counts. *)
Lemma rw_counts s l t pc pc' :
  locals s !! t = Some pc ->
  (readers (Sys l (<[t:=pc']> (locals s))) + Nat.b2n (rw_reading pc) =
   readers s + Nat.b2n (rw_reading pc'))%nat /\
  (writers (Sys l (<[t:=pc']> (locals s))) + Nat.b2n (rw_writing pc) =
   writers s + Nat.b2n (rw_writing pc'))%nat.
Proof. intros Ht. split; by apply count_if_insert. Qed.

Lemma rw_inv_insert s l t pc pc' :
  rw_inv s -> locals s !! t = Some pc -> rw_pc_ok pc' ->
  0 <= rw_state l <= WRITER_BIT ->
  (let r := (readers s + Nat.b2n (rw_reading pc') - Nat.b2n (rw_reading pc))%nat in
   let w := (writers s + Nat.b2n (rw_writing pc') - Nat.b2n (rw_writing pc))%nat in
   (w = 1%nat /\ r = 0%nat /\ rw_state l = WRITER_BIT) \/ (w = 0%nat /\ rw_state l = Z.of_nat r)) ->
  rw_inv (Sys l (<[t:=pc']> (locals s))).
Proof.
  intros Hi Ht Hok Hrange Hword. destruct (rw_counts s l t pc pc' Ht) as [Hr Hw].
  split; simpl; [|done|].
  - replace (readers _) with (readers s + Nat.b2n (rw_reading pc') - Nat.b2n (rw_reading pc))%nat by lia.
    replace (writers _) with (writers s + Nat.b2n (rw_writing pc') - Nat.b2n (rw_writing pc))%nat by lia.
    done.
  - intros u pc1 Hu. list_update_cases; [done|]. by eapply inv_pcs.
Qed.

Lemma rw_reader_counted s t : locals s !! t = Some RReading -> (1 <= readers s)%nat.
Proof. intros Ht. by apply (count_if_pos _ _ t RReading). Qed.

Lemma rw_writer_counted s t : locals s !! t = Some RWriting -> (1 <= writers s)%nat.
Proof. intros Ht. by apply (count_if_pos _ _ t RWriting). Qed.

Lemma rw_read_cas_ok p l c :
  0 <= c < WRITER_BIT -> rw_read_cas p l c = Ok (rw_cas l c (c + 1)).
Proof.
  intros Hc. unfold rw_read_cas. rewrite arith_in_range; [done|].
  unfold in_range, WRITER_BIT in *. lia.
Qed.

(** A reader's [fetch_sub] never goes below zero. *)
Lemma rw_drop_read_state s t :
  rw_inv s -> locals s !! t = Some RReading ->
  wrap 32 (rw_state (shared s) - 1) = rw_state (shared s) - 1.
Proof.
  intros Hi Ht. pose proof (rw_reader_counted s t Ht). destruct (inv_range _ Hi).
  destruct (inv_word _ Hi) as [(_ & ? & _)|[_ Hw]]; [lia|].
  apply wrap_small. unfold in_range, WRITER_BIT in *. lia.
Qed.

Ltac rw_done := simpl; unfold WRITER_BIT in *; first [done | lia].

Lemma rw_inv_step p s e s' : rw_inv s -> rw_step p s e s' -> rw_inv s'.
Proof.
  intros Hi Hstep. destruct e as [t ev].
  destruct (step_inv _ _ _ _ _ Hstep) as (pc & a & l' & pc' & Ht & Hact & ->).
  pose proof (inv_pcs _ Hi t pc Ht) as Hok. pose proof (inv_range _ Hi) as Hrange.
  pose proof (inv_word _ Hi) as Hword.
  unfold WRITER_BIT in Hrange, Hword.
  apply (rw_inv_insert s l' t pc pc' Hi Ht);
    destruct pc, a; simpl in Hact, Hok; simplify_eq; simpl; unfold WRITER_BIT in *; try done; try lia;
    try (destruct (Z.eqb_spec (rw_state (shared s)) (2 ^ 32 - 1)); simplify_eq; rw_done);
    try (rewrite rw_read_cas_ok in Hact by (unfold WRITER_BIT; lia)); try unfold rw_cas in Hact;
    try (destruct (Z.eqb_spec (rw_state (shared s)) current); simplify_eq; rw_done);
    try (destruct (Z.eqb_spec (rw_state (shared s)) 0); simplify_eq; rw_done).
  all: try (rewrite (rw_drop_read_state s t Hi Ht); pose proof (rw_reader_counted s t Ht); lia).
  all: pose proof (rw_writer_counted s t Ht); simpl; lia.
Qed.

Lemma rw_inv_trace p n (d : T) tr s : trace (rw_step p) (rw_init n d) tr s -> rw_inv s.
Proof.
  intros Htr. apply (trace_invariant_plain _ rw_inv _ _ _ (rw_inv_step p) Htr), rw_inv_init.
Qed.
End invariant.

(** Only [DerefMut] of the write guard changes the data. *)
Section data.
Context {T : Type}.
Implicit Types l : rw_lock T.

Lemma rw_cas_data l old new : rw_data (snd (rw_cas l old new)) = rw_data l.
Proof. unfold rw_cas. by destruct (_ =? _). Qed.

Lemma rw_read_cas_data p l c ok l' :
  rw_read_cas p l c = Ok (ok, l') -> rw_data l' = rw_data l.
Proof.
  unfold rw_read_cas. destruct (arith p 32 (c + 1)) as [new| |]; [|done|done].
  simpl. intros [= Hcas]. pose proof (rw_cas_data l c new) as Hd. by rewrite Hcas in Hd.
Qed.

Lemma rw_act_data p a l pc l' pc' ev :
  rw_act p a l pc = Some (l', pc', ev) -> rw_data l' = rw_data l \/ pc = RWriting.
Proof.
  intros Hact. destruct pc, a; simpl in Hact; simplify_eq; auto; left.
  - by case_match; simplify_eq.
  - destruct (rw_read_cas p l current) as [[[|] l1]| |] eqn:Hc; simplify_eq; try done;
      by eapply rw_read_cas_data.
  - by case_match; simplify_eq.
  - destruct (rw_read_cas p l current) as [[[|] l1]| |] eqn:Hc; simplify_eq; try done;
      by eapply rw_read_cas_data.
  - pose proof (rw_cas_data l 0 WRITER_BIT). by destruct (rw_cas l 0 WRITER_BIT) as [[|] ?]; simplify_eq.
  - pose proof (rw_cas_data l 0 WRITER_BIT). by destruct (rw_cas l 0 WRITER_BIT) as [[|] ?]; simplify_eq.
Qed.
End data.

(** A thread that runs alone: the events of its next two atomic operations. *)
Definition rw_solo {T} (p : profile) (l : rw_lock T) (pc : rw_pc)
  : option (rw_lock T * rw_pc * list rw_event) :=
  match rw_act p ActRun l pc with
  | Some (l1, pc1, e1) =>
      match rw_act p ActRun l1 pc1 with
      | Some (l2, pc2, e2) => Some (l2, pc2, [e1; e2])
      | None => Some (l1, pc1, [e1])
      end
  | None => None
  end.

(** ** Properties *)

Section properties.
Context {T : Type}.

(** C28: readers share and writers exclude, for any number of threads and in both
    profiles: a thread that holds the write guard is the only holder of any
    guard; the state word is [WRITER_BIT] under a writer and the exact number of
    readers otherwise; the unguarded [current + 1] never overflows and
    [fetch_sub] never wraps. *)
Theorem rw_exclusion p threads (d : T) tr s :
  trace (rw_step p) (rw_init threads d) tr s ->
  (forall t u, locals s !! t = Some RWriting ->
     (locals s !! u = Some RWriting -> u = t) /\ locals s !! u <> Some RReading) /\
  rw_state (shared s) =
    (if decide (writers s = 0%nat) then Z.of_nat (readers s) else WRITER_BIT) /\
  Z.of_nat (readers s) <= WRITER_BIT /\
  (forall t, locals s !! t <> Some RPanicked) /\
  (forall t, locals s !! t = Some RReading -> 1 <= rw_state (shared s)).
Proof.
  intros Htr. pose proof (rw_inv_trace p threads d tr s Htr) as Hi.
  pose proof (inv_word _ Hi) as Hword. pose proof (inv_range _ Hi) as Hrange.
  repeat split.
  - intros Hu. apply (count_if_unique rw_writing (locals s) u t RWriting RWriting);
      try done. change (writers s <= 1)%nat. lia.
  - intros Hu. pose proof (rw_reader_counted s u Hu). pose proof (rw_writer_counted s t H). lia.
  - case_decide; lia.
  - unfold WRITER_BIT in *. lia.
  - intros t Ht. by apply (inv_pcs _ Hi t RPanicked).
  - intros t Ht. pose proof (rw_reader_counted s t Ht). unfold WRITER_BIT in *. lia.
Qed.

(** a reader sees a constant value: while a thread holds a read guard, no
    step of any thread changes the protected data; and only the holder of the
    write guard ever changes it. *)
Theorem rw_data_stable p threads (d : T) tr s t ev s' :
  trace (rw_step p) (rw_init threads d) tr s ->
  rw_step p s (t, ev) s' ->
  rw_data (shared s') <> rw_data (shared s) ->
  locals s !! t = Some RWriting /\ forall u, locals s !! u <> Some RReading.
Proof.
  intros Htr Hstep Hne. pose proof (rw_inv_trace p threads d tr s Htr) as Hi.
  destruct (step_inv _ _ _ _ _ Hstep) as (pc & a & l' & pc' & Ht & Hact & ->). simpl in *.
  assert (pc = RWriting) as ->.
  { by destruct (rw_act_data _ _ _ _ _ _ _ Hact). }
  split; [done|]. intros u Hu. pose proof (rw_reader_counted s u Hu).
  pose proof (rw_writer_counted s t Ht). pose proof (inv_word _ Hi). lia.
Qed.

(** progress: a thread that runs alone gets what it asks for as soon as it
    may. With no writer inside (and the reader count below its limit) [read] and
    [try_read] return a guard after their two atomic operations; with nobody
    inside [write] and [try_write] return the guard at their first exchange; and
    under a writer [try_read] and [try_write] return [None]. *)
Theorem rw_progress p threads (d : T) tr s :
  trace (rw_step p) (rw_init threads d) tr s ->
  (writers s = 0%nat -> Z.of_nat (readers s) < WRITER_BIT ->
     let l' := rw_set (shared s) (Z.of_nat (readers s) + 1) in
     rw_solo p (shared s) RReadLoad = Some (l', RReading, [EvSpin; EvReadGuard]) /\
     rw_solo p (shared s) RTryReadLoad = Some (l', RReading, [EvSpin; EvReadGuard])) /\
  (writers s = 0%nat -> readers s = 0%nat ->
     let l' := rw_set (shared s) WRITER_BIT in
     rw_act p ActRun (shared s) RWriteCas = Some (l', RWriting, EvWriteGuard) /\
     rw_act p ActRun (shared s) RTryWriteCas = Some (l', RWriting, EvWriteGuard)) /\
  (writers s = 1%nat ->
     rw_act p ActRun (shared s) RTryReadLoad = Some (shared s, RIdle, EvNone) /\
     rw_act p ActRun (shared s) RTryWriteCas = Some (shared s, RIdle, EvNone)).
Proof.
  intros Htr. pose proof (rw_inv_trace p threads d tr s Htr) as Hi.
  pose proof (inv_word _ Hi) as Hword. unfold rw_solo. simpl. unfold rw_cas.
  split; [|split].
  - intros Hw Hr.
    assert (rw_state (shared s) = Z.of_nat (readers s)) as Heq by lia. rewrite Heq.
    destruct (Z.eqb_spec (Z.of_nat (readers s)) WRITER_BIT); [lia|]. simpl.
    rewrite rw_read_cas_ok by lia. unfold rw_cas. by rewrite Heq, Z.eqb_refl.
  - intros Hw Hr. assert (rw_state (shared s) = 0) as -> by lia. done.
  - intros Hw. assert (rw_state (shared s) = WRITER_BIT) as -> by lia. done.
Qed.
End properties.

(** ** Witnesses *)

(** A writer gets in while another thread spins in [read]. *)
Definition rw_demo_sched_write : list (nat * rw_action nat) :=
  [(0%nat, ActWrite); (1%nat, ActRead); (0%nat, ActRun); (1%nat, ActRun)].

Definition rw_demo_written : rw_sys nat :=
  Sys (RwLock WRITER_BIT 0%nat) [RWriting; RReadLoad; RIdle].

Lemma rw_demo_written_runs :
  trace (rw_step Release) (rw_init 3 0%nat)
    [(0%nat, EvCall); (1%nat, EvCall); (0%nat, EvWriteGuard); (1%nat, EvSpin)] rw_demo_written.
Proof. eapply (run_trace _ _ rw_demo_sched_write). vm_compute. reflexivity. Qed.

Lemma rw_exclusion_witness :
  (forall t u, locals rw_demo_written !! t = Some RWriting ->
     (locals rw_demo_written !! u = Some RWriting -> u = t) /\
     locals rw_demo_written !! u <> Some RReading) /\
  rw_state (shared rw_demo_written) =
    (if decide (writers rw_demo_written = 0%nat) then Z.of_nat (readers rw_demo_written)
     else WRITER_BIT) /\
  Z.of_nat (readers rw_demo_written) <= WRITER_BIT /\
  (forall t, locals rw_demo_written !! t <> Some RPanicked) /\
  (forall t, locals rw_demo_written !! t = Some RReading -> 1 <= rw_state (shared rw_demo_written)).
Proof. exact (rw_exclusion Release 3 0%nat _ rw_demo_written rw_demo_written_runs). Defined.

Lemma rw_data_stable_witness :
  locals rw_demo_written !! 0%nat = Some RWriting /\
  forall u, locals rw_demo_written !! u <> Some RReading.
Proof.
  apply (rw_data_stable Release 3 0%nat _ rw_demo_written 0%nat EvStore
           (Sys (RwLock WRITER_BIT 5%nat) [RWriting; RReadLoad; RIdle]) rw_demo_written_runs).
  - by apply (step_act (fun _ => rw_act Release) (RwLock WRITER_BIT 0%nat)
                [RWriting; RReadLoad; RIdle] 0%nat RWriting (ActStore 5%nat)
                (RwLock WRITER_BIT 5%nat) RWriting EvStore).
  - done.
Defined.

Lemma rw_progress_witness :
  let s := rw_init 3 0%nat in
  rw_solo Debug (shared s) RReadLoad =
    Some (rw_set (shared s) 1, RReading, [EvSpin; EvReadGuard]) /\
  rw_act Debug ActRun (shared s) RWriteCas =
    Some (rw_set (shared s) WRITER_BIT, RWriting, EvWriteGuard).
Proof.
  destruct (rw_progress Debug 3 0%nat [] (rw_init 3 0%nat) (trace_nil _ _)) as (H1 & H2 & _).
  split; [apply H1; done|apply H2; done].
Defined.
