(* ===== verification/Once.v ===== *)
(** * Once: the one-time initialization primitive of src/src/spinlock.rs

    The state word, the atomic operations of [call_once] and [is_completed], and
    a system of threads that each call [call_once] with a closure of their own,
    any number of times. A closure is a function on the data it initializes. *)

From S2P Require Import Prelude Threads.

(** ** Data *)

Definition ONCE_UNINIT : Z := 0.
Definition ONCE_RUNNING : Z := 1.
Definition ONCE_DONE : Z := 2.

(** The [Once], and the data that the closures initialize. *)
Record once (D : Type) := Once { once_state : Z; once_data : D }.
Arguments Once {D} _ _.
Arguments once_state {D} _.
Arguments once_data {D} _.

(** [OIdle returned]: not in a call; [returned] tells whether one of its calls
    has returned. [ORun]: about to run its closure. [OStore]: the closure has
    returned, the state word is not yet set. *)
Inductive once_pc :=
| OIdle (returned : bool)
| OCas
| ORun
| OStore
| OWait.

Inductive once_action := ActCall | ActCheck | ActRun.

Inductive once_event :=
| EvReturn
| EvPending
| EvRan
| EvCompleted (b : bool).

#[global] Instance once_event_eq_dec : EqDecision once_event.
Proof. solve_decision. Defined.

(** ** The operations of the code *)

Section operations.
Context {D : Type} (f : nat -> D -> D).
Implicit Types o : once D.

Definition once_new (data : D) : once D := Once ONCE_UNINIT data.

Definition once_cas o (old new : Z) : bool * once D :=
  if once_state o =? old then (true, Once new (once_data o)) else (false, o).

Definition is_completed o : bool := once_state o =? ONCE_DONE.

(** One atomic operation of thread [t]. *)
Definition once_act (t : nat) (a : once_action) o (pc : once_pc)
  : option (once D * once_pc * once_event) :=
  match pc, a with
  | OIdle _, ActCall =>
      if once_state o =? ONCE_DONE then Some (o, OIdle true, EvReturn)
      else Some (o, OCas, EvPending)
  | OIdle r, ActCheck => Some (o, OIdle r, EvCompleted (is_completed o))
  | OCas, ActRun =>
      let '(ok, o') := once_cas o ONCE_UNINIT ONCE_RUNNING in
      if ok then Some (o', ORun, EvPending) else Some (o', OWait, EvPending)
  | ORun, ActRun => Some (Once (once_state o) (f t (once_data o)), OStore, EvRan)
  | OStore, ActRun => Some (Once ONCE_DONE (once_data o), OIdle true, EvReturn)
  | OWait, ActRun =>
      if once_state o =? ONCE_DONE then Some (o, OIdle true, EvReturn)
      else Some (o, OWait, EvPending)
  | _, _ => None
  end.

Definition once_init (threads : nat) (data : D) : sys (once D) once_pc :=
  Sys (once_new data) (replicate threads (OIdle false)).
End operations.

Abbreviation once_sys D := (sys (once D) once_pc).

(** The threads whose closure has run, in order. *)
Definition ran (tr : list (nat * once_event)) : list nat :=
  (filter (fun e => e.2 = EvRan) tr).*1.

(** ** The invariant *)

(** The thread that won the exchange, until it publishes. *)
Definition once_inside (pc : once_pc) : bool :=
  match pc with ORun | OStore => true | _ => false end.

Definition once_returned (pc : once_pc) : bool :=
  match pc with OIdle b => b | _ => false end.

Record once_inv {D} (f : nat -> D -> D) (d0 : D) (tr : list (nat * once_event)) (s : once_sys D) : Prop := {
  inv_word : once_state (shared s) = ONCE_UNINIT \/ once_state (shared s) = ONCE_RUNNING \/
             once_state (shared s) = ONCE_DONE;
  inv_inside : count_if once_inside (locals s) =
               (if once_state (shared s) =? ONCE_RUNNING then 1%nat else 0%nat);
  inv_wait : forall t, locals s !! t = Some OWait -> once_state (shared s) <> ONCE_UNINIT;
  inv_returned : forall t, locals s !! t = Some (OIdle true) -> once_state (shared s) = ONCE_DONE;
  inv_run : forall t, locals s !! t = Some ORun -> ran tr = [] /\ once_data (shared s) = d0;
  inv_store : forall t, locals s !! t = Some OStore -> ran tr = [t] /\ once_data (shared s) = f t d0;
  inv_uninit : once_state (shared s) = ONCE_UNINIT -> ran tr = [] /\ once_data (shared s) = d0;
  inv_done : once_state (shared s) = ONCE_DONE ->
             exists w, ran tr = [w] /\ once_data (shared s) = f w d0;
}.

(** ** Proofs *)

(** Two different values of the state word. *)
Ltac once_absurd :=
  exfalso; unfold ONCE_UNINIT, ONCE_RUNNING, ONCE_DONE in *; simpl in *; lia.

Lemma ran_snoc tr e : ran (tr ++ [e]) = ran tr ++ (if decide (e.2 = EvRan) then [e.1] else []).
Proof. unfold ran. rewrite filter_app, fmap_app, filter_cons. by case_decide. Qed.

Lemma ran_snoc_other tr t ev : ev <> EvRan -> ran (tr ++ [(t, ev)]) = ran tr.
Proof. intros. by rewrite ran_snoc, decide_False, app_nil_r. Qed.

Section invariant.
Context {D : Type} (f : nat -> D -> D).
Implicit Types s : once_sys D.

Lemma once_inv_init n d : once_inv f d [] (once_init n d).
Proof.
  split; simpl; try done; auto.
  - rewrite count_if_replicate. simpl. lia.
  - by intros t [? ?]%lookup_replicate.
  - by intros t [? ?]%lookup_replicate.
  - by intros t [? ?]%lookup_replicate.
Qed.

(** At most one thread is inside, and only while the word says RUNNING. *)
Lemma once_inside_running d0 tr s t pc :
  once_inv f d0 tr s -> locals s !! t = Some pc -> once_inside pc = true ->
  once_state (shared s) = ONCE_RUNNING.
Proof.
  intros Hi Ht Hin. pose proof (count_if_pos _ _ _ _ Ht Hin) as Hc.
  rewrite (inv_inside _ _ _ _ Hi) in Hc. destruct (Z.eqb_spec (once_state (shared s)) ONCE_RUNNING); [done|lia].
Qed.

Lemma once_inside_unique d0 tr s t u pc pc' :
  once_inv f d0 tr s -> locals s !! t = Some pc -> once_inside pc = true ->
  locals s !! u = Some pc' -> once_inside pc' = true -> u = t.
Proof.
  intros Hi Ht Hin Hu Hin'. apply (count_if_unique once_inside (locals s) u t pc' pc); try done.
  rewrite (inv_inside _ _ _ _ Hi). by case_match; lia.
Qed.

(** A step that only moves a thread, outside the critical part. *)
Lemma once_inv_quiet d0 tr s t ev pc pc' :
  once_inv f d0 tr s -> locals s !! t = Some pc -> ev <> EvRan ->
  once_inside pc = false -> once_inside pc' = false ->
  (pc' = OWait -> once_state (shared s) <> ONCE_UNINIT) ->
  (pc' = OIdle true -> once_state (shared s) = ONCE_DONE) ->
  once_inv f d0 (tr ++ [(t, ev)]) (Sys (shared s) (<[t:=pc']> (locals s))).
Proof.
  intros Hi Ht Hev Hin Hin' Hwait Hret. pose proof (count_if_insert once_inside _ t pc pc' Ht) as Hc.
  rewrite Hin, Hin' in Hc. simpl in Hc. destruct Hi.
  split; simpl; rewrite ?(ran_snoc_other tr t ev Hev); try done.
  - lia.
  - intros u Hu. list_update_cases; eauto.
  - intros u Hu. list_update_cases; eauto.
  - intros u Hu. list_update_cases; eauto.
  - intros u Hu. list_update_cases; eauto.
Qed.

(** The exchange that wins. *)
Lemma once_inv_win d0 tr s t :
  once_inv f d0 tr s -> locals s !! t = Some OCas -> once_state (shared s) = ONCE_UNINIT ->
  once_inv f d0 (tr ++ [(t, EvPending)])
    (Sys (Once ONCE_RUNNING (once_data (shared s))) (<[t:=ORun]> (locals s))).
Proof.
  intros Hi Ht Hs. pose proof (count_if_insert once_inside _ t OCas ORun Ht) as Hc.
  destruct (inv_uninit _ _ _ _ Hi Hs) as [Hr Hd].
  rewrite (inv_inside _ _ _ _ Hi), Hs in Hc. simpl in Hc.
  split; simpl; rewrite ?ran_snoc_other by done; try done; auto.
  - lia.
  - intros u Hu. list_update_cases. pose proof (inv_returned _ _ _ _ Hi u ltac:(done)). once_absurd.
  - intros u Hu. list_update_cases.
    pose proof (once_inside_running _ _ _ u _ Hi ltac:(done) eq_refl). once_absurd.
Qed.

(** The closure runs, once. *)
Lemma once_inv_run d0 tr s t :
  once_inv f d0 tr s -> locals s !! t = Some ORun ->
  once_inv f d0 (tr ++ [(t, EvRan)])
    (Sys (Once (once_state (shared s)) (f t (once_data (shared s)))) (<[t:=OStore]> (locals s))).
Proof.
  intros Hi Ht. pose proof (count_if_insert once_inside _ t ORun OStore Ht) as Hc.
  pose proof (once_inside_running _ _ _ t _ Hi Ht eq_refl) as Hs.
  destruct (inv_run _ _ _ _ Hi t Ht) as [Hr Hd].
  rewrite (inv_inside _ _ _ _ Hi), Hs in Hc. simpl in Hc.
  split; simpl; rewrite ?ran_snoc, ?Hr, ?Hd, ?Hs; simpl; try done; auto.
  - lia.
  - intros u Hu. list_update_cases. rewrite <-Hs. by eapply inv_returned.
  - intros u Hu. list_update_cases.
    by pose proof (once_inside_unique _ _ _ t u _ _ Hi Ht eq_refl ltac:(done) eq_refl).
  - intros u Hu. list_update_cases; [done|].
    by pose proof (once_inside_unique _ _ _ t u _ _ Hi Ht eq_refl ltac:(done) eq_refl).
Qed.

(** The winner publishes. *)
Lemma once_inv_publish d0 tr s t :
  once_inv f d0 tr s -> locals s !! t = Some OStore ->
  once_inv f d0 (tr ++ [(t, EvReturn)])
    (Sys (Once ONCE_DONE (once_data (shared s))) (<[t:=OIdle true]> (locals s))).
Proof.
  intros Hi Ht. pose proof (count_if_insert once_inside _ t OStore (OIdle true) Ht) as Hc.
  pose proof (once_inside_running _ _ _ t _ Hi Ht eq_refl) as Hs.
  destruct (inv_store _ _ _ _ Hi t Ht) as [Hr Hd].
  rewrite (inv_inside _ _ _ _ Hi), Hs in Hc. simpl in Hc.
  split; simpl; rewrite ?ran_snoc_other, ?Hr by done; simpl; try done; auto.
  - lia.
  - intros u Hu. list_update_cases.
    by pose proof (once_inside_unique _ _ _ t u _ _ Hi Ht eq_refl ltac:(done) eq_refl).
  - intros u Hu. list_update_cases.
    by pose proof (once_inside_unique _ _ _ t u _ _ Hi Ht eq_refl ltac:(done) eq_refl).
  - eauto.
Qed.

Lemma once_inv_step d0 tr s e s' :
  once_inv f d0 tr s -> step (once_act f) s e s' -> once_inv f d0 (tr ++ [e]) s'.
Proof.
  intros Hi Hstep. destruct e as [t ev].
  destruct (step_inv _ _ _ _ _ Hstep) as (pc & a & o' & pc' & Ht & Hact & ->).
  destruct pc, a; simpl in Hact; simplify_eq.
  - destruct (Z.eqb_spec (once_state (shared s)) ONCE_DONE); simplify_eq;
      by eapply once_inv_quiet.
  - eapply once_inv_quiet; try done. intros [= ->]. by eapply inv_returned.
  - unfold once_cas in Hact. destruct (Z.eqb_spec (once_state (shared s)) ONCE_UNINIT); simplify_eq.
    + by apply once_inv_win.
    + by eapply once_inv_quiet.
  - by apply once_inv_run.
  - by apply once_inv_publish.
  - destruct (Z.eqb_spec (once_state (shared s)) ONCE_DONE); simplify_eq;
      (eapply once_inv_quiet; try done); intros _; by eapply inv_wait.
Qed.

(** At most one closure has run. *)
Lemma once_ran_once d0 tr s : once_inv f d0 tr s -> (length (ran tr) <= 1)%nat.
Proof.
  intros Hi. destruct (inv_word _ _ _ _ Hi) as [Hs|[Hs|Hs]].
  - destruct (inv_uninit _ _ _ _ Hi Hs) as [-> _]. simpl. lia.
  - pose proof (inv_inside _ _ _ _ Hi) as Hin. rewrite Hs in Hin. simpl in Hin.
    destruct (count_if_exists once_inside (locals s) ltac:(lia)) as (u & pc & Hu & Hpc).
    destruct pc; try done.
    + destruct (inv_run _ _ _ _ Hi u Hu) as [-> _]. simpl. lia.
    + destruct (inv_store _ _ _ _ Hi u Hu) as [-> _]. simpl. lia.
  - destruct (inv_done _ _ _ _ Hi Hs) as (w & -> & _). simpl. lia.
Qed.

Lemma once_inv_trace n d tr s :
  trace (step (once_act f)) (once_init n d) tr s -> once_inv f d tr s.
Proof.
  intros Htr. remember (once_init n d) as s0 eqn:Hs0.
  induction Htr as [|s0 tr s e s' Htr IH Hstep]; subst; [apply once_inv_init|].
  eapply once_inv_step; [by apply IH|done].
Qed.
End invariant.

(** ** Properties *)

Section properties.
Context {D : Type} (f : nat -> D -> D).

(** C29: exactly once: in any interleaving of any number of threads calling
    [call_once], each as often as it likes and with its own closure, at most one
    closure ever runs; and once any call has returned, exactly one closure [w]
    has run, to completion, and the data is its result on the initial data,
    which every later caller therefore sees. *)
Theorem once_exactly_once threads (d0 : D) tr s :
  trace (step (once_act f)) (once_init threads d0) tr s ->
  (length (ran tr) <= 1)%nat /\
  (forall t, locals s !! t = Some (OIdle true) ->
     exists w, ran tr = [w] /\ once_data (shared s) = f w d0) /\
  (is_completed (shared s) = true -> exists w, ran tr = [w] /\ once_data (shared s) = f w d0).
Proof.
  intros Htr. pose proof (once_inv_trace f threads d0 tr s Htr) as Hi.
  assert (is_completed (shared s) = true ->
          exists w, ran tr = [w] /\ once_data (shared s) = f w d0) as Hdone.
  { intros Hc%Z.eqb_eq. by apply (inv_done _ _ _ _ Hi). }
  split; [by eapply once_ran_once|]. split; [|done].
  intros t Ht. apply Hdone, Z.eqb_eq. by eapply inv_returned.
Qed.

(** completion is permanent: no step undoes [ONCE_DONE] or changes the
    initialized data afterwards. *)
Theorem once_done_stable threads (d0 : D) tr s e s' :
  trace (step (once_act f)) (once_init threads d0) tr s ->
  is_completed (shared s) = true ->
  step (once_act f) s e s' ->
  is_completed (shared s') = true /\ once_data (shared s') = once_data (shared s).
Proof.
  intros Htr Hc Hstep. pose proof (once_inv_trace f threads d0 tr s Htr) as Hi.
  destruct e as [t ev]. unfold is_completed in *. apply Z.eqb_eq in Hc.
  destruct (step_inv _ _ _ _ _ Hstep) as (pc & a & o' & pc' & Ht & Hact & ->).
  assert (once_inside pc = false) as Hin.
  { destruct (once_inside pc) eqn:Hin; [|done].
    pose proof (once_inside_running f _ _ _ _ _ Hi Ht Hin). once_absurd. }
  destruct pc, a; simpl in Hact, Hin; unfold once_cas in Hact; rewrite ?Hc in Hact;
    unfold ONCE_UNINIT, ONCE_RUNNING, ONCE_DONE in *; simpl in Hact;
    simplify_eq; simpl; by rewrite ?Hc.
Qed.

(** no deadlock: when a caller waits, either the initialization is done and
    its next load returns, or the one thread that runs the initializer is there
    and can move. *)
Theorem once_no_deadlock threads (d0 : D) tr s t :
  trace (step (once_act f)) (once_init threads d0) tr s ->
  locals s !! t = Some OWait ->
  once_act f t ActRun (shared s) OWait = Some (shared s, OIdle true, EvReturn) \/
  exists w pc, locals s !! w = Some pc /\ once_inside pc = true /\
               is_Some (once_act f w ActRun (shared s) pc).
Proof.
  intros Htr Ht. pose proof (once_inv_trace f threads d0 tr s Htr) as Hi.
  pose proof (inv_wait _ _ _ _ Hi t Ht) as Hne.
  destruct (inv_word _ _ _ _ Hi) as [Hs|[Hs|Hs]]; [done| |].
  - right. pose proof (inv_inside _ _ _ _ Hi) as Hin. rewrite Hs in Hin. simpl in Hin.
    destruct (count_if_exists once_inside (locals s) ltac:(lia)) as (u & pc & Hu & Hpc).
    exists u, pc. repeat split; try done. destruct pc; try done; simpl; eauto.
  - left. simpl. by rewrite Hs.
Qed.
End properties.

(** ** Witnesses: thread 0 initializes, 1 waits for it, 2 comes later *)

Definition once_demo_init (t : nat) (d : nat) : nat := (10 + t)%nat.

Definition once_demo_sched : list (nat * once_action) :=
  [(0%nat, ActCall); (1%nat, ActCall); (0%nat, ActRun); (1%nat, ActRun); (0%nat, ActRun);
   (1%nat, ActRun); (0%nat, ActRun)].

Definition once_demo_trace : list (nat * once_event) :=
  [(0%nat, EvPending); (1%nat, EvPending); (0%nat, EvPending); (1%nat, EvPending); (0%nat, EvRan);
   (1%nat, EvPending); (0%nat, EvReturn)].

Definition once_demo_state : once_sys nat :=
  Sys (Once ONCE_DONE 10%nat) [OIdle true; OWait; OIdle false].

Lemma once_demo_runs : trace (step (once_act once_demo_init)) (once_init 3 0%nat) once_demo_trace once_demo_state.
Proof. eapply (run_trace _ _ once_demo_sched). reflexivity. Qed.

Lemma once_exactly_once_witness :
  (length (ran once_demo_trace) <= 1)%nat /\
  (forall t, locals once_demo_state !! t = Some (OIdle true) ->
     exists w, ran once_demo_trace = [w] /\ once_data (shared once_demo_state) = once_demo_init w 0%nat) /\
  (is_completed (shared once_demo_state) = true ->
     exists w, ran once_demo_trace = [w] /\ once_data (shared once_demo_state) = once_demo_init w 0%nat).
Proof. exact (once_exactly_once once_demo_init 3 0%nat once_demo_trace once_demo_state once_demo_runs). Defined.

Lemma once_done_stable_witness :
  let s' := Sys (Once ONCE_DONE 10%nat) [OIdle true; OIdle true; OIdle false] in
  is_completed (shared s') = true /\ once_data (shared s') = once_data (shared once_demo_state).
Proof.
  intros s'. apply (once_done_stable once_demo_init 3 0%nat once_demo_trace once_demo_state (1%nat, EvReturn) s'
                      once_demo_runs eq_refl).
  by apply (step_act (once_act once_demo_init) (Once ONCE_DONE 10%nat) [OIdle true; OWait; OIdle false]
              1%nat OWait ActRun (Once ONCE_DONE 10%nat) (OIdle true) EvReturn).
Defined.

Lemma once_no_deadlock_witness :
  once_act once_demo_init 1%nat ActRun (shared once_demo_state) OWait =
    Some (shared once_demo_state, OIdle true, EvReturn) \/
  exists w pc, locals once_demo_state !! w = Some pc /\ once_inside pc = true /\
               is_Some (once_act once_demo_init w ActRun (shared once_demo_state) pc).
Proof. exact (once_no_deadlock once_demo_init 3 0%nat once_demo_trace once_demo_state 1%nat once_demo_runs eq_refl). Defined.
