(* ===== verification/Task.v ===== *)
(** * Task: tasks, their state byte and their initial CPU context
    (src/src/scheduler.rs, first part)

    The stack of a task is an allocation; where the allocator puts it is an
    argument ([stack_ptr]). *)

From stdpp Require Import strings.
From S2P Require Import Prelude.

(** ** Task state *)

Inductive task_state := Ready | Running | Blocked | Dead.

#[global] Instance task_state_eq_dec : EqDecision task_state.
Proof. solve_decision. Defined.

(** [state as u8] of the [#[repr(u8)]] enum. *)
Definition state_as_u8 (st : task_state) : Z :=
  match st with Ready => 0 | Running => 1 | Blocked => 2 | Dead => 3 end.

(** [impl From<u8> for TaskState] *)
Definition state_from_u8 (v : Z) : task_state :=
  match v with 0 => Ready | 1 => Running | 2 => Blocked | _ => Dead end.

(** ** Saved CPU context *)

Record cpu_context := CpuContext {
  rsp : Z; rbp : Z; rbx : Z; r12 : Z; r13 : Z; r14 : Z; r15 : Z;
  rip : Z;
  rflags : Z;
  rax : Z; rcx : Z; rdx : Z; rsi : Z; rdi : Z; r8 : Z; r9 : Z; r10 : Z; r11 : Z;
  cs : Z; ss : Z;
}.

Definition context_zeroed : cpu_context :=
  CpuContext 0 0 0 0 0 0 0 0 0 0 0 0 0 0 0 0 0 0 0 0.

Definition context_new_task (entry stack_top arg : Z) : cpu_context := {|
  rsp := stack_top; rbp := stack_top; rbx := 0; r12 := 0; r13 := 0; r14 := 0; r15 := 0;
  rip := entry;
  rflags := 0x200;
  rax := 0; rcx := 0; rdx := 0; rsi := 0; rdi := arg; r8 := 0; r9 := 0; r10 := 0; r11 := 0;
  cs := 0x08; ss := 0x10;
|}.

(** ** Tasks *)

Definition DEFAULT_STACK_SIZE : Z := 64 * 1024.

(** [Box<[u8]>]: the address and the length of the allocation. *)
Record stack_box := StackBox { stack_ptr : Z; stack_len : Z }.

Record task := Task {
  task_id : Z;
  task_name : string;
  task_state_byte : Z;
  task_context : cpu_context;
  task_stack : stack_box;
  task_affinity : option Z;
  task_assigned_core : option Z;
}.

#[global] Instance cpu_context_eq_dec : EqDecision cpu_context.
Proof. solve_decision. Defined.

#[global] Instance stack_box_eq_dec : EqDecision stack_box.
Proof. solve_decision. Defined.

#[global] Instance task_eq_dec : EqDecision task.
Proof. solve_decision. Defined.

(** [Task::new]. [next_task_id] is the static counter; the result carries its new
    value. [base] is the address of the allocated stack. *)
Definition task_new (p : profile) (next_task_id : Z) (name : string)
  (entry arg stack_size base : Z) : res (task * Z) :=
  let id := next_task_id in
  let next_task_id := wrap 64 (next_task_id + 1) in
  stack_top ← arith p 64 (base + stack_size);
  let stack_top_aligned := Z.land stack_top (bnot 64 0xF) in
  let context := context_new_task entry stack_top_aligned arg in
  mret ({| task_id := id;
           task_name := name;
           task_state_byte := state_as_u8 Ready;
           task_context := context;
           task_stack := StackBox base stack_size;
           task_affinity := None;
           task_assigned_core := None |}, next_task_id).

Definition with_affinity (t : task) (core_id : Z) : task := {|
  task_id := task_id t; task_name := task_name t; task_state_byte := task_state_byte t;
  task_context := task_context t; task_stack := task_stack t;
  task_affinity := Some core_id;
  task_assigned_core := task_assigned_core t;
|}.

Definition get_state (t : task) : task_state := state_from_u8 (task_state_byte t).

Definition set_state (t : task) (st : task_state) : task := {|
  task_id := task_id t; task_name := task_name t;
  task_state_byte := state_as_u8 st;
  task_context := task_context t; task_stack := task_stack t;
  task_affinity := task_affinity t; task_assigned_core := task_assigned_core t;
|}.

(** A sequence of creations, as the calls of [Task::new] on the shared counter:
    each takes a name, an entry point, an argument, a stack size and the address
    of its stack. *)
Record creation := Creation {
  cr_name : string; cr_entry : Z; cr_arg : Z; cr_size : Z; cr_base : Z;
}.

Fixpoint create_all (p : profile) (next_task_id : Z) (cs : list creation) : res (list task) :=
  match cs with
  | [] => Ok []
  | c :: cs =>
      '(t, next_task_id) ← task_new p next_task_id (cr_name c) (cr_entry c) (cr_arg c)
                             (cr_size c) (cr_base c);
      ts ← create_all p next_task_id cs;
      mret (t :: ts)
  end.

(** ** Proofs *)

(** Masking the low four bits is rounding down to a multiple of 16. *)
Lemma land_not_15 x : in_range 64 x -> Z.land x (bnot 64 0xF) = x - x mod 16.
Proof.
  intros Hx. unfold in_range in Hx.
  assert (Z.land x (bnot 64 0xF) = Z.ldiff x (Z.ones 4)) as ->.
  { apply Z.bits_inj'. intros n Hn. unfold bnot.
    rewrite Z.land_spec, Z.ldiff_spec, Z.lxor_spec. change 0xF with (Z.ones 4).
    destruct (decide (n < 64)).
    - rewrite (Z.ones_spec_low 64 n) by lia. by rewrite xorb_true_r.
    - rewrite (Z.bits_above_log2 x n); [done|lia|].
      destruct (decide (x = 0)) as [->|]; [simpl; lia|].
      apply Z.log2_lt_pow2; [lia|].
      pose proof (Z.pow_le_mono_r 2 64 n ltac:(lia) ltac:(lia)). lia. }
  rewrite Z.ldiff_ones_r, Z.shiftl_mul_pow2, Z.shiftr_div_pow2 by lia.
  change (2 ^ 4) with 16. pose proof (Z.div_mod x 16 ltac:(lia)). lia.
Qed.

Lemma task_new_ok p n name entry arg size base :
  0 < base -> 0 <= size -> in_range 64 (base + size) ->
  task_new p n name entry arg size base =
  Ok ({| task_id := n; task_name := name; task_state_byte := 0;
         task_context := context_new_task entry (base + size - (base + size) mod 16) arg;
         task_stack := StackBox base size; task_affinity := None; task_assigned_core := None |},
      wrap 64 (n + 1)).
Proof.
  intros Hb Hs Hr. unfold task_new. rewrite arith_in_range by done. simpl.
  by rewrite land_not_15.
Qed.

(** The allocations an allocator can return: inside the 64-bit address space. *)
Definition allocatable (c : creation) : Prop :=
  0 < cr_base c /\ 0 <= cr_size c /\ in_range 64 (cr_base c + cr_size c).

Lemma create_all_ids p n cs :
  0 <= n -> n + Z.of_nat (length cs) <= 2 ^ 64 -> Forall allocatable cs ->
  exists ts, create_all p n cs = Ok ts /\ map task_id ts = seqZ n (Z.of_nat (length cs)).
Proof.
  revert n. induction cs as [|c cs IH]; intros n Hn Hlen Hall; [by exists []|].
  apply Forall_cons in Hall as [(Hb & Hs & Hr) Hall]. simpl in Hlen. simpl create_all.
  rewrite task_new_ok by done. simpl.
  destruct cs as [|c' cs'].
  { eexists. split; [done|]. simpl. by rewrite seqZ_cons. }
  simpl length in *. rewrite wrap_small by (unfold in_range; lia).
  destruct (IH (n + 1)) as (ts & Hts & Hids); [lia|lia|done|].
  rewrite Hts. eexists. split; [done|].
  simpl map. rewrite Hids, (seqZ_cons n) by lia. f_equal. f_equal; lia.
Qed.

(** ** Properties *)

(** the state byte round-trips: what [set_state] stores is what [get_state]
    reads, and any other byte value reads as [Dead]. *)
Theorem task_state_roundtrip t st v :
  get_state (set_state t st) = st /\
  (3 <= v -> state_from_u8 v = Dead) /\ task_id (set_state t st) = task_id t.
Proof.
  split; [by destruct st|]. split; [|done]. intros Hv.
  destruct v as [|[[]|[]|]|]; try done; lia.
Qed.

(** a new task starts ready, at its entry point with its argument in rdi and
    interrupts enabled, on a 16-byte aligned stack pointer that lies in its own
    stack allocation (losing fewer than 16 bytes of it), in both profiles, for
    any allocation that fits the address space. *)
Theorem task_new_spec p n name entry arg size base :
  0 < base -> 16 <= size -> in_range 64 (base + size) ->
  exists t, task_new p n name entry arg size base = Ok (t, wrap 64 (n + 1)) /\
    task_id t = n /\ get_state t = Ready /\ task_affinity t = None /\
    rip (task_context t) = entry /\ rdi (task_context t) = arg /\
    Z.testbit (rflags (task_context t)) 9 = true /\
    rsp (task_context t) mod 16 = 0 /\
    base < rsp (task_context t) <= base + size /\ base + size - rsp (task_context t) < 16.
Proof.
  intros Hb Hs Hr. rewrite task_new_ok by (done || lia).
  eexists. split; [done|]. simpl.
  pose proof (Z.mod_pos_bound (base + size) 16 ltac:(lia)).
  repeat split; try lia.
  rewrite Zminus_mod_idemp_r. by rewrite Z.sub_diag.
Qed.

(** task identifiers are unique: any sequence of creations starting from the
    initial counter value 1, as many as the 64-bit counter allows before it
    wraps, yields tasks numbered 1, 2, 3, ... without repetition. *)
Theorem task_ids_unique p cs :
  Z.of_nat (length cs) < 2 ^ 64 -> Forall allocatable cs ->
  exists ts, create_all p 1 cs = Ok ts /\
    map task_id ts = seqZ 1 (Z.of_nat (length cs)) /\ NoDup (map task_id ts).
Proof.
  intros Hlen Hall. destruct (create_all_ids p 1 cs) as (ts & Hts & Hids); [lia|lia|done|].
  exists ts. split; [done|]. split; [done|]. rewrite Hids. apply NoDup_seqZ.
Qed.

(** ** Witnesses *)

Definition demo_creation : creation := Creation "worker" 4096 42 DEFAULT_STACK_SIZE 1048584.

Lemma task_new_spec_witness :
  exists t, task_new Debug 1 "worker" 4096 42 DEFAULT_STACK_SIZE 1048584 = Ok (t, 2) /\
    rsp (task_context t) = 1114112.
Proof.
  destruct (task_new_spec Debug 1 "worker" 4096 42 DEFAULT_STACK_SIZE 1048584)
    as (t & Ht & _); [done|vm_compute; congruence|vm_compute; split; congruence|].
  exists t. split; [exact Ht|]. vm_compute in Ht. injection Ht as Ht. by rewrite <-Ht.
Defined.

Definition demo_task : task := {|
  task_id := 1; task_name := "worker"; task_state_byte := 0;
  task_context := context_new_task 4096 1114112 42;
  task_stack := StackBox 1048584 DEFAULT_STACK_SIZE;
  task_affinity := None; task_assigned_core := None;
|}.

Lemma task_state_roundtrip_witness :
  get_state (set_state demo_task Blocked) = Blocked /\ state_from_u8 7 = Dead /\
  task_id (set_state demo_task Blocked) = 1.
Proof.
  destruct (task_state_roundtrip demo_task Blocked 7) as (H1 & H2 & H3).
  split; [exact H1|]. split; [apply H2; done|exact H3].
Defined.

Lemma task_ids_unique_witness :
  exists ts, create_all Release 1 [demo_creation; demo_creation] = Ok ts /\
    map task_id ts = seqZ 1 2 /\ NoDup (map task_id ts).
Proof.
  apply (task_ids_unique Release [demo_creation; demo_creation]); [done|].
  repeat constructor; vm_compute; congruence.
Defined.
