(* ===== verification/RunQueue.v ===== *)
(** * RunQueue: the per-core queue of ready tasks (src/src/scheduler.rs)

    Each operation of [RunQueue] is one critical section of its [SpinLock], so
    it is a function on the queue and its length counter. The interface the
    scheduler relies on is the class [TaskQueue]; [RunQueue] is its instance. *)

From stdpp Require Import strings.
From S2P Require Import Prelude Task.

(** ** The interface of a task queue

    [tq_tasks] is the abstract contents, first out first. The laws give every
    operation by its effect on the contents. *)
Class TaskQueue (Q : Type) := {
  tq_new : Z -> Q;
  tq_push : task -> Q -> Q;
  tq_pop : Q -> option task * Q;
  tq_steal_half : Q -> list task * Q;
  tq_len : Q -> Z;
  tq_core : Q -> Z;
  tq_tasks : Q -> list task;
  tq_ok : Q -> Prop;
}.

(** The half that a thief takes: the youngest tasks, youngest first. *)
Definition stolen_part (ts : list task) : list task :=
  reverse (drop (length ts - length ts / 2) ts).

Definition kept_part (ts : list task) : list task :=
  take (length ts - length ts / 2) ts.

Class TaskQueueLaws (Q : Type) `{TaskQueue Q} : Prop := {
  law_new c : tq_ok (tq_new c) /\ tq_tasks (tq_new c) = [] /\ tq_core (tq_new c) = c;
  law_len q : tq_ok q -> tq_len q = Z.of_nat (length (tq_tasks q));
  law_bound q : tq_ok q -> Z.of_nat (length (tq_tasks q)) < 2 ^ 64;
  law_push t q :
    tq_ok q -> Z.of_nat (length (tq_tasks q)) + 1 < 2 ^ 64 ->
    tq_ok (tq_push t q) /\ tq_tasks (tq_push t q) = tq_tasks q ++ [t] /\
    tq_core (tq_push t q) = tq_core q;
  law_pop q :
    tq_ok q ->
    let '(r, q') := tq_pop q in
    tq_ok q' /\ r = head (tq_tasks q) /\ tq_tasks q' = tail (tq_tasks q) /\ tq_core q' = tq_core q;
  law_steal q :
    tq_ok q ->
    let '(stolen, q') := tq_steal_half q in
    tq_ok q' /\ stolen = stolen_part (tq_tasks q) /\ tq_tasks q' = kept_part (tq_tasks q) /\
    tq_core q' = tq_core q;
}.

(** ** The implementation *)

(** The queue is a [VecDeque], front first; [rq_len] is the atomic counter. *)
Record run_queue := RunQueue {
  rq_core_id : Z;
  rq_queue : list task;
  rq_len : Z;
}.

Definition rq_new (core_id : Z) : run_queue := RunQueue core_id [] 0.

(** [push_back], then [len.fetch_add(1)]. *)
Definition rq_push (t : task) (q : run_queue) : run_queue :=
  RunQueue (rq_core_id q) (rq_queue q ++ [t]) (wrap 64 (rq_len q + 1)).

(** [pop_front], then [len.fetch_sub(1)]. *)
Definition rq_pop (q : run_queue) : option task * run_queue :=
  match rq_queue q with
  | t :: ts => (Some t, RunQueue (rq_core_id q) ts (wrap 64 (rq_len q - 1)))
  | [] => (None, q)
  end.

(** [VecDeque::pop_back] *)
Definition pop_back (ts : list task) : option (task * list task) :=
  match reverse ts with
  | t :: ts' => Some (t, reverse ts')
  | [] => None
  end.

(** [for _ in 0..n { if let Some(task) = q.pop_back() { stolen.push(task) } }] *)
Fixpoint steal_loop (n : nat) (queue stolen : list task) : list task * list task :=
  match n with
  | O => (stolen, queue)
  | S n =>
      match pop_back queue with
      | Some (t, queue') => steal_loop n queue' (stolen ++ [t])
      | None => steal_loop n queue stolen
      end
  end.

Definition rq_steal_half (q : run_queue) : list task * run_queue :=
  let steal_count := (length (rq_queue q) / 2)%nat in
  if (steal_count =? 0)%nat then ([], q)
  else
    let '(stolen, queue) := steal_loop steal_count (rq_queue q) [] in
    (stolen, RunQueue (rq_core_id q) queue (wrap 64 (rq_len q - Z.of_nat (length stolen)))).

Definition rq_is_empty (q : run_queue) : bool := rq_len q =? 0.

(** The counter is exact. *)
Definition rq_ok (q : run_queue) : Prop :=
  rq_len q = Z.of_nat (length (rq_queue q)) /\ Z.of_nat (length (rq_queue q)) < 2 ^ 64.

#[export] Instance run_queue_ops : TaskQueue run_queue := {
  tq_new := rq_new;
  tq_push := rq_push;
  tq_pop := rq_pop;
  tq_steal_half := rq_steal_half;
  tq_len := rq_len;
  tq_core := rq_core_id;
  tq_tasks := rq_queue;
  tq_ok := rq_ok;
}.

(** ** Specification: sequences of operations on a plain double-ended queue *)

Inductive rq_op := OpPush (t : task) | OpPop | OpSteal.

(** The tasks handed out, and the queue after. *)
Definition rq_exec (q : run_queue) (op : rq_op) : list task * run_queue :=
  match op with
  | OpPush t => ([], rq_push t q)
  | OpPop => let '(r, q') := rq_pop q in (option_list r, q')
  | OpSteal => rq_steal_half q
  end.

Definition deque_exec (ts : list task) (op : rq_op) : list task * list task :=
  match op with
  | OpPush t => ([], ts ++ [t])
  | OpPop => (option_list (head ts), tail ts)
  | OpSteal => (stolen_part ts, kept_part ts)
  end.

Fixpoint rq_execs (q : run_queue) (ops : list rq_op) : list (list task) * run_queue :=
  match ops with
  | [] => ([], q)
  | op :: ops =>
      let '(out, q1) := rq_exec q op in
      let '(outs, q2) := rq_execs q1 ops in (out :: outs, q2)
  end.

Fixpoint deque_execs (ts : list task) (ops : list rq_op) : list (list task) * list task :=
  match ops with
  | [] => ([], ts)
  | op :: ops =>
      let '(out, ts1) := deque_exec ts op in
      let '(outs, ts2) := deque_execs ts1 ops in (out :: outs, ts2)
  end.

(** ** Proofs *)

Lemma pop_back_snoc ts t : pop_back (ts ++ [t]) = Some (t, ts).
Proof. unfold pop_back. rewrite reverse_app. simpl. by rewrite reverse_involutive. Qed.

(** The loop takes [n] tasks off the back, one by one. *)
Lemma steal_loop_spec n queue stolen :
  (n <= length queue)%nat ->
  steal_loop n queue stolen =
  (stolen ++ reverse (drop (length queue - n) queue), take (length queue - n) queue).
Proof.
  revert queue stolen. induction n as [|n IH]; intros queue stolen Hn.
  - simpl. rewrite Nat.sub_0_r, drop_all, take_ge by lia. by rewrite app_nil_r.
  - destruct queue as [|t queue _] using rev_ind; [simpl in Hn; lia|].
    rewrite length_app in *. simpl in *. rewrite pop_back_snoc, IH by lia.
    replace (length queue + 1 - S n)%nat with (length queue - n)%nat by lia.
    rewrite drop_app_le, take_app_le by lia. by rewrite reverse_snoc, <-app_assoc.
Qed.

Lemma stolen_kept ts : kept_part ts ++ reverse (stolen_part ts) = ts.
Proof. unfold kept_part, stolen_part. rewrite reverse_involutive. apply take_drop. Qed.

Lemma half_le n : (n / 2 <= n)%nat.
Proof. apply Nat.Div0.div_le_upper_bound. lia. Qed.

Lemma length_stolen ts : length (stolen_part ts) = (length ts / 2)%nat.
Proof.
  unfold stolen_part. rewrite length_reverse, length_drop.
  pose proof (half_le (length ts)). lia.
Qed.

Lemma length_kept ts : length (kept_part ts) = (length ts - length ts / 2)%nat.
Proof. unfold kept_part. rewrite length_take. lia. Qed.

(** A queue of at most one task has nothing to steal. *)
Lemma stolen_part_small ts : (length ts <= 1)%nat -> stolen_part ts = [] /\ kept_part ts = ts.
Proof.
  intros Hl. assert (length ts / 2 = 0)%nat as H0 by (apply Nat.div_small; lia).
  unfold stolen_part, kept_part. rewrite H0, Nat.sub_0_r, drop_all, take_ge by lia. done.
Qed.

#[export] Instance run_queue_laws : TaskQueueLaws run_queue.
Proof.
  split; simpl.
  - done.
  - by intros q [-> _].
  - by intros q [_ ?].
  - intros t q [Hl Hb] Hlt. split; [|done]. unfold rq_ok. simpl.
    rewrite length_app, Hl. simpl. rewrite wrap_small by (unfold in_range; lia). lia.
  - intros q [Hl Hb]. unfold rq_pop. destruct (rq_queue q) as [|t ts] eqn:Hq; simpl in *.
    + rewrite Hq. split; [|done]. split; by rewrite Hq.
    + split; [|done]. unfold rq_ok. simpl. rewrite Hl, wrap_small by (unfold in_range; lia). lia.
  - intros q [Hl Hb]. unfold rq_steal_half.
    destruct (Nat.eqb_spec (length (rq_queue q) / 2) 0) as [H0|H0].
    + destruct (stolen_part_small (rq_queue q)) as [-> ->].
      { apply Nat.div_small_iff in H0; lia. }
      done.
    + pose proof (half_le (length (rq_queue q))) as Hhalf.
      rewrite steal_loop_spec by done. cbn [app]. fold (stolen_part (rq_queue q)) (kept_part (rq_queue q)).
      split; [|done]. unfold rq_ok. cbn [rq_len rq_queue].
      pose proof (length_kept (rq_queue q)). pose proof (length_stolen (rq_queue q)).
      rewrite Hl, wrap_small by (unfold in_range; lia). lia.
Qed.

(** Consequences of the laws, for any queue. *)
Section laws.
Context `{TaskQueueLaws Q}.

Lemma tq_pop_conserves q :
  tq_ok q -> option_list (fst (tq_pop q)) ++ tq_tasks (snd (tq_pop q)) = tq_tasks q.
Proof.
  intros Hq. pose proof (law_pop q Hq) as Hp. destruct (tq_pop q) as [r q']. simpl.
  destruct Hp as (_ & -> & -> & _). by destruct (tq_tasks q).
Qed.

Lemma tq_steal_conserves q :
  tq_ok q -> fst (tq_steal_half q) ++ tq_tasks (snd (tq_steal_half q)) ≡ₚ tq_tasks q.
Proof.
  intros Hq. pose proof (law_steal q Hq) as Hp. destruct (tq_steal_half q) as [st q']. simpl.
  destruct Hp as (_ & -> & -> & _). rewrite Permutation_app_comm.
  rewrite <-(stolen_kept (tq_tasks q)) at 3. by rewrite reverse_Permutation.
Qed.
End laws.

Lemma rq_exec_refines q op :
  rq_ok q -> Z.of_nat (length (rq_queue q)) + 1 < 2 ^ 64 ->
  rq_ok (snd (rq_exec q op)) /\
  deque_exec (rq_queue q) op = (fst (rq_exec q op), rq_queue (snd (rq_exec q op))) /\
  (length (rq_queue (snd (rq_exec q op))) <= S (length (rq_queue q)))%nat.
Proof.
  intros Hq Hlt. destruct op as [t| |]; simpl.
  - destruct (@law_push run_queue run_queue_ops run_queue_laws t q Hq Hlt) as (? & ? & _). split; [done|]. split; [done|].
    simpl. rewrite length_app. simpl. lia.
  - pose proof (@law_pop run_queue run_queue_ops run_queue_laws q Hq) as Hp. simpl in Hp. destruct (rq_pop q) as [r q']. simpl.
    destruct Hp as (? & -> & -> & _). split; [done|]. split; [done|].
    destruct (rq_queue q); simpl; lia.
  - pose proof (@law_steal run_queue run_queue_ops run_queue_laws q Hq) as Hp. simpl in Hp. destruct (rq_steal_half q) as [st q']. simpl.
    destruct Hp as (? & -> & -> & _). split; [done|]. split; [done|].
    simpl. rewrite length_kept. lia.
Qed.

Lemma rq_execs_refines ops q :
  rq_ok q -> Z.of_nat (length (rq_queue q)) + Z.of_nat (length ops) < 2 ^ 64 ->
  rq_ok (snd (rq_execs q ops)) /\
  deque_execs (rq_queue q) ops = (fst (rq_execs q ops), rq_queue (snd (rq_execs q ops))).
Proof.
  revert q. induction ops as [|op ops IH]; intros q Hq Hlt; simpl; [done|].
  simpl length in Hlt. destruct (rq_exec_refines q op Hq) as (Hq1 & Hd & Hl); [lia|].
  rewrite Hd. destruct (rq_exec q op) as [out q1]. simpl in *.
  destruct (IH q1 Hq1) as [Hq2 Hd2]; [lia|]. rewrite Hd2.
  by destruct (rq_execs q1 ops) as [outs q2].
Qed.

(** ** Properties *)

(** a run queue is a double-ended queue with an exact length: any sequence of
    fewer than 2^64 pushes, pops and steals from a new queue hands out exactly
    the tasks that the list specification hands out (pops from the front in
    FIFO order, steals the youngest half), leaves the same contents, and the
    [len] counter that other cores read without the lock is the length. *)
Theorem run_queue_refines_deque core ops :
  Z.of_nat (length ops) < 2 ^ 64 ->
  let '(outs, q) := rq_execs (rq_new core) ops in
  deque_execs [] ops = (outs, rq_queue q) /\
  rq_len q = Z.of_nat (length (rq_queue q)) /\
  rq_is_empty q = bool_decide (rq_queue q = []).
Proof.
  intros Hlt. destruct (rq_execs_refines ops (rq_new core)) as [[Hl _] Hd]; [done|simpl; lia|].
  destruct (rq_execs (rq_new core) ops) as [outs q]. simpl in *. split; [done|]. split; [done|].
  unfold rq_is_empty. rewrite Hl. by destruct (rq_queue q).
Qed.

(** [steal_half] takes exactly the younger half, rounded down, in youngest
    first order, and leaves the victim its oldest tasks in their order: the
    contents before are what is left followed by the reversed loot; nothing is
    lost or copied, and the counter is updated without wrapping. *)
Theorem steal_half_spec q :
  rq_ok q ->
  let '(stolen, q') := rq_steal_half q in
  rq_queue q = rq_queue q' ++ reverse stolen /\
  length stolen = (length (rq_queue q) / 2)%nat /\
  rq_len q' = rq_len q - Z.of_nat (length stolen) /\ rq_ok q'.
Proof.
  intros Hq. pose proof (@law_steal run_queue run_queue_ops run_queue_laws q Hq) as Hp. simpl in Hp.
  destruct (rq_steal_half q) as [stolen q']. destruct Hp as ([Hl' Hb'] & -> & Hk & _).
  destruct Hq as [Hl Hb]. rewrite length_stolen. rewrite Hk in *.
  split; [by rewrite stolen_kept|]. split; [done|]. split; [|by split; rewrite Hk].
  rewrite Hl', Hl, length_kept. pose proof (half_le (length (rq_queue q))). lia.
Qed.

(** ** Witnesses *)

Definition demo_queue_task (n : Z) : task := {|
  task_id := n; task_name := "t"; task_state_byte := 0; task_context := context_zeroed;
  task_stack := StackBox 4096 65536; task_affinity := None; task_assigned_core := None;
|}.

Definition demo_ops : list rq_op :=
  [OpPush (demo_queue_task 1); OpPush (demo_queue_task 2); OpPush (demo_queue_task 3);
   OpPush (demo_queue_task 4); OpPush (demo_queue_task 5); OpPop; OpSteal].

Lemma run_queue_refines_deque_witness :
  let '(outs, q) := rq_execs (rq_new 0) demo_ops in
  map (map task_id) outs = [[]; []; []; []; []; [1]; [5; 4]] /\
  deque_execs [] demo_ops = (outs, rq_queue q) /\ rq_len q = 2.
Proof.
  pose proof (run_queue_refines_deque 0 demo_ops ltac:(done)) as H.
  destruct (rq_execs (rq_new 0) demo_ops) as [outs q] eqn:He.
  destruct H as (H1 & H2 & _). vm_compute in He. injection He as <- <-.
  split; [reflexivity|]. split; [exact H1|reflexivity].
Defined.

Lemma steal_half_spec_witness :
  let q := RunQueue 0 [demo_queue_task 1; demo_queue_task 2; demo_queue_task 3] 3 in
  rq_queue q = rq_queue (snd (rq_steal_half q)) ++ reverse (fst (rq_steal_half q)) /\
  map task_id (fst (rq_steal_half q)) = [3].
Proof.
  intros q. pose proof (steal_half_spec q) as H.
  destruct (rq_steal_half q) as [stolen q'] eqn:He.
  destruct H as (H1 & _); [split; [reflexivity|done]|].
  split; [exact H1|]. vm_compute in He. injection He as <- _. reflexivity.
Defined.
