(* ===== verification/Scheduler.v ===== *)
(** * Scheduler: placement, picking and stealing over per-core run queues
    (src/src/scheduler.rs, [impl Scheduler])

    The scheduler is a client of the [TaskQueue] interface: its definitions and
    theorems hold for any queue with the laws, and are run on [RunQueue]. Every
    method is modelled for a caller that is not interleaved with another core's
    method (SchedCode has the interleaved ones); core numbers are [u32]. *)

From stdpp Require Import strings.
From S2P Require Import Prelude Task RunQueue.

Section scheduler.
Context `{TaskQueue Q}.

(** ** State *)

Record scheduler := Scheduler {
  run_queues : list Q;
  current_tasks : list (option task);
  num_cores : Z;
}.

Implicit Types s : scheduler.

(** ** Operations *)

(** [Scheduler::new]: one queue and one empty slot per core. *)
Definition sched_new (cores : Z) : scheduler :=
  Scheduler (map tq_new (seqZ 0 cores)) (replicate (Z.to_nat cores) None) cores.

(** [self.run_queues[core as usize]]: panics out of range. *)
Definition index_queue s (core : Z) : res Q :=
  match run_queues s !! Z.to_nat core with
  | Some q => Ok q
  | None => Panic
  end.

Definition set_queue s (core : Z) (q : Q) : scheduler :=
  Scheduler (<[Z.to_nat core:=q]> (run_queues s)) (current_tasks s) (num_cores s).

(** [self.run_queues[core as usize].push(task)] *)
Definition push_to s (core : Z) (t : task) : res scheduler :=
  q ← index_queue s core;
  mret (set_queue s core (tq_push t q)).

(** The loop of [least_loaded_core]: [i] is the [enumerate] counter. *)
Fixpoint least_loaded_loop (i : Z) (qs : list Q) (min_load min_core : Z) : Z :=
  match qs with
  | [] => min_core
  | q :: qs =>
      let load := tq_len q in
      if load <? min_load
      then least_loaded_loop (i + 1) qs load (wrap 32 i)
      else least_loaded_loop (i + 1) qs min_load min_core
  end.

Definition least_loaded_core s : Z := least_loaded_loop 0 (run_queues s) (2 ^ 64 - 1) 0.

(** The loop of [busiest_core]. *)
Fixpoint busiest_loop (exclude_core i : Z) (qs : list Q) (max_load : Z) (max_core : option Z)
  : option Z :=
  match qs with
  | [] => max_core
  | q :: qs =>
      if wrap 32 i =? exclude_core
      then busiest_loop exclude_core (i + 1) qs max_load max_core
      else
        let load := tq_len q in
        if max_load <? load
        then busiest_loop exclude_core (i + 1) qs load (Some (wrap 32 i))
        else busiest_loop exclude_core (i + 1) qs max_load max_core
  end.

Definition busiest_core s (exclude_core : Z) : option Z :=
  busiest_loop exclude_core 0 (run_queues s) 1 None.

Definition spawn s (t : task) : res scheduler :=
  let core := match task_affinity t with
              | Some affinity => affinity
              | None => least_loaded_core s
              end in
  push_to s core t.

Definition spawn_on_core s (core_id : Z) (t : task) : res scheduler :=
  if core_id <? num_cores s then push_to s core_id t else Panic.

(** [for task in iter { rq.push(task); }] *)
Fixpoint push_all s (core : Z) (ts : list task) : res scheduler :=
  match ts with
  | [] => Ok s
  | t :: ts => s' ← push_to s core t; push_all s' core ts
  end.

Definition schedule s (core_id : Z) : res (option task * scheduler) :=
  rq ← index_queue s core_id;
  let '(own, rq') := tq_pop rq in
  let s1 := set_queue s core_id rq' in
  match own with
  | Some t => Ok (Some t, s1)
  | None =>
      match busiest_core s1 core_id with
      | Some victim =>
          vq ← index_queue s1 victim;
          let '(stolen, vq') := tq_steal_half vq in
          let s2 := set_queue s1 victim vq' in
          match stolen with
          | first :: rest => s3 ← push_all s2 core_id rest; Ok (Some first, s3)
          | [] => Ok (None, s2)
          end
      | None => Ok (None, s1)
      end
  end.

Definition block_current s (core_id : Z) : res (option task * scheduler) := schedule s core_id.

Definition wake s (t : task) (target_core : Z) : res scheduler :=
  push_to s target_core (set_state t Ready).

Definition preempt_current s (core_id : Z) (t : task) : res scheduler :=
  push_to s core_id (set_state t Ready).

Definition queue_lengths s : list Z := map tq_len (run_queues s).

(** [Iterator::sum] is ordinary addition of [u64]. *)
Fixpoint sum_u64 (p : profile) (acc : Z) (l : list Z) : res Z :=
  match l with
  | [] => Ok acc
  | x :: l => acc' ← arith p 64 (acc + x); sum_u64 p acc' l
  end.

Definition total_queued (p : profile) s : res Z := sum_u64 p 0 (queue_lengths s).

(** ** Abstraction: the contents of every queue *)

Definition contents s : list (list task) := map tq_tasks (run_queues s).

Definition all_tasks s : list task := concat (contents s).

(** Well-formed: one well-formed queue per core, numbered in order. *)
Record sched_ok s : Prop := {
  ok_cores : num_cores s = Z.of_nat (length (run_queues s));
  ok_range : num_cores s < 2 ^ 32;
  ok_slots : length (current_tasks s) = length (run_queues s);
  ok_queues : forall i q, run_queues s !! i = Some q -> tq_ok q /\ tq_core q = Z.of_nat i;
}.

(** [c] is the first core whose queue is shortest. *)
Definition is_least_loaded (cs : list (list task)) (c : nat) : Prop :=
  exists ts, cs !! c = Some ts /\
    forall j ts', cs !! j = Some ts' ->
      (length ts <= length ts')%nat /\ ((j < c)%nat -> (length ts < length ts')%nat).

(** [v] is the first core, other than [exclude], whose queue is longest and has at
    least two tasks. *)
Definition is_busiest (cs : list (list task)) (exclude v : nat) : Prop :=
  exists ts, cs !! v = Some ts /\ v <> exclude /\ (1 < length ts)%nat /\
    forall j ts', cs !! j = Some ts' -> j <> exclude ->
      (length ts' <= length ts)%nat /\ ((j < v)%nat -> (length ts' < length ts)%nat).

(** No core other than [exclude] has two tasks. *)
Definition none_busy (cs : list (list task)) (exclude : nat) : Prop :=
  forall j ts, cs !! j = Some ts -> j <> exclude -> (length ts <= 1)%nat.

(** No two queues differ by more than one task. *)
Definition balanced (cs : list (list task)) : Prop :=
  forall i j a b, cs !! i = Some a -> cs !! j = Some b -> (length a <= S (length b))%nat.

(** ** Sequences of calls *)

Inductive sched_op :=
| OpSpawn (t : task)
| OpSpawnOn (core : nat) (t : task)
| OpSchedule (core : nat)
| OpBlock (core : nat)
| OpWake (t : task) (core : nat)
| OpPreempt (core : nat) (t : task).

(** The task the call returns, if any, and the scheduler after. *)
Definition sched_exec s (op : sched_op) : res (list task * scheduler) :=
  match op with
  | OpSpawn t => s' ← spawn s t; mret ([], s')
  | OpSpawnOn c t => s' ← spawn_on_core s (Z.of_nat c) t; mret ([], s')
  | OpSchedule c => '(r, s') ← schedule s (Z.of_nat c); mret (option_list r, s')
  | OpBlock c => '(r, s') ← block_current s (Z.of_nat c); mret (option_list r, s')
  | OpWake t c => s' ← wake s t (Z.of_nat c); mret ([], s')
  | OpPreempt c t => s' ← preempt_current s (Z.of_nat c) t; mret ([], s')
  end.

Fixpoint sched_run s (ops : list sched_op) : res (list task * scheduler) :=
  match ops with
  | [] => Ok ([], s)
  | op :: ops =>
      '(out, s1) ← sched_exec s op;
      '(outs, s2) ← sched_run s1 ops;
      mret (out ++ outs, s2)
  end.

(** The task a call hands to the scheduler. *)
Definition op_input (op : sched_op) : list task :=
  match op with
  | OpSpawn t | OpSpawnOn _ t => [t]
  | OpWake t _ | OpPreempt _ t => [set_state t Ready]
  | _ => []
  end.

(** The core a call names exists. *)
Definition op_valid (cores : nat) (op : sched_op) : Prop :=
  match op with
  | OpSpawn t => match task_affinity t with
                 | Some a => 0 <= a < Z.of_nat cores
                 | None => True
                 end
  | OpSpawnOn c _ | OpSchedule c | OpBlock c | OpWake _ c | OpPreempt c _ => (c < cores)%nat
  end.
End scheduler.
Arguments scheduler : clear implicits.
Arguments Scheduler {Q} _ _ _.
Arguments run_queues {Q} _.
Arguments current_tasks {Q} _.
Arguments num_cores {Q} _.

(** ** Proofs *)

Section proofs.
Context `{TaskQueueLaws Q}.
Implicit Types (s : scheduler Q) (c : nat).

(** *** The two searches *)

Lemma least_loaded_loop_spec qs i ml mc :
  0 <= i -> i + Z.of_nat (length qs) <= 2 ^ 32 ->
  let r := least_loaded_loop i qs ml mc in
  (r = mc /\ forall j q, qs !! j = Some q -> ml <= tq_len q) \/
  (exists v q, qs !! v = Some q /\ r = i + Z.of_nat v /\ tq_len q < ml /\
     forall j q', qs !! j = Some q' -> tq_len q <= tq_len q' /\ ((j < v)%nat -> tq_len q < tq_len q')).
Proof.
  revert i ml mc. induction qs as [|q0 qs IH]; intros i ml mc Hi Hlen; simpl.
  - left. done.
  - simpl length in Hlen. destruct (Z.ltb_spec (tq_len q0) ml) as [Hlt|Hge].
    + rewrite wrap_small by (unfold in_range; lia). right.
      destruct (IH (i + 1) (tq_len q0) i ltac:(lia) ltac:(lia))
        as [[-> Hall]|(v & q & Hv & -> & Hq & Hall)].
      * exists 0%nat, q0. split; [done|]. split; [lia|]. split; [done|].
        intros [|j] q' Hj; simplify_eq/=; [lia|]. specialize (Hall j q' Hj). lia.
      * exists (S v), q. split; [done|]. split; [lia|]. split; [lia|].
        intros [|j] q' Hj; simplify_eq/=; [lia|]. specialize (Hall j q' Hj). lia.
    + destruct (IH (i + 1) ml mc ltac:(lia) ltac:(lia)) as [[-> Hall]|(v & q & Hv & -> & Hq & Hall)].
      * left. split; [done|]. intros [|j] q' Hj; simplify_eq/=; eauto.
      * right. exists (S v), q. split; [done|]. split; [lia|]. split; [lia|].
        intros [|j] q' Hj; simplify_eq/=; [lia|]. specialize (Hall j q' Hj). lia.
Qed.

Lemma busiest_loop_spec exclude qs i ml mc :
  0 <= i -> i + Z.of_nat (length qs) <= 2 ^ 32 ->
  let r := busiest_loop exclude i qs ml mc in
  (r = mc /\ forall j q, qs !! j = Some q -> i + Z.of_nat j <> exclude -> tq_len q <= ml) \/
  (exists v q, qs !! v = Some q /\ i + Z.of_nat v <> exclude /\ r = Some (i + Z.of_nat v) /\
     ml < tq_len q /\
     forall j q', qs !! j = Some q' -> i + Z.of_nat j <> exclude ->
       tq_len q' <= tq_len q /\ ((j < v)%nat -> tq_len q' < tq_len q)).
Proof.
  revert i ml mc. induction qs as [|q0 qs IH]; intros i ml mc Hi Hlen; simpl.
  - left. done.
  - simpl length in Hlen. rewrite wrap_small by (unfold in_range; lia).
    assert (forall j, i + 1 + Z.of_nat j = i + Z.of_nat (S j)) as Hshift by lia.
    destruct (Z.eqb_spec i exclude) as [Hx|Hx]; [|destruct (Z.ltb_spec ml (tq_len q0)) as [Hlt|Hge]].
    + destruct (IH (i + 1) ml mc ltac:(lia) ltac:(lia)) as [[-> Hall]|(v & q & Hv & Hne & -> & Hq & Hall)].
      * left. split; [done|]. intros [|j] q' Hj Hjx; simplify_eq/=; [lia|].
        apply (Hall j q' Hj). lia.
      * right. exists (S v), q. rewrite <-Hshift. repeat split; try done; try lia.
        -- destruct j as [|j]; simplify_eq/=; [lia|]. apply (Hall j q'); [done|lia].
        -- destruct j as [|j]; simplify_eq/=; [lia|]. intros. apply (Hall j q'); [done|lia|lia].
    + right. destruct (IH (i + 1) (tq_len q0) (Some i) ltac:(lia) ltac:(lia))
        as [[-> Hall]|(v & q & Hv & Hne & -> & Hq & Hall)].
      * exists 0%nat, q0. rewrite Z.add_0_r. repeat split; try done; try lia.
        destruct j as [|j]; simplify_eq/=; [lia|]. apply (Hall j q'); [done|lia].
      * exists (S v), q. rewrite <-Hshift. repeat split; try done; try lia.
        -- destruct j as [|j]; simplify_eq/=; [lia|]. apply (Hall j q'); [done|lia].
        -- destruct j as [|j]; simplify_eq/=; [lia|]. intros. apply (Hall j q'); [done|lia|lia].
    + destruct (IH (i + 1) ml mc ltac:(lia) ltac:(lia)) as [[-> Hall]|(v & q & Hv & Hne & -> & Hq & Hall)].
      * left. split; [done|]. intros [|j] q' Hj Hjx; simplify_eq/=; [lia|].
        apply (Hall j q' Hj). lia.
      * right. exists (S v), q. rewrite <-Hshift. repeat split; try done; try lia.
        -- destruct j as [|j]; simplify_eq/=; [lia|]. apply (Hall j q'); [done|lia].
        -- destruct j as [|j]; simplify_eq/=; [lia|]. intros. apply (Hall j q'); [done|lia|lia].
Qed.

(** *** Contents of a well-formed scheduler *)

Lemma contents_lookup s c : contents s !! c = tq_tasks <$> run_queues s !! c.
Proof. unfold contents. apply list_lookup_fmap. Qed.

Lemma length_contents s : length (contents s) = length (run_queues s).
Proof. unfold contents. apply length_map. Qed.

Lemma contents_queue s c ts :
  contents s !! c = Some ts -> exists q, run_queues s !! c = Some q /\ tq_tasks q = ts.
Proof.
  rewrite contents_lookup. destruct (run_queues s !! c) as [q|]; simpl; intros; simplify_eq. eauto.
Qed.

Lemma queue_contents s c q : run_queues s !! c = Some q -> contents s !! c = Some (tq_tasks q).
Proof. intros Hq. by rewrite contents_lookup, Hq. Qed.

Lemma sched_ok_len s c q :
  sched_ok s -> run_queues s !! c = Some q -> tq_len q = Z.of_nat (length (tq_tasks q)).
Proof. intros Hs Hq. apply law_len. by apply (ok_queues _ Hs c). Qed.

Lemma sched_ok_cores s : sched_ok s -> Z.of_nat (length (run_queues s)) < 2 ^ 32.
Proof. intros []. lia. Qed.

Lemma least_loaded_ok s :
  sched_ok s -> run_queues s <> [] ->
  exists c, least_loaded_core s = Z.of_nat c /\ is_least_loaded (contents s) c.
Proof.
  intros Hs Hne. pose proof (sched_ok_cores s Hs).
  assert (forall j ts', contents s !! j = Some ts' -> exists q,
            run_queues s !! j = Some q /\ tq_tasks q = ts' /\ tq_len q = Z.of_nat (length ts') /\
            tq_len q < 2 ^ 64) as Hc.
  { intros j ts' (q & Hq & <-)%contents_queue. exists q. pose proof (sched_ok_len s j q Hs Hq).
    destruct (ok_queues _ Hs j q Hq) as [Hok _]. pose proof (law_bound q Hok). repeat split; lia || done. }
  unfold least_loaded_core.
  destruct (least_loaded_loop_spec (run_queues s) 0 (2 ^ 64 - 1) 0 ltac:(lia) ltac:(lia))
    as [[-> Hall]|(v & q & Hv & -> & _ & Hall)].
  - exists 0%nat. split; [done|]. destruct (run_queues s) as [|q0 qs] eqn:Hqs; [done|].
    exists (tq_tasks q0). split; [by rewrite contents_lookup, Hqs|].
    intros j ts' (q & Hq & <- & Hl & Hb)%Hc. pose proof (Hall j q Hq).
    pose proof (sched_ok_len s 0%nat q0 Hs) as Hlen0. rewrite Hqs in Hlen0. specialize (Hlen0 eq_refl).
    destruct (ok_queues _ Hs 0%nat q0) as [Hok0 _]; [by rewrite Hqs|]. pose proof (law_bound q0 Hok0). lia.
  - exists v. split; [lia|]. exists (tq_tasks q). split; [by apply queue_contents|].
    intros j ts' (q' & Hq' & <- & Hl & Hb)%Hc. pose proof (Hall j q' Hq').
    pose proof (sched_ok_len s v q Hs Hv). lia.
Qed.

Lemma busiest_ok s c :
  sched_ok s ->
  match busiest_core s (Z.of_nat c) with
  | Some v => exists v', v = Z.of_nat v' /\ is_busiest (contents s) c v'
  | None => none_busy (contents s) c
  end.
Proof.
  intros Hs. pose proof (sched_ok_cores s Hs). unfold busiest_core.
  destruct (busiest_loop_spec (Z.of_nat c) (run_queues s) 0 1 None ltac:(lia) ltac:(lia))
    as [[-> Hall]|(v & q & Hv & Hne & -> & Hq & Hall)].
  - intros j ts (q & Hq & <-)%contents_queue Hj.
    pose proof (Hall j q Hq ltac:(lia)). pose proof (sched_ok_len s j q Hs Hq). lia.
  - exists v. split; [lia|]. pose proof (sched_ok_len s v q Hs Hv).
    exists (tq_tasks q). split; [by apply queue_contents|]. split; [lia|]. split; [lia|].
    intros j ts (q' & Hq' & <-)%contents_queue Hj.
    pose proof (Hall j q' Hq' ltac:(lia)). pose proof (sched_ok_len s j q' Hs Hq'). lia.
Qed.

(** *** Changing one queue *)

Lemma set_queue_ok s c q q' :
  sched_ok s -> run_queues s !! c = Some q -> tq_ok q' -> tq_core q' = tq_core q ->
  sched_ok (set_queue s (Z.of_nat c) q') /\
  contents (set_queue s (Z.of_nat c) q') = <[c:=tq_tasks q']> (contents s).
Proof.
  intros Hs Hq Hok Hcore. unfold set_queue. rewrite Nat2Z.id. split.
  - destruct Hs. split; simpl; rewrite ?length_insert; try done.
    intros i q1 Hi. list_update_cases; [|by apply ok_queues0].
    split; [done|]. rewrite Hcore. by apply ok_queues0.
  - unfold contents. simpl. apply list_fmap_insert.
Qed.

Lemma index_queue_ok s c q :
  run_queues s !! c = Some q -> index_queue s (Z.of_nat c) = Ok q.
Proof. intros Hq. unfold index_queue. by rewrite Nat2Z.id, Hq. Qed.

Lemma push_to_ok s c ts t :
  sched_ok s -> contents s !! c = Some ts -> Z.of_nat (length ts) + 1 < 2 ^ 64 ->
  exists s', push_to s (Z.of_nat c) t = Ok s' /\ sched_ok s' /\
             contents s' = <[c:=ts ++ [t]]> (contents s).
Proof.
  intros Hs (q & Hq & <-)%contents_queue Hlt. destruct (ok_queues _ Hs c q Hq) as [Hok _].
  destruct (law_push t q Hok Hlt) as (Hok' & Hts & Hcore).
  unfold push_to. rewrite (index_queue_ok s c q Hq). simpl.
  eexists. split; [done|]. rewrite <-Hts. by eapply set_queue_ok.
Qed.

Lemma push_all_ok s c ts0 ts :
  sched_ok s -> contents s !! c = Some ts0 ->
  Z.of_nat (length ts0) + Z.of_nat (length ts) < 2 ^ 64 ->
  exists s', push_all s (Z.of_nat c) ts = Ok s' /\ sched_ok s' /\
             contents s' = <[c:=ts0 ++ ts]> (contents s).
Proof.
  revert s ts0. induction ts as [|t ts IH]; intros s ts0 Hs Hc Hlt; simpl.
  - exists s. split; [done|]. split; [done|]. by rewrite app_nil_r, list_insert_id.
  - simpl length in Hlt. destruct (push_to_ok s c ts0 t Hs Hc ltac:(lia)) as (s1 & -> & Hs1 & Hc1).
    simpl. destruct (IH s1 (ts0 ++ [t])) as (s2 & -> & Hs2 & Hc2); [done| | |].
    + rewrite Hc1. apply list_lookup_insert_eq. by eapply lookup_lt_Some.
    + rewrite length_app. simpl. lia.
    + exists s2. split; [done|]. split; [done|].
      by rewrite Hc2, Hc1, list_insert_insert_eq, <-app_assoc.
Qed.

(** Replacing one list of a list of lists. *)
Lemma concat_insert_perm (cs : list (list task)) c ts ts' :
  cs !! c = Some ts -> concat (<[c:=ts']> cs) ++ ts ≡ₚ concat cs ++ ts'.
Proof.
  revert c. induction cs as [|ts0 cs IH]; intros [|c] Hc; simplify_eq/=.
  - by rewrite <-app_assoc, (Permutation_app_comm (concat cs)), Permutation_app_comm, <-app_assoc.
  - by rewrite <-!app_assoc, IH.
Qed.

(** *** The specification of [schedule] on the contents *)

Inductive picks (cs : list (list task)) (c : nat) : option task -> list (list task) -> Prop :=
| picks_own t ts :
    cs !! c = Some (t :: ts) -> picks cs c (Some t) (<[c:=ts]> cs)
| picks_stolen v ts t rest :
    cs !! c = Some [] -> is_busiest cs c v -> cs !! v = Some ts ->
    stolen_part ts = t :: rest ->
    picks cs c (Some t) (<[c:=rest]> (<[v:=kept_part ts]> cs))
| picks_nothing :
    cs !! c = Some [] -> none_busy cs c -> picks cs c None cs.

Lemma stolen_part_nonempty ts : (1 < length ts)%nat -> stolen_part ts <> [].
Proof.
  intros Hl Hnil. pose proof (length_stolen ts) as Hlen. rewrite Hnil in Hlen. cbn [length] in Hlen.
  symmetry in Hlen. apply Nat.div_small_iff in Hlen; lia.
Qed.

Lemma schedule_steal s c v ts :
  sched_ok s -> contents s !! c = Some [] -> is_busiest (contents s) c v ->
  contents s !! v = Some ts ->
  exists t rest vq s3,
    index_queue s (Z.of_nat v) = Ok vq /\ fst (tq_steal_half vq) = t :: rest /\
    push_all (set_queue s (Z.of_nat v) (snd (tq_steal_half vq))) (Z.of_nat c) rest = Ok s3 /\
    sched_ok s3 /\ picks (contents s) c (Some t) (contents s3).
Proof.
  intros Hs Hc Hb Hv. destruct Hb as (ts1 & Hv1 & Hne & Hlen & Hmax).
  rewrite Hv in Hv1. injection Hv1 as <-.
  destruct (contents_queue s v ts Hv) as (vq & Hq & <-).
  destruct (ok_queues _ Hs v vq Hq) as [Hok _].
  pose proof (law_bound vq Hok) as Hbound. pose proof (law_steal vq Hok) as Hst.
  destruct (tq_steal_half vq) as [st vq'] eqn:Hsteal. destruct Hst as (Hok' & -> & Hkept & Hcore).
  destruct (stolen_part (tq_tasks vq)) as [|t rest] eqn:Hstp; [by apply stolen_part_nonempty in Hstp|].
  destruct (set_queue_ok s v vq vq' Hs Hq Hok' Hcore) as [Hs2 Hc2]. rewrite Hkept in Hc2.
  pose proof (length_stolen (tq_tasks vq)) as Hls. rewrite Hstp in Hls. cbn [length] in Hls.
  pose proof (half_le (length (tq_tasks vq))).
  destruct (push_all_ok (set_queue s (Z.of_nat v) vq') c [] rest Hs2) as (s3 & Hpush & Hs3 & Hc3).
  { by rewrite Hc2, list_lookup_insert_ne. }
  { simpl. lia. }
  exists t, rest, vq, s3. rewrite Hsteal. simpl. split; [by apply index_queue_ok|].
  split; [done|]. split; [done|]. split; [done|]. rewrite Hc3, Hc2. simpl.
  econstructor; try done. by exists (tq_tasks vq).
Qed.

Lemma schedule_ok s c ts :
  sched_ok s -> contents s !! c = Some ts ->
  exists r s', schedule s (Z.of_nat c) = Ok (r, s') /\ sched_ok s' /\
               picks (contents s) c r (contents s').
Proof.
  intros Hs Hc. destruct (contents_queue s c ts Hc) as (q & Hq & Hts).
  destruct (ok_queues _ Hs c q Hq) as [Hok _]. pose proof (law_pop q Hok) as Hpop.
  unfold schedule. rewrite (index_queue_ok s c q Hq). simpl.
  destruct (tq_pop q) as [own q'] eqn:Hp. destruct Hpop as (Hok' & -> & Htail & Hcore).
  destruct (set_queue_ok s c q q' Hs Hq Hok' Hcore) as [Hs1 Hc1]. rewrite Htail, Hts in *.
  destruct ts as [|t ts]; simpl in *.
  - rewrite list_insert_id in Hc1 by done. set (s1 := set_queue s (Z.of_nat c) q') in *.
    rewrite <-Hc1 in Hc |- *. pose proof (busiest_ok s1 c Hs1) as Hb.
    destruct (busiest_core s1 (Z.of_nat c)) as [v|].
    + destruct Hb as (v' & -> & Hb). pose proof Hb as (ts & Hv & _).
      destruct (schedule_steal s1 c v' ts Hs1 Hc Hb Hv)
        as (t & rest & vq & s3 & -> & Hst & Hpush & Hs3 & Hpick). simpl.
      destruct (tq_steal_half vq) as [st vq'] eqn:Hsteal. simpl in *. subst st.
      rewrite Hpush. simpl. by exists (Some t), s3.
    + exists None, s1. split; [done|]. split; [done|]. by constructor.
  - eexists (Some t), _. split; [done|]. split; [done|]. rewrite Hc1. by constructor.
Qed.

(** A pick loses and copies nothing. *)
Lemma picks_conserves cs c r cs' :
  picks cs c r cs' -> option_list r ++ concat cs' ≡ₚ concat cs.
Proof.
  destruct 1 as [t ts Hc|v ts t rest Hc (ts1 & Hv1 & Hne & _) Hv Hst|Hc]; simpl; [| |done].
  - apply (Permutation_app_inv_r ts). rewrite <-app_comm_cons, Permutation_middle.
    by apply concat_insert_perm.
  - pose proof (concat_insert_perm cs v ts (kept_part ts) Hv) as Hp1.
    pose proof (concat_insert_perm (<[v:=kept_part ts]> cs) c [] rest) as Hp2.
    rewrite list_lookup_insert_ne, app_nil_r in Hp2 by done. rewrite (Hp2 Hc), Permutation_middle.
    apply (Permutation_app_inv_r (kept_part ts)). rewrite <-Hp1, <-app_assoc.
    apply Permutation_app_head. rewrite <-(stolen_kept ts) at 2.
    by rewrite Hst, reverse_Permutation, Permutation_app_comm.
Qed.

(** *** Placement *)

Lemma length_queue_le s c ts :
  contents s !! c = Some ts -> (length ts <= length (all_tasks s))%nat.
Proof.
  intros Hc. pose proof (concat_insert_perm (contents s) c ts [] Hc) as Hp%Permutation_length.
  rewrite app_nil_r, length_app in Hp. unfold all_tasks. lia.
Qed.

Lemma sched_new_ok (n : nat) :
  Z.of_nat n < 2 ^ 32 ->
  sched_ok (sched_new (Q:=Q) (Z.of_nat n)) /\ contents (sched_new (Q:=Q) (Z.of_nat n)) = replicate n [].
Proof.
  intros Hn. split.
  - split; simpl; rewrite ?length_map, ?length_replicate, ?length_seqZ; try lia.
    intros i q Hi. apply list_lookup_fmap_Some in Hi as (c & -> & Hc).
    apply lookup_seqZ in Hc as [-> _]. rewrite Z.add_0_l. by destruct (law_new (Z.of_nat i)) as (? & _ & ?).
  - unfold contents, sched_new. simpl. rewrite map_map.
    rewrite (map_ext _ (fun _ => [])) by (intros z; by destruct (law_new z) as (_ & -> & _)).
    rewrite map_const, length_seqZ, Nat2Z.id. clear Hn.
    induction n as [|n IH]; simpl; [done|]. by rewrite IH.
Qed.

Lemma spawn_ok s t c :
  sched_ok s -> Z.of_nat (length (all_tasks s)) + 1 < 2 ^ 64 ->
  (match task_affinity t with Some a => a | None => least_loaded_core s end) = Z.of_nat c ->
  (c < length (contents s))%nat ->
  exists s' ts, contents s !! c = Some ts /\ spawn s t = Ok s' /\ sched_ok s' /\
                contents s' = <[c:=ts ++ [t]]> (contents s).
Proof.
  intros Hs Hlt Hcore Hc. apply lookup_lt_is_Some in Hc as [ts Hts].
  pose proof (length_queue_le s c ts Hts). unfold spawn. rewrite Hcore.
  destruct (push_to_ok s c ts t Hs Hts ltac:(lia)) as (s' & -> & Hs' & Hc').
  by exists s', ts.
Qed.

Lemma balanced_insert cs c ts t :
  balanced cs -> is_least_loaded cs c -> cs !! c = Some ts -> balanced (<[c:=ts ++ [t]]> cs).
Proof.
  intros Hb (ts1 & Hc1 & Hmin) Hc i j a b Hi Hj. simplify_eq. list_update_cases.
  - lia.
  - pose proof (Hmin j b ltac:(done)). rewrite length_app. simpl. lia.
  - rewrite length_app. simpl. pose proof (Hb i j a ts1 ltac:(done) ltac:(done)). lia.
  - eauto.
Qed.

(** One call: it does not panic, keeps the scheduler well-formed and conserves
    the tasks. *)
Definition exec_ok (cores : nat) s (op : sched_op) : Prop :=
  exists out s', sched_exec s op = Ok (out, s') /\ sched_ok s' /\
    length (run_queues s') = cores /\
    out ++ all_tasks s' ≡ₚ op_input op ++ all_tasks s.

Lemma insert_one_conserves s s' c ts t :
  contents s !! c = Some ts -> contents s' = <[c:=ts ++ [t]]> (contents s) ->
  all_tasks s' ≡ₚ t :: all_tasks s.
Proof.
  intros Hts Hc. unfold all_tasks. apply (Permutation_app_inv_r ts).
  rewrite Hc, (concat_insert_perm _ _ _ (ts ++ [t]) Hts). rewrite (Permutation_app_comm ts).
  rewrite app_assoc. apply Permutation_app_tail. by rewrite Permutation_app_comm.
Qed.

Lemma push_to_exec cores s c t :
  sched_ok s -> length (run_queues s) = cores -> (c < cores)%nat ->
  Z.of_nat (length (all_tasks s)) + 1 < 2 ^ 64 ->
  exists s', push_to s (Z.of_nat c) t = Ok s' /\ sched_ok s' /\ length (run_queues s') = cores /\
             all_tasks s' ≡ₚ t :: all_tasks s.
Proof.
  intros Hs Hlen Hc Hlt. rewrite <-Hlen, <-length_contents in Hc.
  apply lookup_lt_is_Some in Hc as [ts Hts]. pose proof (length_queue_le s c ts Hts).
  destruct (push_to_ok s c ts t Hs Hts ltac:(lia)) as (s' & Hp & Hs' & Hc'). exists s'.
  split; [done|]. split; [done|]. split.
  - by rewrite <-length_contents, Hc', length_insert, length_contents.
  - by eapply insert_one_conserves.
Qed.

Lemma picks_length cs c r cs' : picks cs c r cs' -> length cs' = length cs.
Proof. by destruct 1; rewrite ?length_insert. Qed.

Lemma schedule_exec cores s c :
  sched_ok s -> length (run_queues s) = cores -> (c < cores)%nat ->
  exists r s', schedule s (Z.of_nat c) = Ok (r, s') /\ sched_ok s' /\
    length (run_queues s') = cores /\ option_list r ++ all_tasks s' ≡ₚ all_tasks s.
Proof.
  intros Hs Hlen Hc. rewrite <-Hlen, <-length_contents in Hc.
  apply lookup_lt_is_Some in Hc as [ts Hts].
  destruct (schedule_ok s c ts Hs Hts) as (r & s' & Hsch & Hs' & Hpick). exists r, s'.
  split; [done|]. split; [done|]. split.
  - by rewrite <-length_contents, (picks_length _ _ _ _ Hpick), length_contents.
  - by apply (picks_conserves _ _ _ _ Hpick).
Qed.

Lemma sched_exec_ok cores s op :
  sched_ok s -> length (run_queues s) = cores -> (0 < cores)%nat ->
  op_valid cores op -> Z.of_nat (length (all_tasks s)) + 1 < 2 ^ 64 -> exec_ok cores s op.
Proof.
  intros Hs Hlen Hpos Hv Hlt. unfold exec_ok.
  assert (forall c t (Hc : (c < cores)%nat), exists s', push_to s (Z.of_nat c) t = Ok s' /\ sched_ok s' /\
            length (run_queues s') = cores /\ all_tasks s' ≡ₚ t :: all_tasks s) as Hpush.
  { intros. by apply push_to_exec. }
  destruct op as [t|c t|c|c|t c|c t]; simpl in Hv |- *.
  - unfold spawn. destruct (task_affinity t) as [a|].
    + destruct (Hpush (Z.to_nat a) t ltac:(lia)) as (s' & Hp & ?).
      rewrite Z2Nat.id in Hp by lia. rewrite Hp. simpl. by exists [], s'.
    + destruct (least_loaded_ok s Hs) as (c & -> & ts & Hc & _); [by destruct (run_queues s); simpl in *; lia || done|].
      apply lookup_lt_Some in Hc. rewrite length_contents in Hc.
      destruct (Hpush c t ltac:(lia)) as (s' & -> & ?). simpl. by exists [], s'.
  - unfold spawn_on_core. rewrite (ok_cores _ Hs), Hlen.
    destruct (Z.ltb_spec (Z.of_nat c) (Z.of_nat cores)); [|lia].
    destruct (Hpush c t Hv) as (s' & -> & ?). simpl. by exists [], s'.
  - destruct (schedule_exec cores s c Hs Hlen Hv) as (r & s' & -> & ?). simpl.
    by exists (option_list r), s'.
  - unfold block_current. destruct (schedule_exec cores s c Hs Hlen Hv) as (r & s' & -> & ?). simpl.
    by exists (option_list r), s'.
  - unfold wake. destruct (Hpush c (set_state t Ready) Hv) as (s' & -> & ?). simpl. by exists [], s'.
  - unfold preempt_current. destruct (Hpush c (set_state t Ready) Hv) as (s' & -> & ?). simpl.
    by exists [], s'.
Qed.

Lemma op_input_length op : (length (op_input op) <= 1)%nat.
Proof. destruct op; simpl; lia. Qed.

Lemma sched_run_ok cores ops s :
  sched_ok s -> length (run_queues s) = cores -> (0 < cores)%nat ->
  Forall (op_valid cores) ops ->
  Z.of_nat (length (all_tasks s)) + Z.of_nat (length ops) < 2 ^ 64 ->
  exists outs s', sched_run s ops = Ok (outs, s') /\ sched_ok s' /\
    outs ++ all_tasks s' ≡ₚ concat (map op_input ops) ++ all_tasks s.
Proof.
  revert s. induction ops as [|op ops IH]; intros s Hs Hlen Hpos Hall Hlt; simpl.
  { by exists [], s. }
  apply Forall_cons in Hall as [Hv Hall]. simpl length in Hlt.
  destruct (sched_exec_ok cores s op) as (out & s1 & -> & Hs1 & Hlen1 & Hp1); try done; [lia|].
  pose proof (Permutation_length Hp1) as Hl1. rewrite !length_app in Hl1.
  pose proof (op_input_length op). simpl.
  destruct (IH s1) as (outs & s2 & -> & Hs2 & Hp2); try done; [lia|]. simpl.
  exists (out ++ outs), s2. split; [done|]. split; [done|].
  rewrite <-app_assoc, Hp2, (app_assoc out), (Permutation_app_comm out), <-app_assoc, Hp1.
  rewrite !app_assoc. apply Permutation_app_tail, Permutation_app_comm.
Qed.

Lemma sum_u64_ok p acc l :
  0 <= acc -> Forall (fun x => 0 <= x) l -> acc + foldr Z.add 0 l < 2 ^ 64 ->
  sum_u64 p acc l = Ok (acc + foldr Z.add 0 l).
Proof.
  revert acc. induction l as [|x l IH]; intros acc Ha Hall Hlt; simpl in *.
  - by rewrite Z.add_0_r.
  - apply Forall_cons in Hall as [Hx Hall].
    assert (0 <= foldr Z.add 0 l).
    { clear -Hall. induction Hall; simpl; lia. }
    rewrite arith_in_range by (unfold in_range; lia). simpl. rewrite IH by (done || lia).
    f_equal. lia.
Qed.

Lemma queue_lengths_sum s :
  sched_ok s ->
  Forall (fun x => 0 <= x) (queue_lengths s) /\
  foldr Z.add 0 (queue_lengths s) = Z.of_nat (length (all_tasks s)).
Proof.
  intros Hs. unfold queue_lengths, all_tasks, contents.
  assert (forall q, q ∈ run_queues s -> tq_len q = Z.of_nat (length (tq_tasks q))) as Hq.
  { intros q [i Hi]%list_elem_of_lookup. by eapply sched_ok_len. }
  induction (run_queues s) as [|q qs IH]; simpl; [done|].
  destruct IH as [IH1 IH2]; [intros; apply Hq; by apply list_elem_of_further|].
  rewrite (Hq q) by apply list_elem_of_here. split; [by constructor; [lia|]|].
  rewrite length_app, IH2. lia.
Qed.
End proofs.

(** ** Properties *)

Section properties.
Context `{TaskQueueLaws Q}.
Implicit Types s : scheduler Q.

(** C20: [schedule] always returns for an existing core, without panicking, and
    does exactly this to the queues: it takes the front of the core's own queue
    when there is one; otherwise it takes half of the queue of the busiest other
    core (the first with the most tasks, at least two), runs the youngest of
    them and queues the rest, and the victim keeps its oldest; it returns [None]
    and changes nothing only when the core's queue is empty and no other core
    has two tasks. *)
Theorem schedule_spec s c :
  sched_ok s -> (c < length (run_queues s))%nat ->
  exists r s', schedule s (Z.of_nat c) = Ok (r, s') /\ sched_ok s' /\
    picks (contents s) c r (contents s') /\
    (r = None <-> contents s !! c = Some [] /\ none_busy (contents s) c).
Proof.
  intros Hs Hc. rewrite <-length_contents in Hc. apply lookup_lt_is_Some in Hc as [ts Hts].
  destruct (schedule_ok s c ts Hs Hts) as (r & s' & Hsch & Hs' & Hpick).
  exists r, s'. split; [done|]. split; [done|]. split; [done|].
  destruct Hpick as [t ts' Hc|v ts' t rest Hc Hb Hv Hst|Hc Hn]; (split; [done|]); [| |done].
  - intros [Hc' _]. congruence.
  - intros [_ Hn]. destruct Hb as (ts1 & Hv1 & Hne & Hlen & _).
    specialize (Hn v ts1 Hv1 Hne). lia.
Qed.

(** no task is lost or duplicated: any sequence of fewer than 2^64 calls to a
    new scheduler (spawning, waking, preempting, scheduling and blocking, on
    existing cores) runs without panic, keeps it well-formed, and the tasks
    handed out so far together with those still queued are exactly the tasks
    handed in. *)
Theorem scheduler_conserves_tasks cores ops :
  (0 < cores)%nat -> Z.of_nat cores < 2 ^ 32 -> Z.of_nat (length ops) < 2 ^ 64 ->
  Forall (op_valid cores) ops ->
  exists outs s, sched_run (sched_new (Q:=Q) (Z.of_nat cores)) ops = Ok (outs, s) /\
    sched_ok s /\ outs ++ all_tasks s ≡ₚ concat (map op_input ops).
Proof.
  intros Hpos Hcores Hlen Hall. destruct (sched_new_ok cores Hcores) as [Hs Hc].
  assert (all_tasks (sched_new (Q:=Q) (Z.of_nat cores)) = []) as Hnil.
  { unfold all_tasks. rewrite Hc. clear. by induction cores. }
  destruct (sched_run_ok cores ops _ Hs) as (outs & s & Hrun & Hs' & Hp).
  - simpl. by rewrite length_map, length_seqZ, Nat2Z.id.
  - done.
  - done.
  - rewrite Hnil. simpl. lia.
  - exists outs, s. rewrite Hnil, app_nil_r in Hp. done.
Qed.

(** C30: placement: a task without affinity goes to the back of the queue of the
    first least-loaded core, so that spawning keeps the load of any two cores
    within one task of each other; a task with affinity goes to that core. *)
Theorem spawn_placement s t :
  sched_ok s -> run_queues s <> [] -> Z.of_nat (length (all_tasks s)) + 1 < 2 ^ 64 ->
  match task_affinity t with
  | None =>
      exists c ts s', spawn s t = Ok s' /\ sched_ok s' /\
        is_least_loaded (contents s) c /\ contents s !! c = Some ts /\
        contents s' = <[c:=ts ++ [t]]> (contents s) /\
        (balanced (contents s) -> balanced (contents s'))
  | Some a =>
      0 <= a < num_cores s ->
      exists ts s', spawn s t = Ok s' /\ sched_ok s' /\ contents s !! Z.to_nat a = Some ts /\
        contents s' = <[Z.to_nat a:=ts ++ [t]]> (contents s)
  end.
Proof.
  intros Hs Hne Hlt. destruct (task_affinity t) as [a|] eqn:Ha.
  - intros Hr. rewrite (ok_cores _ Hs) in Hr.
    destruct (spawn_ok s t (Z.to_nat a) Hs Hlt) as (s' & ts & Hts & Hsp & Hs' & Hc').
    + rewrite Ha. lia.
    + rewrite length_contents. lia.
    + by exists ts, s'.
  - destruct (least_loaded_ok s Hs Hne) as (c & Hc & Hleast). pose proof Hleast as (ts0 & Hts0 & _).
    destruct (spawn_ok s t c Hs Hlt) as (s' & ts & Hts & Hsp & Hs' & Hc').
    + by rewrite Ha.
    + by eapply lookup_lt_Some.
    + exists c, ts, s'. split_and!; try done.
      rewrite Hc'. intros Hb. by apply balanced_insert.
Qed.

(** the diagnostics are exact: [total_queued] is the number of queued tasks
    (its sum of [u64] lengths cannot overflow before 2^64 tasks) and
    [queue_lengths] lists the length of every queue. *)
Theorem total_queued_exact p s :
  sched_ok s -> Z.of_nat (length (all_tasks s)) < 2 ^ 64 ->
  total_queued p s = Ok (Z.of_nat (length (all_tasks s))) /\
  queue_lengths s = map (fun ts => Z.of_nat (length ts)) (contents s).
Proof.
  intros Hs Hlt. destruct (queue_lengths_sum s Hs) as [Hpos Hsum]. split.
  - unfold total_queued. rewrite sum_u64_ok by (done || lia). by rewrite Hsum.
  - unfold queue_lengths, contents. rewrite map_map. apply map_ext_in. intros q Hq.
    apply list_elem_of_In in Hq. apply list_elem_of_lookup in Hq as [i Hi]. by eapply sched_ok_len.
Qed.

(** a core number that does not exist panics in every method, whatever the
    state, instead of touching another core's queue. *)
Theorem bad_core_panics s core t :
  sched_ok s -> num_cores s <= core ->
  schedule s core = Panic /\ block_current s core = Panic /\ wake s t core = Panic /\
  preempt_current s core t = Panic /\ spawn_on_core s core t = Panic /\
  spawn s (with_affinity t core) = Panic.
Proof.
  intros Hs Hr. rewrite (ok_cores _ Hs) in Hr.
  assert (index_queue s core = Panic) as Hi.
  { unfold index_queue. rewrite lookup_ge_None_2; [done|lia]. }
  assert (forall u, push_to s core u = Panic) as Hp by (intros u; unfold push_to; by rewrite Hi).
  unfold block_current, schedule, wake, preempt_current, spawn_on_core, spawn. simpl.
  rewrite Hi, !Hp. rewrite (ok_cores _ Hs). by destruct (Z.ltb_spec core (Z.of_nat (length (run_queues s)))).
Qed.
End properties.

(** C33: work stealing does not look at [affinity]: two tasks pinned to core 1 and
    queued there by [spawn] are enough for core 0, when idle, to be handed the
    second one. *)
Theorem stealing_ignores_affinity t1 t2 :
  task_affinity t1 = Some 1 -> task_affinity t2 = Some 1 ->
  exists s1 s2 s3, spawn (sched_new (Q:=run_queue) 2) t1 = Ok s1 /\ spawn s1 t2 = Ok s2 /\
    schedule s2 0 = Ok (Some t2, s3).
Proof.
  intros H1 H2. unfold spawn. rewrite H1, H2. eexists _, _, _.
  split; [reflexivity|]. split; reflexivity.
Qed.

(** ** Witnesses *)

Definition demo_pinned (n : Z) : task := with_affinity (demo_queue_task n) 1.

Definition demo_sched_ops : list sched_op :=
  [OpSpawn (demo_queue_task 1); OpSpawn (demo_queue_task 2); OpSpawn (demo_queue_task 3);
   OpSpawnOn 1 (demo_queue_task 4); OpSpawnOn 1 (demo_queue_task 5); OpSchedule 0; OpSchedule 0;
   OpSchedule 0; OpWake (demo_queue_task 6) 1].

(** Core 0 empty, core 1 with tasks 1, 2 and 3. *)
Definition demo_scheduler : scheduler run_queue :=
  Scheduler [RunQueue 0 [] 0;
             RunQueue 1 [demo_queue_task 1; demo_queue_task 2; demo_queue_task 3] 3]
            [None; None] 2.

Lemma demo_scheduler_ok : sched_ok demo_scheduler.
Proof.
  split; [done|done|done|]. intros [|[|i]] q Hq; simplify_eq/=; by repeat split.
Qed.

Lemma schedule_spec_witness :
  exists r s', schedule demo_scheduler (Z.of_nat 0) = Ok (r, s') /\ sched_ok s' /\
    picks (contents demo_scheduler) 0 r (contents s') /\
    (r = None <-> contents demo_scheduler !! 0%nat = Some [] /\ none_busy (contents demo_scheduler) 0).
Proof. apply (schedule_spec demo_scheduler 0 demo_scheduler_ok). simpl. lia. Defined.

Lemma scheduler_conserves_tasks_witness :
  exists outs s, sched_run (sched_new (Q:=run_queue) (Z.of_nat 2)) demo_sched_ops = Ok (outs, s) /\
    sched_ok s /\ outs ++ all_tasks s ≡ₚ concat (map op_input demo_sched_ops).
Proof.
  apply (scheduler_conserves_tasks 2 demo_sched_ops); [lia|done|done|].
  repeat (constructor; [simpl; lia || done|]). constructor.
Defined.

Lemma spawn_placement_witness :
  exists c ts s', spawn demo_scheduler (demo_queue_task 9) = Ok s' /\ sched_ok s' /\
    is_least_loaded (contents demo_scheduler) c /\ contents demo_scheduler !! c = Some ts /\
    contents s' = <[c:=ts ++ [demo_queue_task 9]]> (contents demo_scheduler) /\
    (balanced (contents demo_scheduler) -> balanced (contents s')).
Proof. apply (spawn_placement demo_scheduler (demo_queue_task 9) demo_scheduler_ok); done. Defined.

Lemma total_queued_exact_witness :
  total_queued Debug demo_scheduler = Ok 3 /\ queue_lengths demo_scheduler = [0; 3].
Proof. exact (total_queued_exact Debug demo_scheduler demo_scheduler_ok ltac:(done)). Defined.

Lemma bad_core_panics_witness :
  schedule demo_scheduler 2 = Panic /\ spawn demo_scheduler (with_affinity (demo_queue_task 9) 2) = Panic.
Proof.
  destruct (bad_core_panics demo_scheduler 2 (demo_queue_task 9) demo_scheduler_ok)
    as (H1 & _ & _ & _ & _ & H2); [done|]. split; [exact H1|exact H2].
Defined.

Lemma stealing_ignores_affinity_witness :
  exists s1 s2 s3, spawn (sched_new (Q:=run_queue) 2) (demo_pinned 1) = Ok s1 /\
    spawn s1 (demo_pinned 2) = Ok s2 /\ schedule s2 0 = Ok (Some (demo_pinned 2), s3).
Proof. exact (stealing_ignores_affinity (demo_pinned 1) (demo_pinned 2) eq_refl eq_refl). Defined.
