(* ===== verification/Hw.v ===== *)
(** * Hw: the hardware the drivers talk to

    Device registers are not code of this repository: what a volatile access or
    an [rdmsr]/[wrmsr] does is given by an instance of the class [Machine] on a
    type of machine states. The drivers run in a state and error monad over a
    machine state together with the log of the accesses made so far, in program
    order. *)

From S2P Require Import Prelude.

(** A 32-bit volatile read or write at an address, the two MSR instructions
    ([rdmsr] returns edx and eax) and the ecx that [cpuid] returns for leaf 1.
    The drivers see the low 32 bits of every value. *)
Class Machine (D : Type) := {
  dev_read32 : Z -> D -> Z * D;
  dev_write32 : Z -> Z -> D -> D;
  dev_rdmsr : Z -> D -> (Z * Z) * D;
  dev_wrmsr : Z -> Z -> Z -> D -> D;
  dev_cpuid1_ecx : D -> Z;
}.

Inductive access :=
| MmioRead (addr value : Z)
| MmioWrite (addr value : Z)
| MsrRead (msr value : Z)
| MsrWrite (msr value : Z).

#[global] Instance access_eq_dec : EqDecision access.
Proof. solve_decision. Defined.

Record hw (D : Type) := Hw { dev : D; accesses : list access }.
Arguments Hw {D} _ _.
Arguments dev {D} _.
Arguments accesses {D} _.

(** ** The monad *)

Definition HW (D A : Type) : Type := hw D -> res (A * hw D).

#[global] Instance hw_ret {D} : MRet (HW D) := fun A a s => Ok (a, s).
#[global] Instance hw_bind {D} : MBind (HW D) := fun A B f m s =>
  match m s with
  | Ok (a, s') => f a s'
  | Panic => Panic
  | OutOfFuel => OutOfFuel
  end.

(** Pure computations that may panic. *)
Definition lift {D A} (r : res A) : HW D A := fun s =>
  match r with
  | Ok a => Ok (a, s)
  | Panic => Panic
  | OutOfFuel => OutOfFuel
  end.

Definition panic {D A} : HW D A := fun _ => Panic.

(** [assert!(b)] *)
Definition hw_assert {D} (b : bool) : HW D unit := if b then mret tt else panic.

Section accesses.
Context `{Machine D}.

Definition read_volatile (addr : Z) : HW D Z := fun s =>
  let '(v, d) := dev_read32 addr (dev s) in
  Ok (wrap 32 v, Hw d (accesses s ++ [MmioRead addr (wrap 32 v)])).

Definition write_volatile (addr value : Z) : HW D unit := fun s =>
  Ok (tt, Hw (dev_write32 addr value (dev s)) (accesses s ++ [MmioWrite addr value])).

(** [unsafe fn rdmsr]: [((high as u64) << 32) | (low as u64)]. *)
Definition rdmsr (msr : Z) : HW D Z := fun s =>
  let '((high, low), d) := dev_rdmsr msr (dev s) in
  let value := Z.lor (shl 64 (wrap 32 high) 32) (wrap 32 low) in
  Ok (value, Hw d (accesses s ++ [MsrRead msr value])).

(** [unsafe fn wrmsr]: [value as u32] in eax, [(value >> 32) as u32] in edx. *)
Definition wrmsr (msr value : Z) : HW D unit := fun s =>
  let low := wrap 32 value in
  let high := wrap 32 (Z.shiftr value 32) in
  Ok (tt, Hw (dev_wrmsr msr high low (dev s)) (accesses s ++ [MsrWrite msr value])).
End accesses.

(** ** Lemmas *)

Lemma hw_bind_ok {D A B} (m : HW D A) (f : A -> HW D B) s a s' :
  m s = Ok (a, s') -> (m ≫= f) s = f a s'.
Proof. intros Hm. unfold mbind, hw_bind. by rewrite Hm. Qed.

Lemma hw_ret_ok {D A} (a : A) (s : hw D) : (mret a : HW D A) s = Ok (a, s).
Proof. done. Qed.

Lemma lift_ok {D A} (a : A) (s : hw D) : lift (Ok a) s = Ok (a, s).
Proof. done. Qed.

Lemma hw_assert_true {D} (s : hw D) : hw_assert true s = Ok (tt, s).
Proof. done. Qed.

Lemma hw_assert_false {D A} (f : unit -> HW D A) (s : hw D) : (hw_assert false ≫= f) s = Panic.
Proof. done. Qed.

Lemma hw_bind_assoc {D A B C} (m : HW D A) (f : A -> HW D B) (g : B -> HW D C) s :
  ((m ≫= f) ≫= g) s = (m ≫= (fun a => f a ≫= g)) s.
Proof. unfold mbind, hw_bind. by destruct (m s) as [[? ?]| |]. Qed.

(** Arithmetic on addresses that stays in range. *)
Lemma lift_arith {D} p w x (s : hw D) : in_range w x -> lift (arith p w x) s = Ok (x, s).
Proof. intros Hx. by rewrite arith_in_range. Qed.

(** Splitting a word into halves and joining them gives it back. *)
Lemma join_halves v :
  in_range 64 v -> Z.lor (shl 64 (wrap 32 (Z.shiftr v 32)) 32) (wrap 32 v) = v.
Proof.
  intros Hv. unfold in_range in Hv. apply Z.bits_inj'. intros n Hn. unfold shl, wrap.
  rewrite Z.lor_spec.
  destruct (decide (64 <= n)) as [Hhi|Hhi].
  - rewrite !Z.mod_pow2_bits_high by lia. symmetry.
    rewrite <-(Z.mod_small v (2 ^ 64)) by lia. apply Z.mod_pow2_bits_high. lia.
  - rewrite Z.mod_pow2_bits_low by lia. rewrite Z.shiftl_spec by lia.
    destruct (decide (32 <= n)) as [Hm|Hm].
    + rewrite Z.mod_pow2_bits_low, Z.shiftr_spec by lia.
      rewrite Z.mod_pow2_bits_high by lia. rewrite orb_false_r. f_equal. lia.
    + rewrite Z.testbit_neg_r by lia. simpl. by rewrite Z.mod_pow2_bits_low by lia.
Qed.

Lemma write_volatile_eq `{Machine D} a v (s : hw D) :
  write_volatile a v s = Ok (tt, Hw (dev_write32 a v (dev s)) (accesses s ++ [MmioWrite a v])).
Proof. done. Qed.

Lemma read_volatile_eq `{Machine D} a (s : hw D) :
  read_volatile a s =
  Ok (wrap 32 (fst (dev_read32 a (dev s))),
      Hw (snd (dev_read32 a (dev s)))
         (accesses s ++ [MmioRead a (wrap 32 (fst (dev_read32 a (dev s))))])).
Proof. unfold read_volatile. by destruct (dev_read32 a (dev s)). Qed.

(** ** The accesses of a computation

    When [m] returns, each of the accesses it has made satisfies [P]. *)
Definition makes {D A} (P : access -> Prop) (m : HW D A) : Prop :=
  forall s a s', m s = Ok (a, s') -> exists l, accesses s' = accesses s ++ l /\ Forall P l.

Section makes.
Context {D : Type} (P : access -> Prop).

Lemma makes_ret {A} (a : A) : makes (D:=D) P (mret a).
Proof. intros s b s' [= _ <-]. exists []. by rewrite app_nil_r. Qed.

Lemma makes_lift {A} (r : res A) : makes (D:=D) P (lift r).
Proof. intros s b s'. destruct r; [|done..]. intros [= _ <-]. exists []. by rewrite app_nil_r. Qed.

Lemma makes_assert b : makes (D:=D) P (hw_assert b).
Proof. destruct b; [apply makes_ret|done]. Qed.

Lemma makes_bind {A B} (m : HW D A) (f : A -> HW D B) :
  makes P m -> (forall a, makes P (f a)) -> makes P (m ≫= f).
Proof.
  intros Hm Hf s b s2. unfold mbind, hw_bind. destruct (m s) as [[a s1]| |] eqn:Hs; [|done..]. intros Hs2.
  destruct (Hm _ _ _ Hs) as (l1 & Hl1 & H1). destruct (Hf a _ _ _ Hs2) as (l2 & Hl2 & H2).
  exists (l1 ++ l2). rewrite Hl2, Hl1, <-app_assoc. split; [done|]. by apply Forall_app.
Qed.

Lemma makes_log {A} (m : HW D A) s a d l : makes P m -> m s = Ok (a, Hw d (accesses s ++ l)) -> Forall P l.
Proof. intros Hm Hs. destruct (Hm _ _ _ Hs) as (l' & Hl & HP). simpl in Hl. by apply app_inv_head in Hl as ->. Qed.

Context `{Machine D}.

Lemma makes_read addr : (forall v, P (MmioRead addr v)) -> makes P (read_volatile addr).
Proof.
  intros HP s v s'. unfold read_volatile. destruct (dev_read32 addr (dev s)). intros [= _ <-].
  eexists. split; [done|]. by constructor.
Qed.

Lemma makes_write addr v : P (MmioWrite addr v) -> makes P (write_volatile addr v).
Proof. intros HP s a s' [= _ <-]. eexists. split; [done|]. by constructor. Qed.
End makes.
#[export] Hint Resolve makes_ret makes_lift makes_assert : smp.
