(* ===== verification/Prog.v ===== *)
(** * Prog: driver code as programs of device accesses

    In the monad of [Hw.v] a call of a driver runs to its end. When interrupts
    arrive, or other processors use the same device, the accesses of several calls
    are interleaved. Here a call is a program, one device access after the other
    ([prog]); [prun] executes a program alone, in the monad of [Hw.v]; [prog_act] is
    a machine of [Threads.v] on which processors with a program each take turns; and
    [with_irq] is a program that an interrupt handler interrupts. Device registers
    are uncached: there are no store buffers between the accesses and the device. *)

From S2P Require Import Prelude Threads Hw.

(** ** Programs *)

Inductive prog (A : Type) :=
| PDone (a : A)
| PCrash
| PStuck
| PRead (addr : Z) (k : Z -> prog A)
| PWrite (addr value : Z) (k : prog A)
| PRdmsr (msr : Z) (k : Z -> prog A)
| PWrmsr (msr value : Z) (k : prog A).
Arguments PDone {A} a.
Arguments PCrash {A}.
Arguments PStuck {A}.
Arguments PRead {A} addr k.
Arguments PWrite {A} addr value k.
Arguments PRdmsr {A} msr k.
Arguments PWrmsr {A} msr value k.

#[global] Instance prog_ret : MRet prog := fun A a => PDone a.
#[global] Instance prog_bind : MBind prog := fun A B f =>
  fix bind (c : prog A) : prog B :=
    match c with
    | PDone a => f a
    | PCrash => PCrash
    | PStuck => PStuck
    | PRead addr k => PRead addr (fun v => bind (k v))
    | PWrite addr v k => PWrite addr v (bind k)
    | PRdmsr msr k => PRdmsr msr (fun v => bind (k v))
    | PWrmsr msr v k => PWrmsr msr v (bind k)
    end.

Definition plift {A} (r : res A) : prog A :=
  match r with Ok a => PDone a | Panic => PCrash | OutOfFuel => PStuck end.

Definition passert (b : bool) : prog unit := if b then PDone tt else PCrash.

Definition pread (addr : Z) : prog Z := PRead addr PDone.
Definition pwrite (addr value : Z) : prog unit := PWrite addr value (PDone tt).
Definition prdmsr (msr : Z) : prog Z := PRdmsr msr PDone.
Definition pwrmsr (msr value : Z) : prog unit := PWrmsr msr value (PDone tt).

(** ** Execution *)

Section execution.
Context `{Machine D}.

(** A program alone. *)
Fixpoint prun {A} (c : prog A) : HW D A :=
  match c with
  | PDone a => mret a
  | PCrash => panic
  | PStuck => fun _ => OutOfFuel
  | PRead addr k => v ← read_volatile addr; prun (k v)
  | PWrite addr v k => write_volatile addr v;; prun k
  | PRdmsr msr k => v ← rdmsr msr; prun (k v)
  | PWrmsr msr v k => wrmsr msr v;; prun k
  end.

(** Its next access on a device. *)
Definition prog_step {A} (c : prog A) (d : D) : option (prog A * D * access) :=
  match c with
  | PRead addr k =>
      let '(v, d') := dev_read32 addr d in Some (k (wrap 32 v), d', MmioRead addr (wrap 32 v))
  | PWrite addr v k => Some (k, dev_write32 addr v d, MmioWrite addr v)
  | PRdmsr msr k =>
      let '((high, low), d') := dev_rdmsr msr d in
      let v := Z.lor (shl 64 (wrap 32 high) 32) (wrap 32 low) in Some (k v, d', MsrRead msr v)
  | PWrmsr msr v k =>
      Some (k, dev_wrmsr msr (wrap 32 (Z.shiftr v 32)) (wrap 32 v) d, MsrWrite msr v)
  | PDone _ | PCrash | PStuck => None
  end.

(** Processors that share the device. *)
Definition prog_act {A} (_ : nat) (_ : unit) (d : D) (c : prog A) : option (D * prog A * access) :=
  '(c', d', a) ← prog_step c d; Some (d', c', a).
End execution.

Abbreviation prog_machine A := (step (prog_act (A:=A))).

(** An interrupt arrives when [k] accesses of [c] are made, if it is not finished
    then: the processor runs the handler [h] and goes on. *)
Fixpoint with_irq {A} (k : nat) (h : prog unit) (c : prog A) : prog A :=
  match c with
  | PDone _ | PCrash | PStuck => c
  | _ =>
      match k with
      | O => h;; c
      | S k =>
          match c with
          | PRead addr f => PRead addr (fun v => with_irq k h (f v))
          | PWrite addr v c' => PWrite addr v (with_irq k h c')
          | PRdmsr msr f => PRdmsr msr (fun v => with_irq k h (f v))
          | PWrmsr msr v c' => PWrmsr msr v (with_irq k h c')
          | _ => c
          end
      end
  end.

(** ** Lemmas *)

Section lemmas.
Context `{Machine D}.
Implicit Types (s : hw D).

Lemma prun_bind {A B} (c : prog A) (f : A -> prog B) s :
  prun (c ≫= f) s = (prun c ≫= fun a => prun (f a)) s.
Proof.
  revert s. induction c as [a| | |addr k IH|addr v c IH|msr k IH|msr v c IH]; intros s; try done.
  - change (prun (PRead addr k ≫= f)) with (v ← read_volatile addr; prun (k v ≫= f)).
    cbn [prun]. rewrite hw_bind_assoc.
    rewrite (hw_bind_ok _ _ _ _ _ (read_volatile_eq _ _)), (hw_bind_ok _ _ _ _ _ (read_volatile_eq _ _)). apply IH.
  - change (prun (PWrite addr v c ≫= f)) with (write_volatile addr v;; prun (c ≫= f)).
    cbn [prun]. rewrite hw_bind_assoc. apply IH.
  - change (prun (PRdmsr msr k ≫= f)) with (v ← rdmsr msr; prun (k v ≫= f)). cbn [prun]. rewrite hw_bind_assoc.
    unfold mbind, hw_bind. destruct (rdmsr msr s) as [[v s1]| |]; [apply IH|done|done].
  - change (prun (PWrmsr msr v c ≫= f)) with (wrmsr msr v;; prun (c ≫= f)). cbn [prun]. rewrite hw_bind_assoc. apply IH.
Qed.

Lemma prun_lift {A} (r : res A) s : prun (plift r) s = lift r s.
Proof. by destruct r. Qed.

Lemma prun_assert b s : prun (passert b) s = hw_assert b s.
Proof. by destruct b. Qed.

Lemma prun_pread addr s : prun (pread addr) s = read_volatile addr s.
Proof. unfold pread. cbn [prun]. by rewrite (hw_bind_ok _ _ _ _ _ (read_volatile_eq _ _)), read_volatile_eq. Qed.

Lemma prun_pwrite addr v s : prun (pwrite addr v) s = write_volatile addr v s.
Proof. done. Qed.

Lemma prun_prdmsr msr s : prun (prdmsr msr) s = rdmsr msr s.
Proof. unfold prdmsr. cbn [prun]. unfold mbind, hw_bind. by destruct (rdmsr msr s) as [[? ?]| |]. Qed.

Lemma prun_pwrmsr msr v s : prun (pwrmsr msr v) s = wrmsr msr v s.
Proof. done. Qed.

(** Binds of equal computations are equal. *)
Lemma hw_bind_ext {A B} (m1 m2 : HW D A) (f1 f2 : A -> HW D B) s :
  m1 s = m2 s -> (forall a s', f1 a s' = f2 a s') -> (m1 ≫= f1) s = (m2 ≫= f2) s.
Proof. intros Hm Hf. unfold mbind, hw_bind. rewrite Hm. by destruct (m2 s) as [[a s']| |]. Qed.

Lemma prun_bind_ext {A B} (c : prog A) (f : A -> prog B) (m : HW D A) (g : A -> HW D B) s :
  prun c s = m s -> (forall a s', prun (f a) s' = g a s') -> prun (c ≫= f) s = (m ≫= g) s.
Proof. intros Hc Hf. rewrite prun_bind. by apply hw_bind_ext. Qed.
End lemmas.

(** Proves that a program executes to the driver function it was written after. *)
#[export] Hint Resolve prun_lift prun_assert prun_pread prun_pwrite prun_prdmsr prun_pwrmsr : smp.
Ltac prun_solve :=
  repeat first
    [ reflexivity
    | solve [auto with smp]
    | apply prun_bind_ext; [|intros ? ?] ].

(** Programs are finite: the processors make finitely many accesses. *)
Section termination.
Context `{Machine D}.

Definition prog_next {A} (c' c : prog A) : Prop := exists d d' a, prog_step c d = Some (c', d', a).

Lemma prog_next_acc {A} (c : prog A) : Acc prog_next c.
Proof.
  induction c as [a| | |addr k IH|addr v c IH|msr k IH|msr v c IH];
    constructor; intros c' (d & d' & e & Hs); simpl in Hs; try discriminate Hs.
  - destruct (dev_read32 addr d). injection Hs as <- _ _. apply IH.
  - injection Hs as <- _ _. apply IH.
  - destruct (dev_rdmsr msr d) as [[? ?] ?]. injection Hs as <- _ _. apply IH.
  - injection Hs as <- _ _. apply IH.
Qed.

Lemma prog_machine_acc {A} (s : sys D (prog A)) : Acc (fun s' s => exists e, prog_machine A s e s') s.
Proof.
  assert (Hacc : Acc (one_changes prog_next) (locals s)).
  { apply acc_one_changes, Forall_forall. intros c _. apply prog_next_acc. }
  remember (locals s) as cs eqn:Hcs. revert s Hcs. induction Hacc as [cs _ IH]. intros s ->.
  constructor. intros s' ([t e] & Hstep). eapply IH; [|done].
  apply step_inv in Hstep as (c & x & d' & c' & Hc & Hact & ->).
  exists t, c, c'. split; [done|]. split; [|done]. exists (shared s), d', e. unfold prog_act in Hact.
  destruct (prog_step c (shared s)) as [[[c1 d1] a]|]; simpl in Hact; by simplify_eq.
Qed.
End termination.
