(* ===== verification/Apic.v ===== *)
(** * Apic: the local APIC driver (src/src/apic.rs)

    Register access in xAPIC (memory-mapped) and x2APIC (MSR) mode, software
    enable, LVT registers, inter-processor interrupts through the ICR, and the
    timer. The polling loop of [wait_icr_idle] takes a fuel. *)

From S2P Require Import Prelude Hw.

(** ** Constants *)

Definition IA32_APIC_BASE_MSR : Z := 0x1B.
Definition APIC_BASE_BSP : Z := Z.shiftl 1 8.
Definition APIC_BASE_X2APIC_ENABLE : Z := Z.shiftl 1 10.
Definition APIC_BASE_ENABLE : Z := Z.shiftl 1 11.
Definition APIC_BASE_ADDR_MASK : Z := 0x000FFFFFFFFFF000.

Definition REG_ID : Z := 0x020.
Definition REG_VERSION : Z := 0x030.
Definition REG_TPR : Z := 0x080.
Definition REG_APR : Z := 0x090.
Definition REG_PPR : Z := 0x0A0.
Definition REG_EOI : Z := 0x0B0.
Definition REG_RRD : Z := 0x0C0.
Definition REG_LDR : Z := 0x0D0.
Definition REG_DFR : Z := 0x0E0.
Definition REG_SVR : Z := 0x0F0.
Definition REG_ISR_BASE : Z := 0x100.
Definition REG_TMR_BASE : Z := 0x180.
Definition REG_IRR_BASE : Z := 0x200.
Definition REG_ERROR_STATUS : Z := 0x280.
Definition REG_LVT_CMCI : Z := 0x2F0.
Definition REG_ICR_LOW : Z := 0x300.
Definition REG_ICR_HIGH : Z := 0x310.
Definition REG_LVT_TIMER : Z := 0x320.
Definition REG_LVT_THERMAL : Z := 0x330.
Definition REG_LVT_PERF : Z := 0x340.
Definition REG_LVT_LINT0 : Z := 0x350.
Definition REG_LVT_LINT1 : Z := 0x360.
Definition REG_LVT_ERROR : Z := 0x370.
Definition REG_TIMER_INITIAL : Z := 0x380.
Definition REG_TIMER_CURRENT : Z := 0x390.
Definition REG_TIMER_DIVIDE : Z := 0x3E0.

Definition ICR_FIXED : Z := Z.shiftl 0 8.
Definition ICR_LOWEST_PRIORITY : Z := Z.shiftl 1 8.
Definition ICR_SMI : Z := Z.shiftl 2 8.
Definition ICR_NMI : Z := Z.shiftl 4 8.
Definition ICR_INIT : Z := Z.shiftl 5 8.
Definition ICR_STARTUP : Z := Z.shiftl 6 8.
Definition ICR_DEST_PHYSICAL : Z := Z.shiftl 0 11.
Definition ICR_DEST_LOGICAL : Z := Z.shiftl 1 11.
Definition ICR_LEVEL_DEASSERT : Z := Z.shiftl 0 14.
Definition ICR_LEVEL_ASSERT : Z := Z.shiftl 1 14.
Definition ICR_TRIGGER_EDGE : Z := Z.shiftl 0 15.
Definition ICR_TRIGGER_LEVEL : Z := Z.shiftl 1 15.
Definition ICR_NO_SHORTHAND : Z := Z.shiftl 0 18.
Definition ICR_SELF : Z := Z.shiftl 1 18.
Definition ICR_ALL_INCLUDING_SELF : Z := Z.shiftl 2 18.
Definition ICR_ALL_EXCLUDING_SELF : Z := Z.shiftl 3 18.

Definition TIMER_ONESHOT : Z := Z.shiftl 0 17.
Definition TIMER_PERIODIC : Z := Z.shiftl 1 17.
Definition TIMER_TSC_DEADLINE : Z := Z.shiftl 2 17.
Definition LVT_MASKED : Z := Z.shiftl 1 16.

Definition TIMER_DIV_1 : Z := 11.
Definition TIMER_DIV_2 : Z := 0.
Definition TIMER_DIV_4 : Z := 1.
Definition TIMER_DIV_8 : Z := 2.
Definition TIMER_DIV_16 : Z := 3.
Definition TIMER_DIV_32 : Z := 8.
Definition TIMER_DIV_64 : Z := 9.
Definition TIMER_DIV_128 : Z := 10.

Definition X2APIC_MSR_BASE : Z := 0x800.

(** ** The driver *)

Record local_apic := LocalApic { base_addr : Z; x2apic : bool }.

Definition apic_new (base_vaddr : Z) : local_apic := LocalApic base_vaddr false.

Section driver.
Context `{Machine D} (p : profile).
Implicit Types la : local_apic.

Definition read_apic_base_msr : HW D Z := rdmsr IA32_APIC_BASE_MSR.

Definition write_apic_base_msr (value : Z) : HW D unit := wrmsr IA32_APIC_BASE_MSR value.

Definition physical_base : HW D Z :=
  v ← read_apic_base_msr; mret (Z.land v APIC_BASE_ADDR_MASK).

Definition is_bsp : HW D bool :=
  v ← read_apic_base_msr; mret (negb (Z.land v APIC_BASE_BSP =? 0)).

Definition read_reg la (offset : Z) : HW D Z :=
  if x2apic la then
    msr ← lift (arith p 32 (X2APIC_MSR_BASE + Z.shiftr offset 4));
    v ← rdmsr msr;
    mret (wrap 32 v)
  else
    addr ← lift (arith p 64 (base_addr la + offset));
    read_volatile addr.

Definition write_reg la (offset value : Z) : HW D unit :=
  if x2apic la then
    msr ← lift (arith p 32 (X2APIC_MSR_BASE + Z.shiftr offset 4));
    wrmsr msr value
  else
    addr ← lift (arith p 64 (base_addr la + offset));
    write_volatile addr value.

(** CPUID.01H:ECX[21]; [cpuid] is not recorded as an access. *)
Definition supports_x2apic : HW D bool := fun s =>
  let ecx := wrap 32 (dev_cpuid1_ecx (dev s)) in
  Ok (negb (Z.land ecx (Z.shiftl 1 21) =? 0), s).

(** Sets bits 10 and 11 of the APIC base MSR and switches the driver. The second
    component is the value of the static [X2APIC_ACTIVE] afterwards. *)
Definition enable_x2apic la : HW D (local_apic * bool) :=
  base ← rdmsr IA32_APIC_BASE_MSR;
  let base := Z.lor base (Z.lor APIC_BASE_ENABLE APIC_BASE_X2APIC_ENABLE) in
  wrmsr IA32_APIC_BASE_MSR base;;
  mret (LocalApic (base_addr la) true, true).

Definition enable la : HW D unit :=
  svr ← read_reg la REG_SVR;
  let new_svr := Z.lor (Z.lor (Z.land svr (bnot 32 0xFF)) 0xFF) (Z.shiftl 1 8) in
  write_reg la REG_SVR new_svr.

Definition disable la : HW D unit :=
  svr ← read_reg la REG_SVR;
  write_reg la REG_SVR (Z.land svr (bnot 32 (Z.shiftl 1 8))).

Definition id la : HW D Z :=
  raw ← read_reg la REG_ID;
  mret (if x2apic la then raw else Z.shiftr raw 24).

Definition version la : HW D Z := read_reg la REG_VERSION.
Definition eoi la : HW D unit := write_reg la REG_EOI 0.
Definition read_tpr la : HW D Z := read_reg la REG_TPR.
Definition write_tpr la (value : Z) : HW D unit := write_reg la REG_TPR value.
Definition read_apr la : HW D Z := read_reg la REG_APR.
Definition read_ppr la : HW D Z := read_reg la REG_PPR.
Definition read_rrd la : HW D Z := read_reg la REG_RRD.
Definition read_ldr la : HW D Z := read_reg la REG_LDR.
Definition write_ldr la (value : Z) : HW D unit := write_reg la REG_LDR value.
Definition read_dfr la : HW D Z := read_reg la REG_DFR.
Definition write_dfr la (value : Z) : HW D unit := write_reg la REG_DFR value.
Definition read_svr la : HW D Z := read_reg la REG_SVR.

Definition read_isr la (index : Z) : HW D Z :=
  hw_assert (index <? 8);;
  offset ← lift (arith p 32 (REG_ISR_BASE + index * 0x10));
  read_reg la offset.

Definition read_tmr la (index : Z) : HW D Z :=
  hw_assert (index <? 8);;
  offset ← lift (arith p 32 (REG_TMR_BASE + index * 0x10));
  read_reg la offset.

Definition read_irr la (index : Z) : HW D Z :=
  hw_assert (index <? 8);;
  offset ← lift (arith p 32 (REG_IRR_BASE + index * 0x10));
  read_reg la offset.

Definition read_error_status la : HW D Z :=
  write_reg la REG_ERROR_STATUS 0;;
  read_reg la REG_ERROR_STATUS.

Definition read_lvt_cmci la : HW D Z := read_reg la REG_LVT_CMCI.
Definition write_lvt_cmci la (value : Z) : HW D unit := write_reg la REG_LVT_CMCI value.
Definition read_lvt_timer la : HW D Z := read_reg la REG_LVT_TIMER.
Definition write_lvt_timer la (value : Z) : HW D unit := write_reg la REG_LVT_TIMER value.
Definition read_lvt_thermal la : HW D Z := read_reg la REG_LVT_THERMAL.
Definition write_lvt_thermal la (value : Z) : HW D unit := write_reg la REG_LVT_THERMAL value.
Definition read_lvt_perf la : HW D Z := read_reg la REG_LVT_PERF.
Definition write_lvt_perf la (value : Z) : HW D unit := write_reg la REG_LVT_PERF value.
Definition read_lvt_lint0 la : HW D Z := read_reg la REG_LVT_LINT0.
Definition write_lvt_lint0 la (value : Z) : HW D unit := write_reg la REG_LVT_LINT0 value.
Definition read_lvt_lint1 la : HW D Z := read_reg la REG_LVT_LINT1.
Definition write_lvt_lint1 la (value : Z) : HW D unit := write_reg la REG_LVT_LINT1 value.
Definition read_lvt_error la : HW D Z := read_reg la REG_LVT_ERROR.
Definition write_lvt_error la (value : Z) : HW D unit := write_reg la REG_LVT_ERROR value.

(** The [loop] of [wait_icr_idle], at most [fuel] reads. *)
Fixpoint wait_icr_loop (fuel : nat) la : HW D unit :=
  match fuel with
  | O => fun _ => OutOfFuel
  | S fuel =>
      icr_low ← read_reg la REG_ICR_LOW;
      if Z.land icr_low (Z.shiftl 1 12) =? 0 then mret tt else wait_icr_loop fuel la
  end.

Definition wait_icr_idle (fuel : nat) la : HW D unit :=
  if x2apic la then mret tt else wait_icr_loop fuel la.

Definition send_ipi (fuel : nat) la (dest_apic_id icr_low_flags : Z) : HW D unit :=
  wait_icr_idle fuel la;;
  if x2apic la then
    let icr_val := Z.lor (shl 64 dest_apic_id 32) icr_low_flags in
    msr ← lift (arith p 32 (X2APIC_MSR_BASE + Z.shiftr REG_ICR_LOW 4));
    wrmsr msr icr_val
  else
    write_reg la REG_ICR_HIGH (shl 32 dest_apic_id 24);;
    write_reg la REG_ICR_LOW icr_low_flags.

Definition icr_init_flags : Z :=
  Z.lor (Z.lor (Z.lor (Z.lor ICR_INIT ICR_LEVEL_ASSERT) ICR_TRIGGER_LEVEL) ICR_DEST_PHYSICAL)
        ICR_NO_SHORTHAND.

Definition icr_init_deassert_flags : Z :=
  Z.lor (Z.lor (Z.lor (Z.lor ICR_INIT ICR_LEVEL_DEASSERT) ICR_TRIGGER_LEVEL) ICR_DEST_PHYSICAL)
        ICR_NO_SHORTHAND.

Definition icr_startup_flags (trampoline_page : Z) : Z :=
  Z.lor (Z.lor (Z.lor ICR_STARTUP ICR_DEST_PHYSICAL) ICR_NO_SHORTHAND) trampoline_page.

Definition send_init_ipi (fuel : nat) la (dest_apic_id : Z) : HW D unit :=
  send_ipi fuel la dest_apic_id icr_init_flags.

Definition send_init_deassert (fuel : nat) la (dest_apic_id : Z) : HW D unit :=
  send_ipi fuel la dest_apic_id icr_init_deassert_flags.

Definition send_startup_ipi (fuel : nat) la (dest_apic_id trampoline_page : Z) : HW D unit :=
  send_ipi fuel la dest_apic_id (icr_startup_flags trampoline_page).

Definition setup_timer la (vector mode divide initial_count : Z) : HW D unit :=
  write_reg la REG_TIMER_DIVIDE divide;;
  write_reg la REG_LVT_TIMER (Z.lor mode vector);;
  write_reg la REG_TIMER_INITIAL initial_count.

Definition stop_timer la : HW D unit :=
  write_reg la REG_LVT_TIMER LVT_MASKED;;
  write_reg la REG_TIMER_INITIAL 0.

Definition timer_current_count la : HW D Z := read_reg la REG_TIMER_CURRENT.

(** [delay_fn] is the caller's closure. *)
Definition calibrate_timer la (delay_ms : Z) (delay_fn : Z -> HW D unit) : HW D Z :=
  write_reg la REG_TIMER_DIVIDE TIMER_DIV_16;;
  write_reg la REG_LVT_TIMER LVT_MASKED;;
  write_reg la REG_TIMER_INITIAL 0xFFFFFFFF;;
  delay_fn delay_ms;;
  remaining ← timer_current_count la;
  write_reg la REG_TIMER_INITIAL 0;;
  let elapsed := wrap 32 (0xFFFFFFFF - remaining) in
  if delay_ms =? 0 then panic else mret (elapsed / delay_ms).
End driver.

(** ** Specification: the interrupts that a log of accesses sends *)

(** An inter-processor interrupt, by the fields of the ICR. *)
Record ipi := Ipi {
  ipi_dest : Z;
  ipi_vector : Z;
  ipi_delivery : Z;
  ipi_logical : bool;
  ipi_assert : bool;
  ipi_level : bool;
  ipi_shorthand : Z;
}.

#[global] Instance ipi_eq_dec : EqDecision ipi.
Proof. solve_decision. Defined.

Definition decode_icr (dest low : Z) : ipi := {|
  ipi_dest := dest;
  ipi_vector := Z.land low 0xFF;
  ipi_delivery := Z.land (Z.shiftr low 8) 7;
  ipi_logical := Z.testbit low 11;
  ipi_assert := Z.testbit low 14;
  ipi_level := Z.testbit low 15;
  ipi_shorthand := Z.land (Z.shiftr low 18) 3;
|}.

(** The xAPIC latches the destination from ICR_HIGH bits 24..31 and sends on a
    write to ICR_LOW; the x2APIC sends on one write of the 64-bit ICR MSR 0x830.
    The state is the latched ICR_HIGH and the interrupts sent so far. *)
Definition apic_observe (base : Z) (st : Z * list ipi) (a : access) : Z * list ipi :=
  let '(high, sent) := st in
  match a with
  | MmioWrite addr v =>
      if addr =? base + 0x310 then (v, sent)
      else if addr =? base + 0x300 then (high, sent ++ [decode_icr (Z.shiftr high 24) v])
      else st
  | MsrWrite msr v =>
      if msr =? 0x830 then (high, sent ++ [decode_icr (Z.shiftr v 32) (wrap 32 v)]) else st
  | _ => st
  end.

Definition sent_ipis (base : Z) (log : list access) : list ipi :=
  snd (fold_left (apic_observe base) log (0, [])).

(** Reads of the ICR at [addr] see the delivery bit clear after at most [k] busy
    ones. *)
Fixpoint idle_within `{Machine D} (k : nat) (addr : Z) (d : D) : Prop :=
  let '(v, d') := dev_read32 addr d in
  Z.land (wrap 32 v) (Z.shiftl 1 12) = 0 \/
  match k with O => False | S k => idle_within k addr d' end.

(** The registers of the xAPIC page are addressable. *)
Definition apic_mapped (la : local_apic) : Prop :=
  x2apic la = false -> in_range 64 (base_addr la) /\ in_range 64 (base_addr la + 0xFFF).

(** The destination that reaches the bus. *)
Definition ipi_target (la : local_apic) (dest : Z) : Z :=
  if x2apic la then dest else dest mod 256.

Definition reg_msr (offset : Z) : Z := X2APIC_MSR_BASE + Z.shiftr offset 4.

(** The access by which register [offset] is written with [v]. *)
Definition write_access (la : local_apic) (offset v : Z) : access :=
  if x2apic la then MsrWrite (reg_msr offset) v else MmioWrite (base_addr la + offset) v.

Definition is_read (a : access) : bool :=
  match a with MmioRead _ _ | MsrRead _ _ => true | _ => false end.

(** The access reads register [offset], and the driver sees [v]. *)
Definition reads_reg (la : local_apic) (offset v : Z) (a : access) : Prop :=
  match a with
  | MmioRead addr u => x2apic la = false /\ addr = base_addr la + offset /\ u = v
  | MsrRead msr u => x2apic la = true /\ msr = reg_msr offset /\ wrap 32 u = v
  | _ => False
  end.

Section registers.
Context `{Machine D}.
Implicit Types (la : local_apic) (d : D).

(** The same register in the two modes: what a write does to the device, and
    what a read returns. *)
Definition reg_write la (offset v : Z) d : D :=
  if x2apic la then dev_wrmsr (reg_msr offset) (wrap 32 (Z.shiftr v 32)) (wrap 32 v) d
  else dev_write32 (base_addr la + offset) v d.

Definition reg_read la (offset : Z) d : Z * D * access :=
  if x2apic la then
    let '((high, low), d') := dev_rdmsr (reg_msr offset) d in
    let v := Z.lor (shl 64 (wrap 32 high) 32) (wrap 32 low) in
    (wrap 32 v, d', MsrRead (reg_msr offset) v)
  else
    let '(v, d') := dev_read32 (base_addr la + offset) d in
    (wrap 32 v, d', MmioRead (base_addr la + offset) (wrap 32 v)).

(** The driver may send: it is in x2APIC mode, or the previous interrupt is
    accepted before [fuel] polls. *)
Definition idle_for (fuel : nat) la d : Prop :=
  x2apic la = false -> exists k, (k < fuel)%nat /\ idle_within k (base_addr la + REG_ICR_LOW) d.

(** A timer: it counts down from the value written to the initial count
    register, [rate] ticks in each millisecond of [delay]; the rest of the code
    takes no time. *)
Record apic_timer la (count : D -> Z) (rate : Z) (delay : Z -> HW D unit) : Prop := {
  timer_range d : 0 <= count d <= 0xFFFFFFFF;
  timer_start v d : in_range 32 v -> count (reg_write la REG_TIMER_INITIAL v d) = v;
  timer_read d : exists d' a, reg_read la REG_TIMER_CURRENT d = (count d, d', a);
  timer_delay ms s : 0 <= ms -> exists s', delay ms s = Ok (tt, s') /\
    count (dev s') = Z.max 0 (count (dev s) - rate * ms);
}.
End registers.

(** ** Proofs *)

Section proofs.
Context `{Machine D} (p : profile).
Implicit Types (la : local_apic) (s : hw D).

(** *** Register access *)

Lemma reg_addr_range la off :
  x2apic la = false -> apic_mapped la -> 0 <= off <= 0xFFF -> in_range 64 (base_addr la + off).
Proof. intros Hx Hm Hoff. destruct (Hm Hx). unfold in_range in *. lia. Qed.

Lemma reg_msr_range off : 0 <= off <= 0xFFF -> in_range 32 (reg_msr off).
Proof.
  intros Hoff. unfold reg_msr. rewrite Z.shiftr_div_pow2 by lia. unfold in_range, X2APIC_MSR_BASE.
  change (2 ^ 4) with 16. pose proof (Z.div_pos off 16 ltac:(lia) ltac:(lia)).
  pose proof (Z.div_le_upper_bound off 16 0xFFF ltac:(lia) ltac:(lia)). lia.
Qed.

Lemma write_reg_eq la off v s :
  apic_mapped la -> 0 <= off <= 0xFFF ->
  write_reg p la off v s =
  Ok (tt, Hw (reg_write la off v (dev s)) (accesses s ++ [write_access la off v])).
Proof.
  intros Hm Hoff. unfold write_reg, write_access, reg_write. destruct (x2apic la) eqn:Hx.
  - by rewrite (hw_bind_ok _ _ _ _ _ (lift_arith p 32 _ s (reg_msr_range off Hoff))).
  - by rewrite (hw_bind_ok _ _ _ _ _ (lift_arith p 64 _ s (reg_addr_range la off Hx Hm Hoff))).
Qed.

Lemma read_reg_eq la off s :
  apic_mapped la -> 0 <= off <= 0xFFF ->
  read_reg p la off s =
  let '(v, d, a) := reg_read la off (dev s) in Ok (v, Hw d (accesses s ++ [a])).
Proof.
  intros Hm Hoff. unfold read_reg, reg_read. destruct (x2apic la) eqn:Hx.
  - rewrite (hw_bind_ok _ _ _ _ _ (lift_arith p 32 _ s (reg_msr_range off Hoff))).
    unfold rdmsr, mbind, hw_bind, reg_msr. by destruct (dev_rdmsr _ (dev s)) as [[hi lo] d].
  - rewrite (hw_bind_ok _ _ _ _ _ (lift_arith p 64 _ s (reg_addr_range la off Hx Hm Hoff))).
    unfold read_volatile. by destruct (dev_read32 _ (dev s)) as [v d].
Qed.

Lemma reg_read_spec la off (d : D) :
  exists v d' a, reg_read la off d = (v, d', a) /\ is_read a = true /\ in_range 32 v.
Proof.
  assert (0 <= 32) by lia. unfold reg_read. destruct (x2apic la).
  - destruct (dev_rdmsr _ d) as [[hi lo] d']. eexists _, _, _. split_and!; auto with smp.
  - destruct (dev_read32 _ d) as [v d']. eexists _, _, _. split_and!; auto with smp.
Qed.

Lemma reg_read_reads la off (d : D) v d' a : reg_read la off d = (v, d', a) -> reads_reg la off v a.
Proof.
  unfold reg_read. destruct (x2apic la) eqn:Hx.
  - destruct (dev_rdmsr _ d) as [[hi lo] d1]. by intros [= <- <- <-].
  - destruct (dev_read32 _ d) as [u d1]. by intros [= <- <- <-].
Qed.

Lemma reads_reg_is_read la off v a : reads_reg la off v a -> is_read a = true.
Proof. by destruct a. Qed.

(** Runs the register accesses at the head of a driver function. *)
Lemma write_reg_bind {B} la off v (f : unit -> HW D B) s :
  apic_mapped la -> 0 <= off <= 0xFFF ->
  (write_reg p la off v ≫= f) s =
  f tt (Hw (reg_write la off v (dev s)) (accesses s ++ [write_access la off v])).
Proof. intros. by apply hw_bind_ok, write_reg_eq. Qed.

Lemma read_reg_bind {B} la off (f : Z -> HW D B) s v d a :
  apic_mapped la -> 0 <= off <= 0xFFF -> reg_read la off (dev s) = (v, d, a) ->
  (read_reg p la off ≫= f) s = f v (Hw d (accesses s ++ [a])).
Proof. intros Hm Hoff Hr. apply hw_bind_ok. rewrite read_reg_eq by done. by rewrite Hr. Qed.

(** *** Observing the log *)

Lemma observe_reads base log st :
  forallb is_read log = true -> fold_left (apic_observe base) log st = st.
Proof.
  revert st. induction log as [|a log IH]; intros st Hall; simpl in *; [done|].
  apply andb_true_iff in Hall as [Ha Hall]. rewrite IH by done. destruct st. by destruct a.
Qed.

(** The polling loop only reads, and ends once the delivery bit clears. *)
Lemma wait_icr_loop_ok fuel k la s :
  x2apic la = false -> apic_mapped la ->
  idle_within k (base_addr la + REG_ICR_LOW) (dev s) -> (k < fuel)%nat ->
  exists s' reads, wait_icr_loop p fuel la s = Ok (tt, s') /\
    accesses s' = accesses s ++ reads /\ forallb is_read reads = true.
Proof.
  intros Hx Hm. revert k s. induction fuel as [|fuel IH]; intros k s Hidle Hk; [lia|].
  simpl wait_icr_loop.
  destruct (dev_read32 (base_addr la + REG_ICR_LOW) (dev s)) as [v d] eqn:Hrd.
  rewrite (read_reg_bind la _ _ s (wrap 32 v) d (MmioRead (base_addr la + REG_ICR_LOW) (wrap 32 v)));
    [|done|done|by unfold reg_read; rewrite Hx, Hrd].
  destruct (Z.eqb_spec (Z.land (wrap 32 v) (Z.shiftl 1 12)) 0) as [Hz|Hz].
  { by eexists _, [_]. }
  destruct k as [|k]; simpl in Hidle; rewrite Hrd in Hidle; [by destruct Hidle as [?|[]]|].
  destruct Hidle as [?|Hidle]; [done|].
  destruct (IH k (Hw d (accesses s ++ [MmioRead (base_addr la + REG_ICR_LOW) (wrap 32 v)])))
    as (s' & reads & Hw & Hacc & Hall); [done|lia|].
  exists s', (MmioRead (base_addr la + REG_ICR_LOW) (wrap 32 v) :: reads).
  split_and!; [done| |done]. by rewrite Hacc; simpl; rewrite <-app_assoc.
Qed.

Lemma wait_icr_idle_ok fuel la s :
  apic_mapped la -> idle_for fuel la (dev s) ->
  exists s' reads, wait_icr_idle p fuel la s = Ok (tt, s') /\
    accesses s' = accesses s ++ reads /\ forallb is_read reads = true.
Proof.
  intros Hm Hidle. unfold wait_icr_idle. destruct (x2apic la) eqn:Hx.
  - exists s, []. by rewrite app_nil_r.
  - destruct (Hidle Hx) as (k & Hk & Hi). by apply (wait_icr_loop_ok fuel k).
Qed.
End proofs.

(** *** Words of the ICR *)

Lemma icr_dest_xapic dest : Z.shiftr (shl 32 dest 24) 24 = dest mod 256.
Proof.
  unfold shl, wrap. rewrite Z.shiftl_mul_pow2, Z.shiftr_div_pow2 by lia.
  change (2 ^ 32) with (256 * 2 ^ 24). rewrite Z.mul_mod_distr_r by lia.
  apply Z.div_mul. lia.
Qed.

Lemma shl_64_32 dest : in_range 32 dest -> shl 64 dest 32 = Z.shiftl dest 32.
Proof.
  intros Hd. unfold shl. apply wrap_small. unfold in_range in *.
  rewrite Z.shiftl_mul_pow2 by lia. lia.
Qed.

Lemma shiftr_small x n : in_range n x -> 0 <= n -> Z.shiftr x n = 0.
Proof. intros Hx Hn. rewrite Z.shiftr_div_pow2 by done. by apply Z.div_small. Qed.

Lemma icr_dest_x2apic dest flags :
  in_range 32 dest -> in_range 32 flags ->
  Z.shiftr (Z.lor (shl 64 dest 32) flags) 32 = dest.
Proof.
  intros Hd Hf. rewrite shl_64_32 by done. rewrite Z.shiftr_lor, Z.shiftr_shiftl_l by lia.
  rewrite (shiftr_small flags) by (done || lia). rewrite Z.lor_0_r. apply Z.shiftl_0_r.
Qed.

Lemma icr_low_x2apic dest flags :
  in_range 32 dest -> in_range 32 flags -> wrap 32 (Z.lor (shl 64 dest 32) flags) = flags.
Proof.
  intros Hd Hf. rewrite shl_64_32 by done. apply Z.bits_inj'. intros n Hn. unfold wrap.
  destruct (decide (n < 32)).
  - rewrite Z.mod_pow2_bits_low by lia. rewrite Z.lor_spec, Z.shiftl_spec by lia.
    by rewrite Z.testbit_neg_r by lia.
  - rewrite Z.mod_pow2_bits_high by lia. symmetry.
    rewrite <-(Z.mod_small flags (2 ^ 32)) by done. apply Z.mod_pow2_bits_high. lia.
Qed.

(** *** Bits of the SVR *)

Lemma svr_enable_bits v b :
  0 <= b < 32 ->
  Z.testbit (Z.lor (Z.lor (Z.land v (bnot 32 0xFF)) 0xFF) (Z.shiftl 1 8)) b =
  (b <? 9) || Z.testbit v b.
Proof.
  intros Hb. unfold bnot. rewrite !Z.lor_spec, Z.land_spec, Z.lxor_spec.
  rewrite Z.ones_spec_low by lia. change 0xFF with (Z.ones 8). change (Z.shiftl 1 8) with (2 ^ 8).
  rewrite Z.pow2_bits_eqb by lia.
  destruct (Z.ltb_spec b 9) as [Hlt|Hge].
  - destruct (decide (b = 8)) as [->|]; [by rewrite !orb_true_r|].
    rewrite Z.ones_spec_low by lia. by rewrite orb_true_r.
  - rewrite Z.ones_spec_high by lia. destruct (Z.eqb_spec 8 b); [lia|].
    simpl. by rewrite andb_true_r, !orb_false_r.
Qed.

Lemma svr_disable_bits v b :
  0 <= b < 32 ->
  Z.testbit (Z.land v (bnot 32 (Z.shiftl 1 8))) b = negb (b =? 8) && Z.testbit v b.
Proof.
  intros Hb. unfold bnot. rewrite Z.land_spec, Z.lxor_spec. rewrite Z.ones_spec_low by lia.
  change (Z.shiftl 1 8) with (2 ^ 8). rewrite Z.pow2_bits_eqb by lia. rewrite Z.eqb_sym.
  destruct (b =? 8); simpl; by rewrite ?andb_false_r, ?andb_true_r.
Qed.

(** *** Sending an interrupt *)

Section sending.
Context `{Machine D} (p : profile).
Implicit Types (la : local_apic) (s : hw D).

Lemma sent_reads base log reads :
  forallb is_read reads = true -> sent_ipis base (log ++ reads) = sent_ipis base log.
Proof. intros. unfold sent_ipis. by rewrite fold_left_app, observe_reads. Qed.

Lemma sent_xapic base log dest low :
  sent_ipis base (log ++ [MmioWrite (base + REG_ICR_HIGH) (shl 32 dest 24)] ++
                         [MmioWrite (base + REG_ICR_LOW) low]) =
  sent_ipis base log ++ [decode_icr (dest mod 256) low].
Proof.
  unfold sent_ipis. rewrite fold_left_app. destruct (fold_left _ log _) as [high sent].
  unfold REG_ICR_HIGH, REG_ICR_LOW. simpl fold_left. unfold apic_observe.
  rewrite !Z.eqb_refl. destruct (Z.eqb_spec (base + 0x300) (base + 0x310)); [lia|].
  simpl. by rewrite icr_dest_xapic.
Qed.

Lemma sent_x2apic base log dest low :
  in_range 32 dest -> in_range 32 low ->
  sent_ipis base (log ++ [MsrWrite 0x830 (Z.lor (shl 64 dest 32) low)]) =
  sent_ipis base log ++ [decode_icr dest low].
Proof.
  intros Hd Hl. unfold sent_ipis. rewrite fold_left_app. destruct (fold_left _ log _) as [high sent].
  unfold fold_left, apic_observe. cbn [snd Z.eqb Pos.eqb].
  by rewrite icr_dest_x2apic, icr_low_x2apic.
Qed.

(** In both modes, [send_ipi] returns having sent exactly one interrupt. *)
Lemma send_ipi_ok fuel la dest flags s :
  apic_mapped la -> idle_for fuel la (dev s) -> in_range 32 dest -> in_range 32 flags ->
  exists s', send_ipi p fuel la dest flags s = Ok (tt, s') /\
    sent_ipis (base_addr la) (accesses s') =
    sent_ipis (base_addr la) (accesses s) ++ [decode_icr (ipi_target la dest) flags].
Proof.
  intros Hm Hidle Hd Hf. destruct (wait_icr_idle_ok p fuel la s Hm Hidle) as (s1 & reads & Hw & Hacc & Hr).
  unfold send_ipi, ipi_target. rewrite (hw_bind_ok _ _ _ _ _ Hw).
  rewrite <-(sent_reads _ (accesses s) reads Hr), <-Hacc. destruct (x2apic la) eqn:Hx.
  - rewrite (hw_bind_ok _ _ _ _ _ (lift_arith p 32 (reg_msr REG_ICR_LOW) s1 (reg_msr_range _ ltac:(done)))).
    eexists. split; [reflexivity|]. by apply sent_x2apic.
  - rewrite write_reg_bind, write_reg_eq by done. eexists. split; [reflexivity|].
    unfold write_access. rewrite Hx. simpl accesses. rewrite <-app_assoc. apply sent_xapic.
Qed.

(** Every page number gives the startup interrupt for that page. *)
Lemma decode_startup target page :
  in_range 8 page ->
  decode_icr target (icr_startup_flags page) = Ipi target page 6 false false false 0.
Proof.
  intros Hp. assert (decode_icr 0 (icr_startup_flags page) = Ipi 0 page 6 false false false 0) as Hd.
  { revert Hp. apply (byte_all (fun k => decode_icr 0 (icr_startup_flags k) = Ipi 0 k 6 false false false 0)).
    by vm_compute. }
  unfold decode_icr in *. congruence.
Qed.

Lemma icr_startup_range page : in_range 8 page -> in_range 32 (icr_startup_flags page).
Proof. apply (byte_all (fun k => in_range 32 (icr_startup_flags k))). by vm_compute. Qed.
End sending.

(** *** What the driver can change

    A relation between device states that every access to the registers of the
    local APIC respects holds between the states before and after an operation. *)

Record lapic_footprint `{Machine D} (la : local_apic) (R : D -> D -> Prop) : Prop := {
  fp_preorder : PreOrder R;
  fp_write off v d : 0 <= off <= 0xFFF -> R d (reg_write la off v d);
  fp_read off d : 0 <= off <= 0xFFF -> R d (snd (fst (reg_read la off d)));
}.

Section footprint.
Context `{Machine D} (p : profile) (la : local_apic) (R : D -> D -> Prop).
Context (Hm : apic_mapped la) (HR : lapic_footprint la R).
Implicit Types s : hw D.

Lemma fp_trans d1 d2 d3 : R d1 d2 -> R d2 d3 -> R d1 d3.
Proof. destruct HR as [[_ Htr] _ _]. apply Htr. Qed.

Lemma fp_refl d : R d d.
Proof. destruct HR as [[Hr _] _ _]. apply Hr. Qed.

(** A register access at the head of an operation. *)
Lemma write_step {B} off v (f : unit -> HW D B) s :
  0 <= off <= 0xFFF ->
  exists s1, (write_reg p la off v ≫= f) s = f tt s1 /\ R (dev s) (dev s1) /\
    accesses s1 = accesses s ++ [write_access la off v].
Proof. intros Hoff. eexists. split; [by apply write_reg_bind|]. split; [by apply HR|done]. Qed.

Lemma read_step {B} off (f : Z -> HW D B) s :
  0 <= off <= 0xFFF ->
  exists v s1 a, (read_reg p la off ≫= f) s = f v s1 /\ R (dev s) (dev s1) /\
    accesses s1 = accesses s ++ [a] /\ reads_reg la off v a.
Proof.
  intros Hoff. destruct (reg_read_spec la off (dev s)) as (v & d & a & Hr & Ha & _).
  exists v, (Hw d (accesses s ++ [a])), a. split_and!; [by apply read_reg_bind| |done|by eapply reg_read_reads].
  pose proof (fp_read _ _ HR off (dev s) Hoff) as HRd. by rewrite Hr in HRd.
Qed.

Lemma wait_icr_loop_rel fuel s s' :
  wait_icr_loop p fuel la s = Ok (tt, s') -> R (dev s) (dev s').
Proof.
  revert s. induction fuel as [|fuel IH]; intros s Hw; [done|]. simpl wait_icr_loop in Hw.
  destruct (read_step REG_ICR_LOW (fun icr_low =>
    if Z.land icr_low (Z.shiftl 1 12) =? 0 then mret tt else wait_icr_loop p fuel la) s) as (v & s1 & a & Heq & Hs1 & _);
    [done|].
  rewrite Heq in Hw. destruct (_ =? 0).
  - by injection Hw as <-.
  - eapply fp_trans; [exact Hs1|by apply IH].
Qed.

Lemma send_ipi_rel fuel dest flags s s' :
  send_ipi p fuel la dest flags s = Ok (tt, s') -> R (dev s) (dev s').
Proof.
  unfold send_ipi. intros Hs. destruct (wait_icr_idle p fuel la s) as [[[] s1]| |] eqn:Hw.
  2,3: unfold mbind, hw_bind in Hs; rewrite Hw in Hs; done.
  rewrite (hw_bind_ok _ _ _ _ _ Hw) in Hs.
  assert (H1 : R (dev s) (dev s1)).
  { unfold wait_icr_idle in Hw. destruct (x2apic la).
    - injection Hw as <-. apply fp_refl.
    - by eapply wait_icr_loop_rel. }
  eapply fp_trans; [exact H1|]. destruct (x2apic la) eqn:Hx.
  - rewrite (hw_bind_ok _ _ _ _ _ (lift_arith p 32 (reg_msr REG_ICR_LOW) s1 (reg_msr_range _ ltac:(done)))) in Hs.
    injection Hs as <-. cbn [dev].
    pose proof (fp_write _ _ HR REG_ICR_LOW (Z.lor (shl 64 dest 32) flags) (dev s1) ltac:(done)) as HRw.
    unfold reg_write in HRw. by rewrite Hx in HRw.
  - rewrite write_reg_bind, write_reg_eq in Hs by done. injection Hs as <-. cbn [dev].
    apply (fp_trans _ (reg_write la REG_ICR_HIGH (shl 32 dest 24) (dev s1))); by apply HR.
Qed.
End footprint.

(** Accesses that are not writes to the ICR send nothing. *)
Lemma sent_other la log off v :
  0 <= off <= 0xFFF -> off mod 16 = 0 -> off <> 0x300 -> off <> 0x310 ->
  sent_ipis (base_addr la) (log ++ [write_access la off v]) = sent_ipis (base_addr la) log.
Proof.
  intros Hoff Hal H0 H1. unfold sent_ipis. rewrite fold_left_app. destruct (fold_left _ log _) as [high sent].
  unfold write_access, reg_msr, X2APIC_MSR_BASE. destruct (x2apic la); cbn [fold_left apic_observe].
  - rewrite Z.shiftr_div_pow2 by lia. change (2 ^ 4) with 16.
    pose proof (Z.div_mod off 16 ltac:(lia)).
    destruct (Z.eqb_spec (0x800 + off / 16) 0x830); [lia|done].
  - destruct (Z.eqb_spec (base_addr la + off) (base_addr la + 0x310)); [lia|].
    destruct (Z.eqb_spec (base_addr la + off) (base_addr la + 0x300)); [lia|done].
Qed.

(** The polling loop ends only if the delivery bit clears. *)
Lemma wait_icr_loop_only `{Machine D} p fuel la (s s' : hw D) :
  x2apic la = false -> apic_mapped la -> wait_icr_loop p fuel la s = Ok (tt, s') ->
  exists k, (k < fuel)%nat /\ idle_within k (base_addr la + REG_ICR_LOW) (dev s).
Proof.
  intros Hx Hm. revert s. induction fuel as [|fuel IH]; intros s Hw; [done|].
  simpl wait_icr_loop in Hw.
  destruct (dev_read32 (base_addr la + REG_ICR_LOW) (dev s)) as [v d] eqn:Hrd.
  rewrite (read_reg_bind p la _ _ s (wrap 32 v) d (MmioRead (base_addr la + REG_ICR_LOW) (wrap 32 v)))
    in Hw; [|done|done|by unfold reg_read; rewrite Hx, Hrd].
  destruct (Z.eqb_spec (Z.land (wrap 32 v) (Z.shiftl 1 12)) 0) as [Hz|Hz].
  - exists 0%nat. split; [lia|]. simpl. rewrite Hrd. by left.
  - destruct (IH _ Hw) as (k & Hk & Hi). exists (S k). split; [lia|]. simpl. rewrite Hrd. by right.
Qed.

(** ** Properties *)

(** C34: In xAPIC and in x2APIC mode, once the previous interrupt is accepted
    within the polls allowed, [send_init_ipi], [send_init_deassert] and
    [send_startup_ipi] return, and each makes the local APIC send exactly one
    interrupt: INIT assert, INIT de-assert (both level triggered, vector 0) and
    STARTUP whose vector is the trampoline page, in physical destination mode
    without shorthand, to the given APIC id; in xAPIC mode the id is cut to its
    low eight bits. *)
Theorem startup_ipis_sent `{Machine D} p fuel la dest page (s : hw D) :
  apic_mapped la -> idle_for fuel la (dev s) -> in_range 32 dest -> in_range 8 page ->
  let sends m i := exists s', m s = Ok (tt, s') /\
    sent_ipis (base_addr la) (accesses s') = sent_ipis (base_addr la) (accesses s) ++ [i] in
  sends (send_init_ipi p fuel la dest) (Ipi (ipi_target la dest) 0 5 false true true 0) /\
  sends (send_init_deassert p fuel la dest) (Ipi (ipi_target la dest) 0 5 false false true 0) /\
  sends (send_startup_ipi p fuel la dest page)
        (Ipi (ipi_target la dest) page 6 false false false 0).
Proof.
  intros Hm Hi Hd Hp. cbv zeta. split_and!.
  - by apply send_ipi_ok.
  - by apply send_ipi_ok.
  - unfold send_startup_ipi. rewrite <-decode_startup by done.
    by apply send_ipi_ok, icr_startup_range.
Qed.

(** C35: In xAPIC mode [wait_icr_idle] returns, for some number of polls, exactly
    when some read of the ICR shows the delivery bit clear: on an APIC that
    never accepts the previous interrupt the loop does not end, there is no
    timeout. In x2APIC mode it returns at once and accesses nothing. *)
Theorem wait_icr_idle_iff `{Machine D} p la (s : hw D) :
  apic_mapped la ->
  if x2apic la then forall fuel, wait_icr_idle p fuel la s = Ok (tt, s)
  else (exists fuel s', wait_icr_idle p fuel la s = Ok (tt, s')) <->
       (exists k, idle_within k (base_addr la + REG_ICR_LOW) (dev s)).
Proof.
  intros Hm. unfold wait_icr_idle. destruct (x2apic la) eqn:Hx; [done|]. split.
  - intros (fuel & s' & Hw). apply wait_icr_loop_only in Hw as (k & _ & Hi); eauto.
  - intros (k & Hi).
    destruct (wait_icr_loop_ok p (S k) k la s Hx Hm Hi ltac:(lia)) as (s' & reads & Hw & _); eauto.
Qed.

(** [enable] reads the spurious interrupt vector register once and writes it
    once, with vector 0xFF and the software enable bit set and every other bit
    as it was read; [disable] writes it with the enable bit cleared and every
    other bit as it was read. *)
Theorem enable_disable_svr `{Machine D} p la (s : hw D) :
  apic_mapped la ->
  let '(svr, d, a) := reg_read la REG_SVR (dev s) in
  exists on off,
    enable p la s =
      Ok (tt, Hw (reg_write la REG_SVR on d) (accesses s ++ [a; write_access la REG_SVR on])) /\
    disable p la s =
      Ok (tt, Hw (reg_write la REG_SVR off d) (accesses s ++ [a; write_access la REG_SVR off])) /\
    forall b, 0 <= b < 32 ->
      Z.testbit on b = ((b <? 9) || Z.testbit svr b) /\
      Z.testbit off b = (negb (b =? 8) && Z.testbit svr b).
Proof.
  intros Hm. destruct (reg_read_spec la REG_SVR (dev s)) as (svr & d & a & Hr & _ & _). rewrite Hr.
  eexists _, _. unfold enable, disable.
  rewrite !(read_reg_bind p la REG_SVR _ s svr d a) by done.
  rewrite !write_reg_eq by done. simpl. rewrite <-!app_assoc.
  split_and!; [reflexivity|reflexivity|]. intros b Hb.
  split; [by apply svr_enable_bits|by apply svr_disable_bits].
Qed.

(** With a timer that counts down [rate] ticks per millisecond,
    [calibrate_timer] over [ms > 0] milliseconds returns exactly [rate] when the
    counter does not run out, the saturated [0xFFFFFFFF / ms] when it does, and
    leaves the timer stopped; over 0 milliseconds it panics. *)
Theorem calibrate_timer_rate `{Machine D} p la count rate delay ms (s : hw D) :
  apic_mapped la -> apic_timer la count rate delay -> 0 <= rate -> 0 <= ms ->
  if ms =? 0 then calibrate_timer p la ms delay s = Panic
  else exists s',
    calibrate_timer p la ms delay s =
      Ok (if rate * ms <=? 0xFFFFFFFF then rate else 0xFFFFFFFF / ms, s') /\
    count (dev s') = 0.
Proof.
  intros Hm Ht Hrate Hms. unfold calibrate_timer. rewrite !write_reg_bind by done.
  set (s1 := Hw _ _). destruct (timer_delay _ _ _ _ Ht ms s1 Hms) as (s2 & Hdelay & Hcount).
  rewrite (hw_bind_ok _ _ _ _ _ Hdelay).
  unfold s1 in Hcount. cbn [dev] in Hcount. rewrite (timer_start _ _ _ _ Ht) in Hcount; [|unfold in_range; lia].
  unfold timer_current_count. destruct (timer_read _ _ _ _ Ht (dev s2)) as (d3 & a & Hr).
  rewrite (read_reg_bind p la REG_TIMER_CURRENT _ s2 _ _ _ Hm ltac:(done) Hr), write_reg_bind by done.
  destruct (Z.eqb_spec ms 0) as [->|Hnz]; [done|].
  rewrite hw_ret_ok, Hcount, wrap_small by (unfold in_range; nia).
  eexists. split.
  - apply f_equal, f_equal2; [|reflexivity]. destruct (Z.leb_spec (rate * ms) 0xFFFFFFFF).
    + replace (0xFFFFFFFF - _) with (rate * ms) by lia. by apply Z.div_mul.
    + f_equal. nia.
  - cbn [dev]. apply (timer_start _ _ _ _ Ht). unfold in_range. lia.
Qed.

(** ** Examples

    A machine with an xAPIC page at 0xFEE00000 that is busy for [demo_busy]
    reads of the ICR, and a timer. *)
Record demo_dev := DemoDev { demo_busy : nat; demo_count : Z }.

Definition demo_la : local_apic := apic_new 0xFEE00000.
Definition demo_la_x2 : local_apic := LocalApic 0xFEE00000 true.

#[global] Instance demo_machine : Machine demo_dev := {|
  dev_read32 addr d :=
    if addr =? 0xFEE00300 then
      match demo_busy d with
      | O => (0, d)
      | S n => (0x1000, DemoDev n (demo_count d))
      end
    else if addr =? 0xFEE00390 then (demo_count d, d)
    else (0x10F, d);
  dev_write32 addr v d :=
    if addr =? 0xFEE00380 then DemoDev (demo_busy d) (v mod 2 ^ 32) else d;
  dev_rdmsr msr d := ((0, 0), d);
  dev_wrmsr msr high low d := d;
  dev_cpuid1_ecx d := 0;
|}.

Definition demo_start : hw demo_dev := Hw (DemoDev 2 5) [].

Definition demo_delay (rate ms : Z) : HW demo_dev unit := fun s =>
  Ok (tt, Hw (DemoDev (demo_busy (dev s)) (Z.max 0 (wrap 32 (demo_count (dev s)) - rate * ms))) (accesses s)).

Lemma demo_mapped : apic_mapped demo_la.
Proof. done. Qed.

Lemma startup_ipis_sent_witness :
  exists s', send_startup_ipi Debug 3 demo_la 1 8 demo_start = Ok (tt, s') /\
    sent_ipis 0xFEE00000 (accesses s') = [Ipi 1 8 6 false false false 0].
Proof.
  assert (Hi : idle_for 3 demo_la (dev demo_start)).
  { intros _. exists 2%nat. split; [lia|]. right. right. by left. }
  exact (proj2 (proj2 (startup_ipis_sent Debug 3 demo_la 1 8 demo_start
    demo_mapped Hi ltac:(done) ltac:(done)))).
Defined.

Lemma wait_icr_idle_iff_witness :
  exists fuel s', wait_icr_idle Debug fuel demo_la demo_start = Ok (tt, s').
Proof.
  apply (wait_icr_idle_iff Debug demo_la demo_start demo_mapped).
  exists 2%nat. right. right. by left.
Defined.

Lemma enable_disable_svr_witness :
  exists on, enable Debug demo_la demo_start =
    Ok (tt, Hw (DemoDev 2 5) [MmioRead 0xFEE000F0 0x10F; MmioWrite 0xFEE000F0 on]) /\
    Z.testbit on 8 = true.
Proof.
  destruct (enable_disable_svr Debug demo_la demo_start demo_mapped) as (on & off & Hon & _ & Hb).
  exists on. split; [exact Hon|]. by rewrite (proj1 (Hb 8 ltac:(lia))).
Defined.

Lemma demo_timer rate :
  0 <= rate -> apic_timer demo_la (fun d => wrap 32 (demo_count d)) rate (demo_delay rate).
Proof.
  intros Hrate. constructor.
  - intros d. pose proof (wrap_range 32 (demo_count d) ltac:(done)) as Hd. unfold in_range in Hd. lia.
  - intros v d Hv. change (wrap 32 (v mod 2 ^ 32) = v). fold (wrap 32 v). rewrite (wrap_small 32 v Hv). by apply wrap_small.
  - intros d. by eexists _, _.
  - intros ms s Hms. eexists. split; [reflexivity|]. cbn [dev demo_count].
    pose proof (wrap_range 32 (demo_count (dev s)) ltac:(done)) as Hd.
    apply wrap_small. unfold in_range in *. nia.
Qed.

Lemma calibrate_timer_rate_witness :
  exists s', calibrate_timer Debug demo_la 10 (demo_delay 62500) demo_start = Ok (62500, s').
Proof.
  destruct (calibrate_timer_rate Debug demo_la _ 62500 (demo_delay 62500) 10 demo_start
    demo_mapped (demo_timer 62500 ltac:(lia)) ltac:(lia) ltac:(lia)) as (s' & Hc & _).
  by exists s'.
Defined.
