(* ===== verification/ApicIrq.v ===== *)
(** * ApicIrq: sending an interprocessor interrupt from a processor that is itself
    interrupted (src/src/apic.rs)

    [send_ipi] does not disable interrupts. A handler that arrives while it runs,
    and sends an interrupt of its own with the same local APIC, shares the ICR with
    it. Here [send_ipi] is a program of accesses ([Prog.v]), and [with_irq] puts
    such a handler between them. *)

From S2P Require Import Prelude Hw Prog Apic.

(** ** The methods as programs *)

Section programs.
Context (p : profile).
Implicit Types la : local_apic.

Definition c_read_reg la (offset : Z) : prog Z :=
  if x2apic la then
    msr ← plift (arith p 32 (X2APIC_MSR_BASE + Z.shiftr offset 4));
    v ← prdmsr msr;
    mret (wrap 32 v)
  else
    addr ← plift (arith p 64 (base_addr la + offset));
    pread addr.

Definition c_write_reg la (offset value : Z) : prog unit :=
  if x2apic la then
    msr ← plift (arith p 32 (X2APIC_MSR_BASE + Z.shiftr offset 4));
    pwrmsr msr value
  else
    addr ← plift (arith p 64 (base_addr la + offset));
    pwrite addr value.

Fixpoint c_wait_icr_loop (fuel : nat) la : prog unit :=
  match fuel with
  | O => PStuck
  | S fuel =>
      icr_low ← c_read_reg la REG_ICR_LOW;
      if Z.land icr_low (Z.shiftl 1 12) =? 0 then mret tt else c_wait_icr_loop fuel la
  end.

Definition c_wait_icr_idle (fuel : nat) la : prog unit :=
  if x2apic la then mret tt else c_wait_icr_loop fuel la.

Definition c_send_ipi (fuel : nat) la (dest_apic_id icr_low_flags : Z) : prog unit :=
  c_wait_icr_idle fuel la;;
  if x2apic la then
    let icr_val := Z.lor (shl 64 dest_apic_id 32) icr_low_flags in
    msr ← plift (arith p 32 (X2APIC_MSR_BASE + Z.shiftr REG_ICR_LOW 4));
    pwrmsr msr icr_val
  else
    c_write_reg la REG_ICR_HIGH (shl 32 dest_apic_id 24);;
    c_write_reg la REG_ICR_LOW icr_low_flags.
End programs.

(** ** Specification

    The xAPIC accepts an interrupt before [busy] more polls, in whatever state it
    is. *)
Definition accepts_within `{Machine D} (busy : nat) (la : local_apic) : Prop :=
  x2apic la = false -> forall d, idle_within busy (base_addr la + REG_ICR_LOW) d.

(** What is sent when a handler that sends to [dest2] with [flags2] arrives after
    [k] accesses of a call that sends to [dest1] with [flags1]. [polls] is the
    number of reads that the call makes when it is not interrupted. *)
Definition sent_around (la : local_apic) (polls k : nat) (dest1 flags1 dest2 flags2 : Z) : list ipi :=
  let i1 := decode_icr (ipi_target la dest1) flags1 in
  let i2 := decode_icr (ipi_target la dest2) flags2 in
  if (k <=? polls)%nat then [i2; i1]
  else if (k =? S polls)%nat && negb (x2apic la) then [i2; decode_icr (ipi_target la dest2) flags1]
  else [i1].

(** ** Proofs: the programs are the methods *)

Section equations.
Context `{Machine D} (p : profile).
Implicit Types (la : local_apic) (s : hw D).

Lemma prun_apic_read la off s : prun (c_read_reg p la off) s = read_reg p la off s.
Proof. unfold c_read_reg, read_reg. destruct (x2apic la); prun_solve. Qed.

Lemma prun_apic_write la off v s : prun (c_write_reg p la off v) s = write_reg p la off v s.
Proof. unfold c_write_reg, write_reg. destruct (x2apic la); prun_solve. Qed.

Lemma prun_wait_loop fuel la s : prun (c_wait_icr_loop p fuel la) s = wait_icr_loop p fuel la s.
Proof.
  revert s. induction fuel as [|fuel IH]; intros s; [done|]. apply prun_bind_ext; [apply prun_apic_read|].
  intros v s'. destruct (_ =? 0); [done|apply IH].
Qed.

Lemma prun_send_ipi fuel la dest flags s :
  prun (c_send_ipi p fuel la dest flags) s = send_ipi p fuel la dest flags s.
Proof.
  unfold c_send_ipi, send_ipi. apply prun_bind_ext.
  - unfold c_wait_icr_idle, wait_icr_idle. destruct (x2apic la); [done|apply prun_wait_loop].
  - intros _ s'. destruct (x2apic la); [prun_solve|].
    apply prun_bind_ext; [apply prun_apic_write|]. intros _ s2. apply prun_apic_write.
Qed.
End equations.

(** ** Proofs: the interrupted call *)

(** The two writes that send an interrupt with an xAPIC. *)
Definition icr_writes (la : local_apic) (dest flags : Z) : prog unit :=
  PWrite (base_addr la + REG_ICR_HIGH) (shl 32 dest 24) (PWrite (base_addr la + REG_ICR_LOW) flags (PDone tt)).

(** The log of a call that another one interrupts between its writes. *)
Lemma sent_xapic_split base log dest1 flags1 reads dest2 flags2 :
  forallb is_read reads = true ->
  sent_ipis base
    (((log ++ [MmioWrite (base + REG_ICR_HIGH) (shl 32 dest1 24)]) ++
      reads ++ [MmioWrite (base + REG_ICR_HIGH) (shl 32 dest2 24)] ++ [MmioWrite (base + REG_ICR_LOW) flags2]) ++
     [MmioWrite (base + REG_ICR_LOW) flags1]) =
  sent_ipis base log ++ [decode_icr (dest2 mod 256) flags2; decode_icr (dest2 mod 256) flags1].
Proof.
  intros Hr. unfold sent_ipis. rewrite !fold_left_app. destruct (fold_left _ log _) as [high sent].
  rewrite (observe_reads _ reads) by done. unfold REG_ICR_HIGH, REG_ICR_LOW. simpl fold_left. unfold apic_observe.
  rewrite !Z.eqb_refl. destruct (Z.eqb_spec (base + 0x300) (base + 0x310)); [lia|].
  simpl. by rewrite !icr_dest_xapic, <-app_assoc.
Qed.

Section interrupted.
Context `{Machine D} (p : profile) (la : local_apic).
Context (Hm : apic_mapped la).
Implicit Types s : hw D.

Local Abbreviation base := (base_addr la).
Local Abbreviation sent s := (sent_ipis base (accesses s)).

Section xapic.
Context (Hx : x2apic la = false).

Lemma xapic_addr off : 0 <= off <= 0xFFF -> arith p 64 (base + off) = Ok (base + off).
Proof. intros Hoff. by apply arith_in_range, reg_addr_range. Qed.

Lemma c_send_xapic fuel dest flags :
  c_send_ipi p fuel la dest flags = (c_wait_icr_loop p fuel la;; icr_writes la dest flags).
Proof.
  unfold c_send_ipi, c_wait_icr_idle, c_write_reg. rewrite Hx. by rewrite !xapic_addr.
Qed.

Lemma c_wait_poll fuel (c : prog unit) :
  (c_wait_icr_loop p (S fuel) la;; c) =
  PRead (base + REG_ICR_LOW) (fun v =>
    (if Z.land v (Z.shiftl 1 12) =? 0 then mret tt else c_wait_icr_loop p fuel la);; c).
Proof. simpl c_wait_icr_loop. unfold c_read_reg. by rewrite Hx, xapic_addr. Qed.

(** One call, alone. *)
Lemma send_xapic_log fuel dest flags s :
  idle_for fuel la (dev s) ->
  exists s' reads, prun (c_wait_icr_loop p fuel la;; icr_writes la dest flags) s = Ok (tt, s') /\
    accesses s' = accesses s ++ reads ++ [MmioWrite (base + REG_ICR_HIGH) (shl 32 dest 24)] ++
                                         [MmioWrite (base + REG_ICR_LOW) flags] /\
    forallb is_read reads = true.
Proof.
  intros Hi. destruct (wait_icr_idle_ok p fuel la s Hm Hi) as (s1 & reads & Hw & Hacc & Hr).
  unfold wait_icr_idle in Hw. rewrite Hx in Hw. rewrite <-prun_wait_loop in Hw.
  eexists _, reads. split_and!; [rewrite prun_bind, (hw_bind_ok _ _ _ _ _ Hw); reflexivity| |done].
  cbn [accesses]. by rewrite Hacc, <-!app_assoc.
Qed.

Lemma send_xapic_alone fuel dest flags s :
  idle_for fuel la (dev s) ->
  exists s', prun (c_wait_icr_loop p fuel la;; icr_writes la dest flags) s = Ok (tt, s') /\
    sent s' = sent s ++ [decode_icr (dest mod 256) flags].
Proof.
  intros Hi. destruct (send_xapic_log fuel dest flags s Hi) as (s' & reads & Hrun & Hacc & Hr).
  exists s'. split; [done|]. rewrite Hacc, app_assoc, sent_xapic. by rewrite sent_reads.
Qed.

(** The handler between the two writes takes the destination away. *)
Lemma send_xapic_split fuel dest1 flags1 dest2 flags2 s :
  (forall d, idle_for fuel la d) ->
  exists s', prun (with_irq 1 (c_send_ipi p fuel la dest2 flags2) (icr_writes la dest1 flags1)) s = Ok (tt, s') /\
    sent s' = sent s ++ [decode_icr (dest2 mod 256) flags2; decode_icr (dest2 mod 256) flags1].
Proof.
  intros Hi. rewrite c_send_xapic. unfold icr_writes at 2. cbn [with_irq].
  change (prun (PWrite ?a ?v ?c) s) with (prun c (Hw (dev_write32 a v (dev s)) (accesses s ++ [MmioWrite a v]))).
  set (s1 := Hw _ _). destruct (send_xapic_log fuel dest2 flags2 s1 (Hi _)) as (s2 & reads & Hrun & Hacc & Hr).
  eexists. split; [rewrite prun_bind, (hw_bind_ok _ _ _ _ _ Hrun); reflexivity|].
  cbn [accesses]. rewrite Hacc. unfold s1. cbn [accesses]. apply sent_xapic_split. done.
Qed.

Context (busy fuel : nat) (dest2 flags2 : Z).
Context (Hbusy : accepts_within busy la).

Lemma idle_for_all f : (busy < f)%nat -> forall d : D, idle_for f la d.
Proof. intros Hf d _. exists busy. split; [done|by apply Hbusy]. Qed.

(** The handler before the call goes on polling: both interrupts are sent. *)
Lemma send_xapic_before f dest1 flags1 s :
  (busy < fuel)%nat -> (busy < f)%nat ->
  exists s', prun (c_send_ipi p fuel la dest2 flags2;; c_wait_icr_loop p f la;; icr_writes la dest1 flags1) s = Ok (tt, s') /\
    sent s' = sent s ++ [decode_icr (dest2 mod 256) flags2; decode_icr (dest1 mod 256) flags1].
Proof.
  intros Hfuel Hf. rewrite c_send_xapic.
  destruct (send_xapic_alone fuel dest2 flags2 s) as (s1 & H1 & Hs1); [by apply idle_for_all|].
  destruct (send_xapic_alone f dest1 flags1 s1) as (s2 & H2 & Hs2); [by apply idle_for_all|].
  exists s2. rewrite prun_bind, (hw_bind_ok _ _ _ _ _ H1). split; [done|]. by rewrite Hs2, Hs1, <-app_assoc.
Qed.

(** Once the call has polled. *)
Lemma send_xapic_polled k dest1 flags1 s :
  (busy < fuel)%nat ->
  exists s', prun (with_irq k (c_send_ipi p fuel la dest2 flags2) (icr_writes la dest1 flags1)) s = Ok (tt, s') /\
    sent s' = sent s ++ sent_around la 0 k dest1 flags1 dest2 flags2.
Proof.
  intros Hfuel. unfold sent_around, ipi_target. rewrite Hx. destruct k as [|[|k]]; simpl Nat.leb; simpl Nat.eqb; cbn iota.
  - rewrite c_send_xapic. destruct (send_xapic_alone fuel dest2 flags2 s) as (s1 & H1 & Hs1); [by apply idle_for_all|].
    eexists. split; [simpl with_irq; rewrite prun_bind, (hw_bind_ok _ _ _ _ _ H1); reflexivity|].
    cbn [accesses]. rewrite <-app_assoc, sent_xapic, Hs1. by rewrite <-app_assoc.
  - by apply send_xapic_split, idle_for_all.
  - eexists. split; [by destruct k|]. cbn [accesses]. rewrite <-app_assoc. apply sent_xapic.
Qed.

(** The outcomes of an interrupted computation that would make [polls] reads. *)
Definition outcomes polls dest1 flags1 (c : prog unit) s : Prop := forall k, exists s',
  prun (with_irq k (c_send_ipi p fuel la dest2 flags2) c) s = Ok (tt, s') /\
  sent s' = sent s ++ sent_around la polls k dest1 flags1 dest2 flags2.

Lemma outcomes_poll f polls dest1 flags1 s :
  (busy < fuel)%nat -> (busy < S f)%nat ->
  let '(v, d) := dev_read32 (base + REG_ICR_LOW) (dev s) in
  outcomes polls dest1 flags1
    ((if Z.land (wrap 32 v) (Z.shiftl 1 12) =? 0 then mret tt else c_wait_icr_loop p f la);; icr_writes la dest1 flags1)
    (Hw d (accesses s ++ [MmioRead (base + REG_ICR_LOW) (wrap 32 v)])) ->
  outcomes (S polls) dest1 flags1 (c_wait_icr_loop p (S f) la;; icr_writes la dest1 flags1) s.
Proof.
  intros Hfuel Hf. destruct (dev_read32 (base + REG_ICR_LOW) (dev s)) as [v d] eqn:Hd.
  intros Hk [|k].
  - destruct (send_xapic_before (S f) dest1 flags1 s Hfuel Hf) as (s' & Hrun & Hs'). exists s'. split.
    + rewrite c_wait_poll in Hrun |- *. exact Hrun.
    + rewrite Hs'. unfold sent_around, ipi_target. by rewrite Hx.
  - destruct (Hk k) as (s' & Hrun & Hs'). exists s'. split.
    + rewrite c_wait_poll. cbn [with_irq prun].
      rewrite (hw_bind_ok _ _ _ _ _ (read_volatile_eq _ _)), Hd. exact Hrun.
    + rewrite Hs'. cbn [accesses]. by rewrite sent_reads.
Qed.

Lemma send_xapic_interrupted n f dest1 flags1 s :
  (busy < fuel)%nat -> (n + busy < f)%nat -> idle_within n (base + REG_ICR_LOW) (dev s) ->
  exists polls, (1 <= polls)%nat /\
    outcomes polls dest1 flags1 (c_wait_icr_loop p f la;; icr_writes la dest1 flags1) s.
Proof.
  intros Hfuel. revert n s. induction f as [|f IH]; intros n s Hf Hi; [lia|].
  pose proof (fun polls => outcomes_poll f polls dest1 flags1 s Hfuel ltac:(lia)) as Hpoll.
  destruct (dev_read32 (base + REG_ICR_LOW) (dev s)) as [v d] eqn:Hd.
  destruct (Z.eqb_spec (Z.land (wrap 32 v) (Z.shiftl 1 12)) 0) as [Hz|Hz].
  - exists 1%nat. split; [lia|]. apply Hpoll. intros k. by apply send_xapic_polled.
  - destruct n as [|n]; simpl in Hi; rewrite Hd in Hi; (destruct Hi as [?|Hi]; [done|]); [done|].
    destruct (IH n (Hw d (accesses s ++ [MmioRead (base + REG_ICR_LOW) (wrap 32 v)])) ltac:(lia) Hi) as (polls & _ & Hout).
    exists (S polls). split; [lia|]. by apply Hpoll.
Qed.
End xapic.

(** In x2APIC mode the call is one access. *)
Lemma c_send_x2apic fuel dest flags :
  x2apic la = true ->
  c_send_ipi p fuel la dest flags = PWrmsr 0x830 (Z.lor (shl 64 dest 32) flags) (PDone tt).
Proof. intros Hx. unfold c_send_ipi, c_wait_icr_idle. rewrite Hx. by destruct p. Qed.
End interrupted.

(** ** Properties *)

(** C17: [send_ipi] may be interrupted by a handler that itself sends an interrupt,
    since it leaves interrupts enabled. Both always return. In x2APIC mode both
    interrupts are sent as they were asked for, whenever the handler arrives. In
    xAPIC mode they are too, unless the handler arrives between the writes of
    ICR_HIGH and ICR_LOW: then the interrupt of the call is sent to the destination
    of the handler. A handler that arrives after the last access interrupts
    nothing. Alone, the program is the driver's [send_ipi]. *)
Theorem send_ipi_interrupted `{Machine D} p busy fuel la dest1 flags1 dest2 flags2 (s : hw D) :
  apic_mapped la -> accepts_within busy la -> (2 * busy < fuel)%nat ->
  in_range 32 dest1 -> in_range 32 flags1 -> in_range 32 dest2 -> in_range 32 flags2 ->
  (forall h, prun (c_send_ipi p fuel la dest1 flags1) h = send_ipi p fuel la dest1 flags1 h) /\
  exists polls, (x2apic la = true <-> polls = 0%nat) /\ forall k, exists s',
    prun (with_irq k (c_send_ipi p fuel la dest2 flags2) (c_send_ipi p fuel la dest1 flags1)) s = Ok (tt, s') /\
    sent_ipis (base_addr la) (accesses s') =
    sent_ipis (base_addr la) (accesses s) ++ sent_around la polls k dest1 flags1 dest2 flags2.
Proof.
  intros Hm Hacc Hfuel Hd1 Hf1 Hd2 Hf2. split; [apply prun_send_ipi|]. destruct (x2apic la) eqn:Hx.
  - exists 0%nat. split; [done|]. intros k. rewrite !c_send_x2apic by done. unfold sent_around, ipi_target. rewrite Hx.
    destruct k as [|k]; (eexists; split; [first [reflexivity|by destruct k]|]).
    + cbn [accesses]. rewrite !sent_x2apic by done. by rewrite <-app_assoc.
    + cbn [accesses]. rewrite sent_x2apic by done. simpl Nat.leb. by rewrite andb_false_r.
  - destruct (send_xapic_interrupted p la Hm Hx busy fuel dest2 flags2 Hacc busy fuel dest1 flags1 s)
      as (polls & Hpolls & Hout); [lia|lia|by apply Hacc|].
    exists polls. split; [split; [done|lia]|]. intros k. rewrite (c_send_xapic p la Hm Hx _ dest1). apply Hout.
Qed.

(** ** Witness: an xAPIC that accepts every interrupt at once *)

Inductive idle_dev := IdleDev.

#[global] Instance idle_machine : Machine idle_dev := {|
  dev_read32 addr d := (0, d);
  dev_write32 addr v d := d;
  dev_rdmsr msr d := ((0, 0), d);
  dev_wrmsr msr high low d := d;
  dev_cpuid1_ecx d := 0;
|}.

(** A startup interrupt to processor 1 that a fixed interrupt 0x40 to processor 2
    interrupts: the startup interrupt goes to processor 2. *)
Lemma send_ipi_interrupted_witness :
  exists s', prun (with_irq 2 (c_send_ipi Debug 1 demo_la 2 0x40) (c_send_ipi Debug 1 demo_la 1 0x608)) (Hw IdleDev []) = Ok (tt, s') /\
    sent_ipis 0xFEE00000 (accesses s') = [Ipi 2 0x40 0 false false false 0; Ipi 2 8 6 false false false 0].
Proof.
  assert (Hacc : accepts_within 0 demo_la) by (intros _ d; by left).
  destruct (send_ipi_interrupted Debug 0 1 demo_la 1 0x608 2 0x40 (Hw IdleDev []) demo_mapped Hacc
    ltac:(lia) ltac:(done) ltac:(done) ltac:(done) ltac:(done)) as (_ & polls & Hpolls & Hout).
  destruct (Hout 2%nat) as (s' & Hrun & _). exists s'. split; [exact Hrun|].
  revert Hrun. intros [= <-]. reflexivity.
Defined.
