(* ===== verification/IoApic.v ===== *)
(** * IoApic: the I/O APIC driver and manager (src/src/ioapic.rs)

    Redirection entries, the indirect registers of one I/O APIC (select through
    IOREGSEL, access through IOWIN), its redirection table, and the manager that
    finds the I/O APIC of a global system interrupt. *)

From S2P Require Import Prelude Hw.

(** ** Constants *)

Definition IOREGSEL : Z := 0x00.
Definition IOWIN : Z := 0x10.

Definition REG_IOAPICID : Z := 0x00.
Definition REG_IOAPICVER : Z := 0x01.
Definition REG_IOAPICARB : Z := 0x02.
Definition REG_REDTBL_BASE : Z := 0x10.

Definition DELMODE_FIXED : Z := Z.shiftl 0 8.
Definition DELMODE_LOWEST : Z := Z.shiftl 1 8.
Definition DELMODE_SMI : Z := Z.shiftl 2 8.
Definition DELMODE_NMI : Z := Z.shiftl 4 8.
Definition DELMODE_INIT : Z := Z.shiftl 5 8.
Definition DELMODE_EXTINT : Z := Z.shiftl 7 8.

Definition DESTMODE_PHYSICAL : Z := Z.shiftl 0 11.
Definition DESTMODE_LOGICAL : Z := Z.shiftl 1 11.
Definition POLARITY_HIGH : Z := Z.shiftl 0 13.
Definition POLARITY_LOW : Z := Z.shiftl 1 13.
Definition TRIGGER_EDGE : Z := Z.shiftl 0 15.
Definition TRIGGER_LEVEL : Z := Z.shiftl 1 15.
Definition MASKED : Z := Z.shiftl 1 16.

(** ** Redirection entries *)

Record redirection_entry := RedirectionEntry { raw : Z }.

Definition entry_new (vector delivery_mode dest_mode polarity trigger_mode : Z) (masked : bool)
    (destination : Z) : redirection_entry :=
  let raw := Z.lor (Z.lor (Z.lor (Z.lor (Z.lor vector delivery_mode) dest_mode) polarity)
                          trigger_mode) (shl 64 destination 56) in
  RedirectionEntry (if masked then Z.lor raw MASKED else raw).

Definition entry_simple (vector dest_apic_id : Z) : redirection_entry :=
  entry_new vector DELMODE_FIXED DESTMODE_PHYSICAL POLARITY_HIGH TRIGGER_EDGE false dest_apic_id.

Definition entry_masked : redirection_entry := RedirectionEntry MASKED.

Definition entry_vector (e : redirection_entry) : Z := wrap 8 (Z.land (raw e) 0xFF).

Definition is_masked (e : redirection_entry) : bool := negb (Z.land (raw e) MASKED =? 0).

Definition set_masked (e : redirection_entry) (mask : bool) : redirection_entry :=
  if mask then RedirectionEntry (Z.lor (raw e) MASKED)
  else RedirectionEntry (Z.land (raw e) (bnot 64 MASKED)).

Definition entry_destination (e : redirection_entry) : Z :=
  wrap 8 (Z.land (Z.shiftr (raw e) 56) 0xFF).

(** ** One I/O APIC *)

Record io_apic := IoApic { base_addr : Z; gsi_base : Z; max_entries : Z }.

Section driver.
Context `{Machine D} (p : profile).
Implicit Types io : io_apic.

Definition read_reg io (index : Z) : HW D Z :=
  sel ← lift (arith p 64 (base_addr io + IOREGSEL));
  write_volatile sel index;;
  win ← lift (arith p 64 (base_addr io + IOWIN));
  read_volatile win.

Definition write_reg io (index value : Z) : HW D unit :=
  sel ← lift (arith p 64 (base_addr io + IOREGSEL));
  write_volatile sel index;;
  win ← lift (arith p 64 (base_addr io + IOWIN));
  write_volatile win value.

Definition read_id io : HW D Z := read_reg io REG_IOAPICID.
Definition read_version io : HW D Z := read_reg io REG_IOAPICVER.
Definition read_arbitration io : HW D Z := read_reg io REG_IOAPICARB.

Definition io_apic_new (base_vaddr gsi_base : Z) : HW D io_apic :=
  let ioapic := IoApic base_vaddr gsi_base 0 in
  ver ← read_version ioapic;
  n ← lift (arith p 8 (wrap 8 (Z.land (Z.shiftr ver 16) 0xFF) + 1));
  mret (IoApic base_vaddr gsi_base n).

(** [REG_REDTBL_BASE + irq * 2] and [reg_base + 1], on 8 bits. *)
Definition redtbl_index (irq : Z) : res Z :=
  double ← arith p 8 (irq * 2);
  arith p 8 (REG_REDTBL_BASE + double).

Definition read_redirection io (irq : Z) : HW D redirection_entry :=
  hw_assert (irq <? max_entries io);;
  reg_base ← lift (redtbl_index irq);
  low ← read_reg io reg_base;
  reg_next ← lift (arith p 8 (reg_base + 1));
  high ← read_reg io reg_next;
  mret (RedirectionEntry (Z.lor low (shl 64 high 32))).

Definition write_redirection io (irq : Z) (entry : redirection_entry) : HW D unit :=
  hw_assert (irq <? max_entries io);;
  reg_base ← lift (redtbl_index irq);
  write_reg io reg_base (wrap 32 (raw entry));;
  reg_next ← lift (arith p 8 (reg_base + 1));
  write_reg io reg_next (wrap 32 (Z.shiftr (raw entry) 32)).

Definition route_irq io (gsi vector dest_apic_id : Z) : HW D unit :=
  pin ← lift (arith p 32 (gsi - gsi_base io));
  let pin := wrap 8 pin in
  write_redirection io pin (entry_simple vector dest_apic_id).

Definition mask_irq io (irq : Z) : HW D unit :=
  entry ← read_redirection io irq;
  write_redirection io irq (set_masked entry true).

Definition unmask_irq io (irq : Z) : HW D unit :=
  entry ← read_redirection io irq;
  write_redirection io irq (set_masked entry false).

(** The body of the loop [for i in 0..self.max_entries]. *)
Fixpoint mask_each io (pins : list Z) : HW D unit :=
  match pins with
  | [] => mret tt
  | i :: pins => write_redirection io i entry_masked;; mask_each io pins
  end.

Definition mask_all io : HW D unit := mask_each io (seqZ 0 (max_entries io)).

(** ** The manager: the I/O APICs in the order they were added *)

Abbreviation io_apic_manager := (list io_apic) (only parsing).

Definition manager_new : io_apic_manager := [].

Definition manager_add (m : io_apic_manager) (ioapic : io_apic) : io_apic_manager := m ++ [ioapic].

(** The closure of [find]: the second comparison, with its addition, is evaluated
    only when the first one holds. *)
Definition in_gsi_range io (gsi : Z) : res bool :=
  if gsi_base io <=? gsi then
    limit ← arith p 32 (gsi_base io + max_entries io);
    mret (gsi <? limit)
  else mret false.

Fixpoint find_for_gsi (m : io_apic_manager) (gsi : Z) : res (option io_apic) :=
  match m with
  | [] => mret None
  | io :: m => found ← in_gsi_range io gsi; if found : bool then mret (Some io) else find_for_gsi m gsi
  end.

Definition route_gsi (m : io_apic_manager) (gsi vector dest_apic_id : Z) : HW D unit :=
  ioapic ← lift (find_for_gsi m gsi);
  match ioapic with
  | Some io => route_irq io gsi vector dest_apic_id
  | None => mret tt
  end.

Fixpoint manager_mask_all (m : io_apic_manager) : HW D unit :=
  match m with
  | [] => mret tt
  | io :: m => mask_all io;; manager_mask_all m
  end.

Definition manager_count (m : io_apic_manager) : nat := length m.
End driver.

(** ** Specification: the device

    The bits of a register that software configures: all of a redirection entry
    but the delivery status (12), the remote IRR (14) and the reserved bits. *)
Definition rw_mask (index : Z) : Z :=
  if index =? REG_IOAPICVER then 0xFFFFFFFF
  else if Z.even index then 0x1AFFF else 0xFF000000.

(** A 64-bit entry, likewise. *)
Definition RW_MASK : Z := 0xFF0000000001AFFF.

Section device.
Context `{Machine D}.

(** The I/O APICs whose registers are at the addresses [bases]: [sel d b] is the
    index selected in the one at [b] and [cfg d (b, i)] the configured bits of
    its register [i]. Accesses to one do not change the others; the bits outside
    [rw_mask] may read as anything at any time. *)
Record io_bus (bases : Z -> Prop) (sel : D -> Z -> Z) (cfg : D -> Z * Z -> Z) : Prop := {
  bus_select b v d :
    bases b -> in_range 8 v ->
    sel (dev_write32 (b + IOREGSEL) v d) b = v /\
    forall b' i, bases b' -> cfg (dev_write32 (b + IOREGSEL) v d) (b', i) = cfg d (b', i);
  bus_write b v d :
    bases b -> REG_REDTBL_BASE <= sel d b ->
    forall b' i, bases b' ->
      cfg (dev_write32 (b + IOWIN) v d) (b', i) =
      if decide (b' = b /\ i = sel d b) then Z.land v (rw_mask i) else cfg d (b', i);
  bus_read b d :
    bases b ->
    Z.land (wrap 32 (fst (dev_read32 (b + IOWIN) d))) (rw_mask (sel d b)) = cfg d (b, sel d b) /\
    forall b' i, bases b' -> cfg (snd (dev_read32 (b + IOWIN) d)) (b', i) = cfg d (b', i);
}.

(** The redirection table of the I/O APIC at [b]. *)
Definition pin (cfg : D -> Z * Z -> Z) (d : D) (b n : Z) : Z :=
  Z.lor (cfg d (b, REG_REDTBL_BASE + 2 * n)) (Z.shiftl (cfg d (b, REG_REDTBL_BASE + 2 * n + 1)) 32).

(** [d'] is [d] but for the entry of one pin. *)
Definition sets_pin (bases : Z -> Prop) (cfg : D -> Z * Z -> Z) (d d' : D) (b n e : Z) : Prop :=
  forall b' n', bases b' -> 0 <= n' ->
    pin cfg d' b' n' = if decide (b' = b /\ n' = n) then e else pin cfg d b' n'.

(** The redirection tables are the same. *)
Definition same_pins (bases : Z -> Prop) (cfg : D -> Z * Z -> Z) (d d' : D) : Prop :=
  forall b' n', bases b' -> 0 <= n' -> pin cfg d' b' n' = pin cfg d b' n'.
End device.

(** A driver object whose two registers are addressable. *)
Definition io_mapped (bases : Z -> Prop) (io : io_apic) : Prop :=
  bases (base_addr io) /\ in_range 64 (base_addr io) /\ in_range 64 (base_addr io + IOWIN).

(** One that the index arithmetic on 8 bits can serve. *)
Definition io_ok (bases : Z -> Prop) (io : io_apic) : Prop :=
  io_mapped bases io /\
  0 <= gsi_base io /\ gsi_base io + max_entries io < 2 ^ 32 /\ 1 <= max_entries io <= 120.

(** ** Proofs: bits of entries *)

(** A field kept inside [m] is cut by another mask [n] as [m] is. *)
Lemma land_field c m n : Z.land c m = c -> Z.land c n = Z.land c (Z.land m n).
Proof. intros Hc. by rewrite Z.land_assoc, Hc. Qed.

Lemma land_byte v : in_range 8 v -> Z.land v 0xFF = v.
Proof.
  intros Hv. change 0xFF with (Z.ones 8). rewrite Z.land_ones by lia. by apply Z.mod_small.
Qed.

Lemma land_byte_56 v : in_range 8 v -> Z.land (shl 64 v 56) 0xFF00000000000000 = shl 64 v 56.
Proof.
  intros Hv. change 0xFF00000000000000 with (Z.shiftl 0xFF 56). unfold shl. rewrite wrap_small.
  - rewrite <-Z.shiftl_land. by rewrite land_byte.
  - unfold in_range in *. rewrite Z.shiftl_mul_pow2 by lia. lia.
Qed.

Lemma shiftr_byte_56 v : in_range 8 v -> wrap 8 (Z.land (Z.shiftr (shl 64 v 56) 56) 0xFF) = v.
Proof.
  intros Hv. unfold shl. rewrite (wrap_small 64).
  - rewrite Z.shiftr_shiftl_l, Z.sub_diag, Z.shiftl_0_r by lia.
    rewrite land_byte by done. by apply wrap_small.
  - unfold in_range in *. rewrite Z.shiftl_mul_pow2 by lia. lia.
Qed.

Lemma rw_mask_low raw : Z.land (wrap 32 raw) 0x1AFFF = Z.land raw 0x1AFFF.
Proof.
  unfold wrap. rewrite <-Z.land_ones by lia. by rewrite <-Z.land_assoc.
Qed.

Lemma rw_mask_high raw :
  Z.shiftl (Z.land (wrap 32 (Z.shiftr raw 32)) 0xFF000000) 32 = Z.land raw 0xFF00000000000000.
Proof.
  unfold wrap. rewrite <-Z.land_ones by lia. rewrite <-Z.land_assoc.
  change (Z.land (Z.ones 32) 0xFF000000) with (Z.shiftl 0xFF 24).
  change 0xFF00000000000000 with (Z.shiftl (Z.shiftl 0xFF 24) 32).
  rewrite Z.shiftl_land. apply Z.bits_inj'. intros n Hn. rewrite !Z.land_spec.
  destruct (decide (n < 32)).
  - rewrite (Z.shiftl_spec_low (Z.shiftl 0xFF 24)) by lia. by rewrite !andb_false_r.
  - f_equal. rewrite Z.shiftl_spec, Z.shiftr_spec by lia. f_equal. lia.
Qed.

(** What a write of [raw] as two words leaves in the table. *)
Lemma entry_written raw :
  Z.lor (Z.land (wrap 32 raw) 0x1AFFF)
        (Z.shiftl (Z.land (wrap 32 (Z.shiftr raw 32)) 0xFF000000) 32) = Z.land raw RW_MASK.
Proof. rewrite rw_mask_low, rw_mask_high. by rewrite <-Z.land_lor_distr_r. Qed.

(** What two words read make of the table. *)
Lemma entry_read low high :
  in_range 32 low -> in_range 32 high ->
  Z.land (Z.lor low (shl 64 high 32)) RW_MASK =
  Z.lor (Z.land low 0x1AFFF) (Z.shiftl (Z.land high 0xFF000000) 32).
Proof.
  intros Hl Hh. rewrite <-entry_written. f_equal; [f_equal|do 2 f_equal].
  - apply Z.bits_inj'. intros n Hn. unfold wrap, shl.
    destruct (decide (n < 32)).
    + rewrite Z.mod_pow2_bits_low, Z.lor_spec by lia. unfold wrap.
      rewrite Z.mod_pow2_bits_low by lia. rewrite Z.shiftl_spec_low by lia. by rewrite orb_false_r.
    + rewrite Z.mod_pow2_bits_high by lia. symmetry.
      rewrite <-(Z.mod_small low (2 ^ 32)) by done. apply Z.mod_pow2_bits_high. lia.
  - rewrite Z.shiftr_lor. rewrite (Z.shiftr_div_pow2 low) by lia. rewrite Z.div_small by done.
    rewrite Z.lor_0_l. unfold shl. rewrite (wrap_small 64).
    + rewrite Z.shiftr_shiftl_l, Z.sub_diag, Z.shiftl_0_r by lia. by apply wrap_small.
    + unfold in_range in *. rewrite Z.shiftl_mul_pow2 by lia. lia.
Qed.

(** Masking and unmasking as seen through the table. *)
Lemma set_masked_rw e mask :
  Z.land (raw (set_masked e mask)) RW_MASK =
  if mask then Z.lor (Z.land (raw e) RW_MASK) MASKED
  else Z.land (Z.land (raw e) RW_MASK) (bnot 64 MASKED).
Proof.
  destruct mask; simpl.
  - by rewrite Z.land_lor_distr_l.
  - by rewrite <-!Z.land_assoc, (Z.land_comm (bnot 64 MASKED)).
Qed.

Lemma simple_rw vector dest :
  in_range 8 vector -> in_range 8 dest ->
  Z.land (raw (entry_simple vector dest)) RW_MASK = Z.lor vector (Z.shiftl dest 56).
Proof.
  intros Hv Hd. unfold entry_simple, entry_new. cbn [raw].
  change DELMODE_FIXED with 0. change DESTMODE_PHYSICAL with 0. change POLARITY_HIGH with 0.
  change TRIGGER_EDGE with 0. rewrite !Z.lor_0_r, Z.land_lor_distr_l.
  rewrite (land_field vector _ _ (land_byte _ Hv)).
  rewrite (land_field (shl 64 dest 56) _ _ (land_byte_56 _ Hd)).
  change (Z.land 0xFF RW_MASK) with 0xFF.
  change (Z.land 0xFF00000000000000 RW_MASK) with 0xFF00000000000000.
  rewrite land_byte, land_byte_56 by done. f_equal. unfold shl. apply wrap_small.
  unfold in_range in *. rewrite Z.shiftl_mul_pow2 by lia. lia.
Qed.

(** ** Proofs: the registers *)

Section proofs.
Context `{Machine D} (p : profile) (bases : Z -> Prop).
Context (sel : D -> Z -> Z) (cfg : D -> Z * Z -> Z) (Hbus : io_bus bases sel cfg).
Implicit Types (io : io_apic) (s : hw D).

Lemma write_reg_ok io index v s :
  io_mapped bases io -> REG_REDTBL_BASE <= index < 256 ->
  exists d log, write_reg p io index v s = Ok (tt, Hw d (accesses s ++ log)) /\
    forall b i, bases b -> cfg d (b, i) =
      if decide (b = base_addr io /\ i = index) then Z.land v (rw_mask i) else cfg (dev s) (b, i).
Proof.
  intros (Hb & Hlo & Hhi) Hi. unfold write_reg.
  rewrite (hw_bind_ok _ _ _ _ _ (lift_arith p 64 (base_addr io + IOREGSEL) s ltac:(by rewrite Z.add_0_r))).
  rewrite (hw_bind_ok _ _ _ _ _ (write_volatile_eq _ _ _)).
  rewrite (hw_bind_ok _ _ _ _ _ (lift_arith p 64 _ _ Hhi)).
  rewrite write_volatile_eq. cbn [dev accesses].
  eexists _, [_; _]. split; [by rewrite <-app_assoc|].
  intros b i Hb'. destruct (bus_select _ _ _ Hbus (base_addr io) index (dev s) Hb) as [Hsel Hsame].
  { unfold REG_REDTBL_BASE, in_range in *. lia. }
  rewrite (bus_write _ _ _ Hbus); [|done|by rewrite Hsel; apply Hi|done].
  rewrite Hsel. by rewrite Hsame.
Qed.

Lemma read_reg_ok io index s :
  io_mapped bases io -> in_range 8 index ->
  exists v d log, read_reg p io index s = Ok (v, Hw d (accesses s ++ log)) /\
    Z.land v (rw_mask index) = cfg (dev s) (base_addr io, index) /\ in_range 32 v /\
    forall b i, bases b -> cfg d (b, i) = cfg (dev s) (b, i).
Proof.
  intros (Hb & Hlo & Hhi) Hi. unfold read_reg.
  rewrite (hw_bind_ok _ _ _ _ _ (lift_arith p 64 (base_addr io + IOREGSEL) s ltac:(by rewrite Z.add_0_r))).
  rewrite (hw_bind_ok _ _ _ _ _ (write_volatile_eq _ _ _)).
  rewrite (hw_bind_ok _ _ _ _ _ (lift_arith p 64 _ _ Hhi)).
  rewrite read_volatile_eq. cbn [dev accesses].
  destruct (bus_select _ _ _ Hbus (base_addr io) index (dev s) Hb Hi) as [Hsel Hsame].
  set (d1 := dev_write32 _ _ _) in *.
  destruct (bus_read _ _ _ Hbus (base_addr io) d1 Hb) as [Hv Hcfg].
  destruct (dev_read32 _ d1) as [v d2]. cbn [fst snd] in *. rewrite Hsel in Hv.
  eexists _, _, [_; _]. split; [by rewrite <-app_assoc|]. split_and!.
  - by rewrite Hv, Hsame.
  - by apply wrap_range.
  - intros b i Hb'. by rewrite Hcfg, Hsame.
Qed.

(** *** The redirection table *)

Lemma redtbl_index_ok irq :
  0 <= irq < 120 -> redtbl_index p irq = Ok (REG_REDTBL_BASE + 2 * irq).
Proof.
  intros Hi. unfold redtbl_index. rewrite !arith_in_range by (unfold in_range; lia). simpl.
  rewrite arith_in_range by (unfold in_range, REG_REDTBL_BASE; lia). f_equal. lia.
Qed.

Lemma rw_mask_even n : 0 <= n -> rw_mask (REG_REDTBL_BASE + 2 * n) = 0x1AFFF.
Proof.
  intros Hn. unfold rw_mask, REG_REDTBL_BASE, REG_IOAPICVER.
  destruct (Z.eqb_spec (0x10 + 2 * n) 1); [lia|]. by rewrite Z.even_add_mul_2.
Qed.

Lemma rw_mask_odd n : 0 <= n -> rw_mask (REG_REDTBL_BASE + 2 * n + 1) = 0xFF000000.
Proof.
  intros Hn. unfold rw_mask, REG_REDTBL_BASE, REG_IOAPICVER.
  destruct (Z.eqb_spec (0x10 + 2 * n + 1) 1); [lia|].
  replace (0x10 + 2 * n + 1) with (17 + 2 * n) by lia. by rewrite Z.even_add_mul_2.
Qed.

Lemma write_redirection_ok io irq e s :
  io_ok bases io -> 0 <= irq < max_entries io ->
  exists d log, write_redirection p io irq e s = Ok (tt, Hw d (accesses s ++ log)) /\
    sets_pin bases cfg (dev s) d (base_addr io) irq (Z.land (raw e) RW_MASK).
Proof.
  intros Hok Hirq. assert (0 <= irq < 120) by (destruct Hok as (_ & _ & _ & ?); lia).
  unfold write_redirection. destruct (Z.ltb_spec irq (max_entries io)); [|lia].
  rewrite (hw_bind_ok _ _ _ _ _ (hw_assert_true s)), redtbl_index_ok by done.
  rewrite (hw_bind_ok _ _ _ _ _ (lift_ok _ s)).
  destruct (write_reg_ok io (REG_REDTBL_BASE + 2 * irq) (wrap 32 (raw e)) s (proj1 Hok)) as (d1 & l1 & Hw1 & Hc1).
  { unfold REG_REDTBL_BASE. lia. }
  rewrite (hw_bind_ok _ _ _ _ _ Hw1).
  rewrite (hw_bind_ok _ _ _ _ _ (lift_arith p 8 (REG_REDTBL_BASE + 2 * irq + 1) _ ltac:(unfold in_range, REG_REDTBL_BASE; lia))).
  destruct (write_reg_ok io (REG_REDTBL_BASE + 2 * irq + 1) (wrap 32 (Z.shiftr (raw e) 32))
              (Hw d1 (accesses s ++ l1)) (proj1 Hok)) as (d2 & l2 & Hw2 & Hc2).
  { unfold REG_REDTBL_BASE. lia. }
  exists d2, (l1 ++ l2). split; [by rewrite Hw2, app_assoc|].
  intros b n Hb Hn. unfold pin. rewrite !Hc2, !Hc1 by done. cbn [dev].
  rewrite rw_mask_even, rw_mask_odd by lia.
  destruct (decide (b = base_addr io /\ n = irq)) as [[-> ->]|Hne].
  - rewrite decide_False by lia. rewrite decide_True by done. rewrite decide_True by done.
    apply entry_written.
  - by rewrite !decide_False by (intros [? ?]; apply Hne; split; [done|lia]).
Qed.

Lemma read_redirection_ok io irq s :
  io_ok bases io -> 0 <= irq < max_entries io ->
  exists e d log, read_redirection p io irq s = Ok (e, Hw d (accesses s ++ log)) /\
    Z.land (raw e) RW_MASK = pin cfg (dev s) (base_addr io) irq /\
    same_pins bases cfg (dev s) d.
Proof.
  intros Hok Hirq. assert (0 <= irq < 120) by (destruct Hok as (_ & _ & _ & ?); lia).
  unfold read_redirection. destruct (Z.ltb_spec irq (max_entries io)); [|lia].
  rewrite (hw_bind_ok _ _ _ _ _ (hw_assert_true s)), redtbl_index_ok by done.
  rewrite (hw_bind_ok _ _ _ _ _ (lift_ok _ s)).
  destruct (read_reg_ok io (REG_REDTBL_BASE + 2 * irq) s (proj1 Hok)) as (v1 & d1 & l1 & Hr1 & Hv1 & Hb1 & Hc1).
  { unfold in_range, REG_REDTBL_BASE. lia. }
  rewrite (hw_bind_ok _ _ _ _ _ Hr1).
  rewrite (hw_bind_ok _ _ _ _ _ (lift_arith p 8 (REG_REDTBL_BASE + 2 * irq + 1) _ ltac:(unfold in_range, REG_REDTBL_BASE; lia))).
  destruct (read_reg_ok io (REG_REDTBL_BASE + 2 * irq + 1) (Hw d1 (accesses s ++ l1)) (proj1 Hok))
    as (v2 & d2 & l2 & Hr2 & Hv2 & Hb2 & Hc2).
  { unfold in_range, REG_REDTBL_BASE. lia. }
  rewrite (hw_bind_ok _ _ _ _ _ Hr2). eexists _, d2, (l1 ++ l2).
  split; [by rewrite hw_ret_ok; cbn [accesses]; rewrite app_assoc|]. cbn [dev raw] in *. split.
  - rewrite entry_read by done. unfold pin. destruct Hok as ((Hb & _) & _).
    rewrite rw_mask_even in Hv1 by lia. rewrite rw_mask_odd in Hv2 by lia.
    rewrite Hv1, Hv2. by rewrite Hc1.
  - intros b n Hb Hn. unfold pin. by rewrite !Hc2, !Hc1.
Qed.

(** Read, change, write back. *)
Lemma change_redirection_ok io irq f s :
  io_ok bases io -> 0 <= irq < max_entries io ->
  exists e d log,
    (e ← read_redirection p io irq; write_redirection p io irq (f e)) s =
      Ok (tt, Hw d (accesses s ++ log)) /\
    Z.land (raw e) RW_MASK = pin cfg (dev s) (base_addr io) irq /\
    sets_pin bases cfg (dev s) d (base_addr io) irq (Z.land (raw (f e)) RW_MASK).
Proof.
  intros Hok Hirq.
  destruct (read_redirection_ok io irq s Hok Hirq) as (e & d1 & l1 & Hr & He & Hsame).
  rewrite (hw_bind_ok _ _ _ _ _ Hr).
  destruct (write_redirection_ok io irq (f e) (Hw d1 (accesses s ++ l1)) Hok Hirq) as (d2 & l2 & Hw2 & Hset).
  exists e, d2, (l1 ++ l2). split_and!; [by rewrite Hw2, app_assoc|done|].
  intros b n Hb Hn. rewrite Hset by done. by rewrite Hsame.
Qed.

Lemma mask_each_ok io pins s :
  io_ok bases io -> Forall (fun i => 0 <= i < max_entries io) pins ->
  exists d log, mask_each p io pins s = Ok (tt, Hw d (accesses s ++ log)) /\
    forall b n, bases b -> 0 <= n ->
      pin cfg d b n = if decide (b = base_addr io /\ n ∈ pins) then MASKED else pin cfg (dev s) b n.
Proof.
  intros Hok. revert s. induction pins as [|i pins IH]; intros s Hall.
  - exists (dev s), []. rewrite app_nil_r. destruct s. split; [done|]. intros b n _ _.
    rewrite decide_False; [done|]. intros [_ Hin]. by apply elem_of_nil in Hin.
  - apply Forall_cons in Hall as [Hi Hall]. simpl mask_each.
    destruct (write_redirection_ok io i entry_masked s Hok Hi) as (d1 & l1 & Hw1 & Hset).
    rewrite (hw_bind_ok _ _ _ _ _ Hw1).
    destruct (IH (Hw d1 (accesses s ++ l1)) Hall) as (d2 & l2 & Hw2 & Hset2).
    exists d2, (l1 ++ l2). split; [by rewrite Hw2, app_assoc|].
    intros b n Hb Hn. rewrite Hset2 by done. cbn [dev]. rewrite Hset by done.
    change (Z.land (raw entry_masked) RW_MASK) with MASKED.
    repeat case_decide; set_solver.
Qed.

Lemma mask_all_ok io s :
  io_ok bases io ->
  exists d log, mask_all p io s = Ok (tt, Hw d (accesses s ++ log)) /\
    forall b n, bases b -> 0 <= n ->
      pin cfg d b n = if decide (b = base_addr io /\ n < max_entries io) then MASKED
                      else pin cfg (dev s) b n.
Proof.
  intros Hok. destruct (mask_each_ok io (seqZ 0 (max_entries io)) s Hok) as (d & l & Hm & Hp).
  { apply Forall_forall. intros i Hi. apply elem_of_seqZ in Hi. lia. }
  exists d, l. split; [done|]. intros b n Hb Hn. rewrite Hp by done.
  repeat case_decide; try done; rewrite elem_of_seqZ in *; naive_solver lia.
Qed.
End proofs.

(** ** Proofs: fields of entries *)

(** Evaluates the masks [Z.land m n] of two constants. *)
Ltac eval_masks :=
  repeat match goal with
         | |- context [Z.land (Zpos ?a) (Zpos ?b)] =>
             let v := eval vm_compute in (Z.land (Zpos a) (Zpos b)) in
             change (Z.land (Zpos a) (Zpos b)) with v
         end.

Section fields.
Context (vector delivery dest_mode polarity trigger destination : Z).
Context (Hvec : in_range 8 vector) (Hdel : Z.land delivery 0x700 = delivery).
Context (Hdst : Z.land dest_mode 0x800 = dest_mode) (Hpol : Z.land polarity 0x2000 = polarity).
Context (Htrg : Z.land trigger 0x8000 = trigger) (Hdest : in_range 8 destination).

Let entry masked := entry_new vector delivery dest_mode polarity trigger masked destination.

(** A mask distributes over the fields, cut to the bits of each. *)
Lemma entry_land masked n :
  Z.land (raw (entry masked)) n =
  Z.lor (Z.lor (Z.lor (Z.lor (Z.lor (Z.lor
    (Z.land vector (Z.land 0xFF n)) (Z.land delivery (Z.land 0x700 n)))
    (Z.land dest_mode (Z.land 0x800 n))) (Z.land polarity (Z.land 0x2000 n)))
    (Z.land trigger (Z.land 0x8000 n)))
    (Z.land (shl 64 destination 56) (Z.land 0xFF00000000000000 n)))
    (if masked then Z.land 0x10000 n else 0).
Proof.
  rewrite <-(land_field _ _ n (land_byte _ Hvec)), <-(land_field _ _ n Hdel),
    <-(land_field _ _ n Hdst), <-(land_field _ _ n Hpol), <-(land_field _ _ n Htrg),
    <-(land_field _ _ n (land_byte_56 _ Hdest)).
  unfold entry, entry_new. cbn [raw]. destruct masked; rewrite ?Z.lor_0_r, !Z.land_lor_distr_l; done.
Qed.

Lemma masked_bit masked : is_masked (entry masked) = masked.
Proof.
  unfold is_masked. rewrite entry_land. change MASKED with 0x10000. eval_masks.
  rewrite !Z.land_0_r. by destruct masked.
Qed.

Lemma vector_field masked : entry_vector (entry masked) = vector.
Proof.
  unfold entry_vector. rewrite entry_land. eval_masks. rewrite !Z.land_0_r, !Z.lor_0_r.
  rewrite land_byte by done.
  replace (if masked then 0 else 0) with 0 by by destruct masked.
  rewrite Z.lor_0_r. by apply wrap_small.
Qed.

Lemma destination_field masked : entry_destination (entry masked) = destination.
Proof.
  unfold entry_destination. change 0xFF with (Z.shiftr 0xFF00000000000000 56) at 1.
  rewrite <-Z.shiftr_land, entry_land. eval_masks. rewrite !Z.land_0_r, !Z.lor_0_l.
  replace (if masked then 0 else 0) with 0 by by destruct masked. rewrite Z.lor_0_r.
  rewrite <-(land_byte_56 destination Hdest), <-Z.land_assoc. eval_masks.
  change 0xFF00000000000000 with (Z.shiftl 0xFF 56). rewrite Z.shiftr_land.
  change (Z.shiftr (Z.shiftl 0xFF 56) 56) with 0xFF. by apply shiftr_byte_56.
Qed.

Lemma other_fields masked :
  Z.land (raw (entry masked)) 0x700 = delivery /\ Z.land (raw (entry masked)) 0x800 = dest_mode /\
  Z.land (raw (entry masked)) 0x2000 = polarity /\ Z.land (raw (entry masked)) 0x8000 = trigger.
Proof.
  rewrite !entry_land. eval_masks. rewrite !Z.land_0_r, !Z.lor_0_r, !Z.lor_0_l.
  rewrite Hdel, Hdst, Hpol, Htrg. destruct masked; by rewrite !Z.lor_0_r.
Qed.

Lemma set_masked_entry masked mask : set_masked (entry masked) mask = entry mask.
Proof.
  destruct mask; unfold set_masked.
  - unfold entry, entry_new. cbn [raw]. destruct masked; [|done].
    by rewrite <-Z.lor_assoc.
  - rewrite entry_land. change (bnot 64 MASKED) with 0xFFFFFFFFFFFEFFFF. eval_masks.
    rewrite Hdel, Hdst, Hpol, Htrg, land_byte by done.
    rewrite land_byte_56 by done. unfold entry, entry_new. f_equal. destruct masked; by rewrite Z.lor_0_r.
Qed.
End fields.

(** The fields depend on the configured bits only. *)
Lemma fields_rw e e' :
  Z.land (raw e) RW_MASK = Z.land (raw e') RW_MASK ->
  entry_vector e = entry_vector e' /\ entry_destination e = entry_destination e' /\
  is_masked e = is_masked e'.
Proof.
  intros Heq.
  assert (Hcut : forall n, Z.land RW_MASK n = n -> Z.land (raw e) n = Z.land (raw e') n).
  { intros n Hn. by rewrite <-Hn, !Z.land_assoc, Heq. }
  unfold entry_vector, entry_destination, is_masked. split_and!.
  - by rewrite Hcut.
  - change 0xFF with (Z.shiftr 0xFF00000000000000 56). by rewrite <-!Z.shiftr_land, Hcut.
  - by rewrite Hcut.
Qed.

(** ** Proofs: the manager *)

Definition covers (gsi : Z) (io : io_apic) : bool :=
  (gsi_base io <=? gsi) && (gsi <? gsi_base io + max_entries io).

Lemma find_for_gsi_ok p bases m gsi :
  Forall (io_ok bases) m -> find_for_gsi p m gsi = Ok (List.find (covers gsi) m).
Proof.
  induction m as [|io m IH]; intros Hall; [done|]. apply Forall_cons in Hall as [Hio Hall].
  destruct Hio as (_ & Hg & Hlim & Hmax). simpl. unfold in_gsi_range, covers at 1.
  destruct (Z.leb_spec (gsi_base io) gsi); simpl; [|by apply IH].
  rewrite arith_in_range by (unfold in_range; lia). simpl.
  destruct (gsi <? _); [done|by apply IH].
Qed.

(** The only way the index arithmetic on 8 bits overflows is a pin from 120 on. *)
Lemma redtbl_index_wraps irq :
  0 <= irq < 256 -> redtbl_index Release irq = Ok (wrap 8 (REG_REDTBL_BASE + 2 * irq)).
Proof.
  intros Hi. unfold redtbl_index. rewrite arith_release by lia. simpl. rewrite arith_release by lia.
  f_equal. autorewrite with smp_rw. f_equal. lia.
Qed.

Lemma redtbl_index_overflow irq : 120 <= irq < 256 -> redtbl_index Debug irq = Panic.
Proof.
  intros Hi. unfold redtbl_index. destruct (decide (irq < 128)).
  - rewrite (arith_in_range Debug 8 (irq * 2)) by (unfold in_range; lia). simpl.
    apply arith_debug_overflow. unfold in_range, REG_REDTBL_BASE. lia.
  - rewrite arith_debug_overflow by (unfold in_range; lia). done.
Qed.

(** *** Construction *)

Lemma read_version_ok `{Machine D} p bases sel cfg io (s : hw D) :
  io_bus bases sel cfg -> io_mapped bases io ->
  exists d log,
    read_version p io s = Ok (cfg (dev s) (base_addr io, REG_IOAPICVER), Hw d (accesses s ++ log)) /\
    same_pins bases cfg (dev s) d.
Proof.
  intros Hbus Hmap. unfold read_version.
  destruct (read_reg_ok p bases sel cfg Hbus io REG_IOAPICVER s Hmap)
    as (v & d & l & Hr & Hv & Hrange & Hcfg); [done|].
  change (rw_mask REG_IOAPICVER) with (Z.ones 32) in Hv. rewrite Z.land_ones in Hv by done.
  rewrite Z.mod_small in Hv by done. rewrite <-Hv.
  exists d, l. split; [exact Hr|]. intros b k Hb _. unfold pin. by rewrite !Hcfg.
Qed.

Lemma ver_field_range v : 0 <= Z.land (Z.shiftr v 16) 0xFF < 256.
Proof. change 0xFF with (Z.ones 8). rewrite Z.land_ones by done. by apply Z.mod_pos_bound. Qed.

Lemma io_apic_new_ok `{Machine D} p bases sel cfg base gsi (s : hw D) :
  io_bus bases sel cfg -> io_mapped bases (IoApic base gsi 0) ->
  let n := Z.land (Z.shiftr (cfg (dev s) (base, REG_IOAPICVER)) 16) 0xFF in
  n < 0xFF ->
  exists d log,
    io_apic_new p base gsi s = Ok (IoApic base gsi (n + 1), Hw d (accesses s ++ log)) /\
    same_pins bases cfg (dev s) d.
Proof.
  intros Hbus Hmap n Hn. destruct (read_version_ok p bases sel cfg _ s Hbus Hmap) as (d & l & Hr & Hp).
  exists d, l. split; [|done]. unfold io_apic_new. rewrite (hw_bind_ok _ _ _ _ _ Hr).
  cbn [base_addr]. fold n. pose proof (ver_field_range (cfg (dev s) (base, REG_IOAPICVER))) as Hrange.
  fold n in Hrange. rewrite wrap_small by (unfold in_range; lia).
  by rewrite (hw_bind_ok _ _ _ _ _ (lift_arith p 8 (n + 1) _ ltac:(unfold in_range; lia))).
Qed.

(** ** Properties *)

(** The fields given to [RedirectionEntry::new], each within its bits, are
    what the entry holds: vector, destination, mask, delivery mode, destination
    mode, polarity and trigger mode; and [set_masked] gives the entry that [new]
    makes with the other mask, so it changes nothing else. *)
Theorem redirection_fields vector delivery dest_mode polarity trigger masked destination mask :
  in_range 8 vector -> in_range 8 destination ->
  Z.land delivery 0x700 = delivery -> Z.land dest_mode 0x800 = dest_mode ->
  Z.land polarity 0x2000 = polarity -> Z.land trigger 0x8000 = trigger ->
  let e := entry_new vector delivery dest_mode polarity trigger masked destination in
  entry_vector e = vector /\ entry_destination e = destination /\ is_masked e = masked /\
  (Z.land (raw e) 0x700 = delivery /\ Z.land (raw e) 0x800 = dest_mode /\
   Z.land (raw e) 0x2000 = polarity /\ Z.land (raw e) 0x8000 = trigger) /\
  set_masked e mask = entry_new vector delivery dest_mode polarity trigger mask destination.
Proof.
  intros. cbv zeta. split_and!;
    [by apply vector_field|by apply destination_field|by apply masked_bit| | | | |by apply set_masked_entry];
    by apply other_fields.
Qed.

(** C37: On a pin in range of a table of at most 120 entries, [write_redirection]
    followed by [read_redirection] returns an entry with the bits written (all
    but the read-only ones), hence the same vector, destination and mask; and no
    other pin, of this or of another I/O APIC, changes. *)
Theorem redirection_write_read `{Machine D} p bases sel cfg io irq e (s : hw D) :
  io_bus bases sel cfg -> io_ok bases io -> 0 <= irq < max_entries io ->
  exists e' d log,
    (write_redirection p io irq e;; read_redirection p io irq) s =
      Ok (e', Hw d (accesses s ++ log)) /\
    Z.land (raw e') RW_MASK = Z.land (raw e) RW_MASK /\
    (entry_vector e' = entry_vector e /\ entry_destination e' = entry_destination e /\
     is_masked e' = is_masked e) /\
    sets_pin bases cfg (dev s) d (base_addr io) irq (Z.land (raw e) RW_MASK).
Proof.
  intros Hbus Hok Hirq.
  destruct (write_redirection_ok p bases sel cfg Hbus io irq e s Hok Hirq) as (d1 & l1 & Hw1 & Hset).
  destruct (read_redirection_ok p bases sel cfg Hbus io irq (Hw d1 (accesses s ++ l1)) Hok Hirq)
    as (e' & d2 & l2 & Hr & He & Hsame).
  exists e', d2, (l1 ++ l2). rewrite (hw_bind_ok _ _ _ _ _ Hw1). destruct Hok as ((Hb & _) & _).
  assert (Hrw : Z.land (raw e') RW_MASK = Z.land (raw e) RW_MASK).
  { rewrite He. cbn [dev]. rewrite Hset by (done || lia). by rewrite decide_True. }
  split_and!; [by rewrite Hr, app_assoc|done|by apply fields_rw..|].
  intros b n Hb' Hn. by rewrite Hsame, Hset.
Qed.

(** [mask_irq] sets and [unmask_irq] clears the mask bit of the pin's entry,
    keeping its other configured bits, and every other pin. *)
Theorem mask_unmask_irq `{Machine D} p bases sel cfg io irq (s : hw D) :
  io_bus bases sel cfg -> io_ok bases io -> 0 <= irq < max_entries io ->
  let old := pin cfg (dev s) (base_addr io) irq in
  (exists d log, mask_irq p io irq s = Ok (tt, Hw d (accesses s ++ log)) /\
    sets_pin bases cfg (dev s) d (base_addr io) irq (Z.lor old MASKED)) /\
  (exists d log, unmask_irq p io irq s = Ok (tt, Hw d (accesses s ++ log)) /\
    sets_pin bases cfg (dev s) d (base_addr io) irq (Z.land old (bnot 64 MASKED))).
Proof.
  intros Hbus Hok Hirq. cbv zeta. split.
  - destruct (change_redirection_ok p bases sel cfg Hbus io irq (fun e => set_masked e true) s Hok Hirq)
      as (e & d & l & Hm & <- & Hset). exists d, l. split; [done|]. by rewrite set_masked_rw in Hset.
  - destruct (change_redirection_ok p bases sel cfg Hbus io irq (fun e => set_masked e false) s Hok Hirq)
      as (e & d & l & Hm & <- & Hset). exists d, l. split; [done|]. by rewrite set_masked_rw in Hset.
Qed.

(** [IoApicManager::mask_all] returns with every pin of every managed I/O
    APIC holding the masked entry, and with every other pin as it was. *)
Theorem manager_mask_all_masks `{Machine D} p bases sel cfg m (s : hw D) :
  io_bus bases sel cfg -> Forall (io_ok bases) m ->
  exists d log, manager_mask_all p m s = Ok (tt, Hw d (accesses s ++ log)) /\
    forall b n, bases b -> 0 <= n ->
      pin cfg d b n =
      if decide (Exists (fun io => base_addr io = b /\ n < max_entries io) m) then MASKED
      else pin cfg (dev s) b n.
Proof.
  intros Hbus. revert s. induction m as [|io m IH]; intros s Hall.
  { exists (dev s), []. destruct s. rewrite app_nil_r. split; [done|]. intros b n _ _.
    case_decide as Hex; [by apply Exists_nil in Hex|done]. }
  apply Forall_cons in Hall as [Hio Hall]. simpl manager_mask_all.
  destruct (mask_all_ok p bases sel cfg Hbus io s Hio) as (d1 & l1 & Hm1 & Hp1).
  destruct (IH (Hw d1 (accesses s ++ l1)) Hall) as (d2 & l2 & Hm2 & Hp2).
  exists d2, (l1 ++ l2). rewrite (hw_bind_ok _ _ _ _ _ Hm1).
  split; [by rewrite Hm2, app_assoc|]. intros b n Hb Hn.
  rewrite Hp2 by done. cbn [dev]. rewrite Hp1 by done.
  repeat case_decide; rewrite Exists_cons in *; naive_solver.
Qed.

(** C38: [route_gsi] finds the first managed I/O APIC whose pins cover the
    interrupt and sets the entry of the pin [gsi - gsi_base] to an unmasked,
    fixed, edge-triggered one with the vector and destination given, changing no
    other pin; when no I/O APIC covers the interrupt it accesses nothing. *)
Theorem route_gsi_routes `{Machine D} p bases sel cfg m gsi vector dest (s : hw D) :
  io_bus bases sel cfg -> Forall (io_ok bases) m ->
  in_range 8 vector -> in_range 8 dest ->
  match List.find (covers gsi) m with
  | Some io => exists d log, route_gsi p m gsi vector dest s = Ok (tt, Hw d (accesses s ++ log)) /\
      sets_pin bases cfg (dev s) d (base_addr io) (gsi - gsi_base io)
               (Z.lor vector (Z.shiftl dest 56))
  | None => route_gsi p m gsi vector dest s = Ok (tt, s)
  end.
Proof.
  intros Hbus Hall Hvec Hd. unfold route_gsi. rewrite (find_for_gsi_ok p bases) by done.
  rewrite (hw_bind_ok _ _ _ _ _ (lift_ok _ s)).
  destruct (List.find (covers gsi) m) as [io|] eqn:Hfind; [|done].
  apply List.find_some in Hfind as [Hin Hcov].
  apply list_elem_of_In in Hin. rewrite Forall_forall in Hall. specialize (Hall io Hin).
  apply andb_true_iff in Hcov as [Hlo Hhi].
  assert (Hpin : 0 <= gsi - gsi_base io < max_entries io) by lia.
  pose proof Hall as (_ & ? & ? & ?). unfold route_irq. rewrite (hw_bind_ok _ _ _ _ _ (lift_arith p 32 (gsi - gsi_base io) s ltac:(unfold in_range; lia))).
  rewrite wrap_small by (unfold in_range; lia). rewrite <-simple_rw by done.
  by apply (write_redirection_ok p bases sel cfg Hbus).
Qed.

(** C39: Out of range, a pin number panics in every operation on the table. From
    pin 120 on the register index [0x10 + 2 * irq] no longer fits in 8 bits: with
    overflow checks even a pin in range panics; without them pin [n >= 128] is
    written to the registers of pin [n - 128] (and pin 120 to the registers 0 and
    1, identification and version). *)
Theorem redirection_bounds `{Machine D} p io irq e (s : hw D) :
  0 <= irq < 256 ->
  (max_entries io <= irq ->
    read_redirection p io irq s = Panic /\ write_redirection p io irq e s = Panic /\
    mask_irq p io irq s = Panic /\ unmask_irq p io irq s = Panic) /\
  (120 <= irq -> write_redirection Debug io irq e s = Panic) /\
  (128 <= irq < max_entries io ->
    write_redirection Release io irq e s = write_redirection Release io (irq - 128) e s) /\
  redtbl_index Release 120 = Ok REG_IOAPICID.
Proof.
  intros Hi. split_and!; [intros Hmax|intros Hov|intros Hov|done].
  - unfold mask_irq, unmask_irq, read_redirection, write_redirection.
    destruct (Z.ltb_spec irq (max_entries io)); [lia|]. done.
  - unfold write_redirection. destruct (irq <? max_entries io); [|done].
    rewrite (hw_bind_ok _ _ _ _ _ (hw_assert_true s)). by rewrite redtbl_index_overflow by lia.
  - unfold write_redirection. destruct (Z.ltb_spec irq (max_entries io)); [|lia].
    destruct (Z.ltb_spec (irq - 128) (max_entries io)); [|lia].
    rewrite !redtbl_index_wraps by lia.
    replace (wrap 8 (REG_REDTBL_BASE + 2 * (irq - 128))) with (wrap 8 (REG_REDTBL_BASE + 2 * irq)); [done|].
    unfold wrap. change (2 ^ 8) with 256.
    replace (REG_REDTBL_BASE + 2 * irq) with (REG_REDTBL_BASE + 2 * (irq - 128) + 1 * 256) by lia.
    apply Z.mod_add. lia.
Qed.

(** [IoApic::new] returns the driver of an I/O APIC with one entry more than
    the maximum index in bits 16..23 of the version register, and changes no
    pin; when that field is 0xFF the count does not fit in 8 bits: the call
    panics with overflow checks and gives an I/O APIC without entries without
    them. *)
Theorem io_apic_new_entries `{Machine D} p bases sel cfg base gsi (s : hw D) :
  io_bus bases sel cfg -> io_mapped bases (IoApic base gsi 0) ->
  let n := Z.land (Z.shiftr (cfg (dev s) (base, REG_IOAPICVER)) 16) 0xFF in
  exists d log,
    io_apic_new p base gsi s =
      (if n <? 0xFF then Ok (IoApic base gsi (n + 1), Hw d (accesses s ++ log))
       else match p with
            | Debug => Panic
            | Release => Ok (IoApic base gsi 0, Hw d (accesses s ++ log))
            end) /\
    same_pins bases cfg (dev s) d.
Proof.
  intros Hbus Hmap n. pose proof (ver_field_range (cfg (dev s) (base, REG_IOAPICVER))) as Hn.
  fold n in Hn. destruct (Z.ltb_spec n 0xFF) as [Hlt|Hge].
  - by apply io_apic_new_ok with sel.
  - destruct (read_version_ok p bases sel cfg _ s Hbus Hmap) as (d & l & Hr & Hp).
    exists d, l. split; [|done]. unfold io_apic_new. rewrite (hw_bind_ok _ _ _ _ _ Hr).
    cbn [base_addr]. fold n. replace n with 0xFF by lia. by destruct p.
Qed.

(** ** Examples: one I/O APIC at 0xFEC00000 with 24 pins *)

Record demo_dev := DemoDev { demo_sel : Z; demo_reg : Z -> Z }.

#[global] Instance demo_machine : Machine demo_dev := {|
  dev_read32 addr d := if addr =? 0xFEC00010 then (demo_reg d (demo_sel d), d) else (0, d);
  dev_write32 addr v d :=
    if addr =? 0xFEC00000 then DemoDev v (demo_reg d)
    else if addr =? 0xFEC00010 then
      DemoDev (demo_sel d) (fun i => if i =? demo_sel d then v else demo_reg d i)
    else d;
  dev_rdmsr msr d := ((0, 0), d);
  dev_wrmsr msr high low d := d;
  dev_cpuid1_ecx d := 0;
|}.

Definition demo_io : io_apic := IoApic 0xFEC00000 0 24.
Definition demo_bases (b : Z) : Prop := b = 0xFEC00000.
Definition demo_cfg (d : demo_dev) (r : Z * Z) : Z := Z.land (wrap 32 (demo_reg d (snd r))) (rw_mask (snd r)).
Definition demo_start : hw demo_dev := Hw (DemoDev 0 (fun i => if i =? 1 then 0x170011 else 0x10000)) [].

Lemma rw_mask_wrap v i : Z.land (wrap 32 v) (rw_mask i) = Z.land v (rw_mask i).
Proof.
  unfold wrap. rewrite <-Z.land_ones by done. rewrite <-Z.land_assoc. f_equal.
  unfold rw_mask. by destruct (i =? _), (Z.even i).
Qed.

Lemma demo_bus : io_bus demo_bases (fun d _ => demo_sel d) demo_cfg.
Proof.
  constructor; unfold demo_bases.
  - by intros b v d -> _.
  - intros b v d -> Hsel b' i ->. unfold demo_cfg. cbn [snd demo_reg dev_write32 demo_machine].
    change (0xFEC00000 + IOWIN =? 0xFEC00000) with false.
    change (0xFEC00000 + IOWIN =? 0xFEC00010) with true. cbn [demo_reg].
    destruct (Z.eqb_spec i (demo_sel d)) as [->|Hne].
    + rewrite decide_True by done. apply rw_mask_wrap.
    + rewrite decide_False by tauto. done.
  - intros b d ->. split; [done|]. by intros b' i ->.
Qed.

Lemma demo_ok : io_ok demo_bases demo_io.
Proof. done. Qed.

Lemma demo_all : Forall (io_ok demo_bases) [demo_io].
Proof. apply Forall_singleton, demo_ok. Qed.

Lemma redirection_fields_witness :
  set_masked (entry_new 0x21 DELMODE_LOWEST DESTMODE_LOGICAL POLARITY_LOW TRIGGER_LEVEL true 3) false =
  entry_new 0x21 DELMODE_LOWEST DESTMODE_LOGICAL POLARITY_LOW TRIGGER_LEVEL false 3.
Proof.
  apply (redirection_fields 0x21 DELMODE_LOWEST DESTMODE_LOGICAL POLARITY_LOW TRIGGER_LEVEL true 3 false);
    done.
Defined.

Lemma redirection_write_read_witness :
  exists e' d log,
    (write_redirection Debug demo_io 3 (entry_simple 0x21 1);; read_redirection Debug demo_io 3) demo_start =
      Ok (e', Hw d log) /\ entry_vector e' = 0x21.
Proof.
  destruct (redirection_write_read Debug demo_bases _ demo_cfg demo_io 3 (entry_simple 0x21 1) demo_start
    demo_bus demo_ok ltac:(done)) as (e' & d & log & Hwr & _ & (Hv & _) & _).
  exists e', d, log. split; [exact Hwr|exact Hv].
Defined.

Lemma mask_unmask_irq_witness :
  exists d log, unmask_irq Debug demo_io 3 demo_start = Ok (tt, Hw d log) /\ pin demo_cfg d 0xFEC00000 3 = 0.
Proof.
  destruct (proj2 (mask_unmask_irq Debug demo_bases _ demo_cfg demo_io 3 demo_start
    demo_bus demo_ok ltac:(done))) as (d & log & Hm & Hset).
  exists d, log. split; [exact Hm|]. by rewrite Hset.
Defined.

Lemma manager_mask_all_masks_witness :
  exists d log, manager_mask_all Debug [demo_io] demo_start = Ok (tt, Hw d log) /\
    pin demo_cfg d 0xFEC00000 23 = MASKED.
Proof.
  destruct (manager_mask_all_masks Debug demo_bases _ demo_cfg [demo_io] demo_start
    demo_bus demo_all) as (d & log & Hm & Hp).
  exists d, log. split; [exact Hm|]. rewrite Hp by done. rewrite decide_True; [done|].
  apply Exists_cons_hd. split; [reflexivity|]. reflexivity.
Defined.

Lemma route_gsi_routes_witness :
  exists d log, route_gsi Debug [demo_io] 5 0x21 1 demo_start = Ok (tt, Hw d log) /\
    pin demo_cfg d 0xFEC00000 5 = 0x0100000000000021.
Proof.
  destruct (route_gsi_routes Debug demo_bases _ demo_cfg [demo_io] 5 0x21 1 demo_start
    demo_bus demo_all ltac:(done) ltac:(done)) as (d & log & Hm & Hset).
  exists d, log. split; [exact Hm|]. by rewrite Hset.
Defined.

Lemma redirection_bounds_witness :
  mask_irq Debug demo_io 24 demo_start = Panic /\
  write_redirection Debug (IoApic 0xFEC00000 0 240) 120 entry_masked demo_start = Panic.
Proof.
  split.
  - apply (proj1 (redirection_bounds Debug demo_io 24 entry_masked demo_start ltac:(done))). done.
  - apply (proj1 (proj2 (redirection_bounds Debug (IoApic 0xFEC00000 0 240) 120 entry_masked
                           demo_start ltac:(done)))). done.
Defined.

Lemma io_apic_new_entries_witness :
  exists d log, io_apic_new Debug 0xFEC00000 0 demo_start = Ok (demo_io, Hw d log).
Proof.
  destruct (io_apic_new_entries Debug demo_bases _ demo_cfg 0xFEC00000 0 demo_start
    demo_bus ltac:(done)) as (d & log & Hn & _).
  exists d, log. etransitivity; [exact Hn|reflexivity].
Defined.
