(* ===== verification/IoApicConc.v ===== *)
(** * IoApicConc: I/O APICs used by several processors (src/src/ioapic.rs)

    The methods of [IoApic] and [IoApicManager] take [&self], so that
    [SmpController::route_irq] may run on several processors at once, and they have
    no lock. A register access is two accesses to the device, the selection of the
    register and the access to the window, and a redirection entry is two registers.
    Here the methods are written again, as programs of these accesses ([Prog.v]), and
    processors interleave them. *)

From S2P Require Import Prelude Threads Hw Prog IoApic.

(** ** The methods as programs *)

Section programs.
Context (p : profile).
Implicit Types io : io_apic.

Definition c_read_reg io (index : Z) : prog Z :=
  sel ← plift (arith p 64 (base_addr io + IOREGSEL));
  pwrite sel index;;
  win ← plift (arith p 64 (base_addr io + IOWIN));
  pread win.

Definition c_write_reg io (index value : Z) : prog unit :=
  sel ← plift (arith p 64 (base_addr io + IOREGSEL));
  pwrite sel index;;
  win ← plift (arith p 64 (base_addr io + IOWIN));
  pwrite win value.

Definition c_read_redirection io (irq : Z) : prog redirection_entry :=
  passert (irq <? max_entries io);;
  reg_base ← plift (redtbl_index p irq);
  low ← c_read_reg io reg_base;
  reg_next ← plift (arith p 8 (reg_base + 1));
  high ← c_read_reg io reg_next;
  mret (RedirectionEntry (Z.lor low (shl 64 high 32))).

Definition c_write_redirection io (irq : Z) (entry : redirection_entry) : prog unit :=
  passert (irq <? max_entries io);;
  reg_base ← plift (redtbl_index p irq);
  c_write_reg io reg_base (wrap 32 (raw entry));;
  reg_next ← plift (arith p 8 (reg_base + 1));
  c_write_reg io reg_next (wrap 32 (Z.shiftr (raw entry) 32)).

Definition c_route_irq io (gsi vector dest_apic_id : Z) : prog unit :=
  pin ← plift (arith p 32 (gsi - gsi_base io));
  let pin := wrap 8 pin in
  c_write_redirection io pin (entry_simple vector dest_apic_id).

Definition c_mask_irq io (irq : Z) : prog unit :=
  entry ← c_read_redirection io irq;
  c_write_redirection io irq (set_masked entry true).

Definition c_unmask_irq io (irq : Z) : prog unit :=
  entry ← c_read_redirection io irq;
  c_write_redirection io irq (set_masked entry false).

Fixpoint c_mask_each io (pins : list Z) : prog unit :=
  match pins with
  | [] => mret tt
  | i :: pins => c_write_redirection io i entry_masked;; c_mask_each io pins
  end.

Definition c_mask_all io : prog unit := c_mask_each io (seqZ 0 (max_entries io)).

Definition c_route_gsi (m : list io_apic) (gsi vector dest_apic_id : Z) : prog unit :=
  ioapic ← plift (find_for_gsi p m gsi);
  match ioapic with
  | Some io => c_route_irq io gsi vector dest_apic_id
  | None => mret tt
  end.

(** *** Calls *)

(** The methods that change the redirection table. *)
Inductive io_call :=
| RouteIrq (gsi vector dest_apic_id : Z)
| MaskIrq (irq : Z)
| UnmaskIrq (irq : Z)
| MaskAll.

Definition c_io_call io (c : io_call) : prog unit :=
  match c with
  | RouteIrq gsi vector dest => c_route_irq io gsi vector dest
  | MaskIrq irq => c_mask_irq io irq
  | UnmaskIrq irq => c_unmask_irq io irq
  | MaskAll => c_mask_all io
  end.

(** One call after the other. *)
Fixpoint c_io_calls io (cs : list io_call) : prog unit :=
  match cs with
  | [] => mret tt
  | c :: cs => c_io_call io c;; c_io_calls io cs
  end.
End programs.

Definition io_call_alone `{Machine D} (p : profile) (io : io_apic) (c : io_call) : HW D unit :=
  match c with
  | RouteIrq gsi vector dest => route_irq p io gsi vector dest
  | MaskIrq irq => mask_irq p io irq
  | UnmaskIrq irq => unmask_irq p io irq
  | MaskAll => mask_all p io
  end.

(** ** Specification *)

(** What a call makes of the entries of its I/O APIC. *)
Definition io_effect (io : io_apic) (c : io_call) (table : Z -> Z) (n : Z) : Z :=
  match c with
  | RouteIrq gsi vector dest =>
      if n =? gsi - gsi_base io then Z.lor vector (Z.shiftl dest 56) else table n
  | MaskIrq irq => if n =? irq then Z.lor (table n) MASKED else table n
  | UnmaskIrq irq => if n =? irq then Z.land (table n) (bnot 64 MASKED) else table n
  | MaskAll => if n <? max_entries io then MASKED else table n
  end.

Definition io_effects (io : io_apic) (cs : list io_call) (table : Z -> Z) : Z -> Z :=
  foldl (fun table c => io_effect io c table) table cs.

(** Pins that the I/O APIC has. *)
Definition io_call_ok (io : io_apic) (c : io_call) : Prop :=
  match c with
  | RouteIrq gsi vector dest => 0 <= gsi - gsi_base io < max_entries io /\ in_range 8 vector /\ in_range 8 dest
  | MaskIrq irq | UnmaskIrq irq => 0 <= irq < max_entries io
  | MaskAll => True
  end.

(** What [io_bus] leaves open and an interleaving needs: a register stays selected
    until another one is, and accesses to one I/O APIC select nothing in another. *)
Record io_select `{Machine D} (bases : Z -> Prop) (sel : D -> Z -> Z) : Prop := {
  sel_other b v d b' : bases b -> bases b' -> b' <> b -> sel (dev_write32 (b + IOREGSEL) v d) b' = sel d b';
  sel_write b v d b' : bases b -> bases b' -> sel (dev_write32 (b + IOWIN) v d) b' = sel d b';
  sel_read b d b' : bases b -> bases b' -> sel (snd (dev_read32 (b + IOWIN) d)) b' = sel d b';
}.

(** ** Proofs: the programs are the methods *)

Section equations.
Context `{Machine D} (p : profile).
Implicit Types (io : io_apic) (s : hw D).

Lemma prun_read_reg io i s : prun (c_read_reg p io i) s = read_reg p io i s.
Proof. unfold c_read_reg, read_reg. prun_solve. Qed.

Lemma prun_write_reg io i v s : prun (c_write_reg p io i v) s = write_reg p io i v s.
Proof. unfold c_write_reg, write_reg. prun_solve. Qed.
End equations.
#[export] Hint Resolve prun_read_reg prun_write_reg : smp.

Section equations2.
Context `{Machine D} (p : profile).
Implicit Types (io : io_apic) (s : hw D).

Lemma prun_read_redirection io irq s : prun (c_read_redirection p io irq) s = read_redirection p io irq s.
Proof. unfold c_read_redirection, read_redirection. prun_solve. Qed.

Lemma prun_write_redirection io irq e s :
  prun (c_write_redirection p io irq e) s = write_redirection p io irq e s.
Proof. unfold c_write_redirection, write_redirection. prun_solve. Qed.
End equations2.
#[export] Hint Resolve prun_read_redirection prun_write_redirection : smp.

Lemma prun_io_call `{Machine D} p io c (s : hw D) : prun (c_io_call p io c) s = io_call_alone p io c s.
Proof.
  destruct c; simpl.
  - unfold c_route_irq, route_irq. prun_solve.
  - unfold c_mask_irq, mask_irq. prun_solve.
  - unfold c_unmask_irq, unmask_irq. prun_solve.
  - unfold c_mask_all, mask_all. revert s. induction (seqZ 0 (max_entries io)) as [|i pins IH]; intros s; simpl; [done|].
    apply prun_bind_ext; [auto with smp|]. intros _ s'. apply IH.
Qed.

Lemma prun_route_gsi `{Machine D} p m gsi vector dest (s : hw D) :
  prun (c_route_gsi p m gsi vector dest) s = route_gsi p m gsi vector dest s.
Proof.
  unfold c_route_gsi, route_gsi. apply prun_bind_ext; [auto with smp|]. intros [io|] s'; [|done].
  apply (prun_io_call p io (RouteIrq gsi vector dest)).
Qed.

(** ** Proofs: one I/O APIC, whatever is done to the others

    [wp b c Q d]: from [d] on, program [c] accesses only the I/O APIC at [b], and
    returns [a] in a state [d'] with [Q a d'] only, even if anything happens to
    the rest of the machine between its accesses. *)
Section wp.
Context `{Machine D} (sel : D -> Z -> Z) (cfg : D -> Z * Z -> Z).
Implicit Types (b : Z) (d : D).

(** The same as far as the I/O APIC at [b] goes. *)
Definition agree b d d' : Prop := sel d' b = sel d b /\ forall i, cfg d' (b, i) = cfg d (b, i).

#[global] Instance agree_equivalence b : Equivalence (agree b).
Proof.
  split.
  - intros d. done.
  - intros d d' [Hs Hc]. split; [done|]. intros i. by rewrite Hc.
  - intros d d' d'' [Hs Hc] [Hs' Hc']. split; [congruence|]. intros i. by rewrite Hc'.
Qed.

(** What a write to the window of [b] does to it. *)
Definition written b (v : Z) d d' : Prop :=
  sel d' b = sel d b /\ forall i, cfg d' (b, i) = if decide (i = sel d b) then Z.land v (rw_mask i) else cfg d (b, i).

Definition selected b (v : Z) d d' : Prop := sel d' b = v /\ forall i, cfg d' (b, i) = cfg d (b, i).

Fixpoint wp {A} b (c : prog A) (Q : A -> D -> Prop) (d : D) : Prop :=
  match c with
  | PDone a => Q a d
  | PRead addr k =>
      addr = b + IOWIN /\
      forall v d', in_range 32 v -> Z.land v (rw_mask (sel d b)) = cfg d (b, sel d b) -> agree b d d' -> wp b (k v) Q d'
  | PWrite addr v k =>
      (addr = b + IOREGSEL /\ in_range 8 v /\ forall d', selected b v d d' -> wp b k Q d') \/
      (addr = b + IOWIN /\ REG_REDTBL_BASE <= sel d b /\ forall d', written b v d d' -> wp b k Q d')
  | _ => False
  end.

(** A condition on the I/O APIC at [b] only. *)
Definition stable {A} b (Q : A -> D -> Prop) : Prop := forall a d d', agree b d d' -> Q a d -> Q a d'.

Lemma wp_stable {A} b (c : prog A) Q d d' : stable b Q -> agree b d d' -> wp b c Q d -> wp b c Q d'.
Proof.
  intros HQ Hd. destruct c as [a| | |addr k|addr v k|msr k|msr v k]; try done; simpl.
  - by apply HQ.
  - intros [Haddr Hk]. split; [done|]. intros v d1 Hv Hc Hd1. pose proof Hd as [Hs Hcfg].
    apply (Hk v); [done|by rewrite <-Hs, <-Hcfg|by etrans].
  - pose proof Hd as [Hs Hcfg]. intros [(Haddr & Hv & Hk)|(Haddr & Hsel & Hk)]; [left|right].
    + split_and!; [done|done|]. intros d1 [H1 H2]. apply Hk. split; [done|]. intros i. by rewrite H2.
    + split_and!; [done|by rewrite Hs|]. intros d1 [H1 H2]. apply Hk. split; [by rewrite H1|].
      intros i. by rewrite H2, Hs, Hcfg.
Qed.

Lemma wp_mono {A} b (c : prog A) (Q Q' : A -> D -> Prop) d :
  (forall a d', Q a d' -> Q' a d') -> wp b c Q d -> wp b c Q' d.
Proof.
  intros HQ. revert d. induction c as [a| | |addr k IH|addr v k IH|msr k IH|msr v k IH]; intros d; simpl; try done.
  - apply HQ.
  - intros [Ha Hk]. split; [done|]. intros v d' Hv Hc Hd. apply IH. by apply Hk.
  - intros [(Ha & Hv & Hk)|(Ha & Hs & Hk)]; [left|right]; (split_and!; [done..|]); intros d' Hd'; apply IH; by apply Hk.
Qed.

Lemma wp_bind {A B} b (c : prog A) (f : A -> prog B) Q d :
  wp b c (fun a d' => wp b (f a) Q d') d -> wp b (c ≫= f) Q d.
Proof.
  revert d. induction c as [a| | |addr k IH|addr v k IH|msr k IH|msr v k IH]; intros d; try done.
  - intros [Ha Hk]. split; [done|]. intros v d' Hv Hc Hd. apply IH. by apply Hk.
  - intros [(Ha & Hv & Hk)|(Ha & Hs & Hk)]; [left|right]; (split_and!; [done..|]); intros d' Hd'; apply IH; by apply Hk.
Qed.

Lemma wp_lift {A} b (r : res A) a Q d : r = Ok a -> Q a d -> wp b (plift r) Q d.
Proof. by intros ->. Qed.

Lemma wp_assert b (t : bool) (Q : unit -> D -> Prop) d : t = true -> Q tt d -> wp b (passert t) Q d.
Proof. by intros ->. Qed.
End wp.

(** *** The methods *)

Section methods.
Context `{Machine D} (p : profile) (bases : Z -> Prop) (sel : D -> Z -> Z) (cfg : D -> Z * Z -> Z).
Implicit Types (io : io_apic) (d : D).

Lemma wp_select_reg {B} io index (f : Z -> prog B) Q d :
  io_mapped bases io -> in_range 8 index ->
  (forall d', selected sel cfg (base_addr io) index d d' -> wp sel cfg (base_addr io) (f (base_addr io + IOWIN)) Q d') ->
  wp sel cfg (base_addr io)
    (s ← plift (arith p 64 (base_addr io + IOREGSEL)); pwrite s index;;
     win ← plift (arith p 64 (base_addr io + IOWIN)); f win) Q d.
Proof.
  intros (_ & Hlo & Hhi) Hi Hf.
  apply wp_bind, (wp_lift _ _ _ _ (base_addr io + IOREGSEL)); [apply arith_in_range; by rewrite Z.add_0_r|].
  apply wp_bind. left. split_and!; [done|done|]. intros d' Hd'.
  apply wp_bind, (wp_lift _ _ _ _ (base_addr io + IOWIN)); [by apply arith_in_range|]. by apply Hf.
Qed.

Lemma wp_write_reg io index v Q d :
  io_mapped bases io -> REG_REDTBL_BASE <= index < 256 ->
  (forall d', (forall i, cfg d' (base_addr io, i) =
     if decide (i = index) then Z.land v (rw_mask i) else cfg d (base_addr io, i)) -> Q tt d') ->
  wp sel cfg (base_addr io) (c_write_reg p io index v) Q d.
Proof.
  intros Hm Hi HQ. apply wp_select_reg; [done|unfold in_range, REG_REDTBL_BASE in *; lia|].
  intros d1 [Hs Hc]. right. split_and!; [done|rewrite Hs; lia|]. intros d2 [_ Hw]. apply HQ. intros i.
  by rewrite Hw, Hs, Hc.
Qed.

Lemma wp_read_reg io index Q d :
  io_mapped bases io -> in_range 8 index ->
  (forall v d', in_range 32 v -> Z.land v (rw_mask index) = cfg d (base_addr io, index) ->
     (forall i, cfg d' (base_addr io, i) = cfg d (base_addr io, i)) -> Q v d') ->
  wp sel cfg (base_addr io) (c_read_reg p io index) Q d.
Proof.
  intros Hm Hi HQ. apply wp_select_reg; [done|done|].
  intros d1 [Hs Hc]. split; [done|]. intros v d2 Hv Hrw [_ Hc2]. rewrite Hs, Hc in Hrw.
  apply (HQ v); [done|done|]. intros i. by rewrite Hc2, Hc.
Qed.

(** The table of the I/O APIC is [t], at the pins. *)
Definition table_is io (t : Z -> Z) d : Prop := forall n, 0 <= n -> pin cfg d (base_addr io) n = t n.

Lemma wp_write_redirection io irq e t Q d :
  io_ok bases io -> 0 <= irq < max_entries io -> table_is io t d ->
  (forall d', table_is io (fun n => if n =? irq then Z.land (raw e) RW_MASK else t n) d' -> Q tt d') ->
  wp sel cfg (base_addr io) (c_write_redirection p io irq e) Q d.
Proof.
  intros Hok Hirq Ht HQ. assert (0 <= irq < 120) by (destruct Hok as (_ & _ & _ & ?); lia). pose proof (proj1 Hok) as Hm.
  apply wp_bind, wp_assert; [apply Z.ltb_lt; lia|].
  apply wp_bind, (wp_lift _ _ _ _ (REG_REDTBL_BASE + 2 * irq)); [by apply redtbl_index_ok|].
  apply wp_bind, wp_write_reg; [done|unfold REG_REDTBL_BASE; lia|]. intros d1 H1.
  apply wp_bind, (wp_lift _ _ _ _ (REG_REDTBL_BASE + 2 * irq + 1)).
  { apply arith_in_range. unfold in_range, REG_REDTBL_BASE. lia. }
  apply wp_write_reg; [done|unfold REG_REDTBL_BASE; lia|]. intros d2 H2. apply HQ. intros n Hn.
  unfold pin. rewrite !H2, !H1. destruct (Z.eqb_spec n irq) as [->|Hne].
  - rewrite decide_False by lia. rewrite !decide_True by done. rewrite rw_mask_even, rw_mask_odd by lia. apply entry_written.
  - rewrite !decide_False by lia. by apply Ht.
Qed.

Lemma wp_read_redirection io irq t Q d :
  io_ok bases io -> 0 <= irq < max_entries io -> table_is io t d ->
  (forall e d', table_is io t d' -> Z.land (raw e) RW_MASK = t irq -> Q e d') ->
  wp sel cfg (base_addr io) (c_read_redirection p io irq) Q d.
Proof.
  intros Hok Hirq Ht HQ. assert (0 <= irq < 120) by (destruct Hok as (_ & _ & _ & ?); lia). pose proof (proj1 Hok) as Hm.
  apply wp_bind, wp_assert; [apply Z.ltb_lt; lia|].
  apply wp_bind, (wp_lift _ _ _ _ (REG_REDTBL_BASE + 2 * irq)); [by apply redtbl_index_ok|].
  apply wp_bind, wp_read_reg; [done|unfold in_range, REG_REDTBL_BASE; lia|]. intros v1 d1 Hv1 Hr1 H1.
  apply wp_bind, (wp_lift _ _ _ _ (REG_REDTBL_BASE + 2 * irq + 1)).
  { apply arith_in_range. unfold in_range, REG_REDTBL_BASE. lia. }
  apply wp_bind, wp_read_reg; [done|unfold in_range, REG_REDTBL_BASE; lia|]. intros v2 d2 Hv2 Hr2 H2.
  rewrite rw_mask_even in Hr1 by lia. rewrite rw_mask_odd, H1 in Hr2 by lia. apply HQ.
  - intros n Hn. unfold pin. rewrite !H2, !H1. by apply Ht.
  - cbn [raw]. rewrite entry_read, Hr1, Hr2 by done. apply (Ht irq). lia.
Qed.

Lemma wp_change_redirection io irq (f : redirection_entry -> redirection_entry) (g : Z -> Z) t Q d :
  io_ok bases io -> 0 <= irq < max_entries io -> table_is io t d ->
  (forall e, Z.land (raw (f e)) RW_MASK = g (Z.land (raw e) RW_MASK)) ->
  (forall d', table_is io (fun n => if n =? irq then g (t n) else t n) d' -> Q tt d') ->
  wp sel cfg (base_addr io) (e ← c_read_redirection p io irq; c_write_redirection p io irq (f e)) Q d.
Proof.
  intros Hok Hirq Ht Hf HQ. eapply wp_bind, wp_read_redirection; [done..|]. intros e d1 H1 He.
  eapply wp_write_redirection; [done..|]. intros d2 H2. apply HQ. intros n Hn. rewrite H2 by done.
  destruct (Z.eqb_spec n irq) as [->|]; [by rewrite Hf, He|done].
Qed.

Lemma wp_mask_each io pins t Q d :
  io_ok bases io -> Forall (fun i => 0 <= i < max_entries io) pins -> table_is io t d ->
  (forall d', table_is io (fun n => if bool_decide (n ∈ pins) then MASKED else t n) d' -> Q tt d') ->
  wp sel cfg (base_addr io) (c_mask_each p io pins) Q d.
Proof.
  intros Hok Hall. revert t d. induction Hall as [|i pins Hi _ IH]; intros t d Ht HQ.
  - apply HQ. intros n Hn. rewrite bool_decide_false by apply not_elem_of_nil. by apply Ht.
  - eapply wp_bind, wp_write_redirection; [done..|]. intros d1 H1. eapply IH; [exact H1|].
    intros d2 H2. apply HQ. intros n Hn. rewrite H2 by done.
    change (Z.land (raw entry_masked) RW_MASK) with MASKED.
    destruct (Z.eqb_spec n i) as [->|]; repeat case_bool_decide; set_solver.
Qed.

(** Every call has its effect. *)
Lemma wp_io_call io c t Q d :
  io_ok bases io -> io_call_ok io c -> table_is io t d ->
  (forall d', table_is io (io_effect io c t) d' -> Q tt d') ->
  wp sel cfg (base_addr io) (c_io_call p io c) Q d.
Proof.
  intros Hok Hc Ht HQ. pose proof Hok as (_ & Hg & Hlim & Hmax). destruct c as [gsi vector dest|irq|irq|]; simpl in *.
  - destruct Hc as (Hpin & Hv & Hd).
    apply wp_bind, (wp_lift _ _ _ _ (gsi - gsi_base io)); [apply arith_in_range; unfold in_range; lia|].
    rewrite wrap_small by (unfold in_range; lia). apply (wp_write_redirection _ _ _ t); [done|lia|done|].
    rewrite simple_rw by done. exact HQ.
  - apply (wp_change_redirection _ _ _ (fun x => Z.lor x MASKED) t); [done|done|done| |exact HQ].
    intros e. by rewrite set_masked_rw.
  - apply (wp_change_redirection _ _ _ (fun x => Z.land x (bnot 64 MASKED)) t); [done|done|done| |exact HQ].
    intros e. by rewrite set_masked_rw.
  - eapply wp_mask_each; [done| |done|].
    + apply Forall_forall. intros i Hi. apply elem_of_seqZ in Hi. lia.
    + intros d' Hd'. apply HQ. intros n Hn. rewrite Hd' by done.
      assert (Hin : n ∈ seqZ 0 (max_entries io) <-> n < max_entries io) by (rewrite elem_of_seqZ; lia).
      simpl. destruct (Z.ltb_spec n (max_entries io)); case_bool_decide; naive_solver lia.
Qed.

Lemma wp_io_calls io cs t Q d :
  io_ok bases io -> Forall (io_call_ok io) cs -> table_is io t d ->
  (forall d', table_is io (io_effects io cs t) d' -> Q tt d') ->
  wp sel cfg (base_addr io) (c_io_calls p io cs) Q d.
Proof.
  intros Hok Hall. revert t d. induction Hall as [|c cs Hc _ IH]; intros t d Ht HQ; [by apply HQ|].
  eapply wp_bind, wp_io_call; [done..|]. intros d1 H1. by eapply IH.
Qed.
End methods.

(** ** Proofs: several processors *)

Section machine.
Context `{Machine D} (p : profile) (bases : Z -> Prop) (sel : D -> Z -> Z) (cfg : D -> Z * Z -> Z).
Context (Hbus : io_bus bases sel cfg) (Hsel : io_select bases sel).
Implicit Types (d : D) (b : Z).

Lemma select_selected b v d :
  bases b -> in_range 8 v -> selected sel cfg b v d (dev_write32 (b + IOREGSEL) v d).
Proof.
  intros Hb Hv. destruct (bus_select _ _ _ Hbus b v d Hb Hv) as [Hs Hc]. split; [done|]. intros i. by apply Hc.
Qed.

Lemma select_agree b v d b' :
  bases b -> bases b' -> b' <> b -> in_range 8 v -> agree sel cfg b' d (dev_write32 (b + IOREGSEL) v d).
Proof.
  intros Hb Hb' Hne Hv. split; [by apply Hsel|]. intros i. by apply (bus_select _ _ _ Hbus).
Qed.

Lemma write_written b v d :
  bases b -> REG_REDTBL_BASE <= sel d b -> written sel cfg b v d (dev_write32 (b + IOWIN) v d).
Proof.
  intros Hb Hs. split; [by apply Hsel|]. intros i. rewrite (bus_write _ _ _ Hbus) by done.
  repeat case_decide; naive_solver.
Qed.

Lemma write_agree b v d b' :
  bases b -> bases b' -> b' <> b -> REG_REDTBL_BASE <= sel d b -> agree sel cfg b' d (dev_write32 (b + IOWIN) v d).
Proof.
  intros Hb Hb' Hne Hs. split; [by apply Hsel|]. intros i. rewrite (bus_write _ _ _ Hbus) by done.
  by rewrite decide_False by tauto.
Qed.

Lemma read_agree b d b' :
  bases b -> bases b' -> agree sel cfg b' d (snd (dev_read32 (b + IOWIN) d)).
Proof. intros Hb Hb'. split; [by apply Hsel|]. intros i. by apply (bus_read _ _ _ Hbus). Qed.

(** An access of a program that is right for the I/O APIC at [b]. *)
Lemma wp_prog_step {A} b (c c' : prog A) Q d d' a :
  bases b -> wp sel cfg b c Q d -> prog_step c d = Some (c', d', a) ->
  wp sel cfg b c' Q d' /\ forall b', bases b' -> b' <> b -> agree sel cfg b' d d'.
Proof.
  intros Hb Hwp Hs. destruct c as [| | |addr k|addr v k|msr k|msr v k]; simpl in Hwp, Hs; try done.
  - destruct Hwp as [-> Hk]. pose proof (bus_read _ _ _ Hbus b d Hb) as [Hv _].
    pose proof (read_agree b d) as Hagree. destruct (dev_read32 (b + IOWIN) d) as [v d1]. simplify_eq. simpl in *.
    split; [|by auto]. apply (Hk (wrap 32 v)); [by apply wrap_range|done|by apply Hagree].
  - simplify_eq. destruct Hwp as [(-> & Hv & Hk)|(-> & Hr & Hk)].
    + split; [by apply Hk, select_selected|]. intros b' Hb' Hne. by apply select_agree.
    + split; [by apply Hk, write_written|]. intros b' Hb' Hne. by apply write_agree.
Qed.

Lemma wp_next {A} b (c : prog A) Q d :
  wp sel cfg b c Q d -> (exists a, c = PDone a) \/ is_Some (prog_step c d).
Proof.
  destruct c as [a| | |addr k|addr v k|msr k|msr v k]; intros Hwp; try done; [left; by eexists|right..].
  - simpl. destruct (dev_read32 addr d). by eexists.
  - by eexists.
Qed.

(** Processor [t] makes the calls [snd (ios !! t)] on the I/O APIC [fst (ios !! t)],
    from the machine state [d]. *)
Definition io_start (ios : list (io_apic * list io_call)) d : sys D (prog unit) :=
  Sys d (map (fun x => c_io_calls p (fst x) (snd x)) ios).

Definition io_base (x : io_apic * list io_call) : Z := base_addr (fst x).

Definition io_post d (x : io_apic * list io_call) (_ : unit) (d' : D) : Prop :=
  table_is cfg (fst x) (io_effects (fst x) (snd x) (pin cfg d (io_base x))) d'.

Record io_inv (ios : list (io_apic * list io_call)) d (s : sys D (prog unit)) : Prop := {
  ii_length : length (locals s) = length ios;
  ii_calls t x c : ios !! t = Some x -> locals s !! t = Some c ->
    wp sel cfg (io_base x) c (io_post d x) (shared s);
  ii_rest b : bases b -> b ∉ map io_base ios -> agree sel cfg b d (shared s);
}.

Section invariant.
Context (ios : list (io_apic * list io_call)) (d0 : D).
Context (Hdis : NoDup (map io_base ios)).
Context (Hok : Forall (fun x => io_ok bases (fst x) /\ Forall (io_call_ok (fst x)) (snd x)) ios).

Lemma io_post_stable x : stable sel cfg (io_base x) (io_post d0 x).
Proof.
  intros a d d' [_ Hc] HQ n Hn. rewrite <-(HQ n Hn). unfold pin. unfold io_base in Hc. by rewrite !Hc.
Qed.

Lemma ios_base t x : ios !! t = Some x -> bases (io_base x).
Proof. intros Hx. destruct (Forall_lookup_1 _ _ _ _ Hok Hx) as [((Hb & _) & _) _]. exact Hb. Qed.

Lemma io_inv_start : io_inv ios d0 (io_start ios d0).
Proof.
  constructor; simpl.
  - apply length_map.
  - intros t x c Hx Hc.
    change (((fun x => c_io_calls p (fst x) (snd x)) <$> ios) !! t = Some c) in Hc.
    rewrite list_lookup_fmap, Hx in Hc. injection Hc as <-.
    destruct (Forall_lookup_1 _ _ _ _ Hok Hx) as [Hio Hcs].
    apply (wp_io_calls p bases sel cfg (fst x) (snd x) (pin cfg d0 (io_base x))); [done|done| |].
    + by intros n Hn.
    + by intros d' Hd'.
  - done.
Qed.

Lemma io_inv_step s e s' : io_inv ios d0 s -> prog_machine unit s e s' -> io_inv ios d0 s'.
Proof.
  intros Hinv Hstep. destruct e as [t a]. apply step_inv in Hstep as (c & u & d' & c' & Hc & Hact & ->).
  unfold prog_act in Hact. destruct (prog_step c (shared s)) as [[[c1 d1] a1]|] eqn:Hs; [|done]. simpl in Hact. simplify_eq.
  destruct (lookup_lt_is_Some_2 ios t) as [x Hx].
  { rewrite <-(ii_length _ _ _ Hinv). by eapply lookup_lt_Some. }
  pose proof (ios_base t x Hx) as Hb.
  destruct (wp_prog_step _ _ _ _ _ _ _ Hb (ii_calls _ _ _ Hinv t x c Hx Hc) Hs) as [Hwp Hoth].
  constructor; cbn [shared locals].
  - rewrite length_insert. apply Hinv.
  - intros u' x' c2 Hx' [(-> & <- & _)|[Hne Hc2]]%list_lookup_insert_Some; [by simplify_eq|].
    eapply wp_stable; [apply io_post_stable| |by eapply ii_calls]. apply Hoth; [by eapply ios_base|].
    intros Heq. apply Hne. eapply (NoDup_lookup _ _ _ (io_base x) Hdis).
    + by rewrite list_lookup_fmap, Hx.
    + rewrite list_lookup_fmap, Hx'. simpl. by rewrite Heq.
  - intros b Hbb Hnot. etrans; [by apply (ii_rest _ _ _ Hinv)|]. apply Hoth; [done|]. intros ->. apply Hnot.
    apply list_elem_of_fmap_2. by eapply list_elem_of_lookup_2.
Qed.

Lemma io_inv_trace tr s : trace (prog_machine unit) (io_start ios d0) tr s -> io_inv ios d0 s.
Proof. intros Htr. exact (trace_invariant_plain _ _ _ _ _ io_inv_step Htr io_inv_start). Qed.
End invariant.
End machine.

(** *** Two processors and one I/O APIC *)

Lemma simple_low vector dest :
  in_range 8 vector -> in_range 8 dest -> Z.land (wrap 32 (raw (entry_simple vector dest))) 0x1AFFF = vector.
Proof.
  intros Hv Hd. rewrite rw_mask_low. unfold entry_simple, entry_new. cbn [raw].
  change DELMODE_FIXED with 0. change DESTMODE_PHYSICAL with 0. change POLARITY_HIGH with 0.
  change TRIGGER_EDGE with 0. rewrite !Z.lor_0_r, Z.land_lor_distr_l.
  rewrite (land_field vector _ _ (land_byte _ Hv)), (land_field (shl 64 dest 56) _ _ (land_byte_56 _ Hd)).
  eval_masks. by rewrite Z.land_0_r, Z.lor_0_r, land_byte.
Qed.

Lemma simple_high vector dest :
  in_range 8 vector -> in_range 8 dest ->
  Z.shiftl (Z.land (wrap 32 (Z.shiftr (raw (entry_simple vector dest)) 32)) 0xFF000000) 32 = Z.shiftl dest 56.
Proof.
  intros Hv Hd. rewrite rw_mask_high. unfold entry_simple, entry_new. cbn [raw].
  change DELMODE_FIXED with 0. change DESTMODE_PHYSICAL with 0. change POLARITY_HIGH with 0.
  change TRIGGER_EDGE with 0. rewrite !Z.lor_0_r, Z.land_lor_distr_l.
  rewrite (land_field vector _ _ (land_byte _ Hv)). eval_masks. rewrite Z.land_0_r, Z.lor_0_l, land_byte_56 by done.
  unfold shl. apply wrap_small. unfold in_range in *. rewrite Z.shiftl_mul_pow2 by lia. lia.
Qed.

Section race.
Context `{Machine D} (p : profile) (bases : Z -> Prop) (sel : D -> Z -> Z) (cfg : D -> Z * Z -> Z).
Context (Hbus : io_bus bases sel cfg) (Hsel : io_select bases sel).

(** The four accesses of [route_gsi]. *)
Lemma route_gsi_accesses m io gsi vector dest :
  Forall (io_ok bases) m -> List.find (covers gsi) m = Some io ->
  let n := gsi - gsi_base io in let e := raw (entry_simple vector dest) in let b := base_addr io in
  io_ok bases io /\ 0 <= n < max_entries io /\
  c_route_gsi p m gsi vector dest =
    PWrite (b + IOREGSEL) (REG_REDTBL_BASE + 2 * n) (PWrite (b + IOWIN) (wrap 32 e)
      (PWrite (b + IOREGSEL) (REG_REDTBL_BASE + 2 * n + 1) (PWrite (b + IOWIN) (wrap 32 (Z.shiftr e 32)) (PDone tt)))).
Proof.
  intros Hall Hfind n e b. unfold c_route_gsi. rewrite (find_for_gsi_ok p bases) by done. rewrite Hfind.
  apply List.find_some in Hfind as [Hin%list_elem_of_In [Hlo Hhi]%andb_true_iff].
  pose proof (proj1 (Forall_forall _ _) Hall io Hin) as Hok. pose proof Hok as ((_ & Hb & Hw) & Hg & Hlim & Hmax).
  assert (Hn : 0 <= n < max_entries io) by (unfold n; lia). split; [done|]. split; [done|].
  unfold c_route_irq. cbn [plift mbind prog_bind].
  rewrite arith_in_range by (unfold in_range; lia). cbn [plift mbind prog_bind]. fold n. rewrite wrap_small by (unfold in_range; lia).
  unfold c_write_redirection. rewrite (proj2 (Z.ltb_lt n (max_entries io))) by lia. rewrite redtbl_index_ok by lia.
  unfold c_write_reg. rewrite (arith_in_range p 64 (base_addr io + IOREGSEL)) by (by rewrite Z.add_0_r).
  rewrite (arith_in_range p 64 (base_addr io + IOWIN)) by done.
  cbn [plift passert mbind prog_bind pwrite]. rewrite (arith_in_range p 8) by (unfold in_range, REG_REDTBL_BASE; lia).
  done.
Qed.

(** The registers after the accesses of two calls, the selections of the low halves
    first. *)
Definition raced_device b l1 v1 w1 l2 v2 w2 (d : D) : D :=
  foldl (fun d a => dev_write32 (fst a) (snd a) d) d
    [(b + IOREGSEL, l1); (b + IOREGSEL, l2); (b + IOWIN, v2); (b + IOWIN, v1);
     (b + IOREGSEL, l1 + 1); (b + IOWIN, w1); (b + IOREGSEL, l2 + 1); (b + IOWIN, w2)].

Lemma written_after_select b i v (d : D) :
  bases b -> REG_REDTBL_BASE <= i < 256 ->
  let d' := dev_write32 (b + IOWIN) v (dev_write32 (b + IOREGSEL) i d) in
  sel d' b = i /\ forall j, cfg d' (b, j) = if decide (j = i) then Z.land v (rw_mask j) else cfg d (b, j).
Proof.
  intros Hb Hi d'. destruct (select_selected bases sel cfg Hbus b i d Hb) as [Hs Hc].
  { unfold in_range, REG_REDTBL_BASE in *. lia. }
  destruct (write_written bases sel cfg Hbus Hsel b v (dev_write32 (b + IOREGSEL) i d) Hb) as [Hs' Hc']; [rewrite Hs; lia|].
  split; [unfold d'; congruence|]. intros j. unfold d'. by rewrite Hc', Hs, Hc.
Qed.

Lemma raced_registers b l1 v1 w1 l2 v2 w2 (d : D) i :
  bases b -> REG_REDTBL_BASE <= l1 < 255 -> REG_REDTBL_BASE <= l2 < 255 ->
  cfg (raced_device b l1 v1 w1 l2 v2 w2 d) (b, i) =
  if decide (i = l2 + 1) then Z.land w2 (rw_mask i) else if decide (i = l1 + 1) then Z.land w1 (rw_mask i)
  else if decide (i = l2) then Z.land v1 (rw_mask i) else cfg d (b, i).
Proof.
  intros Hb H1 H2. unfold raced_device. cbn [foldl fst snd].
  set (d1 := dev_write32 (b + IOREGSEL) l1 d).
  destruct (written_after_select b l2 v2 d1 Hb ltac:(lia)) as [Hs3 Hc3].
  set (d3 := dev_write32 (b + IOWIN) v2 _) in *.
  destruct (write_written bases sel cfg Hbus Hsel b v1 d3 Hb) as [_ Hc4]; [rewrite Hs3; lia|].
  set (d4 := dev_write32 (b + IOWIN) v1 d3) in *.
  destruct (written_after_select b (l1 + 1) w1 d4 Hb ltac:(lia)) as [_ Hc6].
  set (d6 := dev_write32 (b + IOWIN) w1 _) in *.
  destruct (written_after_select b (l2 + 1) w2 d6 Hb ltac:(lia)) as [_ Hc8].
  destruct (select_selected bases sel cfg Hbus b l1 d Hb) as [_ Hc1]; [unfold in_range, REG_REDTBL_BASE in *; lia|].
  rewrite Hc8, Hc6, Hc4, Hs3, Hc3. fold d1 in Hc1. rewrite Hc1. repeat case_decide; done.
Qed.
End race.

(** ** Properties *)

(** C16: I/O APICs are independent. Processors that each make any calls on an I/O
    APIC of their own, interleaved at the accesses to the devices, disturb nobody:
    none panics; when a processor has finished, the table of its I/O APIC is what
    its calls, one after the other, make of the old one; an I/O APIC that none of
    them uses is untouched; every processor that has not finished can make its next
    access; and all of them finish. The programs that are interleaved execute, when
    alone, to the methods of the driver. *)
Theorem io_calls_independent `{Machine D} p bases sel cfg ios d tr s :
  io_bus bases sel cfg -> io_select bases sel -> NoDup (map io_base ios) ->
  Forall (fun x => io_ok bases (fst x) /\ Forall (io_call_ok (fst x)) (snd x)) ios ->
  trace (prog_machine unit) (io_start p ios d) tr s ->
  (forall io c h, prun (c_io_call p io c) h = io_call_alone p io c h) /\
  (forall t x, ios !! t = Some x -> locals s !! t = Some (PDone tt) ->
     forall n, 0 <= n ->
       pin cfg (shared s) (io_base x) n = io_effects (fst x) (snd x) (pin cfg d (io_base x)) n) /\
  (forall b n, bases b -> b ∉ map io_base ios -> pin cfg (shared s) b n = pin cfg d b n) /\
  (forall t c, locals s !! t = Some c ->
     c = PDone tt \/ exists e s', prog_machine unit s (t, e) s') /\
  Acc (fun s' s => exists e, prog_machine unit s e s') s.
Proof.
  intros Hbus Hsel Hdis Hok Htr. pose proof (io_inv_trace p bases sel cfg Hbus Hsel ios d Hdis Hok tr s Htr) as Hinv.
  split; [apply prun_io_call|]. split_and!.
  - intros t x Hx Hc. exact (ii_calls _ _ _ _ _ _ Hinv t x _ Hx Hc).
  - intros b n Hb Hn. destruct (ii_rest _ _ _ _ _ _ Hinv b Hb Hn) as [_ Hc]. unfold pin. by rewrite !Hc.
  - intros t c Hc. destruct (lookup_lt_is_Some_2 ios t) as [x Hx].
    { rewrite <-(ii_length _ _ _ _ _ _ Hinv). by eapply lookup_lt_Some. }
    destruct (wp_next sel cfg _ _ _ _ (ii_calls _ _ _ _ _ _ Hinv t x c Hx Hc)) as [[[] ->]|[[[c' d'] a] Hs]]; [by left|right].
    exists a, (Sys d' (<[t := c']> (locals s))). destruct s as [ds cs]. apply (step_act _ ds cs t c tt); [exact Hc|].
    unfold prog_act. simpl in Hs. by rewrite Hs.
  - apply prog_machine_acc.
Qed.

(** C18: one I/O APIC may not be used by two processors at once, and nothing in the
    driver prevents it. Two processors that route two interrupts of the same I/O
    APIC can both finish and leave the second interrupt with the vector of the
    first, while the mask and the vector of the first are as before, so that after
    [mask_all] it stays masked. The programs execute, when alone, to [route_gsi]. *)
Theorem route_gsi_race `{Machine D} p bases sel cfg m io gsi1 vector1 dest1 gsi2 vector2 dest2 d :
  io_bus bases sel cfg -> io_select bases sel -> Forall (io_ok bases) m ->
  List.find (covers gsi1) m = Some io -> List.find (covers gsi2) m = Some io -> gsi1 <> gsi2 ->
  in_range 8 vector1 -> in_range 8 dest1 -> in_range 8 vector2 -> in_range 8 dest2 ->
  let b := base_addr io in let n1 := gsi1 - gsi_base io in let n2 := gsi2 - gsi_base io in
  (forall gsi vector dest h, prun (c_route_gsi p m gsi vector dest) h = route_gsi p m gsi vector dest h) /\
  exists tr s,
    trace (prog_machine unit)
      (Sys d [c_route_gsi p m gsi1 vector1 dest1; c_route_gsi p m gsi2 vector2 dest2]) tr s /\
    locals s = [PDone tt; PDone tt] /\
    pin cfg (shared s) b n2 = Z.lor vector1 (Z.shiftl dest2 56) /\
    pin cfg (shared s) b n1 = Z.lor (cfg d (b, REG_REDTBL_BASE + 2 * n1)) (Z.shiftl dest1 56).
Proof.
  intros Hbus Hsel Hall Hf1 Hf2 Hne Hv1 Hd1 Hv2 Hd2 b n1 n2. split; [apply prun_route_gsi|].
  destruct (route_gsi_accesses p bases m io gsi1 vector1 dest1 Hall Hf1) as (Hok & Hn1 & ->).
  destruct (route_gsi_accesses p bases m io gsi2 vector2 dest2 Hall Hf2) as (_ & Hn2 & ->).
  fold n1 n2 b in Hn1, Hn2 |- *. pose proof Hok as ((Hb & _ & _) & _ & _ & Hmax).
  set (e1 := raw (entry_simple vector1 dest1)). set (e2 := raw (entry_simple vector2 dest2)).
  set (l1 := REG_REDTBL_BASE + 2 * n1). set (l2 := REG_REDTBL_BASE + 2 * n2).
  exists [(0%nat, MmioWrite (b + IOREGSEL) l1); (1%nat, MmioWrite (b + IOREGSEL) l2); (1%nat, MmioWrite (b + IOWIN) (wrap 32 e2));
          (0%nat, MmioWrite (b + IOWIN) (wrap 32 e1)); (0%nat, MmioWrite (b + IOREGSEL) (l1 + 1));
          (0%nat, MmioWrite (b + IOWIN) (wrap 32 (Z.shiftr e1 32))); (1%nat, MmioWrite (b + IOREGSEL) (l2 + 1));
          (1%nat, MmioWrite (b + IOWIN) (wrap 32 (Z.shiftr e2 32)))].
  exists (Sys (raced_device b l1 (wrap 32 e1) (wrap 32 (Z.shiftr e1 32)) l2 (wrap 32 e2) (wrap 32 (Z.shiftr e2 32)) d) [PDone tt; PDone tt]).
  split; [|split; [done|]].
  { apply (run_trace _ _ (map (fun t => (t, tt)) [0; 1; 1; 0; 0; 0; 1; 1]%nat)). reflexivity. }
  cbn [shared]. unfold pin. fold l1 l2. assert (l1 <> l2) by (unfold l1, l2, n1, n2; lia).
  rewrite !(raced_registers bases sel cfg Hbus Hsel) by (done || (unfold l1, l2, REG_REDTBL_BASE; lia)).
  rewrite !(decide_False (P := l2 = _)) by (unfold l1, l2; lia). rewrite !(decide_False (P := l1 = _)) by (unfold l1, l2; lia).
  rewrite !decide_True by done. rewrite decide_False by (unfold l1, l2, n1, n2; lia). rewrite decide_True by done.
  unfold l1, l2. rewrite !rw_mask_even, !rw_mask_odd by lia.
  unfold e1, e2. rewrite simple_low, !simple_high by done. done.
Qed.

(** ** Witnesses: two I/O APICs of 24 pins *)

Record two_dev := TwoDev { two_sel : Z -> Z; two_reg : Z -> Z -> Z }.

Definition two_bases (b : Z) : Prop := b = 0xFEC00000 \/ b = 0xFEC01000.

(** The I/O APIC whose register is at an address. *)
Definition two_at (addr offset : Z) : option Z :=
  if addr =? 0xFEC00000 + offset then Some 0xFEC00000
  else if addr =? 0xFEC01000 + offset then Some 0xFEC01000 else None.

#[global] Instance two_machine : Machine two_dev := {|
  dev_read32 addr d :=
    match two_at addr IOWIN with Some b => (two_reg d b (two_sel d b), d) | None => (0, d) end;
  dev_write32 addr v d :=
    match two_at addr IOREGSEL, two_at addr IOWIN with
    | Some b, _ => TwoDev (fun b' => if b' =? b then v else two_sel d b') (two_reg d)
    | None, Some b => TwoDev (two_sel d) (fun b' i => if (b' =? b) && (i =? two_sel d b) then v else two_reg d b' i)
    | None, None => d
    end;
  dev_rdmsr msr d := ((0, 0), d);
  dev_wrmsr msr high low d := d;
  dev_cpuid1_ecx d := 0;
|}.

Definition two_cfg (d : two_dev) (r : Z * Z) : Z := Z.land (wrap 32 (two_reg d (fst r) (snd r))) (rw_mask (snd r)).

Lemma two_bus : io_bus two_bases two_sel two_cfg.
Proof.
  constructor.
  - intros b v d [-> | ->] _; (split; [done|]; by intros).
  - intros b v d Hb Hs b' i _. unfold two_cfg.
    assert (Hw : two_reg (dev_write32 (b + IOWIN) v d) b' i = if (b' =? b) && (i =? two_sel d b) then v else two_reg d b' i)
      by (by destruct Hb as [-> | ->]).
    cbn [fst snd]. rewrite Hw. destruct (Z.eqb_spec b' b), (Z.eqb_spec i (two_sel d b)); simpl;
      [rewrite decide_True by done; apply rw_mask_wrap|by rewrite decide_False by tauto..].
  - intros b d [-> | ->]; (split; [done|]; by intros).
Qed.

Lemma two_select : io_select two_bases two_sel.
Proof.
  constructor.
  - intros b v d b' [-> | ->] [-> | ->] Hne; done.
  - intros b v d b' [-> | ->] _; done.
  - intros b d b' [-> | ->] _; done.
Qed.

Definition two_start : two_dev := TwoDev (fun _ => 0) (fun _ _ => 0x10000).
Definition two_io1 : io_apic := IoApic 0xFEC00000 0 24.
Definition two_io2 : io_apic := IoApic 0xFEC01000 24 24.

Lemma two_ios_ok : io_ok two_bases two_io1 /\ io_ok two_bases two_io2.
Proof. split; (split; [split; [by (left + right)|done]|done]). Qed.

Definition two_calls : list (io_apic * list io_call) :=
  [(two_io1, [RouteIrq 3 0x21 1]); (two_io2, [UnmaskIrq 5; RouteIrq 26 0x22 2])].

Definition two_sched : list (nat * unit) :=
  map (fun t => (t, tt)) ([0; 1; 1; 0; 1; 0; 1; 0]%nat ++ replicate 8 1%nat).

Definition two_run : sys two_dev (prog unit) * list (nat * access) :=
  default (io_start Debug two_calls two_start, []) (run prog_act (io_start Debug two_calls two_start) two_sched).

Lemma two_runs : trace (prog_machine unit) (io_start Debug two_calls two_start) (snd two_run) (fst two_run).
Proof. apply (run_trace _ _ two_sched). vm_compute. exact eq_refl. Qed.

Lemma two_calls_ok : Forall (fun x => io_ok two_bases (fst x) /\ Forall (io_call_ok (fst x)) (snd x)) two_calls.
Proof.
  destruct two_ios_ok as [H1 H2]. constructor; [|constructor; [|constructor]]; (split; [done|]); repeat constructor; done.
Qed.

Lemma two_disjoint : NoDup (map io_base two_calls).
Proof. apply NoDup_cons. split; [|apply NoDup_singleton]. by intros Hin%list_elem_of_singleton. Qed.

Lemma two_managed_ok : Forall (io_ok two_bases) [two_io1; two_io2].
Proof. destruct two_ios_ok. by repeat constructor. Qed.

Lemma io_calls_independent_witness :
  locals (fst two_run) = [PDone tt; PDone tt] /\
  pin two_cfg (shared (fst two_run)) 0xFEC00000 3 = 0x0100000000000021 /\
  pin two_cfg (shared (fst two_run)) 0xFEC01000 2 = 0x0200000000000022 /\
  pin two_cfg (shared (fst two_run)) 0xFEC01000 5 = 0.
Proof.
  assert (Hdone : locals (fst two_run) = [PDone tt; PDone tt]) by (vm_compute; exact eq_refl).
  destruct (io_calls_independent Debug two_bases two_sel two_cfg two_calls two_start _ _ two_bus two_select
    two_disjoint
    two_calls_ok two_runs) as (_ & Hpins & _).
  split; [exact Hdone|]. split_and!.
  - exact (Hpins 0%nat _ eq_refl ltac:(by rewrite Hdone) 3 ltac:(done)).
  - exact (Hpins 1%nat _ eq_refl ltac:(by rewrite Hdone) 2 ltac:(done)).
  - exact (Hpins 1%nat _ eq_refl ltac:(by rewrite Hdone) 5 ltac:(done)).
Defined.

Lemma route_gsi_race_witness :
  exists tr s,
    trace (prog_machine unit)
      (Sys two_start [c_route_gsi Debug [two_io1; two_io2] 3 0x21 1; c_route_gsi Debug [two_io1; two_io2] 5 0x22 2]) tr s /\
    pin two_cfg (shared s) 0xFEC00000 5 = 0x0200000000000021 /\
    pin two_cfg (shared s) 0xFEC00000 3 = 0x0100000000010000.
Proof.
  destruct (route_gsi_race Debug two_bases two_sel two_cfg [two_io1; two_io2] two_io1 3 0x21 1 5 0x22 2 two_start
    two_bus two_select two_managed_ok
    eq_refl eq_refl ltac:(done) ltac:(done) ltac:(done) ltac:(done) ltac:(done)) as (_ & tr & s & Htr & _ & H2 & H1).
  exists tr, s. split; [exact Htr|]. split; [exact H2|]. etransitivity; [exact H1|]. reflexivity.
Defined.
