(* ===== verification/Memory.v ===== *)
(** * Memory: bytes in memory and the layout of [repr(C)] structures

    Memory is a map from addresses to bytes; words are stored in little-endian
    order. [offsets] and [size_of] compute the layout that [#[repr(C)]] fixes,
    for the structures of percpu.rs, scheduler.rs and trampoline.rs that
    hand-written machine code reads. *)

From S2P Require Import Prelude.

(** ** Bytes *)

Abbreviation memory := (Z -> Z) (only parsing).

(** [ptr::copy_nonoverlapping] of the bytes [l] to the address [base]. *)
Definition copy (m : memory) (base : Z) (l : list Z) : memory := fun a =>
  if (base <=? a) && (a <? base + Z.of_nat (length l)) then nth (Z.to_nat (a - base)) l 0 else m a.

(** [ptr::write_bytes]. *)
Definition fill (m : memory) (base v n : Z) : memory := fun a =>
  if (base <=? a) && (a <? base + n) then v else m a.

Fixpoint bytes_of (n : nat) (v : Z) : list Z :=
  match n with
  | O => []
  | S n => v mod 256 :: bytes_of n (v / 256)
  end.

Definition store (m : memory) (a : Z) (n : nat) (v : Z) : memory := copy m a (bytes_of n v).

Fixpoint load (m : memory) (a : Z) (n : nat) : Z :=
  match n with
  | O => 0
  | S n => m a + 256 * load m (a + 1) n
  end.

(** ** Layout *)

Inductive ctype :=
| CU8 | CU16 | CU32 | CU64 | CUsize | CBool | CPtr
| CBytes (n : Z).

Definition csize (t : ctype) : Z :=
  match t with
  | CU8 | CBool => 1
  | CU16 => 2
  | CU32 => 4
  | CU64 | CUsize | CPtr => 8
  | CBytes n => n
  end.

Definition calign (t : ctype) : Z :=
  match t with
  | CBytes _ => 1
  | _ => csize t
  end.

Definition align_up (x a : Z) : Z := (x + a - 1) / a * a.

(** The offset of each field, starting at [off]. *)
Fixpoint offsets_from (off : Z) (fields : list ctype) : list Z :=
  match fields with
  | [] => []
  | t :: fields => let o := align_up off (calign t) in o :: offsets_from (o + csize t) fields
  end.

Definition offsets (fields : list ctype) : list Z := offsets_from 0 fields.

Fixpoint end_from (off : Z) (fields : list ctype) : Z :=
  match fields with
  | [] => off
  | t :: fields => end_from (align_up off (calign t) + csize t) fields
  end.

(** [#[repr(C, align(a))]]; without an [align] attribute [a] is 1. *)
Definition struct_align (a : Z) (fields : list ctype) : Z := fold_right Z.max a (map calign fields).

Definition size_of (a : Z) (fields : list ctype) : Z :=
  align_up (end_from 0 fields) (struct_align a fields).

Definition offset (fields : list ctype) (i : nat) : Z := nth i (offsets fields) 0.

(** ** Lemmas: bytes *)

Lemma length_bytes_of n v : length (bytes_of n v) = n.
Proof. revert v. induction n; intros; simpl; auto. Qed.

Lemma copy_out m b l a : a < b \/ b + Z.of_nat (length l) <= a -> copy m b l a = m a.
Proof.
  intros Ha. unfold copy. destruct (Z.leb_spec b a), (Z.ltb_spec a (b + Z.of_nat (length l)));
    simpl; (done || lia).
Qed.

Lemma copy_in m b l a :
  b <= a < b + Z.of_nat (length l) -> copy m b l a = nth (Z.to_nat (a - b)) l 0.
Proof.
  intros Ha. unfold copy. destruct (Z.leb_spec b a), (Z.ltb_spec a (b + Z.of_nat (length l)));
    simpl; (done || lia).
Qed.

Lemma store_out m b n v a : a < b \/ b + Z.of_nat n <= a -> store m b n v a = m a.
Proof. intros Ha. apply copy_out. by rewrite length_bytes_of. Qed.

Lemma load_ext m m' a n :
  (forall x, a <= x < a + Z.of_nat n -> m x = m' x) -> load m a n = load m' a n.
Proof.
  revert a. induction n as [|n IH]; intros a Hext; simpl; [done|].
  rewrite Hext by lia. rewrite (IH (a + 1)); [done|]. intros x Hx. apply Hext. lia.
Qed.

Lemma load_store_out m b k v a n :
  a + Z.of_nat n <= b \/ b + Z.of_nat k <= a -> load (store m b k v) a n = load m a n.
Proof. intros. apply load_ext. intros x Hx. apply store_out. lia. Qed.

Lemma load_copy_out m b l a n :
  a + Z.of_nat n <= b \/ b + Z.of_nat (length l) <= a -> load (copy m b l) a n = load m a n.
Proof. intros. apply load_ext. intros x Hx. apply copy_out. lia. Qed.

Lemma load_store m a n v : 0 <= v < 256 ^ Z.of_nat n -> load (store m a n v) a n = v.
Proof.
  revert m a v. induction n as [|n IH]; intros m a v Hv; [simpl in *; lia|].
  cbn [load]. rewrite Nat2Z.inj_succ, Z.pow_succ_r in Hv by lia.
  rewrite (load_ext _ (store m (a + 1) n (v / 256)) (a + 1)).
  - rewrite IH by (split; [apply Z.div_pos; lia|apply Z.div_lt_upper_bound; lia]).
    unfold store. rewrite copy_in by (cbn [bytes_of length]; lia).
    rewrite Z.sub_diag. simpl nth. pose proof (Z.div_mod v 256 ltac:(lia)). lia.
  - intros x Hx. unfold store. rewrite copy_in by (rewrite length_bytes_of; lia).
    rewrite copy_in by (rewrite length_bytes_of; lia).
    replace (Z.to_nat (x - a)) with (S (Z.to_nat (x - (a + 1)))) by lia. done.
Qed.

(** A word is its low bytes and the rest. *)
Lemma load_split m a n k :
  load m a (n + k) = load m a n + 256 ^ Z.of_nat n * load m (a + Z.of_nat n) k.
Proof.
  revert a. induction n as [|n IH]; intros a.
  - simpl. rewrite Z.add_0_r. lia.
  - cbn [Nat.add load]. rewrite IH, Nat2Z.inj_succ, Z.pow_succ_r by lia.
    replace (a + Z.succ (Z.of_nat n)) with (a + 1 + Z.of_nat n) by lia. lia.
Qed.

(** The upper bytes of a stored word. *)
Lemma load_store_upper m a n k v :
  0 <= v < 256 ^ Z.of_nat (n + k) ->
  load (store m a (n + k) v) (a + Z.of_nat n) k = v / 256 ^ Z.of_nat n.
Proof.
  revert m a v. induction n as [|n IH]; intros m a v Hv.
  - simpl (Z.of_nat 0). rewrite Z.add_0_r, Z.pow_0_r, Z.div_1_r. by apply load_store.
  - rewrite Nat2Z.inj_succ, Z.pow_succ_r, <-Z.div_div by lia.
    cbn [Nat.add] in *. rewrite Nat2Z.inj_succ, Z.pow_succ_r in Hv by lia.
    rewrite <-(IH m (a + 1)) by (split; [apply Z.div_pos; lia|apply Z.div_lt_upper_bound; lia]).
    replace (a + Z.succ (Z.of_nat n)) with (a + 1 + Z.of_nat n) by lia.
    apply load_ext. intros x Hx. unfold store.
    rewrite !copy_in by (rewrite length_bytes_of; lia).
    replace (Z.to_nat (x - a)) with (S (Z.to_nat (x - (a + 1)))) by lia. done.
Qed.

(** ** Lemmas: layout *)

Lemma align_up_spec x a : 0 < a -> x <= align_up x a < x + a /\ (a | align_up x a).
Proof.
  intros Ha. unfold align_up. split.
  - pose proof (Z.div_mod (x + a - 1) a ltac:(lia)).
    pose proof (Z.mod_pos_bound (x + a - 1) a Ha). lia.
  - by exists ((x + a - 1) / a).
Qed.

Definition ctype_ok (t : ctype) : Prop := match t with CBytes n => 0 <= n | _ => True end.

Lemma csize_nonneg t : ctype_ok t -> 0 <= csize t.
Proof. destruct t; simpl; lia. Qed.

Lemma calign_pos t : 0 < calign t.
Proof. by destruct t. Qed.

(** Every field starts after the fields before it, at a multiple of its
    alignment, and ends within the structure. *)
Lemma offsets_from_spec fields off i t o :
  Forall ctype_ok fields -> fields !! i = Some t -> offsets_from off fields !! i = Some o ->
  off <= o /\ (calign t | o) /\ o + csize t <= end_from off fields /\
  forall j t' o', (i < j)%nat -> fields !! j = Some t' -> offsets_from off fields !! j = Some o' ->
    o + csize t <= o'.
Proof.
  revert off i t o. induction fields as [|u fields IH]; intros off i t o Hok Ht Ho; [done|].
  apply Forall_cons in Hok as [Hu Hok]. pose proof (calign_pos u) as Hal.
  destruct (align_up_spec off (calign u) Hal) as [Hup Hdiv]. pose proof (csize_nonneg u Hu).
  assert (Hend : forall o1, o1 <= end_from o1 fields).
  { clear -Hok. induction fields as [|v fields IH]; intros o1; simpl; [lia|].
    apply Forall_cons in Hok as [Hv Hok]. pose proof (calign_pos v).
    destruct (align_up_spec o1 (calign v) ltac:(done)). pose proof (csize_nonneg v Hv).
    pose proof (IH Hok (align_up o1 (calign v) + csize v)). lia. }
  simpl in Ho |- *. destruct i as [|i]; simpl in Ht, Ho.
  - injection Ht as <-. injection Ho as <-. split_and!; [lia|done|apply Hend|].
    intros [|j] t' o' Hj Ht' Ho'; [lia|]. simpl in Ht', Ho'. by eapply IH in Ho' as (? & _).
  - destruct (IH _ i t o Hok Ht Ho) as (Hlo & Hd & He & Hn). split_and!; [lia|done|done|].
    intros [|j] t' o' Hj Ht' Ho'; [lia|]. apply (Hn j t' o'); [lia|done|done].
Qed.
