(* ===== verification/X86.v ===== *)
(** * X86: the processor that runs the AP trampoline

    The trampoline of trampoline.rs is machine code written out as bytes. This
    file is an interpreter for the instructions it consists of (and those that
    its bytes form when executed at other offsets): decoding in 16-bit, 32-bit
    and 64-bit code, segment loads and far jumps through the GDT, control
    registers, IA32_EFER, and moves. A fault stops the processor: the code loads
    no IDT, so any exception ends in a triple fault. Linear and physical
    addresses are the same; [mapped] says which addresses can be accessed. *)

From S2P Require Import Prelude Memory.

Inductive cpu_mode := Real16 | Prot32 | Long64.

#[global] Instance cpu_mode_eq_dec : EqDecision cpu_mode.
Proof. solve_decision. Defined.

Inductive segment := DS | ES | FS | GS | SS.

Inductive control := CR0 | CR3 | CR4.

Inductive instr :=
| Cli | Hlt | Nop
| XorAxAx
| MovSegAx (s : segment)
| Lgdt (addr : Z)
| MovEaxCr (c : control)
| MovCrEax (c : control)
| OrAlImm (i : Z)
| OrEaxImm (i : Z)
| MovAxImm (i : Z)
| MovEaxMem (addr : Z)
| MovEcxImm (i : Z)
| Rdmsr | Wrmsr
| JmpFar (selector addr : Z)
| MovRspMem (addr : Z)
| MovRdiMem (addr : Z)
| MovRaxMem (addr : Z)
| MovMemImm (addr i : Z)
| CallRax
| JmpRel (d : Z)
| AddMemRaxAl
| CmpAlImm (i : Z)
| Undefined.

(** ** Decoding *)

Definition seg_of (modrm : Z) : option segment :=
  match modrm with
  | 0xC0 => Some ES | 0xD0 => Some SS | 0xD8 => Some DS | 0xE0 => Some FS | 0xE8 => Some GS
  | _ => None
  end.

Definition control_of (modrm : Z) : option control :=
  match modrm with
  | 0xC0 => Some CR0 | 0xD8 => Some CR3 | 0xE0 => Some CR4
  | _ => None
  end.

Definition sign8 (b : Z) : Z := if b <? 128 then b else b - 256.

(** Opcodes after 0x0F. *)
Definition decode_0f (md : cpu_mode) (m : memory) (pc : Z) : option (instr * Z) :=
  match m (pc + 1), m (pc + 2) with
  | 0x01, 0x16 => match md with Real16 => Some (Lgdt (load m (pc + 3) 2), 5) | _ => None end
  | 0x20, r => c ← control_of r; Some (MovEaxCr c, 3)
  | 0x22, r => c ← control_of r; Some (MovCrEax c, 3)
  | 0x30, _ => Some (Wrmsr, 2)
  | 0x32, _ => Some (Rdmsr, 2)
  | _, _ => None
  end.

(** Opcodes after an operand-size prefix 0x66. *)
Definition decode_66 (md : cpu_mode) (m : memory) (pc : Z) : option (instr * Z) :=
  match md, m (pc + 1) with
  | Real16, 0xEA => Some (JmpFar (load m (pc + 6) 2) (load m (pc + 2) 4), 8)
  | (Prot32 | Long64), 0xB8 => Some (MovAxImm (load m (pc + 2) 2), 4)
  | (Prot32 | Long64), 0x31 => match m (pc + 2) with 0xC0 => Some (XorAxAx, 3) | _ => None end
  | _, _ => None
  end.

(** Opcodes after a prefix REX.W 0x48: moves from an absolute address. *)
Definition decode_48 (m : memory) (pc : Z) : option (instr * Z) :=
  match m (pc + 1), m (pc + 2), m (pc + 3) with
  | 0x8B, 0x04, 0x25 => Some (MovRaxMem (load m (pc + 4) 4), 8)
  | 0x8B, 0x24, 0x25 => Some (MovRspMem (load m (pc + 4) 4), 8)
  | 0x8B, 0x3C, 0x25 => Some (MovRdiMem (load m (pc + 4) 4), 8)
  | _, _, _ => None
  end.

(** The instruction at [pc] and its length. *)
Definition decode (md : cpu_mode) (m : memory) (pc : Z) : option (instr * Z) :=
  match m pc with
  | 0xFA => Some (Cli, 1)
  | 0xF4 => Some (Hlt, 1)
  | 0x90 => Some (Nop, 1)
  | 0xEB => Some (JmpRel (sign8 (m (pc + 1))), 2)
  | 0x0C => Some (OrAlImm (m (pc + 1)), 2)
  | 0x3C => Some (CmpAlImm (m (pc + 1)), 2)
  | 0x8E => s ← seg_of (m (pc + 1)); Some (MovSegAx s, 2)
  | 0x0F => decode_0f md m pc
  | 0x66 => decode_66 md m pc
  | 0x31 => match md, m (pc + 1) with Real16, 0xC0 => Some (XorAxAx, 2) | _, _ => None end
  | 0x0D => match md with Real16 => None | _ => Some (OrEaxImm (load m (pc + 1) 4), 5) end
  | 0x83 => match md, m (pc + 1) with
            | Prot32, 0xC8 => Some (OrEaxImm (wrap 32 (sign8 (m (pc + 2)))), 3)
            | _, _ => None
            end
  | 0xA1 => match md with Prot32 => Some (MovEaxMem (load m (pc + 1) 4), 5) | _ => None end
  | 0xB9 => match md with Real16 => None | _ => Some (MovEcxImm (load m (pc + 1) 4), 5) end
  | 0xEA => match md with
            | Prot32 => Some (JmpFar (load m (pc + 5) 2) (load m (pc + 1) 4), 7)
            | Long64 => Some (Undefined, 1)
            | Real16 => None
            end
  | 0x48 => match md with Long64 => decode_48 m pc | _ => None end
  | 0xC7 => match md, m (pc + 1), m (pc + 2) with
            | Long64, 0x04, 0x25 => Some (MovMemImm (load m (pc + 3) 4) (load m (pc + 7) 4), 11)
            | _, _, _ => None
            end
  | 0x00 => match md, m (pc + 1) with Long64, 0x00 => Some (AddMemRaxAl, 2) | _, _ => None end
  | 0xFF => match md, m (pc + 1) with
            | Long64, 0xD0 => Some (CallRax, 2)
            | _, modrm => if Z.land (Z.shiftr modrm 3) 7 =? 7 then Some (Undefined, 2) else None
            end
  | _ => None
  end.

(** ** State *)

Record cpu := Cpu {
  md : cpu_mode; pc : Z;
  rax : Z; rcx : Z; rdx : Z; rsp : Z; rdi : Z;
  ds_base : Z;
  cr0 : Z; cr3 : Z; cr4 : Z; efer : Z;
  gdt_base : Z; gdt_limit : Z;
}.

Definition set_pc (c : cpu) v := Cpu (md c) v (rax c) (rcx c) (rdx c) (rsp c) (rdi c) (ds_base c)
  (cr0 c) (cr3 c) (cr4 c) (efer c) (gdt_base c) (gdt_limit c).
Definition set_rax (c : cpu) v := Cpu (md c) (pc c) v (rcx c) (rdx c) (rsp c) (rdi c) (ds_base c)
  (cr0 c) (cr3 c) (cr4 c) (efer c) (gdt_base c) (gdt_limit c).
Definition set_rcx (c : cpu) v := Cpu (md c) (pc c) (rax c) v (rdx c) (rsp c) (rdi c) (ds_base c)
  (cr0 c) (cr3 c) (cr4 c) (efer c) (gdt_base c) (gdt_limit c).
Definition set_rdx (c : cpu) v := Cpu (md c) (pc c) (rax c) (rcx c) v (rsp c) (rdi c) (ds_base c)
  (cr0 c) (cr3 c) (cr4 c) (efer c) (gdt_base c) (gdt_limit c).
Definition set_rsp (c : cpu) v := Cpu (md c) (pc c) (rax c) (rcx c) (rdx c) v (rdi c) (ds_base c)
  (cr0 c) (cr3 c) (cr4 c) (efer c) (gdt_base c) (gdt_limit c).
Definition set_rdi (c : cpu) v := Cpu (md c) (pc c) (rax c) (rcx c) (rdx c) (rsp c) v (ds_base c)
  (cr0 c) (cr3 c) (cr4 c) (efer c) (gdt_base c) (gdt_limit c).
Definition set_ds (c : cpu) v := Cpu (md c) (pc c) (rax c) (rcx c) (rdx c) (rsp c) (rdi c) v
  (cr0 c) (cr3 c) (cr4 c) (efer c) (gdt_base c) (gdt_limit c).
Definition set_cr (c : cpu) (r : control) v :=
  match r with
  | CR0 => Cpu (md c) (pc c) (rax c) (rcx c) (rdx c) (rsp c) (rdi c) (ds_base c)
             v (cr3 c) (cr4 c) (efer c) (gdt_base c) (gdt_limit c)
  | CR3 => Cpu (md c) (pc c) (rax c) (rcx c) (rdx c) (rsp c) (rdi c) (ds_base c)
             (cr0 c) v (cr4 c) (efer c) (gdt_base c) (gdt_limit c)
  | CR4 => Cpu (md c) (pc c) (rax c) (rcx c) (rdx c) (rsp c) (rdi c) (ds_base c)
             (cr0 c) (cr3 c) v (efer c) (gdt_base c) (gdt_limit c)
  end.
Definition set_efer (c : cpu) v := Cpu (md c) (pc c) (rax c) (rcx c) (rdx c) (rsp c) (rdi c) (ds_base c)
  (cr0 c) (cr3 c) (cr4 c) v (gdt_base c) (gdt_limit c).
Definition set_gdt (c : cpu) b l := Cpu (md c) (pc c) (rax c) (rcx c) (rdx c) (rsp c) (rdi c) (ds_base c)
  (cr0 c) (cr3 c) (cr4 c) (efer c) b l.
Definition set_md (c : cpu) v := Cpu v (pc c) (rax c) (rcx c) (rdx c) (rsp c) (rdi c) (ds_base c)
  (cr0 c) (cr3 c) (cr4 c) (efer c) (gdt_base c) (gdt_limit c).

Definition get_cr (c : cpu) (r : control) : Z :=
  match r with CR0 => cr0 c | CR3 => cr3 c | CR4 => cr4 c end.

(** CR0.PE, CR0.PG, CR4.PAE, EFER.LME and EFER.LMA. *)
Definition pe (c : cpu) : bool := Z.testbit (cr0 c) 0.
Definition pg (c : cpu) : bool := Z.testbit (cr0 c) 31.
Definition pae (c : cpu) : bool := Z.testbit (cr4 c) 5.
Definition lme (c : cpu) : bool := Z.testbit (efer c) 8.
Definition lma (c : cpu) : bool := Z.testbit (efer c) 10.

Inductive outcome :=
| Next (c : cpu) (m : memory)
| Halted
| Called (target arg stack : Z) (m : memory)
| Fault
| Outside.

(** ** Execution *)

Section exec.
Context (mapped : Z -> bool).

(** The low 16 and low 32 bits of rax are replaced; a 32-bit write clears the
    upper half. *)
Definition set_ax (c : cpu) (v : Z) : cpu :=
  set_rax c (Z.lor (Z.land (rax c) (bnot 64 0xFFFF)) (Z.land v 0xFFFF)).
Definition set_al (c : cpu) (v : Z) : cpu :=
  set_rax c (Z.lor (Z.land (rax c) (bnot 64 0xFF)) (Z.land v 0xFF)).
Definition eax (c : cpu) : Z := Z.land (rax c) 0xFFFFFFFF.

(** Byte [k] of the descriptor of [selector]; the table bits of the selector
    must be 0 and the descriptor within the limit. *)
Definition descriptor (c : cpu) (m : memory) (selector : Z) : option (Z -> Z) :=
  if (Z.land selector 7 =? 0) && (selector + 7 <=? gdt_limit c)
  then Some (fun k => m (gdt_base c + selector + k)) else None.

Definition descriptor_base (d : Z -> Z) : Z :=
  Z.lor (Z.lor (d 2) (Z.shiftl (d 3) 8)) (Z.lor (Z.shiftl (d 4) 16) (Z.shiftl (d 7) 24)).

(** Loads a data segment: in protected and long mode a present data (or readable
    code) descriptor, and a writable one for SS; the null selector is accepted
    for ES, FS, GS, DS, and for SS in 64-bit code. *)
Definition load_segment (c : cpu) (m : memory) (s : segment) : outcome :=
  let selector := Z.land (rax c) 0xFFFF in
  let set base := match s with DS => set_ds c base | _ => c end in
  if negb (pe c) then Next (set (selector * 16)) m
  else if selector =? 0 then
    match s, md c with
    | SS, (Real16 | Prot32) => Fault
    | _, _ => Next (set 0) m
    end
  else match descriptor c m selector with
       | None => Fault
       | Some d =>
           let access := d 5 in
           if Z.testbit access 7 && Z.testbit access 4 &&
              (match s with
               | SS => negb (Z.testbit access 3) && Z.testbit access 1
               | _ => negb (Z.testbit access 3) || Z.testbit access 1
               end)
           then Next (set (if decide (md c = Long64) then 0 else descriptor_base d)) m
           else Fault
       end.

(** A far jump: a present code descriptor, whose L and D bits give the mode. *)
Definition jump_far (c : cpu) (m : memory) (selector addr : Z) : outcome :=
  if negb (pe c) then Next (set_pc c (selector * 16 + addr)) m
  else match descriptor c m selector with
       | None => Fault
       | Some d =>
           let access := d 5 in
           let l := Z.testbit (d 6) 5 in
           let db := Z.testbit (d 6) 6 in
           if negb (Z.testbit access 7 && Z.testbit access 4 && Z.testbit access 3) then Fault
           else if lma c && l then
             if db then Fault else Next (set_pc (set_md c Long64) addr) m
           else if db then Next (set_pc (set_md c Prot32) (descriptor_base d + addr)) m
           else Outside
       end.

(** A write to CR0 that turns paging on activates long mode when EFER.LME is set,
    which requires PAE; paging without protection is refused. *)
Definition write_cr (c : cpu) (m : memory) (r : control) (v : Z) : outcome :=
  let c' := set_cr c r v in
  match r with
  | CR0 =>
      if pg c' && negb (pe c') then Fault
      else if pg c' && negb (pg c) && lme c then
        if pae c then Next (set_efer c' (Z.lor (efer c) (Z.shiftl 1 10))) m else Fault
      else Next c' m
  | _ => Next c' m
  end.

Definition IA32_EFER : Z := 0xC0000080.

(** Every byte of the access must be mapped. *)
Definition mapped_range (a : Z) (n : nat) : bool :=
  forallb (fun i => mapped (a + Z.of_nat i)) (seq 0 n).

Definition exec (i : instr) (c : cpu) (m : memory) : outcome :=
  match i with
  | Cli | Nop | CmpAlImm _ => Next c m
  | Hlt => Halted
  | XorAxAx => Next (set_ax c 0) m
  | MovSegAx s => load_segment c m s
  | Lgdt addr =>
      let a := ds_base c + addr in
      if mapped_range a 6 then Next (set_gdt c (Z.land (load m (a + 2) 4) 0xFFFFFF) (load m a 2)) m
      else Fault
  | MovEaxCr r => Next (set_rax c (Z.land (get_cr c r) 0xFFFFFFFF)) m
  | MovCrEax r => write_cr c m r (eax c)
  | OrAlImm i => Next (set_al c (Z.lor (rax c) i)) m
  | OrEaxImm i => Next (set_rax c (Z.lor (eax c) i)) m
  | MovAxImm i => Next (set_ax c i) m
  | MovEaxMem addr =>
      let a := ds_base c + addr in
      if mapped_range a 4 then Next (set_rax c (load m a 4)) m else Fault
  | MovEcxImm i => Next (set_rcx c i) m
  | Rdmsr =>
      if Z.land (rcx c) 0xFFFFFFFF =? IA32_EFER
      then Next (set_rdx (set_rax c (Z.land (efer c) 0xFFFFFFFF)) (Z.shiftr (efer c) 32)) m
      else Outside
  | Wrmsr =>
      if Z.land (rcx c) 0xFFFFFFFF =? IA32_EFER
      then Next (set_efer c (Z.lor (Z.shiftl (Z.land (rdx c) 0xFFFFFFFF) 32) (eax c))) m
      else Outside
  | JmpFar selector addr => jump_far c m selector addr
  | MovRspMem a => if mapped_range a 8 then Next (set_rsp c (load m a 8)) m else Fault
  | MovRdiMem a => if mapped_range a 8 then Next (set_rdi c (load m a 8)) m else Fault
  | MovRaxMem a => if mapped_range a 8 then Next (set_rax c (load m a 8)) m else Fault
  | MovMemImm a i => if mapped_range a 4 then Next c (store m a 4 i) else Fault
  | CallRax => Called (rax c) (rdi c) (rsp c) m
  | JmpRel d => Next (set_pc c (pc c + d)) m
  | AddMemRaxAl =>
      if mapped (rax c)
      then Next c (store m (rax c) 1 ((m (rax c) + Z.land (rax c) 0xFF) mod 256)) else Fault
  | Undefined => Fault
  end.

(** One instruction; [pc] is past it when it executes. *)
Definition cpu_step (c : cpu) (m : memory) : outcome :=
  if negb (mapped (pc c)) then Fault
  else match decode (md c) m (pc c) with
       | None => Outside
       | Some (i, len) => exec i (set_pc c (pc c + len)) m
       end.

(** [n] instructions, if the processor gets that far. *)
Fixpoint cpu_run (n : nat) (c : cpu) (m : memory) : outcome :=
  match n with
  | O => Next c m
  | S n => match cpu_step c m with
           | Next c' m' => cpu_run n c' m'
           | o => o
           end
  end.
End exec.

(** ** Lemmas *)

Lemma decode_ext md m m' pc :
  (forall a, pc <= a < pc + 11 -> m a = m' a) -> decode md m pc = decode md m' pc.
Proof.
  intros Hext.
  assert (Hl : forall k n, 0 <= k -> k + Z.of_nat n <= 11 -> load m (pc + k) n = load m' (pc + k) n).
  { intros k n Hk Hn. apply load_ext. intros x Hx. apply Hext. lia. }
  unfold decode, decode_0f, decode_66, decode_48.
  rewrite !(Hext (pc + 1)), !(Hext (pc + 2)), !(Hext (pc + 3)), (Hext pc) by lia.
  by rewrite !Hl by (simpl; lia).
Qed.

Lemma mapped_range_true mapped a n :
  (forall x, a <= x < a + Z.of_nat n -> mapped x = true) -> mapped_range mapped a n = true.
Proof.
  intros Hm. unfold mapped_range. apply forallb_forall. intros i Hi. apply in_seq in Hi.
  apply Hm. lia.
Qed.

(** The processor faults within [n] instructions, and memory satisfies [P] until
    then. *)
Fixpoint faults_within (mapped : Z -> bool) (P : memory -> Prop) (n : nat) (c : cpu) (m : memory) : Prop :=
  P m /\
  match n with
  | O => False
  | S n => match cpu_step mapped c m with
           | Next c' m' => faults_within mapped P n c' m'
           | Fault => True
           | _ => False
           end
  end.

Lemma faults_within_run mapped P n c m :
  faults_within mapped P n c m ->
  (exists k, (k <= n)%nat /\ cpu_run mapped k c m = Fault) /\
  forall k, match cpu_run mapped k c m with
            | Next _ m' => P m'
            | Fault => True
            | _ => False
            end.
Proof.
  revert c m. induction n as [|n IH]; intros c m [HP Hn]; [done|].
  destruct (cpu_step mapped c m) as [c1 m1| | | |] eqn:Hs; try done.
  - destruct (IH c1 m1 Hn) as [(k & Hk & Hf) Hall]. split.
    + exists (S k). split; [lia|]. simpl. by rewrite Hs.
    + intros [|k']; simpl; [done|]. rewrite Hs. apply Hall.
  - split.
    + exists 1%nat. split; [lia|]. simpl. by rewrite Hs.
    + intros [|k']; simpl; [done|]. by rewrite Hs.
Qed.

(** ax after it was cleared. *)
Lemma land_ax_cleared x : Z.land (Z.lor (Z.land x 0xFFFFFFFFFFFF0000) 0) 0xFFFF = 0.
Proof. rewrite Z.lor_0_r, <-Z.land_assoc. apply Z.land_0_r. Qed.
