(* ===== verification/Trampoline.v ===== *)
(** * Trampoline: starting the application processors (src/src/trampoline.rs)

    The bytes of the trampoline and of its GDT, the structure [TrampolineData]
    shared with the starting processor, and the manager that installs the page,
    fills the structure and waits for the ready flag. Memory is shared: the
    manager's operations and the processor of X86.v act on the same bytes. *)

From S2P Require Import Prelude Memory X86.

(** ** Constants *)

Definition TRAMPOLINE_PAGE : Z := 0x08.
Definition TRAMPOLINE_PHYS : Z := Z.shiftl TRAMPOLINE_PAGE 12.
Definition TRAMPOLINE_DATA_OFFSET : Z := 0xF00.
Definition TRAMPOLINE_DATA_PHYS : Z := TRAMPOLINE_PHYS + TRAMPOLINE_DATA_OFFSET.

(** [TrampolineData], [#[repr(C, align(16))]]: pml4_addr, stack_top, entry_point,
    cpu_index, ap_ready, gdt_limit, _pad, gdt_base. *)
Definition trampoline_data : list ctype := [CU64; CU64; CU64; CU32; CU32; CU16; CU16; CU64].

Definition TRAMPOLINE_CODE : list Z :=
  [0xFA;
   0x31; 0xC0;
   0x8E; 0xD8;
   0x8E; 0xC0;
   0x8E; 0xD0;
   0x0F; 0x01; 0x16; 0x80; 0x80;
   0x0F; 0x20; 0xC0;
   0x0C; 0x01;
   0x0F; 0x22; 0xC0;
   0x66; 0xEA; 0x20; 0x80; 0x00; 0x00; 0x08; 0x00;
   0x90; 0x90;
   0x66; 0xB8; 0x10; 0x00;
   0x8E; 0xD8;
   0x8E; 0xC0;
   0x8E; 0xE0;
   0x8E; 0xE8;
   0x8E; 0xD0;
   0x0F; 0x20; 0xE0;
   0x83; 0xC8; 0x20;
   0x0F; 0x22; 0xE0;
   0xA1; 0x00; 0x8F; 0x00; 0x00;
   0x0F; 0x22; 0xD8;
   0xB9; 0x80; 0x00; 0x00; 0xC0;
   0x0F; 0x32;
   0x0D; 0x00; 0x01; 0x00; 0x00;
   0x0F; 0x30;
   0x0F; 0x20; 0xC0;
   0x0D; 0x00; 0x00; 0x00; 0x80;
   0x0F; 0x22; 0xC0;
   0xEA; 0x60; 0x80; 0x00; 0x00; 0x18; 0x00;
   0x90;
   0x66; 0xB8; 0x20; 0x00;
   0x8E; 0xD8;
   0x8E; 0xC0;
   0x8E; 0xD0;
   0x66; 0x31; 0xC0;
   0x8E; 0xE0;
   0x8E; 0xE8;
   0x48; 0x8B; 0x24; 0x25; 0x08; 0x8F; 0x00; 0x00;
   0xC7; 0x04; 0x25; 0x18; 0x8F; 0x00; 0x00; 0x01; 0x00; 0x00; 0x00;
   0x48; 0x8B; 0x3C; 0x25; 0x14; 0x8F; 0x00; 0x00;
   0x48; 0x8B; 0x04; 0x25; 0x10; 0x8F; 0x00; 0x00;
   0xFF; 0xD0;
   0xFA; 0xF4; 0xEB; 0xFD].

Definition TRAMPOLINE_GDT : list Z :=
  [0x00; 0x00; 0x00; 0x00; 0x00; 0x00; 0x00; 0x00;
   0xFF; 0xFF; 0x00; 0x00; 0x00; 0x9A; 0xCF; 0x00;
   0xFF; 0xFF; 0x00; 0x00; 0x00; 0x92; 0xCF; 0x00;
   0x00; 0x00; 0x00; 0x00; 0x00; 0x9A; 0x20; 0x00;
   0x00; 0x00; 0x00; 0x00; 0x00; 0x92; 0x00; 0x00].

Definition TRAMPOLINE_GDT_DESC : list Z :=
  [0x27; 0x00;
   0x88; 0x80; 0x00; 0x00].

(** ** The manager *)

Record ap_trampoline := ApTrampoline { trampoline_vaddr : Z }.

Definition ap_trampoline_new (trampoline_vaddr : Z) : ap_trampoline := ApTrampoline trampoline_vaddr.

Section manager.
Context (p : profile).
Implicit Types (t : ap_trampoline) (m : Z -> Z).

Definition install t m : Z -> Z :=
  let base := trampoline_vaddr t in
  let m := fill m base 0 4096 in
  let m := copy m base TRAMPOLINE_CODE in
  let gdt_desc_ptr := base + 0x80 in
  let m := copy m gdt_desc_ptr TRAMPOLINE_GDT_DESC in
  let gdt_data_ptr := base + 0x88 in
  copy m gdt_data_ptr TRAMPOLINE_GDT.

(** The address of [TrampolineData] and of its fields. *)
Definition data_ptr t : res Z := arith p 64 (trampoline_vaddr t + TRAMPOLINE_DATA_OFFSET).

Definition field (data : Z) (i : nat) : Z := data + offset trampoline_data i.

Definition set_ap_data t m (pml4_addr stack_top entry_point cpu_index : Z) : res (Z -> Z) :=
  data ← data_ptr t;
  let m := store m (field data 0) 8 pml4_addr in
  let m := store m (field data 1) 8 stack_top in
  let m := store m (field data 2) 8 entry_point in
  let m := store m (field data 3) 4 cpu_index in
  mret (store m (field data 4) 4 0).

Definition is_ap_ready t m : res bool :=
  data ← data_ptr t;
  mret (negb (load m (field data 4) 4 =? 0)).

(** The loop [for i in 0..max_iterations], from poll [i] on, [n] polls at most;
    [at_poll i] is memory when poll [i] reads it. *)
Fixpoint wait_loop t (at_poll : nat -> Z -> Z) (i n : nat) : res bool :=
  match n with
  | O => Ok false
  | S n => ready ← is_ap_ready t (at_poll i);
           if ready : bool then Ok true else wait_loop t at_poll (S i) n
  end.

Definition wait_ap_ready t (at_poll : nat -> Z -> Z) (max_iterations : nat) : res bool :=
  wait_loop t at_poll 0 max_iterations.
End manager.

(** A processor at the STARTUP interrupt for the trampoline page: real mode,
    registers as after INIT, the general registers arbitrary. *)
Definition ap_start (ax cx dx sp di : Z) : cpu :=
  {| md := Real16; pc := TRAMPOLINE_PHYS; rax := ax; rcx := cx; rdx := dx; rsp := sp; rdi := di;
     ds_base := 0; cr0 := 0x60000010; cr3 := 0; cr4 := 0; efer := 0;
     gdt_base := 0; gdt_limit := 0xFFFF |}.

(** ** Proofs: the installed page *)

Ltac addresses :=
  change TRAMPOLINE_DATA_PHYS with 0x8F00 in *; change TRAMPOLINE_PHYS with 0x8000 in *.

Definition bsp_trampoline : ap_trampoline := ap_trampoline_new TRAMPOLINE_PHYS.

(** The bytes of the page after [install]. *)
Definition page : Z -> Z := install bsp_trampoline (fun _ => 0).

(** Memory holds the installed page, up to the data block. *)
Definition page_installed (m : Z -> Z) : Prop :=
  forall a, TRAMPOLINE_PHYS <= a < TRAMPOLINE_DATA_PHYS -> m a = page a.

Lemma install_page t m a :
  trampoline_vaddr t <= a < trampoline_vaddr t + 4096 -> install t m a = install t (fun _ => 0) a.
Proof.
  intros Ha. unfold install, copy, fill.
  do 3 (match goal with |- (if ?b then _ else _) = _ => destruct b end; [done|]).
  destruct (Z.leb_spec (trampoline_vaddr t) a), (Z.ltb_spec a (trampoline_vaddr t + 4096)); (done || lia).
Qed.

Lemma install_installed m : page_installed (install bsp_trampoline m).
Proof. intros a Ha. apply install_page. change (trampoline_vaddr bsp_trampoline) with 0x8000. addresses. lia. Qed.

Lemma page_installed_store m a n v :
  page_installed m -> a + Z.of_nat n <= TRAMPOLINE_PHYS \/ TRAMPOLINE_DATA_PHYS <= a ->
  page_installed (store m a n v).
Proof. intros Hm Ha x Hx. rewrite store_out by lia. by apply Hm. Qed.

Section execution.
Context (mapped : Z -> bool).
Hypothesis Hmapped : forall a, TRAMPOLINE_PHYS <= a < TRAMPOLINE_PHYS + 4096 -> mapped a = true.

Lemma cpu_step_page c m :
  page_installed m -> TRAMPOLINE_PHYS <= pc c -> pc c + 11 <= TRAMPOLINE_DATA_PHYS ->
  cpu_step mapped c m =
  match decode (md c) page (pc c) with
  | None => Outside
  | Some (i, len) => exec mapped i (set_pc c (pc c + len)) m
  end.
Proof.
  intros Hm Hlo Hhi. unfold cpu_step. rewrite Hmapped by (addresses; lia).
  simpl negb. cbv iota. rewrite (decode_ext _ m page); [done|]. intros a Ha. apply Hm. lia.
Qed.

Lemma mapped_page a n :
  TRAMPOLINE_PHYS <= a -> a + Z.of_nat n <= TRAMPOLINE_PHYS + 4096 -> mapped_range mapped a n = true.
Proof. intros. apply mapped_range_true. intros x Hx. apply Hmapped. lia. Qed.

Lemma load_page m a n :
  page_installed m -> TRAMPOLINE_PHYS <= a -> a + Z.of_nat n <= TRAMPOLINE_DATA_PHYS ->
  load m a n = load page a n.
Proof. intros Hm Hlo Hhi. apply load_ext. intros x Hx. apply Hm. lia. Qed.

(** Unfolds the interpreter on a known instruction, but no arithmetic. *)
Ltac unfold_cpu :=
  cbv beta iota zeta delta [exec set_pc set_rax set_rcx set_rdx set_rsp set_rdi set_ds set_cr set_efer
    set_gdt set_md md pc rax rcx rdx rsp rdi ds_base cr0 cr3 cr4 efer gdt_base gdt_limit get_cr
    pe pg pae lme lma set_ax set_al eax descriptor descriptor_base load_segment jump_far write_cr
    negb andb orb decide decide_rel cpu_mode_eq_dec cpu_mode_rec cpu_mode_rect sumbool_rec sumbool_rect
    IA32_EFER].

Ltac is_word z := match z with Z0 => idtac | Zpos _ => idtac | Zneg _ => idtac end.

Ltac is_operation f :=
  match f with
  | Z.add => idtac | Z.mul => idtac | Z.land => idtac | Z.lor => idtac | Z.shiftl => idtac
  | Z.shiftr => idtac | Z.testbit => idtac | Z.eqb => idtac | Z.leb => idtac | bnot => idtac
  end.

(** Evaluates the operations on known words. *)
Ltac closed_words :=
  repeat match goal with
         | |- context [?f ?a ?b] =>
             is_operation f; is_word a; is_word b;
             let v := eval vm_compute in (f a b) in change (f a b) with v
         end.

(** Reads the bytes of the page. *)
Ltac page_bytes m Hm :=
  repeat match goal with
         | |- context [load m ?a ?n] =>
             is_word a; rewrite (load_page m a n Hm) by done;
             let b := eval vm_compute in (load page a n) in change (load page a n) with b
         | |- context [m ?a] =>
             is_word a; rewrite (Hm a) by done;
             let b := eval vm_compute in (page a) in change (page a) with b
         end.

(** Executes the instruction at a known address of the page. *)
Ltac ap_step m Hm HP :=
  split; [exact HP|];
  rewrite (cpu_step_page _ _ Hm) by done; cbn [md pc];
  match goal with
  | |- context [decode ?d page ?a] =>
      let i := eval vm_compute in (decode d page a) in change (decode d page a) with i
  end;
  unfold_cpu;
  repeat progress (closed_words; rewrite ?land_ax_cleared; rewrite ?mapped_page by done; page_bytes m Hm; unfold_cpu).

Context (P : (Z -> Z) -> Prop).

(** Real mode: the jump to 32-bit code is reached with the GDT loaded. *)
Lemma ap_real_mode n ax cx dx sp di m :
  page_installed m -> P m ->
  faults_within mapped P n
    {| md := Prot32; pc := 0x8020; rax := 0x60000011; rcx := cx; rdx := dx; rsp := sp; rdi := di;
       ds_base := 0; cr0 := 0x60000011; cr3 := 0; cr4 := 0; efer := 0;
       gdt_base := 0x8088; gdt_limit := 0x27 |} m ->
  faults_within mapped P (10 + n) (ap_start ax cx dx sp di) m.
Proof.
  intros Hm HP Hn. unfold ap_start. change TRAMPOLINE_PHYS with 0x8000. cbn [Nat.add].
  do 10 ap_step m Hm HP. exact Hn.
Qed.

(** Protected mode: 64-bit code is reached with paging on. *)
Lemma ap_protected_mode n cx dx sp di m :
  page_installed m -> P m ->
  (forall cr3_value, faults_within mapped P n
    {| md := Long64; pc := 0x8060; rax := 0xE0000011; rcx := 0xC0000080; rdx := 0; rsp := sp; rdi := di;
       ds_base := 0; cr0 := 0xE0000011; cr3 := cr3_value; cr4 := 0x20; efer := 0x500;
       gdt_base := 0x8088; gdt_limit := 0x27 |} m) ->
  faults_within mapped P (19 + n)
    {| md := Prot32; pc := 0x8020; rax := 0x60000011; rcx := cx; rdx := dx; rsp := sp; rdi := di;
       ds_base := 0; cr0 := 0x60000011; cr3 := 0; cr4 := 0; efer := 0;
       gdt_base := 0x8088; gdt_limit := 0x27 |} m.
Proof.
  intros Hm HP Hn. cbn [Nat.add].
  do 19 ap_step m Hm HP. apply Hn.
Qed.

Hypothesis HPs : forall m v, P m -> P (store m 0xE0000000 1 v).

(** [add [rax], al] outside the page. *)
Lemma ap_add_step n c m :
  page_installed m -> P m -> md c = Long64 -> rax c = 0xE0000000 ->
  TRAMPOLINE_PHYS <= pc c -> pc c + 11 <= TRAMPOLINE_DATA_PHYS ->
  decode Long64 page (pc c) = Some (AddMemRaxAl, 2) ->
  (forall m', page_installed m' -> P m' -> faults_within mapped P n (set_pc c (pc c + 2)) m') ->
  faults_within mapped P (S n) c m.
Proof.
  intros Hm HP Hmd Hrax Hlo Hhi Hdec Hn. split; [done|].
  rewrite (cpu_step_page _ _ Hm Hlo Hhi), Hmd, Hdec. unfold exec. cbn [rax set_pc]. rewrite Hrax.
  destruct (mapped 0xE0000000); [|exact I]. apply Hn; [|by apply HPs].
  apply page_installed_store; [done|]. addresses. lia.
Qed.

(** What the bytes of the GDT, which [install] copies over the end of the code,
    do when they are executed. *)
Lemma ap_gdt_as_code cx dx sp di cr3_value m :
  page_installed m -> P m ->
  faults_within mapped P 7
    {| md := Long64; pc := 0x8084; rax := 0xE0000000; rcx := cx; rdx := dx; rsp := sp; rdi := di;
       ds_base := 0; cr0 := 0xE0000011; cr3 := cr3_value; cr4 := 0x20; efer := 0x500;
       gdt_base := 0x8088; gdt_limit := 0x27 |} m.
Proof.
  intros Hm HP. apply ap_add_step; try done. cbn [set_pc md pc]. clear m Hm HP. intros m Hm HP.
  unfold_cpu. closed_words. ap_step m Hm HP.
  do 4 (apply ap_add_step; try done; clear m Hm HP; intros m Hm HP; unfold_cpu; closed_words).
  split; [exact HP|]. rewrite (cpu_step_page _ _ Hm) by done. exact I.
Qed.

Lemma ap_long_mode n cx dx sp di cr3_value m :
  page_installed m -> P m ->
  (forall sp_value, faults_within mapped P n
    {| md := Long64; pc := 0x8084; rax := 0xE0000000; rcx := cx; rdx := dx; rsp := sp_value; rdi := di;
       ds_base := 0; cr0 := 0xE0000011; cr3 := cr3_value; cr4 := 0x20; efer := 0x500;
       gdt_base := 0x8088; gdt_limit := 0x27 |} (store m 0x8F18 4 0x80880027)) ->
  faults_within mapped P (9 + n)
    {| md := Long64; pc := 0x8060; rax := 0xE0000011; rcx := cx; rdx := dx; rsp := sp; rdi := di;
       ds_base := 0; cr0 := 0xE0000011; cr3 := cr3_value; cr4 := 0x20; efer := 0x500;
       gdt_base := 0x8088; gdt_limit := 0x27 |} m.
Proof.
  intros Hm HP Hn. cbn [Nat.add]. do 9 ap_step m Hm HP. apply Hn.
Qed.
End execution.

(** ** Proofs: the data block *)

Section data.
Context (p : profile) (t : ap_trampoline).
Context (Ht : in_range 64 (trampoline_vaddr t + TRAMPOLINE_DATA_OFFSET)).

Let data := trampoline_vaddr t + TRAMPOLINE_DATA_OFFSET.

Lemma data_ptr_ok : data_ptr p t = Ok data.
Proof. by apply arith_in_range. Qed.

Lemma is_ap_ready_ok m : is_ap_ready p t m = Ok (negb (load m (data + 28) 4 =? 0)).
Proof. unfold is_ap_ready. by rewrite data_ptr_ok. Qed.

(** The memory after [set_ap_data], with the offsets of the fields computed. *)
Lemma set_ap_data_ok m pml4 stack entry cpu_index :
  set_ap_data p t m pml4 stack entry cpu_index =
  Ok (store (store (store (store (store m (data + 0) 8 pml4) (data + 8) 8 stack) (data + 16) 8 entry)
        (data + 24) 4 cpu_index) (data + 28) 4 0).
Proof. unfold set_ap_data. by rewrite data_ptr_ok. Qed.

Lemma wait_loop_ok at_poll i n :
  exists b, wait_loop p t at_poll i n = Ok b /\
    (b = true <-> exists k, (i <= k < i + n)%nat /\ load (at_poll k) (data + 28) 4 <> 0).
Proof.
  revert i. induction n as [|n IH]; intros i.
  - exists false. split; [done|]. split; [done|]. intros (k & Hk & _). lia.
  - cbn [wait_loop]. rewrite is_ap_ready_ok. unfold mbind, res_bind.
    destruct (Z.eqb_spec (load (at_poll i) (data + 28) 4) 0) as [Hz|Hnz]; cbn [negb].
    + destruct (IH (S i)) as (b & Hw & Hb). exists b. split; [done|]. rewrite Hb.
      split; intros (k & Hk & Hl); exists k; (split; [|done]).
      * lia.
      * destruct (decide (k = i)) as [->|]; [done|lia].
    + exists true. split; [done|]. split; [|done]. intros _. exists i. split; [lia|done].
Qed.
End data.

(** Reads of one field among writes of the others. *)
Ltac field_reads := repeat (rewrite load_store_out by (simpl; lia)).

Lemma bsp_data_range : in_range 64 (trampoline_vaddr bsp_trampoline + TRAMPOLINE_DATA_OFFSET).
Proof. done. Qed.

(** *** The starting processor, whatever the data block holds *)

(** The page is installed and the ready flag is clear. *)
Definition not_ready (m : Z -> Z) : Prop := page_installed m /\ load m 0x8F1C 4 = 0.

Lemma not_ready_store m a n v :
  not_ready m ->
  a + Z.of_nat n <= TRAMPOLINE_PHYS \/ (TRAMPOLINE_DATA_PHYS <= a /\ (a + Z.of_nat n <= 0x8F1C \/ 0x8F20 <= a)) ->
  not_ready (store m a n v).
Proof.
  intros [Hp Hl] Ha. split.
  - apply page_installed_store; [done|]. destruct Ha as [|[]]; [by left|by right].
  - rewrite load_store_out; [done|]. addresses. simpl. lia.
Qed.

Lemma ap_faults mapped ax cx dx sp di m :
  (forall a, TRAMPOLINE_PHYS <= a < TRAMPOLINE_PHYS + 4096 -> mapped a = true) ->
  not_ready m -> faults_within mapped not_ready 45 (ap_start ax cx dx sp di) m.
Proof.
  intros Hmapped Hm. pose proof Hm as [Hp _].
  apply (ap_real_mode mapped Hmapped not_ready 35); [done|done|].
  apply (ap_protected_mode mapped Hmapped not_ready 16); [done|done|]. intros cr3_value.
  apply (ap_long_mode mapped Hmapped not_ready 7); [done|done|]. intros sp_value.
  assert (not_ready (store m 0x8F18 4 0x80880027)) as [? ?].
  { apply not_ready_store; [done|]. right. addresses. simpl. lia. }
  apply (ap_gdt_as_code mapped Hmapped not_ready); [|done|done].
  intros m' v Hm'. apply not_ready_store; [done|]. right. addresses. lia.
Qed.

Lemma set_ap_data_not_ready p m pml4 stack entry cpu_index :
  page_installed m ->
  exists m', set_ap_data p bsp_trampoline m pml4 stack entry cpu_index = Ok m' /\ not_ready m'.
Proof.
  intros Hm. rewrite set_ap_data_ok by done. eexists. split; [reflexivity|]. split.
  - repeat (apply page_installed_store;
      [|right; addresses; change (trampoline_vaddr bsp_trampoline + TRAMPOLINE_DATA_OFFSET) with 0x8F00; lia]).
    done.
  - change (trampoline_vaddr bsp_trampoline + TRAMPOLINE_DATA_OFFSET + 28) with 0x8F1C.
    rewrite load_store; [done|simpl; lia].
Qed.

(** ** Properties *)

(** C22: After [install] and [set_ap_data], whatever the page table, the stack, the
    entry point and the index given, a processor started at the trampoline page
    never sets the ready flag and never calls the entry point: it runs from real
    mode to 64-bit code, overwrites the index, executes the GDT that [install]
    copied over the last 26 bytes of the code, and faults within 45 instructions;
    until then [is_ap_ready] is false. *)
Theorem ap_never_ready p mapped m0 pml4 stack entry cpu_index ax cx dx sp di :
  (forall a, TRAMPOLINE_PHYS <= a < TRAMPOLINE_PHYS + 4096 -> mapped a = true) ->
  exists m,
    set_ap_data p bsp_trampoline (install bsp_trampoline m0) pml4 stack entry cpu_index = Ok m /\
    (exists n, (n <= 45)%nat /\ cpu_run mapped n (ap_start ax cx dx sp di) m = Fault) /\
    forall n, match cpu_run mapped n (ap_start ax cx dx sp di) m with
              | Next _ m' => is_ap_ready p bsp_trampoline m' = Ok false
              | Fault => True
              | _ => False
              end.
Proof.
  intros Hmapped.
  destruct (set_ap_data_not_ready p (install bsp_trampoline m0) pml4 stack entry cpu_index)
    as (m & Hset & Hm); [apply install_installed|].
  exists m. split; [done|]. destruct (faults_within_run _ _ _ _ _ (ap_faults mapped ax cx dx sp di m Hmapped Hm))
    as [Hex Hall]. split; [done|]. intros n. specialize (Hall n).
  destruct (cpu_run _ _ _ _) as [c m'| | | |]; try done. destruct Hall as [_ Hl].
  rewrite is_ap_ready_ok by done.
  change (trampoline_vaddr bsp_trampoline + TRAMPOLINE_DATA_OFFSET + 28) with 0x8F1C. by rewrite Hl.
Qed.

(** The last instructions of the trampoline, as listed, use other offsets than
    the structure has: the store of the ready flag writes [cpu_index] (offset
    0x18; [ap_ready] is at 0x1C), so [is_ap_ready] stays false; and the argument
    loaded for the entry point from offset 0x14 has the upper half of the entry
    address as its low 32 bits, which is what [ap_entry] takes as its index,
    instead of [cpu_index]. *)
Theorem trampoline_offsets_differ p m0 pml4 stack entry cpu_index m :
  in_range 64 entry -> in_range 32 cpu_index ->
  set_ap_data p bsp_trampoline m0 pml4 stack entry cpu_index = Ok m ->
  let code a := nth (Z.to_nat (a - TRAMPOLINE_PHYS)) TRAMPOLINE_CODE 0 in
  let m' := store m (TRAMPOLINE_DATA_PHYS + 0x18) 4 1 in
  decode Long64 code (TRAMPOLINE_PHYS + 0x79) = Some (MovMemImm (TRAMPOLINE_DATA_PHYS + 0x18) 1, 11) /\
  decode Long64 code (TRAMPOLINE_PHYS + 0x84) = Some (MovRdiMem (TRAMPOLINE_DATA_PHYS + 0x14), 8) /\
  TRAMPOLINE_DATA_PHYS + 0x18 = field TRAMPOLINE_DATA_PHYS 3 /\
  is_ap_ready p bsp_trampoline m' = Ok false /\
  wrap 32 (load m' (TRAMPOLINE_DATA_PHYS + 0x14) 8) = entry / 2 ^ 32.
Proof.
  intros He Hc Hset code m'. rewrite set_ap_data_ok in Hset by done. injection Hset as Hm.
  split_and!; [done|done|done| |].
  - rewrite is_ap_ready_ok by done. unfold m'. rewrite <-Hm.
    change (trampoline_vaddr bsp_trampoline + TRAMPOLINE_DATA_OFFSET) with 0x8F00. addresses.
    rewrite load_store_out by (simpl; lia). rewrite load_store; [done|simpl; lia].
  - change (TRAMPOLINE_DATA_PHYS + 0x14) with 0x8F14. change 8%nat with (4 + 4)%nat.
    rewrite load_split. unfold wrap. change (256 ^ Z.of_nat 4) with (2 ^ 32).
    rewrite Z.mul_comm, Z.mod_add by lia. unfold m'. rewrite <-Hm.
    addresses.
    change (trampoline_vaddr bsp_trampoline) with 0x8000. change TRAMPOLINE_DATA_OFFSET with 0xF00.
    field_reads. change (0x8000 + 0xF00 + 16) with 0x8F10. change 0x8F14 with (0x8F10 + Z.of_nat 4).
    change 8%nat with (4 + 4)%nat. rewrite load_store_upper by done.
    apply Z.mod_small. unfold in_range in He. split; [apply Z.div_pos; lia|].
    apply Z.div_lt_upper_bound; lia.
Qed.


(** [set_ap_data] writes the five words that the starting processor reads:
    each field of the structure reads back as given, the ready flag is clear, and
    no byte outside the first 32 of the structure changes. *)
Theorem set_ap_data_fields p t m pml4 stack entry cpu_index :
  in_range 64 (trampoline_vaddr t + TRAMPOLINE_DATA_OFFSET) ->
  in_range 64 pml4 -> in_range 64 stack -> in_range 64 entry -> in_range 32 cpu_index ->
  let data := trampoline_vaddr t + TRAMPOLINE_DATA_OFFSET in
  exists m', set_ap_data p t m pml4 stack entry cpu_index = Ok m' /\
    map (fun '(i, n) => load m' (field data i) n) [(0, 8); (1, 8); (2, 8); (3, 4); (4, 4)]%nat =
      [pml4; stack; entry; cpu_index; 0] /\
    is_ap_ready p t m' = Ok false /\
    forall a, a < data \/ data + 32 <= a -> m' a = m a.
Proof.
  intros Ht H1 H2 H3 H4 data. rewrite set_ap_data_ok by done. fold data. eexists. split; [reflexivity|].
  assert (Hread : forall m a n v, in_range (8 * Z.of_nat n) v -> load (store m a n v) a n = v).
  { intros m1 a n v Hv. apply load_store. unfold in_range in Hv. by rewrite Z.pow_mul_r in Hv by lia. }
  split_and!.
  - unfold map, field. change (offset trampoline_data 0) with 0. change (offset trampoline_data 1) with 8.
    change (offset trampoline_data 2) with 16. change (offset trampoline_data 3) with 24.
    change (offset trampoline_data 4) with 28.
    repeat f_equal; field_reads; by apply Hread.
  - rewrite is_ap_ready_ok by done. fold data. by rewrite Hread.
  - intros a Ha. rewrite !store_out by (simpl; lia). done.
Qed.

(** [wait_ap_ready] always returns, and returns true exactly when one of its
    polls, at most [max_iterations], sees the ready flag set. *)
Theorem wait_ap_ready_iff p t at_poll max_iterations :
  in_range 64 (trampoline_vaddr t + TRAMPOLINE_DATA_OFFSET) ->
  exists b, wait_ap_ready p t at_poll max_iterations = Ok b /\
    (b = true <-> exists k, (k < max_iterations)%nat /\
      load (at_poll k) (field (trampoline_vaddr t + TRAMPOLINE_DATA_OFFSET) 4) 4 <> 0).
Proof.
  intros Ht. destruct (wait_loop_ok p t Ht at_poll 0 max_iterations) as (b & Hw & Hb).
  exists b. split; [exact Hw|]. rewrite Hb.
  split; intros (k & Hk & Hl); exists k; (split; [lia|exact Hl]).
Qed.

(** ** Examples *)

Definition demo_memory : Z -> Z := fun _ => 0.

Lemma ap_never_ready_witness :
  exists m,
    set_ap_data Debug bsp_trampoline (install bsp_trampoline demo_memory) 0x1000 0x90000 0x200000 1 = Ok m /\
    exists n, (n <= 45)%nat /\ cpu_run (fun _ => true) n (ap_start 0 0 0 0 0) m = Fault.
Proof.
  destruct (ap_never_ready Debug (fun _ => true) demo_memory 0x1000 0x90000 0x200000 1 0 0 0 0 0
    ltac:(done)) as (m & Hset & Hex & _). by exists m.
Defined.

Lemma trampoline_offsets_differ_witness :
  exists m, set_ap_data Debug bsp_trampoline demo_memory 0x1000 0x90000 0x200000 1 = Ok m /\
    wrap 32 (load (store m (TRAMPOLINE_DATA_PHYS + 0x18) 4 1) (TRAMPOLINE_DATA_PHYS + 0x14) 8) = 0.
Proof.
  eexists. split; [reflexivity|].
  exact (proj2 (proj2 (proj2 (proj2 (trampoline_offsets_differ Debug demo_memory 0x1000 0x90000 0x200000 1 _
    ltac:(done) ltac:(done) eq_refl))))).
Defined.

Lemma set_ap_data_fields_witness :
  exists m', set_ap_data Release bsp_trampoline demo_memory 0x1000 0x90000 0x200000 3 = Ok m' /\
    is_ap_ready Release bsp_trampoline m' = Ok false.
Proof.
  destruct (set_ap_data_fields Release bsp_trampoline demo_memory 0x1000 0x90000 0x200000 3
    bsp_data_range ltac:(done) ltac:(done) ltac:(done) ltac:(done)) as (m' & Hs & _ & Hr & _).
  by exists m'.
Defined.

Lemma wait_ap_ready_iff_witness :
  wait_ap_ready Debug bsp_trampoline (fun k => if (k <? 5)%nat then demo_memory else fun _ => 1) 10 = Ok true.
Proof.
  destruct (wait_ap_ready_iff Debug bsp_trampoline
    (fun k => if (k <? 5)%nat then demo_memory else fun _ => 1) 10 bsp_data_range) as (b & Hw & Hb).
  rewrite Hw. f_equal. apply Hb. by exists 7%nat; split; [lia|].
Defined.
