(* ===== verification/Switch.v ===== *)
(** * Switch: the context switch (src/src/scheduler.rs, [context_switch])

    The inline assembly, instruction by instruction, on a register file, the
    flags and byte memory. The registers that the compiler allocates for the
    operands [{old}] and [{new}] are parameters, as is the address of the label
    [2:]. *)

From stdpp Require Import strings.
From S2P Require Import Prelude Memory Task.

(** ** The machine *)

Inductive reg :=
| RAX | RBX | RCX | RDX | RSI | RDI | RBP | RSP
| R8 | R9 | R10 | R11 | R12 | R13 | R14 | R15.

#[global] Instance reg_eq_dec : EqDecision reg.
Proof. solve_decision. Defined.

Record machine := Machine { regs : reg -> Z; flags : Z; mem : Z -> Z }.

Definition upd (r : reg) (v : Z) (f : reg -> Z) : reg -> Z := fun r' => if decide (r' = r) then v else f r'.

(** The flags that [popfq] loads in ring 0; bit 1 always reads as 1. *)
Definition FLAGS_MASK : Z := 0x247FD5.
Definition popf (v : Z) : Z := Z.lor (Z.land v FLAGS_MASK) 2.

Inductive instr :=
| MovStore (base : reg) (off : Z) (src : reg)
| MovLoad (dst base : reg) (off : Z)
| LeaRip (dst : reg) (label : Z)
| Pushfq
| Popfq
| Push (src : reg)
| Pop (dst : reg)
| Jmp (target : reg).

(** One instruction, and the address it jumps to if it is a jump. *)
Definition exec (i : instr) (s : machine) : machine * option Z :=
  match i with
  | MovStore base off src => (Machine (regs s) (flags s) (store (mem s) (regs s base + off) 8 (regs s src)), None)
  | MovLoad dst base off => (Machine (upd dst (load (mem s) (regs s base + off) 8) (regs s)) (flags s) (mem s), None)
  | LeaRip dst label => (Machine (upd dst label (regs s)) (flags s) (mem s), None)
  | Pushfq =>
      let sp := regs s RSP - 8 in
      (Machine (upd RSP sp (regs s)) (flags s) (store (mem s) sp 8 (flags s)), None)
  | Popfq =>
      let sp := regs s RSP in
      (Machine (upd RSP (sp + 8) (regs s)) (popf (load (mem s) sp 8)) (mem s), None)
  | Push src =>
      let sp := regs s RSP - 8 in
      (Machine (upd RSP sp (regs s)) (flags s) (store (mem s) sp 8 (regs s src)), None)
  | Pop dst =>
      let sp := regs s RSP in
      (Machine (upd dst (load (mem s) sp 8) (upd RSP (sp + 8) (regs s))) (flags s) (mem s), None)
  | Jmp target => (s, Some (regs s target))
  end.

(** Straight-line code up to its jump. *)
Fixpoint run (code : list instr) (s : machine) : option (Z * machine) :=
  match code with
  | [] => None
  | i :: code =>
      match exec i s with
      | (s, Some target) => Some (target, s)
      | (s, None) => run code s
      end
  end.

(** ** The code *)

Definition save_code (old : reg) (label : Z) : list instr :=
  [MovStore old 0x00 RSP; MovStore old 0x08 RBP; MovStore old 0x10 RBX; MovStore old 0x18 R12;
   MovStore old 0x20 R13; MovStore old 0x28 R14; MovStore old 0x30 R15;
   LeaRip RAX label; MovStore old 0x38 RAX;
   Pushfq; Pop RAX; MovStore old 0x40 RAX].

Definition restore_code (new : reg) : list instr :=
  [MovLoad RSP new 0x00; MovLoad RBP new 0x08; MovLoad RBX new 0x10; MovLoad R12 new 0x18;
   MovLoad R13 new 0x20; MovLoad R14 new 0x28; MovLoad R15 new 0x30;
   MovLoad RAX new 0x40; Push RAX; Popfq;
   MovLoad RDI new 0x68;
   MovLoad RAX new 0x38; Jmp RAX].

Definition context_switch (old new : reg) (label : Z) (s : machine) : option (Z * machine) :=
  run (save_code old label ++ restore_code new) s.

(** ** Specification *)

(** [#[repr(C)] struct CpuContext]: twenty [u64]. *)
Definition cpu_context_fields : list ctype := replicate 20 CU64.

Definition context_words (c : cpu_context) : list Z :=
  [rsp c; rbp c; rbx c; r12 c; r13 c; r14 c; r15 c; rip c; rflags c;
   rax c; rcx c; rdx c; rsi c; rdi c; r8 c; r9 c; r10 c; r11 c; cs c; ss c].

(** The structure at address [a] holds the context [c]. *)
Definition context_at (m : Z -> Z) (a : Z) (c : cpu_context) : Prop :=
  forall i w, context_words c !! i = Some w -> load m (a + offset cpu_context_fields i) 8 = w.

(** A register that the code does not change before its last use of an operand. *)
Definition untouched (r : reg) : bool :=
  match r with
  | RCX | RDX | RSI | R8 | R9 | R10 | R11 => true
  | _ => false
  end.

Definition apart (a n b k : Z) : Prop := a + n <= b \/ b + k <= a.

(** Two contexts and the slots below the two stack pointers, which do not overlap. *)
Record switch_ok (s : machine) (o n nsp : Z) : Prop := {
  ok_contexts : apart o 160 n 160;
  ok_old_slot : apart (regs s RSP - 8) 8 o 160 /\ apart (regs s RSP - 8) 8 n 160;
  ok_new_slot : apart (nsp - 8) 8 o 160 /\ apart (nsp - 8) 8 n 160;
}.

Definition regs_in_range (s : machine) : Prop := forall r, in_range 64 (regs s r).

(** What [context_switch] saves: the callee-saved registers, the flags and where
    to resume; the rest of the structure keeps its values [c]. *)
Definition saved_context (s : machine) (label : Z) (c : cpu_context) : cpu_context := {|
  rsp := regs s RSP; rbp := regs s RBP; rbx := regs s RBX;
  r12 := regs s R12; r13 := regs s R13; r14 := regs s R14; r15 := regs s R15;
  rip := label; rflags := flags s;
  rax := rax c; rcx := rcx c; rdx := rdx c; rsi := rsi c; rdi := rdi c;
  r8 := r8 c; r9 := r9 c; r10 := r10 c; r11 := r11 c; cs := cs c; ss := ss c;
|}.

(** The registers that the switch restores hold the values of [c]. *)
Definition restored (s : machine) (c : cpu_context) : Prop :=
  regs s RSP = rsp c /\ regs s RBP = rbp c /\ regs s RBX = rbx c /\ regs s R12 = r12 c /\
  regs s R13 = r13 c /\ regs s R14 = r14 c /\ regs s R15 = r15 c /\ flags s = popf (rflags c) /\
  regs s RDI = rdi c.

(** ** Proofs *)

Lemma upd_eq r v f : upd r v f r = v.
Proof. unfold upd. by rewrite decide_True. Qed.

Lemma upd_ne r r' v f : r' <> r -> upd r v f r' = f r'.
Proof. intros. unfold upd. by rewrite decide_False. Qed.

Lemma untouched_ne r r' : untouched r = true -> untouched r' = false -> r <> r'.
Proof. intros H1 H2 ->. congruence. Qed.

(** Reads through register updates. *)
Ltac reg_reads :=
  repeat (rewrite upd_eq || (rewrite upd_ne by (done || by apply untouched_ne))).

(** The words below [rip] in a context, one store each. *)
Definition save_mem (s : machine) (o label : Z) : Z -> Z :=
  let m := store (mem s) (o + 0x00) 8 (regs s RSP) in
  let m := store m (o + 0x08) 8 (regs s RBP) in
  let m := store m (o + 0x10) 8 (regs s RBX) in
  let m := store m (o + 0x18) 8 (regs s R12) in
  let m := store m (o + 0x20) 8 (regs s R13) in
  let m := store m (o + 0x28) 8 (regs s R14) in
  let m := store m (o + 0x30) 8 (regs s R15) in
  let m := store m (o + 0x38) 8 label in
  let m := store m (regs s RSP - 8) 8 (flags s) in
  store m (o + 0x40) 8 (flags s).

Lemma run_app_save old label code s :
  untouched old = true -> in_range 64 (flags s) ->
  exists f, run (save_code old label ++ code) s = run code (Machine f (flags s) (save_mem s (regs s old) label)) /\
    forall r, r <> RAX -> f r = regs s r.
Proof.
  intros Hold Hfl. eexists. split.
  - cbn [app save_code run exec regs flags mem]. reg_reads.
    replace (regs s RSP - 8 + 8) with (regs s RSP) by lia.
    rewrite (load_store _ (regs s RSP - 8) 8 (flags s)) by done. reflexivity.
  - intros r Hr. rewrite upd_ne by done. destruct (decide (r = RSP)) as [->|Hne]; reg_reads; done.
Qed.

Lemma run_restore new s :
  untouched new = true ->
  let n := regs s new in
  let w off := load (mem s) (n + off) 8 in
  in_range 64 (w 0x40) -> apart (w 0x00 - 8) 8 n 160 ->
  exists s', run (restore_code new) s = Some (w 0x38, s') /\
    mem s' = store (mem s) (w 0x00 - 8) 8 (w 0x40) /\
    regs s' RSP = w 0x00 /\ regs s' RBP = w 0x08 /\ regs s' RBX = w 0x10 /\ regs s' R12 = w 0x18 /\
    regs s' R13 = w 0x20 /\ regs s' R14 = w 0x28 /\ regs s' R15 = w 0x30 /\
    flags s' = popf (w 0x40) /\ regs s' RDI = w 0x68.
Proof.
  intros Hnew n w Hfl Hslot. unfold apart in Hslot. cbn [restore_code run exec regs flags mem]. reg_reads.
  fold n. fold (w 0x00) (w 0x40). eexists. split; [|split].
  - rewrite load_store_out by (simpl; lia). reflexivity.
  - done.
  - cbn [regs flags]. reg_reads. fold n. rewrite !(load_store_out _ _ _ _ (n + _)) by (simpl; lia).
    rewrite load_store by done. split_and!; try reflexivity. lia.
Qed.

(** The offsets of the assembly are those of the structure. *)
Lemma context_offsets : map (offset cpu_context_fields) (seq 0 20) = map (fun i => 8 * Z.of_nat i) (seq 0 20).
Proof. reflexivity. Qed.

Lemma context_at_word m a c i w :
  context_at m a c -> context_words c !! i = Some w -> load m (a + 8 * Z.of_nat i) 8 = w.
Proof.
  intros Hat Hi. rewrite <-(Hat i w Hi). f_equal. f_equal.
  pose proof (lookup_lt_Some _ _ _ Hi) as Hlt. simpl in Hlt.
  do 20 (destruct i as [|i]; [reflexivity|]). lia.
Qed.

Lemma context_at_intro m a c :
  (forall i w, context_words c !! i = Some w -> load m (a + 8 * Z.of_nat i) 8 = w) -> context_at m a c.
Proof.
  intros Hat i w Hi. rewrite <-(Hat i w Hi). f_equal. f_equal.
  pose proof (lookup_lt_Some _ _ _ Hi) as Hlt. simpl in Hlt.
  do 20 (destruct i as [|i]; [reflexivity|]). lia.
Qed.

(** Writes apart from a context keep it. *)
Lemma context_at_store m a c b v :
  context_at m a c -> apart b 8 a 160 -> context_at (store m b 8 v) a c.
Proof.
  intros Hat Hb. apply context_at_intro. intros i w Hi. unfold apart in Hb.
  pose proof (lookup_lt_Some _ _ _ Hi) as Hlt. simpl in Hlt.
  rewrite load_store_out by (simpl; lia). by apply context_at_word with c.
Qed.

Lemma save_mem_saves s o label c :
  regs_in_range s -> in_range 64 (flags s) -> in_range 64 label ->
  apart (regs s RSP - 8) 8 o 160 -> context_at (mem s) o c ->
  context_at (save_mem s o label) o (saved_context s label c).
Proof.
  intros Hr Hf Hl Hslot Hat. apply context_at_intro. intros i w Hi. unfold apart in Hslot.
  assert (Hstore : forall m a v, in_range 64 v -> load (store m a 8 v) a 8 = v).
  { intros m a v Hv. by apply load_store. }
  unfold save_mem.
  do 9 (destruct i as [|i];
    [injection Hi as <-; repeat (rewrite load_store_out by (simpl; lia)); apply Hstore; (done || apply Hr)|]).
  pose proof (context_at_word _ _ _ (9 + i) w Hat Hi) as Hw.
  pose proof (lookup_lt_Some _ _ _ Hi) as Hlt. simpl in Hlt.
  repeat (rewrite load_store_out by lia). exact Hw.
Qed.

Lemma save_mem_keeps s o label a c :
  apart o 160 a 160 -> apart (regs s RSP - 8) 8 a 160 -> context_at (mem s) a c ->
  context_at (save_mem s o label) a c.
Proof.
  intros Ho Hslot Hat. unfold save_mem. unfold apart in *.
  repeat (apply context_at_store; [|unfold apart; lia]). done.
Qed.

(** The whole switch. *)
Lemma context_switch_ok old new label s o n co cn :
  untouched old = true -> untouched new = true -> regs s old = o -> regs s new = n ->
  switch_ok s o n (rsp cn) -> regs_in_range s -> in_range 64 (flags s) -> in_range 64 label ->
  Forall (in_range 64) (context_words cn) ->
  context_at (mem s) o co -> context_at (mem s) n cn ->
  exists s', context_switch old new label s = Some (rip cn, s') /\ restored s' cn /\
    context_at (mem s') o (saved_context s label co) /\ context_at (mem s') n cn.
Proof.
  intros Hold Hnew Ho Hn [Hctx [Hos1 Hos2] [Hns1 Hns2]] Hr Hf Hl Hcn Hat_o Hat_n.
  destruct (run_app_save old label (restore_code new) s Hold Hf) as (f & Hrun & Hregs).
  unfold context_switch. rewrite Hrun, Ho.
  pose proof (save_mem_saves s o label co Hr Hf Hl Hos1 Hat_o) as Hsaved.
  pose proof (save_mem_keeps s o label n cn Hctx Hos2 Hat_n) as Hkept.
  set (m1 := save_mem s o label) in *.
  assert (Hfn : f new = n) by (rewrite Hregs; [exact Hn|by apply untouched_ne]).
  assert (Hw : forall i w, context_words cn !! i = Some w -> load m1 (n + 8 * Z.of_nat i) 8 = w)
    by (intros i w; by apply context_at_word).
  assert (Hword : load m1 (n + 0x00) 8 = rsp cn /\
    load m1 (n + 0x08) 8 = rbp cn /\
    load m1 (n + 0x10) 8 = rbx cn /\
    load m1 (n + 0x18) 8 = r12 cn /\
    load m1 (n + 0x20) 8 = r13 cn /\
    load m1 (n + 0x28) 8 = r14 cn /\
    load m1 (n + 0x30) 8 = r15 cn /\
    load m1 (n + 0x38) 8 = rip cn /\
    load m1 (n + 0x40) 8 = rflags cn /\
    load m1 (n + 0x68) 8 = rdi cn).
  { split_and!; [exact (Hw 0%nat _ eq_refl)|exact (Hw 1%nat _ eq_refl)|exact (Hw 2%nat _ eq_refl)|exact (Hw 3%nat _ eq_refl)|exact (Hw 4%nat _ eq_refl)|exact (Hw 5%nat _ eq_refl)|exact (Hw 6%nat _ eq_refl)|exact (Hw 7%nat _ eq_refl)|exact (Hw 8%nat _ eq_refl)|exact (Hw 13%nat _ eq_refl)]. }
  destruct Hword as (H0 & H1 & H2 & H3 & H4 & H5 & H6 & H7 & H8 & H13).
  destruct (run_restore new (Machine f (flags s) m1) Hnew) as (s' & Hs' & Hmem & Hres); cbn [regs mem].
  - rewrite Hfn, H8. rewrite Forall_lookup in Hcn. by apply (Hcn 8%nat).
  - by rewrite Hfn, H0.
  - cbn [regs mem] in Hs', Hmem, Hres. rewrite Hfn in Hs', Hmem, Hres.
    rewrite ?H0, ?H1, ?H2, ?H3, ?H4, ?H5, ?H6, ?H7, ?H8, ?H13 in *.
    exists s'. split_and!; [done|done| |]; rewrite Hmem; by apply context_at_store.
Qed.

Lemma popf_keeps_if v : Z.testbit (popf v) 9 = Z.testbit v 9.
Proof.
  unfold popf. rewrite Z.lor_spec, Z.land_spec. change (Z.testbit FLAGS_MASK 9) with true.
  change (Z.testbit 2 9) with false. by rewrite andb_true_r, orb_false_r.
Qed.

(** ** Properties *)

(** C24: [context_switch] continues at the saved address of the new context with
    its callee-saved registers, stack pointer, flags and argument register,
    leaving the new context as it was and the old one holding the suspended
    state; and when, later, some code switches back to the old context, execution
    resumes at the label after the assembly with the stack pointer, the
    callee-saved registers and the flags that the first caller had. *)
Theorem context_switch_round_trip old new label s co cn :
  untouched old = true -> untouched new = true ->
  let o := regs s old in let n := regs s new in
  switch_ok s o n (rsp cn) -> regs_in_range s ->
  in_range 64 (flags s) -> popf (flags s) = flags s -> in_range 64 label ->
  Forall (in_range 64) (context_words cn) -> Forall (in_range 64) (context_words co) ->
  context_at (mem s) o co -> context_at (mem s) n cn ->
  (exists s1, context_switch old new label s = Some (rip cn, s1) /\ restored s1 cn /\
    context_at (mem s1) o (saved_context s label co) /\ context_at (mem s1) n cn) /\
  (forall old2 new2 label2 s2 cn2,
    untouched old2 = true -> untouched new2 = true -> regs s2 old2 = n -> regs s2 new2 = o ->
    switch_ok s2 n o (regs s RSP) -> regs_in_range s2 ->
    in_range 64 (flags s2) -> in_range 64 label2 ->
    context_at (mem s2) n cn2 -> context_at (mem s2) o (saved_context s label co) ->
    exists s3, context_switch old2 new2 label2 s2 = Some (label, s3) /\ flags s3 = flags s /\
      forall r, r ∈ [RSP; RBP; RBX; R12; R13; R14; R15] -> regs s3 r = regs s r).
Proof.
  intros Hold Hnew o n Hok Hr Hf Hpf Hl Hcn Hco Hat_o Hat_n. split.
  - by apply (context_switch_ok old new label s o n co cn).
  - intros old2 new2 label2 s2 cn2 Hold2 Hnew2 Hn2 Ho2 Hok2 Hr2 Hf2 Hl2 Hat_n2 Hat_o2.
    assert (Hsaved : Forall (in_range 64) (context_words (saved_context s label co))).
    { cbn in Hco |- *. repeat (apply Forall_cons in Hco as [? Hco]).
      repeat (apply Forall_cons; split; [assumption || apply Hr|]). by apply Forall_nil. }
    destruct (context_switch_ok old2 new2 label2 s2 n o cn2 (saved_context s label co)
      Hold2 Hnew2 Hn2 Ho2 Hok2 Hr2 Hf2 Hl2 Hsaved Hat_n2 Hat_o2) as (s3 & Hsw & Hres & _).
    exists s3. split; [exact Hsw|]. destruct Hres as (H1 & H2 & H3 & H4 & H5 & H6 & H7 & H8 & _).
    cbn [saved_context rsp rbp rbx r12 r13 r14 r15 rflags] in *. split; [exact (eq_trans H8 Hpf)|].
    intros r Hr'. repeat (apply elem_of_cons in Hr' as [->|Hr']; [assumption|]). rewrite elem_of_nil in Hr'. destruct Hr'.
Qed.

(** C40: Switching to a task made by [Task::new] starts its entry point with its
    argument in rdi and interrupts on, on a stack pointer inside the stack
    allocated for it and divisible by 16; since the entry point is jumped to, not
    called, the System V alignment of a function entry ([rsp + 8] divisible by
    16) does not hold there. *)
Theorem new_task_starts p id name entry arg size base t id' old new label s co :
  task_new p id name entry arg size base = Ok (t, id') ->
  0 < base -> 16 <= size -> in_range 64 (base + size) -> in_range 64 entry -> in_range 64 arg ->
  untouched old = true -> untouched new = true ->
  let o := regs s old in let n := regs s new in
  switch_ok s o n (rsp (task_context t)) -> regs_in_range s ->
  in_range 64 (flags s) -> in_range 64 label ->
  context_at (mem s) o co -> context_at (mem s) n (task_context t) ->
  exists s', context_switch old new label s = Some (entry, s') /\
    regs s' RDI = arg /\ Z.testbit (flags s') 9 = true /\
    base < regs s' RSP <= base + size /\ regs s' RSP mod 16 = 0 /\ (regs s' RSP + 8) mod 16 = 8.
Proof.
  intros Ht Hb Hs Hr He Ha Hold Hnew o n Hok Hregs Hf Hl Hat_o Hat_n.
  rewrite task_new_ok in Ht by (done || lia). injection Ht as <- _. cbn [task_context] in *.
  pose proof (Z.mod_pos_bound (base + size) 16 ltac:(lia)) as Hmod.
  set (top := base + size - (base + size) mod 16) in *.
  assert (Htop : top mod 16 = 0). { unfold top. rewrite Zminus_mod_idemp_r. by rewrite Z.sub_diag. }
  assert (Hwords : Forall (in_range 64) (context_words (context_new_task entry top arg))).
  { assert (0 <= top < 2 ^ 64) by (unfold top, in_range in *; lia).
    unfold in_range in *. unfold context_words. cbn [context_new_task rsp rbp rbx r12 r13 r14 r15 rip rflags
      rax rcx rdx rsi rdi r8 r9 r10 r11 cs ss]. repeat (apply Forall_cons; split; [lia|]). by apply Forall_nil. }
  destruct (context_switch_ok old new label s o n co (context_new_task entry top arg)
    Hold Hnew eq_refl eq_refl Hok Hregs Hf Hl Hwords Hat_o Hat_n) as (s' & Hsw & Hres & _).
  exists s'. destruct Hres as (Hsp & _ & _ & _ & _ & _ & _ & Hfl & Hdi). rewrite Hsp, Hdi, Hfl.
  cbn [rsp rdi rflags context_new_task]. split_and!;
    [exact Hsw|reflexivity|reflexivity|lia|lia|exact Htop|].
  rewrite Z.add_mod, Htop by lia. done.
Qed.

(** The operands are declared [in(reg)], which also allows r12 to r15, although
    the assembly loads those before its last use of [{new}]. With [{new}] in r12
    the address jumped to is not the new context's rip but the word at offset
    0x38 from the new context's r12. *)
Theorem operand_in_r12 old label s cn :
  untouched old = true -> in_range 64 (flags s) ->
  let o := regs s old in let n := regs s R12 in
  apart o 160 n 160 -> apart (regs s RSP - 8) 8 n 160 -> context_at (mem s) n cn ->
  exists s', context_switch old R12 label s = Some (load (mem s') (r12 cn + 0x38) 8, s').
Proof.
  intros Hold Hf o n Hctx Hslot Hat.
  destruct (run_app_save old label (restore_code R12) s Hold Hf) as (f & Hrun & Hregs).
  unfold context_switch. rewrite Hrun. fold o. set (m1 := save_mem s o label).
  assert (Hr12 : load m1 (n + 0x18) 8 = r12 cn).
  { pose proof (save_mem_keeps s o label n cn Hctx Hslot Hat) as Hkept.
    exact (context_at_word _ _ _ 3 _ Hkept eq_refl). }
  cbn [restore_code run exec regs flags mem]. reg_reads.
  rewrite (Hregs R12) by done. fold n. rewrite Hr12.
  match goal with |- exists s', Some (_, ?s1) = _ => exists s1 end. reflexivity.
Qed.

(** ** Examples *)

Definition demo_old : cpu_context := context_zeroed.
Definition demo_new : cpu_context := context_new_task 0x401000 0x9000 7.

(** Two contexts at 0x1000 and 0x2000, the stack below 0x8000. *)
Definition demo_mem : Z -> Z :=
  fold_left (fun m '(i, w) => store m (0x2000 + 8 * i) 8 w)
    (imap (fun i w => (Z.of_nat i, w)) (context_words demo_new)) (fun _ => 0).

Definition demo_machine : machine :=
  {| regs r := match r with RCX => 0x1000 | RDX => 0x2000 | R12 => 0x2000 | RSP => 0x8000 | _ => 0 end;
     flags := 2; mem := demo_mem |}.

Lemma context_at_check m a c :
  map (fun i => load m (a + offset cpu_context_fields i) 8) (seq 0 20) = context_words c -> context_at m a c.
Proof.
  intros Hall i w Hi. rewrite <-Hall in Hi. rewrite list_lookup_fmap in Hi.
  destruct (seq 0 20 !! i) as [j|] eqn:Hj; [|done]. injection Hi as <-.
  apply lookup_seq in Hj as [-> _]. done.
Qed.

Lemma demo_contexts : context_at demo_mem 0x1000 demo_old /\ context_at demo_mem 0x2000 demo_new.
Proof. split; apply context_at_check; vm_compute; reflexivity. Qed.

Lemma demo_regs : regs_in_range demo_machine.
Proof. by intros []. Qed.

Lemma demo_switch_ok : switch_ok demo_machine 0x1000 0x2000 0x9000.
Proof. constructor; unfold apart; simpl; lia. Qed.

Lemma context_switch_round_trip_witness :
  exists s1, context_switch RCX RDX 0x5000 demo_machine = Some (0x401000, s1) /\ regs s1 RDI = 7.
Proof.
  destruct (proj1 (context_switch_round_trip RCX RDX 0x5000 demo_machine demo_old demo_new eq_refl eq_refl
    demo_switch_ok demo_regs ltac:(done) ltac:(done) ltac:(done)
    ltac:(repeat constructor; done) ltac:(repeat constructor; done)
    (proj1 demo_contexts) (proj2 demo_contexts))) as (s1 & Hsw & Hres & _).
  exists s1. split; [exact Hsw|]. destruct Hres as (_ & _ & _ & _ & _ & _ & _ & _ & Hdi). exact Hdi.
Defined.

Lemma new_task_starts_witness :
  exists s', context_switch RCX RDX 0x5000 demo_machine = Some (0x401000, s') /\ regs s' RSP mod 16 = 0.
Proof.
  destruct (new_task_starts Debug 1 "t" 0x401000 7 0x1000 0x8000
    (fst (match task_new Debug 1 "t" 0x401000 7 0x1000 0x8000 with Ok x => x | _ => (Task 0 "t" 0 demo_new (StackBox 0 0) None None, 0) end))
    2 RCX RDX 0x5000 demo_machine demo_old eq_refl
    ltac:(lia) ltac:(lia) ltac:(done) ltac:(done) ltac:(done) eq_refl eq_refl
    demo_switch_ok demo_regs ltac:(done) ltac:(done) (proj1 demo_contexts) (proj2 demo_contexts))
    as (s' & Hsw & _ & _ & _ & Hsp & _).
  exists s'. split; [exact Hsw|exact Hsp].
Defined.

Lemma operand_in_r12_witness :
  exists s', context_switch RCX R12 0x5000 demo_machine = Some (load (mem s') (0 + 0x38) 8, s').
Proof.
  apply (operand_in_r12 RCX 0x5000 demo_machine demo_new eq_refl ltac:(done)).
  - left. simpl. lia.
  - right. simpl. lia.
  - exact (proj2 demo_contexts).
Defined.
