(* ===== verification/PerCpu.v ===== *)
(** * PerCpu: per-CPU data (src/src/percpu.rs)

    The heap of [PerCpu] structures, the static array of pointers with its
    counter, and the GS base of each processor. Dereferencing an address that
    holds no structure is undefined behaviour: the lookups return [None]. *)

From S2P Require Import Prelude Memory.

(** ** State *)

Definition IA32_GS_BASE : Z := 0xC0000101.
Definition MAX_CPUS : nat := 256.

(** [#[repr(C, align(64))] struct PerCpu], without its padding. *)
Record per_cpu := PerCpu {
  self_ptr : Z;
  cpu_index : Z;
  apic_id : Z;
  is_bsp : bool;
  kernel_stack_top : Z;
  kernel_stack_size : Z;
  current_task_id : Z;
  interrupt_disable_count : Z;
  local_data : Z;
}.

Definition per_cpu_fields : list ctype :=
  [CPtr; CU32; CU32; CBool; CU64; CU64; CU64; CUsize; CU64; CBytes 8].

(** [percpu_array] and [percpu_count] are the two statics; [gs_base] is the MSR of
    each processor, by a number that identifies the processor. *)
Record percpu_state := PercpuState {
  heap : gmap Z per_cpu;
  percpu_array : list Z;
  percpu_count : Z;
  gs_base : gmap nat Z;
}.

Definition percpu_init : percpu_state := PercpuState ∅ (replicate MAX_CPUS 0) 0 ∅.

(** ** Operations *)

(** [PerCpu::new]: [Box::new] puts the structure at [addr]. *)
Definition per_cpu_new (st : percpu_state) (addr index apic : Z) (bsp : bool) : percpu_state :=
  let percpu := PerCpu 0 index apic bsp 0 0 0 0 0 in
  let percpu := PerCpu addr (cpu_index percpu) (apic_id percpu) (is_bsp percpu)
                  (kernel_stack_top percpu) (kernel_stack_size percpu) (current_task_id percpu)
                  (interrupt_disable_count percpu) (local_data percpu) in
  PercpuState (<[addr := percpu]> (heap st)) (percpu_array st) (percpu_count st) (gs_base st).

Definition set_kernel_stack (c : per_cpu) (stack_top stack_size : Z) : per_cpu :=
  PerCpu (self_ptr c) (cpu_index c) (apic_id c) (is_bsp c) stack_top stack_size
    (current_task_id c) (interrupt_disable_count c) (local_data c).

(** [register_percpu] on processor [me], for the box at [ptr]. *)
Definition register_percpu (st : percpu_state) (me : nat) (ptr : Z) : option (res percpu_state) :=
  percpu ← heap st !! ptr;
  let index := Z.to_nat (cpu_index percpu) in
  Some (if (index <? MAX_CPUS)%nat then
    Ok (PercpuState (heap st) (<[index := ptr]> (percpu_array st)) (wrap 64 (percpu_count st + 1))
          (<[me := ptr]> (gs_base st)))
  else Panic).

Definition get_current_cpu (p : profile) (st : percpu_state) (me : nat) : option (res per_cpu) :=
  base ← gs_base st !! me;
  percpu ← heap st !! base;
  Some (match p with
        | Debug => if self_ptr percpu =? base then Ok percpu else Panic
        | Release => Ok percpu
        end).

Definition get_current_cpu_mut (st : percpu_state) (me : nat) : option per_cpu :=
  base ← gs_base st !! me; heap st !! base.

(** [Some None]: not registered. *)
Definition get_cpu (st : percpu_state) (index : nat) : option (option per_cpu) :=
  if (MAX_CPUS <=? index)%nat then Some None
  else
    let ptr := nth index (percpu_array st) 0 in
    if ptr =? 0 then Some None
    else percpu ← heap st !! ptr; Some (Some percpu).

Definition cpu_count (st : percpu_state) : Z := percpu_count st.

(** The loop [for i in 0..MAX_CPUS]; [cpus] are those found so far. *)
Fixpoint all_cpus_loop (st : percpu_state) (count : Z) (indices : list nat) (cpus : list per_cpu)
    : option (list per_cpu) :=
  match indices with
  | [] => Some cpus
  | i :: indices =>
      found ← get_cpu st i;
      match found with
      | Some cpu =>
          let cpus := cpus ++ [cpu] in
          if Z.of_nat (length cpus) =? count then Some cpus else all_cpus_loop st count indices cpus
      | None => all_cpus_loop st count indices cpus
      end
  end.

Definition all_cpus (st : percpu_state) : option (list per_cpu) :=
  let count := cpu_count st in
  all_cpus_loop st count (seq 0 MAX_CPUS) [].

(** ** Specification

    A boot: each processor registers one structure, at its own address. *)
Record registration := Registration {
  reg_me : nat; reg_addr : Z; reg_index : Z; reg_apic_id : Z; reg_is_bsp : bool;
}.

Definition register (st : percpu_state) (r : registration) : option (res percpu_state) :=
  register_percpu (per_cpu_new st (reg_addr r) (reg_index r) (reg_apic_id r) (reg_is_bsp r))
    (reg_me r) (reg_addr r).

Fixpoint register_all (st : percpu_state) (rs : list registration) : option (res percpu_state) :=
  match rs with
  | [] => Some (Ok st)
  | r :: rs =>
      o ← register st r;
      match o with
      | Ok st => register_all st rs
      | Panic => Some Panic
      | OutOfFuel => Some OutOfFuel
      end
  end.

Definition registered (r : registration) : per_cpu :=
  PerCpu (reg_addr r) (reg_index r) (reg_apic_id r) (reg_is_bsp r) 0 0 0 0 0.

(** Distinct processors, indices below [MAX_CPUS] and live allocations. *)
Record boot_ok (rs : list registration) : Prop := {
  boot_me : NoDup (map reg_me rs);
  boot_index : NoDup (map reg_index rs);
  boot_addr : NoDup (map reg_addr rs);
  boot_range : Forall (fun r => 0 <= reg_index r < 256 /\ reg_addr r <> 0) rs;
}.

(** What the state holds after the registrations [rs]. *)
Record percpu_inv (st : percpu_state) (rs : list registration) : Prop := {
  inv_length : length (percpu_array st) = MAX_CPUS;
  inv_count : percpu_count st = Z.of_nat (length rs);
  inv_heap r : r ∈ rs -> heap st !! reg_addr r = Some (registered r);
  inv_gs r : r ∈ rs -> gs_base st !! reg_me r = Some (reg_addr r);
  inv_array i : (i < MAX_CPUS)%nat ->
    (exists r, r ∈ rs /\ reg_index r = Z.of_nat i /\ percpu_array st !! i = Some (reg_addr r)) \/
    (percpu_array st !! i = Some 0 /\ forall r, r ∈ rs -> reg_index r <> Z.of_nat i);
  inv_indices : NoDup (map reg_index rs) /\ Forall (fun r => 0 <= reg_index r < 256 /\ reg_addr r <> 0) rs;
}.

(** ** Proofs *)

Lemma percpu_inv_init : percpu_inv percpu_init [].
Proof.
  constructor; try done.
  - intros r Hr. by apply elem_of_nil in Hr.
  - intros r Hr. by apply elem_of_nil in Hr.
  - intros i Hi. right. split; [by apply lookup_replicate_2|]. intros r Hr. by apply elem_of_nil in Hr.
  - split; [apply NoDup_nil_2|by apply Forall_nil].
Qed.

Lemma registration_count (rs : list registration) :
  NoDup (map reg_index rs) -> Forall (fun r => 0 <= reg_index r < 256 /\ reg_addr r <> 0) rs ->
  (length rs <= 256)%nat.
Proof.
  intros Hnd Hall. rewrite <-(length_map reg_index rs). transitivity (length (seqZ 0 256)); [|by rewrite length_seqZ].
  apply submseteq_length, NoDup_submseteq; [done|]. intros x Hx.
  apply list_elem_of_fmap in Hx as (r & -> & Hr). rewrite Forall_forall in Hall.
  apply elem_of_seqZ. specialize (Hall r Hr). lia.
Qed.

Lemma register_inv st rs r :
  percpu_inv st rs -> boot_ok (rs ++ [r]) ->
  exists st', register st r = Some (Ok st') /\ percpu_inv st' (rs ++ [r]).
Proof.
  intros Hinv [Hme Hidx Haddr Hrange].
  assert (Hr : 0 <= reg_index r < 256 /\ reg_addr r <> 0) by (apply Forall_app in Hrange as [_ Hr]; exact (proj1 (Forall_singleton _ _) Hr)).
  pose proof (registration_count _ Hidx Hrange) as Hcount. rewrite length_app in Hcount. simpl in Hcount.
  unfold register, register_percpu, per_cpu_new. cbn [heap percpu_array percpu_count gs_base].
  rewrite lookup_insert_eq. cbn [mbind option_bind cpu_index].
  destruct (Nat.ltb_spec (Z.to_nat (reg_index r)) MAX_CPUS) as [Hlt|]; [|unfold MAX_CPUS in *; lia].
  eexists. split; [reflexivity|].
  rewrite map_app in Hme, Haddr, Hidx. apply NoDup_app in Hme as (_ & Hme & _).
  apply NoDup_app in Haddr as (_ & Haddr & _). pose proof Hidx as Hidx'.
  apply NoDup_app in Hidx as (_ & Hidx & _).
  assert (Hfresh : forall {A} (f : registration -> A) r', r' ∈ rs ->
    (forall x, x ∈ map f rs -> x ∉ map f [r]) -> f r' <> f r).
  { intros A f r' Hr' Hd Heq. apply (Hd (f r')); [by apply list_elem_of_fmap_2|]. rewrite Heq. simpl. by apply list_elem_of_singleton. }
  constructor; cbn [heap percpu_array percpu_count gs_base].
  - rewrite length_insert. by apply Hinv.
  - rewrite (inv_count _ _ Hinv), length_app. simpl. rewrite wrap_small by (unfold in_range; lia). lia.
  - intros r' Hr'. apply elem_of_app in Hr' as [Hr'|Hr'].
    + rewrite lookup_insert_ne; [by apply Hinv|]. intros Heq. by apply (Hfresh _ reg_addr r' Hr' Haddr).
    + apply list_elem_of_singleton in Hr' as ->. apply lookup_insert_eq.
  - intros r' Hr'. apply elem_of_app in Hr' as [Hr'|Hr'].
    + rewrite lookup_insert_ne; [by apply Hinv|]. intros Heq. by apply (Hfresh _ reg_me r' Hr' Hme).
    + apply list_elem_of_singleton in Hr' as ->. apply lookup_insert_eq.
  - intros i Hi. destruct (decide (i = Z.to_nat (reg_index r))) as [->|Hne].
    + left. exists r. split; [set_solver|]. split; [lia|]. apply list_lookup_insert_eq.
      rewrite (inv_length _ _ Hinv). done.
    + rewrite list_lookup_insert_ne by done.
      destruct (inv_array _ _ Hinv i Hi) as [(r' & Hr' & Hi' & Hl)|[Hl Hno]].
      * left. exists r'. split; [set_solver|done].
      * right. split; [done|]. intros r' Hr'. apply elem_of_app in Hr' as [Hr'|Hr']; [by apply Hno|].
        apply list_elem_of_singleton in Hr' as ->. lia.
  - split; [by rewrite map_app|done].
Qed.

Lemma boot_ok_app rs rs' : boot_ok (rs ++ rs') -> boot_ok rs.
Proof.
  intros [Hme Hidx Haddr Hrange]. rewrite map_app in Hme, Hidx, Haddr.
  apply NoDup_app in Hme as [? _]. apply NoDup_app in Hidx as [? _]. apply NoDup_app in Haddr as [? _].
  by apply Forall_app in Hrange as [? _].
Qed.

Lemma register_all_inv st rs0 rs :
  percpu_inv st rs0 -> boot_ok (rs0 ++ rs) ->
  exists st', register_all st rs = Some (Ok st') /\ percpu_inv st' (rs0 ++ rs).
Proof.
  revert st rs0. induction rs as [|r rs IH]; intros st rs0 Hinv Hok.
  - exists st. by rewrite app_nil_r.
  - replace (rs0 ++ r :: rs) with ((rs0 ++ [r]) ++ rs) in Hok |- * by by rewrite <-app_assoc.
    destruct (register_inv st rs0 r Hinv (boot_ok_app _ _ Hok)) as (st1 & Hr & Hinv1).
    simpl register_all. rewrite Hr. simpl. by apply IH.
Qed.

(** The registration of an index. *)
Definition reg_at (rs : list registration) (i : nat) : option registration :=
  List.find (fun r => reg_index r =? Z.of_nat i) rs.

Lemma reg_at_elem rs i r : reg_at rs i = Some r -> r ∈ rs /\ reg_index r = Z.of_nat i.
Proof.
  intros Hf. apply List.find_some in Hf as [Hin Heq]. split; [by apply list_elem_of_In|lia].
Qed.

Lemma reg_at_some rs r i :
  NoDup (map reg_index rs) -> r ∈ rs -> reg_index r = Z.of_nat i -> reg_at rs i = Some r.
Proof.
  intros Hnd Hr Hi. destruct (reg_at rs i) as [r'|] eqn:Hf.
  - apply reg_at_elem in Hf as [Hin Heq]. f_equal.
    apply list_elem_of_lookup in Hin as [j Hj]. apply list_elem_of_lookup in Hr as [k Hk].
    assert (j = k) as ->; [|congruence].
    eapply (NoDup_lookup (map reg_index rs) _ _ (reg_index r')); [done| |].
    + by rewrite list_lookup_fmap, Hj.
    + rewrite list_lookup_fmap, Hk. simpl. congruence.
  - apply list_elem_of_In in Hr. eapply List.find_none in Hf; [|done]. lia.
Qed.

Lemma reg_at_none rs i : (forall r, r ∈ rs -> reg_index r <> Z.of_nat i) -> reg_at rs i = None.
Proof.
  intros Hno. destruct (reg_at rs i) as [r'|] eqn:Hf; [|done].
  apply reg_at_elem in Hf as [Hin Heq]. by apply Hno in Hin.
Qed.

Lemma get_cpu_inv st rs i :
  percpu_inv st rs ->
  get_cpu st i = Some (if (i <? MAX_CPUS)%nat then registered <$> reg_at rs i else None).
Proof.
  intros Hinv. unfold get_cpu. destruct (Nat.leb_spec MAX_CPUS i) as [Hge|Hlt].
  { by destruct (Nat.ltb_spec i MAX_CPUS); [lia|]. }
  destruct (Nat.ltb_spec i MAX_CPUS) as [_|]; [|lia]. destruct (inv_indices _ _ Hinv) as [Hnd Hrange].
  destruct (inv_array _ _ Hinv i Hlt) as [(r & Hr & Hi & Hl)|[Hl Hno]];
    rewrite (nth_lookup_Some _ _ _ _ Hl).
  - rewrite Forall_forall in Hrange.
    destruct (Z.eqb_spec (reg_addr r) 0) as [|_]; [by apply Hrange in Hr as [? ?]|].
    rewrite (inv_heap _ _ Hinv r Hr). simpl. by rewrite (reg_at_some rs r).
  - simpl. by rewrite reg_at_none.
Qed.

(** *** The early exit of [all_cpus] *)

Lemma omap_reg_at_NoDup rs indices : NoDup indices -> NoDup (omap (reg_at rs) indices).
Proof.
  induction 1 as [|i indices Hi Hnd IH]; simpl; [apply NoDup_nil_2|].
  destruct (reg_at rs i) as [r|] eqn:Hr; [|done]. apply NoDup_cons. split; [|done].
  intros Hin. apply list_elem_of_omap in Hin as (j & Hj & Hr').
  apply reg_at_elem in Hr as [_ Hr]. apply reg_at_elem in Hr' as [_ Hr'].
  assert (i = j) as -> by lia. done.
Qed.

(** Once as many are found as there are, none is left. *)
Lemma found_all rs indices i :
  NoDup indices -> length (omap (reg_at rs) indices) = length rs -> i ∉ indices -> reg_at rs i = None.
Proof.
  intros Hnd Hlen Hi. destruct (reg_at rs i) as [r|] eqn:Hr; [|done]. exfalso.
  assert (Hperm : omap (reg_at rs) indices ≡ₚ rs).
  { apply submseteq_length_Permutation; [|lia]. apply NoDup_submseteq; [by apply omap_reg_at_NoDup|].
    intros r' Hr'. apply list_elem_of_omap in Hr' as (j & _ & Hj). by apply reg_at_elem in Hj as [? _]. }
  apply reg_at_elem in Hr as [Hin Hidx]. rewrite <-Hperm in Hin.
  apply list_elem_of_omap in Hin as (j & Hj & Hr). apply reg_at_elem in Hr as [_ Hr].
  assert (i = j) as -> by lia. done.
Qed.

Lemma omap_none (rs : list registration) indices :
  (forall i, i ∈ indices -> reg_at rs i = None) -> omap (reg_at rs) indices = [].
Proof.
  induction indices as [|i indices IH]; intros Hno; simpl; [done|].
  rewrite Hno by set_solver. apply IH. set_solver.
Qed.

Lemma all_cpus_loop_ok st rs before indices :
  percpu_inv st rs -> NoDup (before ++ indices) -> Forall (fun i => (i < MAX_CPUS)%nat) indices ->
  all_cpus_loop st (Z.of_nat (length rs)) indices (map registered (omap (reg_at rs) before)) =
  Some (map registered (omap (reg_at rs) (before ++ indices))).
Proof.
  intros Hinv. revert before. induction indices as [|i indices IH]; intros before Hnd Hall.
  { by rewrite app_nil_r. }
  apply Forall_cons in Hall as [Hi Hall]. simpl all_cpus_loop. rewrite (get_cpu_inv st rs i Hinv).
  destruct (Nat.ltb_spec i MAX_CPUS) as [_|]; [|lia].
  replace (before ++ i :: indices) with ((before ++ [i]) ++ indices) in * by by rewrite <-app_assoc.
  pose proof (IH (before ++ [i]) Hnd Hall) as Hloop.
  rewrite omap_app in Hloop at 1. simpl in Hloop. simpl.
  destruct (reg_at rs i) as [r|] eqn:Hr; simpl.
  - rewrite map_app in Hloop. simpl in Hloop.
    destruct (Z.eqb_spec (Z.of_nat (length (map registered (omap (reg_at rs) before) ++ [registered r])))
                (Z.of_nat (length rs))) as [Hlen|_]; [|exact Hloop].
    rewrite omap_app, omap_app. simpl. rewrite Hr, (omap_none rs indices), app_nil_r, map_app; [done|].
    intros j Hj. apply (found_all rs (before ++ [i])).
    + by apply NoDup_app in Hnd as [? _].
    + rewrite omap_app. simpl. rewrite Hr. rewrite length_app, length_map in *. simpl in *. lia.
    + apply NoDup_app in Hnd as (_ & Hd & _). intros Hin. by apply (Hd j).
  - by rewrite app_nil_r in Hloop.
Qed.

Lemma all_cpus_ok st rs :
  percpu_inv st rs ->
  all_cpus st = Some (map registered (omap (reg_at rs) (seq 0 MAX_CPUS))).
Proof.
  intros Hinv. unfold all_cpus, cpu_count. rewrite (inv_count _ _ Hinv).
  apply (all_cpus_loop_ok st rs []); [done|apply NoDup_seq|].
  apply Forall_forall. intros i Hi. apply elem_of_seq in Hi. lia.
Qed.

Lemma omap_seq_permutation rs :
  NoDup (map reg_index rs) -> Forall (fun r => 0 <= reg_index r < 256 /\ reg_addr r <> 0) rs ->
  omap (reg_at rs) (seq 0 MAX_CPUS) ≡ₚ rs.
Proof.
  intros Hnd Hrange. apply NoDup_Permutation.
  - apply omap_reg_at_NoDup, NoDup_seq.
  - by apply NoDup_fmap_1 in Hnd.
  - intros r. rewrite list_elem_of_omap. split.
    + intros (i & _ & Hr). by apply reg_at_elem in Hr as [? _].
    + intros Hr. rewrite Forall_forall in Hrange. destruct (Hrange r Hr) as [Hi _].
      exists (Z.to_nat (reg_index r)). split; [apply elem_of_seq; unfold MAX_CPUS; lia|].
      apply reg_at_some; [done|done|lia].
Qed.

(** ** Properties *)

(** When every processor has registered a structure, with distinct indices
    below [MAX_CPUS]: no registration panics; [get_cpu] returns for each index
    the structure registered under it, and nothing for the other indices;
    [get_current_cpu] returns to each processor its own structure and its check
    of the self pointer passes; [cpu_count] is their number; and [all_cpus],
    which stops as soon as it has found that many, returns all of them, by
    increasing index. *)
Theorem percpu_lookup p rs :
  boot_ok rs ->
  exists st, register_all percpu_init rs = Some (Ok st) /\
    cpu_count st = Z.of_nat (length rs) /\
    (forall r, r ∈ rs ->
      get_cpu st (Z.to_nat (reg_index r)) = Some (Some (registered r)) /\
      get_current_cpu p st (reg_me r) = Some (Ok (registered r)) /\
      get_current_cpu_mut st (reg_me r) = Some (registered r)) /\
    (forall i, (forall r, r ∈ rs -> reg_index r <> Z.of_nat i) -> get_cpu st i = Some None) /\
    exists rs', rs' ≡ₚ rs /\ all_cpus st = Some (map registered rs') /\
      rs' = omap (reg_at rs) (seq 0 MAX_CPUS).
Proof.
  intros Hok. destruct (register_all_inv percpu_init [] rs percpu_inv_init Hok) as (st & Hreg & Hinv).
  simpl in Hinv. exists st. destruct (inv_indices _ _ Hinv) as [Hnd Hrange]. split_and!.
  - done.
  - by apply Hinv.
  - intros r Hr. pose proof Hrange as Hr'. rewrite Forall_forall in Hr'. destruct (Hr' r Hr) as [Hi _].
    split_and!.
    + rewrite (get_cpu_inv st rs) by done.
      destruct (Nat.ltb_spec (Z.to_nat (reg_index r)) MAX_CPUS); [|unfold MAX_CPUS in *; lia].
      by rewrite (reg_at_some rs r) by (done || lia).
    + unfold get_current_cpu. rewrite (inv_gs _ _ Hinv r Hr). simpl.
      rewrite (inv_heap _ _ Hinv r Hr). simpl. rewrite Z.eqb_refl. by destruct p.
    + unfold get_current_cpu_mut. rewrite (inv_gs _ _ Hinv r Hr). simpl. by apply Hinv.
  - intros i Hno. rewrite (get_cpu_inv st rs) by done. rewrite reg_at_none by done. by destruct (_ <? _)%nat.
  - eexists. split; [|split; [by apply all_cpus_ok|done]]. by apply omap_seq_permutation.
Qed.

(** A processor whose index is [MAX_CPUS] or more cannot be registered: the
    call panics. *)
Theorem register_percpu_bound st me ptr c :
  heap st !! ptr = Some c -> 256 <= cpu_index c -> register_percpu st me ptr = Some Panic.
Proof.
  intros Hc Hi. unfold register_percpu. rewrite Hc. simpl.
  destruct (Nat.ltb_spec (Z.to_nat (cpu_index c)) MAX_CPUS); [unfold MAX_CPUS in *; lia|done].
Qed.

(** The structure with its padding takes 128 bytes, two cache lines. *)
Lemma per_cpu_layout :
  offsets per_cpu_fields = [0; 8; 12; 16; 24; 32; 40; 48; 56; 64] /\ size_of 64 per_cpu_fields = 128.
Proof. done. Qed.

(** ** Examples *)

Definition demo_boot : list registration :=
  [Registration 0 0x10000 0 0 true; Registration 2 0x10080 2 4 false; Registration 1 0x10100 1 2 false].

Lemma demo_boot_ok : boot_ok demo_boot.
Proof.
  constructor; simpl; [| | |repeat constructor; done].
  all: repeat (apply NoDup_cons; split; [set_solver|]); apply NoDup_nil_2.
Qed.

Lemma percpu_lookup_witness :
  exists st, register_all percpu_init demo_boot = Some (Ok st) /\
    get_cpu st 1 = Some (Some (PerCpu 0x10100 1 2 false 0 0 0 0 0)).
Proof.
  destruct (percpu_lookup Debug demo_boot demo_boot_ok) as (st & Hreg & _ & Hall & _).
  exists st. split; [exact Hreg|].
  exact (proj1 (Hall (Registration 1 0x10100 1 2 false)
    ltac:(apply elem_of_cons; right; apply elem_of_cons; right; by apply list_elem_of_singleton))).
Defined.
