(* ===== verification/Driver.v ===== *)
(** * Driver: the SMP controller (src/src/driver.rs)

    Initialization of the bootstrap processor, the I/O APICs and the application
    processors, and the controller's public operations, on a world that holds the
    machine as the running processor sees it, memory, the per-CPU statics and the
    statics of the driver. *)

From stdpp Require Import strings.
From S2P Require Import Prelude Memory Hw Task RunQueue Scheduler Apic IoApic PerCpu X86 Trampoline.

(** ** Data *)

Record madt_local_apic := MadtLocalApic { processor_id : Z; la_apic_id : Z; enabled : bool }.
Record madt_io_apic := MadtIoApic { io_id : Z; address : Z; io_gsi_base : Z }.
Record madt_info := MadtInfo {
  local_apic_addr : Z;
  local_apics : list madt_local_apic;
  io_apics : list madt_io_apic;
}.

Definition AP_STACK_SIZE : Z := 256 * 1024.
Definition IPI_SCHEDULE_VECTOR : Z := 0xFE.

(** The machine, memory, the statics of percpu.rs, [APS_BOOTED] and [AP_HALT] of
    driver.rs, and [NEXT_TASK_ID] of scheduler.rs. *)
Record world (D : Type) := World {
  w_hw : hw D;
  w_mem : Z -> Z;
  w_percpu : percpu_state;
  w_aps_booted : Z;
  w_ap_halt : bool;
  w_next_task_id : Z;
}.
Arguments World {D} _ _ _ _ _ _.
Arguments w_hw {D} _.
Arguments w_mem {D} _.
Arguments w_percpu {D} _.
Arguments w_aps_booted {D} _.
Arguments w_ap_halt {D} _.
Arguments w_next_task_id {D} _.

Section set_world.
Context {D : Type}.
Implicit Types w : world D.

Definition set_hw w (h : hw D) : world D :=
  World h (w_mem w) (w_percpu w) (w_aps_booted w) (w_ap_halt w) (w_next_task_id w).
Definition set_mem w (m : Z -> Z) : world D :=
  World (w_hw w) m (w_percpu w) (w_aps_booted w) (w_ap_halt w) (w_next_task_id w).
Definition set_percpu w (p : percpu_state) : world D :=
  World (w_hw w) (w_mem w) p (w_aps_booted w) (w_ap_halt w) (w_next_task_id w).
Definition set_booted w (n : Z) : world D :=
  World (w_hw w) (w_mem w) (w_percpu w) n (w_ap_halt w) (w_next_task_id w).
Definition set_halt w (b : bool) : world D :=
  World (w_hw w) (w_mem w) (w_percpu w) (w_aps_booted w) b (w_next_task_id w).
Definition set_next_id w (n : Z) : world D :=
  World (w_hw w) (w_mem w) (w_percpu w) (w_aps_booted w) (w_ap_halt w) n.
End set_world.

(** Computations on the world; [None] is undefined behaviour (a dangling pointer
    in the per-CPU statics). *)
Definition W (D A : Type) : Type := world D -> option (res (A * world D)).

#[global] Instance w_ret {D} : MRet (W D) := fun A a w => Some (Ok (a, w)).
#[global] Instance w_bind {D} : MBind (W D) := fun A B f m w =>
  match m w with
  | Some (Ok (a, w')) => f a w'
  | Some Panic => Some Panic
  | Some OutOfFuel => Some OutOfFuel
  | None => None
  end.

Section lifting.
Context {D : Type}.

Definition on_hw {A} (m : HW D A) : W D A := fun w =>
  Some (match m (w_hw w) with
        | Ok (a, h) => Ok (a, set_hw w h)
        | Panic => Panic
        | OutOfFuel => OutOfFuel
        end).

Definition pure {A} (r : res A) : W D A := fun w =>
  Some (match r with
        | Ok a => Ok (a, w)
        | Panic => Panic
        | OutOfFuel => OutOfFuel
        end).

Definition get {A} (f : world D -> A) : W D A := fun w => Some (Ok (f w, w)).
Definition modify (f : world D -> world D) : W D unit := fun w => Some (Ok (tt, f w)).
Definition check_ub {A} (f : world D -> option A) : W D A := fun w => a ← f w; Some (Ok (a, w)).
End lifting.

(** What is outside the program: the processor that runs it, the addresses the
    allocator returns, the page table in use, and what other processors do to the
    world: in the delays ([spin_delay]) after the INIT and the first and second
    STARTUP interrupts of AP [i], until poll [k] of the wait that follows, and
    until the wait ends. *)
Record env (D : Type) := Env {
  env_me : nat;
  env_percpu_addr : Z;
  env_stack : nat -> Z;
  env_task_stack : Z;
  env_cr3 : Z;
  env_ap_entry : Z;
  env_reset : nat -> world D -> world D;
  env_first : nat -> world D -> world D;
  env_second : nat -> world D -> world D;
  env_poll : nat -> nat -> world D -> world D;
  env_after : nat -> world D -> world D;
}.
Arguments env_me {D} _.
Arguments env_percpu_addr {D} _.
Arguments env_stack {D} _ _.
Arguments env_task_stack {D} _.
Arguments env_cr3 {D} _.
Arguments env_ap_entry {D} _.
Arguments env_reset {D} _ _ _.
Arguments env_first {D} _ _ _.
Arguments env_second {D} _ _ _.
Arguments env_poll {D} _ _ _ _.
Arguments env_after {D} _ _ _.

(** The controller. *)
Record smp_controller (Q : Type) := SmpController {
  bsp_apic_id : Z;
  smp_local_apic : local_apic;
  ioapic_manager : list io_apic;
  trampoline : ap_trampoline;
  smp_ap_count : Z;
  total_cores : Z;
  smp_madt_info : option madt_info;
  smp_scheduler : option (scheduler Q);
  initialized : bool;
}.
Arguments SmpController {Q} _ _ _ _ _ _ _ _ _.
Arguments bsp_apic_id {Q} _.
Arguments smp_local_apic {Q} _.
Arguments ioapic_manager {Q} _.
Arguments trampoline {Q} _.
Arguments smp_ap_count {Q} _.
Arguments total_cores {Q} _.
Arguments smp_madt_info {Q} _.
Arguments smp_scheduler {Q} _.
Arguments initialized {Q} _.

Definition READY_POLLS : nat := Z.to_nat 100000000.

Section operations.
Context `{Machine D} `{TaskQueue Q} (p : profile) (fuel : nat) (e : env D).
Implicit Types c : smp_controller Q.

(** ** Construction *)

Definition smp_new (apic_base_vaddr : Z) : W D (smp_controller Q) :=
  let la := apic_new apic_base_vaddr in
  bsp ← on_hw (Apic.id p la);
  mret {|
    bsp_apic_id := bsp;
    smp_local_apic := la;
    ioapic_manager := manager_new;
    trampoline := ap_trampoline_new TRAMPOLINE_PHYS;
    smp_ap_count := 0;
    total_cores := 1;
    smp_madt_info := None;
    smp_scheduler := None;
    initialized := false
  |}.

(** ** Initialization *)

Definition init_bsp_apic (la : local_apic) : HW D unit :=
  enable p la;;
  write_tpr p la 0;;
  write_dfr p la 0xFFFFFFFF;;
  old ← read_ldr p la;
  let ldr := Z.lor (Z.land old 0x00FFFFFF) (Z.shiftl 1 24) in
  write_ldr p la ldr;;
  write_lvt_lint0 p la LVT_MASKED;;
  write_lvt_lint1 p la LVT_MASKED;;
  write_lvt_error p la LVT_MASKED;;
  write_lvt_timer p la LVT_MASKED;;
  write_lvt_perf p la LVT_MASKED;;
  write_lvt_thermal p la LVT_MASKED;;
  ver ← version p la;
  mret tt.

(** The loop over [madt_info.io_apics]. *)
Fixpoint init_io_apics (m : list io_apic) (infos : list madt_io_apic) : HW D (list io_apic) :=
  match infos with
  | [] => mret m
  | info :: infos =>
      ioapic ← io_apic_new p (address info) (io_gsi_base info);
      IoApic.mask_all p ioapic;;
      init_io_apics (manager_add m ioapic) infos
  end.

Definition init_bsp_percpu (bsp : Z) : W D unit := fun w =>
  let st := per_cpu_new (w_percpu w) (env_percpu_addr e) 0 bsp true in
  o ← register_percpu st (env_me e) (env_percpu_addr e);
  Some (match o with
        | Ok st => Ok (tt, set_percpu w st)
        | Panic => Panic
        | OutOfFuel => OutOfFuel
        end).

(** The body of the loop of [boot_aps] for AP [i]: whether it was seen ready. *)
Definition boot_one (la : local_apic) (t : ap_trampoline) (i : nat) (ap : madt_local_apic) : W D bool :=
  let cpu_index := wrap 32 (Z.of_nat i + 1) in
  modify (fun w => set_mem w (fill (w_mem w) (env_stack e i) 0 AP_STACK_SIZE));;
  stack_top ← pure (arith p 64 (env_stack e i + AP_STACK_SIZE));
  let stack_top_aligned := Z.land stack_top (bnot 64 0xF) in
  m ← get w_mem;
  m' ← pure (set_ap_data p t m (env_cr3 e) stack_top_aligned (env_ap_entry e) cpu_index);
  modify (fun w => set_mem w m');;
  on_hw (send_init_ipi p fuel la (la_apic_id ap));;
  modify (env_reset e i);;
  on_hw (send_startup_ipi p fuel la (la_apic_id ap) TRAMPOLINE_PAGE);;
  modify (env_first e i);;
  m ← get w_mem;
  ready ← pure (is_ap_ready p t m);
  (if ready : bool then mret tt else
     on_hw (send_startup_ipi p fuel la (la_apic_id ap) TRAMPOLINE_PAGE);;
     modify (env_second e i));;
  w ← get (fun w => w);
  booted ← pure (wait_ap_ready p t (fun k => w_mem (env_poll e i k w)) READY_POLLS);
  modify (env_after e i);;
  mret booted.

(** The loop, from AP [i] on; [total] is [self.total_cores]. *)
Fixpoint boot_loop (la : local_apic) (t : ap_trampoline) (i : nat) (aps : list madt_local_apic)
    (total : Z) : W D Z :=
  match aps with
  | [] => mret total
  | ap :: aps =>
      booted ← boot_one la t i ap;
      boot_loop la t (S i) aps (if booted : bool then wrap 32 (total + 1) else total)
  end.

Definition boot_aps (la : local_apic) (t : ap_trampoline) (aps : list madt_local_apic) (total : Z) : W D Z :=
  match aps with
  | [] => mret total
  | _ =>
      modify (fun w => set_mem w (install t (w_mem w)));;
      boot_loop la t 0 aps total
  end.

Definition enabled_aps (bsp : Z) (info : madt_info) : list madt_local_apic :=
  List.filter (fun la => enabled la && negb (la_apic_id la =? bsp)) (local_apics info).

Definition init c (info : madt_info) : W D (smp_controller Q) :=
  let aps := enabled_aps (bsp_apic_id c) info in
  on_hw (init_bsp_apic (smp_local_apic c));;
  manager ← on_hw (init_io_apics (ioapic_manager c) (io_apics info));
  init_bsp_percpu (bsp_apic_id c);;
  total ← boot_aps (smp_local_apic c) (trampoline c) aps (total_cores c);
  mret {|
    bsp_apic_id := bsp_apic_id c;
    smp_local_apic := smp_local_apic c;
    ioapic_manager := manager;
    trampoline := trampoline c;
    smp_ap_count := wrap 32 (Z.of_nat (length aps));
    total_cores := total;
    smp_madt_info := Some info;
    smp_scheduler := Some (sched_new total);
    initialized := true
  |}.

(** ** Public operations *)

Definition smp_num_cores c : Z := total_cores c.

Definition current_core : W D Z :=
  o ← check_ub (fun w => get_current_cpu p (w_percpu w) (env_me e));
  percpu ← pure o;
  mret (cpu_index percpu).

Definition aps_booted : W D Z := get w_aps_booted.

Definition ipi_send c (target_core vector : Z) : W D unit :=
  cpu ← check_ub (fun w => get_cpu (w_percpu w) (Z.to_nat target_core));
  match cpu with
  | Some cpu =>
      on_hw (send_ipi p fuel (smp_local_apic c) (apic_id cpu)
        (Z.lor (Z.lor (Z.lor ICR_FIXED ICR_DEST_PHYSICAL) ICR_NO_SHORTHAND) vector))
  | None => mret tt
  end.

Definition set_scheduler c (s : scheduler Q) : smp_controller Q :=
  SmpController (bsp_apic_id c) (smp_local_apic c) (ioapic_manager c) (trampoline c) (smp_ap_count c)
    (total_cores c) (smp_madt_info c) (Some s) (initialized c).

(** [Task::new(name, entry, arg, DEFAULT_STACK_SIZE)] *)
Definition new_task (name : string) (entry arg : Z) : W D task := fun w =>
  Some (match task_new p (w_next_task_id w) name entry arg DEFAULT_STACK_SIZE (env_task_stack e) with
        | Ok (t, next) => Ok (t, set_next_id w next)
        | Panic => Panic
        | OutOfFuel => OutOfFuel
        end).

Definition smp_spawn_on_core c (core_id : Z) (name : string) (entry arg : Z)
    : W D (option Z * smp_controller Q) :=
  match smp_scheduler c with
  | Some s =>
      t ← new_task name entry arg;
      s' ← pure (spawn_on_core s core_id t);
      ipi_send c core_id IPI_SCHEDULE_VECTOR;;
      mret (Some (task_id t), set_scheduler c s')
  | None => mret (None, c)
  end.

Definition smp_spawn c (name : string) (entry arg : Z) : W D (option Z * smp_controller Q) :=
  match smp_scheduler c with
  | Some s =>
      t ← new_task name entry arg;
      s' ← pure (spawn s t);
      mret (Some (task_id t), set_scheduler c s')
  | None => mret (None, c)
  end.

Definition smp_route_irq c (gsi vector core_id : Z) : W D unit :=
  cpu ← check_ub (fun w => get_cpu (w_percpu w) (Z.to_nat core_id));
  match cpu with
  | Some cpu => on_hw (route_gsi p (ioapic_manager c) gsi vector (wrap 8 (apic_id cpu)))
  | None => mret tt
  end.

Definition smp_eoi c : W D unit := on_hw (eoi p (smp_local_apic c)).

(** The loop [for i in 1..self.num_cores()] of [halt_aps]. *)
Fixpoint halt_loop c (targets : list Z) : W D unit :=
  match targets with
  | [] => mret tt
  | i :: targets => ipi_send c i 0x02;; halt_loop c targets
  end.

Definition halt_aps c : W D unit :=
  modify (fun w => set_halt w true);;
  halt_loop c (seqZ 1 (smp_num_cores c - 1)).

(** [ap_entry] up to its idle loop, on processor [me] whose allocation for the
    per-CPU structure is at [addr]; the machine is the one this processor sees. *)
Definition ap_entry (me : nat) (addr cpu_index : Z) : W D unit :=
  let cpu_index := wrap 32 cpu_index in
  let apic := apic_new 0xFEE00000 in
  apic_id ← on_hw (Apic.id p apic);
  on_hw (enable p apic);;
  on_hw (write_tpr p apic 0);;
  o ← check_ub (fun w => register_percpu (per_cpu_new (w_percpu w) addr cpu_index apic_id false) me addr);
  (* the box is allocated before the registration *)
  st ← pure o;
  modify (fun w => set_percpu w st);;
  modify (fun w => set_booted w (wrap 32 (w_aps_booted w + 1))).
End operations.

(** ** Specification *)

(** The ready flag, as [is_ap_ready] reads it. *)
Definition ready_flag (t : ap_trampoline) (m : Z -> Z) : bool :=
  negb (load m (field (trampoline_vaddr t + TRAMPOLINE_DATA_OFFSET) 4) 4 =? 0).

Definition init_ipi (ap : madt_local_apic) : ipi := Ipi (la_apic_id ap) 0 5 false true true 0.
Definition startup_ipi (ap : madt_local_apic) : ipi := Ipi (la_apic_id ap) TRAMPOLINE_PAGE 6 false false false 0.

(** The interrupts sent to boot an AP: INIT, STARTUP, and a second STARTUP unless
    the AP is ready after the first. *)
Definition boot_ipis (ap : madt_local_apic) (ready : bool) : list ipi :=
  [init_ipi ap; startup_ipi ap] ++ (if ready then [] else [startup_ipi ap]).

Definition world_ipis {D} (la : local_apic) (w : world D) : list ipi :=
  sent_ipis (Apic.base_addr la) (accesses (w_hw w)).

(** The world after one interrupt is sent: the machine and the log of accesses
    change, nothing else. *)
Definition sends {D} (la : local_apic) (i : ipi) (w w' : world D) : Prop :=
  exists h, w' = set_hw w h /\ world_ipis la w' = world_ipis la w ++ [i].

(** Memory as AP [i] finds it: the words of [TrampolineData] are the page table, the
    top of its stack, 16-byte aligned, the entry point, its index and a clear flag;
    its stack is zeroed; the rest is as before. *)
Record prepared {D} (e : env D) (t : ap_trampoline) (i : nat) (m m' : Z -> Z) : Prop := {
  prep_data : let data := trampoline_vaddr t + TRAMPOLINE_DATA_OFFSET in
    map (fun '(f, n) => load m' (field data f) n) [(0, 8); (1, 8); (2, 8); (3, 4); (4, 4)]%nat =
    [env_cr3 e; 16 * ((env_stack e i + AP_STACK_SIZE) / 16); env_ap_entry e; Z.of_nat i + 1; 0];
  prep_stack a : env_stack e i <= a < env_stack e i + AP_STACK_SIZE -> m' a = 0;
  prep_rest a :
    a < trampoline_vaddr t + TRAMPOLINE_DATA_OFFSET \/ trampoline_vaddr t + TRAMPOLINE_DATA_OFFSET + 32 <= a ->
    a < env_stack e i \/ env_stack e i + AP_STACK_SIZE <= a -> m' a = m a;
}.

(** The outcome of the polls that start in world [w]. *)
Definition polled {D} (e : env D) (t : ap_trampoline) (i : nat) (w : world D) (booted : bool) : Prop :=
  booted = true <-> exists k, (k < READY_POLLS)%nat /\ ready_flag t (w_mem (env_poll e i k w)) = true.

(** How APs are started, from AP [i] on: the run from world [w] to world [w'], in
    which each of the APs was, or was not, ready after the first STARTUP, and then in
    the wait. Memory is prepared, INIT is sent and there is a delay; STARTUP is sent
    and there is a delay; if the flag is clear in the world reached, a second STARTUP
    is sent and there is a delay; and from the world reached then, the flag is
    polled. *)
Inductive boots {D} (e : env D) (la : local_apic) (t : ap_trampoline) :
    nat -> list madt_local_apic -> world D -> list (bool * bool) -> world D -> Prop :=
| boots_nil i w : boots e la t i [] w [] w
| boots_ready i ap aps w m w1 w2 booted os w' :
    prepared e t i (w_mem w) m ->
    sends la (init_ipi ap) (set_mem w m) w1 ->
    sends la (startup_ipi ap) (env_reset e i w1) w2 ->
    ready_flag t (w_mem (env_first e i w2)) = true ->
    polled e t i (env_first e i w2) booted ->
    boots e la t (S i) aps (env_after e i (env_first e i w2)) os w' ->
    boots e la t i (ap :: aps) w ((true, booted) :: os) w'
| boots_again i ap aps w m w1 w2 w3 booted os w' :
    prepared e t i (w_mem w) m ->
    sends la (init_ipi ap) (set_mem w m) w1 ->
    sends la (startup_ipi ap) (env_reset e i w1) w2 ->
    ready_flag t (w_mem (env_first e i w2)) = false ->
    sends la (startup_ipi ap) (env_first e i w2) w3 ->
    polled e t i (env_second e i w3) booted ->
    boots e la t (S i) aps (env_after e i (env_second e i w3)) os w' ->
    boots e la t i (ap :: aps) w ((false, booted) :: os) w'.

(** The trampoline is installed before the first AP is started. *)
Definition with_trampoline {D} (t : ap_trampoline) (aps : list madt_local_apic) (w : world D) : world D :=
  match aps with [] => w | _ => set_mem w (install t (w_mem w)) end.

(** What the other processors do relates each world to the next. *)
Record env_steps {D} (G : world D -> world D -> Prop) (e : env D) : Prop := {
  step_reset i w : G w (env_reset e i w);
  step_first i w : G w (env_first e i w);
  step_second i w : G w (env_second e i w);
  step_after i w : G w (env_after e i w);
}.

(** It is not an access of this one. *)
Definition env_quiet {D} : env D -> Prop :=
  env_steps (fun w w' => accesses (w_hw w') = accesses (w_hw w)).

(** A relation between worlds that the boot of an AP respects: changes of memory
    are in it, and changes of the machine by the driver of the local APIC. *)
Record boot_footprint {D} (R : D -> D -> Prop) (G : world D -> world D -> Prop) : Prop := {
  bf_preorder : PreOrder G;
  bf_mem w m : G w (set_mem w m);
  bf_hw w h : R (dev (w_hw w)) (dev h) -> G w (set_hw w h);
}.

Record controller_ok `{Machine D} (fuel : nat) (e : env D) (la : local_apic) (t : ap_trampoline) : Prop := {
  ok_quiet : env_quiet e;
  ok_mapped : apic_mapped la;
  ok_idle d : idle_for fuel la d;
  ok_stack i : in_range 64 (env_stack e i + AP_STACK_SIZE) /\
    (env_stack e i + AP_STACK_SIZE <= trampoline_vaddr t \/ trampoline_vaddr t + 4096 <= env_stack e i);
  ok_data : in_range 64 (trampoline_vaddr t + TRAMPOLINE_DATA_OFFSET);
  ok_words : in_range 64 (env_cr3 e) /\ in_range 64 (env_ap_entry e);
}.

(** ** Proofs *)

Section lifting_lemmas.
Context {D : Type}.
Implicit Types w : world D.

Lemma w_bind_ok {A B} (m : W D A) (f : A -> W D B) w a w' :
  m w = Some (Ok (a, w')) -> (m ≫= f) w = f a w'.
Proof. intros Hm. unfold mbind, w_bind. by rewrite Hm. Qed.

Lemma on_hw_ok {A} (m : HW D A) w a h : m (w_hw w) = Ok (a, h) -> on_hw m w = Some (Ok (a, set_hw w h)).
Proof. intros Hm. unfold on_hw. by rewrite Hm. Qed.

Lemma pure_ok {A} (a : A) w : pure (Ok a) w = Some (Ok (a, w)).
Proof. done. Qed.

Lemma get_bind {A B} (f : world D -> A) (g : A -> W D B) w : (get f ≫= g) w = g (f w) w.
Proof. done. Qed.

Lemma modify_bind {B} (f : world D -> world D) (g : unit -> W D B) w : (modify f ≫= g) w = g tt (f w).
Proof. done. Qed.

Lemma w_bind_assoc {A B C} (m : W D A) (f : A -> W D B) (g : B -> W D C) w :
  ((m ≫= f) ≫= g) w = (m ≫= (fun a => f a ≫= g)) w.
Proof. unfold mbind, w_bind. by destruct (m w) as [[[? ?]| |]|]. Qed.
End lifting_lemmas.

Lemma ipi_target_u8 la dest : in_range 8 dest -> ipi_target la dest = dest.
Proof.
  intros Hd. unfold ipi_target. destruct (x2apic la); [done|]. unfold in_range in Hd. by apply Z.mod_small.
Qed.

Section booting.
Context `{Machine D} (p : profile) (fuel : nat) (e : env D) (la : local_apic) (t : ap_trampoline).
Context (Hok : controller_ok fuel e la t).
Context (R : D -> D -> Prop) (HR : lapic_footprint la R).
Context (G : world D -> world D -> Prop) (HG : boot_footprint R G) (HGe : env_steps G e).
Implicit Types w : world D.

Lemma is_ap_ready_flag m : is_ap_ready p t m = Ok (ready_flag t m).
Proof. rewrite is_ap_ready_ok by apply Hok. done. Qed.

(** One interrupt sent from the controller. *)
Lemma on_hw_send w dest flags :
  in_range 8 dest -> in_range 32 flags ->
  exists w', on_hw (send_ipi p fuel la dest flags) w = Some (Ok (tt, w')) /\
    sends la (decode_icr dest flags) w w' /\ G w w'.
Proof.
  intros Hd Hf. destruct (send_ipi_ok p fuel la dest flags (w_hw w)) as (h & Hs & Hsent).
  - apply Hok.
  - apply Hok.
  - unfold in_range in *. lia.
  - done.
  - exists (set_hw w h). split; [by apply on_hw_ok|]. rewrite ipi_target_u8 in Hsent by done. split; [by exists h|].
    apply HG. eapply send_ipi_rel; [apply Hok|exact HR|exact Hs].
Qed.

Lemma wait_ready i w :
  exists b, wait_ap_ready p t (fun k => w_mem (env_poll e i k w)) READY_POLLS = Ok b /\ polled e t i w b.
Proof.
  destruct (wait_loop_ok p t (ok_data _ _ _ _ Hok) (fun k => w_mem (env_poll e i k w)) 0 READY_POLLS) as (b & Hw & Hb).
  exists b. split; [exact Hw|]. unfold polled. rewrite Hb. unfold ready_flag.
  change (field (trampoline_vaddr t + TRAMPOLINE_DATA_OFFSET) 4)
    with (trampoline_vaddr t + TRAMPOLINE_DATA_OFFSET + 28).
  split; intros (k & Hk & Hl); exists k; (split; [lia|]).
  - apply negb_true_iff, Z.eqb_neq. done.
  - by apply negb_true_iff, Z.eqb_neq in Hl.
Qed.

(** What [boot_one] makes of memory before the first interrupt. *)
Lemma memory_prepared i m :
  Z.of_nat i + 1 < 2 ^ 32 ->
  exists m', set_ap_data p t (fill m (env_stack e i) 0 AP_STACK_SIZE) (env_cr3 e)
      (Z.land (env_stack e i + AP_STACK_SIZE) (bnot 64 0xF)) (env_ap_entry e) (wrap 32 (Z.of_nat i + 1)) = Ok m' /\
    prepared e t i m m'.
Proof.
  intros Hi. destruct (ok_stack _ _ _ _ Hok i) as [Htop Hpage], (ok_words _ _ _ _ Hok) as [Hcr3 Hentry].
  rewrite land_not_15 by done. rewrite wrap_small by (unfold in_range; lia).
  set (top := env_stack e i + AP_STACK_SIZE) in *.
  assert (Ht : top - top mod 16 = 16 * (top / 16)) by (pose proof (Z.div_mod top 16); lia).
  assert (in_range 64 (top - top mod 16)).
  { unfold in_range in *. pose proof (Z.mod_pos_bound top 16 ltac:(lia)). pose proof (Z.mod_le top 16). lia. }
  destruct (set_ap_data_fields p t (fill m (env_stack e i) 0 AP_STACK_SIZE) (env_cr3 e) (top - top mod 16)
    (env_ap_entry e) (Z.of_nat i + 1)) as (m' & Hset & Hread & _ & Hout);
    [apply Hok|done|done|done|unfold in_range; lia|].
  exists m'. split; [done|]. rewrite Ht in Hread. unfold fill in Hout. fold top in Hout.
  unfold TRAMPOLINE_DATA_OFFSET in *. constructor; fold top.
  - exact Hread.
  - intros a Ha. rewrite Hout by lia. by rewrite (proj2 (Z.leb_le _ _)), (proj2 (Z.ltb_lt _ _)) by lia.
  - intros a Hd Ha. rewrite Hout by exact Hd.
    destruct (Z.leb_spec (env_stack e i) a), (Z.ltb_spec a top); simpl; (done || lia).
Qed.

(** Booting one AP: memory is prepared, the interrupts are sent, the rest is the
    doing of the others, and the result is whether the flag was seen. *)
Lemma boot_one_ok i ap w :
  in_range 8 (la_apic_id ap) -> Z.of_nat i + 1 < 2 ^ 32 ->
  exists m w1 w2 w3 b,
    prepared e t i (w_mem w) m /\
    sends la (init_ipi ap) (set_mem w m) w1 /\
    sends la (startup_ipi ap) (env_reset e i w1) w2 /\
    sends la (startup_ipi ap) (env_first e i w2) w3 /\
    let ready := ready_flag t (w_mem (env_first e i w2)) in
    let wp := if ready then env_first e i w2 else env_second e i w3 in
    polled e t i wp b /\ boot_one p fuel e la t i ap w = Some (Ok (b, env_after e i wp)) /\
    G w (env_after e i wp).
Proof.
  intros Hap Hi. unfold boot_one. rewrite modify_bind, arith_in_range by apply Hok.
  rewrite (w_bind_ok _ _ _ _ _ (pure_ok _ _)), get_bind. cbn [w_mem set_mem].
  destruct (memory_prepared i (w_mem w) Hi) as (m & Hset & Hprep).
  rewrite Hset, (w_bind_ok _ _ _ _ _ (pure_ok _ _)), modify_bind.
  change (set_mem (set_mem w ?m1) m) with (set_mem w m).
  destruct (on_hw_send (set_mem w m) (la_apic_id ap) icr_init_flags Hap) as (w1 & Hs1 & H1 & HG1); [done|].
  unfold send_init_ipi. rewrite (w_bind_ok _ _ _ _ _ Hs1), modify_bind.
  destruct (on_hw_send (env_reset e i w1) (la_apic_id ap) (icr_startup_flags TRAMPOLINE_PAGE) Hap)
    as (w2 & Hs2 & H2 & HG2); [done|].
  unfold send_startup_ipi. rewrite (w_bind_ok _ _ _ _ _ Hs2), modify_bind, get_bind.
  set (wf := env_first e i w2). rewrite is_ap_ready_flag, (w_bind_ok _ _ _ _ _ (pure_ok _ wf)).
  destruct (on_hw_send wf (la_apic_id ap) (icr_startup_flags TRAMPOLINE_PAGE) Hap) as (w3 & Hs3 & H3 & HG3); [done|].
  destruct (wait_ready i (if ready_flag t (w_mem wf) then wf else env_second e i w3)) as (b & Hwait & Hb).
  exists m, w1, w2, w3, b. do 4 (split; [done|]). fold wf. set (wp := if ready_flag t (w_mem wf) then _ else _) in *.
  split; [exact Hb|]. pose proof (bf_preorder _ _ HG). split.
  - assert (Hmid : forall B (f : unit -> W D B),
      ((if ready_flag t (w_mem wf) then mret tt
        else on_hw (send_ipi p fuel la (la_apic_id ap) (icr_startup_flags TRAMPOLINE_PAGE));;
             modify (env_second e i)) ≫= f) wf = f tt wp).
    { intros B f. unfold wp. destruct (ready_flag t (w_mem wf)); [done|].
      rewrite w_bind_assoc, (w_bind_ok _ _ _ _ _ Hs3). done. }
    rewrite Hmid, get_bind. cbv beta. by rewrite Hwait, (w_bind_ok _ _ _ _ _ (pure_ok _ wp)), modify_bind.
  - assert (HGf : G w wf).
    { transitivity (set_mem w m); [apply HG|]. transitivity w1; [done|].
      transitivity (env_reset e i w1); [apply HGe|]. transitivity w2; [done|apply HGe]. }
    transitivity wp; [|apply HGe]. unfold wp. destruct (ready_flag t (w_mem wf)); [done|].
    transitivity wf; [done|]. transitivity w3; [done|apply HGe].
Qed.
End booting.

(** ** Proofs: the loops *)

Section loops.
Context `{Machine D} (p : profile) (fuel : nat) (e : env D) (la : local_apic) (t : ap_trampoline).
Context (Hok : controller_ok fuel e la t).
Context (R : D -> D -> Prop) (HR : lapic_footprint la R).
Context (G : world D -> world D -> Prop) (HG : boot_footprint R G) (HGe : env_steps G e).
Implicit Types w : world D.

Lemma boot_loop_ok i aps total w :
  Forall (fun ap => in_range 8 (la_apic_id ap)) aps ->
  0 <= total -> total + Z.of_nat (length aps) < 2 ^ 32 -> Z.of_nat i + Z.of_nat (length aps) < 2 ^ 32 ->
  exists os w',
    boot_loop p fuel e la t i aps total w = Some (Ok (total + Z.of_nat (count_if snd os), w')) /\
    boots e la t i aps w os w' /\ G w w'.
Proof.
  revert i total w. induction aps as [|ap aps IH]; intros i total w Hall Hpos Hlt Hi.
  { exists [], w. simpl. rewrite Z.add_0_r. split_and!; [done|constructor|]. by apply HG. }
  apply Forall_cons in Hall as [Hap Hall]. cbn [length] in Hlt, Hi.
  destruct (boot_one_ok p fuel e la t Hok R HR G HG HGe i ap w Hap ltac:(lia))
    as (m & w1 & w2 & w3 & b & Hm & H1 & H2 & H3 & Hb & Hone & HG1).
  set (wp := if ready_flag t (w_mem (env_first e i w2)) then _ else _) in *.
  set (total' := if b then wrap 32 (total + 1) else total).
  assert (Htotal : total' = total + Z.of_nat (Nat.b2n b)).
  { unfold total'. destruct b; simpl; [|lia]. apply wrap_small. unfold in_range. lia. }
  destruct (IH (S i) total' (env_after e i wp) Hall) as (os & w' & Hloop & Hboots & HG2).
  1,2: rewrite Htotal; destruct b; simpl; lia.
  { lia. }
  exists ((ready_flag t (w_mem (env_first e i w2)), b) :: os), w'. split_and!.
  - cbn [boot_loop]. rewrite (w_bind_ok _ _ _ _ _ Hone). fold total'. rewrite Hloop, Htotal.
    cbn [count_if snd]. by rewrite Nat2Z.inj_add, Z.add_assoc.
  - unfold wp in *. destruct (ready_flag t (w_mem (env_first e i w2))) eqn:Hf.
    + exact (boots_ready e la t i ap aps w m w1 w2 b os w' Hm H1 H2 Hf Hb Hboots).
    + exact (boots_again e la t i ap aps w m w1 w2 w3 b os w' Hm H1 H2 Hf H3 Hb Hboots).
  - pose proof (bf_preorder _ _ HG). by transitivity (env_after e i wp).
Qed.

(** The interrupts of a run. *)
Lemma boots_ipis i aps w os w' :
  boots e la t i aps w os w' ->
  length os = length aps /\ world_ipis la w' = world_ipis la w ++ concat (zip_with boot_ipis aps (map fst os)).
Proof.
  pose proof (ok_quiet _ _ _ _ Hok) as Hq.
  assert (Hquiet : forall (w w' : world D), accesses (w_hw w') = accesses (w_hw w) -> world_ipis la w' = world_ipis la w)
    by (by intros ?? Hacc; unfold world_ipis; rewrite Hacc).
  intros Hb. induction Hb as [i w|i ap aps w m w1 w2 b os w' _ (h1 & _ & H1) (h2 & _ & H2) _ _ _ [IHl IH]
    |i ap aps w m w1 w2 w3 b os w' _ (h1 & _ & H1) (h2 & _ & H2) _ (h3 & _ & H3) _ _ [IHl IH]].
  - by rewrite app_nil_r.
  - split; [simpl; by rewrite IHl|]. cbn [map zip_with concat fst]. unfold boot_ipis.
    rewrite IH, (Hquiet _ _ (step_after _ _ Hq i _)), (Hquiet _ _ (step_first _ _ Hq i _)), H2.
    rewrite (Hquiet _ _ (step_reset _ _ Hq i _)), H1, <-!app_assoc. done.
  - split; [simpl; by rewrite IHl|]. cbn [map zip_with concat fst]. unfold boot_ipis.
    rewrite IH, (Hquiet _ _ (step_after _ _ Hq i _)), (Hquiet _ _ (step_second _ _ Hq i _)), H3.
    rewrite (Hquiet _ _ (step_first _ _ Hq i _)), H2, (Hquiet _ _ (step_reset _ _ Hq i _)), H1, <-!app_assoc. done.
Qed.
End loops.

Lemma true_footprint `{Machine D} la : lapic_footprint la (fun _ _ : D => True).
Proof. done. Qed.

Lemma true_boot_footprint {D} R : boot_footprint R (fun _ _ : world D => True).
Proof. done. Qed.

Lemma true_steps {D} (e : env D) : env_steps (fun _ _ => True) e.
Proof. done. Qed.

(** [boot_aps] as a whole. *)
Lemma boot_aps_ok `{Machine D} p fuel (e : env D) la t R G aps total (w : world D) :
  controller_ok fuel e la t -> lapic_footprint la R -> boot_footprint R G -> env_steps G e ->
  Forall (fun ap => in_range 8 (la_apic_id ap)) aps ->
  0 <= total -> total + Z.of_nat (length aps) < 2 ^ 32 ->
  exists os w',
    boot_aps p fuel e la t aps total w = Some (Ok (total + Z.of_nat (count_if snd os), w')) /\
    boots e la t 0 aps (with_trampoline t aps w) os w' /\
    length os = length aps /\ world_ipis la w' = world_ipis la w ++ concat (zip_with boot_ipis aps (map fst os)) /\
    G w w'.
Proof.
  intros Hok HR HG HGe Hall Hpos Hlt.
  destruct (boot_loop_ok p fuel e la t Hok R HR G HG HGe 0 aps total (with_trampoline t aps w) Hall Hpos Hlt)
    as (os & w' & Hloop & Hboots & HG'); [lia|].
  exists os, w'. destruct (boots_ipis fuel e la t Hok _ _ _ _ _ Hboots) as [Hlen Hipis]. split_and!; [|done..| |].
  - by destruct aps.
  - rewrite Hipis. by destruct aps.
  - pose proof (bf_preorder _ _ HG). transitivity (with_trampoline t aps w); [|done]. destruct aps; [done|apply HG].
Qed.

(** ** Proofs: processors that execute the trampoline *)

(** One of them ran for a while. *)
Definition ap_ran (mapped : Z -> bool) (m m' : Z -> Z) : Prop :=
  exists ax cx dx sp di n c, cpu_run mapped n (ap_start ax cx dx sp di) m = Next c m'.

(** All that changes memory during the boot are such processors. *)
Record env_runs_trampoline {D} (mapped : Z -> bool) (e : env D) : Prop := {
  runs_reset i w : rtc (ap_ran mapped) (w_mem w) (w_mem (env_reset e i w));
  runs_first i w : rtc (ap_ran mapped) (w_mem w) (w_mem (env_first e i w));
  runs_second i w : rtc (ap_ran mapped) (w_mem w) (w_mem (env_second e i w));
  runs_poll i k w : rtc (ap_ran mapped) (w_mem w) (w_mem (env_poll e i k w));
  runs_after i w : rtc (ap_ran mapped) (w_mem w) (w_mem (env_after e i w));
}.

Section trampoline_runs.
Context (mapped : Z -> bool).
Hypothesis Hmapped : forall a, TRAMPOLINE_PHYS <= a < TRAMPOLINE_PHYS + 4096 -> mapped a = true.

Lemma ap_ran_not_ready m m' : not_ready m -> rtc (ap_ran mapped) m m' -> not_ready m'.
Proof.
  intros Hm Hrun. revert Hm. eapply rtc_invariant; [|exact Hrun].
  intros x y Hx (ax & cx & dx & sp & di & n & c & Hn).
  destruct (faults_within_run _ _ _ _ _ (ap_faults mapped ax cx dx sp di x Hmapped Hx)) as [_ Hall].
  specialize (Hall n). by rewrite Hn in Hall.
Qed.

Lemma not_ready_flag m : not_ready m -> ready_flag bsp_trampoline m = false.
Proof.
  intros [_ Hl]. unfold ready_flag.
  change (field (trampoline_vaddr bsp_trampoline + TRAMPOLINE_DATA_OFFSET) 4) with 0x8F1C. by rewrite Hl.
Qed.

Context `{Machine D} (p : profile) (fuel : nat) (e : env D) (la : local_apic).
Context (Hok : controller_ok fuel e la bsp_trampoline) (Henv : env_runs_trampoline mapped e).

Lemma prepared_not_ready i m m' : page_installed m -> prepared e bsp_trampoline i m m' -> not_ready m'.
Proof.
  intros Hm [Hdata _ Hrest]. split.
  - intros a Ha. rewrite Hrest; [by apply Hm|left|].
    + change (trampoline_vaddr bsp_trampoline) with TRAMPOLINE_PHYS. unfold TRAMPOLINE_DATA_PHYS in Ha. lia.
    + destruct (ok_stack _ _ _ _ Hok i) as [_ Hs]. change (trampoline_vaddr bsp_trampoline) with TRAMPOLINE_PHYS in Hs.
      change TRAMPOLINE_DATA_PHYS with (TRAMPOLINE_PHYS + 0xF00) in Ha. lia.
  - by injection Hdata as _ _ _ _ Hready.
Qed.

Lemma boot_one_not_ready i ap (w : world D) :
  in_range 8 (la_apic_id ap) -> Z.of_nat i + 1 < 2 ^ 32 -> page_installed (w_mem w) ->
  exists w', boot_one p fuel e la bsp_trampoline i ap w = Some (Ok (false, w')) /\ page_installed (w_mem w').
Proof.
  intros Hap Hi Hpage.
  destruct (boot_one_ok p fuel e la bsp_trampoline Hok _ (true_footprint la) _ (true_boot_footprint _) (true_steps e) i ap w Hap Hi)
    as (m & w1 & w2 & w3 & b & Hm & (h1 & -> & _) & (h2 & -> & _) & (h3 & -> & _) & Hb & Hone & _).
  pose proof (prepared_not_ready i _ _ Hpage Hm) as H0.
  assert (Hf : not_ready (w_mem (env_first e i (set_hw (env_reset e i (set_hw (set_mem w m) h1)) h2)))).
  { eapply ap_ran_not_ready; [|apply (runs_first _ _ Henv)]. eapply ap_ran_not_ready; [|apply (runs_reset _ _ Henv)]. exact H0. }
  set (wf := env_first e i _) in *. rewrite (not_ready_flag _ Hf) in Hone, Hb. set (wp := env_second e i _) in *.
  assert (H2 : not_ready (w_mem wp)) by (eapply ap_ran_not_ready; [exact Hf|apply (runs_second _ _ Henv i (set_hw wf h3))]).
  destruct b.
  - destruct (proj1 Hb eq_refl) as (k & _ & Hk). rewrite not_ready_flag in Hk; [done|].
    eapply ap_ran_not_ready; [exact H2|apply Henv].
  - exists (env_after e i wp). split; [exact Hone|]. eapply ap_ran_not_ready; [exact H2|apply Henv].
Qed.

Lemma boot_loop_not_ready i aps total (w : world D) :
  Forall (fun ap => in_range 8 (la_apic_id ap)) aps -> Z.of_nat i + Z.of_nat (length aps) < 2 ^ 32 ->
  page_installed (w_mem w) ->
  exists w', boot_loop p fuel e la bsp_trampoline i aps total w = Some (Ok (total, w')).
Proof.
  revert i w. induction aps as [|ap aps IH]; intros i w Hall Hi Hpage; [by exists w|].
  apply Forall_cons in Hall as [Hap Hall]. cbn [length] in Hi.
  destruct (boot_one_not_ready i ap w Hap ltac:(lia) Hpage) as (w1 & Hone & Hpage1).
  cbn [boot_loop]. rewrite (w_bind_ok _ _ _ _ _ Hone). apply IH; [done|lia|done].
Qed.
End trampoline_runs.

(** ** Proofs: interrupts to a core *)

Definition fixed_ipi (la : local_apic) (dest vector : Z) : ipi :=
  Ipi (ipi_target la dest) vector 0 false false false 0.

Lemma decode_fixed target vector :
  in_range 8 vector ->
  decode_icr target (Z.lor (Z.lor (Z.lor ICR_FIXED ICR_DEST_PHYSICAL) ICR_NO_SHORTHAND) vector) =
  Ipi target vector 0 false false false 0.
Proof.
  intros Hv. assert (decode_icr 0 (Z.lor (Z.lor (Z.lor ICR_FIXED ICR_DEST_PHYSICAL) ICR_NO_SHORTHAND) vector) =
    Ipi 0 vector 0 false false false 0) as Hd.
  { revert Hv. apply (byte_all (fun k => decode_icr 0
      (Z.lor (Z.lor (Z.lor ICR_FIXED ICR_DEST_PHYSICAL) ICR_NO_SHORTHAND) k) = Ipi 0 k 0 false false false 0)).
    by vm_compute. }
  unfold decode_icr in *. congruence.
Qed.

Section cores.
Context `{Machine D} `{TaskQueue Q} (p : profile) (fuel : nat).
Implicit Types (c : smp_controller Q) (w : world D).

(** The interrupts to a core: one when it is registered, none otherwise. *)
Definition core_ipis (la : local_apic) (rs : list registration) (vector : Z) (core : Z) : list ipi :=
  match reg_at rs (Z.to_nat core) with
  | Some r => [fixed_ipi la (reg_apic_id r) vector]
  | None => []
  end.

Lemma ipi_send_ok c w rs core vector :
  apic_mapped (smp_local_apic c) -> (forall d, idle_for fuel (smp_local_apic c) d) ->
  percpu_inv (w_percpu w) rs -> Forall (fun r => in_range 32 (reg_apic_id r)) rs ->
  0 <= core -> in_range 8 vector ->
  exists h, ipi_send p fuel c core vector w = Some (Ok (tt, set_hw w h)) /\
    world_ipis (smp_local_apic c) (set_hw w h) =
    world_ipis (smp_local_apic c) w ++ core_ipis (smp_local_apic c) rs vector core.
Proof.
  intros Hm Hidle Hinv Hall Hcore Hv. unfold ipi_send, check_ub, core_ipis.
  unfold mbind at 1, w_bind at 1. rewrite (get_cpu_inv _ rs) by done.
  assert (Hnone : exists h, (mret tt : W D unit) w = Some (Ok (tt, set_hw w h)) /\
    world_ipis (smp_local_apic c) (set_hw w h) = world_ipis (smp_local_apic c) w ++ []).
  { exists (w_hw w). rewrite app_nil_r. by destruct w. }
  destruct (reg_at rs (Z.to_nat core)) as [r|] eqn:Hr; [|by destruct (_ <? _)%nat].
  apply reg_at_elem in Hr as [Hin Hidx]. rewrite Forall_forall in Hall.
  destruct (inv_indices _ _ Hinv) as [_ Hrange]. rewrite Forall_forall in Hrange.
  specialize (Hrange r Hin). destruct (Nat.ltb_spec (Z.to_nat core) MAX_CPUS) as [_|]; [|unfold MAX_CPUS in *; lia].
  simpl. destruct (send_ipi_ok p fuel (smp_local_apic c) (reg_apic_id r)
    (Z.lor (Z.lor (Z.lor ICR_FIXED ICR_DEST_PHYSICAL) ICR_NO_SHORTHAND) vector) (w_hw w) Hm (Hidle _) (Hall r Hin))
    as (h & Hs & Hsent).
  { revert Hv. apply (byte_all (fun k => in_range 32 (Z.lor (Z.lor (Z.lor ICR_FIXED ICR_DEST_PHYSICAL) ICR_NO_SHORTHAND) k))).
    by vm_compute. }
  exists h. split; [by apply on_hw_ok|]. unfold world_ipis. cbn [w_hw set_hw].
  rewrite Hsent, decode_fixed by done. done.
Qed.

Lemma halt_loop_ok c w rs targets :
  apic_mapped (smp_local_apic c) -> (forall d, idle_for fuel (smp_local_apic c) d) ->
  percpu_inv (w_percpu w) rs -> Forall (fun r => in_range 32 (reg_apic_id r)) rs ->
  Forall (fun i => 0 <= i) targets ->
  exists h, halt_loop p fuel c targets w = Some (Ok (tt, set_hw w h)) /\
    world_ipis (smp_local_apic c) (set_hw w h) =
    world_ipis (smp_local_apic c) w ++ concat (map (core_ipis (smp_local_apic c) rs 0x02) targets).
Proof.
  intros Hm Hidle Hinv Hall. revert w Hinv. induction targets as [|i targets IH]; intros w Hinv Hpos.
  { exists (w_hw w). simpl. rewrite app_nil_r. by destruct w. }
  apply Forall_cons in Hpos as [Hi Hpos]. cbn [halt_loop map concat].
  destruct (ipi_send_ok c w rs i 0x02 Hm Hidle Hinv Hall Hi) as (h1 & Hs & Hi1); [done|].
  rewrite (w_bind_ok _ _ _ _ _ Hs).
  destruct (IH (set_hw w h1) Hinv Hpos) as (h2 & Hs2 & Hi2).
  exists h2. split; [exact Hs2|]. change (set_hw w h2) with (set_hw (set_hw w h1) h2).
  by rewrite Hi2, Hi1, <-app_assoc.
Qed.
End cores.

(** ** Properties *)

(** C23: [boot_aps] always returns, and starts the APs as [boots] says, one after the
    other: the page is installed; for each AP, memory is prepared (the data block of
    the trampoline, a zeroed stack) and INIT and, after a delay, STARTUP are sent;
    if, in the world that this run has reached after the next delay, the ready flag
    is clear, a second STARTUP is sent, and otherwise not; and the AP is one more core
    exactly if one of the polls that begin in the world reached then sees the flag
    set. The interrupts sent are these, in this order, and no others. *)
Theorem boot_aps_sequence `{Machine D} p fuel (e : env D) la t aps total (w : world D) :
  controller_ok fuel e la t -> Forall (fun ap => in_range 8 (la_apic_id ap)) aps ->
  0 <= total -> total + Z.of_nat (length aps) < 2 ^ 32 ->
  exists os w',
    boot_aps p fuel e la t aps total w = Some (Ok (total + Z.of_nat (count_if snd os), w')) /\
    boots e la t 0 aps (with_trampoline t aps w) os w' /\
    length os = length aps /\
    world_ipis la w' = world_ipis la w ++ concat (zip_with boot_ipis aps (map fst os)).
Proof.
  intros Hok Hall Hpos Hlt.
  destruct (boot_aps_ok p fuel e la t _ _ aps total w Hok (true_footprint la) (true_boot_footprint _) (true_steps e) Hall Hpos Hlt)
    as (os & w' & Hboot & Hboots & Hlen & Hipis & _).
  by exists os, w'.
Qed.

(** With the trampoline as it is, no AP ever counts as booted: if what changes
    memory while [boot_aps] waits are processors that execute the trampoline page
    from its start (as often as they like, each as far as it gets), the number of
    cores stays what it was, so the system runs on the bootstrap processor
    alone. *)
Theorem no_ap_boots `{Machine D} mapped p fuel (e : env D) la aps total (w : world D) :
  (forall a, TRAMPOLINE_PHYS <= a < TRAMPOLINE_PHYS + 4096 -> mapped a = true) ->
  controller_ok fuel e la bsp_trampoline -> env_runs_trampoline mapped e ->
  Forall (fun ap => in_range 8 (la_apic_id ap)) aps -> Z.of_nat (length aps) < 2 ^ 32 ->
  exists w', boot_aps p fuel e la bsp_trampoline aps total w = Some (Ok (total, w')).
Proof.
  intros Hmapped Hok Henv Hall Hlen. unfold boot_aps. destruct aps as [|ap aps]; [by exists w|].
  rewrite modify_bind. eapply (boot_loop_not_ready mapped Hmapped p fuel e la Hok Henv); [exact Hall|simpl in *; lia|].
  apply install_installed.
Qed.

(** [halt_aps] sets the halt flag and sends to each registered core from 1 to
    [num_cores - 1] one interrupt, with vector 2 in fixed delivery mode: not the
    non-maskable interrupt that its comment announces; a registered core whose
    index is not below [num_cores] (another AP failed to boot) gets none. *)
Theorem halt_aps_sends `{Machine D} `{TaskQueue Q} p fuel (c : smp_controller Q) (w : world D) rs :
  apic_mapped (smp_local_apic c) -> (forall d, idle_for fuel (smp_local_apic c) d) ->
  percpu_inv (w_percpu w) rs -> Forall (fun r => in_range 32 (reg_apic_id r)) rs ->
  exists w', halt_aps p fuel c w = Some (Ok (tt, w')) /\ w_ap_halt w' = true /\
    world_ipis (smp_local_apic c) w' =
      world_ipis (smp_local_apic c) w ++
      concat (map (fun core => match reg_at rs (Z.to_nat core) with
                               | Some r => [Ipi (ipi_target (smp_local_apic c) (reg_apic_id r)) 2 0
                                              false false false 0]
                               | None => []
                               end) (seqZ 1 (total_cores c - 1))).
Proof.
  intros Hm Hidle Hinv Hall. unfold halt_aps. rewrite modify_bind.
  destruct (halt_loop_ok p fuel c (set_halt w true) rs (seqZ 1 (smp_num_cores c - 1)) Hm Hidle Hinv Hall)
    as (h & Hloop & Hipis).
  { apply Forall_forall. intros i Hi. apply elem_of_seqZ in Hi. lia. }
  eexists. split; [exact Hloop|]. split; [done|]. exact Hipis.
Qed.

(** On an initialized controller, [spawn_on_core] for a core that exists puts a
    new ready task, with the next identifier, the entry point and the argument
    given, at the back of that core's queue and changes no other queue; it then
    sends the scheduling interrupt (vector 0xFE, fixed) to the core's APIC id if
    the core is registered, and returns the identifier. *)
Theorem spawn_on_core_wakes `{Machine D} `{TaskQueueLaws Q} p fuel (e : env D) (c : smp_controller Q)
    (w : world D) rs s core ts name entry arg :
  smp_scheduler c = Some s -> sched_ok s -> contents s !! core = Some ts ->
  Z.of_nat (length ts) + 1 < 2 ^ 64 ->
  0 < env_task_stack e -> in_range 64 (env_task_stack e + DEFAULT_STACK_SIZE) ->
  apic_mapped (smp_local_apic c) -> (forall d, idle_for fuel (smp_local_apic c) d) ->
  percpu_inv (w_percpu w) rs -> Forall (fun r => in_range 32 (reg_apic_id r)) rs ->
  exists t s' w',
    smp_spawn_on_core p fuel e c (Z.of_nat core) name entry arg w =
      Some (Ok ((Some (w_next_task_id w), set_scheduler c s'), w')) /\
    task_id t = w_next_task_id w /\ get_state t = Ready /\
    rip (task_context t) = entry /\ Task.rdi (task_context t) = arg /\
    sched_ok s' /\ contents s' = <[core := ts ++ [t]]> (contents s) /\
    world_ipis (smp_local_apic c) w' =
      world_ipis (smp_local_apic c) w ++
      match reg_at rs core with
      | Some r => [Ipi (ipi_target (smp_local_apic c) (reg_apic_id r)) 0xFE 0 false false false 0]
      | None => []
      end.
Proof.
  intros Hs Hsok Hts Hlen Hbase Hstack Hm Hidle Hinv Hall. unfold smp_spawn_on_core. rewrite Hs.
  assert (Hnew : exists t, task_id t = w_next_task_id w /\ get_state t = Ready /\
    rip (task_context t) = entry /\ Task.rdi (task_context t) = arg /\
    new_task p e name entry arg w = Some (Ok (t, set_next_id w (wrap 64 (w_next_task_id w + 1))))).
  { unfold new_task. rewrite task_new_ok by (done || unfold DEFAULT_STACK_SIZE; lia).
    eexists. split_and!; [| | | |reflexivity]; done. }
  destruct Hnew as (t & Hid & Hst & Hrip & Hrdi & Hnew). rewrite (w_bind_ok _ _ _ _ _ Hnew).
  destruct (push_to_ok s core ts t Hsok Hts Hlen) as (s' & Hpush & Hsok' & Hcs).
  unfold spawn_on_core. pose proof (lookup_lt_Some _ _ _ Hts) as Hlt. rewrite length_contents in Hlt.
  destruct (Z.ltb_spec (Z.of_nat core) (num_cores s)) as [_|Hge]; [|rewrite (ok_cores _ Hsok) in Hge; lia].
  rewrite Hpush, (w_bind_ok _ _ _ _ _ (pure_ok _ _)).
  destruct (ipi_send_ok p fuel c (set_next_id w (wrap 64 (w_next_task_id w + 1))) rs (Z.of_nat core)
    IPI_SCHEDULE_VECTOR Hm Hidle Hinv Hall) as (h & Hsend & Hipis); [lia|done|].
  rewrite (w_bind_ok _ _ _ _ _ Hsend).
  eexists t, s', _. split_and!; [rewrite Hid; reflexivity|done..|]. rewrite Hipis. unfold core_ipis. by rewrite Nat2Z.id.
Qed.

(** ** Examples: a machine whose ICR is always idle *)

#[global] Instance quiet_machine : Machine unit := {|
  dev_read32 addr d := (0, d);
  dev_write32 addr v d := d;
  dev_rdmsr msr d := ((0, 0), d);
  dev_wrmsr msr high low d := d;
  dev_cpuid1_ecx d := 0;
|}.

Definition demo_la : local_apic := apic_new 0xFEE00000.

Lemma demo_idle d : idle_for 1 demo_la d.
Proof. intros _. exists 0%nat. split; [lia|]. by left. Qed.

Definition demo_world : world unit := World (Hw tt []) (fun _ => 0) percpu_init 0 false 1.

(** After each STARTUP the AP runs the trampoline up to the store of the flag. *)
Definition ap_runs (w : world unit) : world unit :=
  match cpu_run (fun _ => true) 38 (ap_start 0 0 0 0 0) (w_mem w) with
  | Next _ m => set_mem w m
  | _ => w
  end.

Definition demo_env : env unit := {|
  env_me := 0;
  env_percpu_addr := 0x10000;
  env_stack i := 0x100000 + 0x40000 * (Z.of_nat i mod 16);
  env_task_stack := 0x900000;
  env_cr3 := 0x1000;
  env_ap_entry := 0x200000;
  env_reset i w := w;
  env_first i w := ap_runs w;
  env_second i w := ap_runs w;
  env_poll i k w := w;
  env_after i w := w;
|}.

Lemma ap_runs_rtc w : rtc (ap_ran (fun _ => true)) (w_mem w) (w_mem (ap_runs w)).
Proof.
  unfold ap_runs. destruct (cpu_run _ _ _ _) as [c m| | | |] eqn:Hr; try apply rtc_refl.
  apply rtc_once. exists 0, 0, 0, 0, 0, 38%nat, c. exact Hr.
Qed.

Lemma demo_env_ok : env_runs_trampoline (fun _ => true) demo_env.
Proof. constructor; intros; (apply ap_runs_rtc || apply rtc_refl). Qed.

Lemma demo_controller_ok : controller_ok 1 demo_env demo_la bsp_trampoline.
Proof.
  constructor.
  - constructor; intros i w; [done| | |done]; simpl; unfold ap_runs; by destruct (cpu_run _ _ _ _).
  - done.
  - apply demo_idle.
  - intros i. change (trampoline_vaddr bsp_trampoline) with 0x8000. cbn [env_stack demo_env].
    unfold in_range, AP_STACK_SIZE. pose proof (Z.mod_pos_bound (Z.of_nat i) 16 ltac:(lia)). lia.
  - done.
  - done.
Qed.

Definition demo_aps : list madt_local_apic := [MadtLocalApic 1 2 true; MadtLocalApic 2 4 true].

Lemma demo_aps_ok : Forall (fun ap => in_range 8 (la_apic_id ap)) demo_aps.
Proof. repeat constructor; done. Qed.

Lemma boot_aps_sequence_witness :
  exists (os : list (bool * bool)) w', boot_aps Debug 1 demo_env demo_la bsp_trampoline demo_aps 1 demo_world =
      Some (Ok (1 + Z.of_nat (count_if snd os), w')) /\ length os = 2%nat /\
    boots demo_env demo_la bsp_trampoline 0 demo_aps (with_trampoline bsp_trampoline demo_aps demo_world) os w'.
Proof.
  destruct (boot_aps_sequence Debug 1 demo_env demo_la bsp_trampoline demo_aps 1 demo_world
    demo_controller_ok demo_aps_ok ltac:(lia) ltac:(simpl; lia)) as (os & w' & Hb & Hboots & Hl & _).
  exists os, w'. split; [exact Hb|]. split; [exact Hl|exact Hboots].
Defined.

Lemma no_ap_boots_witness :
  exists w', boot_aps Debug 1 demo_env demo_la bsp_trampoline demo_aps 1 demo_world = Some (Ok (1, w')).
Proof.
  exact (no_ap_boots (fun _ => true) Debug 1 demo_env demo_la demo_aps 1 demo_world
    ltac:(done) demo_controller_ok demo_env_ok demo_aps_ok ltac:(done)).
Defined.

Definition demo_percpu : percpu_state :=
  match register_all percpu_init demo_boot with Some (Ok st) => st | _ => percpu_init end.

Lemma demo_percpu_inv : percpu_inv demo_percpu demo_boot.
Proof.
  destruct (register_all_inv percpu_init [] demo_boot percpu_inv_init demo_boot_ok) as (st & Hreg & Hinv).
  unfold demo_percpu. rewrite Hreg. exact Hinv.
Qed.

Lemma demo_boot_ids : Forall (fun r => in_range 32 (reg_apic_id r)) demo_boot.
Proof. repeat constructor; done. Qed.

Definition demo_controller : smp_controller run_queue :=
  SmpController 0 demo_la [] bsp_trampoline 2 3 None (Some demo_scheduler) true.

Definition demo_world3 : world unit := World (Hw tt []) (fun _ => 0) demo_percpu 2 false 1.

Lemma halt_aps_sends_witness :
  exists w', halt_aps Debug 1 demo_controller demo_world3 = Some (Ok (tt, w')) /\ w_ap_halt w' = true /\
    world_ipis demo_la w' = [Ipi 2 2 0 false false false 0; Ipi 4 2 0 false false false 0].
Proof.
  destruct (halt_aps_sends Debug 1 demo_controller demo_world3 demo_boot
    ltac:(done) demo_idle demo_percpu_inv demo_boot_ids) as (w' & Hh & Hf & Hi).
  exists w'. split; [exact Hh|]. split; [exact Hf|exact Hi].
Defined.

Lemma spawn_on_core_wakes_witness :
  exists s' w', smp_spawn_on_core Debug 1 demo_env demo_controller 1 "worker" 0x401000 7 demo_world3 =
      Some (Ok ((Some 1, set_scheduler demo_controller s'), w')) /\
    world_ipis demo_la w' = [Ipi 2 0xFE 0 false false false 0].
Proof.
  destruct (spawn_on_core_wakes Debug 1 demo_env demo_controller demo_world3 demo_boot demo_scheduler 1
    (nth 1 (contents demo_scheduler) []) "worker" 0x401000 7 eq_refl demo_scheduler_ok ltac:(reflexivity)
    ltac:(by vm_compute) ltac:(done) ltac:(done) ltac:(done) demo_idle demo_percpu_inv demo_boot_ids)
    as (t & s' & w' & Hsp & _ & _ & _ & _ & _ & _ & Hi).
  exists s', w'. split; [exact Hsp|exact Hi].
Defined.
