(* ===== verification/Init.v ===== *)
(** * Init: initialization of the system (src/src/driver.rs)

    [SmpController::init] as a whole: the bootstrap processor's local APIC, the
    I/O APICs of the MADT, its per-CPU structure, the application processors and
    the scheduler, on a machine with a local APIC and I/O APICs that do not
    disturb each other. The definitions are those of Driver. *)

From S2P Require Import Prelude Memory Hw Task RunQueue Scheduler Apic IoApic PerCpu X86 Trampoline Driver.

(** ** Specification *)

(** The values that [enable] and the flat model put in the registers. *)
Definition svr_enabled (svr : Z) : Z := Z.lor (Z.lor (Z.land svr (bnot 32 0xFF)) 0xFF) (Z.shiftl 1 8).
Definition ldr_flat (ldr : Z) : Z := Z.lor (Z.land ldr 0x00FFFFFF) (Z.shiftl 1 24).

(** The accesses that configure the local APIC of the bootstrap processor; [r1],
    [r2] and [r3] are the reads. *)
Definition enable_writes (svr : Z) : list (Z * Z) :=
  [(REG_SVR, svr_enabled svr); (REG_TPR, 0)].

Definition model_writes (ldr : Z) : list (Z * Z) :=
  [(REG_LDR, ldr_flat ldr);
   (REG_LVT_LINT0, LVT_MASKED); (REG_LVT_LINT1, LVT_MASKED); (REG_LVT_ERROR, LVT_MASKED);
   (REG_LVT_TIMER, LVT_MASKED); (REG_LVT_PERF, LVT_MASKED); (REG_LVT_THERMAL, LVT_MASKED)].

Definition write_all (la : local_apic) (ws : list (Z * Z)) : list access :=
  map (fun '(off, v) => write_access la off v) ws.

Definition bsp_log (la : local_apic) (svr ldr : Z) (r1 r2 r3 : access) : list access :=
  [r1] ++ write_all la (enable_writes svr ++ [(REG_DFR, 0xFFFFFFFF)]) ++ [r2] ++
  write_all la (model_writes ldr) ++ [r3].

(** The driver object for an I/O APIC of the MADT whose version register holds
    [version (address info)]. *)
Definition io_entry (version : Z -> Z) (info : madt_io_apic) : io_apic :=
  IoApic (address info) (io_gsi_base info) (Z.land (Z.shiftr (version (address info)) 16) 0xFF + 1).

(** The I/O APICs are where the MADT says; their version registers are constant. *)
Record io_apics_ok {D} (bases : Z -> Prop) (cfg : D -> Z * Z -> Z) (version : Z -> Z)
    (infos : list madt_io_apic) : Prop := {
  ios_version d b : bases b -> cfg d (b, REG_IOAPICVER) = version b;
  ios_ok : Forall (fun info => io_ok bases (io_entry version info)) infos;
}.

(** An access to the register select or the window of an I/O APIC at one of [bs]. *)
Definition at_io (bs : list Z) (a : access) : Prop :=
  match a with
  | MmioRead addr _ | MmioWrite addr _ => exists b, b ∈ bs /\ (addr = b + IOREGSEL \/ addr = b + IOWIN)
  | _ => False
  end.

(** The I/O APICs are not in the page of the local APIC. *)
Definition outside_page (la : local_apic) (bs : list Z) : Prop :=
  Forall (fun b => b + IOWIN < Apic.base_addr la \/ Apic.base_addr la + 0xFFF < b) bs.

(** The registration of the bootstrap processor. *)
Definition bsp_registration {D} (e : env D) (bsp : Z) : registration :=
  Registration (env_me e) (env_percpu_addr e) 0 bsp true.

(** What the others may do while the bootstrap processor waits: they leave the
    redirection tables alone and may register their own per-CPU structures. *)
Definition ap_effect {D} (bases : Z -> Prop) (cfg : D -> Z * Z -> Z) (w w' : world D) : Prop :=
  same_pins bases cfg (dev (w_hw w)) (dev (w_hw w')) /\
  forall rs, percpu_inv (w_percpu w) rs -> exists rs', percpu_inv (w_percpu w') (rs ++ rs').

(** Every pin of the drivers [m] is masked, the others are as in [d]. *)
Definition pins_masked {D} (bases : Z -> Prop) (cfg : D -> Z * Z -> Z) (m : list io_apic) (d d' : D) : Prop :=
  forall b n, bases b -> 0 <= n ->
    pin cfg d' b n =
    if decide (Exists (fun io => IoApic.base_addr io = b /\ n < max_entries io) m) then MASKED else pin cfg d b n.

(** The world when the first AP is started, from the one in which [init] is called:
    the local APIC of the bootstrap processor is configured and then the I/O APICs
    of the MADT, whose pins are masked, and nothing else is accessed; no interrupt is
    sent; the per-CPU structure is the only one; memory has not changed. *)
Record bsp_configured `{Machine D} (e : env D) (la : local_apic) (bsp : Z) (infos : list madt_io_apic)
    (bases : Z -> Prop) (cfg : D -> Z * Z -> Z) (version : Z -> Z) (w w0 : world D) : Prop := {
  conf_accesses : exists svr ldr ver r1 r2 r3 log,
    accesses (w_hw w0) = accesses (w_hw w) ++ bsp_log la svr ldr r1 r2 r3 ++ log /\
    reads_reg la REG_SVR svr r1 /\ reads_reg la REG_LDR ldr r2 /\ reads_reg la REG_VERSION ver r3 /\
    Forall (at_io (map address infos)) log;
  conf_ipis : world_ipis la w0 = world_ipis la w;
  conf_pins : pins_masked bases cfg (map (io_entry version) infos) (dev (w_hw w)) (dev (w_hw w0));
  conf_percpu : percpu_inv (w_percpu w0) [bsp_registration e bsp];
  conf_memory : w_mem w0 = w_mem w;
}.

(** ** Proofs *)

#[global] Instance same_pins_preorder {D} bases (cfg : D -> Z * Z -> Z) : PreOrder (same_pins bases cfg).
Proof.
  split; [done|]. intros d1 d2 d3 H12 H23 b n Hb Hn. by rewrite H23, H12.
Qed.

#[global] Instance ap_effect_preorder {D} bases (cfg : D -> Z * Z -> Z) : PreOrder (ap_effect bases cfg).
Proof.
  split.
  - intros w. split; [done|]. intros rs Hrs. exists []. by rewrite app_nil_r.
  - intros w1 w2 w3 [Hp12 Hr12] [Hp23 Hr23]. split; [by transitivity (dev (w_hw w2))|].
    intros rs Hrs. destruct (Hr12 rs Hrs) as (rs1 & H1). destruct (Hr23 _ H1) as (rs2 & H2).
    exists (rs1 ++ rs2). by rewrite app_assoc.
Qed.

Lemma ap_effect_footprint {D} bases (cfg : D -> Z * Z -> Z) :
  boot_footprint (same_pins bases cfg) (ap_effect bases cfg).
Proof.
  split; [apply _|..].
  - intros w m. split; [done|]. intros rs Hrs. exists []. by rewrite app_nil_r.
  - intros w h Hp. split; [done|]. intros rs Hrs. exists []. by rewrite app_nil_r.
Qed.

Section bsp.
Context `{Machine D} (p : profile) (la : local_apic) (R : D -> D -> Prop).
Context (Hm : apic_mapped la) (HR : lapic_footprint la R).
Implicit Types s : hw D.

(** A run of the driver: it extends the log by [log] and changes the machine
    within [R]. *)
Definition ran s s' (log : list access) : Prop :=
  R (dev s) (dev s') /\ accesses s' = accesses s ++ log.

Lemma ran_refl s : ran s s [].
Proof. split; [by apply (fp_refl la R HR)|by rewrite app_nil_r]. Qed.

Lemma ran_trans s1 s2 s3 l1 l2 : ran s1 s2 l1 -> ran s2 s3 l2 -> ran s1 s3 (l1 ++ l2).
Proof.
  intros [HR1 Ha1] [HR2 Ha2]. split; [by eapply (fp_trans la R HR)|]. by rewrite Ha2, Ha1, app_assoc.
Qed.

Lemma write_ran {B} off v (f : unit -> HW D B) s0 s log :
  0 <= off <= 0xFFF -> ran s0 s log ->
  exists s1, (Apic.write_reg p la off v ≫= f) s = f tt s1 /\ ran s0 s1 (log ++ [write_access la off v]).
Proof.
  intros Hoff Hran. destruct (write_step p la R Hm HR off v f s Hoff) as (s1 & Heq & HR1 & Ha).
  exists s1. split; [done|]. by eapply ran_trans.
Qed.

Lemma read_ran {B} off (f : Z -> HW D B) s0 s log :
  0 <= off <= 0xFFF -> ran s0 s log ->
  exists v s1 a, (Apic.read_reg p la off ≫= f) s = f v s1 /\ ran s0 s1 (log ++ [a]) /\ reads_reg la off v a.
Proof.
  intros Hoff Hran. destruct (read_step p la R Hm HR off f s Hoff) as (v & s1 & a & Heq & HR1 & Ha & Hr).
  exists v, s1, a. split_and!; [done| |done]. by eapply ran_trans.
Qed.

(** One more register access of a run. *)
Local Ltac run_write :=
  match goal with
  | Hran : ran ?s0 ?s _ |- context [(Apic.write_reg p la ?off ?v ≫= ?f) ?s] =>
      let s1 := fresh "s" in let Heq := fresh "Heq" in
      destruct (write_ran off v f s0 s _ ltac:(done) Hran) as (s1 & Heq & ?);
      rewrite Heq; clear Heq Hran; cbv beta
  end.
Local Ltac run_read v a :=
  match goal with
  | Hran : ran ?s0 ?s _ |- context [(Apic.read_reg p la ?off ≫= ?f) ?s] =>
      let s1 := fresh "s" in let Heq := fresh "Heq" in
      destruct (read_ran off f s0 s _ ltac:(done) Hran) as (v & s1 & a & Heq & ? & ?);
      rewrite Heq; clear Heq Hran; cbv beta
  end.

(** The log of [init_bsp_apic]. *)
Lemma init_bsp_apic_ok s :
  exists svr ldr ver r1 r2 r3 s',
    init_bsp_apic p la s = Ok (tt, s') /\ ran s s' (bsp_log la svr ldr r1 r2 r3) /\
    reads_reg la REG_SVR svr r1 /\ reads_reg la REG_LDR ldr r2 /\ reads_reg la REG_VERSION ver r3.
Proof.
  pose proof (ran_refl s) as Hran. unfold init_bsp_apic, enable. rewrite hw_bind_assoc.
  run_read svr r1. run_write. unfold write_tpr. run_write. unfold write_dfr. run_write.
  unfold read_ldr. run_read ldr r2. unfold write_ldr. run_write.
  unfold write_lvt_lint0. run_write. unfold write_lvt_lint1. run_write. unfold write_lvt_error. run_write.
  unfold write_lvt_timer. run_write. unfold write_lvt_perf. run_write. unfold write_lvt_thermal. run_write.
  unfold version. run_read ver r3.
  exists svr, ldr, ver, r1, r2, r3. eexists. split_and!; [reflexivity|eassumption..].
Qed.

Lemma write_all_sends_nothing log ws :
  Forall (fun '(off, _) => 0 <= off <= 0xFFF /\ off mod 16 = 0 /\ off <> 0x300 /\ off <> 0x310) ws ->
  sent_ipis (Apic.base_addr la) (log ++ write_all la ws) = sent_ipis (Apic.base_addr la) log.
Proof.
  unfold write_all. revert log. induction ws as [|[off v] ws IH]; intros log Hall; [by rewrite app_nil_r|].
  apply Forall_cons in Hall as [(? & ? & ? & ?) Hall]. cbn [map].
  rewrite cons_middle, app_assoc, IH by done. by apply sent_other.
Qed.

Lemma read_sends_nothing log off v a :
  reads_reg la off v a -> sent_ipis (Apic.base_addr la) (log ++ [a]) = sent_ipis (Apic.base_addr la) log.
Proof. intros Ha. apply sent_reads. simpl. by rewrite (reads_reg_is_read _ _ _ _ Ha). Qed.

Lemma bsp_log_sends_nothing log svr ldr ver r1 r2 r3 :
  reads_reg la REG_SVR svr r1 -> reads_reg la REG_LDR ldr r2 -> reads_reg la REG_VERSION ver r3 ->
  sent_ipis (Apic.base_addr la) (log ++ bsp_log la svr ldr r1 r2 r3) = sent_ipis (Apic.base_addr la) log.
Proof.
  intros H1 H2 H3. unfold bsp_log. rewrite !app_assoc, (read_sends_nothing _ _ _ _ H3).
  rewrite write_all_sends_nothing by (repeat constructor; done). rewrite (read_sends_nothing _ _ _ _ H2).
  rewrite write_all_sends_nothing by (repeat constructor; done). by rewrite (read_sends_nothing _ _ _ _ H1).
Qed.
End bsp.

(** *** The accesses that set up the I/O APICs *)

Section io_log.
Context `{Machine D} (p : profile) (bases : Z -> Prop).

(** What a method of an I/O APIC touches. *)
Local Abbreviation its io := (at_io [IoApic.base_addr io]).

Lemma makes_select {B} io index (f : Z -> HW D B) :
  io_mapped bases io -> makes (its io) (f (IoApic.base_addr io + IOWIN)) ->
  makes (its io)
    (sel ← lift (arith p 64 (IoApic.base_addr io + IOREGSEL)); write_volatile sel index;;
     win ← lift (arith p 64 (IoApic.base_addr io + IOWIN)); f win).
Proof.
  intros (_ & Hlo & Hhi) Hf. rewrite !arith_in_range by (done || by rewrite Z.add_0_r).
  change (makes (its io) (write_volatile (IoApic.base_addr io + IOREGSEL) index;; f (IoApic.base_addr io + IOWIN))).
  apply makes_bind; [|done]. apply makes_write. exists (IoApic.base_addr io). split; [by apply list_elem_of_singleton|by left].
Qed.

Lemma makes_read_reg io index : io_mapped bases io -> makes (its io) (IoApic.read_reg p io index).
Proof.
  intros Hm. apply makes_select; [done|]. apply makes_read. intros v. exists (IoApic.base_addr io).
  split; [by apply list_elem_of_singleton|by right].
Qed.

Lemma makes_write_reg io index v : io_mapped bases io -> makes (its io) (IoApic.write_reg p io index v).
Proof.
  intros Hm. apply makes_select; [done|]. apply makes_write. exists (IoApic.base_addr io).
  split; [by apply list_elem_of_singleton|by right].
Qed.

Lemma makes_mask_all io : io_mapped bases io -> makes (its io) (IoApic.mask_all p io).
Proof.
  intros Hm. unfold IoApic.mask_all. induction (seqZ 0 (max_entries io)) as [|i pins IH]; [apply makes_ret|].
  apply makes_bind; [|intros _; exact IH]. apply makes_bind; [auto with smp|intros _].
  apply makes_bind; [auto with smp|intros r]. apply makes_bind; [by apply makes_write_reg|intros _].
  apply makes_bind; [auto with smp|intros r']. by apply makes_write_reg.
Qed.

Lemma makes_io_apic_new base gsi :
  io_mapped bases (IoApic base gsi 0) -> makes (at_io [base]) (io_apic_new p base gsi).
Proof.
  intros Hm. apply makes_bind; [by apply (makes_read_reg (IoApic base gsi 0))|intros v].
  apply makes_bind; intros; auto with smp.
Qed.

End io_log.

Lemma at_io_sub bs bs' a : (forall b, b ∈ bs -> b ∈ bs') -> at_io bs a -> at_io bs' a.
Proof. intros Hsub. destruct a; simpl; naive_solver. Qed.

Lemma at_io_sends_nothing la bs log l :
  outside_page la bs -> Forall (at_io bs) l ->
  sent_ipis (Apic.base_addr la) (log ++ l) = sent_ipis (Apic.base_addr la) log.
Proof.
  intros Hap Hall. unfold sent_ipis. rewrite fold_left_app.
  generalize (fold_left (apic_observe (Apic.base_addr la)) log (0, [])).
  induction Hall as [|a l Ha _ IH]; intros st; [done|]. simpl. rewrite IH. destruct st as [high sent].
  destruct a as [addr v|addr v|msr v|msr v]; try done. destruct Ha as (b & Hb & Haddr).
  pose proof (proj1 (Forall_forall _ _) Hap b Hb) as Hpage. unfold IOREGSEL, IOWIN in *. simpl.
  destruct (Z.eqb_spec addr (Apic.base_addr la + 0x310)); [lia|].
  destruct (Z.eqb_spec addr (Apic.base_addr la + 0x300)); [lia|done].
Qed.
Section io_apics.
Context `{Machine D} (p : profile).
Context (bases : Z -> Prop) (sel : D -> Z -> Z) (cfg : D -> Z * Z -> Z) (version : Z -> Z).
Context (Hbus : io_bus bases sel cfg).
Implicit Types s : hw D.

Lemma pins_masked_nil d d' : same_pins bases cfg d d' -> pins_masked bases cfg [] d d'.
Proof. intros Hp b n Hb Hn. rewrite decide_False; [by apply Hp|]. intros Hex. by apply Exists_nil in Hex. Qed.

Lemma pins_masked_after m d d' d'' : pins_masked bases cfg m d d' -> same_pins bases cfg d' d'' -> pins_masked bases cfg m d d''.
Proof. intros Hm Hp b n Hb Hn. by rewrite Hp, Hm. Qed.

Lemma pins_masked_before m d d' d'' : same_pins bases cfg d d' -> pins_masked bases cfg m d' d'' -> pins_masked bases cfg m d d''.
Proof. intros Hp Hm b n Hb Hn. rewrite Hm by done. by rewrite Hp. Qed.

Lemma init_io_apics_ok m infos s :
  io_apics_ok bases cfg version infos ->
  exists d log, init_io_apics p m infos s = Ok (m ++ map (io_entry version) infos, Hw d (accesses s ++ log)) /\
    Forall (at_io (map address infos)) log /\ pins_masked bases cfg (map (io_entry version) infos) (dev s) d.
Proof.
  intros [Hver Hall]. revert m s. induction infos as [|info infos IH]; intros m s.
  { exists (dev s), []. rewrite !app_nil_r. split; [by destruct s|]. split; [done|by apply pins_masked_nil]. }
  apply Forall_cons in Hall as [Hio Hall]. cbn [init_io_apics map].
  pose proof (proj1 Hio) as Hmap. pose proof (proj1 Hmap) as Hbase.
  destruct (io_apic_new_ok p bases sel cfg (address info) (io_gsi_base info) s Hbus Hmap) as (d1 & l1 & Hnew & Hp1).
  { rewrite (Hver _ (address info) Hbase). pose proof (proj2 (proj2 (proj2 Hio))) as Hmax. cbn in Hmax. lia. }
  rewrite (Hver _ (address info) Hbase) in Hnew. fold (io_entry version info) in Hnew.
  rewrite (hw_bind_ok _ _ _ _ _ Hnew).
  destruct (mask_all_ok p bases sel cfg Hbus (io_entry version info) (Hw d1 (accesses s ++ l1)) Hio)
    as (d2 & l2 & Hmask & Hp2).
  rewrite (hw_bind_ok _ _ _ _ _ Hmask).
  destruct (IH Hall (manager_add m (io_entry version info)) (Hw d2 ((accesses s ++ l1) ++ l2)))
    as (d3 & l3 & Hrest & Hl3 & Hp3).
  exists d3, (l1 ++ l2 ++ l3). split_and!.
  - unfold manager_add in *. cbn [accesses] in *. rewrite Hrest, <-!app_assoc. done.
  - assert (Hsub : forall l, Forall (at_io [address info]) l -> Forall (at_io (address info :: map address infos)) l).
    { intros l Hl. eapply Forall_impl; [exact Hl|]. intros a. apply (at_io_sub [_]).
      intros b ->%list_elem_of_singleton. by left. }
    repeat apply Forall_app_2.
    + apply Hsub. by eapply makes_log, Hnew; apply (makes_io_apic_new p bases).
    + apply Hsub. by eapply makes_log, Hmask; apply (makes_mask_all p bases).
    + eapply Forall_impl; [exact Hl3|]. intros a. apply (at_io_sub (map address infos)). intros b Hb. by right.
  - apply (pins_masked_before _ _ _ _ Hp1). intros b n Hb Hn. rewrite Hp3 by done. cbn [dev].
    rewrite Hp2 by done. cbn [dev]. repeat case_decide; rewrite Exists_cons in *; naive_solver.
Qed.
End io_apics.

(** The per-CPU structure of the bootstrap processor, the first registration. *)
Lemma init_bsp_percpu_ok {D} (e : env D) bsp (w : world D) :
  percpu_inv (w_percpu w) [] -> env_percpu_addr e <> 0 ->
  exists st, init_bsp_percpu e bsp w = Some (Ok (tt, set_percpu w st)) /\ percpu_inv st [bsp_registration e bsp].
Proof.
  intros Hinv Haddr.
  destruct (register_inv (w_percpu w) [] (bsp_registration e bsp) Hinv) as (st & Hreg & Hinv').
  { constructor; cbn [app map]; try apply NoDup_singleton. apply Forall_singleton. by split. }
  exists st. split; [|exact Hinv']. unfold init_bsp_percpu. unfold register in Hreg. cbn in Hreg |- *.
  by rewrite Hreg.
Qed.

(** The steps of [init] before the APs are started. *)
Lemma configure_bsp `{Machine D} p (e : env D) la bases sel cfg version m bsp infos (w : world D) :
  apic_mapped la -> lapic_footprint la (same_pins bases cfg) -> outside_page la (map address infos) ->
  io_bus bases sel cfg -> io_apics_ok bases cfg version infos ->
  percpu_inv (w_percpu w) [] -> env_percpu_addr e <> 0 ->
  exists h1 h2 w0,
    on_hw (init_bsp_apic p la) w = Some (Ok (tt, set_hw w h1)) /\
    on_hw (init_io_apics p m infos) (set_hw w h1) = Some (Ok (m ++ map (io_entry version) infos, set_hw w h2)) /\
    init_bsp_percpu e bsp (set_hw w h2) = Some (Ok (tt, w0)) /\
    bsp_configured e la bsp infos bases cfg version w w0.
Proof.
  intros Hm Hfp Hap Hbus Hios Hpc Haddr.
  destruct (init_bsp_apic_ok p la _ Hm Hfp (w_hw w))
    as (svr & ldr & ver & r1 & r2 & r3 & h1 & Hbsp & [Hp1 Ha1] & H1 & H2 & H3).
  destruct (init_io_apics_ok p bases sel cfg version Hbus m infos h1 Hios) as (d2 & l2 & Hio & Hl2 & Hp2).
  destruct (init_bsp_percpu_ok e bsp (set_hw w (Hw d2 (accesses h1 ++ l2))) Hpc Haddr) as (st & Hpercpu & Hst).
  exists h1, (Hw d2 (accesses h1 ++ l2)). eexists.
  split; [by apply on_hw_ok|]. split; [exact (on_hw_ok _ (set_hw w h1) _ _ Hio)|]. split; [exact Hpercpu|].
  constructor; cbn [w_hw w_mem w_percpu set_percpu set_hw dev accesses].
  - exists svr, ldr, ver, r1, r2, r3, l2. by rewrite Ha1, <-app_assoc.
  - unfold world_ipis. cbn [w_hw w_mem w_percpu set_percpu set_hw dev accesses].
    rewrite (at_io_sends_nothing la _ _ _ Hap Hl2), Ha1. by eapply bsp_log_sends_nothing.
  - by apply (pins_masked_before _ _ _ _ _ _ Hp1).
  - exact Hst.
  - done.
Qed.

(** ** Properties *)

(** Configuring the bootstrap processor's local APIC always returns. It
    accesses, in this order and nothing else: the spurious vector register, read
    and written with vector 0xFF, the enable bit and the other bits as read; the
    task priority, written 0; the flat destination model; the logical destination
    register, read and written with logical id 1 and the other bits as read; the
    six local vector table entries, masked; and the version register, read. It
    sends no interrupt. *)
Theorem init_bsp_apic_programs `{Machine D} p la (s : hw D) :
  apic_mapped la ->
  exists svr ldr ver r1 r2 r3 s',
    init_bsp_apic p la s = Ok (tt, s') /\
    accesses s' = accesses s ++ bsp_log la svr ldr r1 r2 r3 /\
    reads_reg la REG_SVR svr r1 /\ reads_reg la REG_LDR ldr r2 /\ reads_reg la REG_VERSION ver r3 /\
    sent_ipis (Apic.base_addr la) (accesses s') = sent_ipis (Apic.base_addr la) (accesses s).
Proof.
  intros Hm. destruct (init_bsp_apic_ok p la _ Hm (true_footprint la) s)
    as (svr & ldr & ver & r1 & r2 & r3 & s' & Hi & [_ Ha] & H1 & H2 & H3).
  exists svr, ldr, ver, r1, r2, r3, s'. split_and!; try done. rewrite Ha. by eapply bsp_log_sends_nothing.
Qed.


(** ** Examples: a local APIC that reads 0 and an I/O APIC with 24 pins *)

Record boot_dev := BootDev { boot_sel : Z; boot_reg : Z -> Z }.

#[global] Instance boot_machine : Machine boot_dev := {|
  dev_read32 addr d :=
    if addr =? 0xFEC00010 then
      ((if boot_sel d =? REG_IOAPICVER then 0x170011 else boot_reg d (boot_sel d)), d)
    else (0, d);
  dev_write32 addr v d :=
    if addr =? 0xFEC00000 then BootDev v (boot_reg d)
    else if addr =? 0xFEC00010 then
      BootDev (boot_sel d) (fun i => if i =? boot_sel d then v else boot_reg d i)
    else d;
  dev_rdmsr msr d := ((0, 0), d);
  dev_wrmsr msr high low d := d;
  dev_cpuid1_ecx d := 0;
|}.

Definition boot_cfg (d : boot_dev) (r : Z * Z) : Z :=
  if snd r =? REG_IOAPICVER then 0x170011
  else Z.land (wrap 32 (boot_reg d (snd r))) (rw_mask (snd r)).

Lemma boot_bus : io_bus demo_bases (fun d _ => boot_sel d) boot_cfg.
Proof.
  constructor; unfold demo_bases.
  - by intros b v d -> _.
  - intros b v d -> Hsel b' i ->. unfold boot_cfg. cbn [snd boot_reg dev_write32 boot_machine].
    change (0xFEC00000 + IOWIN =? 0xFEC00000) with false.
    change (0xFEC00000 + IOWIN =? 0xFEC00010) with true. cbn [boot_reg].
    destruct (Z.eqb_spec i (boot_sel d)) as [->|Hne].
    + rewrite decide_True by done. destruct (Z.eqb_spec (boot_sel d) REG_IOAPICVER) as [He|_]; [|apply rw_mask_wrap].
      rewrite He in Hsel. by compute in Hsel.
    + rewrite decide_False by tauto. done.
  - intros b d ->. split; [|by intros b' i ->]. unfold boot_cfg. cbn [snd dev_read32 boot_machine].
    change (0xFEC00000 + IOWIN =? 0xFEC00010) with true. cbn [fst].
    by destruct (Z.eqb_spec (boot_sel d) REG_IOAPICVER) as [->|_].
Qed.

Definition demo_info : madt_info :=
  MadtInfo 0xFEE00000 (MadtLocalApic 0 0 true :: MadtLocalApic 3 6 false :: demo_aps) [MadtIoApic 0 0xFEC00000 0].

(** The APs set the flag, by whatever code. *)
Definition ready_env : env boot_dev := {|
  env_me := 0;
  env_percpu_addr := 0x10000;
  env_stack i := 0x100000 + 0x40000 * (Z.of_nat i mod 16);
  env_task_stack := 0x900000;
  env_cr3 := 0x1000;
  env_ap_entry := 0x200000;
  env_reset i w := w;
  env_first i w := w;
  env_second i w := w;
  env_poll i k w := set_mem w (fun _ => 1);
  env_after i w := w;
|}.

Lemma ready_controller_ok : controller_ok 1 ready_env demo_la bsp_trampoline.
Proof.
  constructor.
  - by constructor.
  - done.
  - intros d _. exists 0%nat. split; [lia|]. by left.
  - intros i. change (trampoline_vaddr bsp_trampoline) with 0x8000. cbn [env_stack ready_env].
    unfold in_range, AP_STACK_SIZE. pose proof (Z.mod_pos_bound (Z.of_nat i) 16 ltac:(lia)). lia.
  - done.
  - done.
Qed.

Lemma ready_effect : env_steps (ap_effect demo_bases boot_cfg) ready_env.
Proof. constructor; intros i w; reflexivity. Qed.

Lemma demo_la_footprint : lapic_footprint demo_la (same_pins demo_bases boot_cfg).
Proof.
  constructor; [apply _|..].
  - intros off v d Hoff b n _ _. unfold reg_write. cbn [x2apic demo_la apic_new dev_write32 boot_machine].
    change (Apic.base_addr demo_la) with 0xFEE00000.
    destruct (Z.eqb_spec (0xFEE00000 + off) 0xFEC00000); [lia|].
    by destruct (Z.eqb_spec (0xFEE00000 + off) 0xFEC00010); [lia|].
  - intros off d Hoff b n _ _. unfold reg_read. cbn [x2apic demo_la apic_new dev_read32 boot_machine].
    change (Apic.base_addr demo_la) with 0xFEE00000.
    by destruct (Z.eqb_spec (0xFEE00000 + off) 0xFEC00010); [lia|].
Qed.

Lemma demo_ios_ok : io_apics_ok demo_bases boot_cfg (fun _ => 0x170011) (io_apics demo_info).
Proof. split; [by intros d b ->|]. by apply Forall_singleton. Qed.

Definition start_world : world boot_dev :=
  World (Hw (BootDev 0 (fun _ => 0x21)) []) (fun _ => 0) percpu_init 0 false 1.

Definition start_controller : smp_controller run_queue :=
  SmpController 0 demo_la manager_new bsp_trampoline 0 1 None None false.

Lemma init_bsp_apic_programs_witness :
  exists svr ldr r1 r2 r3 s', init_bsp_apic Debug demo_la (w_hw start_world) = Ok (tt, s') /\
    accesses s' = bsp_log demo_la svr ldr r1 r2 r3.
Proof.
  destruct (init_bsp_apic_programs Debug demo_la (w_hw start_world) ltac:(done))
    as (svr & ldr & ver & r1 & r2 & r3 & s' & Hi & Ha & _).
  exists svr, ldr, r1, r2, r3, s'. split; [exact Hi|exact Ha].
Defined.

Lemma ready_polls_pos : (0 < READY_POLLS)%nat.
Proof. unfold READY_POLLS. by apply (Z2Nat.inj_lt 0 100000000). Qed.

Lemma ready_polled i (w : world boot_dev) b : polled ready_env bsp_trampoline i w b -> b = true.
Proof. intros Hb. apply Hb. exists 0%nat. split; [exact ready_polls_pos|reflexivity]. Qed.

Lemma ready_boots i aps w os w' :
  boots ready_env demo_la bsp_trampoline i aps w os w' -> os = replicate (length aps) (false, true).
Proof.
  intros Hb. induction Hb as [i w|i ap aps w m w1 w2 b os w' Hm (h1 & -> & _) (h2 & -> & _) Hf _ _ _
    |i ap aps w m w1 w2 w3 b os w' _ _ _ _ _ Hp _ IH]; [done| |].
  - exfalso. destruct Hm as [Hdata _ _]. cbn [env_first env_reset ready_env w_mem set_hw set_mem] in Hf.
    assert (Hz : load m (field (trampoline_vaddr bsp_trampoline + TRAMPOLINE_DATA_OFFSET) 4) 4 = 0)
      by (by injection Hdata as _ _ _ _ Hz).
    unfold ready_flag in Hf. by rewrite Hz in Hf.
  - simpl. by rewrite IH, (ready_polled _ _ _ Hp).
Qed.

