(* ===== verification/ApEntry.v ===== *)
(** * ApEntry: application processors (src/src/driver.rs)

    [ap_entry], where an application processor arrives from the trampoline: the
    initialization of its local APIC and per-CPU structure (the definition is in
    Driver), and the idle loop in which it then stays, instruction by
    instruction, with the interrupts that reach it. *)

From S2P Require Import Prelude Memory Hw Task RunQueue Scheduler Apic IoApic PerCpu X86 Trampoline Driver Init.

(** ** The idle loop *)

(** Where the processor is in the loop: the load of [AP_HALT] and its test; [cli]
    and [hlt] of the halting branch; [sti], [hlt] and [cli] of the waiting code.
    A processor is asleep in a [hlt] that it has executed. *)
Inductive idle_pc :=
| LoadHalt
| HaltCli
| HaltHlt
| HaltAsleep
| IdleSti
| IdleHlt
| IdleAsleep
| IdleCli.

#[global] Instance idle_pc_eq_dec : EqDecision idle_pc.
Proof. solve_decision. Defined.

(** The interrupt flag, and whether the instruction before was the [sti] that set
    it, after which maskable interrupts wait for one more instruction. *)
Record idle_state := IdleState { at_pc : idle_pc; interrupt_flag : bool; sti_shadow : bool }.

(** One instruction; a maskable interrupt whose handler runs and returns; a
    non-maskable one. *)
Inductive idle_event := Exec | Interrupt | Nmi.

#[global] Instance idle_event_eq_dec : EqDecision idle_event.
Proof. solve_decision. Defined.

(** An instruction, when [AP_HALT] holds [halt]; a processor asleep has none to
    execute. *)
Definition idle_exec (halt : bool) (s : idle_state) : option idle_state :=
  match at_pc s with
  | LoadHalt => Some (IdleState (if halt then HaltCli else IdleSti) (interrupt_flag s) false)
  | HaltCli => Some (IdleState HaltHlt false false)
  | HaltHlt => Some (IdleState HaltAsleep (interrupt_flag s) false)
  | IdleSti => Some (IdleState IdleHlt true (negb (interrupt_flag s)))
  | IdleHlt => Some (IdleState IdleAsleep (interrupt_flag s) false)
  | IdleCli => Some (IdleState LoadHalt false false)
  | HaltAsleep | IdleAsleep => None
  end.

(** After a handler, the processor is at the instruction after the [hlt] in which
    it slept, or where it was. *)
Definition idle_resume (s : idle_state) : idle_state :=
  match at_pc s with
  | HaltAsleep => IdleState IdleSti (interrupt_flag s) false
  | IdleAsleep => IdleState IdleCli (interrupt_flag s) false
  | pc => IdleState pc (interrupt_flag s) false
  end.

Definition idle_step (halt : bool) (ev : idle_event) (s : idle_state) : option idle_state :=
  match ev with
  | Exec => idle_exec halt s
  | Interrupt => if interrupt_flag s && negb (sti_shadow s) then Some (idle_resume s) else None
  | Nmi => Some (idle_resume s)
  end.

(** A run; each event with the value that [AP_HALT] has then. *)
Fixpoint idle_run (s : idle_state) (evs : list (bool * idle_event)) : option idle_state :=
  match evs with
  | [] => Some s
  | (halt, ev) :: evs => s' ← idle_step halt ev s; idle_run s' evs
  end.

(** [ap_entry] is entered, and reaches the loop, with interrupts disabled. *)
Definition idle_start : idle_state := IdleState LoadHalt false false.

(** ** Proofs *)

(** Without non-maskable interrupts: the flag is set from [sti] to [cli] only, and
    the shadow covers the [hlt]. *)
Definition idle_ok (s : idle_state) : Prop :=
  match at_pc s with
  | IdleHlt => interrupt_flag s = true /\ sti_shadow s = true
  | IdleAsleep | IdleCli => interrupt_flag s = true /\ sti_shadow s = false
  | _ => interrupt_flag s = false /\ sti_shadow s = false
  end.

Lemma idle_step_ok halt ev s s' : idle_ok s -> ev <> Nmi -> idle_step halt ev s = Some s' -> idle_ok s'.
Proof.
  destruct s as [pc f sh]. destruct pc, ev; cbn; intros [-> ->] Hnmi; try done; try by intros [= <-].
  by destruct halt; intros [= <-].
Qed.

Lemma idle_run_ok s evs s' :
  idle_ok s -> Forall (fun x => snd x <> Nmi) evs -> idle_run s evs = Some s' -> idle_ok s'.
Proof.
  revert s. induction evs as [|[halt ev] evs IH]; intros s Hs Hall Hrun; [by injection Hrun as <-|].
  apply Forall_cons in Hall as [Hev Hall]. cbn [idle_run] in Hrun.
  destruct (idle_step halt ev s) as [s1|] eqn:Hstep; [|done].
  by apply (IH s1); [eapply idle_step_ok| |].
Qed.

(** Instructions left, at most, once [AP_HALT] is set. *)
Definition idle_left (s : idle_state) : nat :=
  match at_pc s with
  | IdleSti => 6 | IdleHlt => 5 | IdleAsleep | IdleCli => 4
  | LoadHalt => 3 | HaltCli => 2 | HaltHlt => 1 | HaltAsleep => 0
  end.

Lemma idle_step_left ev s s' :
  idle_ok s -> ev <> Nmi -> idle_step true ev s = Some s' ->
  (idle_left s' + Nat.b2n (bool_decide (ev = Exec)) <= idle_left s)%nat.
Proof.
  destruct s as [pc f sh]. destruct pc, ev; cbn; intros [-> ->] Hnmi; try done; intros [= <-]; vm_compute; lia.
Qed.

Lemma idle_run_left s evs s' :
  idle_ok s -> Forall (fun x => fst x = true /\ snd x <> Nmi) evs -> idle_run s evs = Some s' ->
  (idle_left s' + count_if (fun x => bool_decide (snd x = Exec)) evs <= idle_left s)%nat.
Proof.
  revert s. induction evs as [|[halt ev] evs IH]; intros s Hs Hall Hrun.
  { injection Hrun as <-. simpl. lia. }
  apply Forall_cons in Hall as [[Hh Hev] Hall]. simpl in Hh, Hev. subst halt. cbn [idle_run] in Hrun.
  destruct (idle_step true ev s) as [s1|] eqn:Hstep; [|done].
  pose proof (idle_step_ok _ _ _ _ Hs Hev Hstep) as Hs1. specialize (IH s1 Hs1 Hall Hrun).
  pose proof (idle_step_left _ _ _ Hs Hev Hstep). cbn [count_if snd]. lia.
Qed.

(** Past an interrupt, with [AP_HALT] set: on the way to the halt. *)
Definition idle_leaving (s : idle_state) : Prop := at_pc s ∉ [IdleSti; IdleHlt; IdleAsleep].

Lemma idle_leaving_step ev s s' :
  idle_ok s -> ev <> Nmi -> idle_step true ev s = Some s' -> idle_leaving s \/ ev = Interrupt -> idle_leaving s'.
Proof.
  unfold idle_leaving. destruct s as [pc f sh].
  destruct pc, ev; cbn; intros [-> ->] Hnmi; try done; intros [= <-] Hor; cbn; set_solver.
Qed.

Lemma idle_leaving_run s evs s' :
  idle_ok s -> Forall (fun x => fst x = true /\ snd x <> Nmi) evs -> idle_run s evs = Some s' ->
  idle_leaving s \/ (exists x, x ∈ evs /\ snd x = Interrupt) -> idle_leaving s'.
Proof.
  revert s. induction evs as [|[halt ev] evs IH]; intros s Hs Hall Hrun Hor.
  { injection Hrun as <-. destruct Hor as [Hl|(x & Hx & _)]; [done|]. by apply elem_of_nil in Hx. }
  apply Forall_cons in Hall as [[Hh Hev] Hall]. simpl in Hh, Hev. subst halt. cbn [idle_run] in Hrun.
  destruct (idle_step true ev s) as [s1|] eqn:Hstep; [|done].
  apply (IH s1); [by eapply idle_step_ok|done|exact Hrun|].
  destruct Hor as [Hl|(x & [->|Hx]%elem_of_cons & Hi)].
  - left. eapply idle_leaving_step; eauto.
  - left. eapply idle_leaving_step; eauto.
  - right. eauto.
Qed.

(** What can happen in a state. *)
Lemma idle_interrupt_iff s halt :
  idle_ok s -> idle_step halt Interrupt s <> None <-> at_pc s = IdleAsleep \/ at_pc s = IdleCli.
Proof. destruct s as [pc f sh]. destruct pc; intros [Hf Hsh]; simpl in Hf, Hsh; subst; simpl; naive_solver. Qed.

Lemma idle_exec_iff s halt : idle_step halt Exec s = None <-> at_pc s = HaltAsleep \/ at_pc s = IdleAsleep.
Proof. destruct s as [pc f sh]. destruct pc; simpl; naive_solver. Qed.

(** ** Proofs: the initialization of an application processor *)

Section entry.
Context `{Machine D} (p : profile) (la : local_apic) (Hm : apic_mapped la).
Implicit Types s : hw D.

Lemma id_ok s :
  exists raw r s', Apic.id p la s = Ok (if x2apic la then raw else Z.shiftr raw 24, s') /\
    accesses s' = accesses s ++ [r] /\ reads_reg la REG_ID raw r.
Proof.
  unfold Apic.id.
  destruct (read_step p la _ Hm (true_footprint la) REG_ID
    (fun raw => mret (if x2apic la then raw else Z.shiftr raw 24)) s) as (raw & s' & r & Heq & _ & Ha & Hr); [done|].
  exists raw, r, s'. split_and!; [exact Heq|exact Ha|exact Hr].
Qed.

Lemma enable_ok s :
  exists svr r s', enable p la s = Ok (tt, s') /\
    accesses s' = accesses s ++ [r; write_access la REG_SVR (svr_enabled svr)] /\ reads_reg la REG_SVR svr r.
Proof.
  unfold enable.
  destruct (read_step p la _ Hm (true_footprint la) REG_SVR
    (fun svr => Apic.write_reg p la REG_SVR (svr_enabled svr)) s) as (svr & s1 & r & Heq & _ & Ha & Hr); [done|].
  rewrite write_reg_eq in Heq by done. rewrite Ha, <-app_assoc in Heq.
  eexists svr, r, _. split_and!; [exact Heq|done|exact Hr].
Qed.
End entry.

(** ** Properties *)

(** An application processor that enters [ap_entry] with index [i] and a per-CPU
    structure at an address of its own returns from its initialization with
    its local APIC enabled (APIC id and spurious vector register read, the latter
    written with vector 0xFF and the enable bit; task priority 0) and no
    interrupt sent, with its structure, which holds the index and the APIC id
    read, registered after the others, and with one more AP counted as booted;
    it touches no other memory and leaves the halt flag. *)
Theorem ap_entry_registers `{Machine D} p me addr i rs (w : world D) :
  percpu_inv (w_percpu w) rs -> boot_ok (rs ++ [Registration me addr i 0 false]) ->
  0 <= w_aps_booted w -> w_aps_booted w + 1 < 2 ^ 32 ->
  let la := apic_new 0xFEE00000 in
  exists raw svr r1 r2 w',
    ap_entry p me addr i w = Some (Ok (tt, w')) /\
    reads_reg la REG_ID raw r1 /\ reads_reg la REG_SVR svr r2 /\
    accesses (w_hw w') = accesses (w_hw w) ++ [r1; r2] ++ write_all la (enable_writes svr) /\
    world_ipis la w' = world_ipis la w /\
    percpu_inv (w_percpu w') (rs ++ [Registration me addr i (Z.shiftr raw 24) false]) /\
    w_aps_booted w' = w_aps_booted w + 1 /\ w_mem w' = w_mem w /\ w_ap_halt w' = w_ap_halt w.
Proof.
  intros Hinv Hok Hb0 Hb1 la. assert (Hm : apic_mapped la) by done.
  destruct (id_ok p la Hm (w_hw w)) as (raw & r1 & h1 & Hid & Ha1 & Hr1).
  destruct (enable_ok p la Hm h1) as (svr & r2 & h2 & Hen & Ha2 & Hr2).
  destruct (register_inv (w_percpu w) rs (Registration me addr i (Z.shiftr raw 24) false) Hinv)
    as (st & Hreg & Hinv').
  { destruct Hok as [H1 H2 H3 H4]. constructor; rewrite ?map_app in *; try done.
    apply Forall_app in H4 as [H4 H5]. apply (proj1 (Forall_singleton _ _)) in H5.
    apply Forall_app. split; [exact H4|]. apply Forall_singleton. exact H5. }
  assert (Hi : wrap 32 i = i).
  { apply wrap_small. pose proof (boot_range _ Hok) as [_ Hr]%Forall_app.
    apply (proj1 (Forall_singleton _ _)) in Hr as [Hi _]. cbn in Hi. unfold in_range. lia. }
  unfold ap_entry. fold la. rewrite Hi.
  rewrite (w_bind_ok _ _ _ _ _ (on_hw_ok _ _ _ _ Hid)).
  rewrite (w_bind_ok _ _ _ _ _ (on_hw_ok _ (set_hw w h1) _ _ Hen)).
  rewrite (w_bind_ok _ _ _ _ _ (on_hw_ok _ (set_hw (set_hw w h1) h2) _ _ (write_reg_eq p la REG_TPR 0 h2 Hm ltac:(done)))).
  set (h3 := Hw _ _). unfold register in Hreg. cbn [reg_me reg_addr reg_index reg_apic_id reg_is_bsp] in Hreg.
  assert (Hacc : accesses h3 = accesses (w_hw w) ++ [r1; r2] ++ write_all la (enable_writes svr)).
  { unfold h3. cbn [accesses]. by rewrite Ha2, Ha1, <-!app_assoc. }
  exists raw, svr, r1, r2, (World h3 (w_mem w) st (wrap 32 (w_aps_booted w + 1)) (w_ap_halt w) (w_next_task_id w)).
  split_and!; [|exact Hr1|exact Hr2|exact Hacc| |exact Hinv'| |done|done].
  - unfold check_ub, mbind at 1, w_bind at 1. cbn [w_percpu set_hw]. rewrite Hreg. done.
  - unfold world_ipis. cbn [w_hw]. rewrite Hacc, !app_assoc.
    rewrite (write_all_sends_nothing la) by (repeat constructor; done).
    apply sent_reads. simpl. by rewrite (reads_reg_is_read _ _ _ _ Hr1), (reads_reg_is_read _ _ _ _ Hr2).
  - apply wrap_small. unfold in_range. cbn. lia.
Qed.

(** C36: The idle loop of an application processor, whatever values [AP_HALT] takes
    and without non-maskable interrupts. Maskable interrupts reach the processor
    only while it is asleep waiting for them or between waking and [cli]: none is
    lost between the test of [AP_HALT] and the [hlt]. The processor stops only in
    a [hlt]: in the one of the halting branch for good, in the other until an
    interrupt. Once [AP_HALT] is set it stops after at most six instructions,
    and it is asleep for good when an interrupt has woken it. A non-maskable
    interrupt, however, ends the halt, and the instruction after it enables the
    maskable ones. *)
Theorem ap_idle_loop evs s :
  idle_run idle_start evs = Some s -> Forall (fun x => snd x <> Nmi) evs ->
  (forall halt, idle_step halt Interrupt s <> None <-> at_pc s = IdleAsleep \/ at_pc s = IdleCli) /\
  (forall halt, idle_step halt Exec s = None <-> at_pc s = HaltAsleep \/ at_pc s = IdleAsleep) /\
  (at_pc s = HaltAsleep <-> forall halt ev, ev <> Nmi -> idle_step halt ev s = None) /\
  (forall evs' s', idle_run s evs' = Some s' -> Forall (fun x => fst x = true /\ snd x <> Nmi) evs' ->
     (count_if (fun x => bool_decide (snd x = Exec)) evs' <= 6)%nat /\
     ((exists x, x ∈ evs' /\ snd x = Interrupt) -> at_pc s' <> IdleAsleep)) /\
  (at_pc s = HaltAsleep -> exists s', idle_run s [(true, Nmi); (true, Exec)] = Some s' /\
     interrupt_flag s' = true).
Proof.
  intros Hrun Hnmi. assert (Hs : idle_ok s) by by eapply idle_run_ok; [|exact Hnmi|exact Hrun].
  split_and!.
  - intros halt. by apply idle_interrupt_iff.
  - intros halt. apply idle_exec_iff.
  - split.
    + intros Hpc halt [] Hev; [by apply idle_exec_iff; left| |done].
      apply dec_stable. intros Hn%idle_interrupt_iff; [|done]. destruct Hn; congruence.
    + intros Hnone. destruct (proj1 (idle_exec_iff s true) (Hnone true Exec ltac:(done))) as [Hpc|Hpc]; [done|].
      exfalso. apply (proj2 (idle_interrupt_iff s true Hs)); [by left|]. by apply Hnone.
  - intros evs' s' Hrun' Hall. split.
    + pose proof (idle_run_left _ _ _ Hs Hall Hrun'). assert (idle_left s <= 6)%nat; [|lia].
      unfold idle_left. destruct (at_pc s); lia.
    + intros Hint Hpc. eapply idle_leaving_run; [exact Hs|exact Hall|exact Hrun'|by right|]. rewrite Hpc. set_solver.
  - intros Hpc. unfold idle_run, idle_step, idle_resume. rewrite Hpc. by eexists.
Qed.

(** ** Examples *)

Definition halt_run : list (bool * idle_event) :=
  [(false, Exec); (false, Exec); (true, Exec); (true, Interrupt); (true, Exec); (true, Exec); (true, Exec);
   (true, Exec)].

Lemma ap_idle_loop_witness :
  exists s, idle_run idle_start halt_run = Some s /\ at_pc s = HaltAsleep /\
    (forall halt ev, ev <> Nmi -> idle_step halt ev s = None).
Proof.
  destruct (ap_idle_loop halt_run (IdleState HaltAsleep false false) ltac:(reflexivity)
    ltac:(repeat constructor; discriminate)) as (_ & _ & Hstop & _).
  exists (IdleState HaltAsleep false false). split; [reflexivity|]. split; [reflexivity|]. by apply Hstop.
Defined.

Lemma four_ok : boot_ok (demo_boot ++ [Registration 3 0x20000 3 0 false]).
Proof.
  constructor; simpl; [| | |repeat constructor; done].
  all: repeat (apply NoDup_cons; split; [set_solver|]); apply NoDup_nil_2.
Qed.

Lemma ap_entry_registers_witness :
  exists raw w', ap_entry Debug 3 0x20000 3 demo_world3 = Some (Ok (tt, w')) /\ w_aps_booted w' = 3 /\
    percpu_inv (w_percpu w') (demo_boot ++ [Registration 3 0x20000 3 (Z.shiftr raw 24) false]).
Proof.
  destruct (ap_entry_registers Debug 3 0x20000 3 demo_boot demo_world3 demo_percpu_inv four_ok
    ltac:(done) ltac:(done)) as (raw & svr & r1 & r2 & w' & He & _ & _ & _ & _ & Hp & Hb & _).
  exists raw, w'. split; [exact He|]. split; [exact Hb|exact Hp].
Defined.
