(* ===== verification/SchedCode.v ===== *)
(** * SchedCode: the scheduler's code, operation by operation
    (src/src/scheduler.rs, [impl RunQueue] and [impl Scheduler])

    What the cores execute when they call the scheduler at the same time. A
    method of [Scheduler] is a program over the public operations of its run
    queues ([api]); a method of [RunQueue] is a program over atomic operations
    ([code]): reads and writes of the interrupt flag, the compare-and-swap and
    the store of the queue's [SpinLock], the [VecDeque] operations made through
    the guard, and the accesses to the counter [len]. [impl] puts the two
    together. Two machines interleave the cores: [conc_act] at the atomic
    operations, [atomic_act] at the operations of run queues. *)

From stdpp Require Import strings.
From S2P Require Import Prelude Threads Task RunQueue Scheduler SpinLock.

(** ** Programs over the operations of run queues *)

Inductive api (A : Type) :=
| ARet (a : A)
| APanic
| ALen (i : nat) (k : Z -> api A)
| APush (i : nat) (t : task) (k : api A)
| APop (i : nat) (k : option task -> api A)
| ASteal (i : nat) (k : list task -> api A).
Arguments ARet {A} a.
Arguments APanic {A}.
Arguments ALen {A} i k.
Arguments APush {A} i t k.
Arguments APop {A} i k.
Arguments ASteal {A} i k.

#[global] Instance api_ret : MRet api := fun A a => ARet a.
#[global] Instance api_bind : MBind api := fun A B f =>
  fix go m :=
  match m with
  | ARet a => f a
  | APanic => APanic
  | ALen i k => ALen i (fun v => go (k v))
  | APush i t k => APush i t (go k)
  | APop i k => APop i (fun r => go (k r))
  | ASteal i k => ASteal i (fun r => go (k r))
  end.

(** *** [impl Scheduler], with [n] run queues *)

Section methods.
Context (n : nat).

(** [&self.run_queues[core as usize]] *)
Definition c_index (core : Z) : api nat :=
  if (Z.to_nat core <? n)%nat then mret (Z.to_nat core) else APanic.

Definition c_push (core : Z) (t : task) : api unit :=
  i ← c_index core; APush i t (mret tt).

(** The loop of [least_loaded_core] over the queues [qs]; [i] counts them. *)
Fixpoint c_least_loaded_loop (i : Z) (qs : list nat) (min_load min_core : Z) : api Z :=
  match qs with
  | [] => mret min_core
  | q :: qs =>
      ALen q (fun load =>
        if load <? min_load
        then c_least_loaded_loop (i + 1) qs load (wrap 32 i)
        else c_least_loaded_loop (i + 1) qs min_load min_core)
  end.

Definition c_least_loaded_core : api Z := c_least_loaded_loop 0 (seq 0 n) (2 ^ 64 - 1) 0.

(** The loop of [busiest_core]. *)
Fixpoint c_busiest_loop (exclude_core i : Z) (qs : list nat) (max_load : Z) (max_core : option Z)
  : api (option Z) :=
  match qs with
  | [] => mret max_core
  | q :: qs =>
      if wrap 32 i =? exclude_core
      then c_busiest_loop exclude_core (i + 1) qs max_load max_core
      else
        ALen q (fun load =>
          if max_load <? load
          then c_busiest_loop exclude_core (i + 1) qs load (Some (wrap 32 i))
          else c_busiest_loop exclude_core (i + 1) qs max_load max_core)
  end.

Definition c_busiest_core (exclude_core : Z) : api (option Z) :=
  c_busiest_loop exclude_core 0 (seq 0 n) 1 None.

Definition c_spawn (t : task) : api unit :=
  core ← match task_affinity t with
         | Some affinity => mret affinity
         | None => c_least_loaded_core
         end;
  c_push core t.

(** [num_cores] is [n], as [Scheduler::new] makes it. *)
Definition c_spawn_on_core (core_id : Z) (t : task) : api unit :=
  if core_id <? Z.of_nat n then c_push core_id t else APanic.

(** [for task in iter { rq.push(task); }] *)
Fixpoint c_push_all (i : nat) (ts : list task) : api unit :=
  match ts with
  | [] => mret tt
  | t :: ts => APush i t (c_push_all i ts)
  end.

Definition c_schedule (core_id : Z) : api (option task) :=
  rq ← c_index core_id;
  APop rq (fun own =>
    match own with
    | Some t => mret (Some t)
    | None =>
        busiest ← c_busiest_core core_id;
        match busiest with
        | Some victim =>
            v ← c_index victim;
            ASteal v (fun stolen =>
              match stolen with
              | first :: rest => c_push_all rq rest;; mret (Some first)
              | [] => mret None
              end)
        | None => mret None
        end
    end).

Definition c_wake (t : task) (target_core : Z) : api unit := c_push target_core (set_state t Ready).

Definition c_preempt_current (core_id : Z) (t : task) : api unit := c_push core_id (set_state t Ready).

(** A call; the result is the list of the tasks it returns. *)
Definition c_call (op : sched_op) : api (list task) :=
  match op with
  | OpSpawn t => c_spawn t;; mret []
  | OpSpawnOn c t => c_spawn_on_core (Z.of_nat c) t;; mret []
  | OpSchedule c | OpBlock c => r ← c_schedule (Z.of_nat c); mret (option_list r)
  | OpWake t c => c_wake t (Z.of_nat c);; mret []
  | OpPreempt c t => c_preempt_current (Z.of_nat c) t;; mret []
  end.
End methods.

(** ** Programs of atomic operations *)

(** [GetIf] reads RFLAGS; [Cas] is the loop of [SpinLock::lock], which goes on
    when the exchange succeeds; [Unlock] is the store of the guard's [Drop];
    [QLen] to [PopBack] are made through the guard; [AddLen] is [fetch_add], or
    [fetch_sub] of the opposite, on the counter [len] that [LoadLen] reads. *)
Inductive code (A : Type) :=
| Done (a : A)
| Crash
| GetIf (k : bool -> code A)
| Cli (k : code A)
| Sti (k : code A)
| Cas (i : nat) (k : code A)
| Unlock (i : nat) (k : code A)
| QLen (i : nat) (k : nat -> code A)
| PushBack (i : nat) (t : task) (k : code A)
| PopFront (i : nat) (k : option task -> code A)
| PopBack (i : nat) (k : option task -> code A)
| AddLen (i : nat) (d : Z) (k : code A)
| LoadLen (i : nat) (k : Z -> code A).
Arguments Done {A} a.
Arguments Crash {A}.
Arguments GetIf {A} k.
Arguments Cli {A} k.
Arguments Sti {A} k.
Arguments Cas {A} i k.
Arguments Unlock {A} i k.
Arguments QLen {A} i k.
Arguments PushBack {A} i t k.
Arguments PopFront {A} i k.
Arguments PopBack {A} i k.
Arguments AddLen {A} i d k.
Arguments LoadLen {A} i k.

#[global] Instance code_ret : MRet code := fun A a => Done a.
#[global] Instance code_bind : MBind code := fun A B f =>
  fix go m :=
  match m with
  | Done a => f a
  | Crash => Crash
  | GetIf k => GetIf (fun b => go (k b))
  | Cli k => Cli (go k)
  | Sti k => Sti (go k)
  | Cas i k => Cas i (go k)
  | Unlock i k => Unlock i (go k)
  | QLen i k => QLen i (fun l => go (k l))
  | PushBack i t k => PushBack i t (go k)
  | PopFront i k => PopFront i (fun r => go (k r))
  | PopBack i k => PopBack i (fun r => go (k r))
  | AddLen i d k => AddLen i d (go k)
  | LoadLen i k => LoadLen i (fun v => go (k v))
  end.

(** *** [SpinLock::lock] and [Drop for SpinLockGuard] *)

Definition q_lock (i : nat) : code bool := GetIf (fun was_enabled => Cli (Cas i (mret was_enabled))).

Definition q_unlock (i : nat) (was_enabled : bool) : code unit :=
  Unlock i (if was_enabled then Sti (mret tt) else mret tt).

(** *** [impl RunQueue], on the queue [i] *)

Definition q_push (i : nat) (t : task) : code unit :=
  was ← q_lock i;
  PushBack i t (AddLen i 1 (q_unlock i was)).

Definition q_pop (i : nat) : code (option task) :=
  was ← q_lock i;
  PopFront i (fun front =>
    match front with
    | Some t => AddLen i (-1) (q_unlock i was;; mret (Some t))
    | None => q_unlock i was;; mret None
    end).

(** [for _ in 0..m { if let Some(task) = q.pop_back() { stolen.push(task) } }] *)
Fixpoint q_steal_loop (i m : nat) (stolen : list task) : code (list task) :=
  match m with
  | O => mret stolen
  | S m =>
      PopBack i (fun back =>
        match back with
        | Some t => q_steal_loop i m (stolen ++ [t])
        | None => q_steal_loop i m stolen
        end)
  end.

Definition q_steal_half (i : nat) : code (list task) :=
  was ← q_lock i;
  QLen i (fun len =>
    let steal_count := (len / 2)%nat in
    if (steal_count =? 0)%nat then q_unlock i was;; mret []
    else
      stolen ← q_steal_loop i steal_count [];
      AddLen i (- Z.of_nat (length stolen)) (q_unlock i was;; mret stolen)).

Definition q_len (i : nat) : code Z := LoadLen i (fun v => mret v).

(** The methods of [Scheduler] on the implementation of [RunQueue]. *)
Fixpoint impl {A} (p : api A) : code A :=
  match p with
  | ARet a => Done a
  | APanic => Crash
  | ALen i k => v ← q_len i; impl (k v)
  | APush i t k => q_push i t;; impl k
  | APop i k => r ← q_pop i; impl (k r)
  | ASteal i k => r ← q_steal_half i; impl (k r)
  end.

(** ** The machine of atomic operations *)

(** A run queue: the lock with the [VecDeque] in it, and the counter. *)
Record cqueue := CQueue { cq_lock : spin_lock (list task); cq_len : Z }.

(** One operation: the code that follows, the queues and the flags after it, and
    whether it was a failed exchange. [None]: no such queue, nothing to run. *)
Definition code_step {A} (c : code A) (qs : list cqueue) (rf : Z)
    : option (code A * list cqueue * Z * bool) :=
  let guarded {R} (i : nat) (f : list task -> R * list task) (k : R -> code A) :=
    q ← qs !! i;
    let '(r, data) := f (sl_deref (cq_lock q)) in
    Some (k r, <[i := CQueue (sl_deref_mut (cq_lock q) data) (cq_len q)]> qs, rf, false) in
  match c with
  | Done _ | Crash => None
  | GetIf k => Some (k (interrupts_enabled rf), qs, rf, false)
  | Cli k => Some (k, qs, cli rf, false)
  | Sti k => Some (k, qs, sti rf, false)
  | Cas i k =>
      q ← qs !! i;
      let '(ok, l) := sl_cas (cq_lock q) in
      if ok then Some (k, <[i := CQueue l (cq_len q)]> qs, rf, false) else Some (c, qs, rf, true)
  | Unlock i k =>
      q ← qs !! i; Some (k, <[i := CQueue (sl_unlock (cq_lock q)) (cq_len q)]> qs, rf, false)
  | QLen i k => guarded i (fun data => (length data, data)) k
  | PushBack i t k => guarded i (fun data => (tt, data ++ [t])) (fun _ => k)
  | PopFront i k =>
      guarded i (fun data => match data with t :: data' => (Some t, data') | [] => (None, []) end) k
  | PopBack i k =>
      guarded i (fun data => match pop_back data with Some (t, data') => (Some t, data')
                                                    | None => (None, data) end) k
  | AddLen i d k =>
      q ← qs !! i; Some (k, <[i := CQueue (cq_lock q) (wrap 64 (cq_len q + d))]> qs, rf, false)
  | LoadLen i k => q ← qs !! i; Some (k (cq_len q), qs, rf, false)
  end.

(** Code that a core runs, and whether the timer interrupt started it. *)
Record frame (C : Type) := Frame { f_code : C; f_irq : bool }.
Arguments Frame {C} _ _.
Arguments f_code {C} _.
Arguments f_irq {C} _.

(** A core: its flags, and the calls it has not finished, the one that runs first
    and the ones that the timer interrupted below. *)
Record core := Core { c_rflags : Z; c_frames : list (frame (code (list task))) }.

Inductive conc_action :=
| ActCall (op : sched_op)
| ActTimer
| ActRun
| ActSpurious
| ActSetIf (b : bool).

Inductive conc_event :=
| EvCall (op : sched_op)
| EvTimer (core : nat)
| EvReturn (ts : list task)
| EvWork
| EvSpin
| EvIf.

(** One move of core [me]. Task code calls the scheduler, or sets its interrupt
    flag, when no call is going on; the timer, whose handler calls [schedule] for
    the core with interrupts disabled, may interrupt it or a call. *)
Definition conc_act (me : nat) (a : conc_action) (qs : list cqueue) (c : core)
    : option (list cqueue * core * conc_event) :=
  let n := length qs in
  match a, c_frames c with
  | ActCall op, [] => Some (qs, Core (c_rflags c) [Frame (impl (c_call n op)) false], EvCall op)
  | ActSetIf b, [] => Some (qs, Core (if b then sti (c_rflags c) else cli (c_rflags c)) [], EvIf)
  | ActTimer, fs =>
      if interrupts_enabled (c_rflags c)
      then Some (qs, Core (cli (c_rflags c)) (Frame (impl (c_call n (OpSchedule me))) true :: fs), EvTimer me)
      else None
  | ActRun, Frame (Done ts) irq :: fs =>
      Some (qs, Core (if irq then sti (c_rflags c) else c_rflags c) fs, EvReturn ts)
  | ActRun, Frame code irq :: fs =>
      '(code', qs', rf', spin) ← code_step code qs (c_rflags c);
      Some (qs', Core rf' (Frame code' irq :: fs), if spin : bool then EvSpin else EvWork)
  | ActSpurious, Frame (Cas i k) irq :: fs => Some (qs, c, EvSpin)
  | _, _ => None
  end.

Abbreviation conc_sys := (sys (list cqueue) core).
Abbreviation conc_step := (step conc_act).

(** [Scheduler::new(n)], with one core per queue; [rf i] are the flags of core [i]. *)
Definition conc_init (n : nat) (rf : nat -> Z) : conc_sys :=
  Sys (replicate n (CQueue (sl_new []) 0)) (map (fun i => Core (rf i) []) (seq 0 n)).

(** ** The machine of run-queue operations *)

Definition api_step {A} (p : api A) (qs : list run_queue) : option (api A * list run_queue) :=
  match p with
  | ARet _ | APanic => None
  | ALen i k => q ← qs !! i; Some (k (rq_len q), qs)
  | APush i t k => q ← qs !! i; Some (k, <[i := rq_push t q]> qs)
  | APop i k => q ← qs !! i; let '(r, q') := rq_pop q in Some (k r, <[i := q']> qs)
  | ASteal i k => q ← qs !! i; let '(r, q') := rq_steal_half q in Some (k r, <[i := q']> qs)
  end.

(** A core is the list of its calls; the timer may interrupt it at any time. *)
Definition atomic_act (me : nat) (a : conc_action) (qs : list run_queue) (fs : list (frame (api (list task))))
    : option (list run_queue * list (frame (api (list task))) * conc_event) :=
  let n := length qs in
  match a, fs with
  | ActCall op, [] => Some (qs, [Frame (c_call n op) false], EvCall op)
  | ActTimer, fs => Some (qs, Frame (c_call n (OpSchedule me)) true :: fs, EvTimer me)
  | ActRun, Frame (ARet ts) irq :: fs => Some (qs, fs, EvReturn ts)
  | ActRun, Frame p irq :: fs => '(p', qs') ← api_step p qs; Some (qs', Frame p' irq :: fs, EvWork)
  | _, _ => None
  end.

Abbreviation atomic_sys := (sys (list run_queue) (list (frame (api (list task))))).
Abbreviation atomic_step := (step atomic_act).

Definition atomic_init (n : nat) : atomic_sys :=
  Sys (run_queues (sched_new (Q:=run_queue) (Z.of_nat n))) (replicate n []).

(** ** What an execution shows of itself: calls, timer interrupts and returns *)

Definition visible (e : conc_event) : bool :=
  match e with EvCall _ | EvTimer _ | EvReturn _ => true | _ => false end.

Definition observed (tr : list (nat * conc_event)) : list (nat * conc_event) :=
  List.filter (fun e => visible (snd e)) tr.

(** The tasks that the calls of an execution hand to the scheduler, and those that
    they return. *)
Definition given (tr : list (nat * conc_event)) : list task :=
  concat (map (fun e => match snd e with EvCall op => op_input op | _ => [] end) tr).

Definition returned (tr : list (nat * conc_event)) : list task :=
  concat (map (fun e => match snd e with EvReturn ts => ts | _ => [] end) tr).

(** All calls are finished. *)
Definition quiescent (s : conc_sys) : Prop := Forall (fun c => c_frames c = []) (locals s).
