(* ===== verification/SchedRefine.v ===== *)
(** * SchedRefine: the atomic operations refine the operations of run queues

    The code of a call, in a state of its local ghost, stands for the rest of a
    program over run queues ([stands_for]). The judgement is by recursion on the
    code: every operation keeps the abstract program and queue, or performs the
    next abstract operation at this point (the point where the counter changes,
    since other cores see the counter without the lock). It gives a simulation
    of every execution of [conc_act] by one of [atomic_act]. *)

From S2P Require Import Prelude Threads Task RunQueue Scheduler SpinLock SchedCode.

(** ** The judgement *)

(** What a core holds: the queue it has locked, that queue's abstract state and
    its [VecDeque]. *)
Record hold := Hold { h_queue : nat; h_abs : run_queue; h_data : list task }.

(** The interrupt flag of the core, and what it holds. *)
Record ghost := Ghost { g_if : bool; g_hold : option hold }.

(** The next operation of a program on a run queue, but for loads of lengths. *)
Definition api_op {A} (i : nat) (p : api A) (a : run_queue) : option (api A * run_queue) :=
  match p with
  | APush j t k => if decide (j = i) then Some (k, rq_push t a) else None
  | APop j k => if decide (j = i) then let '(r, a') := rq_pop a in Some (k r, a') else None
  | ASteal j k => if decide (j = i) then let '(r, a') := rq_steal_half a in Some (k r, a') else None
  | _ => None
  end.

(** The queue that a program uses next. *)
Definition api_target {A} (p : api A) : option nat :=
  match p with
  | ARet _ | APanic => None
  | ALen i _ | APush i _ _ | APop i _ | ASteal i _ => Some i
  end.

(** The abstract program stays where it is, or performs its next operation. *)
Definition may_commit {A} (i : nat) (p : api A) (a : run_queue) (K : api A -> run_queue -> Prop) : Prop :=
  K p a \/ exists p' a', api_op i p a = Some (p', a') /\ K p' a'.

(** An operation through the guard: the counter does not change. *)
Definition guard_op {A R} (i : nat) (p : api A) (g : ghost) (f : list task -> R * list task)
    (K : R -> api A -> ghost -> Prop) : Prop :=
  exists h, g_hold g = Some h /\ h_queue h = i /\
    may_commit i p (h_abs h) (fun p' a' => rq_len a' = rq_len (h_abs h) /\
      K (fst (f (h_data h))) p' (Ghost (g_if g) (Some (Hold i a' (snd (f (h_data h))))))).

(** [entry] is the interrupt flag with which the call was entered. *)
Fixpoint stands_for {A} (entry : bool) (c : code A) (p : api A) (g : ghost) : Prop :=
  match c with
  | Done x => p = ARet x /\ g = Ghost entry None
  | Crash => p = APanic
  | GetIf k => stands_for entry (k (g_if g)) p g
  | Cli k => stands_for entry k p (Ghost false (g_hold g))
  | Sti k => g_hold g = None /\ entry = true /\ stands_for entry k p (Ghost true None)
  | Cas i k =>
      g = Ghost false None /\ api_target p = Some i /\
      forall a, stands_for entry k p (Ghost false (Some (Hold i a (rq_queue a))))
  | Unlock i k =>
      exists a, g_hold g = Some (Hold i a (rq_queue a)) /\ stands_for entry k p (Ghost (g_if g) None)
  | QLen i k => guard_op i p g (fun data => (length data, data)) (fun r => stands_for entry (k r))
  | PushBack i t k => guard_op i p g (fun data => (tt, data ++ [t])) (fun _ => stands_for entry k)
  | PopFront i k =>
      guard_op i p g (fun data => match data with t :: data' => (Some t, data') | [] => (None, []) end)
        (fun r => stands_for entry (k r))
  | PopBack i k =>
      guard_op i p g (fun data => match pop_back data with Some (t, data') => (Some t, data')
                                                         | None => (None, data) end)
        (fun r => stands_for entry (k r))
  | AddLen i d k =>
      exists h, g_hold g = Some h /\ h_queue h = i /\
        may_commit i p (h_abs h) (fun p' a' => rq_len a' = wrap 64 (rq_len (h_abs h) + d) /\
          stands_for entry k p' (Ghost (g_if g) (Some (Hold i a' (h_data h)))))
  | LoadLen i k => exists k', p = ALen i k' /\ g_hold g = None /\ forall v, stands_for entry (k v) (k' v) g
  end.

(** ** The code of a run queue stands for its operation *)

Section operations.
Context {A : Type} (entry : bool).
Implicit Types (p : api A) (K : code A).

(** Code that stands for [p] outside of critical sections. *)
Definition outside K p : Prop := stands_for entry K p (Ghost entry None).

(** Releasing the lock, with the queue as the abstract operations left it. *)
Lemma unlock_stands i a K p :
  outside K p ->
  stands_for entry (q_unlock i entry;; K) p (Ghost false (Some (Hold i a (rq_queue a)))).
Proof. intros HK. exists a. split; [done|]. unfold outside in HK. by destruct entry. Qed.

Lemma unlock_stands_ret {B} i a (f : B -> code A) b p :
  outside (f b) p ->
  stands_for entry ((q_unlock i entry;; mret b) ≫= f) p (Ghost false (Some (Hold i a (rq_queue a)))).
Proof. intros HK. exists a. split; [done|]. unfold outside in HK. by destruct entry. Qed.

(** Taking the lock. *)
Lemma lock_stands i p (f : bool -> code A) :
  api_target p = Some i ->
  (forall a, stands_for entry (f entry) p (Ghost false (Some (Hold i a (rq_queue a))))) ->
  outside (q_lock i ≫= f) p.
Proof. intros Hp Hf. by split_and!. Qed.

Lemma push_stands i t K k : outside K k -> outside (q_push i t;; K) (APush i t k).
Proof.
  intros HK. apply lock_stands; [done|]. intros a.
  eexists. split; [done|]. split; [done|]. left. split; [done|].
  eexists. split; [done|]. split; [done|]. right. simpl. rewrite decide_True by done.
  eexists _, _. split; [done|]. split; [done|].
  exact (unlock_stands i (rq_push t a) K k HK).
Qed.

Lemma pop_stands i (K : option task -> code A) k :
  (forall r, outside (K r) (k r)) -> outside (q_pop i ≫= K) (APop i k).
Proof.
  intros HK. apply lock_stands; [done|]. intros a. eexists. split; [done|]. split; [done|].
  destruct (rq_queue a) as [|t ts] eqn:Hq; cbn [h_data h_abs fst snd].
  - right. simpl. rewrite decide_True by done. unfold rq_pop. rewrite Hq.
    eexists _, _. split; [done|]. split; [done|].
    pose proof (unlock_stands_ret i a K None (k None) (HK None)) as Hu. by rewrite Hq in Hu.
  - left. split; [done|]. eexists. split; [done|]. split; [done|]. right. simpl. rewrite decide_True by done.
    unfold rq_pop. rewrite Hq. eexists _, _. split; [done|]. split; [done|].
    exact (unlock_stands_ret i (RunQueue (rq_core_id a) ts (wrap 64 (rq_len a - 1))) K (Some t) (k (Some t)) (HK _)).
Qed.

(** The loop takes tasks off the back without the others noticing. *)
Lemma steal_loop_stands {B} i m stolen data a (F : list task -> code B) (K : B -> code A) p b :
  let '(stolen', data') := steal_loop m data stolen in
  stands_for entry (F stolen' ≫= K) p (Ghost b (Some (Hold i a data'))) ->
  stands_for entry ((q_steal_loop i m stolen ≫= F) ≫= K) p (Ghost b (Some (Hold i a data))).
Proof.
  revert stolen data. induction m as [|m IH]; intros stolen data; simpl steal_loop; [intros HF; exact HF|].
  destruct (pop_back data) as [[t data1]|] eqn:Hpop; cbn [q_steal_loop].
  - specialize (IH (stolen ++ [t]) data1). destruct (steal_loop m data1 (stolen ++ [t])) as [stolen' data'].
    intros HF. eexists. split; [done|]. split; [done|]. left. split; [done|]. cbn [h_data h_abs g_if].
    rewrite Hpop. by apply IH.
  - specialize (IH stolen data). destruct (steal_loop m data stolen) as [stolen' data'].
    intros HF. eexists. split; [done|]. split; [done|]. left. split; [done|]. cbn [h_data h_abs g_if].
    rewrite Hpop. by apply IH.
Qed.

Lemma steal_stands i (K : list task -> code A) k :
  (forall r, outside (K r) (k r)) -> outside (q_steal_half i ≫= K) (ASteal i k).
Proof.
  intros HK. apply lock_stands; [done|]. intros a. eexists. split; [done|]. split; [done|].
  cbn [h_data h_abs fst snd].
  assert (Hop : api_op i (ASteal i k) a = let '(r, a') := rq_steal_half a in Some (k r, a')).
  { simpl. by rewrite decide_True. }
  unfold rq_steal_half in Hop. destruct (Nat.eqb_spec (length (rq_queue a) / 2) 0) as [H0|H0].
  - right. eexists _, _. split; [exact Hop|]. split; [done|]. exact (unlock_stands_ret i a K [] (k []) (HK _)).
  - left. split; [done|].
    pose proof (steal_loop_stands i (length (rq_queue a) / 2) [] (rq_queue a) a
      (fun stolen => AddLen i (- Z.of_nat (length stolen)) (q_unlock i entry;; mret stolen)) K
      (ASteal i k) false) as Hloop.
    destruct (steal_loop _ (rq_queue a) []) as [stolen data'].
    apply Hloop. eexists. split; [done|]. split; [done|]. right. eexists _, _. split; [exact Hop|].
    split; [done|]. exact (unlock_stands_ret i _ K stolen (k stolen) (HK _)).
Qed.
End operations.

(** A method stands for its program. *)
Lemma impl_stands {A} entry (p : api A) : outside entry (impl p) p.
Proof.
  induction p as [x| |i k IH|i t k IH|i k IH|i k IH].
  - done.
  - done.
  - exists k. split; [done|]. split; [done|]. exact IH.
  - by apply push_stands.
  - by apply pop_stands.
  - by apply steal_stands.
Qed.

(** ** The queues of the two machines *)

(** [hs] says what each core holds. A held queue is locked, by one core only, and
    is as that core knows it; the data of a free queue is that of the abstract
    queue; the counters always agree. *)
Record queues_ok (hs : list (option hold)) (qs : list cqueue) (aqs : list run_queue) : Prop := {
  qo_length : length aqs = length qs;
  qo_held t h : hs !! t = Some (Some h) ->
    qs !! h_queue h = Some (CQueue (SpinLock true (h_data h)) (rq_len (h_abs h))) /\
    aqs !! h_queue h = Some (h_abs h);
  qo_unique t1 t2 h1 h2 : hs !! t1 = Some (Some h1) -> hs !! t2 = Some (Some h2) ->
    h_queue h1 = h_queue h2 -> t1 = t2;
  qo_free i q : qs !! i = Some q -> locked (cq_lock q) = false ->
    exists a, aqs !! i = Some a /\ q = CQueue (SpinLock false (rq_queue a)) (rq_len a);
  qo_locked i q : qs !! i = Some q -> locked (cq_lock q) = true ->
    exists t h, hs !! t = Some (Some h) /\ h_queue h = i;
}.

Section queues.
Implicit Types (hs : list (option hold)) (qs : list cqueue) (aqs : list run_queue).

Lemma lookup_insert_cases {B} (l : list B) i x j y :
  <[i := x]> l !! j = Some y -> (j = i /\ y = x) \/ (j <> i /\ l !! j = Some y).
Proof. intros Hl. apply list_lookup_insert_Some in Hl. naive_solver. Qed.

Lemma queues_counter hs qs aqs i q :
  queues_ok hs qs aqs -> qs !! i = Some q -> exists a, aqs !! i = Some a /\ cq_len q = rq_len a.
Proof.
  intros Hok Hq. destruct (locked (cq_lock q)) eqn:Hl.
  - destruct (qo_locked _ _ _ Hok i q Hq Hl) as (t & h & Ht & <-).
    destruct (qo_held _ _ _ Hok t h Ht) as [Hq' Ha]. simplify_eq. eauto.
  - destruct (qo_free _ _ _ Hok i q Hq Hl) as (a & Ha & ->). eauto.
Qed.

(** The holder changes the queue and what the abstract queue is. *)
Lemma queues_change hs qs aqs t h a data :
  queues_ok hs qs aqs -> hs !! t = Some (Some h) ->
  queues_ok (<[t := Some (Hold (h_queue h) a data)]> hs)
    (<[h_queue h := CQueue (SpinLock true data) (rq_len a)]> qs) (<[h_queue h := a]> aqs).
Proof.
  intros Hok Ht. pose proof (qo_held _ _ _ Hok t h Ht) as [Hq Ha]. constructor.
  - rewrite !length_insert. apply Hok.
  - intros t' h' [[-> [= ->]]|[? Ht']]%lookup_insert_cases; simpl.
    + rewrite !list_lookup_insert_eq by (by eapply lookup_lt_Some). done.
    + destruct (decide (h_queue h' = h_queue h)) as [Heq|Hne].
      { destruct (qo_unique _ _ _ Hok t' t h' h); done. }
      rewrite !list_lookup_insert_ne by done. by apply (qo_held _ _ _ Hok t').
  - intros t1 t2 h1 h2 H1 H2 Heq. apply lookup_insert_cases in H1, H2.
    destruct H1 as [[-> ?]|[? H1]], H2 as [[-> ?]|[? H2]]; simplify_eq/=; [done|..].
    + by eapply (qo_unique _ _ _ Hok).
    + by eapply (qo_unique _ _ _ Hok).
    + by eapply (qo_unique _ _ _ Hok).
  - intros i q [[-> ->]|[? Hi]]%lookup_insert_cases Hl; [done|].
    destruct (qo_free _ _ _ Hok i q Hi Hl) as (a' & Ha' & ->). exists a'.
    by rewrite list_lookup_insert_ne.
  - intros i q [[-> ->]|[? Hi]]%lookup_insert_cases Hl.
    + exists t, (Hold (h_queue h) a data). rewrite list_lookup_insert_eq by (by eapply lookup_lt_Some). done.
    + destruct (qo_locked _ _ _ Hok i q Hi Hl) as (t' & h' & Ht' & <-). exists t', h'.
      rewrite list_lookup_insert_ne; [done|]. congruence.
Qed.

(** A core takes a free lock. *)
Lemma queues_acquire hs qs aqs t i q :
  queues_ok hs qs aqs -> hs !! t = Some None -> qs !! i = Some q -> locked (cq_lock q) = false ->
  exists a, queues_ok (<[t := Some (Hold i a (rq_queue a))]> hs)
    (<[i := CQueue (SpinLock true (sl_data (cq_lock q))) (cq_len q)]> qs) aqs.
Proof.
  intros Hok Ht Hq Hl. destruct (qo_free _ _ _ Hok i q Hq Hl) as (a & Ha & ->). exists a.
  assert (Hfree : forall t' h', hs !! t' = Some (Some h') -> h_queue h' <> i).
  { intros t' h' Ht' <-. destruct (qo_held _ _ _ Hok t' h' Ht') as [Hq' _]. by simplify_eq. }
  constructor.
  - rewrite length_insert. apply Hok.
  - intros t' h' [[-> [= ->]]|[? Ht']]%lookup_insert_cases; simpl.
    + by rewrite list_lookup_insert_eq by (by eapply lookup_lt_Some).
    + rewrite list_lookup_insert_ne by (by apply not_eq_sym, (Hfree t')). by apply (qo_held _ _ _ Hok t').
  - intros t1 t2 h1 h2 H1 H2 Heq. apply lookup_insert_cases in H1, H2.
    destruct H1 as [[-> ?]|[? H1]], H2 as [[-> ?]|[? H2]]; simplify_eq/=; [done|..].
    + by destruct (Hfree t2 h2).
    + by destruct (Hfree t1 h1).
    + by eapply (qo_unique _ _ _ Hok).
  - intros j q' [[-> ->]|[? Hj]]%lookup_insert_cases Hl'; [done|]. by apply (qo_free _ _ _ Hok j).
  - intros j q' [[-> ->]|[? Hj]]%lookup_insert_cases Hl'.
    + eexists t, _. by rewrite list_lookup_insert_eq by (by eapply lookup_lt_Some).
    + destruct (qo_locked _ _ _ Hok j q' Hj Hl') as (t' & h' & Ht' & <-). exists t', h'.
      rewrite list_lookup_insert_ne; [done|]. congruence.
Qed.

(** The holder releases it. *)
Lemma queues_release hs qs aqs t i a :
  queues_ok hs qs aqs -> hs !! t = Some (Some (Hold i a (rq_queue a))) ->
  queues_ok (<[t := None]> hs) (<[i := CQueue (SpinLock false (rq_queue a)) (rq_len a)]> qs) aqs.
Proof.
  intros Hok Ht. pose proof (qo_held _ _ _ Hok t _ Ht) as [Hq Ha]. simpl in Hq, Ha. constructor.
  - rewrite length_insert. apply Hok.
  - intros t' h' [[-> [=]]|[? Ht']]%lookup_insert_cases.
    rewrite list_lookup_insert_ne; [by apply (qo_held _ _ _ Hok t')|].
    intros Heq. by destruct (qo_unique _ _ _ Hok t' t h' _ Ht' Ht (eq_sym Heq)).
  - intros t1 t2 h1 h2 [[-> [=]]|[? H1]]%lookup_insert_cases [[-> [=]]|[? H2]]%lookup_insert_cases Heq. by eapply (qo_unique _ _ _ Hok).
  - intros j q' [[-> ->]|[? Hj]]%lookup_insert_cases Hl'; [by exists a|]. by apply (qo_free _ _ _ Hok j).
  - intros j q' [[-> ->]|[? Hj]]%lookup_insert_cases Hl'; [done|].
    destruct (qo_locked _ _ _ Hok j q' Hj Hl') as (t' & h' & Ht' & <-). exists t', h'.
    rewrite list_lookup_insert_ne; [done|]. intros ->. by simplify_eq.
Qed.
End queues.

(** ** One operation of code *)

Lemma api_op_step {A} i (p p' : api A) a a' aqs :
  aqs !! i = Some a -> api_op i p a = Some (p', a') -> api_step p aqs = Some (p', <[i := a']> aqs).
Proof.
  intros Ha Hop. destruct p; simpl in *; try done; case_decide; subst; try done; rewrite Ha; simpl.
  - by simplify_eq.
  - destruct (rq_pop a). by simplify_eq.
  - destruct (rq_steal_half a). by simplify_eq.
Qed.

(** The abstract machine stands still or performs the operation. *)
Definition api_follows {A} (p : api A) (aqs : list run_queue) (p' : api A) (aqs' : list run_queue) : Prop :=
  (p' = p /\ aqs' = aqs) \/ api_step p aqs = Some (p', aqs').

Lemma may_commit_follows {A} i (p : api A) a aqs (K : api A -> run_queue -> Prop) :
  aqs !! i = Some a -> may_commit i p a K ->
  exists p' a', api_follows p aqs p' (<[i := a']> aqs) /\ K p' a'.
Proof.
  intros Ha [HK|(p' & a' & Hop & HK)].
  - exists p, a. split; [|done]. left. by rewrite list_insert_id.
  - exists p', a'. split; [|done]. right. by eapply api_op_step.
Qed.

(** Interrupts are enabled only where they were when the call was entered, and
    outside of critical sections. *)
Definition enabled_ok (entry : bool) (rf : Z) (h : option hold) : Prop :=
  interrupts_enabled rf = true -> entry = true /\ h = None.

(** What is kept by a step of core [t]. *)
Definition code_ok {A} (entry : bool) (t : nat) (c : code A) (p : api A) (rf : Z)
    (hs : list (option hold)) (qs : list cqueue) (aqs : list run_queue) : Prop :=
  queues_ok hs qs aqs /\
  exists h, hs !! t = Some h /\ enabled_ok entry rf h /\ stands_for entry c p (Ghost (interrupts_enabled rf) h).

Section code_steps.
Context {A : Type} (entry : bool) (t : nat).
Implicit Types (c : code A) (p : api A) (hs : list (option hold)) (qs : list cqueue) (aqs : list run_queue).

(** What a step of the core keeps, but for what the core itself holds. *)
Definition code_steps_ok c p rf hs qs aqs (qs' : list cqueue) : Prop :=
  exists p' aqs' hs', api_follows p aqs p' aqs' /\ length hs' = length hs /\
    (forall t', t' <> t -> hs' !! t' = hs !! t') /\
    code_ok entry t c p' rf hs' qs' aqs' /\ length qs' = length qs.

(** The step gives the core [h'], and leaves the queues well related. *)
Lemma step_holds c p p' rf hs qs aqs qs' aqs' h h' :
  hs !! t = Some h -> api_follows p aqs p' aqs' -> queues_ok (<[t := h']> hs) qs' aqs' ->
  enabled_ok entry rf h' ->
  stands_for entry c p' (Ghost (interrupts_enabled rf) h') -> length qs' = length qs ->
  code_steps_ok c p rf hs qs aqs qs'.
Proof.
  intros Ht Hfol Hok Hif Hc Hlen. exists p', aqs', (<[t := h']> hs).
  split; [done|]. split; [apply length_insert|]. split; [intros t' Hne; by rewrite list_lookup_insert_ne|].
  split; [|done]. split; [done|]. exists h'. split; [|done].
  apply list_lookup_insert_eq. by eapply lookup_lt_Some.
Qed.

(** An operation that touches neither the queues nor what is held. *)
Lemma step_stays c p rf hs qs aqs h :
  hs !! t = Some h -> queues_ok hs qs aqs -> enabled_ok entry rf h ->
  stands_for entry c p (Ghost (interrupts_enabled rf) h) -> code_steps_ok c p rf hs qs aqs qs.
Proof.
  intros Ht Hok Hif Hc. eapply step_holds; [done|by left| |done|done|done]. by rewrite list_insert_id.
Qed.

(** An operation of the holder on its queue, at which the abstract one may happen. *)
Lemma step_commits c p rf hs qs aqs h data (len : Z) :
  hs !! t = Some (Some h) -> queues_ok hs qs aqs -> enabled_ok entry rf (Some h) ->
  may_commit (h_queue h) p (h_abs h) (fun p' a' => rq_len a' = len /\
    stands_for entry c p' (Ghost (interrupts_enabled rf) (Some (Hold (h_queue h) a' data)))) ->
  code_steps_ok c p rf hs qs aqs (<[h_queue h := CQueue (SpinLock true data) len]> qs).
Proof.
  intros Ht Hok Hif Hc. destruct (qo_held _ _ _ Hok t h Ht) as [_ Ha].
  destruct (may_commit_follows _ _ _ _ _ Ha Hc) as (p' & a' & Hfol & <- & HK).
  eapply step_holds; [done|exact Hfol|by apply queues_change| |done|apply length_insert].
  intros He. by destruct (Hif He).
Qed.

Lemma guard_step {R} i p rf hs qs aqs (f : list task -> R * list task) (k : R -> code A) h q :
  hs !! t = Some h -> queues_ok hs qs aqs -> enabled_ok entry rf h ->
  guard_op i p (Ghost (interrupts_enabled rf) h) f (fun r => stands_for entry (k r)) -> qs !! i = Some q ->
  code_steps_ok (k (fst (f (sl_data (cq_lock q))))) p rf hs qs aqs
    (<[i := CQueue (SpinLock (locked (cq_lock q)) (snd (f (sl_data (cq_lock q))))) (cq_len q)]> qs).
Proof.
  intros Ht Hok Hif (h1 & Hh & <- & Hc) Hq. simpl in Hh. subst h.
  destruct (qo_held _ _ _ Hok t h1 Ht) as [Hq' _]. simplify_eq. by apply step_commits.
Qed.

Lemma cas_step i k p rf hs qs aqs h q :
  hs !! t = Some h -> queues_ok hs qs aqs -> enabled_ok entry rf h ->
  stands_for entry (Cas i k) p (Ghost (interrupts_enabled rf) h) ->
  qs !! i = Some q -> locked (cq_lock q) = false ->
  code_steps_ok k p rf hs qs aqs (<[i := CQueue (SpinLock true (sl_data (cq_lock q))) (cq_len q)]> qs).
Proof.
  intros Ht Hok Hif (Hg & _ & Hc) Hq Hl. injection Hg as Hif' ->.
  destruct (queues_acquire hs qs aqs t i q Hok Ht Hq Hl) as (a & Hok').
  eapply step_holds; [done|by left|exact Hok'| | |apply length_insert].
  - intros He. congruence.
  - rewrite Hif'. apply Hc.
Qed.

Lemma unlock_step i k p rf hs qs aqs h q :
  hs !! t = Some h -> queues_ok hs qs aqs -> enabled_ok entry rf h ->
  stands_for entry (Unlock i k) p (Ghost (interrupts_enabled rf) h) -> qs !! i = Some q ->
  code_steps_ok k p rf hs qs aqs (<[i := CQueue (sl_unlock (cq_lock q)) (cq_len q)]> qs).
Proof.
  intros Ht Hok Hif (a & Hh & Hc) Hq. simpl in Hh. subst h.
  destruct (qo_held _ _ _ Hok t _ Ht) as [Hq' _]. simpl in Hq'. simplify_eq.
  eapply step_holds; [done|by left|by apply queues_release| |done|apply length_insert].
  intros He. by destruct (Hif He).
Qed.

Lemma load_step i (k : Z -> code A) p rf hs qs aqs h q :
  hs !! t = Some h -> queues_ok hs qs aqs -> enabled_ok entry rf h ->
  stands_for entry (LoadLen i k) p (Ghost (interrupts_enabled rf) h) -> qs !! i = Some q ->
  code_steps_ok (k (cq_len q)) p rf hs qs aqs qs.
Proof.
  intros Ht Hok Hif (k' & -> & Hh & Hc) Hq. simpl in Hh. subst h.
  destruct (queues_counter _ _ _ _ _ Hok Hq) as (a & Ha & ->).
  eapply (step_holds _ _ (k' (rq_len a)) _ _ _ _ _ aqs None None); try done; [right; simpl; by rewrite Ha|].
  by rewrite list_insert_id.
Qed.

(** Every step of code is one of these. *)
Lemma code_step_sim c p rf hs qs aqs c' qs' rf' spin :
  code_ok entry t c p rf hs qs aqs -> code_step c qs rf = Some (c', qs', rf', spin) ->
  code_steps_ok c' p rf' hs qs aqs qs'.
Proof.
  intros (Hok & h & Ht & Hif & Hc) Hstep.
  destruct c as [x| |k|k|k|i k|i k|i k|i u k|i k|i k|i d k|i k]; simpl in Hstep; try done.
  1-3: simplify_eq.
  1: by eapply step_stays.
  1: eapply step_stays; unfold enabled_ok; by rewrite ?interrupts_enabled_cli.
  1: destruct Hc as (Hh & He & Hc); simpl in Hh; subst h;
    eapply step_stays; unfold enabled_ok; by rewrite ?interrupts_enabled_sti.
  all: destruct (qs !! i) as [q|] eqn:Hq; [|done]; simpl in Hstep.
  - unfold sl_cas in Hstep. destruct (locked (cq_lock q)) eqn:Hl; simplify_eq; [by eapply step_stays|by eapply cas_step].
  - simplify_eq. by eapply unlock_step.
  - simplify_eq. exact (guard_step i p rf' hs qs aqs _ k h q Ht Hok Hif Hc Hq).
  - simplify_eq. exact (guard_step i p rf' hs qs aqs _ (fun _ => c') h q Ht Hok Hif Hc Hq).
  - pose proof (guard_step i p rf hs qs aqs _ k h q Ht Hok Hif Hc Hq) as Hg. unfold sl_deref in Hstep.
    cbv beta in Hg. revert Hg Hstep. destruct (sl_data (cq_lock q)); intros Hg Hstep; simpl in Hstep; simplify_eq; exact Hg.
  - pose proof (guard_step i p rf hs qs aqs _ k h q Ht Hok Hif Hc Hq) as Hg. unfold sl_deref in Hstep.
    cbv beta in Hg. revert Hg Hstep.
    destruct (pop_back (sl_data (cq_lock q))) as [[? ?]|]; intros Hg Hstep; simpl in Hstep; simplify_eq; exact Hg.
  - simplify_eq. destruct Hc as (h1 & Hh & <- & Hc). simpl in Hh. subst h.
    destruct (qo_held _ _ _ Hok t _ Ht) as [Hq' _]. simplify_eq. by apply step_commits.
  - simplify_eq. by eapply load_step.
Qed.
End code_steps.

(** ** The two machines *)

(** The call that runs. One that the timer started runs with interrupts disabled. *)
Definition top_rel (rf : Z) (h : option hold) (f : frame (code (list task))) (af : frame (api (list task))) : Prop :=
  f_irq f = f_irq af /\
  exists entry, (f_irq f = true -> entry = false) /\ enabled_ok entry rf h /\
    stands_for entry (f_code f) (f_code af) (Ghost (interrupts_enabled rf) h).

(** A core runs no call, one call, or one in the timer handler that interrupted
    another, which holds nothing. *)
Definition core_rel (c : core) (h : option hold) (afs : list (frame (api (list task)))) : Prop :=
  match c_frames c, afs with
  | [], [] => h = None
  | [f], [af] => top_rel (c_rflags c) h f af
  | [f; f0], [af; af0] =>
      top_rel (c_rflags c) h f af /\ f_irq f = true /\ f_irq f0 = false /\ f_irq af0 = false /\
      outside true (f_code f0) (f_code af0)
  | _, _ => False
  end.

Record sim_holding (hs : list (option hold)) (s : conc_sys) (a : atomic_sys) : Prop := {
  sim_holds : length hs = length (locals s);
  sim_cores : length (locals a) = length (locals s);
  sim_queues : queues_ok hs (shared s) (shared a);
  sim_core t c afs h : locals s !! t = Some c -> locals a !! t = Some afs -> hs !! t = Some h -> core_rel c h afs;
}.

Definition sim (s : conc_sys) (a : atomic_sys) : Prop := exists hs, sim_holding hs s a.

(** The abstract step that matches an event. *)
Definition matches (a : atomic_sys) (t : nat) (e : conc_event) (a' : atomic_sys) : Prop :=
  if visible e then atomic_step a (t, e) a' else a' = a \/ atomic_step a (t, EvWork) a'.

(** Core [t] moves; the others are not concerned. *)
Lemma sim_update hs hs' (s : conc_sys) qs c' (a : atomic_sys) aqs afs' h' t :
  sim_holding hs s a -> length hs' = length hs -> (forall t', t' <> t -> hs' !! t' = hs !! t') ->
  queues_ok hs' qs aqs -> hs' !! t = Some h' -> core_rel c' h' afs' ->
  sim_holding hs' (Sys qs (<[t := c']> (locals s))) (Sys aqs (<[t := afs']> (locals a))).
Proof.
  intros Hsim Hlen Hoth Hq Ht Hrel. constructor; cbn [shared locals].
  - rewrite length_insert, Hlen. apply Hsim.
  - rewrite !length_insert. apply Hsim.
  - done.
  - intros t' c afs h Hc Ha Hh. apply lookup_insert_cases in Hc, Ha.
    destruct Hc as [[-> ->]|[Hne Hc]], Ha as [[? ->]|[? Ha]]; simplify_eq; [done|].
    rewrite Hoth in Hh by done. by apply (sim_core _ _ _ Hsim t').
Qed.

(** Two moves that leave the queues alone. *)
Lemma sim_local hs (s : conc_sys) c' (a : atomic_sys) afs' h t :
  sim_holding hs s a -> hs !! t = Some h -> core_rel c' h afs' ->
  sim_holding hs (Sys (shared s) (<[t := c']> (locals s))) (Sys (shared a) (<[t := afs']> (locals a))).
Proof. intros Hsim Ht Hrel. eapply sim_update; [exact Hsim|done|done|apply Hsim|exact Ht|exact Hrel]. Qed.

(** The states of core [t]. *)
Lemma sim_lookup hs (s : conc_sys) (a : atomic_sys) t c :
  sim_holding hs s a -> locals s !! t = Some c ->
  exists afs h, locals a !! t = Some afs /\ hs !! t = Some h /\ core_rel c h afs.
Proof.
  intros Hsim Hc. pose proof (lookup_lt_Some _ _ _ Hc) as Hlt.
  destruct (lookup_lt_is_Some_2 (locals a) t) as [afs Hafs]; [by rewrite (sim_cores _ _ _ Hsim)|].
  destruct (lookup_lt_is_Some_2 hs t) as [h Hh]; [by rewrite (sim_holds _ _ _ Hsim)|].
  exists afs, h. split_and!; try done. by eapply (sim_core _ _ _ Hsim).
Qed.

(** The code that runs makes a step. *)
Lemma top_step hs (s : conc_sys) (a : atomic_sys) t rf h f af c' qs' rf' spin :
  queues_ok hs (shared s) (shared a) -> hs !! t = Some h -> top_rel rf h f af ->
  code_step (f_code f) (shared s) rf = Some (c', qs', rf', spin) ->
  exists p' aqs' hs' h', api_follows (f_code af) (shared a) p' aqs' /\ length hs' = length hs /\
    (forall t', t' <> t -> hs' !! t' = hs !! t') /\ queues_ok hs' qs' aqs' /\ hs' !! t = Some h' /\
    top_rel rf' h' (Frame c' (f_irq f)) (Frame p' (f_irq af)).
Proof.
  intros Hq Ht (Hirq & entry & Hentry & Hif & Hc) Hstep.
  destruct (code_step_sim entry t (f_code f) (f_code af) rf hs _ _ c' qs' rf' spin
    (conj Hq (ex_intro _ h (conj Ht (conj Hif Hc)))) Hstep)
    as (p' & aqs' & hs' & Hfol & Hlen & Hoth & (Hq' & h' & Ht' & Hif' & Hc') & _).
  exists p', aqs', hs', h'. do 5 (split; [done|]). split; [exact Hirq|]. exists entry. by split_and!.
Qed.

Lemma call_top_rel n op rf irq :
  (irq = true -> interrupts_enabled rf = false) ->
  top_rel rf None (Frame (impl (c_call n op)) irq) (Frame (c_call n op) irq).
Proof.
  intros Hirq. split; [done|]. exists (interrupts_enabled rf). split; [exact Hirq|]. split; [done|].
  apply impl_stands.
Qed.

(** A call returns; the one that it interrupted goes on. *)
Lemma return_core_rel rf ts irq fs h afs :
  core_rel (Core rf (Frame (Done ts) irq :: fs)) h afs ->
  exists afs', afs = Frame (ARet ts) irq :: afs' /\ h = None /\
    core_rel (Core (if irq then sti rf else rf) fs) None afs'.
Proof.
  intros Hrel. assert (Htop : forall af, top_rel rf h (Frame (Done ts) irq) af ->
    af = Frame (ARet ts) irq /\ h = None).
  { intros [p b] (Hb & entry & _ & _ & Hp & Hg). simpl in *. by simplify_eq. }
  destruct fs as [|f0 [|]], afs as [|af [|af0 [|]]]; try done; simpl in Hrel.
  - apply Htop in Hrel as [-> ->]. by exists [].
  - destruct Hrel as (Ht & Hirq & Hf0 & Haf0 & Hout). apply Htop in Ht as [-> ->].
    exists [af0]. split; [done|]. split; [done|]. simpl in Hirq. subst irq. simpl.
    split; [congruence|]. exists true. split; [congruence|]. split; [done|]. cbn [c_rflags]. by rewrite interrupts_enabled_sti.
Qed.

(** An interrupt is taken by a core that runs nothing, or a call of task code
    outside of critical sections. *)
Lemma timer_core_rel n me rf fs h afs :
  core_rel (Core rf fs) h afs -> interrupts_enabled rf = true ->
  h = None /\
  core_rel (Core (cli rf) (Frame (impl (c_call n (OpSchedule me))) true :: fs)) None
    (Frame (c_call n (OpSchedule me)) true :: afs).
Proof.
  intros Hrel He.
  assert (Htop : forall f af, top_rel rf h f af -> f_irq f = false /\ f_irq af = false /\ h = None /\
    outside true (f_code f) (f_code af)).
  { intros [c b] [p b'] (Hb & entry & Hentry & Hif & Hc). simpl in *. destruct (Hif He) as [-> ->].
    destruct b; [by specialize (Hentry eq_refl)|]. subst b'. by rewrite He in Hc. }
  assert (Hcall : top_rel (cli rf) None (Frame (impl (c_call n (OpSchedule me))) true)
    (Frame (c_call n (OpSchedule me)) true)).
  { apply call_top_rel. intros _. apply interrupts_enabled_cli. }
  destruct fs as [|f [|f0 [|]]], afs as [|af [|af0 [|]]]; simpl in Hrel; try done.
  - apply Htop in Hrel as (? & ? & ? & ?). by split_and!.
  - destruct Hrel as (Ht & Hirq & _). apply Htop in Ht as (? & _). congruence.
Qed.

(** ** The simulation *)

Lemma atomic_run_step (a : atomic_sys) t f fs p' aqs' :
  locals a !! t = Some (f :: fs) -> api_step (f_code f) (shared a) = Some (p', aqs') ->
  atomic_step a (t, EvWork) (Sys aqs' (<[t := Frame p' (f_irq f) :: fs]> (locals a))).
Proof.
  intros Ht Hstep. destruct a as [aqs afss], f as [p irq]. simpl in *.
  eapply (step_act _ _ _ _ _ ActRun); [exact Ht|]. simpl. destruct p; [done|done|..]; by rewrite Hstep.
Qed.

(** The running call returns, or makes a step. *)
Lemma run_inv me qs rf code irq fs qs' c' e :
  conc_act me ActRun qs (Core rf (Frame code irq :: fs)) = Some (qs', c', e) ->
  (exists ts, code = Done ts /\ qs' = qs /\ c' = Core (if irq then sti rf else rf) fs /\ e = EvReturn ts) \/
  (exists c1 rf1 spin, code_step code qs rf = Some (c1, qs', rf1, spin) /\
     c' = Core rf1 (Frame c1 irq :: fs) /\ e = if spin : bool then EvSpin else EvWork).
Proof.
  intros Hact.
  assert (Heq : (exists ts, code = Done ts) \/ conc_act me ActRun qs (Core rf (Frame code irq :: fs)) =
    match code_step code qs rf with
    | Some (c1, qs1, rf1, spin) => Some (qs1, Core rf1 (Frame c1 irq :: fs), if spin : bool then EvSpin else EvWork)
    | None => None
    end).
  { destruct code; first [left; eexists; reflexivity|right; reflexivity]. }
  destruct Heq as [[ts ->]|Heq].
  - left. simpl in Hact. injection Hact as <- <- <-. by exists ts.
  - right. rewrite Heq in Hact. destruct (code_step code qs rf) as [[[[c1 qs1] rf1] spin]|]; [|done].
    injection Hact as <- <- <-. by exists c1, rf1, spin.
Qed.

(** The running call of core [t] makes a step. *)
Lemma sim_run_step hs s a t c f fs afs h c' qs' rf' spin :
  sim_holding hs s a -> locals s !! t = Some c -> c_frames c = f :: fs ->
  locals a !! t = Some afs -> hs !! t = Some h -> core_rel c h afs ->
  code_step (f_code f) (shared s) (c_rflags c) = Some (c', qs', rf', spin) ->
  exists hs' a', sim_holding hs' (Sys qs' (<[t := Core rf' (Frame c' (f_irq f) :: fs)]> (locals s))) a' /\
    (forall t', t' <> t -> hs' !! t' = hs !! t') /\ (a' = a \/ atomic_step a (t, EvWork) a').
Proof.
  intros Hsim Hc Hfs Ha Hh Hrel Hstep. unfold core_rel in Hrel. rewrite Hfs in Hrel.
  assert (Htop : exists af afs', afs = af :: afs' /\ top_rel (c_rflags c) h f af /\
    forall rf1 h1 f1 af1, f_irq f1 = f_irq f -> top_rel rf1 h1 f1 af1 ->
      core_rel (Core rf1 (f1 :: fs)) h1 (af1 :: afs')).
  { destruct fs as [|f0 [|]], afs as [|af [|af0 [|]]]; try done.
    - exists af, []. split; [done|]. split; [done|]. by intros.
    - destruct Hrel as (Ht & Hirq & Hf0 & Haf0 & Hout). exists af, [af0]. split; [done|]. split; [done|].
      intros rf1 h1 f1 af1 Heq Hrel1. unfold core_rel. cbn [c_frames c_rflags]. by rewrite Heq. }
  destruct Htop as (af & afs' & -> & Htop & Hback).
  destruct (top_step hs s a t _ h f af c' qs' rf' spin (sim_queues _ _ _ Hsim) Hh Htop Hstep)
    as (p' & aqs' & hs' & h' & Hfol & Hlen & Hoth & Hq' & Hh' & Htop').
  exists hs', (Sys aqs' (<[t := Frame p' (f_irq af) :: afs']> (locals a))). split; [|split; [exact Hoth|]].
  - eapply sim_update; [exact Hsim|exact Hlen|exact Hoth|exact Hq'|exact Hh'|]. by apply Hback.
  - destruct Hfol as [[-> ->]|Hfol]; [left|right; by apply atomic_run_step].
    destruct a as [aqs afss], af as [p irq]. simpl in *. by rewrite list_insert_id.
Qed.

(** A step of core [t] concerns what [t] holds only. *)
Lemma sim_holding_step hs s a t e s' :
  sim_holding hs s a -> conc_step s (t, e) s' ->
  exists hs' a', sim_holding hs' s' a' /\ (forall t', t' <> t -> hs' !! t' = hs !! t') /\ matches a t e a'.
Proof.
  intros Hsim Hstep. apply step_inv in Hstep as (c & act & qs' & c' & Hc & Hact & ->).
  destruct (sim_lookup hs s a t c Hsim Hc) as (afs & h & Ha & Hh & Hrel).
  destruct a as [aqs afss]. destruct c as [rf fs]. simpl in Ha.
  pose proof (qo_length _ _ _ (sim_queues _ _ _ Hsim)) as Hn. simpl in Hn.
  destruct act; simpl in Hact.
  - destruct fs as [|]; [|done]. simplify_eq. destruct afs as [|]; [|done]. unfold core_rel in Hrel; simpl in Hrel. subst h.
    exists hs, (Sys aqs (<[t := [Frame (c_call (length (shared s)) op) false]]> afss)).
    split; [eapply (sim_local hs s _ (Sys aqs afss)); [exact Hsim|exact Hh|]|split; [done|]].
    + by apply (call_top_rel (length (shared s)) op rf false).
    + eapply (step_act _ _ _ _ _ (ActCall op)); [exact Ha|]. simpl. by rewrite Hn.
  - destruct (interrupts_enabled rf) eqn:He; [|done]. simplify_eq.
    destruct (timer_core_rel (length (shared s)) t _ _ _ _ Hrel He) as [-> Hrel'].
    eexists hs, _. split; [eapply (sim_local hs s _ (Sys aqs afss)); [exact Hsim|exact Hh|exact Hrel']|split; [done|]].
    eapply (step_act _ _ _ _ _ ActTimer); [exact Ha|]. simpl. by rewrite Hn.
  - destruct fs as [|[code irq] fs]; [done|].
    destruct (run_inv t _ _ _ _ _ _ _ _ Hact)
      as [(ts & -> & -> & -> & ->)|(c1 & rf1 & spin & Hcs & -> & ->)].
    + destruct (return_core_rel _ _ _ _ _ _ Hrel) as (afs' & -> & -> & Hrel').
      eexists hs, _. split; [eapply (sim_local hs s _ (Sys aqs afss)); [exact Hsim|exact Hh|exact Hrel']|split; [done|]].
      by eapply (step_act _ _ _ _ _ ActRun).
    + destruct (sim_run_step hs s (Sys aqs afss) t (Core rf (Frame code irq :: fs)) (Frame code irq) fs afs h
        c1 qs' rf1 spin Hsim Hc eq_refl Ha Hh Hrel Hcs) as (hs' & a' & Hsim' & Hoth & Hm).
      exists hs', a'. split; [exact Hsim'|]. split; [exact Hoth|]. by destruct spin.
  - destruct fs as [|[code irq] fs]; [done|]. destruct code; simplify_eq.
    exists hs, (Sys aqs afss). split; [|split; [done|by left]]. destruct s as [qs cores]. simpl in *.
    by rewrite list_insert_id.
  - destruct fs as [|]; [|done]. simplify_eq. exists hs, (Sys aqs afss). split; [|split; [done|by left]].
    destruct afs as [|]; [|done]. unfold core_rel in Hrel; simpl in Hrel. subst h.
    pose proof (sim_local hs s (Core (if b then sti rf else cli rf) []) (Sys aqs afss) [] None t Hsim Hh eq_refl) as Hs.
    simpl in Hs. by rewrite (list_insert_id afss) in Hs.
Qed.

Lemma sim_step s a t e s' :
  sim s a -> conc_step s (t, e) s' -> exists a', sim s' a' /\ matches a t e a'.
Proof.
  intros [hs Hsim] Hstep. destruct (sim_holding_step hs s a t e s' Hsim Hstep) as (hs' & a' & Hsim' & _ & Hm).
  exists a'. split; [by exists hs'|done].
Qed.
