(* ===== verification/SchedAlone.v ===== *)
(** * SchedAlone: a call of the scheduler with no other core at work
    (src/src/scheduler.rs, [impl Scheduler] and [impl RunQueue])

    Scheduler defines the methods as functions on the whole state; SchedCode
    defines them as the code that the cores execute. Here the two are proved
    equivalent: the atomic operations of a call, executed one after the other,
    give the result and the queues that Scheduler says, and leave the interrupt
    flag as it was. *)

From S2P Require Import Prelude Threads Task RunQueue Scheduler SpinLock SchedCode.

(** ** Executions of one program alone *)

(** A queue that nobody uses. *)
Definition free_queue (a : run_queue) : cqueue := CQueue (sl_new (rq_queue a)) (rq_len a).

(** The next operation, when it is not a failed exchange. *)
Definition alone {A} (x y : code A * list cqueue * Z) : Prop :=
  let '(c, qs, rf) := x in let '(c', qs', rf') := y in code_step c qs rf = Some (c', qs', rf', false).

Definition api_alone {A} (x y : api A * list run_queue) : Prop := api_step (fst x) (snd x) = Some y.

(** ** Proofs: operations of run queues *)

Section operations.
Context {A : Type}.
Implicit Types (qs : list run_queue) (a : run_queue) (c : code A).

(** The queue [i] is locked, with [data] in it. *)
Definition busy qs (i : nat) (data : list task) (len : Z) : list cqueue :=
  <[i := CQueue (SpinLock true data) len]> (map free_queue qs).

Lemma free_lookup qs i a : qs !! i = Some a -> map free_queue qs !! i = Some (free_queue a).
Proof. intros Hi. change (map free_queue qs) with (free_queue <$> qs). by rewrite list_lookup_fmap, Hi. Qed.

Lemma busy_lookup qs i a data len :
  qs !! i = Some a -> busy qs i data len !! i = Some (CQueue (SpinLock true data) len).
Proof. intros Hi%free_lookup. apply list_lookup_insert_eq. by eapply lookup_lt_Some. Qed.

Lemma busy_change qs i data len data' len' :
  <[i := CQueue (SpinLock true data') len']> (busy qs i data len) = busy qs i data' len'.
Proof. apply list_insert_insert_eq. Qed.

Lemma busy_free qs i data len a' :
  <[i := free_queue a']> (busy qs i data len) = map free_queue (<[i := a']> qs).
Proof. unfold busy. by rewrite list_insert_insert_eq, <-(list_fmap_insert free_queue). Qed.

Lemma alone_l c (cqs : list cqueue) rf c' cqs' rf' z :
  code_step c cqs rf = Some (c', cqs', rf', false) -> rtc alone (c', cqs', rf') z -> rtc alone (c, cqs, rf) z.
Proof. intros Hs. by apply rtc_l. Qed.

Lemma alone_lock qs i a rf (f : bool -> code A) :
  qs !! i = Some a ->
  rtc alone (q_lock i ≫= f, map free_queue qs, rf)
    (f (interrupts_enabled rf), busy qs i (rq_queue a) (rq_len a), cli rf).
Proof.
  intros Hi. do 2 (eapply alone_l; [exact eq_refl|]). eapply alone_l; [|apply rtc_refl].
  cbn. rewrite (free_lookup qs i a Hi). exact eq_refl.
Qed.

Lemma restore_flags rf : (if interrupts_enabled rf then sti (cli rf) else cli rf) = rf.
Proof.
  rewrite interrupts_enabled_testbit. unfold sti, cli. apply Z.bits_inj'. intros k Hk.
  destruct (Z.testbit rf 9) eqn:Hb; rewrite ?Z.setbit_eqb, ?Z.clearbit_eqb by lia;
    destruct (Z.eqb_spec 9 k) as [<-|]; rewrite ?Hb; simpl; by rewrite ?andb_true_r, ?andb_false_r.
Qed.

Lemma alone_unlock qs i a a' rf (c K : code A) :
  qs !! i = Some a -> K = (if interrupts_enabled rf then Sti c else c) ->
  rtc alone (Unlock i K, busy qs i (rq_queue a') (rq_len a'), cli rf) (c, map free_queue (<[i := a']> qs), rf).
Proof.
  intros Hi ->. eapply alone_l.
  { cbn. rewrite (busy_lookup qs i a) by done. cbn. rewrite (busy_free qs i _ _ a'). exact eq_refl. }
  pose proof (restore_flags rf) as Hrf. destruct (interrupts_enabled rf).
  - eapply alone_l; [exact eq_refl|]. rewrite Hrf. apply rtc_refl.
  - rewrite Hrf. apply rtc_refl.
Qed.
End operations.

(** *** The operations of a run queue *)

Section methods.
Context {A : Type}.
Implicit Types (qs : list run_queue) (a : run_queue).

(** An operation through the guard, in the critical section. *)
Ltac guarded_step :=
  eapply alone_l; [cbn -[Nat.div]; erewrite busy_lookup by eassumption; cbn -[Nat.div];
    unfold sl_deref_mut, sl_deref; cbn -[Nat.div];
    rewrite busy_change; exact eq_refl|].

(** The end of the critical section, with the queue as it is left. *)
Ltac release a' :=
  refine (alone_unlock _ _ _ a' _ _ _ _ _); [eassumption|by destruct (interrupts_enabled _)].

Lemma alone_push qs i a t (c : code A) rf :
  qs !! i = Some a ->
  rtc alone (q_push i t;; c, map free_queue qs, rf) (c, map free_queue (<[i := rq_push t a]> qs), rf).
Proof.
  intros Hi. etrans; [exact (alone_lock qs i a rf _ Hi)|]. do 2 guarded_step.
  release (rq_push t a).
Qed.

Lemma alone_pop qs i a (k : option task -> code A) rf :
  qs !! i = Some a ->
  rtc alone (q_pop i ≫= k, map free_queue qs, rf)
    (k (fst (rq_pop a)), map free_queue (<[i := snd (rq_pop a)]> qs), rf).
Proof.
  intros Hi. etrans; [exact (alone_lock qs i a rf _ Hi)|]. unfold rq_pop.
  destruct (rq_queue a) as [|t ts] eqn:Hq; cbn [fst snd].
  - guarded_step. rewrite <-Hq. release a.
  - do 2 guarded_step. release (RunQueue (rq_core_id a) ts (wrap 64 (rq_len a - 1))).
Qed.

Lemma alone_steal_loop {B} qs i a m data stolen len (F : list task -> code B) (k : B -> code A) rf :
  qs !! i = Some a ->
  let '(stolen', data') := steal_loop m data stolen in
  rtc alone ((q_steal_loop i m stolen ≫= F) ≫= k, busy qs i data len, rf)
    (F stolen' ≫= k, busy qs i data' len, rf).
Proof.
  intros Hi. revert data stolen. induction m as [|m IH]; intros data stolen; simpl steal_loop; [apply rtc_refl|].
  destruct (pop_back data) as [[t data1]|] eqn:Hpop.
  - specialize (IH data1 (stolen ++ [t])). destruct (steal_loop m data1 _).
    eapply alone_l; [|exact IH]. cbn. erewrite busy_lookup by eassumption. cbn.
    unfold sl_deref_mut, sl_deref. cbn. rewrite Hpop, busy_change. exact eq_refl.
  - specialize (IH data stolen). destruct (steal_loop m data _).
    eapply alone_l; [|exact IH]. cbn. erewrite busy_lookup by eassumption. cbn.
    unfold sl_deref_mut, sl_deref. cbn. rewrite Hpop, busy_change. exact eq_refl.
Qed.

Lemma alone_steal qs i a (k : list task -> code A) rf :
  qs !! i = Some a ->
  rtc alone (q_steal_half i ≫= k, map free_queue qs, rf)
    (k (fst (rq_steal_half a)), map free_queue (<[i := snd (rq_steal_half a)]> qs), rf).
Proof.
  intros Hi. etrans; [exact (alone_lock qs i a rf _ Hi)|]. guarded_step. unfold rq_steal_half.
  destruct (length (rq_queue a) / 2 =? 0)%nat.
  - release a.
  - pose proof (alone_steal_loop qs i a (length (rq_queue a) / 2) (rq_queue a) [] (rq_len a)
      (fun stolen => AddLen i (- Z.of_nat (length stolen)) (q_unlock i (interrupts_enabled rf);; mret stolen))
      k (cli rf) Hi) as Hloop.
    destruct (steal_loop _ (rq_queue a) []) as [stolen data]. etrans; [exact Hloop|]. guarded_step.
    release (RunQueue (rq_core_id a) data (wrap 64 (rq_len a - Z.of_nat (length stolen)))).
Qed.

(** The code of a program makes the program's next operation. *)
Lemma impl_step (p p' : api A) qs qs' rf :
  api_step p qs = Some (p', qs') ->
  rtc alone (impl p, map free_queue qs, rf) (impl p', map free_queue qs', rf).
Proof.
  intros Hstep. destruct p as [x| |i k|i t k|i k|i k]; simpl in Hstep; try done;
    destruct (qs !! i) as [a|] eqn:Hi; try done; simpl in Hstep.
  - injection Hstep as <- <-. eapply alone_l; [|apply rtc_refl].
    cbn. rewrite (free_lookup qs i a Hi). exact eq_refl.
  - injection Hstep as <- <-. exact (alone_push qs i a t (impl k) rf Hi).
  - pose proof (alone_pop qs i a (fun r => impl (k r)) rf Hi) as Hp.
    destruct (rq_pop a) as [r a']. injection Hstep as <- <-. exact Hp.
  - pose proof (alone_steal qs i a (fun r => impl (k r)) rf Hi) as Hp.
    destruct (rq_steal_half a) as [r a']. injection Hstep as <- <-. exact Hp.
Qed.

Lemma impl_alone (p p' : api A) qs qs' rf :
  rtc api_alone (p, qs) (p', qs') ->
  rtc alone (impl p, map free_queue qs, rf) (impl p', map free_queue qs', rf).
Proof.
  remember (p, qs) as x eqn:Hx. remember (p', qs') as y eqn:Hy. intros Hr. revert p qs Hx.
  induction Hr as [x|x [p1 qs1] y Hs Hr IH]; intros p qs ->; [injection Hy as <- <-; apply rtc_refl|].
  etrans; [apply impl_step; exact Hs|]. by apply IH.
Qed.
End methods.

(** ** Proofs: the methods of the scheduler *)

(** What a program that runs alone on [qs] returns, and the queues it leaves. *)
Definition api_returns {A} (p : api A) (qs : list run_queue) (r : res (A * list run_queue)) : Prop :=
  match r with
  | Ok (x, qs') => rtc api_alone (p, qs) (ARet x, qs')
  | Panic => exists qs', rtc api_alone (p, qs) (APanic, qs')
  | OutOfFuel => False
  end.

Section returns.
Context {A B : Type}.
Implicit Types (p : api A) (f : A -> api B) (qs : list run_queue).

Lemma api_step_bind p p' f qs qs' :
  api_step p qs = Some (p', qs') -> api_step (p ≫= f) qs = Some (p' ≫= f, qs').
Proof.
  intros Hs. destruct p as [x| |i k|i t k|i k|i k]; simpl in Hs; try done;
    destruct (qs !! i) as [a|] eqn:Hi; try done; simpl in Hs; cbn; rewrite Hi; cbn.
  - by injection Hs as <- <-.
  - by injection Hs as <- <-.
  - destruct (rq_pop a). by injection Hs as <- <-.
  - destruct (rq_steal_half a). by injection Hs as <- <-.
Qed.

Lemma api_alone_bind p p' f qs qs' :
  rtc api_alone (p, qs) (p', qs') -> rtc api_alone (p ≫= f, qs) (p' ≫= f, qs').
Proof.
  remember (p, qs) as x eqn:Hx. remember (p', qs') as y eqn:Hy. intros Hr. revert p qs Hx.
  induction Hr as [x|x [p1 qs1] y Hs Hr IH]; intros p qs ->; [injection Hy as <- <-; apply rtc_refl|].
  eapply rtc_l; [exact (api_step_bind _ _ f _ _ Hs)|]. by apply IH.
Qed.

Lemma returns_bind p f qs x qs' r :
  api_returns p qs (Ok (x, qs')) -> api_returns (f x) qs' r -> api_returns (p ≫= f) qs r.
Proof.
  intros Hp Hf. apply (api_alone_bind _ _ f) in Hp. destruct r as [[y qs2]| |]; [..|done].
  - unfold api_returns in Hf |- *. etrans; [exact Hp|exact Hf].
  - destruct Hf as [qs2 Hf]. exists qs2. unfold api_returns in Hf |- *. etrans; [exact Hp|exact Hf].
Qed.

Lemma returns_bind_panic p f qs : api_returns p qs Panic -> api_returns (p ≫= f) qs Panic.
Proof. intros [qs' Hp]. exists qs'. exact (api_alone_bind _ _ f _ _ Hp). Qed.

Lemma returns_step p p' qs qs' r :
  api_step p qs = Some (p', qs') -> api_returns p' qs' r -> api_returns p qs r.
Proof.
  intros Hs Hp. destruct r as [[x qs2]| |]; [..|done].
  - eapply rtc_l; [exact Hs|exact Hp].
  - destruct Hp as [qs2 Hp]. exists qs2. eapply rtc_l; [exact Hs|exact Hp].
Qed.
End returns.

Section scheduler.
Implicit Types (s : scheduler run_queue).

(** The program stands for a method that makes [r] of the scheduler. *)
Definition runs_as {A} (p : api A) s (r : res (A * scheduler run_queue)) : Prop :=
  api_returns p (run_queues s) ('(x, s') ← r; mret (x, run_queues s')) /\
  forall x s', r = Ok (x, s') -> num_cores s' = num_cores s /\ length (run_queues s') = length (run_queues s).

Lemma runs_ret {A} (x : A) s : runs_as (mret x) s (Ok (x, s)).
Proof. split; [apply rtc_refl|]. by intros x' s' [= <- <-]. Qed.

Lemma runs_bind {A B} (p : api A) (f : A -> api B) s x s' r :
  runs_as p s (Ok (x, s')) -> runs_as (f x) s' r -> runs_as (p ≫= f) s r.
Proof.
  intros [Hp Hlen] [Hf Hlen']. split; [by eapply returns_bind|].
  intros y s2 Hy. destruct (Hlen x s' eq_refl) as [<- <-]. by apply (Hlen' y).
Qed.

Lemma runs_bind_panic {A B} (p : api A) (f : A -> api B) s : runs_as p s Panic -> runs_as (p ≫= f) s Panic.
Proof. intros [Hp _]. split; [by apply returns_bind_panic|done]. Qed.

Lemma runs_index_queue s core :
  let p := c_index (length (run_queues s)) core in
  (exists q, run_queues s !! Z.to_nat core = Some q /\ index_queue s core = Ok q /\
     runs_as p s (Ok (Z.to_nat core, s))) \/
  (index_queue s core = Panic /\ runs_as p s Panic).
Proof.
  unfold c_index, index_queue. destruct (Nat.ltb_spec (Z.to_nat core) (length (run_queues s))) as [Hlt|Hge].
  - left. apply lookup_lt_is_Some_2 in Hlt as [q Hq]. exists q. rewrite Hq. do 2 (split; [done|]). apply runs_ret.
  - right. rewrite lookup_ge_None_2 by done. split; [done|]. split; [|done]. eexists. apply rtc_refl.
Qed.

(** One operation on the queue of a core. *)
Lemma runs_step {A} (p p' : api A) s core q q' r :
  run_queues s !! Z.to_nat core = Some q ->
  api_step p (run_queues s) = Some (p', <[Z.to_nat core := q']> (run_queues s)) ->
  runs_as p' (set_queue s core q') r -> runs_as p s r.
Proof.
  intros Hq Hs [Hp Hlen]. split; [by eapply returns_step|].
  intros x s' Hr. destruct (Hlen x s' Hr) as [-> ->]. simpl. by rewrite length_insert.
Qed.

Lemma runs_push s n core t :
  n = length (run_queues s) -> runs_as (c_push n core t) s (s' ← push_to s core t; mret (tt, s')).
Proof.
  intros ->. unfold c_push, push_to.
  destruct (runs_index_queue s core) as [(q & Hq & -> & Hidx)|[-> Hidx]]; [|by apply runs_bind_panic].
  eapply runs_bind; [exact Hidx|]. eapply runs_step; [exact Hq| |apply runs_ret]. simpl. by rewrite Hq.
Qed.

Lemma runs_push_all s core ts :
  run_queues s !! Z.to_nat core <> None ->
  runs_as (c_push_all (Z.to_nat core) ts) s (s' ← push_all s core ts; mret (tt, s')).
Proof.
  revert s. induction ts as [|t ts IH]; intros s Hs; [apply runs_ret|].
  destruct (run_queues s !! Z.to_nat core) as [q|] eqn:Hq; [|done].
  simpl push_all. unfold push_to, index_queue. rewrite Hq. cbn [mbind res_bind mret res_ret].
  eapply runs_step; [exact Hq|simpl; by rewrite Hq|]. apply IH.
  simpl. by rewrite list_lookup_insert_eq by (by eapply lookup_lt_Some).
Qed.

(** The load of a counter. *)
Lemma runs_load {A} s j q (k : Z -> api A) r :
  run_queues s !! j = Some q -> runs_as (k (rq_len q)) s r -> runs_as (ALen j k) s r.
Proof.
  intros Hq [Hp Hlen]. split; [|exact Hlen]. eapply returns_step; [|exact Hp]. simpl. by rewrite Hq.
Qed.

(** The two searches. *)
Lemma runs_least_loaded_loop s i qs js ml mc :
  Forall2 (fun j q => run_queues s !! j = Some q) js qs ->
  runs_as (c_least_loaded_loop i js ml mc) s (Ok (least_loaded_loop i qs ml mc, s)).
Proof.
  intros Hqs. revert i ml mc. induction Hqs as [|j q js qs Hq Hqs IH]; intros i ml mc; [apply runs_ret|].
  apply (runs_load _ _ _ _ _ Hq). simpl. destruct (rq_len q <? ml); apply IH.
Qed.

Lemma runs_busiest_loop s exclude i qs js ml mc :
  Forall2 (fun j q => run_queues s !! j = Some q) js qs ->
  runs_as (c_busiest_loop exclude i js ml mc) s (Ok (busiest_loop exclude i qs ml mc, s)).
Proof.
  intros Hqs. revert i ml mc. induction Hqs as [|j q js qs Hq Hqs IH]; intros i ml mc; [apply runs_ret|].
  cbn [c_busiest_loop busiest_loop]. destruct (wrap 32 i =? exclude); [apply IH|].
  apply (runs_load _ _ _ _ _ Hq). simpl. destruct (ml <? rq_len q); apply IH.
Qed.

Lemma queues_numbered s : Forall2 (fun j q => run_queues s !! j = Some q) (seq 0 (length (run_queues s))) (run_queues s).
Proof.
  apply Forall2_same_length_lookup_2; [by rewrite length_seq|]. intros i j q Hj Hq.
  apply lookup_seq in Hj as [-> _]. done.
Qed.

Lemma runs_least_loaded s n :
  n = length (run_queues s) -> runs_as (c_least_loaded_core n) s (Ok (least_loaded_core s, s)).
Proof. intros ->. apply runs_least_loaded_loop, queues_numbered. Qed.

Lemma runs_busiest s n exclude :
  n = length (run_queues s) -> runs_as (c_busiest_core n exclude) s (Ok (busiest_core s exclude, s)).
Proof. intros ->. apply runs_busiest_loop, queues_numbered. Qed.

Lemma runs_spawn s n t :
  n = length (run_queues s) -> runs_as (c_spawn n t) s (s' ← spawn s t; mret (tt, s')).
Proof.
  intros Hn. unfold c_spawn, spawn. destruct (task_affinity t) as [c|].
  - exact (runs_push s n c t Hn).
  - eapply runs_bind; [by apply runs_least_loaded|]. by apply runs_push.
Qed.

Lemma runs_spawn_on_core s n core t :
  n = length (run_queues s) -> num_cores s = Z.of_nat n ->
  runs_as (c_spawn_on_core n core t) s (s' ← spawn_on_core s core t; mret (tt, s')).
Proof.
  intros Hn Hc. unfold c_spawn_on_core, spawn_on_core. rewrite Hc.
  destruct (core <? Z.of_nat n); [by apply runs_push|]. split; [|done]. eexists. apply rtc_refl.
Qed.

(** What [schedule] does with the tasks it stole. *)
Lemma runs_stolen s core (stolen : list task) :
  run_queues s !! Z.to_nat core <> None ->
  runs_as (match stolen with
           | first :: rest => c_push_all (Z.to_nat core) rest;; mret (Some first)
           | [] => mret None
           end) s
    (match stolen with
     | first :: rest => s3 ← push_all s core rest; Ok (Some first, s3)
     | [] => Ok (None, s)
     end).
Proof.
  intros Hs. destruct stolen as [|first rest]; [apply runs_ret|].
  pose proof (runs_push_all s core rest Hs) as Hp. destruct (push_all s core rest) as [s3| |].
  - eapply runs_bind; [exact Hp|apply runs_ret].
  - by apply runs_bind_panic.
  - by destruct Hp.
Qed.

Lemma runs_schedule s n core :
  n = length (run_queues s) -> runs_as (c_schedule n core) s (schedule s core).
Proof.
  intros ->. unfold c_schedule, schedule.
  destruct (runs_index_queue s core) as [(q & Hq & -> & Hidx)|[-> Hidx]]; [|by apply runs_bind_panic].
  eapply runs_bind; [exact Hidx|].
  cbn [mbind res_bind tq_pop run_queue_ops]. destruct (rq_pop q) as [own q'] eqn:Hpop.
  eapply runs_step; [exact Hq|cbn [api_step]; rewrite Hq; cbn [mbind option_bind]; by rewrite Hpop|].
  destruct own as [t|]; [apply runs_ret|].
  set (s1 := set_queue s core q'). assert (Hn1 : length (run_queues s) = length (run_queues s1)).
  { symmetry. apply length_insert. }
  rewrite Hn1. eapply runs_bind; [by apply runs_busiest|].
  destruct (busiest_core s1 core) as [victim|]; [|apply runs_ret].
  destruct (runs_index_queue s1 victim) as [(vq & Hvq & -> & Hv)|[-> Hv]]; [|by apply runs_bind_panic].
  eapply runs_bind; [exact Hv|].
  cbn [mbind res_bind tq_steal_half run_queue_ops]. destruct (rq_steal_half vq) as [stolen vq'] eqn:Hst.
  eapply runs_step; [exact Hvq|cbn [api_step]; rewrite Hvq; cbn [mbind option_bind]; by rewrite Hst|].
  apply runs_stolen.
  apply not_eq_None_Some, lookup_lt_is_Some_2. simpl. rewrite !length_insert. by eapply lookup_lt_Some.
Qed.

Lemma runs_call s n op :
  n = length (run_queues s) -> num_cores s = Z.of_nat n -> runs_as (c_call n op) s (sched_exec s op).
Proof.
  assert (Hunit : forall p r, runs_as p s (s' ← r; mret (tt, s')) ->
    runs_as (p;; mret (@nil task)) s (s' ← r; mret ([], s'))).
  { intros p [s'| |] Hp; [|by apply runs_bind_panic|by destruct Hp].
    eapply runs_bind; [exact Hp|apply runs_ret]. }
  assert (Hsched : forall c, n = length (run_queues s) ->
    runs_as (r ← c_schedule n c; mret (option_list r)) s ('(r, s') ← schedule s c; mret (option_list r, s'))).
  { intros c Hn. pose proof (runs_schedule s n c Hn) as Hp. destruct (schedule s c) as [[r s']| |].
    - eapply runs_bind; [exact Hp|apply runs_ret].
    - by apply runs_bind_panic.
    - by destruct Hp. }
  intros Hn Hc. destruct op as [t|c t|c|c|t c|c t].
  - by apply Hunit, runs_spawn.
  - by apply Hunit, runs_spawn_on_core.
  - by apply Hsched.
  - by apply Hsched.
  - by apply Hunit, runs_push.
  - by apply Hunit, runs_push.
Qed.
End scheduler.

(** ** Properties *)

(** C4: one definition for two: the code of any call of the scheduler - the atomic
    operations that [SpinLock] and [RunQueue] make of it - executed while no other
    core is at work gives the result and the queues of the function in Scheduler,
    with every lock free and the interrupt flag as before; and it panics exactly
    where the function does. *)
Theorem code_alone_is_scheduler (s : scheduler run_queue) op rf :
  num_cores s = Z.of_nat (length (run_queues s)) ->
  let start := (impl (c_call (length (run_queues s)) op), map free_queue (run_queues s), rf) in
  match sched_exec s op with
  | Ok (ts, s') => rtc alone start (Done ts, map free_queue (run_queues s'), rf)
  | Panic => exists qs, rtc alone start (Crash, map free_queue qs, rf)
  | OutOfFuel => False
  end.
Proof.
  intros Hc start. destruct (runs_call s _ op eq_refl Hc) as [Hr _].
  destruct (sched_exec s op) as [[ts s']| |]; simpl in Hr.
  - apply (impl_alone _ _ _ _ rf Hr).
  - destruct Hr as [qs Hr]. exists qs. apply (impl_alone _ _ _ _ rf Hr).
  - done.
Qed.

(** ** Witness *)

(** Core 0, with interrupts enabled, steals from core 1. *)
Lemma code_alone_is_scheduler_witness :
  rtc alone (impl (c_call 2 (OpSchedule 0)), map free_queue (run_queues demo_scheduler), 512)
    (Done [demo_queue_task 3],
     map free_queue [RunQueue 0 [] 0; RunQueue 1 [demo_queue_task 1; demo_queue_task 2] 2], 512).
Proof. exact (code_alone_is_scheduler demo_scheduler (OpSchedule 0) 512 eq_refl). Defined.
