(* ===== verification/SchedTasks.v ===== *)
(** * SchedTasks: the scheduler's programs neither lose nor duplicate tasks
    (src/src/scheduler.rs, [impl Scheduler])

    Every method of SchedCode, as a program over run queues, ends without a panic
    and with exactly the tasks it has in hand, whatever the other cores do
    ([handles]); an invariant of the executions of [atomic_act] follows: a task
    handed in is returned, queued or in the hands of one call. *)

From stdpp Require Import strings.
From S2P Require Import Prelude Threads Task RunQueue Scheduler SpinLock SchedCode SchedRefine.

(** ** Specification: what a program does with the tasks *)

(** A program over [n] queues that starts with the tasks [hand] in hand, does not
    panic whatever the other cores do, and ends with a result and tasks in hand
    that satisfy [post]. *)
Fixpoint handles {A} (n : nat) (p : api A) (hand : list task) (post : A -> list task -> Prop) : Prop :=
  match p with
  | ARet x => post x hand
  | APanic => False
  | ALen i k => (i < n)%nat /\ forall v, handles n (k v) hand post
  | APush i t k => (i < n)%nat /\ exists hand', hand ≡ₚ t :: hand' /\ handles n k hand' post
  | APop i k => (i < n)%nat /\ forall r, handles n (k r) (option_list r ++ hand) post
  | ASteal i k => (i < n)%nat /\ forall ts, handles n (k ts) (ts ++ hand) post
  end.

(** A call returns exactly the tasks it has in hand. *)
Definition returns_hand (ts hand : list task) : Prop := ts ≡ₚ hand.

(** ** Proofs: the methods *)

Section methods.
Context (n : nat).

Lemma handles_bind {A B} (p : api A) (f : A -> api B) hand post :
  handles n p hand (fun x hand' => handles n (f x) hand' post) -> handles n (p ≫= f) hand post.
Proof.
  revert hand. induction p as [x| |i k IH|i t k IH|i k IH|i k IH]; intros hand Hp.
  - done.
  - done.
  - destruct Hp as [Hi Hp]. split; [done|]. intros v. apply IH, Hp.
  - destruct Hp as (Hi & hand' & Heq & Hp). split; [done|]. exists hand'. split; [done|]. by apply IH.
  - destruct Hp as [Hi Hp]. split; [done|]. intros r. apply IH, Hp.
  - destruct Hp as [Hi Hp]. split; [done|]. intros ts. apply IH, Hp.
Qed.

Lemma handles_weaken {A} (p : api A) hand (post1 post2 : A -> list task -> Prop) :
  handles n p hand post1 -> (forall x h, post1 x h -> post2 x h) -> handles n p hand post2.
Proof.
  intros Hp Hpost. revert hand Hp.
  induction p as [x| |i k IH|i t k IH|i k IH|i k IH]; intros hand Hp; simpl in *.
  - by apply Hpost.
  - done.
  - destruct Hp as [Hi Hp]. eauto.
  - destruct Hp as (Hi & hand' & Heq & Hp). eauto.
  - destruct Hp as [Hi Hp]. eauto.
  - destruct Hp as [Hi Hp]. eauto.
Qed.

Lemma index_handles core hand post :
  (Z.to_nat core < n)%nat -> post (Z.to_nat core) hand -> handles n (c_index n core) hand post.
Proof. intros Hc Hp. unfold c_index. by destruct (Nat.ltb_spec (Z.to_nat core) n); [|lia]. Qed.

Lemma push_handles core t : (Z.to_nat core < n)%nat -> handles n (c_push n core t) [t] (fun _ hand => hand = []).
Proof.
  intros Hc. apply handles_bind, index_handles; [done|]. split; [done|]. by exists [].
Qed.

Lemma least_loaded_handles i qs ml mc hand :
  0 <= i -> i + Z.of_nat (length qs) <= Z.of_nat n -> Z.of_nat n < 2 ^ 32 -> 0 <= mc < Z.of_nat n ->
  Forall (fun q => q < n)%nat qs ->
  handles n (c_least_loaded_loop i qs ml mc) hand (fun c hand' => hand' = hand /\ 0 <= c < Z.of_nat n).
Proof.
  intros Hi Hlen Hn Hmc Hqs. revert i ml mc Hi Hlen Hmc.
  induction Hqs as [|q qs Hq Hqs IH]; intros i ml mc Hi Hlen Hmc; [done|].
  simpl length in Hlen. split; [done|]. intros v.
  destruct (v <? ml); apply IH; try lia. rewrite wrap_small by (unfold in_range; lia). lia.
Qed.

Lemma busiest_handles exclude i qs ml mc hand :
  0 <= i -> i + Z.of_nat (length qs) <= Z.of_nat n -> Z.of_nat n < 2 ^ 32 ->
  (forall v, mc = Some v -> 0 <= v < Z.of_nat n) -> Forall (fun q => q < n)%nat qs ->
  handles n (c_busiest_loop exclude i qs ml mc) hand
    (fun r hand' => hand' = hand /\ forall v, r = Some v -> 0 <= v < Z.of_nat n).
Proof.
  intros Hi Hlen Hn Hmc Hqs. revert i ml mc Hi Hlen Hmc.
  induction Hqs as [|q qs Hq Hqs IH]; intros i ml mc Hi Hlen Hmc; [done|].
  simpl length in Hlen. cbn [c_busiest_loop]. destruct (wrap 32 i =? exclude); [apply IH; lia || done|].
  split; [done|]. intros v. destruct (ml <? v); apply IH; try lia; [|done].
  intros v' [= <-]. rewrite wrap_small by (unfold in_range; lia). lia.
Qed.

Lemma seq_below : Forall (fun q => q < n)%nat (seq 0 n).
Proof. apply Forall_forall. intros q Hq. apply elem_of_seq in Hq. lia. Qed.

Lemma push_all_handles i ts hand rest :
  (i < n)%nat -> hand ≡ₚ ts ++ rest -> handles n (c_push_all i ts) hand (fun _ hand' => hand' ≡ₚ rest).
Proof.
  intros Hi. revert hand. induction ts as [|t ts IH]; intros hand Hh; [done|].
  split; [done|]. exists (ts ++ rest). split; [done|]. by apply IH.
Qed.

Lemma spawn_handles t :
  Z.of_nat n < 2 ^ 32 -> (0 < n)%nat ->
  (match task_affinity t with Some a => 0 <= a < Z.of_nat n | None => True end) ->
  handles n (c_spawn n t) [t] (fun _ hand => hand = []).
Proof.
  intros Hn Hpos Ha. unfold c_spawn. apply handles_bind. destruct (task_affinity t) as [a|].
  - apply push_handles. lia.
  - eapply handles_weaken.
    + unfold c_least_loaded_core. apply least_loaded_handles; rewrite ?length_seq; try lia.
      apply seq_below.
    + intros c hand [-> Hc]. apply push_handles. lia.
Qed.

Lemma schedule_handles c :
  Z.of_nat n < 2 ^ 32 -> (c < n)%nat ->
  handles n (c_schedule n (Z.of_nat c)) [] (fun r hand => option_list r ≡ₚ hand).
Proof.
  intros Hn Hc. unfold c_schedule. apply handles_bind, index_handles; [lia|]. rewrite Nat2Z.id.
  split; [done|]. intros [t|]; [exact (Permutation_refl [t])|]. simpl app. apply handles_bind. eapply handles_weaken.
  - unfold c_busiest_core. apply busiest_handles; rewrite ?length_seq; try lia; [done|apply seq_below].
  - intros [v|] hand [-> Hv]; [|exact (Permutation_refl [])]. specialize (Hv v eq_refl).
    apply handles_bind, index_handles; [lia|]. split; [lia|]. intros [|first rest]; [exact (Permutation_refl [])|].
    apply handles_bind. eapply handles_weaken; [apply (push_all_handles _ _ _ [first]); [done|]|].
    + rewrite app_nil_r. apply Permutation_cons_append.
    + intros u hand Hh. exact (Permutation_sym Hh).
Qed.

Lemma call_handles op :
  Z.of_nat n < 2 ^ 32 -> (0 < n)%nat -> op_valid n op -> handles n (c_call n op) (op_input op) returns_hand.
Proof.
  intros Hn Hpos Hv. destruct op as [t|c t|c|c|t c|c t]; simpl in Hv; apply handles_bind.
  - eapply handles_weaken; [by apply spawn_handles|]. intros _ hand ->. exact (Permutation_refl []).
  - unfold c_spawn_on_core. destruct (Z.ltb_spec (Z.of_nat c) (Z.of_nat n)); [|lia].
    eapply handles_weaken; [apply push_handles; lia|]. intros _ hand ->. exact (Permutation_refl []).
  - eapply handles_weaken; [by apply schedule_handles|]. intros r hand Hr. exact Hr.
  - eapply handles_weaken; [by apply schedule_handles|]. intros r hand Hr. exact Hr.
  - eapply handles_weaken; [apply push_handles; lia|]. intros _ hand ->. exact (Permutation_refl []).
  - eapply handles_weaken; [apply push_handles; lia|]. intros _ hand ->. exact (Permutation_refl []).
Qed.
End methods.

(** ** Proofs: the tasks of the atomic machine *)

Lemma rq_pop_contents q : rq_queue q = option_list (fst (rq_pop q)) ++ rq_queue (snd (rq_pop q)).
Proof. unfold rq_pop. by destruct (rq_queue q) eqn:Hq. Qed.

Lemma rq_steal_contents q : rq_queue q ≡ₚ fst (rq_steal_half q) ++ rq_queue (snd (rq_steal_half q)).
Proof.
  unfold rq_steal_half. destruct (_ =? 0)%nat; [done|].
  rewrite steal_loop_spec by apply half_le. simpl.
  rewrite <-(stolen_kept (rq_queue q)) at 1. rewrite Permutation_app_comm, reverse_Permutation. done.
Qed.

Lemma queue_insert_occurrences x qs i q q' :
  qs !! i = Some q ->
  (occurrences x (concat (map rq_queue (<[i := q']> qs))) + occurrences x (rq_queue q) =
   occurrences x (concat (map rq_queue qs)) + occurrences x (rq_queue q'))%nat.
Proof.
  intros Hq. replace (map rq_queue (<[i := q']> qs)) with (<[i := rq_queue q']> (map rq_queue qs))
    by (symmetry; apply (list_fmap_insert rq_queue)).
  apply occurrences_concat_insert. by rewrite list_lookup_fmap, Hq.
Qed.

(** What a step of a program does with the tasks in hand and those queued. *)
Lemma api_step_handles {A} n (p p' : api A) qs qs' hand post :
  handles n p hand post -> api_step p qs = Some (p', qs') ->
  exists hand', handles n p' hand' post /\
    hand ++ concat (map rq_queue qs) ≡ₚ hand' ++ concat (map rq_queue qs') /\ length qs' = length qs.
Proof.
  intros Hp Hstep. destruct p as [x| |i k|i t k|i k|i k]; simpl in Hstep; try done;
    destruct (qs !! i) as [q|] eqn:Hq; simpl in Hstep; try done.
  - simplify_eq. exists hand. split; [apply Hp|done].
  - simplify_eq. destruct Hp as (_ & hand' & Heq & Hp). exists hand'. split; [done|].
    rewrite length_insert. split; [|done].
    apply perm_occurrences. intros x. pose proof (queue_insert_occurrences x qs i q (rq_push t q) Hq).
    apply (occurrences_perm x) in Heq. simpl in *. autorewrite with occurrences in *. lia.
  - destruct (rq_pop q) as [r q'] eqn:Hpop. simplify_eq. eexists. split; [apply Hp|].
    rewrite length_insert. split; [|done]. pose proof (rq_pop_contents q) as Hcont. rewrite Hpop in Hcont.
    apply perm_occurrences. intros x. pose proof (queue_insert_occurrences x qs i q q' Hq) as Hc.
    rewrite Hcont in Hc. simpl in *. autorewrite with occurrences in *. lia.
  - destruct (rq_steal_half q) as [r q'] eqn:Hst. simplify_eq. eexists. split; [apply Hp|].
    rewrite length_insert. split; [|done]. pose proof (rq_steal_contents q) as Hcont. rewrite Hst in Hcont.
    apply perm_occurrences. intros x. pose proof (queue_insert_occurrences x qs i q q' Hq) as Hc.
    apply (occurrences_perm x) in Hcont. simpl in *. autorewrite with occurrences in *. lia.
Qed.

(** The calls of one core, the running one first, have the tasks [hand] in hand. *)
Fixpoint frames_handle (n : nat) (fs : list (frame (api (list task)))) (hand : list task) : Prop :=
  match fs with
  | [] => hand = []
  | f :: fs => exists h rest, hand = h ++ rest /\ handles n (f_code f) h returns_hand /\ frames_handle n fs rest
  end.

(** The cores that the calls of an execution name exist. *)
Definition calls_valid (n : nat) (tr : list (nat * conc_event)) : Prop :=
  Forall (fun e => match snd e with EvCall op => op_valid n op | _ => True end) tr.

(** Every task given is returned, queued or in the hands of a call. *)
Record atomic_inv (n : nat) (tr : list (nat * conc_event)) (a : atomic_sys) (hands : list (list task)) : Prop := {
  ai_queues : length (shared a) = n;
  ai_cores : length (locals a) = n;
  ai_hands : length hands = n;
  ai_calls t fs h : locals a !! t = Some fs -> hands !! t = Some h -> frames_handle n fs h;
  ai_tasks : given tr ≡ₚ returned tr ++ concat (map rq_queue (shared a)) ++ concat hands;
}.

Section atomic.
Context (n : nat) (Hn : Z.of_nat n < 2 ^ 32).
Implicit Types (a : atomic_sys) (hands : list (list task)).

Lemma given_snoc tr e :
  given (tr ++ [e]) = given tr ++ match snd e with EvCall op => op_input op | _ => [] end.
Proof. unfold given. rewrite map_app, concat_app. simpl. by rewrite app_nil_r. Qed.

Lemma returned_snoc tr e :
  returned (tr ++ [e]) = returned tr ++ match snd e with EvReturn ts => ts | _ => [] end.
Proof. unfold returned. rewrite map_app, concat_app. simpl. by rewrite app_nil_r. Qed.

(** Core [t] goes from [fs] and [h] to [fs'] and [h']. *)
Lemma atomic_inv_step tr a hands t e aqs' fs' h h' :
  atomic_inv n tr a hands -> hands !! t = Some h -> length aqs' = length (shared a) ->
  frames_handle n fs' h' ->
  (forall x, (occurrences x (given (tr ++ [(t, e)])) + occurrences x (returned tr) +
              occurrences x (concat (map rq_queue (shared a))) + occurrences x h =
              occurrences x (given tr) + occurrences x (returned (tr ++ [(t, e)])) +
              occurrences x (concat (map rq_queue aqs')) + occurrences x h')%nat) ->
  atomic_inv n (tr ++ [(t, e)]) (Sys aqs' (<[t := fs']> (locals a))) (<[t := h']> hands).
Proof.
  intros [Hq Hc Hh Hcalls Htasks] Ht Hlen Hfs Hcount. constructor; cbn [shared locals].
  - congruence.
  - by rewrite length_insert.
  - by rewrite length_insert.
  - intros t' fs1 h1 Hl Hl'. apply lookup_insert_cases in Hl, Hl'.
    destruct Hl as [[-> ->]|[Hne Hl]], Hl' as [[? ->]|[? Hl']]; try done. by eapply Hcalls.
  - apply perm_occurrences. intros x. specialize (Hcount x). apply (occurrences_perm x) in Htasks.
    pose proof (occurrences_concat_insert x hands t h h' Ht). autorewrite with occurrences in *. lia.
Qed.

Lemma atomic_inv_preserved tr a hands t e a' :
  atomic_inv n tr a hands -> calls_valid n (tr ++ [(t, e)]) -> atomic_step a (t, e) a' ->
  exists hands', atomic_inv n (tr ++ [(t, e)]) a' hands'.
Proof.
  intros Hinv Hvalid Hstep. apply step_inv in Hstep as (fs & act & aqs' & fs' & Hfs & Hact & ->).
  assert (Hlt : (t < n)%nat) by (rewrite <-(ai_cores _ _ _ _ Hinv); by eapply lookup_lt_Some).
  destruct (lookup_lt_is_Some_2 hands t) as [h Hh]; [by rewrite (ai_hands _ _ _ _ Hinv)|].
  pose proof (ai_calls _ _ _ _ Hinv t fs h Hfs Hh) as Hcalls.
  apply Forall_app in Hvalid as [_ Hvalid]. apply (proj1 (Forall_singleton _ _)) in Hvalid. simpl in Hvalid.
  pose proof (atomic_inv_step tr a hands t e) as Hnext. rewrite given_snoc, returned_snoc in Hnext.
  destruct act as [op| | | |]; simpl in Hact.
  - destruct fs as [|]; [|done]. simplify_eq. simpl in Hcalls. subst h. eexists. eapply Hnext; try done.
    + exists (op_input op), []. split; [done|]. split; [|done]. rewrite (ai_queues _ _ _ _ Hinv).
      apply call_handles; [done|lia|done].
    + intros x. simpl. autorewrite with occurrences. lia.
  - simplify_eq. eexists. eapply Hnext; try done.
    + exists [], h. split; [done|]. split; [|done]. rewrite (ai_queues _ _ _ _ Hinv).
      by apply (call_handles n (OpSchedule t)); [|lia|].
    + intros x. simpl. autorewrite with occurrences. lia.
  - destruct fs as [|f fs]; [done|]. destruct Hcalls as (h0 & rest & -> & Hf & Hrest).
    destruct f as [p irq]. simpl in Hf.
    assert (Hp : (exists ts, p = ARet ts) \/ exists p', api_step p (shared a) = Some (p', aqs') /\
      fs' = Frame p' irq :: fs /\ e = EvWork).
    { destruct p; [by left; eexists|done|..]; right; destruct (api_step _ _) as [[p' qs']|]; try done;
        simpl in Hact; injection Hact as <- <- <-; by eexists. }
    destruct Hp as [[ts ->]|(p' & Hp & -> & ->)].
    + simplify_eq. eexists. eapply Hnext; try done. intros x. simpl in Hf.
      apply (occurrences_perm x) in Hf. simpl. autorewrite with occurrences. lia.
    + destruct (api_step_handles _ _ _ _ _ _ _ Hf Hp) as (h' & Hf' & Hperm & Hlen).
      eexists. eapply (Hnext _ _ _ (h' ++ rest)); try done.
      * by exists h', rest.
      * intros x. apply (occurrences_perm x) in Hperm. simpl. autorewrite with occurrences in *. lia.
  - done.
  - done.
Qed.
End atomic.
