(* ===== verification/SchedConc.v ===== *)
(** * SchedConc: the scheduler used by several cores at once
    (src/src/scheduler.rs)

    Theorems on the executions of [conc_act] (SchedCode), in which the atomic
    operations of the cores' calls, and the timer interrupts, are interleaved in
    any order: they refine executions at the operations of run queues, lose and
    duplicate no task, deadlock nowhere and finish, and the counters are exact. *)

From stdpp Require Import strings.
From S2P Require Import Prelude Threads Task RunQueue Scheduler SpinLock SchedCode SchedRefine SchedTasks.

(** ** Proofs: executions *)

Lemma calls_valid_app n tr tr' : calls_valid n (tr ++ tr') <-> calls_valid n tr /\ calls_valid n tr'.
Proof. apply Forall_app. Qed.

Lemma observed_app tr tr' : observed (tr ++ tr') = observed tr ++ observed tr'.
Proof. apply List.filter_app. Qed.

(** What is observed determines what is given, what is returned and what is valid. *)
Lemma given_observed tr : given (observed tr) = given tr.
Proof. unfold given. induction tr as [|[t []] tr IH]; simpl; by rewrite ?IH. Qed.

Lemma returned_observed tr : returned (observed tr) = returned tr.
Proof. unfold returned. induction tr as [|[t []] tr IH]; simpl; by rewrite ?IH. Qed.

Lemma calls_valid_observed n tr : calls_valid n (observed tr) <-> calls_valid n tr.
Proof.
  unfold calls_valid. induction tr as [|[t []] tr IH]; simpl; rewrite ?Forall_cons; simpl; tauto.
Qed.

Lemma replicate_insert_lookup {B} m (x y : B) t : replicate m x !! t = Some y -> y = x.
Proof. intros Hl. by apply lookup_replicate in Hl as [-> _]. Qed.

Lemma atomic_inv_init n : atomic_inv n [] (atomic_init n) (replicate n []).
Proof.
  constructor; simpl; rewrite ?length_map, ?length_seqZ, ?length_replicate; try lia.
  - intros t fs h Hfs Hh. apply replicate_insert_lookup in Hfs as ->. by apply replicate_insert_lookup in Hh.
  - unfold given, returned. simpl.
    assert (Hnil : forall k, concat (replicate k (@nil task)) = []) by (intros k; by induction k).
    rewrite Hnil, app_nil_r, map_map. clear. by induction (seqZ 0 (Z.of_nat n)).
Qed.

Lemma sim_holding_init n rf : sim_holding (replicate n None) (conc_init n rf) (atomic_init n).
Proof.
  constructor; cbn [conc_init atomic_init shared locals].
  - by rewrite length_replicate, length_map, length_seq.
  - by rewrite length_replicate, length_map, length_seq.
  - constructor.
    + simpl. by rewrite length_replicate, length_map, length_seqZ, Nat2Z.id.
    + intros t h Hh. by apply replicate_insert_lookup in Hh.
    + intros t1 t2 h1 h2 Hh. by apply replicate_insert_lookup in Hh.
    + intros i q Hq _. pose proof (lookup_lt_Some _ _ _ Hq) as Hlt. rewrite length_replicate in Hlt.
      apply replicate_insert_lookup in Hq as ->. exists (rq_new (Z.of_nat i)). split; [|done]. simpl.
      rewrite list_lookup_fmap, lookup_seqZ_lt by lia. done.
    + intros i q Hq Hl. by apply replicate_insert_lookup in Hq as ->.
  - intros t c afs h Hc Ha Hh. apply replicate_insert_lookup in Ha as ->, Hh as ->.
    rewrite list_lookup_fmap in Hc. destruct (seq 0 n !! t); [|done]. simpl in Hc. by simplify_eq.
Qed.

Lemma sim_init n rf : sim (conc_init n rf) (atomic_init n).
Proof. exists (replicate n None). apply sim_holding_init. Qed.

Lemma sim_trace s0 a0 tr s :
  sim s0 a0 -> trace conc_step s0 tr s ->
  exists tr' a, trace atomic_step a0 tr' a /\ observed tr' = observed tr /\ sim s a.
Proof.
  intros Hsim Htr. induction Htr as [s|s tr s1 [t e] s2 Htr IH Hstep].
  { exists [], a0. split; [constructor|]. done. }
  destruct (IH Hsim) as (tr' & a & Htr' & Hobs & Hsim1).
  destruct (sim_step _ _ _ _ _ Hsim1 Hstep) as (a' & Hsim2 & Hm). unfold matches in Hm.
  destruct (visible e) eqn:Hv; [|destruct Hm as [->|Hm]].
  - exists (tr' ++ [(t, e)]), a'. split; [by eapply trace_snoc|]. by rewrite !observed_app, Hobs.
  - exists tr', a. split; [done|]. rewrite observed_app, Hobs. simpl. rewrite Hv. by rewrite app_nil_r.
  - exists (tr' ++ [(t, EvWork)]), a'. split; [by eapply trace_snoc|].
    rewrite !observed_app, Hobs. simpl. by rewrite Hv.
Qed.

Lemma atomic_inv_trace n tr a :
  Z.of_nat n < 2 ^ 32 -> trace atomic_step (atomic_init n) tr a -> calls_valid n tr ->
  exists hands, atomic_inv n tr a hands.
Proof.
  intros Hn Htr. remember (atomic_init n) as a0 eqn:Ha0.
  induction Htr as [a|a tr a1 [t e] a2 Htr IH Hstep]; intros Hvalid; subst.
  { eexists. apply atomic_inv_init. }
  pose proof Hvalid as [Hv _]%calls_valid_app. destruct (IH eq_refl Hv) as (hands & Hinv).
  by eapply atomic_inv_preserved.
Qed.

(** Both relations hold of reachable states. *)
Lemma reachable n rf tr s :
  Z.of_nat n < 2 ^ 32 -> trace conc_step (conc_init n rf) tr s -> calls_valid n tr ->
  exists tr' a hands, trace atomic_step (atomic_init n) tr' a /\ observed tr' = observed tr /\
    sim s a /\ atomic_inv n tr' a hands.
Proof.
  intros Hn Htr Hvalid. destruct (sim_trace _ _ _ _ (sim_init n rf) Htr) as (tr' & a & Htr' & Hobs & Hsim).
  destruct (atomic_inv_trace n tr' a Hn Htr') as (hands & Hinv).
  { by rewrite <-calls_valid_observed, Hobs, calls_valid_observed. }
  by exists tr', a, hands.
Qed.

(** ** Proofs: progress *)

(** A step of work: an operation that is not a failed exchange, or a return. *)
Definition conc_work (s s' : conc_sys) : Prop :=
  exists t e, conc_step s (t, e) s' /\ (e = EvWork \/ exists ts, e = EvReturn ts).

Lemma handles_target {A} n (p : api A) hand post i : handles n p hand post -> api_target p = Some i -> (i < n)%nat.
Proof. destruct p; simpl; intros Hp [= ->]; apply Hp. Qed.

(** The running code goes on, unless it waits for a lock that is held. *)
Lemma code_goes_on entry t c p rf hs qs aqs hand :
  code_ok entry t c p rf hs qs aqs -> handles (length qs) p hand returns_hand ->
  (exists ts, c = Done ts) \/
  (exists c' qs' rf', code_step c qs rf = Some (c', qs', rf', false)) \/
  (hs !! t = Some None /\ exists i q, qs !! i = Some q /\ locked (cq_lock q) = true).
Proof.
  intros (Hok & h & Ht & Hif & Hc) Hp.
  assert (Hheld : forall h1, h = Some h1 -> exists q, qs !! h_queue h1 = Some q).
  { intros h1 ->. destruct (qo_held _ _ _ Hok t h1 Ht). eauto. }
  assert (Hguard : forall i K, (exists h1, g_hold (Ghost (interrupts_enabled rf) h) = Some h1 /\ h_queue h1 = i /\ K h1) ->
    exists q, qs !! i = Some q).
  { intros i K (h1 & Hh & <- & _). by apply Hheld. }
  destruct c as [x| |k|k|k|i k|i k|i k|i u k|i k|i k|i d k|i k].
  - left. eauto.
  - simpl in Hc. by subst p.
  - right. left. simpl. eauto.
  - right. left. simpl. eauto.
  - right. left. simpl. eauto.
  - destruct Hc as (Hg & Htgt & _). injection Hg as _ ->.
    pose proof (handles_target _ _ _ _ _ Hp Htgt) as Hi. apply lookup_lt_is_Some_2 in Hi as [q Hq].
    right. simpl. rewrite Hq. simpl. unfold sl_cas. destruct (locked (cq_lock q)) eqn:Hl; [right; eauto|left; eauto].
  - right. left. destruct Hc as (a & Hh & _). destruct (Hheld _ Hh) as [q Hq]. simpl in Hq |- *. rewrite Hq. simpl. eauto.
  - right. left. apply Hguard in Hc as [q Hq]. simpl. rewrite Hq. simpl. eauto.
  - right. left. apply Hguard in Hc as [q Hq]. simpl. rewrite Hq. simpl. eauto.
  - right. left. apply Hguard in Hc as [q Hq]. simpl. rewrite Hq. simpl.
    destruct (sl_deref (cq_lock q)); simpl; eauto.
  - right. left. apply Hguard in Hc as [q Hq]. simpl. rewrite Hq. simpl.
    destruct (pop_back _) as [[? ?]|]; simpl; eauto.
  - right. left. apply Hguard in Hc as [q Hq]. simpl. rewrite Hq. simpl. eauto.
  - right. left. destruct Hc as (k' & -> & _).
    pose proof (handles_target _ _ _ _ i Hp eq_refl) as Hi. apply lookup_lt_is_Some_2 in Hi as [q Hq].
    simpl. rewrite Hq. simpl. eauto.
Qed.

(** What runs on core [t], in reachable states. *)
Lemma running_call hs s a tr hands n t rf f fs :
  sim_holding hs s a -> atomic_inv n tr a hands -> locals s !! t = Some (Core rf (f :: fs)) ->
  exists entry p hand, code_ok entry t (f_code f) p rf hs (shared s) (shared a) /\
    handles (length (shared s)) p hand returns_hand.
Proof.
  intros Hsim Hinv Hc. destruct (sim_lookup _ _ _ _ _ Hsim Hc) as (afs & h & Ha & Hh & Hrel).
  assert (Htop : exists af afs', afs = af :: afs' /\ top_rel rf h f af).
  { destruct fs as [|f0 [|]], afs as [|af [|af0 [|]]]; try done; [by exists af, []|].
    destruct Hrel as [Ht _]. by exists af, [af0]. }
  destruct Htop as (af & afs' & -> & _ & entry & _ & Hif & Hsf).
  destruct (lookup_lt_is_Some_2 hands t) as [hand Hhand].
  { rewrite (ai_hands _ _ _ _ Hinv), <-(ai_cores _ _ _ _ Hinv). by eapply lookup_lt_Some. }
  destruct (ai_calls _ _ _ _ Hinv t _ _ Ha Hhand) as (h0 & rest & _ & Hf & _).
  exists entry, (f_code af), h0. split.
  - split; [apply Hsim|]. by exists h.
  - by rewrite <-(qo_length _ _ _ (sim_queues _ _ _ Hsim)), (ai_queues _ _ _ _ Hinv).
Qed.

(** A running call makes a step of work, unless it waits for a held lock. *)
Lemma call_goes_on hs s a tr hands n t rf f fs :
  sim_holding hs s a -> atomic_inv n tr a hands -> locals s !! t = Some (Core rf (f :: fs)) ->
  (exists s', conc_work s s') \/
  (hs !! t = Some None /\ exists i q, shared s !! i = Some q /\ locked (cq_lock q) = true).
Proof.
  intros Hsim Hinv Hc. destruct (running_call _ _ _ _ _ _ _ _ _ _ Hsim Hinv Hc) as (entry & p & hand & Hok & Hp).
  destruct s as [qs cores], f as [c irq]. cbn [shared locals f_code] in *.
  destruct (code_goes_on _ _ _ _ _ _ _ _ _ Hok Hp) as [[ts ->]|[(c' & qs' & rf' & Hstep)|Hwait]]; [| |by right].
  - left. eexists _, t, (EvReturn ts). split; [|by right; eexists].
    eapply (step_act _ _ _ _ _ ActRun); [exact Hc|done].
  - left. eexists _, t, EvWork. split; [|by left].
    eapply (step_act _ _ _ _ _ ActRun); [exact Hc|].
    destruct c; try done; cbn [conc_act c_frames c_rflags]; rewrite Hstep; done.
Qed.

(** No deadlock: while a call is going on, some core works. *)
Lemma conc_progress n rf tr s t c :
  Z.of_nat n < 2 ^ 32 -> trace conc_step (conc_init n rf) tr s -> calls_valid n tr ->
  locals s !! t = Some c -> c_frames c <> [] -> exists s', conc_work s s'.
Proof.
  intros Hn Htr Hvalid Hc Hfs.
  destruct (reachable n rf tr s Hn Htr Hvalid) as (tr' & a & hands & _ & _ & [hs Hsim] & Hinv).
  destruct c as [fl [|f fs]]; [done|].
  destruct (call_goes_on _ _ _ _ _ _ _ _ _ _ Hsim Hinv Hc) as [Hw|(_ & i & q & Hq & Hl)]; [done|].
  destruct (qo_locked _ _ _ (sim_queues _ _ _ Hsim) i q Hq Hl) as (t1 & h1 & Ht1 & _).
  destruct (lookup_lt_is_Some_2 (locals s) t1) as [[fl1 fs1] Hc1].
  { rewrite <-(sim_holds _ _ _ Hsim). by eapply lookup_lt_Some. }
  destruct fs1 as [|f1 fs1].
  { destruct (sim_lookup _ _ _ _ _ Hsim Hc1) as (afs & h & _ & Hh & Hrel).
    unfold core_rel in Hrel. simpl in Hrel. destruct afs; [|done]. by simplify_eq. }
  destruct (call_goes_on _ _ _ _ _ _ _ _ _ _ Hsim Hinv Hc1) as [Hw|(Hn1 & _)]; [done|]. by simplify_eq.
Qed.

(** ** Proofs: termination *)

(** What follows an operation of code. *)
Definition code_next {A} (c' c : code A) : Prop :=
  exists qs rf qs' rf', code_step c qs rf = Some (c', qs', rf', false).

Lemma code_next_acc {A} (c : code A) : Acc code_next c.
Proof.
  induction c as [x| |k IH|k IH|k IH|i k IH|i k IH|i k IH|i u k IH|i k IH|i k IH|i d k IH|i k IH];
    constructor; intros c' (qs & rf & qs' & rf' & Hstep); cbn [code_step] in Hstep;
    try discriminate Hstep; try (destruct (qs !! i) as [q|]; [|discriminate Hstep]); cbn [mbind option_bind] in Hstep;
    try (injection Hstep as <- _ _; apply IH).
  - destruct (sl_cas (cq_lock q)) as [[] l]; [injection Hstep as <- _ _; exact IH|discriminate Hstep].
  - destruct (sl_deref (cq_lock q)); injection Hstep as <- _ _; apply IH.
  - destruct (pop_back _) as [[? ?]|]; injection Hstep as <- _ _; apply IH.
Qed.

(** The running call goes on, or returns. *)
Definition frames_next (fs' fs : list (frame (code (list task)))) : Prop :=
  exists f rest, fs = f :: rest /\
    (fs' = rest \/ exists c', code_next c' (f_code f) /\ fs' = Frame c' (f_irq f) :: rest).

Lemma frames_next_acc fs : Acc frames_next fs.
Proof.
  induction fs as [|[c irq] fs IH]; [constructor; by intros fs' (f & rest & ? & _)|].
  induction (code_next_acc c) as [c _ IHc]. constructor.
  intros fs' (f & rest & [= <- <-] & [->|(c' & Hn & ->)]); [done|]. by apply IHc.
Qed.

Definition core_next (c' c : core) : Prop := frames_next (c_frames c') (c_frames c).

Lemma core_next_acc c : Acc core_next c.
Proof.
  unfold core_next. remember (c_frames c) as fs eqn:Hfs. revert c Hfs.
  induction (frames_next_acc fs) as [fs _ IH]. intros c ->. constructor. intros c' Hc'. by eapply IH.
Qed.

Lemma conc_work_changes s s' : conc_work s s' -> one_changes core_next (locals s') (locals s).
Proof.
  intros (t & e & Hstep & He). apply step_inv in Hstep as ([rf fs] & act & qs' & c' & Hc & Hact & ->).
  exists t, (Core rf fs), c'. split; [done|]. split; [|done].
  destruct act as [op| | | |]; simpl in Hact.
  - destruct fs; [|done]. simplify_eq. destruct He as [|[]]; done.
  - destruct (interrupts_enabled rf); [|done]. simplify_eq. destruct He as [|[]]; done.
  - destruct fs as [|[code irq] fs]; [done|].
    destruct (run_inv t _ _ _ _ _ _ _ _ Hact) as [(ts & -> & -> & -> & ->)|(c1 & rf1 & spin & Hcs & -> & ->)].
    + exists (Frame (Done ts) irq), fs. eauto.
    + exists (Frame code irq), fs. split; [done|]. right. exists c1. split; [|done].
      destruct spin; [destruct He as [|[]]; done|]. by exists (shared s), rf, qs', rf1.
  - destruct fs as [|[[] irq] fs]; simplify_eq. destruct He as [|[]]; done.
  - destruct fs; [|done]. simplify_eq. destruct He as [|[]]; done.
Qed.

(** Steps of work come to an end. *)
Lemma conc_work_acc s : Acc (flip conc_work) s.
Proof.
  assert (Hacc : Acc (one_changes core_next) (locals s)).
  { apply acc_one_changes, Forall_forall. intros c _. apply core_next_acc. }
  remember (locals s) as cs eqn:Hcs. revert s Hcs. induction Hacc as [cs _ IH]. intros s ->.
  constructor. intros s' Hw. by eapply IH; [apply conc_work_changes|].
Qed.

Definition work_event (e : conc_event) : Prop := e = EvWork \/ exists ts, e = EvReturn ts.

Lemma quiescent_or_running (s : conc_sys) :
  quiescent s \/ exists t c, locals s !! t = Some c /\ c_frames c <> [].
Proof.
  unfold quiescent. induction (locals s) as [|[rf fs] cs IH]; [by left|].
  destruct fs as [|f fs].
  - destruct IH as [Hq|(t & c & Hc & Hfs)]; [left; by constructor|right]. by exists (Datatypes.S t), c.
  - right. by exists 0%nat, (Core rf (f :: fs)).
Qed.

(** Calls under way finish. *)
Lemma conc_finishes n rf tr s :
  Z.of_nat n < 2 ^ 32 -> trace conc_step (conc_init n rf) tr s -> calls_valid n tr ->
  exists tr' s', trace conc_step s tr' s' /\ Forall (fun e => work_event (snd e)) tr' /\ quiescent s'.
Proof.
  intros Hn Htr Hvalid. revert tr Htr Hvalid. induction (conc_work_acc s) as [s _ IH]. intros tr Htr Hvalid.
  destruct (quiescent_or_running s) as [Hq|(t & c & Hc & Hfs)].
  { exists [], s. split; [constructor|]. done. }
  destruct (conc_progress n rf tr s t c Hn Htr Hvalid Hc Hfs) as (s1 & t1 & e1 & Hstep & He1).
  assert (Hw : conc_work s s1) by (by exists t1, e1).
  destruct (IH s1 Hw (tr ++ [(t1, e1)])) as (tr2 & s2 & Htr2 & Hev & Hq).
  - by eapply trace_snoc.
  - apply calls_valid_app. split; [done|]. constructor; [|done]. by destruct He1 as [->|[ts ->]].
  - exists ((t1, e1) :: tr2), s2. split; [by eapply trace_cons|]. split; [by constructor|done].
Qed.

(** ** Proofs: the counters *)

(** The counter is the number of tasks, up to wrap-around. *)
Definition counts (q : run_queue) : Prop := rq_len q = wrap 64 (Z.of_nat (length (rq_queue q))).

Lemma counts_change q (d : Z) ts c :
  counts q -> Z.of_nat (length ts) = Z.of_nat (length (rq_queue q)) + d ->
  counts (RunQueue c ts (wrap 64 (rq_len q + d))).
Proof.
  unfold counts. intros -> Hlen. cbn [rq_len rq_queue]. rewrite Hlen. unfold wrap. apply Zplus_mod_idemp_l.
Qed.

Lemma counts_pop q : counts q -> counts (snd (rq_pop q)).
Proof.
  intros Hc. unfold rq_pop. destruct (rq_queue q) as [|t ts] eqn:Hq; [done|].
  apply (counts_change q (-1)); [done|]. rewrite Hq. simpl. lia.
Qed.

Lemma counts_steal q : counts q -> counts (snd (rq_steal_half q)).
Proof.
  intros Hc. pose proof (Permutation_length (rq_steal_contents q)) as Hlen. revert Hlen.
  unfold rq_steal_half. destruct (_ =? 0)%nat; [done|]. destruct (steal_loop _ _ _) as [stolen kept].
  simpl. rewrite length_app. intros Hlen. apply (counts_change q (- Z.of_nat (length stolen))); [done|lia].
Qed.

Lemma counts_step {A} (p p' : api A) qs qs' :
  api_step p qs = Some (p', qs') -> Forall counts qs -> Forall counts qs'.
Proof.
  intros Hstep Hall.
  assert (Hins : forall i q q', qs !! i = Some q -> (counts q -> counts q') -> Forall counts (<[i := q']> qs)).
  { intros i q q' Hq Hqq. apply Forall_insert; [done|]. apply Hqq. by eapply Forall_lookup_1. }
  destruct p as [x| |i k|i t k|i k|i k]; simpl in Hstep; try done;
    destruct (qs !! i) as [q|] eqn:Hq; try done; simpl in Hstep.
  - by simplify_eq.
  - simplify_eq. apply (Hins i q); [done|]. intros Hc. apply (counts_change q 1); [done|].
    rewrite length_app. simpl. lia.
  - pose proof (counts_pop q) as Hp. destruct (rq_pop q). simplify_eq. by apply (Hins i q).
  - pose proof (counts_steal q) as Hp. destruct (rq_steal_half q). simplify_eq. by apply (Hins i q).
Qed.

Lemma counts_trace n tr a : trace atomic_step (atomic_init n) tr a -> Forall counts (shared a).
Proof.
  intros Htr. remember (atomic_init n) as a0 eqn:Ha0.
  induction Htr as [a|a tr a1 [t e] a2 Htr IH Hstep]; subst.
  - apply Forall_forall. intros q Hq. apply list_elem_of_In, in_map_iff in Hq as (i & <- & _). done.
  - specialize (IH eq_refl). apply step_inv in Hstep as (fs & act & aqs' & fs' & _ & Hact & ->). simpl.
    destruct act; simpl in Hact; try done.
    + destruct fs; by simplify_eq.
    + by simplify_eq.
    + destruct fs as [|[p irq] fs]; [done|].
      assert (Hp : aqs' = shared a1 \/ exists p', api_step p (shared a1) = Some (p', aqs')).
      { destruct p; [left; by simplify_eq|done|..]; right; destruct (api_step _ _) as [[p' qs']|]; try done;
          simpl in Hact; injection Hact as <- _ _; by eexists. }
      destruct Hp as [->|[p' Hp]]; [done|]. by eapply counts_step.
Qed.

(** The tasks queued are among those given and not returned. *)
Lemma queued_le n tr a hands :
  atomic_inv n tr a hands ->
  (length (returned tr) + length (concat (map rq_queue (shared a))) <= length (given tr))%nat.
Proof.
  intros Hinv. rewrite (Permutation_length (ai_tasks _ _ _ _ Hinv)), !length_app. lia.
Qed.

Lemma queue_le_all (qs : list run_queue) i q :
  qs !! i = Some q -> (length (rq_queue q) <= length (concat (map rq_queue qs)))%nat.
Proof.
  intros Hq. rewrite <-(take_drop_middle qs i q Hq), map_app, concat_app. simpl. rewrite !length_app. lia.
Qed.

Lemma counter_exact n tr a hands i q :
  atomic_inv n tr a hands -> Forall counts (shared a) -> Z.of_nat (length (given tr)) < 2 ^ 64 ->
  shared a !! i = Some q -> rq_len q = Z.of_nat (length (rq_queue q)).
Proof.
  intros Hinv Hc Hlt Hq. pose proof (queued_le _ _ _ _ Hinv). pose proof (queue_le_all _ _ _ Hq).
  rewrite (Forall_lookup_1 _ _ _ _ Hc Hq). apply wrap_small. unfold in_range. lia.
Qed.

(** The counters together. *)
Lemma counters_sum (qs : list run_queue) :
  Forall (fun q => rq_len q = Z.of_nat (length (rq_queue q))) qs ->
  foldr Z.add 0 (map rq_len qs) = Z.of_nat (length (concat (map rq_queue qs))).
Proof. induction 1 as [|q qs Hq _ IH]; [done|]. simpl. rewrite Hq, IH, length_app. lia. Qed.

Lemma sim_counters hs (s : conc_sys) (a : atomic_sys) :
  sim_holding hs s a -> map cq_len (shared s) = map rq_len (shared a).
Proof.
  intros Hsim. pose proof (sim_queues _ _ _ Hsim) as Hok. apply list_eq. intros i.
  change (map cq_len (shared s)) with (cq_len <$> shared s).
  change (map rq_len (shared a)) with (rq_len <$> shared a). rewrite !list_lookup_fmap.
  destruct (shared s !! i) as [q|] eqn:Hq.
  - destruct (queues_counter _ _ _ i q Hok Hq) as (aq & -> & Hlen). simpl. by rewrite Hlen.
  - apply lookup_ge_None in Hq. rewrite lookup_ge_None_2; [done|]. by rewrite (qo_length _ _ _ Hok).
Qed.

(** Free queues, and their data. *)
Lemma sim_free hs (s : conc_sys) (a : atomic_sys) i q :
  sim_holding hs s a -> shared s !! i = Some q -> locked (cq_lock q) = false ->
  exists aq, shared a !! i = Some aq /\ sl_data (cq_lock q) = rq_queue aq /\ cq_len q = rq_len aq.
Proof.
  intros Hsim Hq Hl. destruct (qo_free _ _ _ (sim_queues _ _ _ Hsim) i q Hq Hl) as (aq & Ha & ->). by exists aq.
Qed.

(** When all calls are finished, no lock is held. *)
Lemma quiescent_free hs (s : conc_sys) (a : atomic_sys) :
  sim_holding hs s a -> quiescent s -> Forall (fun q => locked (cq_lock q) = false) (shared s).
Proof.
  intros Hsim Hquiet. apply Forall_lookup. intros i q Hq.
  destruct (locked (cq_lock q)) eqn:Hl; [|done].
  destruct (qo_locked _ _ _ (sim_queues _ _ _ Hsim) i q Hq Hl) as (t & h & Ht & _).
  destruct (lookup_lt_is_Some_2 (locals s) t) as [c Hc].
  { rewrite <-(sim_holds _ _ _ Hsim). by eapply lookup_lt_Some. }
  destruct (sim_lookup _ _ _ _ _ Hsim Hc) as (afs & h' & _ & Hh' & Hrel).
  pose proof (Forall_lookup_1 _ _ _ _ Hquiet Hc) as Hfs. unfold core_rel in Hrel. rewrite Hfs in Hrel.
  destruct afs; [|done]. by simplify_eq.
Qed.

Lemma quiescent_data hs (s : conc_sys) (a : atomic_sys) :
  sim_holding hs s a -> quiescent s -> map (fun q => sl_data (cq_lock q)) (shared s) = map rq_queue (shared a).
Proof.
  intros Hsim Hquiet. pose proof (quiescent_free _ _ _ Hsim Hquiet) as Hfree. apply list_eq. intros i.
  change (((fun q => sl_data (cq_lock q)) <$> shared s) !! i = (rq_queue <$> shared a) !! i).
  rewrite !list_lookup_fmap. destruct (shared s !! i) as [q|] eqn:Hq.
  - destruct (sim_free _ _ _ i q Hsim Hq) as (aq & -> & Hd & _); [exact (Forall_lookup_1 _ _ _ _ Hfree Hq)|]. simpl. by rewrite Hd.
  - apply lookup_ge_None in Hq. rewrite lookup_ge_None_2; [done|].
    by rewrite (qo_length _ _ _ (sim_queues _ _ _ Hsim)).
Qed.

(** ... and no call has tasks in hand. *)
Lemma quiescent_hands hs (s : conc_sys) (a : atomic_sys) n tr hands :
  sim_holding hs s a -> atomic_inv n tr a hands -> quiescent s -> concat hands = [].
Proof.
  intros Hsim Hinv Hquiet. assert (Hnil : Forall (fun h => h = []) hands).
  { apply Forall_lookup. intros t h Hh.
    destruct (lookup_lt_is_Some_2 (locals s) t) as [c Hc].
    { rewrite <-(sim_cores _ _ _ Hsim), (ai_cores _ _ _ _ Hinv), <-(ai_hands _ _ _ _ Hinv). by eapply lookup_lt_Some. }
    destruct (sim_lookup _ _ _ _ _ Hsim Hc) as (afs & h' & Ha & _ & Hrel).
    pose proof (Forall_lookup_1 _ _ _ _ Hquiet Hc) as Hfs. unfold core_rel in Hrel. rewrite Hfs in Hrel.
    destruct afs; [|done]. exact (ai_calls _ _ _ _ Hinv t [] h Ha Hh). }
  clear Hinv. induction Hnil as [|h hands' -> _ IH]; [done|exact IH].
Qed.

(** No call is at a panic. *)
Definition no_panic (s : conc_sys) : Prop :=
  Forall (fun c => Forall (fun f => f_code f <> Crash) (c_frames c)) (locals s).

Lemma calls_no_panic hs (s : conc_sys) (a : atomic_sys) n tr hands :
  sim_holding hs s a -> atomic_inv n tr a hands -> no_panic s.
Proof.
  intros Hsim Hinv. apply Forall_lookup. intros t c Hc.
  destruct (sim_lookup _ _ _ _ _ Hsim Hc) as (afs & h & Ha & _ & Hrel).
  destruct (lookup_lt_is_Some_2 hands t) as [hand Hhand].
  { rewrite (ai_hands _ _ _ _ Hinv), <-(ai_cores _ _ _ _ Hinv). by eapply lookup_lt_Some. }
  pose proof (ai_calls _ _ _ _ Hinv t afs hand Ha Hhand) as Hcalls.
  assert (Htop : forall f af rf, top_rel rf h f af -> f_code af <> APanic -> f_code f <> Crash).
  { intros f af rf (_ & entry & _ & _ & Hsf) Hne Hcr. rewrite Hcr in Hsf. done. }
  assert (Hsafe : forall (af : frame (api (list task))) hd, handles n (f_code af) hd returns_hand -> f_code af <> APanic).
  { intros af hd Hh Hp. by rewrite Hp in Hh. }
  unfold core_rel in Hrel. destruct (c_frames c) as [|f [|f0 [|]]], afs as [|af [|af0 [|]]]; try done.
  - destruct Hcalls as (h0 & rest & _ & Hf & _). constructor; [|done].
    exact (Htop _ _ _ Hrel (Hsafe _ _ Hf)).
  - destruct Hcalls as (h0 & rest & _ & Hf & h1 & rest1 & _ & Hf0 & _). destruct Hrel as (Ht & _ & _ & _ & Hout).
    constructor; [exact (Htop _ _ _ Ht (Hsafe _ _ Hf))|]. constructor; [|done].
    intros Hcr. rewrite Hcr in Hout. exact (Hsafe _ _ Hf0 Hout).
Qed.

(** What has become of the tasks. *)
Lemma calls_never_panic n rf tr s :
  Z.of_nat n < 2 ^ 32 -> trace conc_step (conc_init n rf) tr s -> calls_valid n tr -> no_panic s.
Proof.
  intros Hn Htr Hvalid. destruct (reachable n rf tr s Hn Htr Hvalid) as (tr' & a & hands & _ & _ & [hs Hsim] & Hinv).
  by eapply calls_no_panic.
Qed.

Lemma tasks_accounted n rf tr s :
  Z.of_nat n < 2 ^ 32 -> trace conc_step (conc_init n rf) tr s -> calls_valid n tr ->
  returned tr ⊆+ given tr /\
  (quiescent s ->
   Forall (fun q => locked (cq_lock q) = false) (shared s) /\
   given tr ≡ₚ returned tr ++ concat (map (fun q => sl_data (cq_lock q)) (shared s))).
Proof.
  intros Hn Htr Hvalid.
  destruct (reachable n rf tr s Hn Htr Hvalid) as (tr' & a & hands & _ & Hobs & [hs Hsim] & Hinv).
  pose proof (ai_tasks _ _ _ _ Hinv) as Htasks.
  rewrite <-(given_observed tr'), <-(returned_observed tr'), Hobs, given_observed, returned_observed in Htasks.
  split.
  - rewrite Htasks. apply submseteq_inserts_r. done.
  - intros Hq. split; [by eapply quiescent_free|].
    by rewrite (quiescent_data _ _ _ Hsim Hq), Htasks, (quiescent_hands _ _ _ _ _ _ Hsim Hinv Hq), app_nil_r.
Qed.

(** ** Properties *)

(** C2: the scheduler is atomic at the operations of its run queues. Whatever way
    the atomic operations of the cores' calls are interleaved, timer interrupts
    included, the calls, interrupts and returns are those of an execution in which
    every [push], [pop], [steal_half] and [len] is one step of a double-ended
    queue; and in the state reached every counter is the abstract queue's, and a
    queue whose lock is free holds the abstract queue's tasks. *)
Theorem conc_refines_atomic n rf tr s :
  trace conc_step (conc_init n rf) tr s ->
  exists tr' a, trace atomic_step (atomic_init n) tr' a /\ observed tr' = observed tr /\
    map cq_len (shared s) = map rq_len (shared a) /\
    forall i q, shared s !! i = Some q -> locked (cq_lock q) = false ->
      exists aq, shared a !! i = Some aq /\ sl_data (cq_lock q) = rq_queue aq.
Proof.
  intros Htr. destruct (sim_trace _ _ _ _ (sim_init n rf) Htr) as (tr' & a & Htr' & Hobs & [hs Hsim]).
  exists tr', a. do 2 (split; [done|]). split; [by eapply sim_counters|].
  intros i q Hq Hl. destruct (sim_free _ _ _ i q Hsim Hq Hl) as (aq & ? & ? & _). by exists aq.
Qed.

(** C1: no interleaving of the cores loses or duplicates a task, or makes a call
    panic: at any time the calls have returned only tasks that were handed to the
    scheduler, each no more often than it was handed in; and when all calls are
    finished, every lock is free and every task is either returned or in exactly
    one queue. *)
Theorem conc_conserves_tasks n rf tr s :
  Z.of_nat n < 2 ^ 32 -> trace conc_step (conc_init n rf) tr s -> calls_valid n tr ->
  no_panic s /\ returned tr ⊆+ given tr /\
  (quiescent s ->
   Forall (fun q => locked (cq_lock q) = false) (shared s) /\
   given tr ≡ₚ returned tr ++ concat (map (fun q => sl_data (cq_lock q)) (shared s))).
Proof. intros Hn Htr Hvalid. split; [by eapply calls_never_panic|by eapply tasks_accounted]. Qed.

(** C3: no deadlock and no livelock: while a call is going on some core can do
    work, that is an operation other than a failed exchange; work cannot go on for
    ever without new calls and interrupts; so that from every state the calls
    under way can all be finished, without a new one. *)
Theorem conc_completes n rf tr s :
  Z.of_nat n < 2 ^ 32 -> trace conc_step (conc_init n rf) tr s -> calls_valid n tr ->
  (~ quiescent s -> exists s', conc_work s s') /\
  Acc (flip conc_work) s /\
  exists tr' s', trace conc_step s tr' s' /\ Forall (fun e => work_event (snd e)) tr' /\ quiescent s'.
Proof.
  intros Hn Htr Hvalid. split; [|split; [apply conc_work_acc|by eapply conc_finishes]].
  intros Hq. destruct (quiescent_or_running s) as [Hq'|(t & c & Hc & Hfs)]; [done|].
  by eapply conc_progress.
Qed.

(** C8: the counters that [least_loaded_core] and [busiest_core] read without the
    lock never wrap around or go below zero, at any moment of any interleaving,
    while fewer than 2^64 tasks were handed in: together they count no more tasks
    than were handed in and not returned; and where the lock is free the counter
    is the length of the queue. *)
Theorem conc_len_bounds n rf tr s :
  Z.of_nat n < 2 ^ 32 -> trace conc_step (conc_init n rf) tr s -> calls_valid n tr ->
  Z.of_nat (length (given tr)) < 2 ^ 64 ->
  foldr Z.add 0 (map cq_len (shared s)) <= Z.of_nat (length (given tr)) - Z.of_nat (length (returned tr)) /\
  Forall (fun q => 0 <= cq_len q /\
    (locked (cq_lock q) = false -> cq_len q = Z.of_nat (length (sl_data (cq_lock q))))) (shared s).
Proof.
  intros Hn Htr Hvalid.
  destruct (reachable n rf tr s Hn Htr Hvalid) as (tr' & a & hands & Htr' & Hobs & [hs Hsim] & Hinv).
  rewrite <-(given_observed tr), <-(returned_observed tr), <-Hobs, given_observed, returned_observed.
  intros Hlt. pose proof (counts_trace n tr' a Htr') as Hc.
  assert (Hexact : Forall (fun q => rq_len q = Z.of_nat (length (rq_queue q))) (shared a)).
  { apply Forall_lookup. intros i q Hq. by eapply counter_exact. }
  split.
  - rewrite (sim_counters _ _ _ Hsim), (counters_sum _ Hexact). pose proof (queued_le _ _ _ _ Hinv). lia.
  - apply Forall_lookup. intros i q Hq.
    destruct (queues_counter _ _ _ i q (sim_queues _ _ _ Hsim) Hq) as (aq & Ha & Hl).
    pose proof (Forall_lookup_1 _ _ _ _ Hexact Ha) as Hx. simpl in Hx. split; [lia|].
    intros Hf. destruct (sim_free _ _ _ i q Hsim Hq Hf) as (aq' & Ha' & Hd & _). simplify_eq. congruence.
Qed.

(** ** Witnesses *)

(** Core 0 gives core 1 a task while core 1 looks for one, and waits for the lock;
    the timer interrupts core 1 as it releases it. *)
Definition demo_start : conc_sys := conc_init 2 (fun _ => 512).

Definition demo_waiting : list (nat * conc_action) :=
  (0%nat, ActCall (OpSpawnOn 1 (demo_queue_task 7))) :: replicate 3 (0%nat, ActRun) ++
  (1%nat, ActCall (OpSchedule 1)) :: replicate 3 (1%nat, ActRun).

Definition demo_finished : list (nat * conc_action) :=
  demo_waiting ++ replicate 5 (0%nat, ActRun) ++ replicate 5 (1%nat, ActRun) ++
  (1%nat, ActTimer) :: replicate 8 (1%nat, ActRun).

Definition demo_run (sched : list (nat * conc_action)) : conc_sys * list (nat * conc_event) :=
  default (demo_start, []) (run conc_act demo_start sched).

Lemma demo_runs sched : 
  (exists x, run conc_act demo_start sched = Some x) ->
  trace conc_step demo_start (snd (demo_run sched)) (fst (demo_run sched)).
Proof.
  intros [[s tr] Hrun]. unfold demo_run. rewrite Hrun. by eapply run_trace.
Qed.

Lemma demo_finished_runs : exists x, run conc_act demo_start demo_finished = Some x.
Proof. eexists. vm_compute. exact eq_refl. Qed.

Lemma demo_waiting_runs : exists x, run conc_act demo_start demo_waiting = Some x.
Proof. eexists. vm_compute. exact eq_refl. Qed.

Lemma demo_calls_valid : calls_valid 2 (snd (demo_run demo_finished)) /\ calls_valid 2 (snd (demo_run demo_waiting)).
Proof. vm_compute. split; repeat constructor. Qed.

Lemma conc_refines_atomic_witness :
  exists tr' a, trace atomic_step (atomic_init 2) tr' a /\
    map (fun e => fst e) (observed tr') = [0; 1]%nat /\ 
    map cq_len (shared (fst (demo_run demo_waiting))) = map rq_len (shared a).
Proof.
  destruct (conc_refines_atomic 2 (fun _ => 512) _ _ (demo_runs demo_waiting demo_waiting_runs))
    as (tr' & a & Htr & Hobs & Hlen & _).
  exists tr', a. split; [exact Htr|]. split; [|exact Hlen]. rewrite Hobs. vm_compute. exact eq_refl.
Defined.

Lemma conc_conserves_tasks_witness :
  quiescent (fst (demo_run demo_finished)) /\
  given (snd (demo_run demo_finished)) = [demo_queue_task 7] /\
  given (snd (demo_run demo_finished)) ≡ₚ returned (snd (demo_run demo_finished)) ++
    concat (map (fun q => sl_data (cq_lock q)) (shared (fst (demo_run demo_finished)))).
Proof.
  assert (Hq : quiescent (fst (demo_run demo_finished))) by (vm_compute; repeat constructor).
  split; [exact Hq|]. split; [vm_compute; exact eq_refl|].
  destruct (conc_conserves_tasks 2 (fun _ => 512) _ _ ltac:(done) (demo_runs demo_finished demo_finished_runs)
    (proj1 demo_calls_valid)) as (_ & _ & H). apply H. exact Hq.
Defined.

Lemma conc_completes_witness :
  exists tr' s', trace conc_step (fst (demo_run demo_waiting)) tr' s' /\
    Forall (fun e => work_event (snd e)) tr' /\ quiescent s'.
Proof.
  destruct (conc_completes 2 (fun _ => 512) _ _ ltac:(done) (demo_runs demo_waiting demo_waiting_runs)
    (proj2 demo_calls_valid)) as (_ & _ & H). exact H.
Defined.

Lemma conc_len_bounds_witness :
  foldr Z.add 0 (map cq_len (shared (fst (demo_run demo_waiting)))) <= 1.
Proof.
  refine (proj1 (conc_len_bounds 2 (fun _ => 512) _ _ ltac:(done) (demo_runs demo_waiting demo_waiting_runs)
    (proj2 demo_calls_valid) _)). vm_compute. exact eq_refl.
Defined.
