(* ===== verification/Fences.v ===== *)
(** * Fences: the memory fences of src/src/spinlock.rs on x86 memory

    Every processor has a FIFO store buffer: its stores reach memory later, and
    its loads see its own newest store first (x86-TSO). A fence of the source is
    the list of instructions it compiles to: a sequentially consistent [fence] and
    [mfence] empty the buffer; for acquire and release there is nothing to do on
    x86, and [sfence] and [lfence] order nothing that ordinary memory does not
    order. The compiler may move memory accesses too: [may_swap] says past which
    fences. *)

From stdpp Require Import gmap.
From S2P Require Import Prelude Threads.

(** ** Instructions *)

Inductive instr :=
| IStore (a : nat) (v : Z)
| ILoad (a : nat)
| IMfence
| ISfence
| ILfence.

#[global] Instance instr_eq_dec : EqDecision instr.
Proof. solve_decision. Defined.

(** ** The functions of the source *)

(** [core::sync::atomic::fence] compiles to [mfence] for [SeqCst] and to nothing for
    [Acquire] and [Release]: loads are not reordered with later accesses, nor
    stores with earlier ones. *)
Definition fence_seq_cst : list instr := [IMfence].
Definition fence_acquire : list instr := [].
Definition fence_release : list instr := [].

Definition mfence : list instr := [IMfence].
Definition sfence : list instr := [ISfence].
Definition lfence : list instr := [ILfence].

(** ** The two machines *)

(** Memory that was not written holds 0. *)
Definition mem := gmap nat Z.

Definition read (m : mem) (a : nat) : Z := default 0 (m !! a).

Definition store (w : nat * Z) (m : mem) : mem := <[fst w := snd w]> m.

(** The memory as a processor sees it: its own stores, oldest first, are made. *)
Definition through (buf : list (nat * Z)) (m : mem) : mem := foldl (fun m w => store w m) m buf.

(** A processor: what it has yet to execute, its store buffer, and the values it
    loaded. *)
Record proc := Proc { p_prog : list instr; p_buf : list (nat * Z); p_loaded : list Z }.

#[global] Instance proc_eq_dec : EqDecision proc.
Proof. solve_decision. Defined.

Inductive mem_action := Execute | Flush.

(** x86-TSO. An [mfence] waits until the buffer is empty. *)
Definition tso_act (_ : nat) (x : mem_action) (m : mem) (p : proc) : option (mem * proc * unit) :=
  match x, p with
  | Flush, Proc prog (w :: buf) ld => Some (store w m, Proc prog buf ld, tt)
  | Flush, _ => None
  | Execute, Proc (IStore a v :: prog) buf ld => Some (m, Proc prog (buf ++ [(a, v)]) ld, tt)
  | Execute, Proc (ILoad a :: prog) buf ld => Some (m, Proc prog buf (ld ++ [read (through buf m) a]), tt)
  | Execute, Proc (IMfence :: prog) [] ld => Some (m, Proc prog [] ld, tt)
  | Execute, Proc ((ISfence | ILfence) :: prog) buf ld => Some (m, Proc prog buf ld, tt)
  | Execute, _ => None
  end.

(** Sequential consistency: stores are made at once, fences do nothing. *)
Definition sc_act (_ : nat) (x : mem_action) (m : mem) (p : proc) : option (mem * proc * unit) :=
  match x, p with
  | Execute, Proc (IStore a v :: prog) buf ld => Some (store (a, v) m, Proc prog buf ld, tt)
  | Execute, Proc (ILoad a :: prog) buf ld => Some (m, Proc prog buf (ld ++ [read m a]), tt)
  | Execute, Proc ((IMfence | ISfence | ILfence) :: prog) buf ld => Some (m, Proc prog buf ld, tt)
  | _, _ => None
  end.

Abbreviation mem_sys := (sys mem proc).

Definition mem_init (progs : list (list instr)) : mem_sys := Sys ∅ (map (fun p => Proc p [] []) progs).

(** ** Specification *)

(** No load comes after a store, but for an [mfence] in between; [pending] says
    that a store came before. *)
Fixpoint fenced (pending : bool) (prog : list instr) : bool :=
  match prog with
  | [] => true
  | IStore _ _ :: prog => fenced true prog
  | ILoad _ :: prog => negb pending && fenced false prog
  | IMfence :: prog => fenced false prog
  | (ISfence | ILfence) :: prog => fenced pending prog
  end.

Definition is_fence (i : instr) : bool :=
  match i with IMfence | ISfence | ILfence => true | _ => false end.

Definition without_fences (prog : list instr) : list instr := List.filter (fun i => negb (is_fence i)) prog.

(** A processor that has made all its stores. *)
Definition finished (s : mem_sys) : Prop := Forall (fun p => p_prog p = [] /\ p_buf p = []) (locals s).

Definition loads (s : mem_sys) : list (list Z) := map p_loaded (locals s).

(** ** Proofs: fenced programs *)

Lemma fenced_weaken prog pending : fenced true prog = true -> fenced pending prog = true.
Proof.
  destruct pending; [done|]. induction prog as [|[] prog IH]; simpl; by auto.
Qed.

(** The sequentially consistent processor lags behind by the stores in the buffer. *)
Definition lags (p q : proc) : Prop :=
  p_prog q = map (fun w => IStore (fst w) (snd w)) (p_buf p) ++ without_fences (p_prog p) /\
  p_buf q = [] /\ p_loaded q = p_loaded p /\
  fenced (match p_buf p with [] => false | _ => true end) (p_prog p) = true.

Definition mem_sim (s a : mem_sys) : Prop :=
  shared s = shared a /\ Forall2 lags (locals s) (locals a).

(** A step of one is at most a step of the other. *)
Lemma lags_step t x m p m' p' e q :
  lags p q -> tso_act t x m p = Some (m', p', e) ->
  (m' = m /\ lags p' q) \/ exists q', sc_act t Execute m q = Some (m', q', tt) /\ lags p' q'.
Proof.
  destruct p as [prog buf ld], q as [prog' buf' ld']. intros (Hprog & Hbuf & Hld & Hf) Hact.
  simpl in Hprog, Hbuf, Hld, Hf. subst prog' buf' ld'. destruct x.
  - destruct prog as [|[a v|a| | |] prog]; simpl in Hact; [done|..].
    + simplify_eq. left. split; [done|]. split_and!; simpl in *; try done.
      * rewrite map_app, <-app_assoc. done.
      * by destruct buf.
    + simplify_eq. destruct buf; [|done]. right. eexists. split; [done|]. split_and!; done.
    + destruct buf; [|done]. simplify_eq. left. split; [done|]. by split_and!.
    + simplify_eq. left. split; [done|]. by split_and!.
    + simplify_eq. left. split; [done|]. by split_and!.
  - destruct buf as [|[a v] buf]; simpl in Hact; [by destruct prog as [|[] ?]|].
    assert (Heq : m' = store (a, v) m /\ p' = Proc prog buf ld) by (by destruct prog as [|[] ?]; simplify_eq).
    destruct Heq as [-> ->]. right. eexists. split; [done|]. split_and!; simpl; try done.
    destruct buf; [by apply fenced_weaken|done].
Qed.

Abbreviation tso_step := (step tso_act).
Abbreviation sc_step := (step sc_act).

Lemma mem_sim_step s a e s' :
  mem_sim s a -> tso_step s e s' -> exists a', mem_sim s' a' /\ (a' = a \/ exists e', sc_step a e' a').
Proof.
  intros [Hm Hall] Hstep. destruct e as [t e]. apply step_inv in Hstep as (p & x & m' & p' & Hp & Hact & ->).
  destruct (Forall2_lookup_l _ _ _ _ _ Hall Hp) as (q & Hq & Hlag). destruct a as [m qs]. simpl in Hm, Hq, Hall.
  subst m. destruct (lags_step _ _ _ _ _ _ _ _ Hlag Hact) as [[-> Hlag']|(q' & Hact' & Hlag')].
  - exists (Sys (shared s) qs). split; [|by left]. split; [done|]. simpl.
    rewrite <-(list_insert_id qs t q) by done. by apply Forall2_insert.
  - exists (Sys m' (<[t := q']> qs)). split; [split; [done|]; by apply Forall2_insert|].
    right. exists (t, tt). by econstructor.
Qed.

Lemma mem_sim_init progs :
  Forall (fun p => fenced false p = true) progs ->
  mem_sim (mem_init progs) (mem_init (map without_fences progs)).
Proof.
  intros Hf. split; [done|]. simpl. rewrite map_map. induction Hf as [|p progs Hp _ IH]; [constructor|].
  constructor; [|done]. by split_and!.
Qed.

Lemma fenced_trace progs tr s :
  Forall (fun p => fenced false p = true) progs -> trace tso_step (mem_init progs) tr s ->
  exists tr' a, trace sc_step (mem_init (map without_fences progs)) tr' a /\ mem_sim s a.
Proof.
  intros Hf Htr. remember (mem_init progs) as s0 eqn:Hs0.
  induction Htr as [|s0 tr s1 e s2 Htr IH Hstep]; subst.
  { exists [], (mem_init (map without_fences progs)). split; [constructor|by apply mem_sim_init]. }
  destruct (IH eq_refl) as (tr' & a & Htr' & Hsim). destruct (mem_sim_step _ _ _ _ Hsim Hstep) as (a' & Hsim' & [->|[e' He]]).
  - by exists tr', a.
  - exists (tr' ++ [e']), a'. split; [by eapply trace_snoc|done].
Qed.

Lemma mem_sim_loads s a : mem_sim s a -> loads a = loads s.
Proof.
  intros [_ Hall]. unfold loads. induction Hall as [|p q ps qs (_ & _ & Hld & _) _ IH]; [done|].
  simpl. by rewrite Hld, IH.
Qed.

Lemma mem_sim_finished s a : mem_sim s a -> finished s -> finished a.
Proof.
  intros [_ Hall] Hf. unfold finished in *. induction Hall as [|p q ps qs (Hprog & Hbuf & _) _ IH]; [done|].
  apply Forall_cons in Hf as [[H1 H2] Hf]. constructor; [|by apply IH]. by rewrite Hprog, Hbuf, H1, H2.
Qed.

(** ** Two programs that need fences *)

(** Each processor announces itself and then looks for the other. *)
Definition store_buffering (fence : list instr) : list (list instr) :=
  [[IStore 0 1] ++ fence ++ [ILoad 1]; [IStore 1 1] ++ fence ++ [ILoad 0]].

(** One processor publishes 42 and sets a flag; the other looks at the flag and then
    at the data. *)
Definition message_passing : list (list instr) :=
  [[IStore 0 42] ++ fence_release ++ [IStore 1 1]; [ILoad 1] ++ fence_acquire ++ [ILoad 0]].

Definition mem_actions : list mem_action := [Execute; Flush].

Lemma mem_actions_all x : x ∈ mem_actions.
Proof. destruct x; [apply list_elem_of_here|apply list_elem_of_further, list_elem_of_here]. Qed.

(** The states that sequential consistency allows. *)
Definition sc_states (progs : list (list instr)) : list mem_sys :=
  explore sc_act mem_actions 1000 [mem_init progs] [].

Lemma sc_states_all progs (P : mem_sys -> bool) tr s :
  closed sc_act mem_actions (sc_states progs) = true -> bool_decide (mem_init progs ∈ sc_states progs) = true ->
  forallb P (sc_states progs) = true ->
  trace sc_step (mem_init progs) tr s -> P s = true.
Proof.
  intros Hcl Hin HP Htr. apply bool_decide_eq_true in Hin.
  pose proof (closed_trace sc_act mem_actions _ _ _ _ mem_actions_all Hcl Hin Htr) as Hs.
  rewrite forallb_forall in HP. by apply HP, list_elem_of_In.
Qed.

(** ** What the compiler may do *)

(** The functions of the source, among the stores and loads around them. *)
Inductive fence := FSeqCst | FAcquire | FRelease | FMfence | FSfence | FLfence.

Inductive stmt :=
| SStore (a : nat) (v : Z)
| SLoad (a : nat)
| SFence (f : fence).

Definition fence_code (f : fence) : list instr :=
  match f with
  | FSeqCst => fence_seq_cst
  | FAcquire => fence_acquire
  | FRelease => fence_release
  | FMfence => mfence
  | FSfence => sfence
  | FLfence => lfence
  end.

Definition stmt_code (s : stmt) : list instr :=
  match s with
  | SStore a v => [IStore a v]
  | SLoad a => [ILoad a]
  | SFence f => fence_code f
  end.

(** [mfence], [sfence] and [lfence] are assembly blocks with [options(nomem)]: the
    compiler is told that they access no memory. *)
Definition nomem (f : fence) : bool :=
  match f with FMfence | FSfence | FLfence => true | _ => false end.

(** An access before a fence that may be made after it, and one after that may be
    made before. *)
Definition sinks (s : stmt) (f : fence) : bool :=
  nomem f || match f, s with FAcquire, SStore _ _ => true | _, _ => false end.

Definition rises (f : fence) (s : stmt) : bool :=
  nomem f || match f, s with FRelease, SLoad _ => true | _, _ => false end.

(** Statements next to each other that the compiler may exchange: accesses (other
    than of a stronger ordering than relaxed) to different places, and accesses and
    fences. *)
Definition may_swap (s1 s2 : stmt) : bool :=
  match s1, s2 with
  | (SStore a _ | SLoad a), (SStore b _ | SLoad b) => negb (a =? b)%nat
  | (SStore _ _ | SLoad _), SFence f => sinks s1 f
  | SFence f, (SStore _ _ | SLoad _) => rises f s2
  | SFence _, SFence _ => false
  end.

Inductive reorders : list stmt -> list stmt -> Prop :=
| reorders_refl p : reorders p p
| reorders_swap p1 s1 s2 p2 p :
    may_swap s1 s2 = true -> reorders (p1 ++ s2 :: s1 :: p2) p -> reorders (p1 ++ s1 :: s2 :: p2) p.

(** The machine code that a program may become. *)
Definition compiles (p : list stmt) (c : list instr) : Prop :=
  exists p', reorders p p' /\ c = concat (map stmt_code p').

Definition store_buffering_src (f : fence) : list (list stmt) :=
  [[SStore 0 1; SFence f; SLoad 1]; [SStore 1 1; SFence f; SLoad 0]].

(** The code of a program whose statements the compiler leaves in place, and its
    accesses alone. *)
Definition emit (p : list stmt) : list instr := concat (map stmt_code p).

Definition is_access (s : stmt) : bool := match s with SFence _ => false | _ => true end.

Definition accesses_of (p : list stmt) : list stmt := List.filter is_access p.

(** A [fence_seq_cst] or an [mfence] stands between every store and the loads that
    come after it; [pending] says that a store came before. *)
Fixpoint ordered (pending : bool) (p : list stmt) : bool :=
  match p with
  | [] => true
  | SStore _ _ :: p => ordered true p
  | SLoad _ :: p => negb pending && ordered false p
  | SFence (FSeqCst | FMfence) :: p => ordered false p
  | SFence _ :: p => ordered pending p
  end.

(** *** Proofs: ordered programs are fenced *)

Lemma ordered_weaken p pending : ordered true p = true -> ordered pending p = true.
Proof. destruct pending; [done|]. induction p as [|[a v|a|[]] p IH]; simpl; by auto. Qed.

Lemma ordered_fenced p pending : ordered pending p = true -> fenced pending (emit p) = true.
Proof.
  revert pending. induction p as [|[a v|a|f] p IH]; intros pending; [done|apply IH| |].
  - simpl. rewrite !andb_true_iff. intros [-> Hp]. split; [done|by apply IH].
  - destruct f; simpl; apply IH.
Qed.

Lemma emit_without_fences p : without_fences (emit p) = emit (accesses_of p).
Proof.
  induction p as [|[a v|a|f] p IH]; [done|..].
  - unfold emit in *. simpl. by rewrite <-IH.
  - unfold emit in *. simpl. by rewrite <-IH.
  - destruct f; exact IH.
Qed.

(** *** Proofs: programs that the compiler leaves alone *)

Fixpoint rigid (p : list stmt) : bool :=
  match p with
  | s1 :: (s2 :: _) as p' => negb (may_swap s1 s2) && rigid p'
  | _ => true
  end.

Lemma rigid_middle p1 s1 s2 p2 : rigid (p1 ++ s1 :: s2 :: p2) = true -> may_swap s1 s2 = false.
Proof.
  induction p1 as [|s p1 IH]; intros Hr.
  - simpl in Hr. apply andb_prop in Hr as [Hr _]. by apply negb_true_iff.
  - apply IH. destruct p1; simpl in *; by apply andb_prop in Hr as [_ Hr].
Qed.

Lemma rigid_reorders p p' : rigid p = true -> reorders p p' -> p' = p.
Proof.
  intros Hr Hre. destruct Hre as [p|p1 s1 s2 p2 p Hs Hre]; [done|].
  by rewrite (rigid_middle _ _ _ _ Hr) in Hs.
Qed.

Lemma rigid_compiles ps progs :
  Forall (fun p => rigid p = true) ps -> Forall2 compiles ps progs ->
  progs = map emit ps.
Proof.
  intros Hr Hall. induction Hall as [|p c ps progs (p' & Hre & ->) _ IH]; [done|].
  apply Forall_cons in Hr as [Hp Hr]. simpl. by rewrite (rigid_reorders _ _ Hp Hre), <-(IH Hr).
Qed.

(** No execution of the programs [progs], which are fenced, ends with the loads [bad]. *)
Lemma fenced_never progs (bad : list (list Z)) tr s :
  forallb (fenced false) progs = true ->
  closed sc_act mem_actions (sc_states (map without_fences progs)) = true ->
  bool_decide (mem_init (map without_fences progs) ∈ sc_states (map without_fences progs)) = true ->
  forallb (fun a => negb (bool_decide (loads a = bad))) (sc_states (map without_fences progs)) = true ->
  trace tso_step (mem_init progs) tr s -> loads s <> bad.
Proof.
  intros Hf Hcl Hin HP Htr Hbad. destruct (fenced_trace progs tr s) as (tr' & a & Htr' & Hsim); [|done|].
  - apply Forall_forall. intros p Hp. rewrite forallb_forall in Hf. by apply Hf, list_elem_of_In.
  - pose proof (sc_states_all _ _ _ _ Hcl Hin HP Htr') as Hneg. simpl in Hneg.
    rewrite (mem_sim_loads _ _ Hsim), Hbad, bool_decide_eq_true_2 in Hneg by done. done.
Qed.

(** ** Properties *)

(** C9: a program that calls [fence_seq_cst] or [mfence] between every store and
    the loads that follow it runs on x86 as its accesses alone run on sequentially
    consistent memory: every execution with store buffers reaches the memory, the
    loaded values and the end that an execution without them reaches. This holds of
    the code of the program as it is written; and, whatever the compiler does with
    the accesses, of a program whose fences leave it no two neighbouring statements
    to exchange (which [mfence] next to an access does not). *)
Theorem fences_restore_sc ps progs tr s :
  Forall (fun p => ordered false p = true) ps ->
  progs = map emit ps \/ (Forall (fun p => rigid p = true) ps /\ Forall2 compiles ps progs) ->
  trace tso_step (mem_init progs) tr s ->
  exists tr' a, trace sc_step (mem_init (map (fun p => emit (accesses_of p)) ps)) tr' a /\
    shared a = shared s /\ loads a = loads s /\ (finished s -> finished a).
Proof.
  intros Ho Hc Htr. assert (progs = map emit ps) as ->.
  { destruct Hc as [->|[Hr Hc]]; [done|by apply rigid_compiles]. }
  assert (Hf : Forall (fun p => fenced false p = true) (map emit ps)).
  { apply Forall_map. eapply Forall_impl; [exact Ho|]. intros p. apply ordered_fenced. }
  destruct (fenced_trace _ tr s Hf Htr) as (tr' & a & Htr' & Hsim). exists tr', a.
  rewrite map_map in Htr'. rewrite (map_ext _ (fun p => emit (accesses_of p)) emit_without_fences) in Htr'.
  split; [done|]. split; [by destruct Hsim|]. split; [by apply mem_sim_loads|by apply mem_sim_finished].
Qed.

(** C10: what the atomic fences are for, whatever the compiler does with the accesses
    around them: with [fence_seq_cst] between its store and its load, one of two
    processors that announce themselves sees the other; and a reader that sees a
    flag, and calls [fence_acquire], sees the data written before it, if the writer
    called [fence_release] in between. *)
Theorem atomic_fences_order progs tr s :
  trace tso_step (mem_init progs) tr s ->
  (Forall2 compiles (store_buffering_src FSeqCst) progs -> loads s <> [[0]; [0]]) /\
  (Forall2 compiles [[SStore 0 42; SFence FRelease; SStore 1 1]; [SLoad 1; SFence FAcquire; SLoad 0]] progs ->
   loads s <> [[]; [1; 0]]).
Proof.
  intros Htr. split; intros Hc; apply rigid_compiles in Hc; try (by repeat constructor); subst progs;
    revert Htr; apply fenced_never; vm_compute; exact eq_refl.
Qed.

(** C11: [mfence] is not the full barrier that its comment says. The instruction is:
    with it where the source has it, one of the two processors sees the other. But
    the assembly is declared to access no memory, so the compiler may move the load
    before it and before the store; and then neither may see the other. *)
Theorem mfence_not_a_barrier :
  (forall tr s, trace tso_step (mem_init (store_buffering mfence)) tr s -> loads s <> [[0]; [0]]) /\
  exists progs tr s, Forall2 compiles (store_buffering_src FMfence) progs /\
    trace tso_step (mem_init progs) tr s /\ finished s /\ loads s = [[0]; [0]].
Proof.
  split.
  - intros tr s. apply fenced_never; vm_compute; exact eq_refl.
  - exists [[ILoad 1; IStore 0 1; IMfence]; [ILoad 0; IStore 1 1; IMfence]].
    eexists _, _. split; [|split; [|split]].
    + assert (Hc : forall a b, a <> b ->
        compiles [SStore a 1; SFence FMfence; SLoad b] [ILoad b; IStore a 1; IMfence]).
      { intros a b Hab. exists [SLoad b; SStore a 1; SFence FMfence]. split; [|done].
        apply (reorders_swap [SStore a 1] (SFence FMfence) (SLoad b) []); [done|].
        apply (reorders_swap [] (SStore a 1) (SLoad b) [SFence FMfence]); [|constructor].
        simpl. by destruct (Nat.eqb_spec a b). }
      repeat constructor; by apply Hc.
    + apply (run_trace tso_act _ [(0%nat, Execute); (1%nat, Execute); (0%nat, Execute); (1%nat, Execute);
        (0%nat, Flush); (1%nat, Flush); (0%nat, Execute); (1%nat, Execute)]). vm_compute. exact eq_refl.
    + repeat constructor.
    + exact eq_refl.
Qed.

(** ** Witnesses *)

Definition demo_fence_sched : list (nat * mem_action) :=
  [(0%nat, Execute); (1%nat, Execute); (0%nat, Flush); (1%nat, Flush); (0%nat, Execute); (1%nat, Execute);
   (0%nat, Execute); (1%nat, Execute)].

Definition demo_fence_run : mem_sys * list (nat * unit) :=
  default (mem_init [], []) (run tso_act (mem_init (store_buffering fence_seq_cst)) demo_fence_sched).

Lemma demo_fence_runs :
  trace tso_step (mem_init (store_buffering fence_seq_cst)) (snd demo_fence_run) (fst demo_fence_run).
Proof. apply (run_trace _ _ demo_fence_sched). vm_compute. exact eq_refl. Qed.

(** With [mfence] the code as it is written, with [fence_seq_cst] whatever the
    compiler makes of it. *)
Lemma fences_restore_sc_witness :
  (exists tr' a, trace sc_step (mem_init (map (fun p => emit (accesses_of p)) (store_buffering_src FMfence))) tr' a /\
     loads a = [[1]; [1]] /\ finished a) /\
  (exists tr' a, trace sc_step (mem_init (map (fun p => emit (accesses_of p)) (store_buffering_src FSeqCst))) tr' a /\
     loads a = [[1]; [1]] /\ finished a).
Proof.
  assert (Hl : loads (fst demo_fence_run) = [[1]; [1]]) by (vm_compute; exact eq_refl).
  assert (Hf : finished (fst demo_fence_run)) by (vm_compute; repeat constructor).
  split.
  - destruct (fences_restore_sc (store_buffering_src FMfence) _ _ _ ltac:(repeat constructor) (or_introl eq_refl)
      demo_fence_runs) as (tr' & a & Htr & _ & Hla & Hfa).
    exists tr', a. split; [exact Htr|]. split; [by rewrite Hla|by apply Hfa].
  - assert (Hc : Forall2 compiles (store_buffering_src FSeqCst) (store_buffering fence_seq_cst)).
    { constructor; [|constructor; [|constructor]]; (eexists; split; [constructor|exact eq_refl]). }
    assert (Hr : Forall (fun p => rigid p = true) (store_buffering_src FSeqCst)) by repeat constructor.
    destruct (fences_restore_sc (store_buffering_src FSeqCst) _ _ _ ltac:(repeat constructor)
      (or_intror (conj Hr Hc)) demo_fence_runs) as (tr' & a & Htr & _ & Hla & Hfa).
    exists tr', a. split; [exact Htr|]. split; [by rewrite Hla|by apply Hfa].
Defined.

Lemma atomic_fences_order_witness : loads (fst demo_fence_run) <> [[0]; [0]].
Proof.
  apply (atomic_fences_order _ _ _ demo_fence_runs).
  constructor; [|constructor; [|constructor]]; (eexists; split; [constructor|exact eq_refl]).
Defined.
