(* ===== verification/Tso.v ===== *)
(** * Tso: lock machines on memory with store buffers

    The lock components interleave the operations of their code on one memory. On
    x86 a store waits in the store buffer of the processor that made it, which its
    own loads look into first; a locked instruction (fetch-and-add,
    compare-and-exchange) waits until the buffer is empty and acts on memory. This
    file runs a machine of [Threads.v] on such a memory, states what a
    synchronisation protocol must promise ([StoreProtocol]), and proves that a
    machine that keeps the promise does with store buffers what it does without:
    a simulation, whose abstract machine may read an old value where the protocol
    says so. *)

From S2P Require Import Prelude Threads.

(** ** The machine *)

(** How an operation accesses the shared state: at most loads; a store; a locked
    instruction. *)
Inductive access_kind := Loads | Stores | Locked.

(** A machine of [Threads.v], and its stores: [b_write w] is the effect of the
    store [w], and [b_store t w l q] the action that makes it when thread [t] is at
    [q] and sees [l] ([None]: the code makes no such store there). *)
Record buffered (A L P E W : Type) := Buffered {
  b_act : nat -> A -> L -> P -> option (L * P * E);
  b_kind : A -> P -> access_kind;
  b_write : W -> L -> L;
  b_store : nat -> W -> L -> P -> option A;
}.
Arguments Buffered {A L P E W} _ _ _ _.
Arguments b_act {A L P E W} _ _ _ _ _.
Arguments b_kind {A L P E W} _ _ _.
Arguments b_write {A L P E W} _ _ _.
Arguments b_store {A L P E W} _ _ _ _ _.

(** A thread on its processor: where it is, and the stores that wait. *)
Record tso_thread (P W : Type) := TsoThread { pc : P; buffer : list W }.
Arguments TsoThread {P W} _ _.
Arguments pc {P W} _.
Arguments buffer {P W} _.

(** An operation that is not a store; a store; the oldest store reaches memory. *)
Inductive tso_action (A W : Type) := Code (a : A) | Store (w : W) | Flush.
Arguments Code {A W} a.
Arguments Store {A W} w.
Arguments Flush {A W}.

Inductive tso_event (E W : Type) := CodeEv (e : E) | StoreEv (w : W) (e : E) | FlushEv.
Arguments CodeEv {E W} e.
Arguments StoreEv {E W} w e.
Arguments FlushEv {E W}.

Section machine.
Context {A L P E W : Type} (M : buffered A L P E W).
Implicit Types (m l : L) (buf : list W).

(** Memory after the stores of a buffer: what its processor sees. *)
Definition see buf m : L := foldl (fun m w => b_write M w m) m buf.

Definition tso_act (t : nat) (x : tso_action A W) m (p : tso_thread P W)
    : option (L * tso_thread P W * tso_event E W) :=
  let '(TsoThread q buf) := p in
  match x with
  | Flush =>
      match buf with
      | w :: buf => Some (b_write M w m, TsoThread q buf, FlushEv)
      | [] => None
      end
  | Store w =>
      a ← b_store M t w (see buf m) q;
      '(_, q', e) ← b_act M t a (see buf m) q;
      Some (m, TsoThread q' (buf ++ [w]), StoreEv w e)
  | Code a =>
      match b_kind M a q with
      | Stores => None
      | Locked =>
          match buf with
          | [] => '(m', q', e) ← b_act M t a m q; Some (m', TsoThread q' [], CodeEv e)
          | _ :: _ => None
          end
      | Loads => '(_, q', e) ← b_act M t a (see buf m) q; Some (m, TsoThread q' buf, CodeEv e)
      end
  end.

Definition tso_start (s : sys L P) : sys L (tso_thread P W) :=
  Sys (shared s) (map (fun q => TsoThread q []) (locals s)).

(** What is seen of an execution: [visible] events of the code. *)
Definition code_events (visible : E -> bool) (tr : list (nat * tso_event E W)) : list (nat * E) :=
  List.filter (fun e => visible e.2)
    (omap (fun e => match e.2 with CodeEv ev | StoreEv _ ev => Some (e.1, ev) | FlushEv => None end) tr).

(** The stores of an execution, in order. *)
Definition stores (tr : list (nat * tso_event E W)) : list W :=
  omap (fun e => match e.2 with StoreEv w _ => Some w | _ => None end) tr.
End machine.

Abbreviation tso_step M := (step (tso_act M)).

Lemma code_events_app {E W} vis (tr1 tr2 : list (nat * tso_event E W)) :
  code_events vis (tr1 ++ tr2) = code_events vis tr1 ++ code_events vis tr2.
Proof. unfold code_events. by rewrite omap_app, List.filter_app. Qed.

Lemma filter_true {A} (l : list A) : List.filter (fun _ => true) l = l.
Proof. induction l; simpl; congruence. Qed.

(** ** What a protocol promises

    [owner q]: the thread may store. [guard q]: it may look at the data ([owner]
    or not, its view must be the newest). [busy l]: the word says that there is an
    owner. [releases w]: the store clears it. [content] is the data. The invariant
    of the abstract machine may depend on the events so far and on a [bound] of
    their number. *)
Record protocol (L P E W D : Type) := Protocol {
  owner : P -> bool;
  guard : P -> bool;
  busy : L -> bool;
  releases : W -> bool;
  content : L -> D;
  apply : W -> D -> D;
  visible : E -> bool;
  invariant : list (nat * E) -> sys L P -> Prop;
  bound : nat -> Prop;
}.
Arguments Protocol {L P E W D} _ _ _ _ _ _ _ _ _.
Arguments owner {L P E W D} _ _.
Arguments guard {L P E W D} _ _.
Arguments busy {L P E W D} _ _.
Arguments releases {L P E W D} _ _.
Arguments content {L P E W D} _ _.
Arguments apply {L P E W D} _ _ _.
Arguments visible {L P E W D} _ _.
Arguments invariant {L P E W D} _ _ _.
Arguments bound {L P E W D} _ _.

(** The stores that wait at [q]: of one that still owns the lock, or followed by
    the one that releases it. *)
Definition waiting {L P E W D} (R : protocol L P E W D) (buf : list W) (q : P) : Prop :=
  exists ds, Forall (fun w => releases R w = false) ds /\
    ((buf = ds /\ owner R q = true) \/ exists r, releases R r = true /\ buf = ds ++ [r]).

(** [weak] is the abstract machine: the one without buffers, and old values for
    the reads that the protocol admits. *)
Class StoreProtocol {A B L P E W D} (M : buffered A L P E W) (weak : nat -> B -> L -> P -> option (L * P * E))
    (R : protocol L P E W D) : Prop := {
  sp_bound n m : (n <= m)%nat -> bound R m -> bound R n;
  sp_step tr a e a' :
    invariant R tr a -> bound R (S (length tr)) -> step weak a e a' -> invariant R (tr ++ [e]) a';
  sp_weak t a l q r : b_act M t a l q = Some r -> exists y, weak t y l q = Some r;
  (** an owner may look; while there is one nobody else may, and the word says so *)
  sp_owner_guard q : owner R q = true -> guard R q = true;
  sp_exclusive tr a t u q q' :
    invariant R tr a -> locals a !! t = Some q -> locals a !! u = Some q' ->
    owner R q = true -> guard R q' = true -> u = t;
  sp_busy tr a t q : invariant R tr a -> locals a !! t = Some q -> owner R q = true -> busy R (shared a) = true;
  (** only owners store; a store that does not release keeps the ownership *)
  sp_store t w l q a l' q' e :
    b_store M t w l q = Some a -> b_act M t a l q = Some (l', q', e) ->
    owner R q = true /\ l' = b_write M w l /\ (releases R w = false -> owner R q' = true);
  sp_store_busy w l : busy R l = true -> busy R (b_write M w l) = negb (releases R w);
  sp_store_content w l : content R (b_write M w l) = apply R w (content R l);
  sp_loads t a l q l' q' e : b_kind M a q = Loads -> b_act M t a l q = Some (l', q', e) -> l' = l;
  sp_content t a l q l' q' e :
    b_kind M a q <> Stores -> b_act M t a l q = Some (l', q', e) -> content R l' = content R l;
  sp_keep tr s t q a l' q' e :
    invariant R tr s -> locals s !! t = Some q -> owner R q = true -> b_kind M a q = Loads ->
    b_act M t a (shared s) q = Some (l', q', e) -> owner R q' = true;
  (** another thread, on the memory [m] that the stores of [buf] have not reached *)
  sp_other tr s o qo buf m t q a m' q' e :
    invariant R tr s -> locals s !! o = Some qo -> waiting R buf qo -> shared s = see M buf m -> busy R m = true ->
    o <> t -> locals s !! t = Some q -> guard R q = false -> b_kind M a q <> Stores ->
    b_act M t a m q = Some (m', q', e) ->
    busy R m' = true /\ guard R q' = false /\
    ((exists y, weak t y (shared s) q = Some (see M buf m', q', e)) \/ (m' = m /\ q' = q /\ visible R e = false));
}.

(** ** The simulation *)

Section simulation.
Context {A B L P E W D : Type} (M : buffered A L P E W).
Context (weak : nat -> B -> L -> P -> option (L * P * E)) (R : protocol L P E W D).
Context `{!StoreProtocol M weak R}.
Implicit Types (m l : L) (buf : list W) (ps : list (tso_thread P W)) (s : sys L (tso_thread P W)) (a : sys L P).

Lemma see_snoc buf w m : see M (buf ++ [w]) m = b_write M w (see M buf m).
Proof. unfold see. by rewrite foldl_app. Qed.

Lemma see_busy buf m :
  Forall (fun w => releases R w = false) buf -> busy R m = true -> busy R (see M buf m) = true.
Proof.
  intros Hall. revert m. induction Hall as [|w buf Hw _ IH]; intros m Hm; [done|]. unfold see in *. simpl.
  apply IH. by rewrite (sp_store_busy (M := M) (weak := weak)), Hw.
Qed.

Lemma see_released ds r m :
  Forall (fun w => releases R w = false) ds -> releases R r = true -> busy R m = true ->
  busy R (see M (ds ++ [r]) m) = false.
Proof.
  intros Hds Hr Hm. rewrite see_snoc. rewrite (sp_store_busy (M := M) (weak := weak)) by (by apply see_busy).
  by rewrite Hr.
Qed.

Lemma see_content buf m : content R (see M buf m) = foldl (fun d w => apply R w d) (content R m) buf.
Proof.
  revert m. induction buf as [|w buf IH]; intros m; [done|]. unfold see in *. simpl.
  by rewrite IH, (sp_store_content (M := M) (weak := weak)).
Qed.

(** All stores have reached memory; or those of one thread have not, and until then
    nobody else may look at the data. *)
Definition settled m l ps : Prop := m = l /\ forall t p, ps !! t = Some p -> buffer p = [].

Definition owes m l ps (o : nat) (p : tso_thread P W) : Prop :=
  ps !! o = Some p /\
  (forall u p', u <> o -> ps !! u = Some p' -> buffer p' = [] /\ guard R (pc p') = false) /\
  busy R m = true /\ l = see M (buffer p) m /\ waiting R (buffer p) (pc p).

Definition memory_ok m l ps : Prop := settled m l ps \/ exists o p, owes m l ps o p.

Lemma owes_nil m l ps o p : owes m l ps o p -> buffer p = [] -> settled m l ps.
Proof.
  intros (Ho & Hoth & _ & -> & _) Hnil. rewrite Hnil. split; [done|]. intros t p' Hp.
  destruct (decide (t = o)) as [->|Hne]; [by simplify_eq|]. by apply (Hoth t p').
Qed.

Lemma settled_update m ps t q : settled m m ps -> forall m', settled m' m' (<[t := TsoThread q []]> ps).
Proof.
  intros [_ Hb] m'. split; [done|]. intros u p [(-> & <- & _)|[_ Hp]]%list_lookup_insert_Some; [done|]. by eapply Hb.
Qed.

(** The thread that owes moves on; its buffer may have changed. *)
Lemma owes_self m m' l' ps o p q buf :
  ps !! o = Some p -> (forall u p', u <> o -> ps !! u = Some p' -> buffer p' = [] /\ guard R (pc p') = false) ->
  busy R m' = true -> l' = see M buf m' -> waiting R buf q ->
  owes m' l' (<[o := TsoThread q buf]> ps) o (TsoThread q buf).
Proof.
  intros Ho Hoth Hm Hl Hw. split; [apply list_lookup_insert_eq; by eapply lookup_lt_Some|]. split; [|done].
  intros u p' Hne [(-> & _)|[_ Hp]]%list_lookup_insert_Some; [done|]. by apply (Hoth u).
Qed.

(** *** A store *)

Lemma store_sim tr a m ps t q buf w x l' q' e :
  invariant R tr a -> (forall u p, ps !! u = Some p -> locals a !! u = Some (pc p)) ->
  memory_ok m (shared a) ps -> ps !! t = Some (TsoThread q buf) ->
  b_store M t w (see M buf m) q = Some x -> b_act M t x (see M buf m) q = Some (l', q', e) ->
  see M buf m = shared a /\ l' = b_write M w (shared a) /\
  memory_ok m (b_write M w (shared a)) (<[t := TsoThread q' (buf ++ [w])]> ps).
Proof.
  intros Hinv Hpc Hmem Ht Hst Hact.
  destruct (sp_store (M := M) (R := R) (weak := weak) _ _ _ _ _ _ _ _ Hst Hact) as (Hown & -> & Hkeep).
  pose proof (Hpc t _ Ht) as Hq. simpl in Hq.
  pose proof (sp_busy (M := M) (weak := weak) _ _ _ _ Hinv Hq Hown) as Hbusy.
  assert (Hview : see M buf m = shared a /\ busy R m = true /\
    (forall u p', u <> t -> ps !! u = Some p' -> buffer p' = [] /\ guard R (pc p') = false) /\
    Forall (fun w => releases R w = false) buf).
  { destruct Hmem as [[-> Hb]|(o & p & Howes)].
    - pose proof (Hb t _ Ht) as Hnil. simpl in Hnil. subst buf. split_and!; [done|done| |done].
      intros u p' Hne Hp. split; [by eapply Hb|]. destruct (guard R (pc p')) eqn:Hg; [|done].
      destruct Hne. exact (sp_exclusive (M := M) (weak := weak) (R := R) _ _ _ _ _ _ Hinv Hq (Hpc u p' Hp) Hown Hg).
    - destruct (decide (t = o)) as [->|Hne].
      + destruct Howes as (Ho & Hoth & Hm & Hl & ds & Hds & Hcase). simplify_eq. simpl in *.
        destruct Hcase as [[-> _]|(r & Hr & ->)]; [by split_and!|].
        rewrite Hl, (see_released ds r m) in Hbusy by done. done.
      + destruct Howes as (_ & Hoth & _). destruct (Hoth t _ Hne Ht) as [_ Hg]. simpl in Hg.
        by rewrite (sp_owner_guard (M := M) (weak := weak)) in Hg. }
  destruct Hview as (Hsee & Hm & Hoth & Hds). rewrite Hsee. split; [done|]. split; [done|].
  right. exists t, (TsoThread q' (buf ++ [w])).
  apply (owes_self m m _ ps t _ _ _ Ht Hoth Hm); [by rewrite see_snoc, Hsee|].
  destruct (releases R w) eqn:Hw; [exists buf; split; [done|right; by exists w]|].
  exists (buf ++ [w]). split; [by apply Forall_app; split; [|constructor]|]. left. split; [done|by apply Hkeep].
Qed.

(** *** The oldest store reaches memory *)

Lemma flush_sim m l ps t q w buf :
  memory_ok m l ps -> ps !! t = Some (TsoThread q (w :: buf)) ->
  memory_ok (b_write M w m) l (<[t := TsoThread q buf]> ps).
Proof.
  intros [[_ Hb]|(o & p & Ho & Hoth & Hm & -> & ds & Hds & Hcase)] Ht; [by specialize (Hb t _ Ht)|].
  destruct (decide (t = o)) as [->|Hne]; [|by destruct (Hoth t _ Hne Ht)]. simplify_eq. simpl in *.
  assert (Hnext : releases R w = false -> waiting R buf q ->
    memory_ok (b_write M w m) (see M (w :: buf) m) (<[o := TsoThread q buf]> ps)).
  { intros Hw Hwait. right. eexists o, _. eapply owes_self; try done.
    by rewrite (sp_store_busy (M := M) (weak := weak)), Hw. }
  destruct ds as [|w' ds]; simpl in *.
  - destruct Hcase as [[? _]|(r & Hr & Hbuf)]; simplify_eq. left. split; [done|].
    intros u p' [(-> & <- & _)|[Hne Hp]]%list_lookup_insert_Some; [done|]. by apply (Hoth u p').
  - apply Forall_cons in Hds as [Hw Hds].
    destruct Hcase as [[Hbuf Hown]|(r & Hr & Hbuf)]; simplify_eq; apply Hnext; try done; exists ds; (split; [done|]).
    + by left.
    + right. by exists r.
Qed.

(** *** Loads and locked instructions *)

Lemma code_sim tr a m ps t q buf x m' p' e :
  invariant R tr a -> (forall u p, ps !! u = Some p -> locals a !! u = Some (pc p)) ->
  memory_ok m (shared a) ps -> ps !! t = Some (TsoThread q buf) ->
  tso_act M t (Code x) m (TsoThread q buf) = Some (m', p', CodeEv e) ->
  exists l', memory_ok m' l' (<[t := p']> ps) /\ content R l' = content R (shared a) /\
    ((exists y, weak t y (shared a) q = Some (l', pc p', e)) \/ (l' = shared a /\ pc p' = q /\ visible R e = false)).
Proof.
  intros Hinv Hpc Hmem Ht Hact.
  pose proof (Hpc t _ Ht) as Hq. simpl in Hq.
  destruct (b_kind M x q) eqn:Hk; unfold tso_act in Hact; rewrite Hk in Hact; [|discriminate Hact|].
  - destruct (b_act M t x (see M buf m) q) as [[[l1 q'] ev]|] eqn:Hx; [|discriminate Hact].
    injection Hact as <- <- <-. cbn [pc].
    pose proof (sp_loads (M := M) (weak := weak) (R := R) _ _ _ _ _ _ _ Hk Hx) as ->.
    destruct Hmem as [[-> Hb]|(o & p & Howes)].
    { pose proof (Hb t _ Ht) as Hnil. simpl in Hnil. subst buf. exists (shared a).
      split; [left; by apply (settled_update (shared a))|]. split; [done|]. left. by eapply (sp_weak (M := M) (R := R)). }
    destruct (decide (o = t)) as [->|Hne].
    + destruct Howes as (Ho & Hoth & Hm & Hl & ds & Hds & Hcase). simplify_eq. simpl in *.
      rewrite <-Hl in Hx. exists (shared a). split_and!; [|done|left; by eapply (sp_weak (M := M) (R := R))].
      right. eexists t, _. eapply owes_self; try done. exists ds. split; [done|].
      destruct Hcase as [[-> Hown]|Hrel]; [left|by right]. split; [done|].
      by eapply (sp_keep (M := M) (weak := weak) (R := R)).
    + destruct Howes as (Ho & Hoth & Hm & Hl & Hwait).
      destruct (Hoth t _ ltac:(done) Ht) as [Hnil Hg]. simpl in Hnil, Hg. subst buf.
      destruct (sp_other (M := M) (weak := weak) _ _ _ _ _ _ _ _ _ _ _ _ Hinv (Hpc o p Ho) Hwait Hl Hm Hne Hq Hg
        ltac:(by rewrite Hk) Hx) as (_ & Hg' & Hmove).
      exists (shared a). split_and!; [|done|].
      * right. exists o, p. split; [by rewrite list_lookup_insert_ne|]. split; [|done].
        intros u p' Hu [(-> & <- & _)|[_ Hp]]%list_lookup_insert_Some; [done|]. by apply (Hoth u).
      * destruct Hmove as [[y Hy]|(_ & -> & Hv)]; [left; exists y; by rewrite Hl in *|by right].
  - destruct buf as [|w buf]; [|discriminate Hact].
    destruct (b_act M t x m q) as [[[m1 q'] ev]|] eqn:Hx; [|discriminate Hact].
    injection Hact as <- <- <-. cbn [pc].
    pose proof (sp_content (M := M) (weak := weak) (R := R) _ _ _ _ _ _ _ ltac:(by rewrite Hk) Hx) as Hc.
    assert (Hcase : settled m (shared a) ps \/ exists o p, o <> t /\ owes m (shared a) ps o p).
    { destruct Hmem as [?|(o & p & Howes)]; [by left|]. destruct (decide (o = t)) as [->|Hne]; [|right; by exists o, p].
      left. eapply owes_nil; [done|]. pose proof (proj1 Howes) as Ho. by simplify_eq. }
    destruct Hcase as [[-> Hb]|(o & p & Hne & Ho & Hoth & Hm & Hl & Hwait)].
    + exists m1. split; [left; by apply (settled_update (shared a))|]. split; [done|].
      left. by eapply (sp_weak (M := M) (R := R)).
    + destruct (Hoth t _ ltac:(done) Ht) as [_ Hg]. simpl in Hg.
      destruct (sp_other (M := M) (weak := weak) _ _ _ _ _ _ _ _ _ _ _ _ Hinv (Hpc o p Ho) Hwait Hl Hm Hne Hq Hg
        ltac:(by rewrite Hk) Hx) as (Hm1 & Hg' & Hmove).
      exists (see M (buffer p) m1). split_and!.
      * right. exists o, p. split; [by rewrite list_lookup_insert_ne|]. split; [|done].
        intros u p' Hu [(-> & <- & _)|[_ Hp]]%list_lookup_insert_Some; [done|]. by apply (Hoth u).
      * by rewrite Hl, !see_content, Hc.
      * destruct Hmove as [[y Hy]|(-> & -> & Hv)]; [left; by exists y|right; by rewrite Hl].
Qed.

(** *** Executions *)

Record tso_sim s a (tr : list (nat * E)) : Prop := {
  sim_inv : invariant R tr a;
  sim_pcs : locals a = map pc (locals s);
  sim_memory : memory_ok (shared s) (shared a) (locals s);
}.

Lemma tso_sim_lookup s a tr t p : tso_sim s a tr -> locals s !! t = Some p -> locals a !! t = Some (pc p).
Proof.
  intros Hsim Hp. rewrite (sim_pcs _ _ _ Hsim). change (map pc (locals s)) with (pc <$> locals s).
  by rewrite list_lookup_fmap, Hp.
Qed.

(** The step of the abstract machine, if it makes one. *)
Lemma sim_move s a tr t p q' buf' m' l' e (y : B) :
  tso_sim s a tr -> bound R (S (length tr)) -> locals s !! t = Some p ->
  weak t y (shared a) (pc p) = Some (l', q', e) -> memory_ok m' l' (<[t := TsoThread q' buf']> (locals s)) ->
  exists a', step weak a (t, e) a' /\ tso_sim (Sys m' (<[t := TsoThread q' buf']> (locals s))) a' (tr ++ [(t, e)]) /\
    shared a' = l'.
Proof.
  intros Hsim Hb Hp Hy Hmem. pose proof (tso_sim_lookup _ _ _ _ _ Hsim Hp) as Hq.
  destruct a as [l qs]. pose proof (sim_pcs _ _ _ Hsim) as Hpcs. simpl in Hpcs, Hy, Hq.
  assert (Hstep : step weak (Sys l qs) (t, e) (Sys l' (<[t := q']> qs))) by (by econstructor).
  eexists. split; [exact Hstep|]. split; [|done]. split; [|simpl|done].
  - eapply (sp_step (M := M)); [apply Hsim|done|done].
  - rewrite Hpcs. symmetry. apply (list_fmap_insert pc).
Qed.

Lemma sim_stutter s a tr t p buf' m' :
  tso_sim s a tr -> locals s !! t = Some p -> memory_ok m' (shared a) (<[t := TsoThread (pc p) buf']> (locals s)) ->
  tso_sim (Sys m' (<[t := TsoThread (pc p) buf']> (locals s))) a tr.
Proof.
  intros Hsim Hp Hmem. split; [apply Hsim| |done]. simpl.
  change (locals a = pc <$> <[t := TsoThread (pc p) buf']> (locals s)). rewrite list_fmap_insert.
  rewrite list_insert_id; [apply Hsim|]. simpl. by rewrite list_lookup_fmap, Hp.
Qed.

Lemma tso_sim_step s a tr t e s' :
  tso_sim s a tr -> bound R (S (length tr)) -> tso_step M s (t, e) s' ->
  exists a' tr', trace (step weak) a tr' a' /\ (length tr' <= 1)%nat /\ tso_sim s' a' (tr ++ tr') /\
    List.filter (fun e => visible R e.2) tr' = code_events (visible R) [(t, e)] /\
    content R (shared a') = foldl (fun d w => apply R w d) (content R (shared a)) (stores [(t, e)]).
Proof.
  intros Hsim Hb Hstep. apply step_inv in Hstep as ([q buf] & x & m' & p' & Hp & Hact & ->).
  pose proof (sim_inv _ _ _ Hsim) as Hinv. pose proof (fun u p0 => tso_sim_lookup s a tr u p0 Hsim) as Hpcs.
  pose proof (sim_memory _ _ _ Hsim) as Hmem.
  destruct x as [x|w|].
  - assert (He : exists ev, e = CodeEv ev).
    { unfold tso_act in Hact. destruct (b_kind M x q); [|done|destruct buf; [|done]];
        destruct (b_act M t x _ q) as [[[? ?] ?]|]; simpl in Hact; simplify_eq; by eexists. }
    destruct He as [ev ->].
    destruct (code_sim _ _ _ _ _ _ _ _ _ _ _ Hinv Hpcs Hmem Hp Hact) as (l' & Hmem' & Hc & Hmove).
    destruct p' as [q' buf']. cbn [pc] in *. destruct Hmove as [[y Hy]|(-> & -> & Hv)].
    + destruct (sim_move _ _ _ _ _ _ _ _ _ _ _ Hsim Hb Hp Hy Hmem') as (a' & Ha & Hsim' & <-).
      exists a', [(t, ev)]. split; [by apply trace_one|]. by split_and!.
    + exists a, []. rewrite app_nil_r. split; [constructor|]. split; [simpl; lia|].
      split; [by apply (sim_stutter _ _ _ _ (TsoThread q buf))|]. split; [|done]. unfold code_events. simpl. by rewrite Hv.
  - unfold tso_act in Hact. destruct (b_store M t w _ q) as [x|] eqn:Hst; [|discriminate Hact]. cbn [mbind option_bind] in Hact.
    destruct (b_act M t x _ q) as [[[l' q'] ev]|] eqn:Hx; [|discriminate Hact]. injection Hact as <- <- <-.
    destruct (store_sim _ _ _ _ _ _ _ _ _ _ _ _ Hinv Hpcs Hmem Hp Hst Hx) as (Hsee & -> & Hmem').
    rewrite Hsee in Hx. destruct (sp_weak (M := M) (weak := weak) (R := R) _ _ _ _ _ Hx) as [y Hy].
    destruct (sim_move _ _ _ _ _ _ _ _ _ _ _ Hsim Hb Hp Hy Hmem') as (a' & Ha & Hsim' & Hl).
    exists a', [(t, ev)]. split; [by apply trace_one|]. split_and!; [done|done|done|].
    rewrite Hl. by apply (sp_store_content (M := M) (weak := weak)).
  - unfold tso_act in Hact. destruct buf as [|w buf]; [done|]. injection Hact as <- <- <-.
    exists a, []. rewrite app_nil_r. split; [constructor|]. split; [simpl; lia|]. split; [|done].
    eapply (sim_stutter s a tr t (TsoThread q (w :: buf))); [done|done|]. by eapply flush_sim.
Qed.

Lemma tso_sim_start (s0 : sys L P) : invariant R [] s0 -> tso_sim (tso_start s0) s0 [].
Proof.
  intros Hinv. split; [done| |]; simpl.
  - rewrite map_map. symmetry. apply map_id.
  - left. split; [done|]. intros t p Hp. change ((fun q => TsoThread q ([] : list W)) <$> locals s0) with
      (map (fun q => TsoThread q ([] : list W)) (locals s0)) in Hp.
    change (((fun q => TsoThread q ([] : list W)) <$> locals s0) !! t = Some p) in Hp.
    rewrite list_lookup_fmap in Hp. destruct (locals s0 !! t); simpl in Hp; by simplify_eq.
Qed.

Lemma stores_app (tr1 tr2 : list (nat * tso_event E W)) : stores (tr1 ++ tr2) = stores tr1 ++ stores tr2.
Proof. apply omap_app. Qed.

(** Every execution with store buffers is one of the abstract machine. *)
Lemma tso_simulation (s0 : sys L P) tr s :
  invariant R [] s0 -> bound R (length tr) -> trace (tso_step M) (tso_start s0) tr s ->
  exists tr' a, trace (step weak) s0 tr' a /\ List.filter (fun e => visible R e.2) tr' = code_events (visible R) tr /\
    (length tr' <= length tr)%nat /\ tso_sim s a tr' /\
    content R (shared a) = foldl (fun d w => apply R w d) (content R (shared s0)) (stores tr).
Proof.
  intros Hinv Hb Htr. remember (tso_start s0) as s1 eqn:Hs1. induction Htr as [|s1 tr s [t e] s' Htr IH Hstep]; subst.
  { exists [], s0. split; [constructor|]. split; [done|]. split; [done|]. split; [by apply tso_sim_start|done]. }
  rewrite length_app in Hb. simpl in Hb.
  destruct IH as (tr1 & a & Htr1 & Hev & Hlen & Hsim & Hc); [|done|].
  { eapply (sp_bound (M := M) (weak := weak)); [|exact Hb]. lia. }
  destruct (tso_sim_step s a tr1 t e s' Hsim) as (a' & tr2 & Htr2 & Hlen2 & Hsim' & Hev2 & Hc2); [|done|].
  { eapply (sp_bound (M := M) (weak := weak)); [|exact Hb]. lia. }
  exists (tr1 ++ tr2), a'. split_and!.
  - by eapply trace_app.
  - by rewrite List.filter_app, Hev, Hev2, code_events_app.
  - rewrite !length_app. simpl. lia.
  - done.
  - by rewrite Hc2, Hc, stores_app, foldl_app.
Qed.

(** A thread that may look sees the newest state. *)
Lemma guard_sees s a tr t p :
  tso_sim s a tr -> locals s !! t = Some p -> guard R (pc p) = true -> see M (buffer p) (shared s) = shared a.
Proof.
  intros Hsim Hp Hg. destruct (sim_memory _ _ _ Hsim) as [[Heq Hb]|(o & po & Ho & Hoth & _ & Hl & _)].
  - by rewrite (Hb t p Hp).
  - destruct (decide (t = o)) as [->|Hne]; [by simplify_eq|]. destruct (Hoth t p Hne Hp). congruence.
Qed.

(** So does one for which the word says that there is no owner. *)
Lemma idle_sees s a tr t p :
  tso_sim s a tr -> locals s !! t = Some p -> busy R (see M (buffer p) (shared s)) = false ->
  see M (buffer p) (shared s) = shared a.
Proof.
  intros Hsim Hp Hg. destruct (sim_memory _ _ _ Hsim) as [[Heq Hb]|(o & po & Ho & Hoth & Hm & Hl & _)].
  - by rewrite (Hb t p Hp).
  - destruct (decide (t = o)) as [->|Hne]; [by simplify_eq|]. destruct (Hoth t p Hne Hp) as [Hnil _].
    rewrite Hnil in Hg. unfold see in Hg. simpl in Hg. congruence.
Qed.
End simulation.
