(* ===== verification/SpinTso.v ===== *)
(** * SpinTso: the spinlock on memory with store buffers (src/src/spinlock.rs)

    SpinLock interleaves the operations of the code on one memory. On x86 the
    stores through the guard and the store that releases the lock wait in the
    CPU's store buffer, while a compare-and-swap is a locked instruction. Here the
    machine of SpinLock, interrupts included, runs on the memory of [Tso.v], and is
    shown to keep its protocol: it does what it does without buffers; but for
    [try_lock], which can fail when the guard was already dropped and the release
    is still in the buffer. *)

From S2P Require Import Prelude Threads SpinLock Tso.

Section tso.
Context {T : Type}.
Implicit Types (l m : spin_lock T).

(** ** The machine *)

(** A store to a part of the data, as what it makes of the whole; or the store of
    [Drop]. *)
Inductive spin_write := WData (f : T -> T) | WUnlock.

Definition do_write (w : spin_write) l : spin_lock T :=
  match w with
  | WData f => sl_deref_mut l (f (sl_deref l))
  | WUnlock => sl_unlock l
  end.

(** The running code is at a compare-and-swap. *)
Definition at_cas (c : cpu) : bool :=
  match frames c with SCas _ :: _ | STryCas _ :: _ => true | _ => false end.

Definition is_run (a : spin_action T) : bool := match a with ActRun => true | _ => false end.

Definition spin_kind (a : spin_action T) (c : cpu) : access_kind :=
  match a with
  | ActStore _ | ActDrop => Stores
  | _ => if is_run a && at_cas c then Locked else Loads
  end.

Definition spin_store (_ : nat) (w : spin_write) l (_ : cpu) : option (spin_action T) :=
  match w with
  | WData f => Some (ActStore (f (sl_deref l)))
  | WUnlock => Some ActDrop
  end.

Definition tso_spin : buffered (spin_action T) (spin_lock T) cpu spin_event spin_write :=
  Buffered (fun _ => spin_act) spin_kind do_write spin_store.

Definition tso_spin_init (cpus : nat) (rf : Z) (data : T) : sys (spin_lock T) (tso_thread cpu spin_write) :=
  tso_start (spin_init cpus rf data).

(** ** Specification: SpinLock, in which [try_lock] may fail for no reason, as its
    [lock] may *)

Definition weak_act (a : spin_action T) l (c : cpu) : option (spin_lock T * cpu * spin_event) :=
  match a, frames c with
  | ActWeakFail, STryCas was :: fs => Some (l, Cpu (rflags c) (STryRestore was :: fs), EvStep)
  | _, _ => spin_act a l c
  end.

(** What is seen of an execution: not the steps that only compute. *)
Definition spin_visible (e : spin_event) : bool :=
  match e with EvStep => false | _ => true end.

Definition after_write (w : spin_write) (d : T) : T := match w with WData f => f d | WUnlock => d end.

(** The data after the stores [ws]. *)
Definition after_writes (d : T) (ws : list spin_write) : T := foldl (fun d w => after_write w d) d ws.

(** ** The protocol: the holder of the guard stores; the lock word says that there
    is one *)
Definition spin_protocol : protocol (spin_lock T) cpu spin_event spin_write T := {|
  owner := cpu_holds;
  guard := cpu_holds;
  busy := locked;
  releases w := match w with WUnlock => true | WData _ => false end;
  content := sl_data;
  apply := after_write;
  visible := spin_visible;
  invariant _ := spin_inv;
  bound _ := True;
|}.
End tso.
Arguments spin_write : clear implicits.

Abbreviation tso_spin_sys T := (sys (spin_lock T) (tso_thread cpu (spin_write T))).
Abbreviation tso_spin_step := (tso_step tso_spin).
Abbreviation weak_step := (step (fun _ => weak_act)).

(** ** Proofs *)

Section proofs.
Context {T : Type}.
Implicit Types (l m : spin_lock T) (a : spin_sys T).

Lemma weak_inv_step a e a' : spin_inv a -> weak_step a e a' -> spin_inv a'.
Proof.
  intros Hi Hstep. destruct e as [t e]. pose proof Hstep as Hs.
  apply step_inv in Hs as (q & x & l' & q' & Hq & Hact & ->).
  destruct q as [rf fs]. unfold weak_act in Hact. simpl in Hact.
  assert (Hcase : (exists was fs', fs = STryCas was :: fs' /\ l' = shared a /\
    q' = Cpu rf (STryRestore was :: fs')) \/ spin_act x (shared a) (Cpu rf fs) = Some (l', q', e)).
  { destruct x; try (by right). destruct fs as [|[] fs']; try (by right). left. simplify_eq. by eexists _, _. }
  destruct Hcase as [(was & fs' & -> & -> & ->)|Hact'].
  - pose proof (inv_cpus _ Hi t _ Hq) as Hok. split; simpl.
    + intros c q Hc. apply list_lookup_insert_Some in Hc as [(_ & <- & _)|[_ Hc]]; [exact Hok|by eapply inv_cpus].
    + rewrite <-(inv_locked _ Hi). pose proof (count_if_insert cpu_holds _ t _ (Cpu rf (STryRestore was :: fs')) Hq).
      unfold cpu_holds in *. simpl in *. lia.
  - eapply spin_inv_step; [exact Hi|]. destruct a. simpl in *. by eapply (step_act (fun _ => spin_act)).
Qed.

(** *** The moves of a CPU *)

(** Stores and the drop are made by the holder, whatever the lock is. *)
Lemma store_inv v l c l' c' ev :
  spin_act (ActStore v) l c = Some (l', c', ev) ->
  cpu_holds c = true /\ c' = c /\ forall l2 v2, spin_act (ActStore v2) l2 c = Some (sl_deref_mut l2 v2, c, EvStore).
Proof. destruct c as [rf [|[] fs]]; intros Hact; simpl in Hact; by simplify_eq. Qed.

Lemma drop_inv l c l' c' ev :
  spin_act ActDrop l c = Some (l', c', ev) ->
  cpu_holds c = true /\ ev = EvUnlock /\ forall l2, spin_act ActDrop l2 c = Some (sl_unlock l2, c', ev).
Proof. destruct c as [rf [|[] fs]]; intros Hact; simpl in Hact; by simplify_eq. Qed.

(** A compare-and-swap of a lock that is taken fails. *)
Lemma cas_inv l c l' c' ev :
  at_cas c = true -> locked l = true -> spin_act ActRun l c = Some (l', c', ev) ->
  l' = l /\ ev = EvStep /\ forall l2, weak_act ActWeakFail l2 c = Some (l2, c', EvStep).
Proof.
  intros Hat Hl Hact. destruct c as [rf [|[] fs]]; try done; simpl in Hact; unfold sl_cas in Hact;
    rewrite Hl in Hact; by simplify_eq.
Qed.

Lemma cas_data l c l' c' ev :
  at_cas c = true -> spin_act ActRun l c = Some (l', c', ev) -> sl_data l' = sl_data l.
Proof.
  intros Hat Hact. destruct c as [rf [|[] fs]]; try done; simpl in Hact; unfold sl_cas in Hact;
    destruct (locked l); by simplify_eq.
Qed.

(** The other moves leave the lock alone; the only one that looks at it is the read
    of a CPU that waits. *)
Definition stores_or_swaps (x : spin_action T) (c : cpu) : bool :=
  match x with ActStore _ | ActDrop => true | _ => is_run x && at_cas c end.

Lemma other_inv x m c m' c' ev :
  stores_or_swaps x c = false -> spin_act x m c = Some (m', c', ev) ->
  m' = m /\ (forall l, locked l = locked m -> weak_act x l c = Some (l, c', ev)) /\
  ((forall l, weak_act x l c = Some (l, c', ev)) \/ (locked m = true -> c' = c /\ ev = EvStep)).
Proof.
  intros Hx Hact. destruct c as [rf fs]. destruct x; try discriminate Hx; simpl in Hact.
  7: { destruct fs as [|f [|f0 fs]]; [done|by destruct f|]. destruct f; simplify_eq. split; [done|]. eauto. }
  6: { destruct (interrupts_enabled rf) eqn:Hif; [|done]. simplify_eq. split; [done|].
       unfold weak_act; simpl; rewrite Hif; eauto. }
  all: destruct fs as [|f fs]; [done|]; destruct f; try discriminate Hx; simpl in Hact; simplify_eq;
    try (split; [done|]; unfold weak_act; simpl; eauto; fail).
  destruct (locked m) eqn:Hl; simplify_eq; (split; [done|]); unfold weak_act; simpl; rewrite ?Hl;
    (split; [intros l ->; by rewrite ?Hl|]); right; [done|intros [=]].
Qed.

(** The holder, with interrupts disabled, makes no other move. *)
Lemma holder_moves x l c :
  cpu_ok c -> cpu_holds c = true -> stores_or_swaps x c = false -> spin_act x l c = None.
Proof.
  intros Hok Hh Hx. pose proof (cpu_holds_masked c Hok Hh) as Hif. destruct c as [rf [|[] fs]]; try done.
  simpl in Hif. destruct x; try done. simpl. by rewrite Hif.
Qed.

Lemma one_holder a c1 c2 q1 q2 :
  spin_inv a -> locals a !! c1 = Some q1 -> locals a !! c2 = Some q2 ->
  cpu_holds q1 = true -> cpu_holds q2 = true -> c1 = c2.
Proof.
  intros Hi H1 H2 Hh1 Hh2. eapply (count_if_unique cpu_holds); try done.
  rewrite (inv_locked _ Hi). destruct (locked _); simpl; lia.
Qed.

(** A CPU that does not hold the guard gets it by a compare-and-swap only. *)
Lemma loads_no_guard x l c l' c' ev :
  stores_or_swaps x c = false -> cpu_holds c = false -> spin_act x l c = Some (l', c', ev) ->
  cpu_ok c -> cpu_holds c' = false.
Proof.
  intros Hx Hh Hact Hok. destruct (spin_act_ok x l c l' c' ev Hok) as [_ Heq]; [congruence|done|].
  destruct (other_inv _ _ _ _ _ _ Hx Hact) as [-> _]. rewrite Hh in Heq. destruct (cpu_holds c'); simpl in Heq; [lia|done].
Qed.

Lemma cas_no_guard l c l' c' ev :
  at_cas c = true -> locked l = true -> spin_act ActRun l c = Some (l', c', ev) -> cpu_holds c' = false.
Proof.
  intros Hat Hl Hact. destruct c as [rf [|[] fs]]; try done; simpl in Hact; unfold sl_cas in Hact;
    rewrite Hl in Hact; by simplify_eq.
Qed.

Lemma spin_kind_loads (x : spin_action T) c : spin_kind x c = Loads -> stores_or_swaps x c = false.
Proof. destruct x; simpl; try done. by destruct (at_cas c). Qed.

Lemma spin_kind_locked (x : spin_action T) c : spin_kind x c = Locked -> x = ActRun /\ at_cas c = true.
Proof. destruct x; simpl; try done. by destruct (at_cas c). Qed.

#[export] Instance spin_keeps_protocol :
  StoreProtocol (tso_spin (T := T)) (fun _ => weak_act) spin_protocol.
Proof.
  constructor; cbn [b_act b_kind b_write b_store tso_spin owner guard busy releases content apply visible invariant bound spin_protocol].
  - done.
  - intros _ a e a' Hi _. by apply weak_inv_step.
  - intros _ a l q r Hact. exists a. unfold weak_act. destruct a; try exact Hact.
    destruct q as [rf [|[] fs]]; try exact Hact. done.
  - done.
  - intros _ a t u q q' Hi Hq Hq' Hh Hh'. exact (one_holder _ _ _ _ _ Hi Hq' Hq Hh' Hh).
  - intros _ a t q Hi Hq Hh. by eapply spin_holder_locked.
  - intros _ [f|] l q x l' q' e [= <-] Hact.
    + destruct (store_inv _ _ _ _ _ _ Hact) as (Hh & -> & Hany). split; [done|].
      rewrite Hany in Hact. by simplify_eq.
    + destruct (drop_inv _ _ _ _ _ Hact) as (Hh & -> & Hany). split; [done|].
      rewrite Hany in Hact. by simplify_eq.
  - intros [f|] l Hl; [exact Hl|done].
  - by intros [f|] l.
  - intros _ a l q l' q' e Hk Hact. by destruct (other_inv _ _ _ _ _ _ (spin_kind_loads _ _ Hk) Hact) as [-> _].
  - intros _ a l q l' q' e Hk Hact. destruct (spin_kind a q) eqn:Hk'; [|done|].
    + by destruct (other_inv _ _ _ _ _ _ (spin_kind_loads _ _ Hk') Hact) as [-> _].
    + destruct (spin_kind_locked _ _ Hk') as [-> Hat]. by eapply cas_data.
  - intros _ s t q a l' q' e Hi Hq Hh Hk Hact.
    by rewrite (holder_moves _ _ _ (inv_cpus _ Hi _ _ Hq) Hh (spin_kind_loads _ _ Hk)) in Hact.
  - intros _ s o qo buf m t q a m' q' e Hi _ _ Hl Hm _ Hq Hg Hk Hact. destruct (spin_kind a q) eqn:Hk'; [|done|].
    + pose proof (spin_kind_loads _ _ Hk') as Hx. destruct (other_inv _ _ _ _ _ _ Hx Hact) as (-> & _ & Hany).
      split; [done|]. split; [exact (loads_no_guard _ _ _ _ _ _ Hx Hg Hact (inv_cpus _ Hi _ _ Hq))|].
      destruct Hany as [Hany|Hspin]; [left; exists a; by rewrite <-Hl|right]. by destruct (Hspin Hm) as [-> ->].
    + destruct (spin_kind_locked _ _ Hk') as [-> Hat].
      destruct (cas_inv _ _ _ _ _ Hat Hm Hact) as (-> & -> & Hweak). split; [done|].
      split; [by eapply cas_no_guard|]. left. exists ActWeakFail. rewrite <-Hl. apply Hweak.
Qed.
End proofs.

(** ** Properties *)

Section properties.
Context {T : Type}.
Implicit Types (s : tso_spin_sys T).

(** C7: the spinlock is sound on x86 memory: with the stores of the critical
    sections, and the release of the lock, delayed in store buffers, and interrupts
    arriving anywhere, every execution calls, acquires, stores, drops and takes
    interrupts as one of the SpinLock machine does, where stores are immediate, and
    the CPUs' code and flags end up the same. At most one CPU holds the guard; it
    sees every store that was made through a guard before, by any CPU, in order,
    and nothing else. The one difference allowed is that [try_lock] may fail on a
    lock whose guard was dropped. *)
Theorem spin_tso_refines_sc n rf (d : T) tr s :
  trace tso_spin_step (tso_spin_init n rf d) tr s ->
  exists tr' a, trace weak_step (spin_init n rf d) tr' a /\
    List.filter (fun e => spin_visible e.2) tr' = code_events spin_visible tr /\
    locals a = map pc (locals s) /\
    forall t p, locals s !! t = Some p -> cpu_holds (pc p) = true ->
      sl_deref (see tso_spin (buffer p) (shared s)) = after_writes d (stores tr) /\
      forall t' p', locals s !! t' = Some p' -> cpu_holds (pc p') = true -> t' = t.
Proof.
  intros Htr.
  destruct (tso_simulation tso_spin (fun _ => weak_act) spin_protocol (spin_init n rf d) tr s)
    as (tr' & a & Htr' & Hev & _ & Hsim & Hd); [apply (spin_inv_trace n rf d []); constructor|done|done|].
  exists tr', a. split; [done|]. split; [done|]. split; [apply Hsim|]. intros t p Hp Hh.
  split.
  - rewrite (guard_sees tso_spin spin_protocol s a tr' t p Hsim Hp Hh). exact Hd.
  - intros t' p' Hp' Hh'.
    exact (one_holder _ _ _ _ _ (sim_inv _ _ _ _ _ Hsim) (tso_sim_lookup _ _ _ _ _ _ _ Hsim Hp')
      (tso_sim_lookup _ _ _ _ _ _ _ Hsim Hp) Hh' Hh).
Qed.
End properties.

(** ** Witnesses: CPU 0 stores 5 and drops the guard; both stores are still in its
    buffer when CPU 1 fails to get the lock *)

Abbreviation demo_action := (tso_action (spin_action nat) (spin_write nat)).

Definition demo_tso_pending : list (nat * demo_action) :=
  [(0%nat, Code ActLock); (0%nat, Code ActRun); (0%nat, Code ActRun); (0%nat, Store (WData (fun _ => 5%nat)));
   (0%nat, Store WUnlock); (1%nat, Code ActTryLock); (1%nat, Code ActRun); (1%nat, Code ActRun)].

(** The stores reach memory, and CPU 1 gets it. *)
Definition demo_tso_taken : list (nat * demo_action) :=
  demo_tso_pending ++ [(0%nat, Flush); (0%nat, Flush); (1%nat, Code ActRun); (1%nat, Code ActLock);
                       (1%nat, Code ActRun); (1%nat, Code ActRun)].

Definition demo_tso_run (sched : list (nat * demo_action)) :
    tso_spin_sys nat * list (nat * tso_event spin_event (spin_write nat)) :=
  default (tso_spin_init 2 514 0%nat, []) (run (tso_act tso_spin) (tso_spin_init 2 514 0%nat) sched).

Lemma demo_tso_runs sched :
  (exists x, run (tso_act tso_spin) (tso_spin_init 2 514 0%nat) sched = Some x) ->
  trace tso_spin_step (tso_spin_init 2 514 0%nat) (snd (demo_tso_run sched)) (fst (demo_tso_run sched)).
Proof. intros [[s tr] Hrun]. unfold demo_tso_run. rewrite Hrun. by eapply run_trace. Qed.

Lemma demo_tso_buffers :
  map buffer (locals (fst (demo_tso_run demo_tso_pending))) = [[WData (fun _ => 5%nat); WUnlock]; []].
Proof. vm_compute. exact eq_refl. Qed.

Lemma spin_tso_refines_sc_witness :
  (exists tr' a, trace weak_step (spin_init 2 514 0%nat) tr' a /\
     locals a = [Cpu 2 [SRestore true]; Cpu 2 [STryRestore true]]) /\
  sl_deref (shared (fst (demo_tso_run demo_tso_taken))) = 5%nat.
Proof.
  split.
  - destruct (spin_tso_refines_sc 2 514 0%nat _ _ (demo_tso_runs demo_tso_pending (ex_intro _ _ eq_refl)))
      as (tr' & a & Htr & _ & Hl & _).
    exists tr', a. split; [exact Htr|]. rewrite Hl. vm_compute. exact eq_refl.
  - destruct (spin_tso_refines_sc 2 514 0%nat _ _ (demo_tso_runs demo_tso_taken (ex_intro _ _ eq_refl)))
      as (tr' & a & _ & _ & _ & Hholder).
    exact (proj1 (Hholder 1%nat (TsoThread (Cpu 2 [SHeld true]) []) eq_refl eq_refl)).
Defined.
