(* ===== verification/TicketTso.v ===== *)
(** * TicketTso: the ticket lock on memory with store buffers (src/src/spinlock.rs)

    The additions to the two counters and the exchange of [try_lock] are locked
    instructions, the release among them; only the stores through the guard are
    delayed. The machine of TicketLock on the memory of [Tso.v] makes the same
    events as without store buffers. *)

From S2P Require Import Prelude Threads TicketLock Tso.

Section tso.
Context {T : Type} (p : profile).
Implicit Types l m : ticket_lock T.

(** A store to a part of the data, as what it makes of the whole. *)
Definition tl_store (f : T -> T) l : ticket_lock T := tl_deref_mut l (f (tl_deref l)).

Definition tl_kind (a : tl_action T) (pc : tl_pc) : access_kind :=
  match pc, a with
  | TIdle, ActLock | THeld, ActDrop | TTryCas _, ActRun => Locked
  | THeld, ActWrite _ => Stores
  | _, _ => Loads
  end.

Definition tso_ticket : buffered (tl_action T) (ticket_lock T) tl_pc tl_event (T -> T) :=
  Buffered (fun _ => tl_act p) tl_kind tl_store (fun _ f l _ => Some (ActWrite (f (tl_deref l)))).

Definition tso_ticket_init (threads : nat) (data : T) : sys (ticket_lock T) (tso_thread tl_pc (T -> T)) :=
  tso_start (tl_init threads data).

(** The holder stores; the lock word is never stored to. *)
Definition tl_protocol : protocol (ticket_lock T) tl_pc tl_event (T -> T) T := {|
  owner := tl_held;
  guard := tl_held;
  busy _ := true;
  releases _ := false;
  content := tl_data;
  apply f d := f d;
  visible _ := true;
  invariant tr s := tl_young_inv (length tr) s /\ Z.of_nat (length tr) < 2 ^ 64;
  bound n := Z.of_nat n < 2 ^ 64;
|}.

(** ** Proofs *)

Definition with_data (d : T) l : ticket_lock T := TicketLock (next_ticket l) (now_serving l) d.

Lemma tl_act_with_data d a l pc l' pc' ev :
  tl_kind a pc <> Stores -> tl_act p a l pc = Some (l', pc', ev) ->
  tl_data l' = tl_data l /\ tl_act p a (with_data d l) pc = Some (with_data d l', pc', ev).
Proof.
  intros Hk Hact. destruct pc, a; try done; simpl in *; simplify_eq; try done.
  - unfold tl_served in *. simpl. destruct (now_serving l =? ticket); by simplify_eq.
  - destruct (current =? next_ticket l); by simplify_eq.
  - unfold tl_try_cas in *. destruct (arith p 64 (next + 1)) as [n| |]; simpl in *; [|by simplify_eq..].
    destruct (next_ticket l =? next); by simplify_eq.
Qed.

Lemma see_with_data fs l : see tso_ticket fs l = with_data (foldl (fun d f => f d) (tl_data l) fs) l.
Proof.
  revert l. induction fs as [|f fs IH]; intros l; [by destruct l|]. unfold see in *. simpl. by rewrite IH.
Qed.

Lemma tl_one_holder n (s : tl_sys T) t u :
  tl_young_inv n s -> locals s !! t = Some THeld -> locals s !! u = Some THeld -> u = t.
Proof.
  intros [_ [a Hr]] Ht Hu. destruct (tl_rel_holder s a t Hr Ht) as [q1 ->].
  destruct (tl_rel_holder s _ u Hr Hu) as [q2 Hq]. congruence.
Qed.

Lemma tl_young_inv_step n (s : tl_sys T) e s' :
  tl_young_inv n s -> Z.of_nat (S n) < 2 ^ 64 -> tl_step p s e s' -> tl_young_inv (S n) s'.
Proof. intros [Hy [a Hr]] Hn Hstep. split; [by eapply tl_young_step|by eapply tl_young_rel]. Qed.

(** While one thread holds the guard no other gets it. *)
Lemma tl_other_waits n (s : tl_sys T) o t a pc l' pc' ev :
  tl_young_inv n s -> Z.of_nat n < 2 ^ 64 -> locals s !! o = Some THeld -> o <> t -> locals s !! t = Some pc ->
  tl_act p a (shared s) pc = Some (l', pc', ev) -> tl_held pc' = false.
Proof.
  intros Hi Hn Ho Hne Ht Hact. pose proof Hi as [Hy [q Hr]]. destruct (tl_rel_holder s q o Hr Ho) as [qs ->].
  destruct pc, a; simpl in Hact; simplify_eq; try done.
  - destruct (tl_served (shared s) ticket) eqn:Hs; simplify_eq; [|done].
    by destruct (tl_rel_served s _ t ticket Hr Ht Hs).
  - destruct Hne. by eapply tl_one_holder.
  - by case_match; simplify_eq.
  - unfold tl_try_cas in Hact. destruct (arith p 64 (next + 1)); simpl in Hact; [|by simplify_eq..].
    destruct (Z.eqb_spec (next_ticket (shared s)) next); simplify_eq; [|done].
    by destruct (tl_try_free n s _ t _ Hr Hy Hn Ht eq_refl).
Qed.

#[export] Instance ticket_keeps_protocol : StoreProtocol tso_ticket (fun _ => tl_act p) tl_protocol.
Proof.
  assert (Hheld : forall pc, tl_held pc = true -> pc = THeld) by (by intros []).
  constructor; cbn [b_act b_kind b_write b_store tso_ticket owner guard busy releases content apply visible invariant bound tl_protocol].
  - lia.
  - intros tr a e a' [Hi _] Hb Hstep. rewrite length_app, Nat.add_1_r. split; [by eapply tl_young_inv_step|done].
  - intros _ a l q r Hact. by exists a.
  - done.
  - intros tr a t u q q' [Hi _] Ht Hu ->%Hheld ->%Hheld. by eapply tl_one_holder.
  - done.
  - intros _ f l q a l' q' e [= <-] Hact. destruct q; simpl in Hact; by simplify_eq.
  - done.
  - done.
  - intros _ a l q l' q' e Hk Hact. destruct q, a; try done; simpl in *; simplify_eq; try done; by case_match; simplify_eq.
  - intros _ a l q l' q' e Hk Hact. by apply (tl_act_with_data (tl_data l) a l q l' q' e).
  - intros tr s t q a l' q' e _ _ ->%Hheld Hk Hact. by destruct a.
  - intros tr s o qo buf m t q a m' q' e [Hi Hn] Ho (ds & _ & Hw) Hl _ Hne Hq Hg Hk Hact. split; [done|].
    assert (qo = THeld) as -> by (apply Hheld; destruct Hw as [[_ ?]|(? & ? & _)]; done).
    rewrite see_with_data in Hl. destruct (tl_act_with_data (foldl (fun d f => f d) (tl_data m) buf) a m q m' q' e Hk Hact) as [Hd Hact'].
    rewrite <-Hl in Hact'. split; [by eapply tl_other_waits|]. left. exists a. by rewrite Hact', see_with_data, Hd.
Qed.
End tso.

(** ** Properties *)

(** C13: the ticket lock is sound on x86 memory: with the stores of the critical
    sections delayed in store buffers, an execution of fewer than 2^64 steps, with
    [try_lock], is event by event one of the TicketLock machine, where stores are
    immediate, and the threads are at the same place of their code. At most one
    thread holds the guard; it sees every store that was made through a guard
    before, by any thread, in order, and nothing else. *)
Theorem ticket_tso_refines_sc {T} p threads (d : T) tr s :
  Z.of_nat threads < 2 ^ 64 -> Z.of_nat (length tr) < 2 ^ 64 ->
  trace (tso_step (tso_ticket p)) (tso_ticket_init threads d) tr s ->
  exists a, trace (tl_step p) (tl_init threads d) (code_events (fun _ => true) tr) a /\
    locals a = map pc (locals s) /\
    forall t th, locals s !! t = Some th -> pc th = THeld ->
      tl_deref (see (tso_ticket p) (buffer th) (shared s)) = foldl (fun d f => f d) d (stores tr) /\
      forall u th', locals s !! u = Some th' -> pc th' = THeld -> u = t.
Proof.
  intros Hth Hlen Htr.
  destruct (tso_simulation (tso_ticket p) (fun _ => tl_act p) tl_protocol (tl_init threads d) tr s)
    as (tr' & a & Htr' & Hev & Hle & Hsim & Hd); [|done|done|].
  { split; [|simpl; lia]. apply (tl_trace_young p threads d []); [done|simpl; lia|constructor]. }
  simpl in Hev. rewrite filter_true in Hev. subst tr'.
  pose proof (sim_inv _ _ _ _ _ Hsim) as [Hi _]. exists a. split; [done|]. split; [apply Hsim|].
  intros t th Ht Hh. pose proof (tso_sim_lookup _ _ _ _ _ _ _ Hsim Ht) as Ha. rewrite Hh in Ha. split.
  - rewrite (guard_sees (tso_ticket p) tl_protocol s a _ t th Hsim Ht); [exact Hd|]. simpl. by rewrite Hh.
  - intros u th' Hu Hh'. pose proof (tso_sim_lookup _ _ _ _ _ _ _ Hsim Hu) as Ha'. rewrite Hh' in Ha'.
    by eapply tl_one_holder.
Qed.

(** ** Witness: thread 0 stores 5 through its guard; thread 1 has taken its ticket
    meanwhile, and gets the guard after the store has reached memory *)

Definition demo_ticket_sched : list (nat * tso_action (tl_action nat) (nat -> nat)) :=
  [(0%nat, Code ActLock); (0%nat, Code ActRun); (0%nat, Store (fun _ => 5%nat)); (1%nat, Code ActLock);
   (1%nat, Code ActRun); (0%nat, Flush); (0%nat, Code ActDrop); (1%nat, Code ActRun); (1%nat, Store (fun x => x + 1)%nat)].

Definition demo_ticket_run : sys (ticket_lock nat) (tso_thread tl_pc (nat -> nat)) * list (nat * tso_event tl_event (nat -> nat)) :=
  default (tso_ticket_init 2 0%nat, []) (run (tso_act (tso_ticket Debug)) (tso_ticket_init 2 0%nat) demo_ticket_sched).

Lemma demo_ticket_runs :
  trace (tso_step (tso_ticket Debug)) (tso_ticket_init 2 0%nat) (snd demo_ticket_run) (fst demo_ticket_run).
Proof. apply (run_trace _ _ demo_ticket_sched). exact eq_refl. Qed.

Lemma ticket_tso_refines_sc_witness :
  tl_data (shared (fst demo_ticket_run)) = 5%nat /\
  exists th, locals (fst demo_ticket_run) !! 1%nat = Some th /\ pc th = THeld /\
    tl_deref (see (tso_ticket Debug) (buffer th) (shared (fst demo_ticket_run))) = 6%nat.
Proof.
  split; [exact eq_refl|]. eexists. split; [exact eq_refl|]. split; [exact eq_refl|].
  destruct (ticket_tso_refines_sc Debug 2 0%nat (snd demo_ticket_run) _ ltac:(done) ltac:(vm_compute; exact eq_refl) demo_ticket_runs) as (a & _ & _ & Hsee).
  exact (proj1 (Hsee 1%nat _ eq_refl eq_refl)).
Defined.
