(* ===== verification/RwTso.v ===== *)
(** * RwTso: the reader-writer lock on memory with store buffers (src/src/spinlock.rs)

    The exchanges of [read] and [write] and the subtraction of a read guard's drop
    are locked instructions; the stores through the write guard, and the store of 0
    when it is dropped, are delayed. The machine of RwLock on the memory of
    [Tso.v] does what it does without store buffers; but for [try_read] and
    [try_write], which can fail when the writer has already dropped its guard and
    the store is still in the buffer. *)

From S2P Require Import Prelude Threads RwLock Tso.

Section tso.
Context {T : Type} (p : profile).
Implicit Types l m : rw_lock T.

(** ** The machine *)

Inductive rw_write := RwData (f : T -> T) | RwRelease.

Definition rw_do_write (w : rw_write) l : rw_lock T :=
  match w with
  | RwData f => rw_deref_mut l (f (rw_deref l))
  | RwRelease => rw_drop_write l
  end.

Definition rw_kind (a : rw_action T) (pc : rw_pc) : access_kind :=
  match pc, a with
  | RWriting, ActStore _ | RWriting, ActDrop => Stores
  | RReadCas _, _ | RTryReadCas _, _ | RWriteCas, _ | RTryWriteCas, _ => Locked
  | RReading, ActDrop => Locked
  | _, _ => Loads
  end.

Definition rw_store (_ : nat) (w : rw_write) l (pc : rw_pc) : option (rw_action T) :=
  match pc, w with
  | RWriting, RwData f => Some (ActStore (f (rw_deref l)))
  | RWriting, RwRelease => Some ActDrop
  | _, _ => None
  end.

Definition tso_rw : buffered (rw_action T) (rw_lock T) rw_pc rw_event rw_write :=
  Buffered (fun _ => rw_act p) rw_kind rw_do_write rw_store.

Definition tso_rw_init (threads : nat) (data : T) : sys (rw_lock T) (tso_thread rw_pc rw_write) :=
  tso_start (rw_init threads data).

(** ** Specification: RwLock, in which [try_read] and [try_write] may fail *)

Definition rw_weak (a : rw_action T) l (pc : rw_pc) : option (rw_lock T * rw_pc * rw_event) :=
  match pc, a with
  | RTryReadLoad, ActWeakFail | RTryReadCas _, ActWeakFail | RTryWriteCas, ActWeakFail => Some (l, RIdle, EvNone)
  | _, _ => rw_act p a l pc
  end.

Definition rw_visible (e : rw_event) : bool := match e with EvSpin => false | _ => true end.

Definition rw_after (w : rw_write) (d : T) : T := match w with RwData f => f d | RwRelease => d end.

Definition rw_guard (pc : rw_pc) : bool := rw_reading pc || rw_writing pc.

(** The writer stores; readers and the writer look. *)
Definition rw_protocol : protocol (rw_lock T) rw_pc rw_event rw_write T := {|
  owner := rw_writing;
  guard := rw_guard;
  busy l := rw_state l =? WRITER_BIT;
  releases w := match w with RwRelease => true | RwData _ => false end;
  content := rw_data;
  apply := rw_after;
  visible := rw_visible;
  invariant _ := rw_inv;
  bound _ := True;
|}.

(** ** Proofs *)

Lemma rw_weak_inv (s : rw_sys T) e s' : rw_inv s -> step (fun _ => rw_weak) s e s' -> rw_inv s'.
Proof.
  intros Hi Hstep. destruct e as [t e]. apply step_inv in Hstep as (pc & x & l' & pc' & Hpc & Hact & ->).
  assert (Hcase : rw_act p x (shared s) pc = Some (l', pc', e) \/
    (l' = shared s /\ pc' = RIdle /\ rw_guard pc = false)).
  { unfold rw_weak in Hact. destruct pc, x; try (by left); simplify_eq; by right. }
  destruct Hcase as [Hact'|(-> & -> & Hg)].
  - eapply rw_inv_step; [exact Hi|]. destruct s. simpl in *. by eapply (step_act (fun _ => rw_act p)).
  - apply (rw_inv_insert s (shared s) t pc RIdle Hi Hpc I (inv_range _ Hi)). simpl.
    unfold rw_guard in Hg. apply orb_false_elim in Hg as [-> ->]. simpl. rewrite !Nat.add_0_r, !Nat.sub_0_r. apply (inv_word _ Hi).
Qed.

Lemma rw_exclusive (s : rw_sys T) t u q q' :
  rw_inv s -> locals s !! t = Some q -> locals s !! u = Some q' ->
  rw_writing q = true -> rw_guard q' = true -> u = t.
Proof.
  intros Hi Ht Hu Hw Hg. pose proof (count_if_pos rw_writing _ _ _ Ht Hw) as Hc. pose proof (inv_word _ Hi) as Hword.
  change (0 < writers s)%nat in Hc. unfold rw_guard in Hg. destruct (rw_reading q') eqn:Hr.
  - pose proof (count_if_pos rw_reading _ _ _ Hu Hr) as Hcr. change (0 < readers s)%nat in Hcr. lia.
  - apply (count_if_unique rw_writing (locals s) u t q' q); try done. change (writers s <= 1)%nat. lia.
Qed.

Lemma rw_cas_fails l old new : rw_state l <> old -> rw_cas l old new = (false, l).
Proof. intros Hne. unfold rw_cas. by destruct (Z.eqb_spec (rw_state l) old). Qed.

(** Under a writer's word every exchange fails, and nobody gets a guard. *)
Lemma rw_other_fails a m pc m' pc' ev :
  rw_pc_ok pc -> rw_state m = WRITER_BIT -> rw_guard pc = false -> rw_act p a m pc = Some (m', pc', ev) ->
  m' = m /\ rw_guard pc' = false /\
  ((exists y, forall l, rw_weak y l pc = Some (l, pc', ev)) \/ (pc' = pc /\ rw_visible ev = false)).
Proof.
  intros Hok Hm Hg Hact.
  destruct pc, a; try done; simpl in Hact, Hok; rewrite ?Hm, ?Z.eqb_refl in Hact;
    try (rewrite rw_read_cas_ok in Hact by (unfold WRITER_BIT in *; lia));
    try (rewrite rw_cas_fails in Hact by (rewrite Hm; unfold WRITER_BIT in *; lia)); simplify_eq;
    (split; [done|]); (split; [done|]); try (by right); left;
    first [by exists ActRead|by exists ActTryRead|by exists ActWrite|by exists ActTryWrite|by exists ActWeakFail].
Qed.

#[export] Instance rw_keeps_protocol : StoreProtocol tso_rw (fun _ => rw_weak) rw_protocol.
Proof.
  assert (Hwr : forall pc, rw_writing pc = true -> pc = RWriting) by (by intros []).
  constructor; cbn [b_act b_kind b_write b_store tso_rw owner guard busy releases content apply visible invariant bound rw_protocol].
  - done.
  - intros _ a e a' Hi _. by apply rw_weak_inv.
  - intros _ a l q r Hact. exists a. unfold rw_weak. by destruct q, a.
  - by intros [].
  - intros _ a t u q q' Hi Ht Hu Hw Hg. by eapply rw_exclusive.
  - intros _ a t q Hi Hq Hw. pose proof (count_if_pos rw_writing _ _ _ Hq Hw) as Hc.
    change (0 < writers a)%nat in Hc. pose proof (inv_word _ Hi). apply Z.eqb_eq. lia.
  - intros t w l q x l' q' e Hst Hact. destruct q; try discriminate Hst. by destruct w; injection Hst as <-; injection Hact as <- <- <-.
  - by intros [f|] l Hl.
  - by intros [f|] l.
  - intros _ a l q l' q' e Hk Hact. destruct q, a; try discriminate Hk; unfold rw_act in Hact;
      try destruct (rw_state l =? WRITER_BIT); by simplify_eq.
  - intros _ a l q l' q' e Hk Hact. destruct (rw_act_data p a l q l' q' e Hact) as [| ->]; [done|]. by destruct a.
  - intros _ s t q a l' q' e _ _ ->%Hwr Hk Hact. by destruct a.
  - intros _ s o qo buf m t q a m' q' e Hi _ _ Hl Hm _ Hq Hg _ Hact.
    destruct (rw_other_fails a m q m' q' e (inv_pcs _ Hi t q Hq) ltac:(lia) Hg Hact) as (-> & Hg' & Hcase).
    split; [done|]. split; [done|]. rewrite <-Hl. destruct Hcase as [[y Hy]|[-> Hv]]; [left; by exists y|by right].
Qed.
End tso.
Arguments rw_write : clear implicits.

(** ** Properties *)

(** C14: the reader-writer lock is sound on x86 memory: with the stores through the
    write guard, and the store that releases it, delayed in store buffers, every
    execution acquires, stores and drops as one of the RwLock machine, where stores
    are immediate, and the threads end up at the same places. Readers and writer
    exclude each other; whoever holds a guard, of either kind, sees every store that
    was made through a write guard before, by any thread, in order, and nothing
    else. The one difference allowed is that [try_read] and [try_write] may fail on
    a lock whose write guard was dropped. *)
Theorem rw_tso_refines_sc {T} p threads (d : T) tr s :
  trace (tso_step (tso_rw p)) (tso_rw_init threads d) tr s ->
  exists tr' a, trace (step (fun _ => rw_weak p)) (rw_init threads d) tr' a /\
    List.filter (fun e => rw_visible e.2) tr' = code_events rw_visible tr /\ locals a = map pc (locals s) /\
    forall t th, locals s !! t = Some th -> rw_guard (pc th) = true ->
      rw_deref (see (tso_rw p) (buffer th) (shared s)) = foldl (fun d w => rw_after w d) d (stores tr) /\
      forall u th', locals s !! u = Some th' -> rw_writing (pc th') = true -> u = t.
Proof.
  intros Htr.
  destruct (tso_simulation (tso_rw p) (fun _ => rw_weak p) rw_protocol (rw_init threads d) tr s)
    as (tr' & a & Htr' & Hev & _ & Hsim & Hd); [apply rw_inv_init|done|done|].
  exists tr', a. split; [done|]. split; [done|]. split; [apply Hsim|]. intros t th Ht Hg. split.
  - rewrite (guard_sees (tso_rw p) rw_protocol s a tr' t th Hsim Ht Hg). exact Hd.
  - intros u th' Hu Hw. symmetry.
    exact (rw_exclusive _ _ _ _ _ (sim_inv _ _ _ _ _ Hsim) (tso_sim_lookup _ _ _ _ _ _ _ Hsim Hu)
      (tso_sim_lookup _ _ _ _ _ _ _ Hsim Ht) Hw Hg).
Qed.

(** ** Witness: the writer's stores are in its buffer when [try_read] fails; a
    later [read] sees 5 *)

Definition demo_rw_sched : list (nat * tso_action (rw_action nat) (rw_write nat)) :=
  [(0%nat, Code ActWrite); (0%nat, Code ActRun); (0%nat, Store (RwData (fun _ => 5%nat))); (0%nat, Store RwRelease);
   (1%nat, Code ActTryRead); (1%nat, Code ActRun); (0%nat, Flush); (0%nat, Flush);
   (1%nat, Code ActRead); (1%nat, Code ActRun); (1%nat, Code ActRun)].

Definition demo_rw_run : sys (rw_lock nat) (tso_thread rw_pc (rw_write nat)) * list (nat * tso_event rw_event (rw_write nat)) :=
  default (tso_rw_init 2 0%nat, []) (run (tso_act (tso_rw Debug)) (tso_rw_init 2 0%nat) demo_rw_sched).

Lemma demo_rw_runs : trace (tso_step (tso_rw Debug)) (tso_rw_init 2 0%nat) (snd demo_rw_run) (fst demo_rw_run).
Proof. apply (run_trace _ _ demo_rw_sched). vm_compute. exact eq_refl. Qed.

Lemma rw_tso_refines_sc_witness :
  code_events rw_visible (snd demo_rw_run) =
    [(0%nat, EvCall); (0%nat, EvWriteGuard); (0%nat, EvStore); (0%nat, EvDropWrite);
     (1%nat, EvCall); (1%nat, EvNone); (1%nat, EvCall); (1%nat, EvReadGuard)] /\
  exists th, locals (fst demo_rw_run) !! 1%nat = Some th /\ pc th = RReading /\
    rw_deref (see (tso_rw Debug) (buffer th) (shared (fst demo_rw_run))) = 5%nat.
Proof.
  split; [vm_compute; exact eq_refl|]. exists (TsoThread RReading []).
  assert (Hth : locals (fst demo_rw_run) !! 1%nat = Some (TsoThread RReading [])) by (vm_compute; exact eq_refl).
  split; [exact Hth|]. split; [exact eq_refl|].
  destruct (rw_tso_refines_sc Debug 2 0%nat _ _ demo_rw_runs) as (tr' & a & _ & _ & _ & Hsee).
  exact (proj1 (Hsee 1%nat _ Hth eq_refl)).
Defined.
