(* ===== verification/OnceTso.v ===== *)
(** * OnceTso: the one-time initialization on memory with store buffers
    (src/src/spinlock.rs)

    The exchange of [call_once] is a locked instruction; what the closure stores,
    and the store of [ONCE_DONE], are delayed. The machine of Once on the memory of
    [Tso.v] does what it does without store buffers; but that a thread which calls
    or asks after the initialization, while [ONCE_DONE] is still in the buffer of
    the thread that ran the closure, may find it not completed. *)

From S2P Require Import Prelude Threads Once Tso.

Section tso.
Context {D : Type} (f : nat -> D -> D).
Implicit Types o m : once D.

(** ** The machine *)

(** What thread [t]'s closure stores; the store after it. *)
Inductive once_write := WClosure (t : nat) | WDone.

Definition once_do_write (w : once_write) o : once D :=
  match w with
  | WClosure t => Once (once_state o) (f t (once_data o))
  | WDone => Once ONCE_DONE (once_data o)
  end.

Definition once_kind (a : once_action) (pc : once_pc) : access_kind :=
  match pc, a with
  | OCas, ActRun => Locked
  | ORun, ActRun | OStore, ActRun => Stores
  | _, _ => Loads
  end.

Definition once_store (t : nat) (w : once_write) o (pc : once_pc) : option once_action :=
  match pc, w with
  | ORun, WClosure u => if (u =? t)%nat then Some ActRun else None
  | OStore, WDone => Some ActRun
  | _, _ => None
  end.

Definition tso_once : buffered once_action (once D) once_pc once_event once_write :=
  Buffered (once_act f) once_kind once_do_write once_store.

Definition tso_once_init (threads : nat) (data : D) : sys (once D) (tso_thread once_pc once_write) :=
  tso_start (once_init threads data).

(** ** Specification: Once, in which the first load of [call_once] and the load of
    [is_completed] may miss the completion *)

Inductive once_weak_action := Exact (a : once_action) | Missed (a : once_action).

Definition once_weak (t : nat) (x : once_weak_action) o (pc : once_pc) : option (once D * once_pc * once_event) :=
  match x, pc with
  | Exact a, _ => once_act f t a o pc
  | Missed ActCall, OIdle _ => Some (o, OCas, EvPending)
  | Missed ActCheck, OIdle r => Some (o, OIdle r, EvCompleted false)
  | _, _ => None
  end.

Definition once_visible (e : once_event) : bool := match e with EvPending => false | _ => true end.

Definition once_after (w : once_write) (d : D) : D := match w with WClosure t => f t d | WDone => d end.

(** The thread that won the exchange stores; it looks at the data, and those whose
    call has returned. *)
Definition once_protocol (d0 : D) : protocol (once D) once_pc once_event once_write D := {|
  owner := once_inside;
  guard pc := once_inside pc || once_returned pc;
  busy o := once_state o =? ONCE_RUNNING;
  releases w := match w with WDone => true | WClosure _ => false end;
  content := once_data;
  apply := once_after;
  visible := once_visible;
  invariant := once_inv f d0;
  bound _ := True;
|}.

(** ** Proofs *)

Lemma once_weak_inv d0 tr (s : once_sys D) e s' :
  once_inv f d0 tr s -> step once_weak s e s' -> once_inv f d0 (tr ++ [e]) s'.
Proof.
  intros Hi Hstep. destruct e as [t e]. apply step_inv in Hstep as (pc & x & o' & pc' & Hpc & Hact & ->).
  destruct x as [a|a].
  - eapply once_inv_step; [exact Hi|]. destruct s. simpl in *. by eapply (step_act (once_act f)).
  - destruct pc as [r| | | |]; [|by destruct a..]. destruct a; [| |done]; simpl in Hact; simplify_eq.
    + by eapply once_inv_quiet.
    + eapply once_inv_quiet; try done. intros [= ->]. by eapply inv_returned.
Qed.

(** While the closure runs nobody else gets inside or returns. *)
Lemma once_other_misses t a m pc m' pc' e :
  once_state m = ONCE_RUNNING -> once_inside pc || once_returned pc = false ->
  once_act f t a m pc = Some (m', pc', e) ->
  m' = m /\ once_inside pc' || once_returned pc' = false /\
  forall o, once_state o <> ONCE_UNINIT ->
    (exists y, once_weak t y o pc = Some (o, pc', e)) \/ (pc' = pc /\ once_visible e = false).
Proof.
  intros Hm Hg Hact. destruct pc, a; try discriminate Hact; try discriminate Hg;
    unfold once_act, once_cas, is_completed in Hact; rewrite ?Hm in Hact; cbn in Hact; simplify_eq; (split; [done|]); (split; [done|]); intros o Ho;
    try (by right); left.
  - by exists (Missed ActCall).
  - by exists (Missed ActCheck).
  - exists (Exact ActRun). simpl. unfold once_cas. by destruct (Z.eqb_spec (once_state o) ONCE_UNINIT).
Qed.

Lemma see_running buf m : once_state m <> ONCE_UNINIT -> once_state (see tso_once buf m) <> ONCE_UNINIT.
Proof.
  revert m. induction buf as [|w buf IH]; intros m Hm; [done|]. unfold see in *. simpl. apply IH. by destruct w.
Qed.

#[export] Instance once_keeps_protocol d0 : StoreProtocol tso_once once_weak (once_protocol d0).
Proof.
  constructor; cbn [b_act b_kind b_write b_store tso_once owner guard busy releases content apply visible invariant bound once_protocol].
  - done.
  - intros tr a e a' Hi _. by apply once_weak_inv.
  - intros t a l q r Hact. by exists (Exact a).
  - by intros q ->.
  - intros tr a t u q q' Hi Ht Hu Hin Hg. destruct (once_inside q') eqn:Hq'.
    + by eapply (once_inside_unique f d0 tr a t u q q').
    + destruct q' as [[]| | | |]; try done. pose proof (inv_returned _ _ _ _ Hi u Hu).
      pose proof (once_inside_running f _ _ _ _ _ Hi Ht Hin). once_absurd.
  - intros tr a t q Hi Ht Hin. apply Z.eqb_eq. by eapply once_inside_running.
  - intros t w l q x l' q' e Hst Hact. destruct q, w; try discriminate Hst; simpl in Hst.
    + destruct (Nat.eqb_spec t0 t) as [->|]; [|done]. injection Hst as <-. by injection Hact as <- <- <-.
    + injection Hst as <-. by injection Hact as <- <- <-.
  - by intros [u|] l Hl.
  - by intros [u|] l.
  - intros t a l q l' q' e Hk Hact. destruct q, a; try discriminate Hk; try discriminate Hact; unfold once_act in Hact;
      try destruct (once_state l =? ONCE_DONE); by simplify_eq.
  - intros t a l q l' q' e Hk Hact. destruct q, a; try discriminate Hact; try (by destruct Hk); unfold once_act, once_cas in Hact;
      try destruct (once_state l =? ONCE_DONE); try destruct (once_state l =? ONCE_UNINIT); by simplify_eq.
  - intros tr s t q a l' q' e _ _ Hin Hk Hact. by destruct q, a.
  - intros tr s o qo buf m t q a m' q' e Hi _ Hw Hl Hm _ Hq Hg Hk Hact. apply Z.eqb_eq in Hm.
    destruct (once_other_misses t a m q m' q' e Hm Hg Hact) as (-> & Hg' & Hcase).
    split; [by apply Z.eqb_eq|]. split; [done|]. rewrite <-Hl. destruct (Hcase (shared s)) as [?|[-> Hv]]; [|by left|by right].
    rewrite Hl. apply see_running. by rewrite Hm.
Qed.
End tso.

(** ** Properties *)

Section properties.
Context {D : Type} (f : nat -> D -> D).

Lemma ran_visible tr : ran (List.filter (fun e => once_visible e.2) tr) = ran tr.
Proof.
  unfold ran. induction tr as [|[t ev] tr IH]; [done|].
  destruct ev; cbn [List.filter snd once_visible]; rewrite !filter_cons; repeat case_decide; try done; by rewrite ?fmap_cons, IH.
Qed.

(** C15: one-time initialization is sound on x86 memory: with what the closure
    stores, and the store of [ONCE_DONE], delayed in store buffers, every execution
    runs closures, returns and answers as one of the Once machine, where stores are
    immediate, and the threads end up at the same places; at most one closure
    runs. A thread that finds the state word [ONCE_DONE], as every thread does whose
    call has returned, sees the data as that closure left it: no store of the
    closure is still under way. The difference allowed is that a call or
    [is_completed] may miss a completion; such a call waits, it does not run its
    closure. *)
Theorem once_tso_refines_sc threads (d0 : D) tr s :
  trace (tso_step (tso_once f)) (tso_once_init threads d0) tr s ->
  exists tr' a, trace (step (once_weak f)) (once_init threads d0) tr' a /\
    List.filter (fun e => once_visible e.2) tr' = code_events once_visible tr /\ locals a = map pc (locals s) /\
    (length (ran (code_events once_visible tr)) <= 1)%nat /\
    forall t th, locals s !! t = Some th ->
      let view := see (tso_once f) (buffer th) (shared s) in
      (pc th = OIdle true -> is_completed view = true) /\
      (is_completed view = true ->
       exists w, ran (code_events once_visible tr) = [w] /\ once_data view = f w d0).
Proof.
  intros Htr.
  destruct (tso_simulation (tso_once f) (once_weak f) (once_protocol f d0) (once_init threads d0) tr s)
    as (tr' & a & Htr' & Hev & _ & Hsim & _); [apply once_inv_init|done|done|].
  pose proof (sim_inv _ _ _ _ _ Hsim) as Hi. simpl in Hev, Hi.
  exists tr', a. split; [done|]. split; [done|]. split; [apply Hsim|]. rewrite <-Hev, ran_visible.
  split; [by eapply once_ran_once|]. intros t th Ht view. split.
  - intros Hpc. unfold view. rewrite (guard_sees (tso_once f) (once_protocol f d0) s a tr' t th Hsim Ht); [|simpl; by rewrite Hpc].
    apply Z.eqb_eq. apply (inv_returned _ _ _ _ Hi t). rewrite <-Hpc. exact (tso_sim_lookup _ _ _ _ _ _ _ Hsim Ht).
  - intros Hdone%Z.eqb_eq.
    assert (Hview : view = shared a).
    { apply (idle_sees (tso_once f) (once_protocol f d0) s a tr' t th Hsim Ht). simpl. fold view. by rewrite Hdone. }
    rewrite Hview in *. by apply (inv_done _ _ _ _ Hi).
Qed.
End properties.

(** ** Witness: thread 0 has returned, its stores are in its buffer; thread 1 calls
    and waits; when the stores have reached memory it returns too *)

Definition demo_once_sched : list (nat * tso_action once_action once_write) :=
  [(0%nat, Code ActCall); (0%nat, Code ActRun); (0%nat, Store (WClosure 0)); (0%nat, Store WDone);
   (1%nat, Code ActCheck); (1%nat, Code ActCall); (1%nat, Code ActRun); (1%nat, Code ActRun);
   (0%nat, Flush); (0%nat, Flush); (1%nat, Code ActRun)].

Definition demo_once_run : sys (once nat) (tso_thread once_pc once_write) * list (nat * tso_event once_event once_write) :=
  default (tso_once_init 2 0%nat, [])
    (run (tso_act (tso_once once_demo_init)) (tso_once_init 2 0%nat) demo_once_sched).

Lemma demo_once_runs :
  trace (tso_step (tso_once once_demo_init)) (tso_once_init 2 0%nat) (snd demo_once_run) (fst demo_once_run).
Proof. apply (run_trace _ _ demo_once_sched). vm_compute. exact eq_refl. Qed.

Lemma once_tso_refines_sc_witness :
  code_events once_visible (snd demo_once_run) =
    [(0%nat, EvRan); (0%nat, EvReturn); (1%nat, EvCompleted false); (1%nat, EvReturn)] /\
  exists w, ran (code_events once_visible (snd demo_once_run)) = [w] /\
    once_data (shared (fst demo_once_run)) = once_demo_init w 0%nat.
Proof.
  split; [vm_compute; exact eq_refl|].
  assert (Hth : locals (fst demo_once_run) !! 1%nat = Some (TsoThread (OIdle true) [])) by (vm_compute; exact eq_refl).
  destruct (once_tso_refines_sc once_demo_init 2 0%nat _ _ demo_once_runs) as (tr' & a & _ & _ & _ & _ & Hsee).
  destruct (Hsee 1%nat _ Hth) as [Hret Hdata]. exact (Hdata (Hret eq_refl)).
Defined.
