(* ===== verification/SchedTso.v ===== *)
(** * SchedTso: the scheduler used by several cores on memory with store buffers
    (src/src/scheduler.rs)

    The machine of SchedCode interleaves the atomic operations of the cores on one
    memory. On x86 the stores to a queue's [VecDeque] and the one that releases its
    lock wait in the store buffer of the core; the compare-and-swap of the lock and
    the additions to the counters are locked instructions. Here the same machine
    runs on the memory of [Tso.v]. A core may have the stores of one queue in its
    buffer while others have those of other queues; the lock of each stays taken in
    memory until they have arrived. [SchedTsoConc.v] has the simulation. *)

From S2P Require Import Prelude Threads Task RunQueue Scheduler SpinLock SchedCode SchedRefine SchedTasks SchedConc Tso.

(** ** The machine *)

(** A store to a queue: what [push_back], [pop_front] and [pop_back] make of its
    [VecDeque]; or the store of the guard's [Drop]. *)
Inductive cell_write := CPush (t : task) | CPopFront | CPopBack | CUnlock.

#[global] Instance cell_write_eq_dec : EqDecision cell_write.
Proof. solve_decision. Defined.

Record queue_write := On { on_queue : nat; what : cell_write }.

#[global] Instance queue_write_eq_dec : EqDecision queue_write.
Proof. solve_decision. Defined.

Definition write_data (w : cell_write) (data : list task) : list task :=
  match w with
  | CPush t => data ++ [t]
  | CPopFront => match data with _ :: data' => data' | [] => [] end
  | CPopBack => match pop_back data with Some (_, data') => data' | None => data end
  | CUnlock => data
  end.

Definition write_cell (w : cell_write) (q : cqueue) : cqueue :=
  match w with
  | CUnlock => CQueue (sl_unlock (cq_lock q)) (cq_len q)
  | _ => CQueue (sl_deref_mut (cq_lock q) (write_data w (sl_deref (cq_lock q)))) (cq_len q)
  end.

Definition write_queue (w : queue_write) (qs : list cqueue) : list cqueue :=
  match qs !! on_queue w with
  | Some q => <[on_queue w := write_cell (what w) q]> qs
  | None => qs
  end.

(** The call that the core runs. *)
Definition running (c : core) : option (code (list task)) :=
  match c_frames c with f :: _ => Some (f_code f) | [] => None end.

(** The store that an operation makes. *)
Definition code_store {A} (c : code A) : option queue_write :=
  match c with
  | Unlock i _ => Some (On i CUnlock)
  | PushBack i t _ => Some (On i (CPush t))
  | PopFront i _ => Some (On i CPopFront)
  | PopBack i _ => Some (On i CPopBack)
  | _ => None
  end.

Definition code_kind {A} (c : code A) : access_kind :=
  match c with
  | Cas _ _ | AddLen _ _ _ => Locked
  | Unlock _ _ | PushBack _ _ _ | PopFront _ _ | PopBack _ _ => Stores
  | _ => Loads
  end.

Definition conc_kind (a : conc_action) (c : core) : access_kind :=
  match a, running c with
  | ActRun, Some code => code_kind code
  | ActSpurious, _ => Locked
  | _, _ => Loads
  end.

Definition conc_store (_ : nat) (w : queue_write) (_ : list cqueue) (c : core) : option conc_action :=
  code ← running c;
  if decide (code_store code = Some w) then Some ActRun else None.

Definition tso_conc : buffered conc_action (list cqueue) core conc_event queue_write :=
  Buffered conc_act conc_kind write_queue conc_store.

Definition tso_conc_init (n : nat) (rf : nat -> Z) : sys (list cqueue) (tso_thread core queue_write) :=
  tso_start (conc_init n rf).

Abbreviation tso_conc_sys := (sys (list cqueue) (tso_thread core queue_write)).

(** All stores have reached memory. *)
Definition drained (s : tso_conc_sys) : Prop := Forall (fun p => buffer p = []) (locals s).

(** ... and all calls are finished. *)
Definition finished (s : tso_conc_sys) : Prop :=
  Forall (fun p => c_frames (pc p) = [] /\ buffer p = []) (locals s).

(** Everything that the code did, in order. *)
Abbreviation code_of tr := (code_events (fun _ : conc_event => true) tr).

(** ** Proofs *)

(** *** Stores to a queue *)

Definition on (i : nat) (buf : list queue_write) : Prop := Forall (fun w => on_queue w = i) buf.

Definition data_only (buf : list queue_write) : Prop := Forall (fun w => what w <> CUnlock) buf.

Section stores.
Implicit Types (m l qs : list cqueue) (buf : list queue_write) (w : queue_write).

Lemma write_queue_eq w qs : write_queue w qs !! on_queue w = write_cell (what w) <$> qs !! on_queue w.
Proof.
  unfold write_queue. destruct (qs !! on_queue w) as [q|] eqn:Hq; simpl; [|done].
  apply list_lookup_insert_eq. by eapply lookup_lt_Some.
Qed.

Lemma write_queue_ne w qs i : i <> on_queue w -> write_queue w qs !! i = qs !! i.
Proof. intros Hne. unfold write_queue. destruct (qs !! on_queue w); [|done]. by rewrite list_lookup_insert_ne. Qed.

Lemma write_queue_length w qs : length (write_queue w qs) = length qs.
Proof. unfold write_queue. destruct (qs !! on_queue w); [|done]. apply length_insert. Qed.

Lemma see_length buf m : length (see tso_conc buf m) = length m.
Proof.
  revert m. induction buf as [|w buf IH]; intros m; [done|]. unfold see in *. simpl. by rewrite IH, write_queue_length.
Qed.

(** What is seen of a queue depends on that queue. *)
Lemma see_cell buf m1 m2 i : m1 !! i = m2 !! i -> see tso_conc buf m1 !! i = see tso_conc buf m2 !! i.
Proof.
  revert m1 m2. induction buf as [|w buf IH]; intros m1 m2 Hm; [done|]. unfold see in *. simpl. apply IH.
  destruct (decide (i = on_queue w)) as [->|Hne]; [by rewrite !write_queue_eq, Hm|by rewrite !write_queue_ne].
Qed.

Lemma see_ne buf m i j : on j buf -> i <> j -> see tso_conc buf m !! i = m !! i.
Proof.
  intros Hon Hne. revert m. induction Hon as [|w buf Hw _ IH]; intros m; [done|]. unfold see in *. simpl.
  rewrite IH. apply write_queue_ne. congruence.
Qed.

(** The counters are not stored to. *)
Lemma see_counter buf m i : cq_len <$> see tso_conc buf m !! i = cq_len <$> m !! i.
Proof.
  revert m. induction buf as [|w buf IH]; intros m; [done|]. unfold see in *. simpl. rewrite IH.
  destruct (decide (i = on_queue w)) as [->|Hne]; [|by rewrite write_queue_ne].
  rewrite write_queue_eq. destruct (m !! on_queue w); [|done]. by destruct (what w).
Qed.

Lemma see_unlocked ds m i q : see tso_conc (ds ++ [On i CUnlock]) m !! i = Some q -> locked (cq_lock q) = false.
Proof.
  unfold see. rewrite foldl_app. cbn [foldl b_write tso_conc].
  pose proof (write_queue_eq (On i CUnlock) (foldl (fun m w => write_queue w m) m ds)) as Heq.
  cbn [on_queue what] in Heq. rewrite Heq. intros Hq. destruct (foldl _ m ds !! i); simpl in Hq; by simplify_eq.
Qed.

Lemma write_locked w qs q :
  what w <> CUnlock -> qs !! on_queue w = Some q -> locked (cq_lock q) = true ->
  exists q', write_queue w qs !! on_queue w = Some q' /\ locked (cq_lock q') = true.
Proof.
  intros Hw Hq Hl. rewrite write_queue_eq, Hq. eexists. split; [done|]. by destruct (what w).
Qed.
End stores.

Lemma on_inj i j buf : buf <> [] -> on i buf -> on j buf -> i = j.
Proof. destruct buf as [|w buf]; [done|]. intros _ Hi%Forall_inv Hj%Forall_inv. congruence. Qed.

(** *** The two memories *)

Definition holds (hs : list (option hold)) (t i : nat) : Prop := exists h, hs !! t = Some (Some h) /\ h_queue h = i.

(** The stores of core [t] to queue [i] that are on their way: of a core in its
    critical section, or followed by the one that ends it. *)
Record pending (hs : list (option hold)) (m l : list cqueue) (t : nat) (buf : list queue_write) (i : nat) : Prop := {
  pd_on : on i buf;
  pd_locked : exists q, m !! i = Some q /\ locked (cq_lock q) = true;
  pd_see : l !! i = see tso_conc buf m !! i;
  pd_case : (data_only buf /\ holds hs t i) \/
    (exists ds, buf = ds ++ [On i CUnlock] /\ data_only ds /\ hs !! t = Some None);
}.

(** [m] is memory, [l] the memory of the machine without store buffers. *)
Record memories (hs : list (option hold)) (m l : list cqueue) (ps : list (tso_thread core queue_write)) : Prop := {
  me_length : length m = length l;
  me_pending t p : ps !! t = Some p -> buffer p <> [] -> exists i, pending hs m l t (buffer p) i;
  me_unique t1 t2 p1 p2 i : ps !! t1 = Some p1 -> ps !! t2 = Some p2 -> buffer p1 <> [] -> buffer p2 <> [] ->
    on i (buffer p1) -> on i (buffer p2) -> t1 = t2;
  me_rest i : (forall t p, ps !! t = Some p -> buffer p <> [] -> ~ on i (buffer p)) -> m !! i = l !! i;
}.

Section memories.
Context (hs : list (option hold)) (m l : list cqueue) (ps : list (tso_thread core queue_write)).
Context (aqs : list run_queue) (Hq : queues_ok hs l aqs) (Hme : memories hs m l ps).

Lemma holds_unique t1 t2 i : holds hs t1 i -> holds hs t2 i -> t1 = t2.
Proof. intros (h1 & H1 & <-) (h2 & H2 & Heq). by eapply (qo_unique _ _ _ Hq). Qed.

Lemma holds_locked t i : holds hs t i -> exists q, l !! i = Some q /\ locked (cq_lock q) = true.
Proof. intros (h & Hh & <-). destruct (qo_held _ _ _ Hq t h Hh) as [-> _]. by eexists. Qed.

(** The queue that a core holds has no stores of others on their way. *)
Lemma pending_holder t u p i j :
  holds hs t i -> ps !! u = Some p -> buffer p <> [] -> pending hs m l u (buffer p) j -> on i (buffer p) ->
  u = t /\ data_only (buffer p).
Proof.
  intros Hh Hp Hb Hpd Hon. assert (j = i) as ->.
  { pose proof (pd_on _ _ _ _ _ _ Hpd) as Hj. destruct (buffer p) as [|w buf]; [done|].
    apply Forall_inv in Hj. apply Forall_inv in Hon. congruence. }
  destruct (pd_case _ _ _ _ _ _ Hpd) as [[Hd Hu]|(ds & Hbuf & _ & Hu)].
  - split; [by eapply holds_unique|done].
  - destruct (holds_locked t i Hh) as (q & Hl & Hlock). rewrite (pd_see _ _ _ _ _ _ Hpd), Hbuf in Hl.
    apply see_unlocked in Hl. congruence.
Qed.

(** The holder sees its queue as it is without store buffers. *)
Lemma holder_view t p i :
  holds hs t i -> ps !! t = Some p ->
  see tso_conc (buffer p) m !! i = l !! i /\ on i (buffer p) /\ data_only (buffer p) /\
  (forall u p', u <> t -> ps !! u = Some p' -> buffer p' <> [] -> ~ on i (buffer p')).
Proof.
  intros Hh Hp.
  assert (Hoth : forall u p', u <> t -> ps !! u = Some p' -> buffer p' <> [] -> ~ on i (buffer p')).
  { intros u p' Hne Hp' Hb Hon. destruct (me_pending _ _ _ _ Hme u p' Hp' Hb) as [j Hpd].
    by destruct (pending_holder t u p' i j Hh Hp' Hb Hpd Hon). }
  destruct (decide (buffer p = [])) as [Hb|Hb].
  - rewrite Hb. split; [|split_and!; [constructor|constructor|done]]. apply (me_rest _ _ _ _ Hme). intros u p' Hp' Hb'.
    destruct (decide (u = t)) as [->|Hne]; [by simplify_eq|]. by apply (Hoth u).
  - destruct (me_pending _ _ _ _ Hme t p Hp Hb) as [j Hpd]. assert (j = i) as ->.
    { destruct (pd_case _ _ _ _ _ _ Hpd) as [[_ (h' & Hh' & <-)]|(ds & _ & _ & Hn)]; destruct Hh as (h & Hh & <-); congruence. }
    pose proof (pd_on _ _ _ _ _ _ Hpd) as Hon. split; [symmetry; apply Hpd|].
    destruct (pending_holder t t p i i Hh Hp Hb Hpd Hon) as [_ Hd]. by split_and!.
Qed.

(** Who has stores to a queue on their way. *)
Lemma pending_dec i :
  (exists t p, ps !! t = Some p /\ buffer p <> [] /\ on i (buffer p)) \/
  (forall t p, ps !! t = Some p -> buffer p <> [] -> ~ on i (buffer p)).
Proof.
  destruct (decide (Exists (fun p => buffer p <> [] /\ on i (buffer p)) ps)) as [He|Hn].
  - left. apply Exists_exists in He as (p & Hin & Hp). apply list_elem_of_lookup in Hin as [t Ht]. by exists t, p.
  - right. intros t p Hp Hb Hon. apply Hn, Exists_exists. exists p. split; [by eapply list_elem_of_lookup_2|done].
Qed.

Lemma counters_agree buf i : cq_len <$> see tso_conc buf m !! i = cq_len <$> l !! i.
Proof.
  rewrite see_counter. destruct (pending_dec i) as [(t & p & Hp & Hb & Hon)|Hn]; [|by rewrite (me_rest _ _ _ _ Hme i Hn)].
  destruct (me_pending _ _ _ _ Hme t p Hp Hb) as [j Hpd].
  pose proof (on_inj _ _ _ Hb (pd_on _ _ _ _ _ _ Hpd) Hon) as ->.
  by rewrite (pd_see _ _ _ _ _ _ Hpd), see_counter.
Qed.

(** A queue whose lock is free in memory has no stores on their way. *)
Lemma free_settled i q :
  m !! i = Some q -> locked (cq_lock q) = false ->
  (forall t p, ps !! t = Some p -> buffer p <> [] -> ~ on i (buffer p)) /\ l !! i = Some q.
Proof.
  intros Hm Hl. assert (Hn : forall t p, ps !! t = Some p -> buffer p <> [] -> ~ on i (buffer p)).
  { intros t p Hp Hb Hon. destruct (me_pending _ _ _ _ Hme t p Hp Hb) as [j Hpd].
    destruct (pd_locked _ _ _ _ _ _ Hpd) as (q' & Hq' & Hl').
    pose proof (on_inj _ _ _ Hb (pd_on _ _ _ _ _ _ Hpd) Hon) as ->. congruence. }
  split; [done|]. by rewrite <-(me_rest _ _ _ _ Hme i Hn).
Qed.
End memories.

(** *** What a step changes *)

Lemma pending_keep hs hs' m m' l l' u buf i :
  hs' !! u = hs !! u -> m' !! i = m !! i -> l' !! i = l !! i -> pending hs m l u buf i -> pending hs' m' l' u buf i.
Proof.
  intros Hh Hm Hl [Hon Hlock Hsee Hcase]. constructor; [done|by rewrite Hm| |].
  - rewrite Hl, Hsee. by apply see_cell.
  - unfold holds in *. by rewrite Hh.
Qed.

(** Core [t] changes queue [i], to which no other core has stores on their way. *)
Lemma memories_update hs hs' m m' l l' ps t p c' buf' i :
  memories hs m l ps -> ps !! t = Some p -> (forall u, u <> t -> hs' !! u = hs !! u) ->
  (forall j, j <> i -> m' !! j = m !! j /\ l' !! j = l !! j) -> length m' = length l' ->
  on i (buffer p) -> (forall u p', u <> t -> ps !! u = Some p' -> buffer p' <> [] -> ~ on i (buffer p')) ->
  on i buf' -> (buf' <> [] -> pending hs' m' l' t buf' i) -> (buf' = [] -> m' !! i = l' !! i) ->
  memories hs' m' l' (<[t := TsoThread c' buf']> ps).
Proof.
  intros Hme Ht Hhs Hqs Hlen Honp Hoth Hon Hpd Hnil. constructor.
  - done.
  - intros u p' [(-> & <- & _)|[Hne Hp']]%list_lookup_insert_Some Hb; [exists i; by apply Hpd|].
    destruct (me_pending _ _ _ _ Hme u p' Hp' Hb) as [j Hj]. exists j.
    assert (j <> i) by (intros ->; by apply (Hoth u p'), (pd_on _ _ _ _ _ _ Hj)).
    destruct (Hqs j) as [Hmj Hlj]; [done|]. by apply (pending_keep hs _ m _ l); [apply Hhs|..].
  - intros t1 t2 p1 p2 j [(-> & <- & _)|[Hne1 H1]]%list_lookup_insert_Some
      [(<- & <- & _)|[Hne2 H2]]%list_lookup_insert_Some Hb1 Hb2 Ho1 Ho2; [done|..].
    + pose proof (on_inj _ _ _ Hb1 Ho1 Hon) as ->. by destruct (Hoth t2 p2).
    + pose proof (on_inj _ _ _ Hb2 Ho2 Hon) as ->. by destruct (Hoth t1 p1).
    + by eapply (me_unique _ _ _ _ Hme).
  - intros j Hj. destruct (decide (j = i)) as [->|Hne].
    + apply Hnil. destruct (decide (buf' = [])) as [|Hb]; [done|].
      destruct (Hj t (TsoThread c' buf')); [apply list_lookup_insert_eq; by eapply lookup_lt_Some|done|done].
    + destruct (Hqs j Hne) as [-> ->]. apply (me_rest _ _ _ _ Hme). intros u p' Hp' Hb Ho.
      destruct (decide (u = t)) as [->|Hnu].
      * simplify_eq. by pose proof (on_inj _ _ _ Hb Ho Honp).
      * apply (Hj u p'); [by rewrite list_lookup_insert_ne|done|done].
Qed.

(** Core [t] changes no queue. *)
Lemma memories_local hs hs' m l ps t c c' buf :
  memories hs m l ps -> ps !! t = Some (TsoThread c buf) -> (forall u, u <> t -> hs' !! u = hs !! u) ->
  (forall i, holds hs t i -> holds hs' t i) -> (hs !! t = Some None -> hs' !! t = Some None) ->
  memories hs' m l (<[t := TsoThread c' buf]> ps).
Proof.
  intros Hme Ht Hhs Hkeep Hnone.
  assert (Hback : forall u p, <[t := TsoThread c' buf]> ps !! u = Some p -> exists p0, ps !! u = Some p0 /\ buffer p0 = buffer p).
  { intros u p [(-> & <- & _)|[_ Hp]]%list_lookup_insert_Some; eauto. }
  constructor.
  - apply Hme.
  - intros u p Hp Hb. destruct (Hback u p Hp) as (p0 & Hp0 & Heq). rewrite <-Heq in *.
    destruct (me_pending _ _ _ _ Hme u p0 Hp0 Hb) as [i Hi]. exists i.
    destruct (decide (u = t)) as [->|Hne]; [|by eapply pending_keep; [apply Hhs|..]].
    destruct Hi as [Hon Hlock Hsee Hcase]. split; [done..|].
    destruct Hcase as [[Hd Hh]|(ds & Hbuf & Hd & Hn)]; [left; split; [done|by apply Hkeep]|right].
    exists ds. split_and!; [done|done|by apply Hnone].
  - intros t1 t2 p1 p2 i H1 H2 Hb1 Hb2 Ho1 Ho2.
    destruct (Hback t1 p1 H1) as (q1 & Hq1 & E1), (Hback t2 p2 H2) as (q2 & Hq2 & E2).
    rewrite <-E1 in *. rewrite <-E2 in *. by eapply (me_unique _ _ _ _ Hme).
  - intros i Hi. apply (me_rest _ _ _ _ Hme). intros u p Hp Hb Ho.
    destruct (decide (u = t)) as [->|Hne].
    + simplify_eq. apply (Hi t (TsoThread c' buf)); [apply list_lookup_insert_eq; by eapply lookup_lt_Some|done|done].
    + apply (Hi u p); [by rewrite list_lookup_insert_ne|done|done].
Qed.

(** The oldest store reaches memory. *)
Lemma memories_flush hs m l ps aqs t c w buf :
  queues_ok hs l aqs -> memories hs m l ps -> ps !! t = Some (TsoThread c (w :: buf)) ->
  memories hs (write_queue w m) l (<[t := TsoThread c buf]> ps).
Proof.
  intros Hq Hme Ht. destruct (me_pending _ _ _ _ Hme t _ Ht ltac:(done)) as [i Hpd]. simpl in Hpd.
  destruct Hpd as [Hon Hlock Hsee Hcase]. pose proof (Forall_inv Hon) as Hw. pose proof (Forall_inv_tail Hon) as Hon'.
  simpl in Hw. eapply (memories_update hs hs m _ l l ps t _ c buf i Hme Ht); try done.
  - intros j Hj. split; [|done]. apply write_queue_ne. congruence.
  - rewrite write_queue_length. apply Hme.
  - intros u p' Hne Hp' Hb Ho. destruct Hne. eapply (me_unique _ _ _ _ Hme u t p' _ i); try done.
  - intros Hb. assert (Hcase' : what w <> CUnlock /\ ((data_only buf /\ holds hs t i) \/
      (exists ds, buf = ds ++ [On i CUnlock] /\ data_only ds /\ hs !! t = Some None))).
    { destruct Hcase as [[Hd Hh]|([|w' ds] & Hbuf & Hd & Hn)]; simpl in *; simplify_eq.
      - apply Forall_cons in Hd as [Hd1 Hd2]. split; [done|by left].
      - apply Forall_cons in Hd as [Hd1 Hd2]. split; [done|]. right. by exists ds. }
    destruct Hcase' as [Hd Hcase']. constructor; [done| |by rewrite Hsee|done].
    destruct Hlock as (q & Hq' & Hl). rewrite <-Hw in *. by eapply write_locked.
  - intros ->. by rewrite Hsee.
Qed.

(** What a core holds is settled by the locks and the other cores. *)
Lemma holds_transfer hs hs' l l' aqs aqs' t i q :
  queues_ok hs l aqs -> queues_ok hs' l' aqs' -> (forall u, u <> t -> hs' !! u = hs !! u) ->
  holds hs t i -> l' !! i = Some q -> locked (cq_lock q) = true -> holds hs' t i.
Proof.
  intros Hq Hq' Hoth Hh Hl Hlock. destruct (qo_locked _ _ _ Hq' i q Hl Hlock) as (u & h & Hu & Heq).
  destruct (decide (u = t)) as [->|Hne]; [by exists h|]. rewrite Hoth in Hu by done.
  destruct Hne. apply (holds_unique hs l aqs Hq u t i); [by exists h|done].
Qed.
