(* ===== verification/SchedTsoConc.v ===== *)
(** * SchedTsoConc: executions of the scheduler on memory with store buffers
    (src/src/scheduler.rs)

    Every step of the machine of SchedTso is the same step of the machine of
    SchedCode, whose memory is the one that all stores have reached, or the arrival
    of a store. The theorems on executions of the latter carry over. *)

From S2P Require Import Prelude Threads Task RunQueue Scheduler SpinLock SchedCode SchedRefine SchedTasks SchedConc Tso SchedTso.

(** *** What the code does on the two memories *)

(** The queue that an operation uses through the guard. *)
Definition guarded {A} (c : code A) : option nat :=
  match c with
  | Unlock i _ | QLen i _ | PushBack i _ _ | PopFront i _ | PopBack i _ | AddLen i _ _ => Some i
  | _ => None
  end.

Lemma guarded_held {A} entry (c : code A) p b h i :
  stands_for entry c p (Ghost b h) -> guarded c = Some i -> exists hd, h = Some hd /\ h_queue hd = i.
Proof.
  destruct c; intros Hc [= <-]; simpl in Hc.
  - destruct Hc as (a & Hg & _). simpl in Hg. subst h. by eexists.
  - destruct Hc as (hd & Hg & <- & _). by exists hd.
  - destruct Hc as (hd & Hg & <- & _). by exists hd.
  - destruct Hc as (hd & Hg & <- & _). by exists hd.
  - destruct Hc as (hd & Hg & <- & _). by exists hd.
  - destruct Hc as (hd & Hg & <- & _). by exists hd.
Qed.

Lemma store_guarded {A} (c : code A) w : code_store c = Some w -> guarded c = Some (on_queue w).
Proof. by destruct c; intros [= <-]. Qed.

Lemma running_stands c h afs code :
  core_rel c h afs -> running c = Some code -> exists entry p b, stands_for entry code p (Ghost b h).
Proof.
  unfold core_rel, running. destruct (c_frames c) as [|f fs]; [done|]. intros Hrel [= <-].
  assert (Htop : exists af, top_rel (c_rflags c) h f af).
  { destruct fs as [|f0 [|]], afs as [|af [|af0 [|]]]; try done; exists af; [done|by destruct Hrel]. }
  destruct Htop as (af & _ & entry & _ & _ & Hc). by eexists _, _, _.
Qed.

(** A store is made of the queue that is seen. *)
Lemma code_store_step {A} (c : code A) w qs rf c' qs' rf' spin :
  code_store c = Some w -> code_step c qs rf = Some (c', qs', rf', spin) ->
  forall qs2, qs2 !! on_queue w = qs !! on_queue w ->
    code_step c qs2 rf = Some (c', write_queue w qs2, rf', spin).
Proof.
  intros Hst Hstep qs2 Hq. destruct c; try discriminate Hst; injection Hst as <-; simpl in Hq, Hstep |- *;
    unfold write_queue; cbn [on_queue what write_cell write_data]; rewrite Hq in *;
    destruct (qs !! i) as [[[b data] len]|] eqn:Hqi; try discriminate Hstep; simpl in Hstep |- *.
  - by injection Hstep as <- _ <- <-.
  - by injection Hstep as <- _ <- <-.
  - destruct data; by injection Hstep as <- _ <- <-.
  - destruct (pop_back data) as [[t data']|]; by injection Hstep as <- _ <- <-.
Qed.

(** A load returns what is seen; through the guard all of the queue, else the
    counter. *)
Lemma code_loads_step {A} (c : code A) qs rf c' qs' rf' spin :
  code_kind c = Loads -> code_step c qs rf = Some (c', qs', rf', spin) ->
  qs' = qs /\ forall qs2, (forall i, guarded c = Some i -> qs2 !! i = qs !! i) ->
    (forall i, cq_len <$> qs2 !! i = cq_len <$> qs !! i) -> code_step c qs2 rf = Some (c', qs2, rf', spin).
Proof.
  intros Hk Hstep. destruct c; try discriminate Hk; simpl in Hstep; try discriminate Hstep.
  1-3: by injection Hstep as <- <- <- <-.
  - destruct (qs !! i) as [q|] eqn:Hq; [|discriminate Hstep]. simpl in Hstep. destruct q as [[b data] len].
    injection Hstep as <- <- <- <-. simpl. split; [by rewrite list_insert_id|]. intros qs2 Hg _.
    specialize (Hg i eq_refl). rewrite Hq in Hg. rewrite Hg. simpl. by rewrite list_insert_id.
  - destruct (qs !! i) as [q|] eqn:Hq; [|discriminate Hstep]. simpl in Hstep. injection Hstep as <- <- <- <-.
    split; [done|]. intros qs2 _ Hc. specialize (Hc i). rewrite Hq in Hc. simpl.
    destruct (qs2 !! i) as [q2|]; simpl in Hc; simplify_eq. simpl. by rewrite Hc.
Qed.

(** What is not an operation of code does not look at the queues. *)
Lemma conc_act_apart t a qs c qs' c' e :
  a <> ActRun -> conc_act t a qs c = Some (qs', c', e) ->
  qs' = qs /\ forall qs2, length qs2 = length qs -> conc_act t a qs2 c = Some (qs2, c', e).
Proof.
  intros Ha Hact. destruct c as [rf fs]. destruct a; try done; simpl in Hact.
  - destruct fs; [|done]. simplify_eq. split; [done|]. intros qs2 Hlen. simpl. by rewrite Hlen.
  - destruct (interrupts_enabled rf) eqn:Hif; [|done]. simplify_eq. split; [done|].
    intros qs2 Hlen. simpl. by rewrite Hif, Hlen.
  - destruct fs as [|[[] irq] fs]; try done. by simplify_eq.
  - destruct fs; [|done]. by simplify_eq.
Qed.

Lemma run_code t qs rf code irq fs :
  (forall ts, code <> Done ts) ->
  conc_act t ActRun qs (Core rf (Frame code irq :: fs)) =
  match code_step code qs rf with
  | Some (c1, qs1, rf1, spin) => Some (qs1, Core rf1 (Frame c1 irq :: fs), if spin : bool then EvSpin else EvWork)
  | None => None
  end.
Proof. intros Hd. destruct code; try reflexivity. by destruct (Hd a). Qed.

(** *** The simulation *)

Record related (hs : list (option hold)) (s : tso_conc_sys) (a : conc_sys) (abs : atomic_sys) : Prop := {
  re_sim : sim_holding hs a abs;
  re_cores : locals a = map pc (locals s);
  re_memory : memories hs (shared s) (shared a) (locals s);
}.

Lemma related_core hs s a abs t p : related hs s a abs -> locals s !! t = Some p -> locals a !! t = Some (pc p).
Proof.
  intros Hre Hp. rewrite (re_cores _ _ _ _ Hre). change (map pc (locals s)) with (pc <$> locals s).
  by rewrite list_lookup_fmap, Hp.
Qed.

(** The machine without store buffers moves. *)
Lemma sc_move hs s a abs t p x l' c' ev :
  related hs s a abs -> locals s !! t = Some p -> conc_act t x (shared a) (pc p) = Some (l', c', ev) ->
  exists hs' abs', conc_step a (t, ev) (Sys l' (<[t := c']> (locals a))) /\
    sim_holding hs' (Sys l' (<[t := c']> (locals a))) abs' /\ (forall u, u <> t -> hs' !! u = hs !! u) /\
    is_Some (hs' !! t).
Proof.
  intros Hre Hp Hact. pose proof (related_core _ _ _ _ _ _ Hre Hp) as Hc. destruct a as [l cs]. simpl in Hact, Hc.
  assert (Hstep : conc_step (Sys l cs) (t, ev) (Sys l' (<[t := c']> cs))) by (by econstructor).
  destruct (sim_holding_step _ _ _ _ _ _ (re_sim _ _ _ _ Hre) Hstep) as (hs' & abs' & Hsim & Hoth & _).
  exists hs', abs'. split_and!; [done|done|done|]. apply lookup_lt_is_Some_2. rewrite (sim_holds _ _ _ Hsim). simpl.
  rewrite length_insert. by eapply lookup_lt_Some.
Qed.

(** What the moving core holds afterwards. *)
Lemma keeps_holding hs s a abs hs' a' abs' t i q :
  related hs s a abs -> sim_holding hs' a' abs' -> (forall u, u <> t -> hs' !! u = hs !! u) ->
  holds hs t i -> shared a' !! i = Some q -> locked (cq_lock q) = true -> holds hs' t i.
Proof.
  intros Hre Hsim Hoth. apply (holds_transfer hs hs' (shared a) (shared a') (shared abs) (shared abs')); [|apply Hsim|done].
  apply (re_sim _ _ _ _ Hre).
Qed.

Lemma holds_nothing hs s a abs hs' a' abs' t :
  related hs s a abs -> sim_holding hs' a' abs' -> (forall u, u <> t -> hs' !! u = hs !! u) -> is_Some (hs' !! t) ->
  (forall i q', shared a' !! i = Some q' -> locked (cq_lock q') = true -> ~ holds hs t i /\
     exists q, shared a !! i = Some q /\ locked (cq_lock q) = true) ->
  hs' !! t = Some None.
Proof.
  intros Hre Hsim Hoth [[h|] Hh] Hlocks; [|done]. exfalso.
  assert (Hho : holds hs' t (h_queue h)) by (by exists h).
  destruct (holds_locked hs' _ _ (sim_queues _ _ _ Hsim) t _ Hho) as (q' & Hq' & Hl').
  destruct (Hlocks _ _ Hq' Hl') as (Hnot & q & Hq & Hl). apply Hnot.
  apply (holds_transfer hs' hs (shared a') (shared a) (shared abs') (shared abs) t _ q); try done; [apply Hsim|apply (re_sim _ _ _ _ Hre)|].
  intros u Hu. by rewrite Hoth.
Qed.

(** A move that changes no queue. *)
Lemma related_quiet hs s a abs t c buf x c' ev :
  related hs s a abs -> locals s !! t = Some (TsoThread c buf) -> conc_act t x (shared a) c = Some (shared a, c', ev) ->
  exists hs' a' abs', conc_step a (t, ev) a' /\
    related hs' (Sys (shared s) (<[t := TsoThread c' buf]> (locals s))) a' abs'.
Proof.
  intros Hre Hp Hact. destruct (sc_move _ _ _ _ _ _ _ _ _ _ Hre Hp Hact) as (hs' & abs' & Hstep & Hsim & Hoth & Hsome).
  exists hs', (Sys (shared a) (<[t := c']> (locals a))), abs'. split; [done|]. constructor; [done| |]; cbn [shared locals].
  - rewrite (re_cores _ _ _ _ Hre). symmetry. apply (list_fmap_insert pc).
  - eapply memories_local; [apply Hre|exact Hp|exact Hoth| |].
    + intros i Hh. destruct (holds_locked hs _ _ (sim_queues _ _ _ (re_sim _ _ _ _ Hre)) t i Hh) as (q & Hq & Hl).
      by eapply keeps_holding.
    + intros Hn. eapply holds_nothing; [done|exact Hsim|done|done|]. simpl. intros i q Hq Hl.
      split; [|by exists q]. intros (h & Hh & _). congruence.
Qed.

(** A core that runs guarded code holds the queue. *)
Lemma running_holds hs s a abs t p code i :
  related hs s a abs -> locals s !! t = Some p -> running (pc p) = Some code -> guarded code = Some i -> holds hs t i.
Proof.
  intros Hre Hp Hrun Hg. pose proof (related_core _ _ _ _ _ _ Hre Hp) as Hc.
  destruct (sim_lookup _ _ _ _ _ (re_sim _ _ _ _ Hre) Hc) as (afs & h & _ & Hh & Hrel).
  destruct (running_stands _ _ _ _ Hrel Hrun) as (entry & ap & b & Hst).
  destruct (guarded_held _ _ _ _ _ _ Hst Hg) as (hd & -> & Heq). by exists hd.
Qed.

Lemma related_loads hs s a abs t c buf x v c' ev :
  related hs s a abs -> locals s !! t = Some (TsoThread c buf) -> conc_kind x c = Loads ->
  conc_act t x (see tso_conc buf (shared s)) c = Some (v, c', ev) ->
  exists hs' a' abs', conc_step a (t, ev) a' /\
    related hs' (Sys (shared s) (<[t := TsoThread c' buf]> (locals s))) a' abs'.
Proof.
  intros Hre Hp Hk Hact. eapply (related_quiet _ _ _ _ _ _ _ x); [done|done|].
  pose proof (re_memory _ _ _ _ Hre) as Hme.
  assert (Hlen : length (shared a) = length (see tso_conc buf (shared s))) by (rewrite see_length; symmetry; apply Hme).
  assert (Hnot : x <> ActRun \/ x = ActRun) by (destruct x; auto). destruct Hnot as [Hx| ->].
  { by apply (conc_act_apart _ _ _ _ _ _ _ Hx Hact). }
  destruct c as [rf [|[code irq] fs]]; [done|]. cbn [conc_kind running c_frames f_code] in Hk.
  assert (Hdone : (exists ts, code = Done ts) \/ forall ts, code <> Done ts) by (destruct code; eauto).
  destruct Hdone as [[ts ->]|Hd]; [simpl in Hact |- *; by simplify_eq|].
  rewrite run_code in Hact |- * by done.
  destruct (code_step code (see tso_conc buf (shared s)) rf) as [[[[c1 qs1] rf1] spin]|] eqn:Hs; [|done].
  injection Hact as <- <- <-. destruct (code_loads_step _ _ _ _ _ _ _ Hk Hs) as [-> Hany].
  rewrite (Hany (shared a)); [done| |].
  - intros i Hg. symmetry. apply (holder_view hs (shared s) (shared a) (locals s) (shared abs)
      (sim_queues _ _ _ (re_sim _ _ _ _ Hre)) Hme t (TsoThread (Core rf (Frame code irq :: fs)) buf) i); [|done].
    by eapply (running_holds hs s a abs t _ code).
  - intros i. symmetry. by eapply counters_agree.
Qed.

(** Stores to the data do not change the lock. *)
Lemma see_lock buf m i :
  data_only buf -> (fun q => locked (cq_lock q)) <$> see tso_conc buf m !! i = (fun q => locked (cq_lock q)) <$> m !! i.
Proof.
  intros Hd. revert m. induction Hd as [|w buf Hw _ IH]; intros m; [done|]. unfold see in *. simpl. rewrite IH.
  destruct (decide (i = on_queue w)) as [->|Hne]; [|by rewrite write_queue_ne].
  rewrite write_queue_eq. destruct (m !! on_queue w); [|done]. by destruct (what w).
Qed.

Lemma related_store hs s a abs t c buf w x v c' ev :
  related hs s a abs -> locals s !! t = Some (TsoThread c buf) ->
  conc_store t w (see tso_conc buf (shared s)) c = Some x ->
  conc_act t x (see tso_conc buf (shared s)) c = Some (v, c', ev) ->
  exists hs' a' abs', conc_step a (t, ev) a' /\
    related hs' (Sys (shared s) (<[t := TsoThread c' (buf ++ [w])]> (locals s))) a' abs'.
Proof.
  intros Hre Hp Hst Hact. pose proof (re_memory _ _ _ _ Hre) as Hme. pose proof (sim_queues _ _ _ (re_sim _ _ _ _ Hre)) as Hqs.
  destruct c as [rf [|[code irq] fs]]; [done|]. unfold conc_store in Hst. cbn [running c_frames f_code mbind option_bind] in Hst.
  case_decide as Hw; [|done]. injection Hst as <-. set (c := Core rf (Frame code irq :: fs)) in *.
  assert (Hd : forall ts, code <> Done ts) by (by intros ts ->).
  assert (Hh : holds hs t (on_queue w)).
  { eapply (running_holds hs s a abs t _ code); [done|exact Hp|done|by apply store_guarded]. }
  destruct (holder_view _ _ _ _ _ Hqs Hme t _ _ Hh Hp) as (Hview & Hon & Hdata & Hoth). simpl in Hview, Hon, Hdata.
  destruct (holds_locked _ _ _ Hqs t _ Hh) as (q & Hq & Hlock).
  unfold c in Hact. rewrite run_code in Hact by done.
  destruct (code_step code _ rf) as [[[[c1 qs1] rf1] spin]|] eqn:Hs; [|done]. injection Hact as <- <- <-.
  pose proof (code_store_step _ _ _ _ _ _ _ _ Hw Hs (shared a) (eq_sym Hview)) as Hs'.
  assert (Hact' : conc_act t ActRun (shared a) c =
    Some (write_queue w (shared a), Core rf1 (Frame c1 irq :: fs), if spin then EvSpin else EvWork)).
  { unfold c. by rewrite run_code, Hs'. }
  destruct (sc_move _ _ _ _ _ _ _ _ _ _ Hre Hp Hact') as (hs' & abs' & Hstep & Hsim & Hhs & Hsome).
  exists hs', (Sys (write_queue w (shared a)) (<[t := Core rf1 (Frame c1 irq :: fs)]> (locals a))), abs'.
  split; [exact Hstep|]. constructor; [exact Hsim| |]; cbn [shared locals].
  { rewrite (re_cores _ _ _ _ Hre). symmetry. apply (list_fmap_insert pc). }
  assert (Hon' : on (on_queue w) (buf ++ [w])) by (apply Forall_app; split; [done|by constructor]).
  eapply (memories_update hs hs' (shared s) (shared s) (shared a)); try done.
  - intros j Hj. split; [done|]. by apply write_queue_ne.
  - rewrite write_queue_length. apply Hme.
  - intros _. constructor; [done| | |].
    + pose proof (see_lock buf (shared s) (on_queue w) Hdata) as Hl. rewrite Hview, Hq in Hl. simpl in Hl.
      destruct (shared s !! on_queue w) as [q0|]; simpl in Hl; [|discriminate Hl]. injection Hl as Hl. exists q0. split; [done|congruence].
    + unfold see. rewrite foldl_app. cbn [foldl b_write tso_conc]. rewrite !write_queue_eq. unfold see in Hview. cbn [b_write tso_conc] in Hview. by rewrite Hview.
    + destruct (decide (what w = CUnlock)) as [Hu|Hu].
      * right. exists buf. destruct w as [i cw]. simpl in *. subst cw. split; [done|]. split; [done|].
        eapply holds_nothing; [done|exact Hsim|done|done|]. simpl. intros j q' Hq' Hl'.
        destruct (decide (j = i)) as [->|Hne].
        { pose proof (write_queue_eq (On i CUnlock) (shared a)) as He. simpl in He. rewrite Hq', Hq in He. simpl in He. by simplify_eq. }
        rewrite write_queue_ne in Hq' by done. split; [|by exists q'].
        intros (h' & Hh' & Heq'). destruct Hh as (h & Hh & Heq). congruence.
      * left. split; [apply Forall_app; split; [done|by constructor]|].
        destruct (write_locked w (shared a) q Hu Hq Hlock) as (q' & Hq' & Hl'). by eapply keeps_holding.
  - by destruct buf.
Qed.

(** An operation on a queue to which no stores are on their way. *)
Lemma related_cell hs s a abs t c x i q c' ev :
  related hs s a abs -> locals s !! t = Some (TsoThread c []) ->
  (forall u p, u <> t -> locals s !! u = Some p -> buffer p <> [] -> ~ on i (buffer p)) ->
  conc_act t x (shared a) c = Some (<[i := q]> (shared a), c', ev) ->
  shared s !! i = shared a !! i ->
  exists hs' a' abs', conc_step a (t, ev) a' /\
    related hs' (Sys (<[i := q]> (shared s)) (<[t := TsoThread c' []]> (locals s))) a' abs'.
Proof.
  intros Hre Hp Hoth Hact Hsame. pose proof (re_memory _ _ _ _ Hre) as Hme.
  destruct (sc_move _ _ _ _ _ _ _ _ _ _ Hre Hp Hact) as (hs' & abs' & Hstep & Hsim & Hhs & _).
  eexists hs', _, abs'. split; [exact Hstep|]. constructor; [exact Hsim| |]; cbn [shared locals].
  { rewrite (re_cores _ _ _ _ Hre). symmetry. apply (list_fmap_insert pc). }
  eapply (memories_update hs hs' (shared s) _ (shared a) _ _ t _ c' [] i Hme Hp); try done.
  - intros j Hj. by rewrite !list_lookup_insert_ne.
  - rewrite !length_insert. apply Hme.
  - constructor.
  - constructor.
  - intros _. destruct (decide (i < length (shared s))%nat) as [Hlt|Hge].
    + rewrite !list_lookup_insert_eq; [done| |done]. by rewrite <-(me_length _ _ _ _ Hme).
    + rewrite !list_insert_ge; [done| |]; [|lia]. rewrite <-(me_length _ _ _ _ Hme). lia.
Qed.

Lemma related_locked hs s a abs t c x m' c' ev :
  related hs s a abs -> locals s !! t = Some (TsoThread c []) -> conc_kind x c = Locked ->
  conc_act t x (shared s) c = Some (m', c', ev) ->
  exists hs' a' abs', conc_step a (t, ev) a' /\
    related hs' (Sys m' (<[t := TsoThread c' []]> (locals s))) a' abs'.
Proof.
  intros Hre Hp Hk Hact. pose proof (re_memory _ _ _ _ Hre) as Hme. pose proof (sim_queues _ _ _ (re_sim _ _ _ _ Hre)) as Hqs.
  destruct c as [rf [|[code irq] fs]]; [by destruct x|].
  destruct x; try discriminate Hk.
  2: { destruct code; try discriminate Hact. simpl in Hact. simplify_eq. by eapply (related_quiet _ _ _ _ _ _ _ ActSpurious). }
  cbn [conc_kind running c_frames f_code] in Hk. rewrite run_code in Hact by (by intros ts ->).
  destruct code; try discriminate Hk; simpl in Hact.
  - destruct (shared s !! i) as [q|] eqn:Hq; [|discriminate Hact]. simpl in Hact. unfold sl_cas in Hact.
    destruct (locked (cq_lock q)) eqn:Hl; simplify_eq.
    { by eapply (related_quiet _ _ _ _ _ _ _ ActSpurious). }
    destruct (free_settled _ _ _ _ Hme i q Hq Hl) as [Hn Hqa].
    eapply (related_cell _ _ _ _ _ _ ActRun); [done|exact Hp|by intros u p _; apply Hn| |by rewrite Hq].
    rewrite run_code by done. simpl. rewrite Hqa. simpl. unfold sl_cas. by rewrite Hl.
  - destruct (shared s !! i) as [q|] eqn:Hq; [|discriminate Hact]. simpl in Hact. simplify_eq.
    assert (Hh : holds hs t i) by (by eapply (running_holds hs s a abs t _ _ i Hre Hp)).
    destruct (holder_view _ _ _ _ _ Hqs Hme t _ _ Hh Hp) as (Hview & _ & _ & Hoth).
    change (shared s !! i = shared a !! i) in Hview.
    eapply (related_cell _ _ _ _ _ _ ActRun); [done|exact Hp|exact Hoth| |exact Hview].
    rewrite run_code by done. simpl. by rewrite <-Hview, Hq.
Qed.

(** Every step with store buffers is the same step without, or the arrival of a
    store. *)
Lemma related_step hs s a abs t e s' :
  related hs s a abs -> tso_step tso_conc s (t, e) s' ->
  exists hs' a' abs', related hs' s' a' abs' /\ trace conc_step a (code_of [(t, e)]) a'.
Proof.
  intros Hre Hstep. apply step_inv in Hstep as ([c buf] & x & m' & p' & Hp & Hact & ->).
  destruct x as [x|w|]; unfold tso_act in Hact; cbn [b_kind b_act b_store b_write tso_conc] in Hact.
  - destruct (conc_kind x c) eqn:Hk; [| |destruct buf; [|discriminate Hact]]; [|discriminate Hact|].
    + destruct (conc_act t x _ c) as [[[v c'] ev]|] eqn:Hx; [|discriminate Hact]. injection Hact as <- <- <-.
      destruct (related_loads _ _ _ _ _ _ _ _ _ _ _ Hre Hp Hk Hx) as (hs' & a' & abs' & Hs & Hr).
      exists hs', a', abs'. split; [done|by apply trace_one].
    + destruct (conc_act t x _ c) as [[[v c'] ev]|] eqn:Hx; [|discriminate Hact]. injection Hact as <- <- <-.
      destruct (related_locked _ _ _ _ _ _ _ _ _ _ Hre Hp Hk Hx) as (hs' & a' & abs' & Hs & Hr).
      exists hs', a', abs'. split; [done|by apply trace_one].
  - destruct (conc_store t w _ c) as [x|] eqn:Hst; [|discriminate Hact]. cbn [mbind option_bind] in Hact.
    destruct (conc_act t x _ c) as [[[v c'] ev]|] eqn:Hx; [|discriminate Hact]. injection Hact as <- <- <-.
    destruct (related_store _ _ _ _ _ _ _ _ _ _ _ _ Hre Hp Hst Hx) as (hs' & a' & abs' & Hs & Hr).
    exists hs', a', abs'. split; [done|by apply trace_one].
  - destruct buf as [|w buf]; [done|]. injection Hact as <- <- <-. exists hs, a, abs. split; [|constructor].
    constructor; [apply Hre| |]; cbn [shared locals].
    + change (locals a = pc <$> <[t := TsoThread c buf]> (locals s)). rewrite list_fmap_insert.
      rewrite list_insert_id; [apply Hre|]. simpl. by rewrite list_lookup_fmap, Hp.
    + eapply memories_flush; [apply (re_sim _ _ _ _ Hre)|apply Hre|exact Hp].
Qed.

Lemma memories_start n (l : list cqueue) (cs : list core) :
  memories (replicate n None) l l (map (fun c => TsoThread c []) cs).
Proof.
  assert (Hnil : forall t p, map (fun c => TsoThread c ([] : list queue_write)) cs !! t = Some p -> buffer p = []).
  { intros t p Hp. change (((fun c => TsoThread c ([] : list queue_write)) <$> cs) !! t = Some p) in Hp.
    rewrite list_lookup_fmap in Hp. destruct (cs !! t); simpl in Hp; by simplify_eq. }
  constructor; [done| | |done].
  - intros t p Hp Hb. by destruct Hb, (Hnil t p Hp).
  - intros t1 t2 p1 p2 i H1 _ Hb1. by destruct Hb1, (Hnil t1 p1 H1).
Qed.

Lemma related_trace n rf tr s :
  trace (tso_step tso_conc) (tso_conc_init n rf) tr s ->
  exists hs a abs, related hs s a abs /\ trace conc_step (conc_init n rf) (code_of tr) a.
Proof.
  intros Htr. remember (tso_conc_init n rf) as s0 eqn:Hs0. induction Htr as [|s0 tr s [t e] s' Htr IH Hstep]; subst.
  - exists (replicate n None), (conc_init n rf), (atomic_init n). split; [|constructor].
    constructor; [apply sim_holding_init| |].
    + simpl. by rewrite (map_map _ pc), map_id.
    + apply memories_start.
  - destruct IH as (hs & a & abs & Hre & Ha); [done|].
    destruct (related_step _ _ _ _ _ _ _ Hre Hstep) as (hs' & a' & abs' & Hre' & Ha').
    exists hs', a', abs'. split; [done|]. rewrite code_events_app. by eapply trace_app.
Qed.

(** *** When the buffers are empty *)

(** The machine with store buffers is in a state of the one without. *)
Definition same (s : tso_conc_sys) (a : conc_sys) : Prop :=
  drained s /\ shared s = shared a /\ locals a = map pc (locals s).

Lemma related_drained hs s a abs : related hs s a abs -> drained s -> same s a.
Proof.
  intros Hre Hd. split; [done|]. split; [|apply Hre]. apply list_eq. intros i.
  apply (me_rest _ _ _ _ (re_memory _ _ _ _ Hre)). intros t p Hp Hb. destruct Hb. exact (Forall_lookup_1 _ _ _ _ Hd Hp).
Qed.

(** The stores of one core arrive; those of all. *)
Lemma drain_core buf : forall s t c,
  locals s !! t = Some (TsoThread c buf) ->
  exists tr m, trace (tso_step tso_conc) s tr (Sys m (<[t := TsoThread c []]> (locals s))) /\
    code_of tr = [].
Proof.
  induction buf as [|w buf IH]; intros [m ps] t c Ht; simpl in Ht.
  - exists [], m. simpl. rewrite list_insert_id by done. split; [constructor|done].
  - assert (Hstep : tso_step tso_conc (Sys m ps) (t, FlushEv) (Sys (write_queue w m) (<[t := TsoThread c buf]> ps))).
    { by apply (step_act _ m ps t (TsoThread c (w :: buf)) Flush). }
    destruct (IH (Sys (write_queue w m) (<[t := TsoThread c buf]> ps)) t c) as (tr & m' & Htr & Hev).
    { apply list_lookup_insert_eq. by eapply lookup_lt_Some. }
    simpl in Htr. rewrite list_insert_insert_eq in Htr. exists ((t, FlushEv) :: tr), m'.
    split; [by eapply trace_cons|done].
Qed.

Lemma drain_cores k : forall s, exists tr s',
  trace (tso_step tso_conc) s tr s' /\ code_of tr = [] /\ length (locals s') = length (locals s) /\
  forall t p, (t < k)%nat -> locals s' !! t = Some p -> buffer p = [].
Proof.
  induction k as [|k IH]; intros s.
  { exists [], s. split; [constructor|]. split_and!; [done|done|lia]. }
  destruct (IH s) as (tr1 & s1 & Htr1 & Hev1 & Hlen1 & Hb1).
  destruct (locals s1 !! k) as [[c buf]|] eqn:Hk.
  - destruct (drain_core buf s1 k c Hk) as (tr2 & m & Htr2 & Hev2). eexists (tr1 ++ tr2), _.
    split; [by eapply trace_app|]. split; [by rewrite code_events_app, Hev1, Hev2|]. cbn [locals]. split; [by rewrite length_insert|].
    intros t p Ht [(_ & <- & _)|[Hne Hp]]%list_lookup_insert_Some; [done|]. apply (Hb1 t); [lia|done].
  - exists tr1, s1. split_and!; [done..|]. intros t p Ht Hp. apply (Hb1 t); [|done].
    destruct (decide (t = k)) as [->|]; [congruence|lia].
Qed.

Lemma drains s : exists tr s', trace (tso_step tso_conc) s tr s' /\ code_of tr = [] /\ drained s'.
Proof.
  destruct (drain_cores (length (locals s)) s) as (tr & s' & Htr & Hev & Hlen & Hb).
  exists tr, s'. split_and!; [done..|]. apply Forall_lookup. intros t p Hp. apply (Hb t p); [|done].
  rewrite <-Hlen. by eapply lookup_lt_Some.
Qed.

Lemma same_core s a t c : same s a -> locals a !! t = Some c -> locals s !! t = Some (TsoThread c []).
Proof.
  intros (Hd & _ & Hl) Hc. rewrite Hl in Hc. change ((pc <$> locals s) !! t = Some c) in Hc. rewrite list_lookup_fmap in Hc.
  destruct (locals s !! t) as [[c' buf]|] eqn:Ht; simpl in Hc; [|done]. injection Hc as ->.
  pose proof (Forall_lookup_1 _ _ _ _ Hd Ht) as Hb. simpl in Hb. by subst.
Qed.

Lemma same_update s a t c m cs :
  same s a -> locals a = cs ->
  same (Sys m (<[t := TsoThread c []]> (locals s))) (Sys m (<[t := c]> cs)).
Proof.
  intros (Hd & _ & Hl) <-. split; [by apply Forall_insert|]. split; [done|]. cbn [locals]. rewrite Hl.
  symmetry. apply (list_fmap_insert pc).
Qed.

Lemma code_kind_stores {A} (c : code A) : code_kind c = Stores -> exists w, code_store c = Some w.
Proof. destruct c; intros Hk; try discriminate Hk; by eexists. Qed.

Lemma conc_loads t x qs c qs' c' e :
  conc_kind x c = Loads -> conc_act t x qs c = Some (qs', c', e) -> qs' = qs.
Proof.
  intros Hk Hact. assert (Hx : x <> ActRun \/ x = ActRun) by (destruct x; auto). destruct Hx as [Hx| ->].
  { by destruct (conc_act_apart _ _ _ _ _ _ _ Hx Hact). }
  destruct c as [rf [|[code irq] fs]]; [done|]. cbn [conc_kind running c_frames f_code] in Hk.
  assert (Hdone : (exists ts, code = Done ts) \/ forall ts, code <> Done ts) by (destruct code; eauto).
  destruct Hdone as [[ts ->]|Hd]; [simpl in Hact; by simplify_eq|].
  rewrite run_code in Hact by done. destruct (code_step code qs rf) as [[[[c1 qs1] rf1] spin]|] eqn:Hs; [|done].
  injection Hact as <- <- <-. by destruct (code_loads_step _ _ _ _ _ _ _ Hk Hs).
Qed.

(** With empty buffers an operation that is not a store is the same. *)
Lemma same_code m ps t c x m' c' e :
  ps !! t = Some (TsoThread c []) -> conc_kind x c <> Stores -> conc_act t x m c = Some (m', c', e) ->
  tso_step tso_conc (Sys m ps) (t, CodeEv e) (Sys m' (<[t := TsoThread c' []]> ps)).
Proof.
  intros Ht Hk Hact. apply (step_act _ m ps t (TsoThread c []) (Code x)); [exact Ht|].
  unfold tso_act; cbn [b_kind b_act tso_conc]. destruct (conc_kind x c) eqn:Hkc; [|done|by rewrite Hact].
  change (see tso_conc [] m) with m. rewrite Hact. simpl. by rewrite (conc_loads _ _ _ _ _ _ _ Hkc Hact).
Qed.

(** A store, and its arrival. *)
Lemma same_store m ps t c w m' c' e :
  ps !! t = Some (TsoThread c []) -> conc_store t w m c = Some ActRun -> conc_act t ActRun m c = Some (m', c', e) ->
  trace (tso_step tso_conc) (Sys m ps) [(t, StoreEv w e); (t, FlushEv)] (Sys m' (<[t := TsoThread c' []]> ps)).
Proof.
  intros Ht Hst Hact.
  assert (Hm' : m' = write_queue w m).
  { destruct c as [rf [|[code irq] fs]]; [done|]. unfold conc_store in Hst. cbn [running c_frames f_code mbind option_bind] in Hst.
    case_decide as Hw; [|done]. rewrite run_code in Hact by (by intros ts ->).
    destruct (code_step code m rf) as [[[[c1 qs1] rf1] spin]|] eqn:Hs; [|done]. injection Hact as <- <- <-.
    pose proof (code_store_step _ _ _ _ _ _ _ _ Hw Hs m eq_refl). congruence. }
  apply (trace_cons _ _ _ (Sys m (<[t := TsoThread c' [w]]> ps))).
  - apply (step_act _ m ps t (TsoThread c []) (Store w)); [exact Ht|]. unfold tso_act. cbn [b_store b_act tso_conc].
    change (see tso_conc [] m) with m. rewrite Hst. cbn [mbind option_bind]. by rewrite Hact.
  - assert (<[t := TsoThread c' []]> ps = <[t := TsoThread c' []]> (<[t := TsoThread c' [w]]> ps)) as ->
      by (by rewrite list_insert_insert_eq).
    apply trace_one, (step_act _ m _ t (TsoThread c' [w]) Flush); [apply list_lookup_insert_eq; by eapply lookup_lt_Some|].
    unfold tso_act. by rewrite Hm'.
Qed.

(** From there it can do every step of work. *)
Lemma same_follows s a t e a' :
  same s a -> conc_step a (t, e) a' -> work_event e ->
  exists tr s', trace (tso_step tso_conc) s tr s' /\ code_of tr = [(t, e)] /\ same s' a'.
Proof.
  intros Hsame Hstep He. apply step_inv in Hstep as (c & x & l' & c' & Hc & Hact & ->).
  pose proof (same_core _ _ _ _ Hsame Hc) as Ht.
  assert (x = ActRun) as ->.
  { destruct x, c as [rf [|[[] ?] ?]]; simpl in Hact; try done; try (destruct (interrupts_enabled rf)); simplify_eq;
      by destruct He as [?|[? ?]]. }
  pose proof (same_update s a t c' l' (locals a) Hsame eq_refl) as Hsame'.
  destruct Hsame as (_ & Hm & _). destruct s as [m ps]. simpl in Hm, Ht. subst m.
  assert (Hk : conc_kind ActRun c <> Stores \/ exists w, conc_store t w (shared a) c = Some ActRun).
  { unfold conc_kind, conc_store. destruct (running c) as [code|]; [|by left].
    destruct (code_kind code) eqn:Hk; [by left| |by left]. right. destruct (code_kind_stores _ Hk) as [w Hw].
    exists w. simpl. by rewrite decide_True. }
  destruct Hk as [Hk|[w Hw]].
  - eexists [(t, CodeEv e)], _. split; [apply trace_one; by eapply same_code|]. by split.
  - eexists _, _. split; [by eapply same_store|]. by split.
Qed.

Lemma same_trace s a tr a' :
  same s a -> trace conc_step a tr a' -> Forall (fun e => work_event (snd e)) tr ->
  exists tr' s', trace (tso_step tso_conc) s tr' s' /\ code_of tr' = tr /\ same s' a'.
Proof.
  intros Hsame Htr. induction Htr as [|a tr a1 [t e] a2 Htr IH Hstep]; intros Hw.
  { exists [], s. split; [constructor|done]. }
  apply Forall_app in Hw as [Hw1 Hw2%Forall_inv]. destruct (IH Hsame Hw1) as (tr1 & s1 & Ht1 & Hev1 & Hs1).
  destruct (same_follows _ _ _ _ _ Hs1 Hstep Hw2) as (tr2 & s2 & Ht2 & Hev2 & Hs2).
  exists (tr1 ++ tr2), s2. split; [by eapply trace_app|]. split; [by rewrite code_events_app, Hev1, Hev2|done].
Qed.

Lemma finished_same s a : same s a -> quiescent a -> finished s.
Proof.
  intros (Hd & _ & Hl) Hq. unfold quiescent in Hq. rewrite Hl in Hq. apply Forall_fmap in Hq.
  apply Forall_and. by split.
Qed.

Lemma finished_quiescent s a abs hs : related hs s a abs -> finished s -> same s a /\ quiescent a.
Proof.
  intros Hre [Hq Hd]%Forall_and. split; [by eapply related_drained|].
  unfold quiescent. rewrite (re_cores _ _ _ _ Hre). by apply Forall_fmap.
Qed.

(** ** Properties *)

(** C5: store buffers show the scheduler nothing new. Whatever the cores do on
    memory with store buffers, their operations are, one for one, those of an
    execution without them: it has the same calls going on, the same counters, the
    same queue wherever the lock is free in memory, and the same memory once the
    stores have arrived. *)
Theorem conc_tso_refines_sc n rf tr s :
  trace (tso_step tso_conc) (tso_conc_init n rf) tr s ->
  exists a, trace conc_step (conc_init n rf) (code_of tr) a /\
    locals a = map pc (locals s) /\
    map cq_len (shared s) = map cq_len (shared a) /\
    (forall i q, shared s !! i = Some q -> locked (cq_lock q) = false -> shared a !! i = Some q) /\
    (drained s -> shared s = shared a).
Proof.
  intros Htr. destruct (related_trace _ _ _ _ Htr) as (hs & a & abs & Hre & Ha). pose proof (re_memory _ _ _ _ Hre) as Hme.
  exists a. split; [done|]. split; [apply Hre|]. split_and!.
  - apply list_eq. intros i. change ((cq_len <$> shared s) !! i = (cq_len <$> shared a) !! i).
    rewrite !list_lookup_fmap. exact (counters_agree _ _ _ _ Hme [] i).
  - intros i q Hq Hl. by apply (free_settled _ _ _ _ Hme i q Hq Hl).
  - intros Hd. by apply (related_drained _ _ _ _ Hre Hd).
Qed.

(** C6: no task is lost, and no call panics or hangs, on memory with store buffers
    either: the calls have returned only tasks that were handed in; when all calls
    are finished and their stores have arrived the locks are free and memory holds
    exactly the tasks that are not returned; and from every state the calls can be
    finished and the buffers emptied, without a new call. *)
Theorem conc_tso_tasks n rf tr s :
  Z.of_nat n < 2 ^ 32 -> trace (tso_step tso_conc) (tso_conc_init n rf) tr s -> calls_valid n (code_of tr) ->
  Forall (fun p => Forall (fun f => f_code f <> Crash) (c_frames (pc p))) (locals s) /\
  returned (code_of tr) ⊆+ given (code_of tr) /\
  (finished s ->
   Forall (fun q => locked (cq_lock q) = false) (shared s) /\
   given (code_of tr) ≡ₚ returned (code_of tr) ++ concat (map (fun q => sl_data (cq_lock q)) (shared s))) /\
  exists tr' s', trace (tso_step tso_conc) s tr' s' /\ Forall (fun e => work_event (snd e)) (code_of tr') /\ finished s'.
Proof.
  intros Hn Htr Hvalid. destruct (related_trace _ _ _ _ Htr) as (hs & a & abs & Hre & Ha).
  destruct (tasks_accounted _ _ _ _ Hn Ha Hvalid) as [Hret Hquiet].
  pose proof (calls_never_panic _ _ _ _ Hn Ha Hvalid) as Hp. unfold no_panic in Hp.
  rewrite (re_cores _ _ _ _ Hre) in Hp. apply (Forall_fmap pc) in Hp.
  split; [exact Hp|]. split; [done|]. split.
  - intros Hf. destruct (finished_quiescent _ _ _ _ Hre Hf) as [(_ & -> & _) Hq]. by apply Hquiet.
  - destruct (drains s) as (tr1 & s1 & Htr1 & Hev1 & Hd).
    destruct (related_trace n rf (tr ++ tr1) s1) as (hs1 & a1 & abs1 & Hre1 & Ha1); [by eapply trace_app|].
    rewrite code_events_app, Hev1, app_nil_r in Ha1.
    destruct (conc_finishes _ _ _ _ Hn Ha1 Hvalid) as (tr2 & a2 & Htr2 & Hw & Hq).
    destruct (same_trace _ _ _ _ (related_drained _ _ _ _ Hre1 Hd) Htr2 Hw) as (tr3 & s3 & Htr3 & Hev3 & Hsame).
    exists (tr1 ++ tr3), s3. split; [by eapply trace_app|].
    rewrite code_events_app, Hev1, Hev3. split; [done|by eapply finished_same].
Qed.

(** ** Witnesses *)

(** Core 0 gives core 1 a task. Its push has reached memory, the store that
    releases the lock has not; core 1, which looks for a task, finds the lock taken. *)
Definition demo_sched_start : tso_conc_sys := tso_conc_init 2 (fun _ => 512).

Definition demo_sched_push : list (nat * tso_action conc_action queue_write) :=
  (0%nat, Code (ActCall (OpSpawnOn 1 (demo_queue_task 7)))) :: replicate 3 (0%nat, Code ActRun) ++
  [(0%nat, Store (On 1 (CPush (demo_queue_task 7)))); (0%nat, Flush); (0%nat, Code ActRun); (0%nat, Store (On 1 CUnlock))].

Definition demo_sched_waiting : list (nat * tso_action conc_action queue_write) :=
  demo_sched_push ++ (1%nat, Code (ActCall (OpSchedule 1))) :: replicate 3 (1%nat, Code ActRun).

Definition demo_sched_finished : list (nat * tso_action conc_action queue_write) :=
  demo_sched_push ++ [(0%nat, Flush); (0%nat, Code ActRun); (0%nat, Code ActRun)].

Definition demo_sched_run (sched : list (nat * tso_action conc_action queue_write))
    : tso_conc_sys * list (nat * tso_event conc_event queue_write) :=
  default (demo_sched_start, []) (run (tso_act tso_conc) demo_sched_start sched).

Lemma demo_sched_runs sched :
  (exists x, run (tso_act tso_conc) demo_sched_start sched = Some x) ->
  trace (tso_step tso_conc) demo_sched_start (snd (demo_sched_run sched)) (fst (demo_sched_run sched)).
Proof. intros [[s tr] Hrun]. unfold demo_sched_run. rewrite Hrun. by eapply run_trace. Qed.

Lemma demo_sched_waiting_runs : exists x, run (tso_act tso_conc) demo_sched_start demo_sched_waiting = Some x.
Proof. eexists. vm_compute. exact eq_refl. Qed.

Lemma demo_sched_finished_runs : exists x, run (tso_act tso_conc) demo_sched_start demo_sched_finished = Some x.
Proof. eexists. vm_compute. exact eq_refl. Qed.

Lemma conc_tso_refines_sc_witness :
  map buffer (locals (fst (demo_sched_run demo_sched_waiting))) = [[On 1 CUnlock]; []] /\
  exists a, trace conc_step (conc_init 2 (fun _ => 512)) (code_of (snd (demo_sched_run demo_sched_waiting))) a /\
    map cq_len (shared a) = [0; 1].
Proof.
  split; [vm_compute; exact eq_refl|].
  destruct (conc_tso_refines_sc 2 (fun _ => 512) _ _ (demo_sched_runs demo_sched_waiting demo_sched_waiting_runs))
    as (a & Ha & _ & Hlen & _).
  exists a. split; [exact Ha|]. rewrite <-Hlen. vm_compute. exact eq_refl.
Defined.

Lemma conc_tso_tasks_witness :
  finished (fst (demo_sched_run demo_sched_finished)) /\
  given (code_of (snd (demo_sched_run demo_sched_finished))) = [demo_queue_task 7] /\
  given (code_of (snd (demo_sched_run demo_sched_finished))) ≡ₚ
    returned (code_of (snd (demo_sched_run demo_sched_finished))) ++
    concat (map (fun q => sl_data (cq_lock q)) (shared (fst (demo_sched_run demo_sched_finished)))).
Proof.
  assert (Hf : finished (fst (demo_sched_run demo_sched_finished))) by (vm_compute; repeat constructor).
  split; [exact Hf|]. split; [vm_compute; exact eq_refl|].
  destruct (conc_tso_tasks 2 (fun _ => 512) _ _ ltac:(done) (demo_sched_runs demo_sched_finished demo_sched_finished_runs)
    ltac:(vm_compute; repeat constructor)) as (_ & _ & H & _).
  apply H. exact Hf.
Defined.
