(* ===== verification/Boot.v ===== *)
(** * Boot: processors that register at the same time
    (src/src/percpu.rs and [ap_entry] of src/src/driver.rs)

    [wait_ap_ready] gives up after a time, so application processors may be in
    [ap_entry] together, while others already look at the per-CPU data. This
    machine interleaves them at the accesses to the statics: the store to
    [PERCPU_ARRAY], the increments of [PERCPU_COUNT] and [APS_BOOTED], the write
    of the GS base, and in [all_cpus] the load of the counter and of each entry. *)

From Stdlib Require Import Sorted.
From S2P Require Import Prelude Threads PerCpu.

(** ** State *)

(** Where a processor is; the bootstrap processor registers in [init]. [Ready]:
    it runs other code; [Scan]: in the loop of [all_cpus], with the [count] it
    loaded, the next index and the processors found. *)
Inductive boot_pc :=
| New
| StorePtr
| AddCount
| SetGs
| AddBooted
| Ready
| LoadCount
| Scan (count : Z) (i : nat) (cpus : list per_cpu)
| Found (count : Z) (cpus : list per_cpu)
| Panicked.

(** A processor: what it registers, and where it is. *)
Record boot_proc := BootProc { bp_reg : registration; bp_pc : boot_pc }.

(** The statics and the heap, and [APS_BOOTED]. *)
Record boot_state := BootState { bs_percpu : percpu_state; bs_booted : Z }.

Inductive boot_action := Go | AllCpus.

(** ** The operations *)

(** One operation of the processor that registers [r]. *)
Definition boot_exec (st : percpu_state) (booted : Z) (r : registration) (pc : boot_pc)
    : option (percpu_state * Z * boot_pc) :=
  match pc with
  | New => Some (per_cpu_new st (reg_addr r) (reg_index r) (reg_apic_id r) (reg_is_bsp r), booted, StorePtr)
  | StorePtr =>
      percpu ← heap st !! reg_addr r;
      let index := Z.to_nat (cpu_index percpu) in
      Some (if (index <? MAX_CPUS)%nat
            then (PercpuState (heap st) (<[index := reg_addr r]> (percpu_array st)) (percpu_count st) (gs_base st),
                  booted, AddCount)
            else (st, booted, Panicked))
  | AddCount =>
      Some (PercpuState (heap st) (percpu_array st) (wrap 64 (percpu_count st + 1)) (gs_base st), booted, SetGs)
  | SetGs =>
      Some (PercpuState (heap st) (percpu_array st) (percpu_count st) (<[reg_me r := reg_addr r]> (gs_base st)),
            booted, if reg_is_bsp r then Ready else AddBooted)
  | AddBooted => Some (st, wrap 32 (booted + 1), Ready)
  | LoadCount => Some (st, booted, Scan (cpu_count st) 0 [])
  | Scan count i cpus =>
      if (MAX_CPUS <=? i)%nat then Some (st, booted, Found count cpus)
      else
        found ← get_cpu st i;
        Some (st, booted,
              match found with
              | Some cpu =>
                  let cpus := cpus ++ [cpu] in
                  if Z.of_nat (length cpus) =? count then Found count cpus else Scan count (S i) cpus
              | None => Scan count (S i) cpus
              end)
  | Found _ _ => Some (st, booted, Ready)
  | Ready | Panicked => None
  end.

Definition boot_act (_ : nat) (x : boot_action) (s : boot_state) (b : boot_proc)
    : option (boot_state * boot_proc * unit) :=
  match x, bp_pc b with
  | AllCpus, Ready => Some (s, BootProc (bp_reg b) LoadCount, tt)
  | AllCpus, _ => None
  | Go, pc =>
      '(st, booted, pc') ← boot_exec (bs_percpu s) (bs_booted s) (bp_reg b) pc;
      Some (BootState st booted, BootProc (bp_reg b) pc', tt)
  end.

Abbreviation boot_sys := (sys boot_state boot_proc).
Abbreviation boot_step := (step boot_act).

Definition boot_start (rs : list registration) : boot_sys :=
  Sys (BootState percpu_init 0) (map (fun r => BootProc r New) rs).

(** ** How far a processor is *)

Definition phase (pc : boot_pc) : nat :=
  match pc with
  | Panicked | New => 0 | StorePtr => 1 | AddCount => 2 | SetGs => 3 | AddBooted => 4
  | Ready | LoadCount | Scan _ _ _ | Found _ _ => 5
  end.

Definition reached (k : nat) (b : boot_proc) : bool := (k <=? phase (bp_pc b))%nat.

(** It has stored its pointer; at an index from [i] on. *)
Definition stored (b : boot_proc) : bool := reached 2 b.
Definition stored_from (i : nat) (b : boot_proc) : bool := stored b && (Z.of_nat i <=? reg_index (bp_reg b)).
Definition counted (b : boot_proc) : bool := reached 3 b.
Definition booted_ap (b : boot_proc) : bool := reached 5 b && negb (reg_is_bsp (bp_reg b)).

(** [cpus] are stored processors with indices below [i], in order. *)
Definition found_below (ps : list boot_proc) (i : nat) (cpus : list per_cpu) : Prop :=
  exists rs, cpus = map registered rs /\ StronglySorted Z.lt (map reg_index rs) /\
    Forall (fun r => 0 <= reg_index r < Z.of_nat i /\
      exists t b, ps !! t = Some b /\ stored b = true /\ bp_reg b = r) rs.

(** What a processor in [all_cpus] knows. *)
Definition reader_ok (ps : list boot_proc) (pc : boot_pc) : Prop :=
  match pc with
  | Scan count i cpus =>
      found_below ps i cpus /\ (i <= MAX_CPUS)%nat /\ Z.of_nat (length cpus) < count /\
      count <= Z.of_nat (length cpus + count_if (stored_from i) ps)
  | Found count cpus => found_below ps MAX_CPUS cpus /\ Z.of_nat (length cpus) = count
  | Panicked => False
  | _ => True
  end.

Record boot_inv (rs : list registration) (s : boot_sys) : Prop := {
  bi_regs : map bp_reg (locals s) = rs;
  bi_array_length : length (percpu_array (bs_percpu (shared s))) = MAX_CPUS;
  bi_count : percpu_count (bs_percpu (shared s)) = Z.of_nat (count_if counted (locals s));
  bi_booted : bs_booted (shared s) = Z.of_nat (count_if booted_ap (locals s));
  bi_heap t b : locals s !! t = Some b -> reached 1 b = true ->
    heap (bs_percpu (shared s)) !! reg_addr (bp_reg b) = Some (registered (bp_reg b));
  bi_gs t b : locals s !! t = Some b -> reached 4 b = true ->
    gs_base (bs_percpu (shared s)) !! reg_me (bp_reg b) = Some (reg_addr (bp_reg b));
  bi_stored t b : locals s !! t = Some b -> stored b = true ->
    percpu_array (bs_percpu (shared s)) !! Z.to_nat (reg_index (bp_reg b)) = Some (reg_addr (bp_reg b));
  bi_empty i : (i < MAX_CPUS)%nat ->
    (forall t b, locals s !! t = Some b -> stored b = true -> reg_index (bp_reg b) <> Z.of_nat i) ->
    percpu_array (bs_percpu (shared s)) !! i = Some 0;
  bi_readers t b : locals s !! t = Some b -> reader_ok (locals s) (bp_pc b);
  bi_ap t b : locals s !! t = Some b -> bp_pc b = AddBooted -> reg_is_bsp (bp_reg b) = false;
}.

(** ** Proofs *)

Lemma count_if_mono {A} (f g : A -> bool) (l : list A) :
  (forall j x, l !! j = Some x -> f x = true -> g x = true) -> (count_if f l <= count_if g l)%nat.
Proof.
  induction l as [|x l IH]; intros Hfg; simpl; [done|]. pose proof (Hfg 0%nat x eq_refl) as Hx.
  assert (count_if f l <= count_if g l)%nat by (apply IH; intros j y Hj; by apply (Hfg (S j))).
  destruct (f x); simpl; [rewrite Hx by done; simpl; lia|lia].
Qed.

(** ... but for one element. *)
Lemma count_if_but_one {A} (f g : A -> bool) (l : list A) t :
  (forall j x, l !! j = Some x -> j <> t -> f x = true -> g x = true) -> (count_if f l <= count_if g l + 1)%nat.
Proof.
  revert t. induction l as [|x l IH]; intros t Hfg; simpl; [lia|]. destruct t as [|t].
  - assert (count_if f l <= count_if g l)%nat by (apply count_if_mono; intros j y Hj; by apply (Hfg (S j))).
    destruct (f x); simpl; lia.
  - assert (count_if f l <= count_if g l + 1)%nat by (apply (IH t); intros j y Hj ?; apply (Hfg (S j)); [done|lia]).
    pose proof (Hfg 0%nat x eq_refl ltac:(done)) as Hx. destruct (f x); simpl; [rewrite Hx by done; simpl; lia|lia].
Qed.

Section invariant.
Context (rs : list registration) (Hrs : boot_ok rs).
Implicit Types (s : boot_sys) (ps : list boot_proc) (b : boot_proc).

(** Processors differ in everything. *)
Lemma procs_differ {A} (f : registration -> A) ps t1 t2 b1 b2 :
  NoDup (map f (map bp_reg ps)) -> ps !! t1 = Some b1 -> ps !! t2 = Some b2 -> t1 <> t2 ->
  f (bp_reg b1) <> f (bp_reg b2).
Proof.
  intros Hnd H1 H2 Hne Heq. apply Hne. eapply (NoDup_lookup _ _ _ (f (bp_reg b1)) Hnd).
  - by rewrite !list_lookup_fmap, H1.
  - by rewrite !list_lookup_fmap, H2, Heq.
Qed.

Lemma proc_range s t b :
  map bp_reg (locals s) = rs -> locals s !! t = Some b -> 0 <= reg_index (bp_reg b) < 256 /\ reg_addr (bp_reg b) <> 0.
Proof.
  intros Hmap Hb.
  refine (Forall_lookup_1 (fun r => 0 <= reg_index r < 256 /\ reg_addr r <> 0) rs t _ (boot_range _ Hrs) _).
  rewrite <-Hmap. change (map bp_reg (locals s)) with (bp_reg <$> locals s). by rewrite list_lookup_fmap, Hb.
Qed.

(** What was found stays found. *)
Lemma found_below_mono ps t b b' i cpus :
  ps !! t = Some b -> bp_reg b' = bp_reg b -> (phase (bp_pc b) <= phase (bp_pc b'))%nat ->
  found_below ps i cpus -> found_below (<[t := b']> ps) i cpus.
Proof.
  intros Hb Hreg Hph (regs & -> & Hs & Hall). exists regs. split; [done|]. split; [done|].
  eapply Forall_impl; [exact Hall|]. intros r (Hi & t1 & b1 & Hb1 & Hst & Hr). split; [done|].
  destruct (decide (t1 = t)) as [->|Hne].
  - simplify_eq. exists t, b'. split; [apply list_lookup_insert_eq; by eapply lookup_lt_Some|].
    split; [|done]. unfold stored, reached in *. apply Nat.leb_le in Hst. apply Nat.leb_le. lia.
  - exists t1, b1. by rewrite list_lookup_insert_ne.
Qed.

Lemma reader_mono ps t b b' pc :
  ps !! t = Some b -> bp_reg b' = bp_reg b -> (phase (bp_pc b) <= phase (bp_pc b'))%nat ->
  reader_ok ps pc -> reader_ok (<[t := b']> ps) pc.
Proof.
  intros Hb Hreg Hph Hr. destruct pc; try done; simpl in *.
  - destruct Hr as (Hf & Hi & Hlt & Hle). split; [by eapply found_below_mono|]. split; [done|]. split; [done|].
    pose proof (count_if_insert (stored_from i) ps t b b' Hb) as Hc.
    assert (stored_from i b = true -> stored_from i b' = true).
    { unfold stored_from, stored, reached. rewrite Hreg. intros [H1 H2]%andb_prop. rewrite H2, andb_true_r.
      apply Nat.leb_le in H1. apply Nat.leb_le. lia. }
    destruct (stored_from i b), (stored_from i b'); simpl in *; naive_solver lia.
  - destruct Hr as [Hf Hl]. split; [by eapply found_below_mono|done].
Qed.

(** One processor moves on. *)
Lemma boot_inv_update s t b b' st' booted' :
  boot_inv rs s -> locals s !! t = Some b -> bp_reg b' = bp_reg b -> (phase (bp_pc b) <= phase (bp_pc b'))%nat ->
  let st := bs_percpu (shared s) in let r := bp_reg b in
  length (percpu_array st') = MAX_CPUS ->
  percpu_count st' + Z.b2z (counted b) = percpu_count st + Z.b2z (counted b') ->
  booted' + Z.b2z (booted_ap b) = bs_booted (shared s) + Z.b2z (booted_ap b') ->
  (forall a, a <> reg_addr r -> heap st' !! a = heap st !! a) ->
  (reached 1 b' = true -> heap st' !! reg_addr r = Some (registered r)) ->
  (forall m, m <> reg_me r -> gs_base st' !! m = gs_base st !! m) ->
  (reached 4 b' = true -> gs_base st' !! reg_me r = Some (reg_addr r)) ->
  (forall i, i <> Z.to_nat (reg_index r) \/ stored b' = false -> percpu_array st' !! i = percpu_array st !! i) ->
  (stored b' = true -> percpu_array st' !! Z.to_nat (reg_index r) = Some (reg_addr r)) ->
  reader_ok (<[t := b']> (locals s)) (bp_pc b') -> (bp_pc b' = AddBooted -> reg_is_bsp r = false) ->
  boot_inv rs (Sys (BootState st' booted') (<[t := b']> (locals s))).
Proof.
  intros Hinv Hb Hreg Hph st r Hlen Hcnt Hbt Hheap Hheap' Hgs Hgs' Harr Harr' Hrd Hap.
  pose proof Hrs as [Hme Hidx Haddr Hrange]. rewrite <-(bi_regs _ _ Hinv) in Hme, Hidx, Haddr.
  pose proof (proc_range s t b (bi_regs _ _ Hinv) Hb) as Hi. subst st r.
  constructor; cbn [shared locals bs_percpu bs_booted].
  - rewrite <-(bi_regs _ _ Hinv). change (bp_reg <$> <[t := b']> (locals s) = bp_reg <$> locals s).
    rewrite list_fmap_insert, Hreg. apply list_insert_id. by rewrite list_lookup_fmap, Hb.
  - done.
  - pose proof (count_if_insert counted _ t b b' Hb). rewrite (bi_count _ _ Hinv) in Hcnt.
    destruct (counted b), (counted b'); simpl in *; lia.
  - pose proof (count_if_insert booted_ap _ t b b' Hb). rewrite (bi_booted _ _ Hinv) in Hbt.
    destruct (booted_ap b), (booted_ap b'); simpl in *; lia.
  - intros t1 b1 [(-> & <- & _)|[Hne H1]]%list_lookup_insert_Some Hr; [rewrite Hreg; auto|].
    rewrite Hheap; [by eapply bi_heap|]. by eapply (procs_differ reg_addr).
  - intros t1 b1 [(-> & <- & _)|[Hne H1]]%list_lookup_insert_Some Hr; [rewrite Hreg; auto|].
    rewrite Hgs; [by eapply bi_gs|]. by eapply (procs_differ reg_me).
  - intros t1 b1 [(-> & <- & _)|[Hne H1]]%list_lookup_insert_Some Hr; [rewrite Hreg; auto|].
    rewrite Harr; [by eapply bi_stored|]. left.
    pose proof (procs_differ reg_index _ _ _ _ _ Hidx H1 Hb ltac:(done)).
    pose proof (proc_range s t1 b1 (bi_regs _ _ Hinv) H1). lia.
  - intros i Hlt Hno. destruct (stored b') eqn:Hst'.
    + assert (Hne : i <> Z.to_nat (reg_index (bp_reg b))).
      { intros ->. apply (Hno t b'); [apply list_lookup_insert_eq; by eapply lookup_lt_Some|done|].
        rewrite Hreg. lia. }
      rewrite Harr by (by left). apply (bi_empty _ _ Hinv i Hlt). intros t1 b1 H1 Hst1.
      destruct (decide (t1 = t)) as [->|Hnt]; [simplify_eq; lia|]. apply (Hno t1 b1); [by rewrite list_lookup_insert_ne|done].
    + rewrite Harr by (by right). apply (bi_empty _ _ Hinv i Hlt). intros t1 b1 H1 Hst1.
      destruct (decide (t1 = t)) as [->|Hnt]; [|apply (Hno t1 b1); [by rewrite list_lookup_insert_ne|done]].
      simplify_eq. unfold stored, reached in *. apply Nat.leb_le in Hst1. apply Nat.leb_gt in Hst'. lia.
  - intros t1 b1 [(-> & <- & _)|[Hne H1]]%list_lookup_insert_Some; [exact Hrd|].
    eapply reader_mono; [exact Hb|done|done|]. by eapply bi_readers.
  - intros t1 b1 [(-> & <- & _)|[Hne H1]]%list_lookup_insert_Some; [rewrite Hreg; exact Hap|]. by eapply bi_ap.
Qed.

(** At most [MAX_CPUS] processors. *)
Lemma counted_bound s (f : boot_proc -> bool) : boot_inv rs s -> (count_if f (locals s) <= 256)%nat.
Proof.
  intros Hinv. etrans; [apply count_if_le|]. pose proof (registration_count _ (boot_index _ Hrs) (boot_range _ Hrs)) as Hc.
  rewrite <-(bi_regs _ _ Hinv), length_map in Hc. exact Hc.
Qed.

(** What [get_cpu] finds. *)
Lemma get_cpu_stored s t b :
  boot_inv rs s -> locals s !! t = Some b -> stored b = true ->
  get_cpu (bs_percpu (shared s)) (Z.to_nat (reg_index (bp_reg b))) = Some (Some (registered (bp_reg b))).
Proof.
  intros Hinv Hb Hst. pose proof (proc_range s t b (bi_regs _ _ Hinv) Hb) as [Hi Ha]. unfold get_cpu.
  destruct (Nat.leb_spec MAX_CPUS (Z.to_nat (reg_index (bp_reg b)))) as [Hge|_]; [unfold MAX_CPUS in Hge; lia|].
  rewrite (nth_lookup_Some _ _ _ _ (bi_stored _ _ Hinv t b Hb Hst)).
  destruct (Z.eqb_spec (reg_addr (bp_reg b)) 0) as [|_]; [done|].
  rewrite (bi_heap _ _ Hinv t b Hb); [done|]. unfold stored, reached in *. apply Nat.leb_le in Hst. apply Nat.leb_le. lia.
Qed.

Lemma get_cpu_empty s i :
  boot_inv rs s -> (i < MAX_CPUS)%nat ->
  (forall t b, locals s !! t = Some b -> stored b = true -> reg_index (bp_reg b) <> Z.of_nat i) ->
  get_cpu (bs_percpu (shared s)) i = Some None.
Proof.
  intros Hinv Hi Hno. unfold get_cpu. destruct (Nat.leb_spec MAX_CPUS i) as [|_]; [lia|].
  by rewrite (nth_lookup_Some _ _ _ _ (bi_empty _ _ Hinv i Hi Hno)).
Qed.

(** Whether a processor stored at an index. *)
Lemma stored_at ps i :
  (exists t b, ps !! t = Some b /\ stored b = true /\ reg_index (bp_reg b) = Z.of_nat i) \/
  (forall t b, ps !! t = Some b -> stored b = true -> reg_index (bp_reg b) <> Z.of_nat i).
Proof.
  destruct (existsb (fun b => stored b && (reg_index (bp_reg b) =? Z.of_nat i)) ps) eqn:He.
  - left. apply existsb_exists in He as (b & Hin & [Hst Hi]%andb_prop). apply list_elem_of_In in Hin.
    apply list_elem_of_lookup in Hin as [t Ht]. exists t, b. split_and!; [done|done|lia].
  - right. intros t b Hb Hst Hi.
    assert (Hex : existsb (fun b => stored b && (reg_index (bp_reg b) =? Z.of_nat i)) ps = true); [|congruence].
    apply existsb_exists. exists b. split; [by eapply list_elem_of_In, list_elem_of_lookup_2|]. rewrite Hst. lia.
Qed.

Lemma found_below_le ps i j cpus : (i <= j)%nat -> found_below ps i cpus -> found_below ps j cpus.
Proof.
  intros Hij (regs & -> & Hs & Hall). exists regs. split; [done|]. split; [done|].
  eapply Forall_impl; [exact Hall|]. intros r (Hi & Hex). split; [lia|done].
Qed.

Lemma sorted_snoc (l : list Z) x : StronglySorted Z.lt l -> Forall (fun y => y < x) l -> StronglySorted Z.lt (l ++ [x]).
Proof.
  induction 1 as [|y l Hs IH Hy]; intros Hall; simpl; [repeat constructor|].
  apply Forall_cons in Hall as [Hyx Hall]. constructor; [by apply IH|].
  rewrite List.Forall_app. split; [done|]. by constructor.
Qed.

Lemma found_below_snoc ps i cpus t b :
  found_below ps i cpus -> ps !! t = Some b -> stored b = true -> reg_index (bp_reg b) = Z.of_nat i ->
  found_below ps (S i) (cpus ++ [registered (bp_reg b)]).
Proof.
  intros (regs & -> & Hs & Hall) Hb Hst Hi. exists (regs ++ [bp_reg b]). split; [by rewrite map_app|]. split.
  - rewrite map_app. apply sorted_snoc; [done|]. apply Forall_fmap. eapply Forall_impl; [exact Hall|].
    intros r [Hr _]. simpl. lia.
  - apply Forall_app. split.
    + eapply Forall_impl; [exact Hall|]. intros r (Hr & Hex). split; [lia|done].
    + constructor; [|done]. split; [lia|]. by exists t, b.
Qed.

(** One iteration of [all_cpus]. *)
Lemma scan_step s count i cpus :
  boot_inv rs s -> reader_ok (locals s) (Scan count i cpus) ->
  exists pc', reader_ok (locals s) pc' /\ (phase pc' = 5)%nat /\ pc' <> AddBooted /\
    forall booted r, boot_exec (bs_percpu (shared s)) booted r (Scan count i cpus) = Some (bs_percpu (shared s), booted, pc').
Proof.
  intros Hinv (Hf & Hi & Hlt & Hle). cbn [boot_exec].
  pose proof Hrs as [_ Hidx _ _]. rewrite <-(bi_regs _ _ Hinv) in Hidx.
  destruct (Nat.leb_spec MAX_CPUS i) as [Hge|Hlt'].
  { assert (Hz : (count_if (stored_from i) (locals s) <= count_if (fun _ => false) (locals s))%nat).
    { apply count_if_mono. intros j b Hb [_ Hr]%andb_prop.
      pose proof (proc_range s j b (bi_regs _ _ Hinv) Hb). unfold MAX_CPUS in Hge. lia. }
    assert (Hz' : count_if (fun _ => false) (locals s) = 0%nat) by (clear; by induction (locals s)). lia. }
  destruct (stored_at (locals s) i) as [(t & b & Hb & Hst & Hbi)|Hno].
  - pose proof (get_cpu_stored s t b Hinv Hb Hst) as Hget. rewrite Hbi, Nat2Z.id in Hget. rewrite Hget. cbn [mbind option_bind].
    pose proof (found_below_snoc _ _ _ _ _ Hf Hb Hst Hbi) as Hf'.
    assert (Hc : (count_if (stored_from i) (locals s) <= count_if (stored_from (S i)) (locals s) + 1)%nat).
    { apply (count_if_but_one _ _ _ t). intros j x Hx Hne. unfold stored_from. intros [-> Hr]%andb_prop.
      pose proof (procs_differ reg_index _ _ _ _ _ Hidx Hx Hb Hne). rewrite andb_true_l.
      apply Z.leb_le in Hr. apply Z.leb_le. lia. }
    destruct (Z.eqb_spec (Z.of_nat (length (cpus ++ [registered (bp_reg b)]))) count) as [Heq|Hneq];
      [exists (Found count (cpus ++ [registered (bp_reg b)]))|exists (Scan count (S i) (cpus ++ [registered (bp_reg b)]))];
      (split; [|done]).
    + split; [|done]. eapply found_below_le; [|exact Hf']. done.
    + rewrite length_app in Hneq. simpl in Hneq. split; [done|]. split; [done|]. rewrite length_app. simpl. lia.
  - rewrite (get_cpu_empty s i Hinv Hlt' Hno). cbn [mbind option_bind]. exists (Scan count (S i) cpus). split; [|done].
    split; [by apply (found_below_le _ i); [lia|]|]. split; [done|]. split; [done|].
    assert (Hc : (count_if (stored_from i) (locals s) <= count_if (stored_from (S i)) (locals s))%nat).
    { apply count_if_mono. intros j x Hx. unfold stored_from. intros [Hst Hr]%andb_prop.
      pose proof (Hno j x Hx Hst). rewrite Hst, andb_true_l.
      apply Z.leb_le in Hr. apply Z.leb_le. lia. }
    lia.
Qed.

(** A processor that has registered goes on without changing the statics. *)
Lemma boot_inv_reader s t r pc pc' :
  boot_inv rs s -> locals s !! t = Some (BootProc r pc) -> phase pc = 5%nat -> phase pc' = 5%nat ->
  reader_ok (locals s) pc' ->
  boot_inv rs (Sys (BootState (bs_percpu (shared s)) (bs_booted (shared s))) (<[t := BootProc r pc']> (locals s))).
Proof.
  intros Hinv Hb Hph Hph' Hrd.
  eapply (boot_inv_update s t (BootProc r pc) (BootProc r pc')); unfold counted, booted_ap, stored, reached;
    cbn [bp_reg bp_pc]; rewrite ?Hph, ?Hph'; try done.
  - by apply (bi_array_length _ _ Hinv).
  - intros _. apply (bi_heap _ _ Hinv t _ Hb). unfold reached. simpl. by rewrite Hph.
  - intros _. apply (bi_gs _ _ Hinv t _ Hb). unfold reached. simpl. by rewrite Hph.
  - intros _. apply (bi_stored _ _ Hinv t _ Hb). unfold stored, reached. simpl. by rewrite Hph.
  - eapply reader_mono; [exact Hb|done|simpl; lia|done].
  - intros ->. done.
Qed.

(** The count that a registered processor loads. *)
Lemma load_count_ok s t r :
  boot_inv rs s -> locals s !! t = Some (BootProc r LoadCount) ->
  reader_ok (locals s) (Scan (cpu_count (bs_percpu (shared s))) 0 []).
Proof.
  intros Hinv Hb. unfold cpu_count. rewrite (bi_count _ _ Hinv). split; [by exists []; repeat constructor|].
  split; [lia|]. split.
  - pose proof (count_if_pos counted (locals s) t _ Hb eq_refl). simpl. lia.
  - assert (Hc : (count_if counted (locals s) <= count_if (stored_from 0) (locals s))%nat); [|simpl; lia].
    apply count_if_mono. intros j x Hx Hcnt. pose proof (proc_range s j x (bi_regs _ _ Hinv) Hx).
    unfold stored_from, stored, counted, reached in *. apply Nat.leb_le in Hcnt. apply andb_true_intro.
    split; [apply Nat.leb_le|apply Z.leb_le]; lia.
Qed.

(** Every operation of a processor keeps the invariant; none panics or dereferences
    a pointer to nothing. *)
Lemma boot_exec_inv s t r pc :
  boot_inv rs s -> locals s !! t = Some (BootProc r pc) -> pc <> Ready ->
  exists st' booted' pc', boot_exec (bs_percpu (shared s)) (bs_booted (shared s)) r pc = Some (st', booted', pc') /\
    boot_inv rs (Sys (BootState st' booted') (<[t := BootProc r pc']> (locals s))).
Proof.
  intros Hinv Hb Hpc. pose proof (proc_range s t _ (bi_regs _ _ Hinv) Hb) as [Hi Ha]. simpl in Hi, Ha.
  pose proof (bi_array_length _ _ Hinv) as Hlen. pose proof (bi_readers _ _ Hinv t _ Hb) as Hrd. simpl in Hrd.
  destruct pc; try done.
  - eexists _, _, _. split; [done|].
    eapply (boot_inv_update s t _ (BootProc r StorePtr) _ _ Hinv Hb); try done; simpl; try done; try lia.
    + intros a Hne. by rewrite lookup_insert_ne.
    + intros _. by rewrite lookup_insert_eq.
  - pose proof (bi_heap _ _ Hinv t _ Hb eq_refl) as Hheap. simpl in Hheap. cbn [boot_exec]. rewrite Hheap.
    cbn [mbind option_bind cpu_index registered].
    destruct (Nat.ltb_spec (Z.to_nat (reg_index r)) MAX_CPUS) as [Hlt|]; [|unfold MAX_CPUS in *; lia].
    eexists _, _, _. split; [done|].
    eapply (boot_inv_update s t _ (BootProc r AddCount) _ _ Hinv Hb); try done; simpl; try done; try lia.
    + by rewrite length_insert.
    + intros i [Hne|]; [|done]. by rewrite list_lookup_insert_ne.
    + intros _. apply list_lookup_insert_eq. by rewrite Hlen.
  - eexists _, _, _. split; [done|].
    eapply (boot_inv_update s t _ (BootProc r SetGs) _ _ Hinv Hb); try done; simpl; try done; try lia.
    + pose proof (count_if_insert counted _ t _ (BootProc r SetGs) Hb) as Hc. simpl in Hc.
      rewrite (bi_count _ _ Hinv). pose proof (counted_bound s counted Hinv).
      rewrite wrap_small by (unfold in_range; lia). unfold counted, reached. simpl. lia.
    + intros _. by apply (bi_heap _ _ Hinv t _ Hb).
    + intros _. by apply (bi_stored _ _ Hinv t _ Hb).
  - eexists _, _, _. split; [done|].
    eapply (boot_inv_update s t _ (BootProc r (if reg_is_bsp r then Ready else AddBooted)) _ _ Hinv Hb); try done; simpl; try done; try lia.
    + destruct (reg_is_bsp r); simpl; lia.
    + unfold counted, reached. simpl. destruct (reg_is_bsp r); simpl; lia.
    + unfold booted_ap, reached. simpl. destruct (reg_is_bsp r) eqn:Hbsp; simpl; rewrite ?Hbsp; simpl; lia.
    + intros _. by apply (bi_heap _ _ Hinv t _ Hb).
    + intros m Hne. by rewrite lookup_insert_ne.
    + intros _. by rewrite lookup_insert_eq.
    + intros _. by apply (bi_stored _ _ Hinv t _ Hb).
    + by destruct (reg_is_bsp r).
    + by destruct (reg_is_bsp r).
  - pose proof (bi_ap _ _ Hinv t _ Hb eq_refl) as Hbsp. simpl in Hbsp.
    eexists _, _, _. split; [done|].
    eapply (boot_inv_update s t _ (BootProc r Ready) _ _ Hinv Hb); try done; simpl; try done; try lia.
    + pose proof (counted_bound s booted_ap Hinv). rewrite (bi_booted _ _ Hinv).
      rewrite wrap_small by (unfold in_range; lia). unfold booted_ap, reached. simpl. rewrite Hbsp. simpl. lia.
    + intros _. by apply (bi_heap _ _ Hinv t _ Hb).
    + intros _. by apply (bi_gs _ _ Hinv t _ Hb).
    + intros _. by apply (bi_stored _ _ Hinv t _ Hb).
  - eexists _, _, _. split; [done|]. eapply boot_inv_reader; try done. by eapply load_count_ok.
  - destruct (scan_step s count i cpus Hinv Hrd) as (pc' & Hrd' & Hph & _ & Hex).
    eexists _, _, _. split; [apply Hex|]. by eapply boot_inv_reader.
  - eexists _, _, _. split; [done|]. by eapply boot_inv_reader.
Qed.

Lemma boot_inv_step s e s' : boot_inv rs s -> boot_step s e s' -> boot_inv rs s'.
Proof.
  intros Hinv Hstep. destruct e as [t e]. apply step_inv in Hstep as ([r pc] & x & st & b' & Hb & Hact & ->).
  destruct x.
  - assert (Hpc : pc <> Ready) by (intros ->; done).
    destruct (boot_exec_inv s t r pc Hinv Hb Hpc) as (st' & booted' & pc' & Hex & Hinv').
    unfold boot_act in Hact. cbn [bp_pc bp_reg] in Hact. rewrite Hex in Hact.
    cbn [mbind option_bind] in Hact. by injection Hact as <- <- _.
  - destruct pc; try done. simpl in Hact. injection Hact as <- <- _.
    destruct s as [[st booted] ps]. by apply (boot_inv_reader (Sys (BootState st booted) ps) t r Ready LoadCount).
Qed.

Lemma boot_inv_start : boot_inv rs (boot_start rs).
Proof.
  assert (Hpc : forall t b, locals (boot_start rs) !! t = Some b -> bp_pc b = New).
  { intros t b Hb. simpl in Hb. change (((fun r => BootProc r New) <$> rs) !! t = Some b) in Hb.
    rewrite list_lookup_fmap in Hb. destruct (rs !! t); simpl in Hb; by simplify_eq. }
  assert (Hz : forall f : boot_proc -> bool, (forall r, f (BootProc r New) = false) -> count_if f (locals (boot_start rs)) = 0%nat).
  { intros f Hf. simpl. clear -Hf. induction rs as [|r rs' IH]; simpl; [done|]. by rewrite Hf. }
  constructor.
  - simpl. rewrite map_map. apply map_id.
  - done.
  - by rewrite Hz.
  - by rewrite Hz.
  - intros t b Hb Hr. unfold reached in Hr. by rewrite (Hpc t b Hb) in Hr.
  - intros t b Hb Hr. unfold reached in Hr. by rewrite (Hpc t b Hb) in Hr.
  - intros t b Hb Hr. unfold stored, reached in Hr. by rewrite (Hpc t b Hb) in Hr.
  - intros i Hi _. by apply lookup_replicate_2.
  - intros t b Hb. by rewrite (Hpc t b Hb).
  - intros t b Hb Hap. by rewrite (Hpc t b Hb) in Hap.
Qed.

Lemma boot_inv_trace tr s : trace boot_step (boot_start rs) tr s -> boot_inv rs s.
Proof. intros Htr. exact (trace_invariant_plain _ _ _ _ _ boot_inv_step Htr boot_inv_start). Qed.
End invariant.

(** The structure of a processor whose GS base is set. *)
Lemma get_current_registered p rs s t b :
  boot_inv rs s -> locals s !! t = Some b -> (4 <= phase (bp_pc b))%nat ->
  get_current_cpu p (bs_percpu (shared s)) (reg_me (bp_reg b)) = Some (Ok (registered (bp_reg b))).
Proof.
  intros Hinv Hb Hph. unfold get_current_cpu.
  rewrite (bi_gs _ _ Hinv t b Hb) by (by apply Nat.leb_le). cbn [mbind option_bind].
  rewrite (bi_heap _ _ Hinv t b Hb) by (apply Nat.leb_le; lia). cbn [mbind option_bind registered self_ptr].
  rewrite Z.eqb_refl. by destruct p.
Qed.

(** All are done: the statics are as after registrations one by one. *)
Lemma all_registered rs s :
  boot_ok rs -> boot_inv rs s -> (forall t b, locals s !! t = Some b -> phase (bp_pc b) = 5%nat) ->
  percpu_inv (bs_percpu (shared s)) rs /\
  bs_booted (shared s) = Z.of_nat (count_if (fun r => negb (reg_is_bsp r)) rs).
Proof.
  intros Hok Hinv Hall.
  assert (Hreach : forall k t b, (k <= 5)%nat -> locals s !! t = Some b -> reached k b = true).
  { intros k t b Hk Hb. unfold reached. rewrite (Hall t b Hb). by apply Nat.leb_le. }
  assert (Hproc : forall r, r ∈ rs -> exists t b, locals s !! t = Some b /\ bp_reg b = r).
  { intros r Hr. rewrite <-(bi_regs _ _ Hinv) in Hr. apply list_elem_of_fmap in Hr as (b & -> & Hb).
    apply list_elem_of_lookup in Hb as [t Hb]. by exists t, b. }
  assert (Hcount : forall (f : boot_proc -> bool) (g : registration -> bool),
    (forall t b, locals s !! t = Some b -> f b = g (bp_reg b)) -> count_if f (locals s) = count_if g rs).
  { intros f g Hfg. rewrite <-(bi_regs _ _ Hinv). clear -Hfg. induction (locals s) as [|b ps IH]; simpl; [done|].
    rewrite (Hfg 0%nat b eq_refl), IH; [done|]. intros t b' Hb. by apply (Hfg (S t)). }
  split.
  - constructor.
    + apply (bi_array_length _ _ Hinv).
    + rewrite (bi_count _ _ Hinv), (Hcount counted (fun _ => true)).
      * f_equal. clear. induction rs; simpl; congruence.
      * intros t b Hb. by apply (Hreach 3%nat t b ltac:(lia)).
    + intros r Hr. destruct (Hproc r Hr) as (t & b & Hb & <-).
      exact (bi_heap _ _ Hinv t b Hb (Hreach 1%nat t b ltac:(lia) Hb)).
    + intros r Hr. destruct (Hproc r Hr) as (t & b & Hb & <-).
      exact (bi_gs _ _ Hinv t b Hb (Hreach 4%nat t b ltac:(lia) Hb)).
    + intros i Hi. destruct (stored_at (locals s) i) as [(t & b & Hb & Hst & Hbi)|Hno].
      * left. exists (bp_reg b). split.
        { rewrite <-(bi_regs _ _ Hinv). apply list_elem_of_fmap. exists b. split; [done|]. by eapply list_elem_of_lookup_2. }
        split; [done|]. pose proof (bi_stored _ _ Hinv t b Hb Hst) as Hl. by rewrite Hbi, Nat2Z.id in Hl.
      * right. split; [by apply (bi_empty _ _ Hinv)|]. intros r Hr. destruct (Hproc r Hr) as (t & b & Hb & <-).
        apply (Hno t b Hb). exact (Hreach 2%nat t b ltac:(lia) Hb).
    + split; [apply (boot_index _ Hok)|apply (boot_range _ Hok)].
  - rewrite (bi_booted _ _ Hinv). f_equal. apply Hcount. intros t b Hb. unfold booted_ap.
    by rewrite (Hreach 5%nat t b ltac:(lia) Hb).
Qed.

(** The operations of one processor, one after the other, are [register_percpu]. *)
Lemma register_in_steps st r st' booted :
  register st r = Some (Ok st') ->
  exists st1 st2 st3 pc, boot_exec st booted r New = Some (st1, booted, StorePtr) /\
    boot_exec st1 booted r StorePtr = Some (st2, booted, AddCount) /\
    boot_exec st2 booted r AddCount = Some (st3, booted, SetGs) /\
    boot_exec st3 booted r SetGs = Some (st', booted, pc).
Proof.
  unfold register, register_percpu. cbn [boot_exec].
  destruct (heap (per_cpu_new st _ _ _ _) !! reg_addr r) as [c|] eqn:Hc; [|done]. cbn [mbind option_bind].
  destruct (Z.to_nat (cpu_index c) <? MAX_CPUS)%nat eqn:Hi; [|done]. intros [= <-].
  eexists _, _, _, _. split; [done|]. cbn [boot_exec]. rewrite Hc. cbn [mbind option_bind]. by rewrite Hi.
Qed.

(** ** Properties *)

(** processors may register at the same time, and look at the per-CPU data while
    others register. Whatever the interleaving: no processor panics or follows a
    pointer to nothing; once its GS base is set [get_current_cpu] gives a processor
    its own structure; [all_cpus] returns as many processors as it read from the
    counter, all of them registered, each once and by increasing index; and when
    all are done the array, the counter and the GS bases are as after registrations
    one after the other, and [APS_BOOTED] is the number of application processors. *)
Theorem boot_concurrent p rs tr s :
  boot_ok rs -> trace boot_step (boot_start rs) tr s ->
  let st := bs_percpu (shared s) in
  (forall t b, locals s !! t = Some b -> bp_pc b <> Ready -> is_Some (boot_act t Go (shared s) b)) /\
  (forall t b, locals s !! t = Some b -> (4 <= phase (bp_pc b))%nat ->
     get_current_cpu p st (reg_me (bp_reg b)) = Some (Ok (registered (bp_reg b)))) /\
  (forall t b count cpus, locals s !! t = Some b -> bp_pc b = Found count cpus ->
     Z.of_nat (length cpus) = count /\ found_below (locals s) MAX_CPUS cpus) /\
  ((forall t b, locals s !! t = Some b -> phase (bp_pc b) = 5%nat) ->
     percpu_inv st rs /\ bs_booted (shared s) = Z.of_nat (count_if (fun r => negb (reg_is_bsp r)) rs)).
Proof.
  intros Hok Htr st. pose proof (boot_inv_trace rs Hok tr s Htr) as Hinv. split; [|split; [|split]].
  - intros t [r pc] Hb Hpc. destruct (boot_exec_inv rs Hok s t r pc Hinv Hb Hpc) as (st' & booted' & pc' & Hex & _).
    unfold boot_act. cbn [bp_pc bp_reg]. rewrite Hex. by eexists.
  - intros t b Hb Hph. by eapply get_current_registered.
  - intros t b count cpus Hb Hpc. pose proof (bi_readers _ _ Hinv t b Hb) as Hrd. rewrite Hpc in Hrd.
    destruct Hrd. done.
  - by apply all_registered.
Qed.

(** ** Witness: CPU 1 registers while the bootstrap processor is in [all_cpus] *)

Definition demo_boot_sched : list (nat * boot_action) :=
  replicate 4 (0%nat, Go) ++ replicate 2 (2%nat, Go) ++ (0%nat, AllCpus) :: (0%nat, Go) :: (2%nat, Go) ::
  replicate 1 (0%nat, Go) ++ replicate 3 (1%nat, Go).

Definition demo_boot_run : boot_sys * list (nat * unit) :=
  default (boot_start demo_boot, []) (run boot_act (boot_start demo_boot) demo_boot_sched).

Lemma demo_boot_runs : trace boot_step (boot_start demo_boot) (snd demo_boot_run) (fst demo_boot_run).
Proof. apply (run_trace _ _ demo_boot_sched). vm_compute. exact eq_refl. Qed.

Lemma boot_concurrent_witness :
  exists b cpus, locals (fst demo_boot_run) !! 0%nat = Some b /\ bp_pc b = Found 1 cpus /\
    Z.of_nat (length cpus) = 1 /\ found_below (locals (fst demo_boot_run)) MAX_CPUS cpus.
Proof.
  destruct (boot_concurrent Debug demo_boot _ _ demo_boot_ok demo_boot_runs) as (_ & _ & Hfound & _).
  eexists _, _. split; [vm_compute; exact eq_refl|]. split; [exact eq_refl|].
  eapply (Hfound 0%nat); [vm_compute; exact eq_refl|exact eq_refl].
Defined.
