(* ===== verification/BootTso.v ===== *)
(** * BootTso: processors that register at the same time, on memory with store
    buffers (src/src/percpu.rs and [ap_entry] of src/src/driver.rs)

    [Boot.v] interleaves the accesses to the statics on one memory. On x86 the
    structure that [PerCpu::new] fills and the pointer that [register_percpu] puts
    into [PERCPU_ARRAY] wait in the store buffer of the processor; the increments
    of the counters are locked instructions. The GS base is a register; [wrmsr]
    writes it right after a locked instruction, when the buffer is empty. Here the
    machine of [Boot.v] runs on the memory of [Tso.v]. *)

From S2P Require Import Prelude Threads PerCpu Boot Tso.

#[global] Instance per_cpu_eq_dec : EqDecision per_cpu.
Proof. solve_decision. Defined.

(** ** The machine *)

(** The structure on the heap, as [PerCpu::new] leaves it; an entry of
    [PERCPU_ARRAY]. *)
Inductive boot_write := WBox (addr : Z) (percpu : per_cpu) | WPtr (index : nat) (ptr : Z).

Definition boot_do_write (w : boot_write) (s : boot_state) : boot_state :=
  let st := bs_percpu s in
  BootState
    match w with
    | WBox addr percpu => PercpuState (<[addr := percpu]> (heap st)) (percpu_array st) (percpu_count st) (gs_base st)
    | WPtr index ptr => PercpuState (heap st) (<[index := ptr]> (percpu_array st)) (percpu_count st) (gs_base st)
    end (bs_booted s).

(** The store to the array comes after the assertion on the index. *)
Definition boot_kind (x : boot_action) (b : boot_proc) : access_kind :=
  match x, bp_pc b with
  | Go, New => Stores
  | Go, StorePtr => if (Z.to_nat (reg_index (bp_reg b)) <? MAX_CPUS)%nat then Stores else Loads
  | Go, AddCount | Go, SetGs | Go, AddBooted => Locked
  | _, _ => Loads
  end.

Definition boot_store (_ : nat) (w : boot_write) (s : boot_state) (b : boot_proc) : option boot_action :=
  let r := bp_reg b in
  match bp_pc b, w with
  | New, WBox addr percpu => if decide (addr = reg_addr r /\ percpu = registered r) then Some Go else None
  | StorePtr, WPtr index ptr =>
      percpu ← heap (bs_percpu s) !! reg_addr r;
      if decide (ptr = reg_addr r /\ index = Z.to_nat (cpu_index percpu) /\ (index < MAX_CPUS)%nat)
      then Some Go else None
  | _, _ => None
  end.

Definition tso_boot : buffered boot_action boot_state boot_proc unit boot_write :=
  Buffered boot_act boot_kind boot_do_write boot_store.

Definition tso_boot_start (rs : list registration) : sys boot_state (tso_thread boot_proc boot_write) :=
  tso_start (boot_start rs).

Abbreviation tso_boot_sys := (sys boot_state (tso_thread boot_proc boot_write)).

(** What processor [p] sees of the statics and the heap. *)
Definition boot_view (s : tso_boot_sys) (p : tso_thread boot_proc boot_write) : percpu_state :=
  bs_percpu (see tso_boot (buffer p) (shared s)).

(** ** Proofs *)

Definition box (r : registration) : boot_write := WBox (reg_addr r) (registered r).
Definition ptr (r : registration) : boot_write := WPtr (Z.to_nat (reg_index r)) (reg_addr r).

(** A processor with stores on their way does what one does that has not made them
    yet: where it is, the stores, and where the other is. *)
Inductive delayed (r : registration) : boot_pc -> list boot_write -> boot_pc -> Prop :=
| delayed_none pc : delayed r pc [] pc
| delayed_box : delayed r StorePtr [box r] New
| delayed_both : delayed r AddCount [box r; ptr r] New
| delayed_ptr : delayed r AddCount [ptr r] StorePtr.

Definition delays (p : tso_thread boot_proc boot_write) (b : boot_proc) : Prop :=
  bp_reg (pc p) = bp_reg b /\ delayed (bp_reg b) (bp_pc (pc p)) (buffer p) (bp_pc b).

(** Memory is that of the machine without store buffers. *)
Definition boot_related (s : tso_boot_sys) (a : boot_sys) : Prop :=
  shared a = shared s /\ Forall2 delays (locals s) (locals a).

Section proofs.
Context (rs : list registration) (Hrs : boot_ok rs).
Implicit Types (s : tso_boot_sys) (a : boot_sys) (r : registration).

Lemma box_step a t r :
  locals a !! t = Some (BootProc r New) ->
  boot_step a (t, tt) (Sys (boot_do_write (box r) (shared a)) (<[t := BootProc r StorePtr]> (locals a))).
Proof. destruct a as [m ps]. intros Ht. by apply (step_act _ m ps t (BootProc r New) Go). Qed.

Lemma ptr_step a t r :
  boot_inv rs a -> locals a !! t = Some (BootProc r StorePtr) ->
  boot_step a (t, tt) (Sys (boot_do_write (ptr r) (shared a)) (<[t := BootProc r AddCount]> (locals a))).
Proof.
  intros Hinv Ht. pose proof (bi_heap _ _ Hinv t _ Ht eq_refl) as Hheap.
  pose proof (proc_range rs Hrs a t _ (bi_regs _ _ Hinv) Ht) as [Hr _]. destruct a as [m ps].
  apply (step_act _ m ps t (BootProc r StorePtr) Go); [exact Ht|]. simpl in Hheap, Hr. simpl. rewrite Hheap. simpl.
  destruct (Nat.ltb_spec (Z.to_nat (reg_index r)) MAX_CPUS); [done|unfold MAX_CPUS in *; lia].
Qed.

(** The stores of a processor arrive. *)
Lemma delayed_arrive a t r pc buf pc0 :
  boot_inv rs a -> locals a !! t = Some (BootProc r pc0) -> delayed r pc buf pc0 ->
  exists tr, trace boot_step a tr (Sys (see tso_boot buf (shared a)) (<[t := BootProc r pc]> (locals a))).
Proof.
  intros Hinv Ht Hd. pose proof (lookup_lt_Some _ _ _ Ht) as Hlt. destruct Hd.
  - exists []. rewrite list_insert_id by done. destruct a. constructor.
  - eexists. by apply trace_one, box_step.
  - pose proof (box_step a t r Ht) as H1. eexists. eapply trace_cons; [exact H1|]. apply trace_one.
    pose proof (boot_inv_step rs Hrs _ _ _ Hinv H1) as Hinv1.
    pose proof (ptr_step _ t r Hinv1 (list_lookup_insert_eq _ _ _ Hlt)) as H2. simpl in H2.
    by rewrite list_insert_insert_eq in H2.
  - eexists. by apply trace_one, ptr_step.
Qed.

Lemma related_proc s a t p :
  boot_related s a -> locals s !! t = Some p -> exists b, locals a !! t = Some b /\ delays p b.
Proof. intros [_ Hall] Hp. destruct (Forall2_lookup_l _ _ _ _ _ Hall Hp) as (b & Hb & Hd). by exists b. Qed.

(** What a processor sees is what the other machine reaches by making its stores. *)
Lemma view_reached s a t p :
  boot_inv rs a -> boot_related s a -> locals s !! t = Some p ->
  exists tr, trace boot_step a tr (Sys (see tso_boot (buffer p) (shared s)) (<[t := pc p]> (locals a))).
Proof.
  intros Hinv Hre Hp. destruct (related_proc _ _ _ _ Hre Hp) as ([r pc0] & Hb & Hreg & Hd). rewrite <-(proj1 Hre).
  destruct p as [[r' pc'] buf]. simpl in *. subst r'. by eapply delayed_arrive.
Qed.

Lemma view_inv s a t p :
  boot_inv rs a -> boot_related s a -> locals s !! t = Some p ->
  boot_inv rs (Sys (see tso_boot (buffer p) (shared s)) (<[t := pc p]> (locals a))).
Proof.
  intros Hinv Hre Hp. destruct (view_reached _ _ _ _ Hinv Hre Hp) as [tr Htr].
  exact (trace_invariant_plain _ _ _ _ _ (boot_inv_step rs Hrs) Htr Hinv).
Qed.

(** Loads change nothing, and a processor that makes one, or a locked instruction,
    has no stores on their way. *)
Lemma boot_loads t x m b m' b' e :
  boot_kind x b = Loads -> bp_pc b <> StorePtr -> boot_act t x m b = Some (m', b', e) -> m' = m.
Proof.
  intros Hk Hpc Hact. destruct m as [st booted], b as [r pc]. unfold boot_act in Hact. cbn [bp_pc bp_reg bs_percpu bs_booted] in *.
  destruct x, pc; try done; cbn [boot_exec] in Hact; try by injection Hact as <- _ _.
  destruct (MAX_CPUS <=? i)%nat; [by injection Hact as <- _ _|].
  destruct (get_cpu st i); [by injection Hact as <- _ _|done].
Qed.

Lemma delayed_code t x m r pc buf pc0 y :
  0 <= reg_index r < 256 -> delayed r pc buf pc0 -> boot_kind x (BootProc r pc) <> Stores ->
  (boot_kind x (BootProc r pc) = Locked -> buf = []) -> boot_act t x m (BootProc r pc) = Some y ->
  buf = [] /\ pc0 = pc /\ pc <> StorePtr.
Proof.
  intros Hr Hd Hk Hl Hact.
  assert (Hin : (Z.to_nat (reg_index r) <? MAX_CPUS)%nat = true) by (apply Nat.ltb_lt; unfold MAX_CPUS; lia).
  assert (Hpc : pc <> StorePtr).
  { intros ->. destruct x; [|done]. cbn [boot_kind bp_pc bp_reg] in Hk. by rewrite Hin in Hk. }
  destruct Hd; [by split_and!|done|..]; (destruct x; [|done]); discriminate (Hl eq_refl).
Qed.

Lemma related_update s a t p' b' m :
  Forall2 delays (locals s) (locals a) -> delays p' b' ->
  boot_related (Sys m (<[t := p']> (locals s))) (Sys m (<[t := b']> (locals a))).
Proof. intros Hall Hd. split; [done|]. by apply Forall2_insert. Qed.

(** A store makes the delay longer. *)
Lemma delayed_store s a t r pc buf pc0 w x m1 b1 ev :
  boot_inv rs a -> boot_related s a -> locals s !! t = Some (TsoThread (BootProc r pc) buf) -> delayed r pc buf pc0 ->
  boot_store t w (see tso_boot buf (shared s)) (BootProc r pc) = Some x ->
  boot_act t x (see tso_boot buf (shared s)) (BootProc r pc) = Some (m1, b1, ev) ->
  bp_reg b1 = r /\ delayed r (bp_pc b1) (buf ++ [w]) pc0.
Proof.
  intros Hinv Hre Hp Hd Hst Hy. pose proof (view_inv s a t _ Hinv Hre Hp) as Hinv'. simpl in Hinv'.
  unfold boot_store in Hst. cbn [bp_pc bp_reg] in Hst. destruct pc; try done; destruct w; try done.
  - case_decide as Hw; [|done]. destruct Hw as [-> ->]. simplify_eq. simpl in Hy. simplify_eq.
    inversion Hd; subst. split; [done|constructor].
  - assert (Hheap : heap (bs_percpu (see tso_boot buf (shared s))) !! reg_addr r = Some (registered r)).
    { apply (bi_heap _ _ Hinv' t (BootProc r StorePtr)); [|done]. apply list_lookup_insert_eq.
      destruct (related_proc _ _ _ _ Hre Hp) as (b & Hb & _). by eapply lookup_lt_Some. }
    rewrite Hheap in Hst. cbn [mbind option_bind] in Hst. case_decide as Hw; [|done]. destruct Hw as (-> & -> & Hi).
    simplify_eq. unfold boot_act in Hy. cbn [bp_pc bp_reg boot_exec] in Hy. rewrite Hheap in Hy. cbn [mbind option_bind] in Hy.
    apply Nat.ltb_lt in Hi. rewrite Hi in Hy. injection Hy as _ <- _. split; [done|]. inversion Hd; subst; constructor.
Qed.

(** Every step is at most one of the machine without store buffers. *)
Lemma boot_related_step s a t e s' :
  boot_inv rs a -> boot_related s a -> tso_step tso_boot s (t, e) s' ->
  exists tr a', trace boot_step a tr a' /\ boot_related s' a'.
Proof.
  intros Hinv Hre Hstep. apply step_inv in Hstep as (p & x & m' & p' & Hp & Hact & ->).
  destruct (related_proc _ _ _ _ Hre Hp) as ([r pc0] & Hb & Hreg & Hd). destruct p as [[r' pc] buf]. simpl in Hreg, Hd. subst r'.
  destruct Hre as [Hm Hall]. pose proof (proc_range rs Hrs a t _ (bi_regs _ _ Hinv) Hb) as [Hr _]. simpl in Hr.
  destruct x as [x|w|]; unfold tso_act in Hact; cbn [b_kind b_act b_store b_write tso_boot] in Hact.
  - assert (Hcode : exists y, boot_kind x (BootProc r pc) <> Stores /\
      (boot_kind x (BootProc r pc) = Locked -> buf = []) /\ boot_act t x (see tso_boot buf (shared s)) (BootProc r pc) = Some y).
    { destruct (boot_kind x (BootProc r pc)); [|done|destruct buf; [|done]];
        destruct (boot_act t x _ (BootProc r pc)) as [y|] eqn:Hy; try done; by exists y. }
    destruct Hcode as (y & Hk & Hl & Hy).
    destruct (delayed_code _ _ _ _ _ _ _ _ Hr Hd Hk Hl Hy) as (-> & -> & Hpc). destruct y as [[m1 b1] ev].
    change (see tso_boot [] (shared s)) with (shared s) in *.
    assert (Hb1 : bp_reg b1 = r).
    { unfold boot_act in Hy. cbn [bp_pc bp_reg] in Hy. destruct x; [|by destruct pc; try done; injection Hy as _ <- _].
      destruct (boot_exec _ _ _ _) as [[[? ?] ?]|]; [|done]. by injection Hy as _ <- _. }
    assert (Hacts : m' = m1 /\ p' = TsoThread b1 []).
    { destruct (boot_kind x (BootProc r pc)) eqn:Hkx; [|done|]; rewrite Hy in Hact; simpl in Hact; simplify_eq; [|done].
      split; [|done]. symmetry. by eapply boot_loads. }
    destruct Hacts as [-> ->]. eexists [(t, ev)], (Sys m1 (<[t := b1]> (locals a))). split.
    + apply trace_one. destruct a as [ma ps]. simpl in Hm. subst ma. by apply (step_act _ _ ps t (BootProc r pc) x).
    + apply related_update; [done|]. split; [done|constructor].
  - destruct (boot_store t w _ _) as [x|] eqn:Hst; [|done]. cbn [mbind option_bind] in Hact.
    destruct (boot_act t x _ _) as [[[m1 b1] ev]|] eqn:Hy; [|done]. injection Hact as <- <- <-.
    destruct (delayed_store _ _ _ _ _ _ _ _ _ _ _ _ Hinv (conj Hm Hall) Hp Hd Hst Hy) as [Hreg' Hd'].
    exists [], a. split; [constructor|]. assert (Hupd : boot_related (Sys (shared s) (<[t := TsoThread b1 (buf ++ [w])]> (locals s)))
      (Sys (shared s) (<[t := BootProc r pc0]> (locals a)))) by (by apply related_update).
    rewrite (list_insert_id (locals a)) in Hupd by done. split; [exact Hm|apply Hupd].
  - destruct buf as [|w buf]; [done|]. injection Hact as <- <- <-.
    assert (Harr : exists pc1, boot_step a (t, tt) (Sys (boot_do_write w (shared a)) (<[t := BootProc r pc1]> (locals a))) /\
      delayed r pc buf pc1).
    { inversion Hd; subst.
      - exists StorePtr. split; [by apply box_step|constructor].
      - exists StorePtr. split; [by apply box_step|constructor].
      - exists AddCount. split; [by apply ptr_step|constructor]. }
    destruct Harr as (pc1 & Hs & Hd1). rewrite Hm in Hs. eexists _, _. split; [by apply trace_one|].
    apply related_update; [done|]. by split.
Qed.

Lemma boot_tso_trace tr s :
  trace (tso_step tso_boot) (tso_boot_start rs) tr s ->
  exists tr' a, trace boot_step (boot_start rs) tr' a /\ boot_inv rs a /\ boot_related s a.
Proof.
  intros Htr. remember (tso_boot_start rs) as s0 eqn:Hs0. induction Htr as [|s0 tr s [t e] s' Htr IH Hstep]; subst.
  - exists [], (boot_start rs). split; [constructor|]. split; [by apply boot_inv_start|]. split; [done|].
    simpl. rewrite map_map. clear. induction rs as [|r rs' IH]; simpl; constructor; [by split; [|constructor]|done].
  - destruct (IH eq_refl) as (tr1 & a & Ha & Hinv & Hre).
    destruct (boot_related_step _ _ _ _ _ Hinv Hre Hstep) as (tr2 & a' & Ha' & Hre').
    exists (tr1 ++ tr2), a'. split; [by eapply trace_app|]. split; [|done].
    exact (trace_invariant_plain _ _ _ _ _ (boot_inv_step rs Hrs) Ha' Hinv).
Qed.

(** *** What follows *)

Lemma delayed_phase r pc buf pc0 : delayed r pc buf pc0 -> (phase pc0 <= phase pc)%nat.
Proof. by intros []; simpl; lia. Qed.

Lemma delayed_settled r pc buf pc0 : delayed r pc buf pc0 -> (3 <= phase pc)%nat -> buf = [] /\ pc0 = pc.
Proof. by intros []; simpl; [|lia..]. Qed.

Lemma settled_proc s a t p :
  boot_related s a -> locals s !! t = Some p -> (3 <= phase (bp_pc (pc p)))%nat -> locals a !! t = Some (pc p).
Proof.
  intros Hre Hp Hph. destruct (related_proc _ _ _ _ Hre Hp) as ([r pc0] & Hb & Hreg & Hd).
  destruct (delayed_settled _ _ _ _ Hd Hph) as [_ Heq]. destruct p as [[r' pc'] buf]. simpl in *. by subst.
Qed.

(** Nobody is stuck or has panicked. *)
Lemma boot_tso_moves s a t p :
  boot_inv rs a -> boot_related s a -> locals s !! t = Some p -> bp_pc (pc p) <> Ready ->
  exists e s', tso_step tso_boot s (t, e) s'.
Proof.
  intros Hinv Hre Hp Hpc. destruct (related_proc _ _ _ _ Hre Hp) as ([r pc0] & Hb & Hreg & Hd).
  destruct p as [[r' pc] buf], s as [m ps]. simpl in Hreg, Hd, Hp, Hpc. subst r'.
  assert (Hact : forall x y, tso_act tso_boot t x m (TsoThread (BootProc r pc) buf) = Some y ->
    exists e s', tso_step tso_boot (Sys m ps) (t, e) s').
  { intros x [[m' p'] e] Hact. eexists _, _. by apply (step_act _ m ps t (TsoThread (BootProc r pc) buf) x). }
  destruct buf as [|w buf]; [|by eapply (Hact Flush)].
  assert (pc0 = pc) as -> by (by inversion Hd). destruct Hre as [Hm _]. simpl in Hm.
  destruct (boot_exec_inv rs Hrs a t r pc Hinv Hb Hpc) as (st' & booted' & pc' & Hex & _). rewrite Hm in Hex.
  assert (Hgo : boot_act t Go m (BootProc r pc) = Some (BootState st' booted', BootProc r pc', tt)).
  { unfold boot_act. cbn [bp_pc bp_reg]. by rewrite Hex. }
  destruct (boot_kind Go (BootProc r pc)) eqn:Hk.
  - eapply (Hact (Code Go)). unfold tso_act. cbn [b_kind b_act tso_boot]. rewrite Hk.
    change (see tso_boot [] m) with m. by rewrite Hgo.
  - assert (Hst : exists w, boot_store t w m (BootProc r pc) = Some Go).
    { pose proof (proc_range rs Hrs a t _ (bi_regs _ _ Hinv) Hb) as [Hr _]. simpl in Hr.
      unfold boot_store. cbn [bp_pc bp_reg]. destruct pc; try discriminate Hk.
      - exists (box r). unfold box. by rewrite decide_True.
      - pose proof (bi_heap _ _ Hinv t _ Hb eq_refl) as Hheap. rewrite Hm in Hheap. simpl in Hheap. exists (ptr r).
        unfold ptr. rewrite Hheap. cbn [mbind option_bind cpu_index registered]. rewrite decide_True; [done|].
        split_and!; [done|done|unfold MAX_CPUS; lia]. }
    destruct Hst as [w Hst]. eapply (Hact (Store w)). unfold tso_act. cbn [b_store b_act tso_boot].
    change (see tso_boot [] m) with m. rewrite Hst. cbn [mbind option_bind]. by rewrite Hgo.
  - eapply (Hact (Code Go)). unfold tso_act. cbn [b_kind b_act tso_boot]. rewrite Hk. by rewrite Hgo.
Qed.

(** [get_cpu] finds nothing, or the complete structure of a processor. *)
Lemma get_cpu_registered a i :
  boot_inv rs a -> exists o, get_cpu (bs_percpu (shared a)) i = Some o /\
    forall c, o = Some c -> exists r, r ∈ rs /\ c = registered r /\ reg_index r = Z.of_nat i.
Proof.
  intros Hinv. destruct (decide (i < MAX_CPUS)%nat) as [Hi|Hi].
  - destruct (stored_at (locals a) i) as [(t & b & Hb & Hst & Hbi)|Hno].
    + pose proof (get_cpu_stored rs Hrs a t b Hinv Hb Hst) as Hget. rewrite Hbi, Nat2Z.id in Hget. eexists. split; [done|].
      intros c [= <-]. exists (bp_reg b). split_and!; [|done|done]. rewrite <-(bi_regs _ _ Hinv).
      apply list_elem_of_fmap_2. by eapply list_elem_of_lookup_2.
    + exists None. split; [by apply (get_cpu_empty rs a i)|done].
  - exists None. split; [|done]. unfold get_cpu. destruct (Nat.leb_spec MAX_CPUS i); [done|lia].
Qed.

Lemma found_below_related s a i cpus :
  boot_related s a -> found_below (locals a) i cpus -> found_below (map pc (locals s)) i cpus.
Proof.
  intros [_ Hall] (regs & -> & Hs & Hf). exists regs. split; [done|]. split; [done|].
  eapply Forall_impl; [exact Hf|]. intros r (Hi & t & b & Hb & Hst & Hr). split; [done|].
  destruct (Forall2_lookup_r _ _ _ _ _ Hall Hb) as (p & Hp & Hreg & Hd). exists t, (pc p). split.
  { change ((pc <$> locals s) !! t = Some (pc p)). by rewrite list_lookup_fmap, Hp. }
  split; [|congruence]. pose proof (delayed_phase _ _ _ _ Hd). unfold stored, reached in *.
  apply Nat.leb_le in Hst. apply Nat.leb_le. lia.
Qed.
End proofs.

(** ** Properties *)

(** C12: processors may register at the same time, and look at the per-CPU data
    while others register, on memory with store buffers. The statics and the heap
    are always in a state that the machine without store buffers reaches. No
    processor panics or is stuck; [get_cpu] never gives a processor a pointer to a
    structure that is not complete; once its GS base is set [get_current_cpu] gives
    it its own structure; [all_cpus] returns as many processors as it read from the
    counter, all of them registered, each once and by increasing index; and when
    all are done the array, the counter and the GS bases are as after registrations
    one after the other, and [APS_BOOTED] is the number of application processors. *)
Theorem boot_tso_concurrent p rs tr s :
  boot_ok rs -> trace (tso_step tso_boot) (tso_boot_start rs) tr s ->
  (exists tr' a, trace boot_step (boot_start rs) tr' a /\ shared a = shared s) /\
  (forall t q, locals s !! t = Some q -> bp_pc (pc q) <> Panicked /\
     (bp_pc (pc q) <> Ready -> exists e s', tso_step tso_boot s (t, e) s')) /\
  (forall t q i, locals s !! t = Some q -> exists o, get_cpu (boot_view s q) i = Some o /\
     forall c, o = Some c -> exists r, r ∈ rs /\ c = registered r /\ reg_index r = Z.of_nat i) /\
  (forall t q, locals s !! t = Some q -> (4 <= phase (bp_pc (pc q)))%nat ->
     get_current_cpu p (boot_view s q) (reg_me (bp_reg (pc q))) = Some (Ok (registered (bp_reg (pc q))))) /\
  (forall t q count cpus, locals s !! t = Some q -> bp_pc (pc q) = Found count cpus ->
     Z.of_nat (length cpus) = count /\ found_below (map pc (locals s)) MAX_CPUS cpus) /\
  ((forall t q, locals s !! t = Some q -> phase (bp_pc (pc q)) = 5%nat) ->
     percpu_inv (bs_percpu (shared s)) rs /\
     bs_booted (shared s) = Z.of_nat (count_if (fun r => negb (reg_is_bsp r)) rs)).
Proof.
  intros Hok Htr. destruct (boot_tso_trace rs Hok tr s Htr) as (tr' & a & Ha & Hinv & Hre). pose proof Hre as [Hm Hall].
  assert (Hin : forall t q, locals s !! t = Some q -> <[t := pc q]> (locals a) !! t = Some (pc q)).
  { intros t q Hq. apply list_lookup_insert_eq. rewrite <-(Forall2_length _ _ _ Hall). by eapply lookup_lt_Some. }
  split; [by exists tr', a|]. split; [|split; [|split; [|split]]].
  - intros t q Hq. split; [|by eapply (boot_tso_moves rs Hok)].
    pose proof (view_inv rs Hok s a t q Hinv Hre Hq) as Hv. intros Hp.
    pose proof (bi_readers _ _ Hv t _ (Hin t q Hq)) as Hr. by rewrite Hp in Hr.
  - intros t q i Hq. exact (get_cpu_registered rs Hok _ i (view_inv rs Hok s a t q Hinv Hre Hq)).
  - intros t q Hq Hph.
    exact (get_current_registered p rs _ t (pc q) (view_inv rs Hok s a t q Hinv Hre Hq) (Hin t q Hq) Hph).
  - intros t q count cpus Hq Hpc. assert (Hph : (3 <= phase (bp_pc (pc q)))%nat) by (rewrite Hpc; simpl; lia).
    pose proof (bi_readers _ _ Hinv t _ (settled_proc s a t q Hre Hq Hph)) as Hrd. rewrite Hpc in Hrd.
    destruct Hrd as [Hf Hl]. split; [done|by eapply found_below_related].
  - intros Hph. rewrite <-Hm. apply all_registered; [done|done|]. intros t b Hb.
    destruct (Forall2_lookup_r _ _ _ _ _ Hall Hb) as (q & Hq & _).
    pose proof (settled_proc s a t q Hre Hq ltac:(rewrite (Hph t q Hq); lia)) as Hb'. simplify_eq. by eapply Hph.
Qed.

(** ** Witness: the bootstrap processor is registered and looks; the stores of CPU 2
    wait, so that CPU 2 sees its structure and the other one does not *)

Definition reg_bsp : registration := Registration 0 0x10000 0 0 true.
Definition reg_cpu2 : registration := Registration 2 0x10080 2 4 false.

Definition demo_boot_tso_sched : list (nat * tso_action boot_action boot_write) :=
  [(0%nat, Store (box reg_bsp)); (0%nat, Store (ptr reg_bsp)); (0%nat, Flush); (0%nat, Flush); (0%nat, Code Go);
   (0%nat, Code Go); (0%nat, Code AllCpus); (1%nat, Store (box reg_cpu2)); (1%nat, Store (ptr reg_cpu2)); (1%nat, Flush);
   (0%nat, Code Go); (0%nat, Code Go)].

Definition demo_boot_tso : tso_boot_sys * list (nat * tso_event unit boot_write) :=
  default (tso_boot_start demo_boot, []) (run (tso_act tso_boot) (tso_boot_start demo_boot) demo_boot_tso_sched).

Lemma demo_boot_tso_runs : trace (tso_step tso_boot) (tso_boot_start demo_boot) (snd demo_boot_tso) (fst demo_boot_tso).
Proof. apply (run_trace _ _ demo_boot_tso_sched). vm_compute. exact eq_refl. Qed.

Lemma boot_tso_concurrent_witness :
  map buffer (locals (fst demo_boot_tso)) = [[]; [ptr reg_cpu2]; []] /\
  (exists q0 q1, locals (fst demo_boot_tso) !! 0%nat = Some q0 /\ locals (fst demo_boot_tso) !! 1%nat = Some q1 /\
    get_cpu (boot_view (fst demo_boot_tso) q0) 2 = Some None /\
    get_cpu (boot_view (fst demo_boot_tso) q1) 2 = Some (Some (registered reg_cpu2))) /\
  found_below (map pc (locals (fst demo_boot_tso))) MAX_CPUS [registered reg_bsp].
Proof.
  split; [vm_compute; exact eq_refl|]. split.
  - eexists _, _. split; [vm_compute; exact eq_refl|]. split; [vm_compute; exact eq_refl|]. split; vm_compute; exact eq_refl.
  - destruct (boot_tso_concurrent Debug demo_boot _ _ demo_boot_ok demo_boot_tso_runs) as (_ & _ & _ & _ & Hfound & _).
    eapply (Hfound 0%nat _ 1); [vm_compute; exact eq_refl|exact eq_refl].
Defined.
