(* ===== verification/ApicRegs.v ===== *)
(** * ApicRegs: the registers that the local APIC driver touches
    (src/src/apic.rs, [impl LocalApic])

    Every method of [LocalApic] as a call, and what hardware accepts by the
    architecture's tables: which registers exist in xAPIC and in x2APIC mode, which
    can be read and which written, and which bits of a written value are reserved (or
    read-only).
    A theorem on every access of every method. *)

From S2P Require Import Prelude Hw Apic.

(** ** The methods *)

Inductive lapic_call :=
| CReadApicBaseMsr | CWriteApicBaseMsr (value : Z)
| CPhysicalBase | CIsBsp | CSupportsX2apic | CEnableX2apic
| CEnable | CDisable | CId | CVersion | CEoi
| CReadTpr | CWriteTpr (value : Z) | CReadApr | CReadPpr | CReadRrd
| CReadLdr | CWriteLdr (value : Z) | CReadDfr | CWriteDfr (value : Z) | CReadSvr
| CReadIsr (index : Z) | CReadTmr (index : Z) | CReadIrr (index : Z) | CReadErrorStatus
| CReadLvtCmci | CWriteLvtCmci (value : Z) | CReadLvtTimer | CWriteLvtTimer (value : Z)
| CReadLvtThermal | CWriteLvtThermal (value : Z) | CReadLvtPerf | CWriteLvtPerf (value : Z)
| CReadLvtLint0 | CWriteLvtLint0 (value : Z) | CReadLvtLint1 | CWriteLvtLint1 (value : Z)
| CReadLvtError | CWriteLvtError (value : Z)
| CSendIpi (dest flags : Z) | CSendInit (dest : Z) | CSendInitDeassert (dest : Z) | CSendStartup (dest page : Z)
| CSetupTimer (vector mode divide initial_count : Z) | CStopTimer | CTimerCurrentCount
| CCalibrateTimer (delay_ms : Z).

Section calls.
Context `{Machine D} (p : profile) (fuel : nat) (delay_fn : Z -> HW D unit).

(** The call; what it returns is left out. *)
Definition lapic_exec (la : local_apic) (c : lapic_call) : HW D unit :=
  match c with
  | CReadApicBaseMsr => read_apic_base_msr;; mret tt
  | CWriteApicBaseMsr value => write_apic_base_msr value
  | CPhysicalBase => physical_base;; mret tt
  | CIsBsp => is_bsp;; mret tt
  | CSupportsX2apic => supports_x2apic;; mret tt
  | CEnableX2apic => enable_x2apic la;; mret tt
  | CEnable => enable p la
  | CDisable => disable p la
  | CId => id p la;; mret tt
  | CVersion => version p la;; mret tt
  | CEoi => eoi p la
  | CReadTpr => read_tpr p la;; mret tt
  | CWriteTpr value => write_tpr p la value
  | CReadApr => read_apr p la;; mret tt
  | CReadPpr => read_ppr p la;; mret tt
  | CReadRrd => read_rrd p la;; mret tt
  | CReadLdr => read_ldr p la;; mret tt
  | CWriteLdr value => write_ldr p la value
  | CReadDfr => read_dfr p la;; mret tt
  | CWriteDfr value => write_dfr p la value
  | CReadSvr => read_svr p la;; mret tt
  | CReadIsr index => read_isr p la index;; mret tt
  | CReadTmr index => read_tmr p la index;; mret tt
  | CReadIrr index => read_irr p la index;; mret tt
  | CReadErrorStatus => read_error_status p la;; mret tt
  | CReadLvtCmci => read_lvt_cmci p la;; mret tt
  | CWriteLvtCmci value => write_lvt_cmci p la value
  | CReadLvtTimer => read_lvt_timer p la;; mret tt
  | CWriteLvtTimer value => write_lvt_timer p la value
  | CReadLvtThermal => read_lvt_thermal p la;; mret tt
  | CWriteLvtThermal value => write_lvt_thermal p la value
  | CReadLvtPerf => read_lvt_perf p la;; mret tt
  | CWriteLvtPerf value => write_lvt_perf p la value
  | CReadLvtLint0 => read_lvt_lint0 p la;; mret tt
  | CWriteLvtLint0 value => write_lvt_lint0 p la value
  | CReadLvtLint1 => read_lvt_lint1 p la;; mret tt
  | CWriteLvtLint1 value => write_lvt_lint1 p la value
  | CReadLvtError => read_lvt_error p la;; mret tt
  | CWriteLvtError value => write_lvt_error p la value
  | CSendIpi dest flags => send_ipi p fuel la dest flags
  | CSendInit dest => send_init_ipi p fuel la dest
  | CSendInitDeassert dest => send_init_deassert p fuel la dest
  | CSendStartup dest page => send_startup_ipi p fuel la dest page
  | CSetupTimer vector mode divide initial_count => setup_timer p la vector mode divide initial_count
  | CStopTimer => stop_timer p la
  | CTimerCurrentCount => timer_current_count p la;; mret tt
  | CCalibrateTimer delay_ms => calibrate_timer p la delay_ms delay_fn;; mret tt
  end.
End calls.

(** Arguments of the parameters' types, that the assertions of the code admit. *)
Definition args_ok (c : lapic_call) : Prop :=
  match c with
  | CWriteApicBaseMsr v => in_range 64 v
  | CReadIsr i | CReadTmr i | CReadIrr i => 0 <= i < 8
  | CWriteTpr v | CWriteLdr v | CWriteDfr v | CWriteLvtCmci v | CWriteLvtTimer v | CWriteLvtThermal v
  | CWriteLvtPerf v | CWriteLvtLint0 v | CWriteLvtLint1 v | CWriteLvtError v => in_range 32 v
  | CSendIpi dest flags => in_range 32 dest /\ in_range 32 flags
  | CSendInit dest | CSendInitDeassert dest => in_range 32 dest
  | CSendStartup dest page => in_range 32 dest /\ in_range 8 page
  | CSetupTimer vector mode divide initial_count =>
      in_range 8 vector /\ in_range 32 mode /\ in_range 32 divide /\ in_range 32 initial_count
  | CCalibrateTimer ms => 0 < ms < 2 ^ 32
  | _ => True
  end.

(** ** Specification: what the hardware accepts *)

(** No bits but those of [mask] are set. *)
Definition only (mask v : Z) : bool := Z.ldiff v mask =? 0.

(** The registers that can be read, by their offset in the page: the list of the
    architecture, and in-service, trigger mode and request registers. Four of them
    do not exist in x2APIC mode: arbitration priority, remote read, destination
    format and the upper half of the ICR. *)
Definition reg_readable (x2 : bool) (off : Z) : bool :=
  bool_decide (off ∈ [0x020; 0x030; 0x080; 0x0A0; 0x0D0; 0x0F0; 0x280; 0x2F0; 0x300; 0x320; 0x330; 0x340; 0x350;
                      0x360; 0x370; 0x380; 0x390; 0x3E0]) ||
  ((0x100 <=? off) && (off <=? 0x270) && (off mod 16 =? 0)) ||
  (negb x2 && bool_decide (off ∈ [0x090; 0x0C0; 0x0E0; 0x310])).

(** The bits of the vector table entries: vector and mask; and the delivery mode;
    and, for the two pins, polarity and trigger mode; the timer's mode. *)
Definition LVT_BITS : Z := 0x100FF.
Definition LVT_DELIVERY_BITS : Z := 0x107FF.
Definition LVT_LINT_BITS : Z := 0x1A7FF.
Definition LVT_TIMER_BITS : Z := 0x700FF.

(** Vector, delivery mode, destination mode, level, trigger mode and shorthand; the
    vector, enable, focus and broadcast suppression bits of the spurious vector
    register; the divider of the timer. *)
Definition ICR_BITS : Z := 0xCCFFF.
Definition SVR_BITS : Z := 0x13FF.
Definition DIVIDE_BITS : Z := 0xB.

(** The registers that can be written, with the bits that may be set, neither
    reserved nor read-only: task priority,
    end of interrupt and error status (0 only), spurious vector, CMCI, ICR, timer,
    thermal, performance, both pins, error, initial count, divider. *)
Definition written_bits : list (Z * Z) :=
  [(0x080, 0xFF); (0x0B0, 0); (0x0F0, SVR_BITS); (0x280, 0); (0x2F0, LVT_DELIVERY_BITS); (0x300, ICR_BITS);
   (0x320, LVT_TIMER_BITS); (0x330, LVT_DELIVERY_BITS); (0x340, LVT_DELIVERY_BITS); (0x350, LVT_LINT_BITS);
   (0x360, LVT_LINT_BITS); (0x370, LVT_BITS); (0x380, 0xFFFFFFFF); (0x3E0, DIVIDE_BITS)].

Definition bits_of (off : Z) : option Z := snd <$> List.find (fun x => fst x =? off) written_bits.

(** In xAPIC mode: the logical destination and the upper half of the ICR (bits 24 to
    31) too, and the destination format, whose bits 0 to 27 are all ones. *)
Definition reg_takes (off v : Z) : bool :=
  match bits_of off with
  | Some mask => only mask v
  | None =>
      (((off =? 0x0D0) || (off =? 0x310)) && only 0xFF000000 v) ||
      ((off =? 0x0E0) && only 0xFFFFFFFF v && (Z.land v 0x0FFFFFFF =? 0x0FFFFFFF))
  end.

(** In x2APIC mode: the ICR has 64 bits, and there is the self interrupt. *)
Definition msr_takes (off v : Z) : bool :=
  if off =? 0x300 then only (Z.lor (Z.shiftl 0xFFFFFFFF 32) ICR_BITS) v
  else if off =? 0x3F0 then only 0xFF v
  else match bits_of off with Some mask => only mask v | None => false end.

(** The value of IA32_APIC_BASE: an address, and the bits for the bootstrap
    processor, x2APIC mode and enable; x2APIC mode only with enable. *)
Definition base_ok (v : Z) : bool :=
  only (Z.lor APIC_BASE_ADDR_MASK (Z.lor APIC_BASE_BSP (Z.lor APIC_BASE_X2APIC_ENABLE APIC_BASE_ENABLE))) v &&
  (negb (Z.testbit v 10) || Z.testbit v 11).

(** The offset of an x2APIC register. *)
Definition msr_reg (msr : Z) : Z := 16 * (msr - X2APIC_MSR_BASE).

(** An access to a register that exists in the mode of [la], in a direction that it
    has, and without reserved or read-only bits set. *)
Definition accepted (la : local_apic) (a : access) : bool :=
  match a with
  | MmioRead addr _ => negb (x2apic la) && reg_readable false (addr - base_addr la)
  | MmioWrite addr v => negb (x2apic la) && reg_takes (addr - base_addr la) v
  | MsrRead msr _ => (msr =? 0x1B) || (x2apic la && reg_readable true (msr_reg msr))
  | MsrWrite msr v => if msr =? 0x1B then base_ok v else x2apic la && msr_takes (msr_reg msr) v
  end.

(** The methods for registers that do not exist in x2APIC mode (arbitration
    priority, remote read, destination format), or cannot be written. *)
Definition xapic_only (c : lapic_call) : bool :=
  match c with
  | CReadApr | CReadRrd | CReadDfr | CWriteDfr _ | CWriteLdr _ => true
  | _ => false
  end.

(** The values that the caller gives have no reserved or read-only bits set. *)
Definition args_accepted (c : lapic_call) : bool :=
  match c with
  | CWriteApicBaseMsr v => base_ok v
  | CWriteTpr v => only 0xFF v
  | CWriteLdr v => only 0xFF000000 v
  | CWriteDfr v => Z.land v 0x0FFFFFFF =? 0x0FFFFFFF
  | CWriteLvtCmci v | CWriteLvtThermal v | CWriteLvtPerf v => only LVT_DELIVERY_BITS v
  | CWriteLvtTimer v => only LVT_TIMER_BITS v
  | CWriteLvtLint0 v | CWriteLvtLint1 v => only LVT_LINT_BITS v
  | CWriteLvtError v => only LVT_BITS v
  | CSendIpi _ flags => only ICR_BITS flags
  | CSetupTimer _ mode divide _ => only DIVIDE_BITS divide && only LVT_TIMER_BITS mode
  | _ => true
  end.

(** Reserved bits of the two registers that are read, changed and written back read
    as 0. *)
Record reads_clean `{Machine D} (la : local_apic) : Prop := {
  clean_svr d : only SVR_BITS (fst (fst (reg_read la REG_SVR d))) = true;
  clean_base (s : hw D) : match rdmsr IA32_APIC_BASE_MSR s with Ok (v, _) => base_ok v = true | _ => True end;
}.

(** ** Proofs *)

(** *** Bits *)

Lemma only_lor m a b : only m (Z.lor a b) = only m a && only m b.
Proof.
  unfold only. rewrite !Z.ldiff_land, Z.land_lor_distr_l. apply eq_true_iff_eq.
  rewrite andb_true_iff, !Z.eqb_eq. apply Z.lor_eq_0_iff.
Qed.

Lemma only_land m a b : only m a = true -> only m (Z.land a b) = true.
Proof.
  unfold only. rewrite !Z.eqb_eq, !Z.ldiff_land. intros Ha.
  by rewrite (Z.land_comm a), <-Z.land_assoc, Ha, Z.land_0_r.
Qed.

Lemma only_mono m m' v : only m' m = true -> only m v = true -> only m' v = true.
Proof.
  unfold only. rewrite !Z.eqb_eq. intros Hm Hv. rewrite <-(Z.lor_ldiff_and v m), Hv, Z.lor_0_l.
  rewrite Z.ldiff_land in *. by rewrite <-Z.land_assoc, Hm, Z.land_0_r.
Qed.

Lemma only_range n v : 0 <= n -> in_range n v -> only (Z.ones n) v = true.
Proof. intros Hn Hv. unfold only. rewrite Z.ldiff_ones_r, shiftr_small by done. by rewrite Z.shiftl_0_l. Qed.

Lemma only_icr_high dest : only 0xFF000000 (shl 32 dest 24) = true.
Proof.
  unfold only, shl, wrap. rewrite <-Z.land_ones, Z.ldiff_land, <-Z.land_assoc by done.
  change (Z.land (Z.ones 32) (Z.lnot 0xFF000000)) with (Z.ones 24).
  rewrite Z.land_ones, Z.shiftl_mul_pow2, Z.mod_mul by done. done.
Qed.

Lemma msr_takes_icr dest flags :
  in_range 32 dest -> in_range 32 flags -> msr_takes REG_ICR_LOW (Z.lor (shl 64 dest 32) flags) = only ICR_BITS flags.
Proof.
  intros Hd Hf. change (msr_takes REG_ICR_LOW ?v) with (only (Z.lor (Z.shiftl 0xFFFFFFFF 32) ICR_BITS) v).
  rewrite shl_64_32, only_lor by done.
  assert (Hhigh : only (Z.shiftl 0xFFFFFFFF 32) (Z.shiftl dest 32) = true).
  { unfold only. rewrite <-Z.shiftl_ldiff by done. rewrite Z.eqb_eq.
    pose proof (only_range 32 dest ltac:(done) Hd) as Ho. unfold only in Ho. apply Z.eqb_eq in Ho.
    change (Z.ones 32) with 0xFFFFFFFF in Ho. by rewrite Ho. }
  rewrite (only_mono (Z.shiftl 0xFFFFFFFF 32)) by done. simpl. unfold only. rewrite <-Z.ldiff_ldiff_l.
  assert (Hlow : Z.land flags (Z.shiftl 0xFFFFFFFF 32) = 0).
  { pose proof (only_range 32 flags ltac:(done) Hf) as Ho. unfold only in Ho. apply Z.eqb_eq in Ho.
    rewrite <-(Z.lor_ldiff_and flags (Z.ones 32)), Ho, Z.lor_0_l, <-Z.land_assoc.
    change (Z.land (Z.ones 32) (Z.shiftl 0xFFFFFFFF 32)) with 0. apply Z.land_0_r. }
  f_equal. f_equal. rewrite <-(Z.lor_ldiff_and flags (Z.shiftl 0xFFFFFFFF 32)) at 2. by rewrite Hlow, Z.lor_0_r.
Qed.

Lemma base_ok_enable v :
  base_ok v = true -> base_ok (Z.lor v (Z.lor APIC_BASE_ENABLE APIC_BASE_X2APIC_ENABLE)) = true.
Proof.
  unfold base_ok. rewrite !andb_true_iff. intros [Hv _]. split.
  - by rewrite only_lor, Hv.
  - rewrite !Z.lor_spec. change (Z.testbit (Z.lor APIC_BASE_ENABLE APIC_BASE_X2APIC_ENABLE) 11) with true. by rewrite !orb_true_r.
Qed.

(** *** The accesses of a method *)

(** All accesses to the local APIC by the call are accepted. *)
Definition call_accepted (la : local_apic) (c : lapic_call) : bool :=
  negb (x2apic la && xapic_only c) && args_accepted c.

Section proofs.
Context `{Machine D} (p : profile) (la : local_apic) (Hm : apic_mapped la) (Hclean : reads_clean la).

(** The operation does not panic, and the accesses that it adds are all accepted, or
    not all of them, as [b] says. *)
Definition adds {A} (b : bool) (Q : A -> Prop) (m : HW D A) : Prop :=
  forall s, match m s with
            | Ok (a, s') => Q a /\ exists l, accesses s' = accesses s ++ l /\ forallb (accepted la) l = b
            | Panic => False
            | OutOfFuel => True
            end.

Abbreviation any := (fun _ => True).

Lemma adds_ret {A} (Q : A -> Prop) a : Q a -> adds true Q (mret a).
Proof. intros HQ s. simpl. split; [done|]. exists []. by rewrite app_nil_r. Qed.

Lemma adds_eq {A} b b' (Q : A -> Prop) (m : HW D A) : adds b Q m -> b = b' -> adds b' Q m.
Proof. by intros ? <-. Qed.

Lemma adds_bind {A B} b b' (Q : A -> Prop) (R : B -> Prop) (m : HW D A) (f : A -> HW D B) :
  adds b Q m -> (forall a, Q a -> adds b' R (f a)) -> adds (b && b') R (m ≫= f).
Proof.
  intros Hm' Hf s. unfold mbind, hw_bind. specialize (Hm' s). destruct (m s) as [[a s1]| |]; [|done..].
  destruct Hm' as (HQ & l1 & Hl1 & H1). specialize (Hf a HQ s1). destruct (f a s1) as [[c s2]| |]; [|done..].
  destruct Hf as (HR & l2 & Hl2 & H2). split; [done|]. exists (l1 ++ l2).
  rewrite Hl2, Hl1, <-app_assoc, forallb_app, H1, H2. done.
Qed.

Lemma adds_any {A} b (Q : A -> Prop) (m : HW D A) : adds b Q m -> adds b any m.
Proof. intros Hm' s. specialize (Hm' s). destruct (m s) as [[a s1]| |]; naive_solver. Qed.

(** An operation whose accesses are all accepted, and then another. *)
Lemma adds_then {A B} b (Q : A -> Prop) (R : B -> Prop) (m : HW D A) (f : A -> HW D B) :
  adds true Q m -> (forall a, Q a -> adds b R (f a)) -> adds b R (m ≫= f).
Proof. apply adds_bind. Qed.

(** An operation whose result is dropped. *)
Lemma adds_discard {A B} b (Q : A -> Prop) (m : HW D A) (c : B) : adds b Q m -> adds b any (m;; mret c).
Proof. intros Hm'. rewrite <-(andb_true_r b). eapply adds_bind; [exact Hm'|]. intros _ _. by apply adds_ret. Qed.

Lemma msr_reg_msr off : off mod 16 = 0 -> msr_reg (reg_msr off) = off.
Proof.
  intros Hal. unfold msr_reg, reg_msr. rewrite Z.shiftr_div_pow2 by done. change (2 ^ 4) with 16.
  pose proof (Z.div_mod off 16). lia.
Qed.

Lemma reg_msr_not_base off : 0 <= off -> (reg_msr off =? 0x1B) = false.
Proof.
  intros Hoff. apply Z.eqb_neq. unfold reg_msr, X2APIC_MSR_BASE.
  pose proof (proj2 (Z.shiftr_nonneg off 4) Hoff). lia.
Qed.

(** What a read of the register may return. *)
Definition read_of (off : Z) (v : Z) : Prop := exists d, fst (fst (reg_read la off d)) = v.

Lemma read_of_range off v : read_of off v -> in_range 32 v.
Proof. intros (d & <-). destruct (reg_read_spec la off d) as (v & d' & a & -> & _ & Hv). exact Hv. Qed.

Lemma adds_read off :
  0 <= off <= 0xFFF -> off mod 16 = 0 -> adds (reg_readable (x2apic la) off) (read_of off) (read_reg p la off).
Proof.
  intros Hoff Hal s. rewrite read_reg_eq by done.
  destruct (reg_read_spec la off (dev s)) as (v & d & a & Hr & _ & Hv). rewrite Hr.
  split; [exists (dev s); by rewrite Hr|]. exists [a]. split; [done|]. simpl. rewrite andb_true_r.
  apply reg_read_reads in Hr. destruct a; simpl in *; try done.
  - destruct Hr as (-> & -> & _). simpl. f_equal. lia.
  - destruct Hr as (-> & -> & _). by rewrite reg_msr_not_base, msr_reg_msr by lia.
Qed.

Lemma adds_write off v :
  0 <= off <= 0xFFF -> off mod 16 = 0 ->
  adds (if x2apic la then msr_takes off v else reg_takes off v) any (write_reg p la off v).
Proof.
  intros Hoff Hal s. rewrite write_reg_eq by done. split; [done|]. eexists. split; [done|]. simpl. rewrite andb_true_r.
  unfold write_access. destruct (x2apic la) eqn:Hx; simpl; rewrite Hx.
  - by rewrite reg_msr_not_base, msr_reg_msr by lia.
  - simpl. f_equal. lia.
Qed.

(** One register, with what the tables say computed. *)
Lemma adds_read_ok off : 0 <= off <= 0xFFF -> off mod 16 = 0 -> reg_readable true off = true -> adds true (read_of off) (read_reg p la off).
Proof.
  intros Hoff Hal Hr. eapply adds_eq; [by apply adds_read|]. destruct (x2apic la); [done|].
  unfold reg_readable in *. by rewrite orb_false_r in Hr; rewrite Hr.
Qed.

Lemma adds_write_ok off b v :
  0 <= off <= 0xFFF -> off mod 16 = 0 -> msr_takes off v = b -> reg_takes off v = b -> adds b any (write_reg p la off v).
Proof. intros ?? H1 H2. eapply adds_eq; [by apply adds_write|]. rewrite H1, H2. by destruct (x2apic la). Qed.

Ltac reg :=
  lazymatch goal with
  | |- adds _ _ (read_reg _ _ _) => apply adds_read_ok; done
  | |- adds _ _ (write_reg _ _ _ _) => apply adds_write_ok; [done|done|try reflexivity..]
  end.

Context (fuel : nat) (delay_fn : Z -> HW D unit) (Hdelay : forall ms, adds true any (delay_fn ms)).

(** Polling reads the ICR only. *)
Lemma adds_wait : adds true any (wait_icr_idle p fuel la).
Proof.
  unfold wait_icr_idle. destruct (x2apic la); [by apply adds_ret|].
  induction fuel as [|k IH]; [done|]. simpl wait_icr_loop. eapply adds_then; [reg|].
  intros v _. destruct (_ =? 0); [by apply adds_ret|exact IH].
Qed.

Lemma adds_send dest flags :
  in_range 32 dest -> in_range 32 flags -> adds (only ICR_BITS flags) any (send_ipi p fuel la dest flags).
Proof.
  intros Hd Hf. unfold send_ipi. eapply adds_then; [apply adds_wait|]. intros _ _. destruct (x2apic la) eqn:Hx.
  - intros s. rewrite (hw_bind_ok _ _ _ _ _ (lift_arith p 32 (reg_msr REG_ICR_LOW) s (reg_msr_range _ ltac:(done)))).
    simpl. split; [done|]. eexists. split; [done|]. simpl. rewrite andb_true_r, Hx.
    by rewrite <-(msr_takes_icr dest flags).
  - eapply adds_then; [eapply adds_eq; [by apply adds_write|]|intros _ _; eapply adds_eq; [by apply adds_write|]]; rewrite Hx.
    + exact (f_equal (fun b => b || _) (only_icr_high dest)).
    + done.
Qed.

Lemma adds_send_ok dest flags :
  in_range 32 dest -> in_range 32 flags -> only ICR_BITS flags = true -> adds true any (send_ipi p fuel la dest flags).
Proof. intros Hd Hf Ho. eapply adds_eq; [by apply adds_send|done]. Qed.

Lemma adds_indexed base index :
  base ∈ [REG_ISR_BASE; REG_TMR_BASE; REG_IRR_BASE] -> 0 <= index < 8 ->
  adds true any (hw_assert (index <? 8);; offset ← lift (arith p 32 (base + index * 0x10)); read_reg p la offset).
Proof.
  intros Hb Hi. destruct (Z.ltb_spec index 8) as [_|]; [|lia].
  eapply (adds_then _ any); [by apply adds_ret|]. intros _ _.
  assert (Hcases : index ∈ [0; 1; 2; 3; 4; 5; 6; 7]) by (repeat rewrite elem_of_cons; lia).
  rewrite !elem_of_cons, elem_of_nil in Hb. rewrite !elem_of_cons, elem_of_nil in Hcases.
  eapply (adds_then _ (fun o => o = base + index * 16)).
  - intros s. rewrite lift_arith; [split; [done|]; exists []; by rewrite app_nil_r|].
    unfold REG_ISR_BASE, REG_TMR_BASE, REG_IRR_BASE in Hb. unfold in_range. lia.
  - intros o ->. destruct Hb as [->|[->|[->|[]]]];
      repeat destruct Hcases as [->|Hcases]; try (destruct Hcases); eapply adds_any; reg.
Qed.

(** The MSR of the base address. *)
Lemma adds_rdmsr : adds true (fun v => base_ok v = true) (rdmsr IA32_APIC_BASE_MSR).
Proof.
  intros s. pose proof (clean_base la Hclean s) as Hb. unfold rdmsr in *. destruct (dev_rdmsr _ (dev s)) as [[hi lo] d].
  split; [done|]. by eexists.
Qed.

Lemma adds_wrmsr v : adds (base_ok v) any (wrmsr IA32_APIC_BASE_MSR v).
Proof. intros s. split; [done|]. eexists. split; [done|]. simpl. apply andb_true_r. Qed.

Lemma adds_base :
  adds true any physical_base /\ adds true any is_bsp /\ adds true any (enable_x2apic la).
Proof.
  split_and!; eapply adds_then; try apply adds_rdmsr; intros v Hv; try by apply adds_ret.
  eapply adds_then; [eapply adds_eq; [apply adds_wrmsr|by apply base_ok_enable]|]. intros _ _. by apply adds_ret.
Qed.

Lemma adds_svr : adds true any (enable p la) /\ adds true any (disable p la).
Proof.
  assert (Hw : forall v, only SVR_BITS v = true -> adds true any (write_reg p la REG_SVR v)) by (intros v Hv; by apply adds_write_ok).
  unfold enable, disable. split; (eapply adds_then; [reg|]); intros v (d & <-);
    pose proof (only_land _ _ (bnot 32 0xFF) (clean_svr la Hclean d)) as Hc; apply Hw.
  - by rewrite !only_lor, Hc.
  - apply only_land, Hclean.
Qed.

Lemma only_vector m v : only m 0xFF = true -> in_range 8 v -> only m v = true.
Proof. intros Hmask Hv. apply (only_mono 0xFF); [done|]. by apply (only_range 8). Qed.

Lemma only_word v : in_range 32 v -> only 0xFFFFFFFF v = true.
Proof. by apply (only_range 32). Qed.

Lemma adds_timer_setup vector mode divide count :
  in_range 8 vector -> in_range 32 count ->
  adds (only DIVIDE_BITS divide && only LVT_TIMER_BITS mode) any (setup_timer p la vector mode divide count).
Proof.
  intros Hv Hc. unfold setup_timer. eapply adds_bind; [reg|intros _ _].
  rewrite <-(andb_true_r (only LVT_TIMER_BITS mode)). eapply adds_bind.
  - eapply adds_write_ok; [done|done| |]; (etransitivity; [apply only_lor|]); rewrite (only_vector _ vector) by done; apply andb_true_r.
  - intros _ _. apply adds_write_ok; [done|done|by apply only_word..].
Qed.

Lemma adds_stop_timer : adds true any (stop_timer p la).
Proof. unfold stop_timer. eapply adds_then; [reg|intros _ _; reg]. Qed.

Lemma adds_calibrate delay_ms : 0 < delay_ms -> adds true any (calibrate_timer p la delay_ms delay_fn).
Proof.
  intros Hms. unfold calibrate_timer. do 3 (eapply adds_then; [reg|intros _ _]).
  eapply adds_then; [apply Hdelay|intros _ _]. eapply adds_then; [unfold timer_current_count; reg|intros r _].
  eapply adds_then; [reg|intros _ _]. destruct (Z.eqb_spec delay_ms 0); [lia|]. by apply adds_ret.
Qed.

(** A method that reads, and one that writes, one register. *)
Lemma adds_get off :
  0 <= off <= 0xFFF -> off mod 16 = 0 ->
  adds (reg_readable (x2apic la) off) any (read_reg p la off;; mret tt).
Proof. intros. eapply adds_discard. by apply adds_read. Qed.

Lemma adds_put off v b :
  0 <= off <= 0xFFF -> off mod 16 = 0 ->
  (if x2apic la then msr_takes off v else reg_takes off v) = b -> adds b any (write_reg p la off v).
Proof. intros. eapply adds_eq; [by apply adds_write|done]. Qed.

(** The methods that do more than one access. *)
Lemma adds_id : adds true any (id p la).
Proof. unfold id. eapply adds_then; [reg|]. intros v _. by apply adds_ret. Qed.

Lemma adds_error_status : adds true any (read_error_status p la).
Proof. unfold read_error_status. eapply adds_then; [reg|intros _ _]. eapply adds_any. reg. Qed.

Lemma lapic_adds c : args_ok c -> adds (call_accepted la c) any (lapic_exec p fuel delay_fn la c).
Proof.
  intros Ha. destruct adds_base as (Hpb & Hbsp & Hen), adds_svr as [Hon Hoff].
  unfold call_accepted. destruct c; cbn [args_ok] in Ha; cbn [lapic_exec xapic_only args_accepted];
    rewrite ?andb_false_r, ?andb_true_r; cbn [negb andb];
    try (by eapply adds_discard; eassumption);
    try (eapply adds_eq; [by apply adds_get|]; destruct (x2apic la); exact eq_refl);
    try (apply adds_put; [done|done|]; destruct (x2apic la); exact eq_refl).
  - eapply adds_discard, adds_rdmsr.
  - apply adds_wrmsr.
  - intros s. split; [done|]. exists []. by rewrite app_nil_r.
  - exact Hon.
  - exact Hoff.
  - eapply adds_discard, adds_id.
  - apply adds_put; [done|done|]. destruct (x2apic la); [done|exact (orb_false_r _)].
  - apply adds_put; [done|done|]. destruct (x2apic la); [done|].
    change (only 0xFFFFFFFF value && (Z.land value 0x0FFFFFFF =? 0x0FFFFFFF) = (Z.land value 0x0FFFFFFF =? 0x0FFFFFFF)).
    by rewrite only_word.
  - eapply adds_discard, (adds_indexed REG_ISR_BASE); [repeat constructor|exact Ha].
  - eapply adds_discard, (adds_indexed REG_TMR_BASE); [repeat constructor|exact Ha].
  - eapply adds_discard, (adds_indexed REG_IRR_BASE); [repeat constructor|exact Ha].
  - eapply adds_discard, adds_error_status.
  - by destruct Ha; apply adds_send.
  - by apply adds_send_ok.
  - by apply adds_send_ok.
  - destruct Ha as [Hd Hpage]. apply adds_send_ok; [done|by apply icr_startup_range|].
    unfold icr_startup_flags. rewrite only_lor. by apply only_vector.
  - destruct Ha as (? & ? & ? & ?). by apply adds_timer_setup.
  - apply adds_stop_timer.
  - destruct Ha. by eapply adds_discard, adds_calibrate.
Qed.
End proofs.

(** ** Theorems *)

(** C19: Every method of the driver, called with arguments of its types that its
    assertions admit, does not panic, and says exactly when the hardware accepts all
    its accesses: when the registers exist in the mode and have the direction (this
    fails always, and only, for five methods in x2APIC mode: those for the
    arbitration priority, remote read and destination format registers and for
    writing the logical destination), and the values written have no reserved or
    read-only bits set, which the methods guarantee themselves but for those that write a word or
    flags of the caller as they are. The delay of [calibrate_timer] is the
    caller's; reserved bits read as 0. *)
Theorem lapic_accesses `{Machine D} p fuel (delay_fn : Z -> HW D unit) la c s :
  apic_mapped la -> reads_clean la -> (forall ms, adds la true (fun _ => True) (delay_fn ms)) -> args_ok c ->
  match lapic_exec p fuel delay_fn la c s with
  | Ok (_, s') => exists l, accesses s' = accesses s ++ l /\
      forallb (accepted la) l = negb (x2apic la && xapic_only c) && args_accepted c
  | Panic => False
  | OutOfFuel => True
  end.
Proof.
  intros Hm Hclean Hdelay Ha. pose proof (lapic_adds p la Hm Hclean fuel delay_fn Hdelay c Ha s) as Hadds.
  destruct (lapic_exec p fuel delay_fn la c s) as [[[] s']| |]; [|done..]. destruct Hadds as (_ & l & Hl & Hb).
  by exists l.
Qed.

(** Writing the logical destination, and sending an interrupt, in x2APIC mode; a
    timer entry with a reserved bit, in xAPIC mode. *)
Lemma demo_clean x2 : reads_clean (LocalApic 0xFEE00000 x2).
Proof. constructor; [by destruct x2|done]. Qed.

Lemma lapic_accesses_witness :
  (exists s', lapic_exec Debug 3 (demo_delay 1) demo_la_x2 (CWriteLdr 1) demo_start = Ok (tt, s') /\
     forallb (accepted demo_la_x2) (accesses s') = false) /\
  (exists s', lapic_exec Debug 3 (demo_delay 1) demo_la_x2 (CSendStartup 3 8) demo_start = Ok (tt, s') /\
     forallb (accepted demo_la_x2) (accesses s') = true) /\
  (exists s', lapic_exec Debug 3 (demo_delay 1) demo_la (CWriteLvtTimer 0x80020) demo_start = Ok (tt, s') /\
     forallb (accepted demo_la) (accesses s') = false).
Proof.
  assert (Hm : apic_mapped demo_la_x2) by (intros Hx; discriminate Hx).
  assert (Hd : forall la ms, adds la true (fun _ => True) (demo_delay 1 ms)).
  { intros la ms s. split; [done|]. exists []. by rewrite app_nil_r. }
  split_and!.
  - pose proof (lapic_accesses Debug 3 (demo_delay 1) demo_la_x2 (CWriteLdr 1) demo_start Hm (demo_clean true) (Hd _) ltac:(done)) as Hl.
    destruct (lapic_exec _ _ _ _ _ _) as [[[] s']| |] eqn:Hr; [|vm_compute in Hr; discriminate Hr..].
    exists s'. split; [done|]. destruct Hl as (l & Hl & Hb). rewrite Hl. exact Hb.
  - pose proof (lapic_accesses Debug 3 (demo_delay 1) demo_la_x2 (CSendStartup 3 8) demo_start Hm (demo_clean true) (Hd _) ltac:(done)) as Hl.
    destruct (lapic_exec _ _ _ _ _ _) as [[[] s']| |] eqn:Hr; [|vm_compute in Hr; discriminate Hr..].
    exists s'. split; [done|]. destruct Hl as (l & Hl & Hb). rewrite Hl. exact Hb.
  - pose proof (lapic_accesses Debug 3 (demo_delay 1) demo_la (CWriteLvtTimer 0x80020) demo_start demo_mapped (demo_clean false) (Hd _) ltac:(done)) as Hl.
    destruct (lapic_exec _ _ _ _ _ _) as [[[] s']| |] eqn:Hr; [|vm_compute in Hr; discriminate Hr..].
    exists s'. split; [done|]. destruct Hl as (l & Hl & Hb). rewrite Hl. exact Hb.
Defined.
